(* ===== verification/_CoqProject ===== *)
-Q . S2P
Prelude.v
Order.v
Text.v
Deps.v
Bincode.v
Core.v
WorldState.v
Mempool.v
Storage.v
Rpc.v
RpcApi.v
Interleave.v
Concurrent.v
Crypto.v
Staking.v
Consensus.v
Ibc.v
Relay.v
Wallet.v
Client.v
Faucet.v
Network.v
Observe.v
Node.v
NodeRun.v
WalletDir.v
Explorer.v
Signer.v
Cli.v
Bench.v
Spec.v
Harness.v
TestLedger.v
TestRpc.v
TestCrypto.v
TestConsensus.v
TestStaking.v
TestIbc.v
TestWallet.v
TestFaucet.v
TestNode.v
TestNetwork.v
TestTools.v
