(* ===== verification/Prelude.v ===== *)
(** * SubHost: a verification development

    SubHost is a demonstration blockchain in Rust (the workspace under [src/]): a
    single-node ledger behind a JSON-RPC server, the libraries of a consensus and
    cross-chain layer, and the programs around them. This development translates
    it into Rocq definitions, function by function, and proves what makes each part
    correct. The definitions are executable and keep the names of the source where
    Rocq allows it; every property with a hypothesis has a witness that runs the
    definitions on a concrete input.

    ** The program and its model

    The ledger. [subhost-core] defines hashes, addresses, transactions, blocks,
    receipts and the genesis document ([Core]). [subhost-state] executes transfers
    on an account map ([WorldState]). [subhost-mempool] holds pending transactions
    with a per-sender nonce index ([Mempool]). [subhost-storage] writes the ledger
    file atomically and validates what it reads ([Storage]). [subhost-rpc] puts
    them together: a submission is admitted to the pool, executed, sealed into a
    block, persisted and only then visible ([Rpc]); its JSON-RPC methods parse
    requests, check signatures and print answers ([RpcApi]). The server's threads
    share one node: [Concurrent] has its calls as the sequences of instructions they
    are, taking the commit lock and accessing a field, on the system of threads of
    [Interleave].
    [subhost-node] boots such a node from a genesis file and a data directory
    ([Node]) and runs it beside a metrics observer and an exporter until it is
    stopped ([NodeRun]), with the metrics and logging of [subhost-metrics] and
    [subhost-telemetry] ([Observe], modules [Metrics] and [Telemetry]). [Spec] is the
    abstract contract of the node, an append-only log, with the refinement proof.

    The libraries. [subhost-crypto]: BLS signatures, authenticated encryption, key
    exchange ([Crypto]). [subhost-consensus]: staking and slashing
    ([staking.rs], [Staking]); quorums, the vertex DAG and HotStuff view state
    ([lib.rs], [Consensus]). [subhost-ibc]: channels and packets ([Ibc]), and two such
    modules on chains that face each other, with a relayer between them ([Relay]).
    [subhost-network]: the gossip manager over a libp2p swarm ([Network]).
    [subhost-wallet]: encrypted key files ([Wallet]).

    The programs. The faucet ([subhost-faucet], [Faucet]), the explorer
    ([explorer], [Explorer]) and the command line ([subhost-cli], [Cli]) sign
    transfers with a wallet and post them to a node over HTTP. Their common client
    code is [Client]; the wallet directory the last two scan is [WalletDir]; [Signer]
    has the requests of the first two that overlap, under the lock each takes to
    sign. [subhost-bench] is [Bench].

    The tests. The test modules of the crates are translated statement by statement
    in [TestLedger], [TestRpc], [TestCrypto], [TestConsensus], [TestStaking],
    [TestIbc], [TestWallet], [TestFaucet], [TestNode], [TestNetwork] and [TestTools]
    over the assertions of [Harness]. Each file evaluates its tests on the model:
    what the authors checked of the program holds of the definitions too.

    [Prelude], [Order] and [Text] model what the code uses of Rust: [Result] and
    [?], [&mut self] methods, checked and saturating integers, sorting, strings.
    [Deps] declares the crates outside the workspace as classes of operations, each
    with a separate class of the documented laws; [Bincode] and the [Ref] modules
    hold the instances that show the laws can be met. The theorems are proved
    against the classes.

    ** How code becomes definitions

    A fallible function returns [result E A]. A method that mutates its receiver is
    a computation [ST S E A := S -> S * result E A], which returns the state on the
    error path too, so that an error leaving the state untouched is something to
    prove. A [HashMap] is a [gmap]; where the code iterates one, the iteration order
    is an argument, and the results are shown not to depend on it. Integers are [Z]
    with the width written out. The clock, random bytes and the outcome of every
    operating-system call are arguments. A file is a [Disk] record with the
    temporary file and the directory entry a power loss may bring back, so a crash
    after any prefix of the file operations can be examined. Concurrency is modelled
    where the code has it, as step relations over all interleavings: the calls on a
    node and the requests of a signing service, instruction by instruction, taking
    the lock being an instruction of the call itself; the tasks of a running node;
    the calls on two chains and the relayer's deliveries; the cooldown ledger of the
    faucet; the workers of the benchmark. The sequential definitions of [Rpc] are
    what the commit lock makes of the interleaved ones, and [commits_serializable]
    proves it.

    The runs of a node are [node_step_at fl]: submissions, inclusions, seedings and
    restarts, each failing at any file operation. [fl : Faults] says which of two
    harder faults a run may have: a directory sync that fails after the new ledger was
    renamed in place, so that a call is reported to have failed whose ledger is on
    disk, and a seeding after the first block, which no program of the workspace does.
    [serving] allows the first, [any_fault] both. The disk then holds a ledger
    [recoverable] from the one in memory. The clients reach a node through
    [node_transport], which answers every request; [lossy] is a network in front of it
    that may lose a request or an answer.

    ** What the theorems show

    - Execution ([WorldState], [Core]): a transaction executes exactly when its
      preconditions hold, with exactly the stated effect on balances and nonces;
      value is conserved up to fees; nothing executes twice; no credit overflows;
      the state root and the signing payload determine what they commit to.
    - Pool ([Mempool]): admission, replacement and eviction on every branch; every
      reachable pool satisfies the index invariant and its bounds; the index
      answers what a scan would.
    - Storage: a crash at any point of a save leaves the old or the new ledger;
      saving and loading round-trips; what loads has been validated, and validation
      accepts exactly the well-formed chains.
    - Node ([Rpc], [RpcApi], [Node], [Spec]): a failed submission changes nothing, a
      successful one commits its transaction durably, and an executable one
      succeeds; every reachable node satisfies the node invariant and refines the
      append-only log, whatever faults its run has; only signed transfers are
      committed; queries return the committed ledger; booting applies the genesis
      once, and booting again restores a ledger recoverable from the node, the very
      one in memory if no directory sync failed; a failed boot destroys nothing.
    - Concurrency ([Interleave], [Concurrent], [Signer], [NodeRun]): commits are
      serializable in the order they return, and once no new call comes every schedule
      ends with all of them returned; what a query sees between two accesses is
      coherent and already durable, and its answer is that of one instant; at every
      instant the threads show the append-only log
      before the commit in progress or after it ([Spec]); overlapping requests of a
      service that alone holds its keys each sign for the account's current nonce; a
      running node may be stopped at any instant.
    - Libraries: quorums intersect, the DAG and the HotStuff views keep their
      invariants; stake accounting is solvent and slashing exact; packets are
      received exactly once and settle once; over a relayer that may lose, repeat and
      reorder packets but forges none, no token arrives that was not sent and none
      arrives twice, and a packet its channel expects is accepted; gossip delivers what
      was published; wallets open only with their key.
    - Programs: a drip, a command-line send and an explorer transfer to a node that
      answers succeed exactly when it commits the transaction they signed, and
      otherwise leave its ledger alone; a drip whose answer is lost is the exception
      ([lost_answer_pays_twice]); drips keep the cooldown apart under concurrency if
      failing ones report back within it; the explorer signs nothing without the
      wallet's password, shows the ledger as it is and does bounded work whatever the
      node answers; [init] writes a genesis the node boots from; created wallets can
      be exported; a command touches only its part of the world; the benchmark
      counts every failure and every success within the range of its histogram, and
      none of its requests to a running node fails.

    Some lemmas record where the code departs from its documentation or intent, for
    instance [seed_breaks_restart], [full_pool_takes_cheaper],
    [stale_release_frees_newer_claim], [lost_answer_pays_twice],
    [large_payload_never_published], [publication_torn],
    [exporter_failure_unnoticed] and [ordered_channel_starves].
    [delivered_and_refunded] shows what the relayer is trusted with: it must report
    a timeout only of a packet that can no longer arrive.

    ** Bounds and fuel

    Recursion is structural almost everywhere. [trim_start_matches] and [trim] use
    the length of the string as fuel, which suffices because every step removes a
    character; [scan_ready], the reference for the pool's executable run, uses the
    number of pending transactions, and [ready_for_short] shows that is enough.
    Integer formatting recurses on a digit count that covers 128 bits.
    Machine-width hypotheses ([is_u64], [tx_wf], [block_wf], [representable]) say
    that a value fits the Rust type that holds it. Hypotheses named [no_collision]
    and [pool_no_collision] exclude a BLAKE3 collision between two concrete values.

    ** Not modelled

    Library internals: the cryptographic primitives, JSON, bincode and Prometheus
    encodings, the latency histogram, libp2p, jsonrpsee, axum, reqwest and tokio; they
    are parameters with documented laws, or outside the model. A request is the route
    it takes, a socket the outcome of binding it, a signal or the end of a task a step
    that may happen: parsing HTTP, scheduling and delivering signals are the
    libraries'. Argument parsing (clap) is not modelled: the parsed arguments are a
    record. Logging is left out, as it has no effect on the results, and so is
    recovering from a poisoned lock, as the model has no panics.
    Drawing random bytes is an argument, and wiping memory has no functional effect.
    What remains are imports, accessors that return a field, attributes for [serde]
    and clap, the page the explorer serves, and the tests of file modes, absent JSON
    fields, low-order X25519 points, the log filter's grammar and the argument
    parsers, which test libraries or the operating system. *)

From Stdlib Require Import Ascii String ZArith Lia.
From stdpp Require Export base gmap strings list sorting numbers fin_maps.

#[global] Open Scope string_scope.
#[global] Open Scope list_scope.
#[global] Open Scope Z_scope.

(** ** Fallible computations

    Rust's [Result<T, E>] with the error type first, so that [result E] is the
    monad in which the translated code sequences its [?] operators. *)

Inductive result (E A : Type) : Type :=
| Ok (a : A)
| Err (e : E).
Arguments Ok {_ _} _.
Arguments Err {_ _} _.

#[export] Instance result_eq_dec {E A : Type} `{EqDecision E, EqDecision A} :
  EqDecision (result E A).
Proof. solve_decision. Defined.

#[export] Instance result_ret {E : Type} : MRet (result E) := λ A a, Ok a.
#[export] Instance result_bind {E : Type} : MBind (result E) := λ A B f r,
  match r with Ok a => f a | Err e => Err e end.
#[export] Instance result_fmap {E : Type} : FMap (result E) := λ A B f r,
  match r with Ok a => Ok (f a) | Err e => Err e end.

(** [opt.ok_or(e)], [res.map_err(f)], and the early return
    [if cond { return Err(e); }]. *)
Definition ok_or {E A : Type} (o : option A) (e : E) : result E A :=
  match o with Some a => Ok a | None => Err e end.
Definition map_err {E F A : Type} (f : E → F) (r : result E A) : result F A :=
  match r with Ok a => Ok a | Err e => Err (f e) end.
Definition fail_if {E : Type} (b : bool) (e : E) : result E unit :=
  if b then Err e else Ok ().
Definition is_ok {E A : Type} (r : result E A) : bool :=
  match r with Ok _ => true | Err _ => false end.
Definition res_ok {E A : Type} (r : result E A) : option A :=
  match r with Ok a => Some a | Err _ => None end.

(** [iter.map(f).collect::<Result<Vec<_>, _>>()] and a fallible [for] loop. *)
Fixpoint try_map {E A B : Type} (f : A → result E B) (l : list A) : result E (list B) :=
  match l with
  | [] => Ok []
  | x :: l => y ← f x; ys ← try_map f l; Ok (y :: ys)
  end.
Fixpoint try_fold {E A B : Type} (f : B → A → result E B) (acc : B) (l : list A) : result E B :=
  match l with
  | [] => Ok acc
  | x :: l => acc ← f acc x; try_fold f acc l
  end.

(** ** Stateful computations

    A [&mut self] method that returns a [Result]. The state is returned on both
    paths: a Rust method that fails keeps every mutation made before the
    failure, so "an error leaves the state untouched" is a theorem to prove and
    not a consequence of the monad. *)
Definition ST (S E A : Type) : Type := S → S * result E A.

#[export] Instance st_ret {S E : Type} : MRet (ST S E) := λ A a s, (s, Ok a).
#[export] Instance st_bind {S E : Type} : MBind (ST S E) := λ A B f m s,
  match m s with
  | (s', Ok a) => f a s'
  | (s', Err e) => (s', Err e)
  end.

Definition st_get {S E : Type} : ST S E S := λ s, (s, Ok s).
Definition st_put {S E : Type} (s : S) : ST S E unit := λ _, (s, Ok ()).
Definition st_modify {S E : Type} (f : S → S) : ST S E unit := λ s, (f s, Ok ()).
Definition st_lift {S E A : Type} (r : result E A) : ST S E A := λ s, (s, r).
Definition st_gets {S E A : Type} (f : S → A) : ST S E A := λ s, (s, Ok (f s)).
Definition st_fail_if {S E : Type} (b : bool) (e : E) : ST S E unit := st_lift (fail_if b e).
(** A call to a method of a component with another error type,
    [self.part.method(..).map_err(f)?]. *)
Definition st_map_err {S E F A : Type} (f : E → F) (m : ST S E A) : ST S F A := λ s,
  match m s with (s', r) => (s', map_err f r) end.

(** ** Machine integers

    An unsigned integer of width [w] is a [Z] between [0] and [2^w - 1]; the
    operations below are the standard library's, with the width's maximum as
    first argument. *)
Definition u8_max : Z := 255.
Definition u32_max : Z := 4294967295.
Definition u64_max : Z := 18446744073709551615.
Definition u128_max : Z := 340282366920938463463374607431768211455.

Definition in_width (m x : Z) : Prop := 0 ≤ x ≤ m.
Abbreviation is_u8 := (in_width u8_max).
Abbreviation is_u32 := (in_width u32_max).
Abbreviation is_u64 := (in_width u64_max).
Abbreviation is_u128 := (in_width u128_max).
#[export] Instance in_width_dec m x : Decision (in_width m x).
Proof. unfold in_width. apply _. Defined.

Definition checked_add (m a b : Z) : option Z := if a + b <=? m then Some (a + b) else None.
Definition checked_mul (m a b : Z) : option Z := if a * b <=? m then Some (a * b) else None.
Definition checked_sub (a b : Z) : option Z := if b <=? a then Some (a - b) else None.
Definition saturating_add (m a b : Z) : Z := Z.min (a + b) m.
Definition saturating_sub (a b : Z) : Z := Z.max (a - b) 0.

Create HintDb subhost.
#[export] Hint Unfold in_width u8_max u32_max u64_max u128_max : subhost.

(** Integer goals that mention the widths' maxima. *)
Ltac width := unfold in_width, u8_max, u32_max, u64_max, u128_max in *; lia.

Lemma checked_add_Some m a b c : checked_add m a b = Some c ↔ c = a + b ∧ a + b ≤ m.
Proof. unfold checked_add. destruct (Z.leb_spec (a + b) m); naive_solver lia. Qed.
Lemma checked_add_None m a b : checked_add m a b = None ↔ m < a + b.
Proof. unfold checked_add. destruct (Z.leb_spec (a + b) m); naive_solver lia. Qed.
Lemma checked_mul_Some m a b c : checked_mul m a b = Some c ↔ c = a * b ∧ a * b ≤ m.
Proof. unfold checked_mul. destruct (Z.leb_spec (a * b) m); naive_solver lia. Qed.
Lemma checked_mul_None m a b : checked_mul m a b = None ↔ m < a * b.
Proof. unfold checked_mul. destruct (Z.leb_spec (a * b) m); naive_solver lia. Qed.
Lemma checked_sub_Some a b c : checked_sub a b = Some c ↔ c = a - b ∧ b ≤ a.
Proof. unfold checked_sub. destruct (Z.leb_spec b a); naive_solver lia. Qed.

(** ** Inverting translated code

    [run_inv H] decomposes an equation about the outcome of monadic code into
    one case per path, with the guards of that path as hypotheses. *)
Ltac run_unfold :=
  cbv [mret mbind st_ret st_bind st_get st_put st_modify st_lift st_gets st_fail_if
       st_map_err map_err fail_if ok_or result_ret result_bind result_fmap fmap is_ok] in *.
Ltac run_step :=
  match goal with
  | H : (_, _) = (_, _) |- _ => apply pair_equal_spec in H as [??]
  | H : Ok _ = Ok _ |- _ => injection H as H
  | H : Err _ = Err _ |- _ => injection H as H
  | H : Ok _ = Err _ |- _ => discriminate H
  | H : Err _ = Ok _ |- _ => discriminate H
  | H : context [match ?x with _ => _ end] |- _ =>
      lazymatch x with context [match _ with _ => _ end] => fail | _ => idtac end;
      destruct x eqn:?; simplify_eq
  end.
Ltac bool_hyps :=
  repeat match goal with
  | H : (_ <=? _) = true |- _ => apply Z.leb_le in H
  | H : (_ <=? _) = false |- _ => apply Z.leb_gt in H
  | H : (_ <? _) = true |- _ => apply Z.ltb_lt in H
  | H : (_ <? _) = false |- _ => apply Z.ltb_ge in H
  | H : (_ =? _) = true |- _ => apply Z.eqb_eq in H
  | H : (_ =? _) = false |- _ => apply Z.eqb_neq in H
  | H : negb _ = true |- _ => apply negb_true_iff in H
  | H : negb _ = false |- _ => apply negb_false_iff in H
  | H : (_ && _)%bool = true |- _ => apply andb_true_iff in H as [??]
  | H : (_ || _)%bool = false |- _ => apply orb_false_iff in H as [??]
  | H : bool_decide _ = true |- _ => apply bool_decide_eq_true in H
  | H : bool_decide _ = false |- _ => apply bool_decide_eq_false in H
  end.
Ltac run_inv := run_unfold; repeat run_step; simplify_eq/=; bool_hyps.

Lemma fail_if_Ok {E : Type} b (e : E) u : fail_if b e = Ok u ↔ b = false.
Proof. destruct b, u; naive_solver. Qed.
Lemma ok_or_Ok {E A : Type} (o : option A) (e : E) a : ok_or o e = Ok a ↔ o = Some a.
Proof. destruct o; naive_solver. Qed.
Lemma map_err_Ok {E F A : Type} (f : E → F) (r : result E A) a : map_err f r = Ok a ↔ r = Ok a.
Proof. destruct r; naive_solver. Qed.
Lemma bind_Ok {E A B : Type} (m : result E A) (f : A → result E B) b :
  (m ≫= f) = Ok b ↔ ∃ a, m = Ok a ∧ f a = Ok b.
Proof. destruct m; naive_solver. Qed.
Lemma guard_Ok {E A : Type} b (e : E) (k : unit → result E A) a :
  (fail_if b e ≫= k) = Ok a ↔ b = false ∧ k () = Ok a.
Proof. destruct b; naive_solver. Qed.
Lemma ok_or_bind_Ok {E A B : Type} (o : option A) (e : E) (k : A → result E B) b :
  (ok_or o e ≫= k) = Ok b ↔ ∃ a, o = Some a ∧ k a = Ok b.
Proof. destruct o; naive_solver. Qed.
Lemma map_err_bind_Ok {E F A B : Type} (f : E → F) (r : result E A) (k : A → result F B) b :
  (map_err f r ≫= k) = Ok b ↔ ∃ a, r = Ok a ∧ k a = Ok b.
Proof. destruct r; naive_solver. Qed.
Lemma try_fold_app {E A B : Type} (f : B → A → result E B) acc l1 l2 :
  try_fold f acc (l1 ++ l2) = (acc' ← try_fold f acc l1; try_fold f acc' l2).
Proof.
  revert acc; induction l1 as [|x l1 IH]; intros acc; simpl; [done|].
  destruct (f acc x); simpl; auto.
Qed.
Lemma try_map_Ok {E A B : Type} (f : A → result E B) l l' :
  try_map f l = Ok l' ↔ Forall2 (λ x y, f x = Ok y) l l'.
Proof.
  revert l'; induction l as [|x l IH]; intros l'; simpl.
  - split; [intros [= <-]; constructor | inversion 1; done].
  - rewrite bind_Ok. setoid_rewrite bind_Ok. setoid_rewrite IH. split.
    + intros (y & ? & ys & ? & [= <-]). by constructor.
    + inversion 1; subst. eauto 10.
Qed.

Lemma filter_keep {A : Type} (P : A → Prop) `{∀ x, Decision (P x)} l : Forall P l → filter P l = l.
Proof. induction 1 as [|x l Hx _ IH]; [done|]. by rewrite filter_cons_True, IH. Qed.
Lemma NoDup_map_filter {A B : Type} (f : A → B) (P : A → Prop) `{∀ x, Decision (P x)} l :
  NoDup (map f l) → NoDup (map f (filter P l)).
Proof.
  induction l as [|x l IH]; [done|]. simpl. intros [Hx Hl]%NoDup_cons. rewrite filter_cons.
  case_decide; [|by apply IH]. simpl. apply NoDup_cons. split; [|by apply IH].
  intros (y & Hy & [_ Hin]%list_elem_of_filter)%list_elem_of_fmap. apply Hx.
  apply list_elem_of_fmap. eauto.
Qed.
Lemma elem_of_concat {A : Type} (x : A) (ls : list (list A)) :
  x ∈ concat ls ↔ ∃ l, l ∈ ls ∧ x ∈ l.
Proof. rewrite list_elem_of_In, in_concat. by setoid_rewrite <-list_elem_of_In. Qed.
Lemma alter_present `{Countable K} {A : Type} (f : A → A) (m : gmap K A) k v :
  m !! k = Some v → alter f k m = <[k := f v]> m.
Proof.
  intros Hk. apply map_eq. intros i. destruct (decide (i = k)) as [->|Hne].
  - by rewrite lookup_alter_eq, Hk, lookup_insert_eq.
  - by rewrite lookup_alter_ne, lookup_insert_ne.
Qed.

(** ** Sums over finite maps *)
Section map_sum.
Context `{Countable K} {A : Type} (f : A → Z).
Implicit Types (m : gmap K A) (k : K).

Definition map_sum m : Z := map_fold (λ _ v acc, f v + acc) 0 m.

Lemma map_sum_empty : map_sum ∅ = 0.
Proof. done. Qed.
Lemma map_sum_insert_None m k v : m !! k = None → map_sum (<[k:=v]> m) = f v + map_sum m.
Proof. intros Hk. unfold map_sum. rewrite map_fold_insert_L; [done| |done]. intros; lia. Qed.
Lemma map_sum_delete m k v : m !! k = Some v → map_sum m = f v + map_sum (delete k m).
Proof.
  intros Hk. rewrite <-(insert_id m k v Hk) at 1. rewrite <-insert_delete_eq.
  by rewrite map_sum_insert_None by apply lookup_delete_eq.
Qed.
Lemma map_sum_insert_Some m k v w :
  m !! k = Some v → map_sum (<[k:=w]> m) = map_sum m - f v + f w.
Proof.
  intros Hk. rewrite <-insert_delete_eq, map_sum_insert_None by apply lookup_delete_eq.
  rewrite (map_sum_delete m k v Hk). lia.
Qed.
(** Both insertion laws at once, with the missing entry counting as [0]. *)
Lemma map_sum_insert m k w :
  map_sum (<[k:=w]> m) = map_sum m - default 0 (f <$> m !! k) + f w.
Proof.
  destruct (m !! k) as [v|] eqn:Hk; simpl.
  - by apply map_sum_insert_Some.
  - rewrite map_sum_insert_None by done. lia.
Qed.
Lemma map_sum_nonneg m : (∀ k v, m !! k = Some v → 0 ≤ f v) → 0 ≤ map_sum m.
Proof.
  induction m as [|k v m Hk Hfold IH] using map_first_key_ind; intros Hpos; [done|].
  rewrite map_sum_insert_None by done.
  pose proof (Hpos k v (lookup_insert_eq _ _ _)).
  assert (0 ≤ map_sum m); [|lia]. apply IH. intros k' v' Hk'. apply (Hpos k').
  rewrite lookup_insert_ne; [done|]. by intros ->; rewrite Hk in Hk'.
Qed.
Lemma map_sum_lookup_le m k v :
  (∀ k v, m !! k = Some v → 0 ≤ f v) → m !! k = Some v → f v ≤ map_sum m.
Proof.
  intros Hpos Hk. rewrite (map_sum_delete m k v Hk).
  assert (0 ≤ map_sum (delete k m)); [|lia].
  apply map_sum_nonneg. intros k' v' [??]%lookup_delete_Some. by apply (Hpos k').
Qed.
Lemma map_sum_pair_le m k1 k2 v1 v2 :
  (∀ k v, m !! k = Some v → 0 ≤ f v) → k1 ≠ k2 →
  m !! k1 = Some v1 → m !! k2 = Some v2 → f v1 + f v2 ≤ map_sum m.
Proof.
  intros Hpos Hne H1 H2. rewrite (map_sum_delete m k1 v1 H1).
  assert (f v2 ≤ map_sum (delete k1 m)); [|lia].
  apply (map_sum_lookup_le _ k2); [|by rewrite lookup_delete_ne].
  intros k v [??]%lookup_delete_Some. by apply (Hpos k).
Qed.
Lemma map_sum_filter (P : K * A → Prop) `{∀ x, Decision (P x)} m :
  (∀ k v, m !! k = Some v → ¬ P (k, v) → f v = 0) → map_sum (filter P m) = map_sum m.
Proof.
  induction m as [|k v m Hk IH] using map_ind; intros Hout; [by rewrite map_filter_empty|].
  assert (map_sum (filter P m) = map_sum m) as Hm.
  { apply IH. intros k' v' Hk'. apply (Hout k'). rewrite lookup_insert_ne; [done|].
    by intros ->; rewrite Hk in Hk'. }
  rewrite (map_sum_insert_None m k v Hk). destruct (decide (P (k, v))) as [HP|HP].
  - rewrite map_filter_insert_True by done. rewrite map_sum_insert_None, Hm; [done|].
    apply map_lookup_filter_None. by left.
  - rewrite map_filter_insert_False, delete_id, Hm by done.
    by rewrite (Hout k v (lookup_insert_eq _ _ _) HP).
Qed.
End map_sum.

(** Sums over lists, and a saturating fold that never saturates. *)
Definition zsum {A : Type} (f : A → Z) (l : list A) : Z := foldr (λ x acc, f x + acc) 0 l.
#[export] Instance zsum_perm {A : Type} (f : A → Z) : Proper ((≡ₚ) ==> (=)) (zsum f).
Proof. unfold zsum. induction 1; simpl; lia. Qed.
Lemma zsum_nonneg {A : Type} (f : A → Z) l : Forall (λ x, 0 ≤ f x) l → 0 ≤ zsum f l.
Proof. unfold zsum. induction 1; simpl; lia. Qed.
Lemma zsum_app {A : Type} (f : A → Z) l k : zsum f (l ++ k) = zsum f l + zsum f k.
Proof. unfold zsum. induction l as [|x l IH]; simpl; lia. Qed.
Lemma zsum_submseteq {A : Type} (f : A → Z) l k :
  l ⊆+ k → Forall (λ x, 0 ≤ f x) k → zsum f l ≤ zsum f k.
Proof.
  intros [k' ->]%submseteq_Permutation [_ Hk]%Forall_app. rewrite zsum_app.
  pose proof (zsum_nonneg f k' Hk). lia.
Qed.
Lemma map_sum_zsum `{Countable K} {A : Type} (f : A → Z) (m : gmap K A) :
  map_sum f m = zsum f (map_to_list m).*2.
Proof.
  unfold map_sum, zsum. rewrite map_fold_foldr. induction (map_to_list m) as [|[k v] l IH]; simpl;
    [done|]. by rewrite IH.
Qed.
Lemma saturating_fold {A : Type} (m : Z) (f : A → Z) (t : Z) (l : list A) :
  0 ≤ t ≤ m → Forall (λ x, 0 ≤ f x) l →
  foldl (λ total x, saturating_add m total (f x)) t l = Z.min (t + zsum f l) m.
Proof.
  intros Ht Hl. revert t Ht. induction Hl as [|x l Hx Hl IH]; intros t Ht; simpl; [lia|].
  unfold saturating_add at 2. rewrite IH by lia. pose proof (zsum_nonneg f l Hl). lia.
Qed.

(** ** Byte strings

    [Vec<u8>] and [&[u8]] are lists of bytes; [[u8; n]] is the subset type of
    the byte lists of length [n], so that a value of the model always has the
    length its Rust type fixes. *)
Abbreviation byte := ascii.
Abbreviation bytes := (list ascii).

Definition byte_val (b : byte) : Z := Z.of_N (N_of_ascii b).
Definition byte_of (z : Z) : byte := ascii_of_N (Z.to_N (z `mod` 256)).

Definition array (n : nat) : Type := dsig (λ l : bytes, length l = n).
Definition array_bytes {n : nat} (a : array n) : bytes := proj1_sig a.
Definition to_array (n : nat) (l : bytes) : option (array n) :=
  match decide (length l = n) with
  | left H => Some (dexist l H)
  | right _ => None
  end.
Definition array_repeat (b : byte) (n : nat) : array n :=
  dexist (replicate n b) (length_replicate n b).

Lemma array_eq {n} (a b : array n) : array_bytes a = array_bytes b → a = b.
Proof. apply dsig_eq. Qed.
Lemma array_length {n} (a : array n) : length (array_bytes a) = n.
Proof. apply (proj2_dsig a). Qed.
Lemma to_array_Some n l a : to_array n l = Some a ↔ array_bytes a = l.
Proof.
  unfold to_array. destruct (decide _) as [Hl|Hl]; split.
  - intros [= <-]. done.
  - intros <-. f_equal. by apply array_eq.
  - done.
  - intros <-. destruct Hl. apply array_length.
Qed.
Lemma to_array_None n l : to_array n l = None ↔ length l ≠ n.
Proof. unfold to_array. destruct (decide _); naive_solver. Qed.
Lemma to_array_bytes {n} (a : array n) : to_array n (array_bytes a) = Some a.
Proof. by apply to_array_Some. Qed.

#[export] Instance array_bytes_inj n : Inj (=) (=) (@array_bytes n).
Proof. intros a b. apply array_eq. Qed.
#[export] Instance array_eq_dec n : EqDecision (array n).
Proof.
  refine (λ a b, cast_if (decide (array_bytes a = array_bytes b))); [by apply array_eq|congruence].
Defined.
#[export] Program Instance array_countable n : Countable (array n) :=
  inj_countable array_bytes (to_array n) to_array_bytes.

Lemma byte_val_range b : 0 ≤ byte_val b ≤ 255.
Proof. unfold byte_val. pose proof (N_ascii_bounded b). lia. Qed.
#[export] Instance byte_val_inj : Inj (=) (=) byte_val.
Proof.
  intros a b Hab. unfold byte_val in Hab. apply N2Z.inj in Hab.
  by rewrite <-(ascii_N_embedding a), Hab, ascii_N_embedding.
Qed.
Lemma byte_of_val b : byte_of (byte_val b) = b.
Proof.
  unfold byte_of. pose proof (byte_val_range b).
  rewrite Z.mod_small by lia. unfold byte_val. by rewrite N2Z.id, ascii_N_embedding.
Qed.
Lemma byte_val_of z : 0 ≤ z ≤ 255 → byte_val (byte_of z) = z.
Proof.
  intros Hz. unfold byte_of, byte_val. rewrite Z.mod_small by lia.
  rewrite N_ascii_embedding by lia. lia.
Qed.

(** [uN::to_le_bytes], [to_be_bytes] and the integer a little-endian string
    spells. *)
Fixpoint le_bytes (n : nat) (z : Z) : bytes :=
  match n with
  | O => []
  | S n => byte_of (z `mod` 256) :: le_bytes n (z / 256)
  end.
Fixpoint le_value (l : bytes) : Z :=
  match l with
  | [] => 0
  | b :: l => byte_val b + 256 * le_value l
  end.
Definition be_bytes (n : nat) (z : Z) : bytes := rev (le_bytes n z).
Lemma le_bytes_length n z : length (le_bytes n z) = n.
Proof. revert z; induction n; simpl; auto. Qed.
Lemma le_value_bytes n z : 0 ≤ z < 256 ^ Z.of_nat n → le_value (le_bytes n z) = z.
Proof.
  revert z; induction n as [|n IH]; intros z Hz; [simpl in *; lia|].
  cbn [le_bytes le_value]. rewrite Nat2Z.inj_succ, Z.pow_succ_r in Hz by lia.
  pose proof (Z.mod_pos_bound z 256 ltac:(lia)). pose proof (Z.div_mod z 256 ltac:(lia)).
  rewrite byte_val_of by lia. rewrite IH; [lia|].
  split; [apply Z.div_pos; lia|apply Z.div_lt_upper_bound; lia].
Qed.
Lemma be_bytes_inj n y z :
  0 ≤ y < 256 ^ Z.of_nat n → 0 ≤ z < 256 ^ Z.of_nat n → be_bytes n y = be_bytes n z → y = z.
Proof.
  intros Hy Hz Heq%(f_equal (@rev byte)). unfold be_bytes in Heq. rewrite !rev_involutive in Heq.
  by rewrite <-(le_value_bytes n y Hy), Heq, le_value_bytes.
Qed.
Lemma be_bytes_length n z : length (be_bytes n z) = n.
Proof. unfold be_bytes. by rewrite length_rev, le_bytes_length. Qed.
