(* ===== verification/Order.v ===== *)
(** * Orders and sorting

    Rust's [Ord::cmp], [Ordering::then_with], [slice::sort_by] and
    [Iterator::min_by], with the laws the components rely on. [sort_by] is the
    standard library's stable sort: elements that compare equal keep their
    relative order. *)

From S2P Require Import Prelude.

Definition then_with (c1 c2 : comparison) : comparison :=
  match c1 with Eq => c2 | c => c end.

(** A comparison function that is a total preorder. *)
Class CmpOrder {A : Type} (cmp : A → A → comparison) : Prop := {
  cmp_opp x y : cmp y x = CompOpp (cmp x y);
  cmp_trans x y z : cmp x y ≠ Gt → cmp y z ≠ Gt → cmp x z ≠ Gt
}.

Definition cmp_le {A : Type} (cmp : A → A → comparison) (x y : A) : Prop := cmp x y ≠ Gt.
#[export] Instance cmp_le_dec {A} (cmp : A → A → comparison) : RelDecision (cmp_le cmp).
Proof. intros x y. unfold cmp_le. destruct (cmp x y); [left|left|right]; congruence. Defined.

Section cmp_facts.
Context {A : Type} (cmp : A → A → comparison) `{!CmpOrder cmp}.

#[export] Instance cmp_le_trans : Transitive (cmp_le cmp).
Proof. intros x y z. apply cmp_trans. Qed.
Lemma cmp_le_total x y : cmp_le cmp x y ∨ cmp_le cmp y x.
Proof. unfold cmp_le. rewrite (cmp_opp (cmp:=cmp) x y). destruct (cmp x y); simpl; naive_solver. Qed.
Lemma cmp_refl x : cmp x x = Eq.
Proof. pose proof (cmp_opp x x). by destruct (cmp x x). Qed.
Lemma cmp_eq_trans x y z : cmp x y = Eq → cmp y z = Eq → cmp x z = Eq.
Proof.
  intros Hxy Hyz. assert (cmp x z ≠ Gt) by (apply (cmp_trans (cmp:=cmp)) with y; congruence).
  assert (cmp z x ≠ Gt).
  { apply (cmp_trans (cmp:=cmp)) with y; rewrite (cmp_opp (cmp:=cmp) _ _), ?Hxy, ?Hyz; done. }
  rewrite (cmp_opp (cmp:=cmp) x z) in *. by destruct (cmp x z).
Qed.
Lemma cmp_lt_le_trans x y z : cmp x y = Lt → cmp y z ≠ Gt → cmp x z = Lt.
Proof.
  intros Hxy Hyz. assert (cmp x z ≠ Gt) by (apply (cmp_trans (cmp:=cmp)) with y; congruence).
  destruct (cmp x z) eqn:Hxz; try done.
  assert (cmp z x ≠ Gt) by (rewrite (cmp_opp (cmp:=cmp) x z), Hxz; done).
  assert (cmp y x ≠ Gt) as Hyx by (by apply (cmp_trans (cmp:=cmp)) with z).
  by rewrite (cmp_opp (cmp:=cmp) x y), Hxy in Hyx.
Qed.
Lemma cmp_le_lt_trans x y z : cmp x y ≠ Gt → cmp y z = Lt → cmp x z = Lt.
Proof.
  intros Hxy Hyz. assert (cmp x z ≠ Gt) by (apply (cmp_trans (cmp:=cmp)) with y; congruence).
  destruct (cmp x z) eqn:Hxz; try done.
  assert (cmp z x ≠ Gt) by (rewrite (cmp_opp (cmp:=cmp) x z), Hxz; done).
  assert (cmp z y ≠ Gt) as Hzy by (by apply (cmp_trans (cmp:=cmp)) with x).
  by rewrite (cmp_opp (cmp:=cmp) y z), Hyz in Hzy.
Qed.
End cmp_facts.

#[export] Instance Z_compare_order : CmpOrder Z.compare.
Proof.
  split; [intros; apply Z.compare_antisym|].
  intros x y z. rewrite !Z.compare_gt_iff. lia.
Qed.
Lemma cmp_key_order {A B} (f : A → B) cmp `{!CmpOrder cmp} :
  CmpOrder (λ x y, cmp (f x) (f y)).
Proof. split; intros; [apply cmp_opp|by eapply cmp_trans]. Qed.
Lemma cmp_rev_order {A} (cmp : A → A → comparison) `{!CmpOrder cmp} :
  CmpOrder (λ x y, cmp y x).
Proof. split; intros; [apply cmp_opp|by eapply cmp_trans]. Qed.
Lemma then_with_order {A} (c1 c2 : A → A → comparison)
  `{!CmpOrder c1, !CmpOrder c2} : CmpOrder (λ x y, then_with (c1 x y) (c2 x y)).
Proof.
  split.
  - intros x y. rewrite (cmp_opp (cmp:=c1) x y), (cmp_opp (cmp:=c2) x y).
    by destruct (c1 x y).
  - intros x y z Hxy Hyz.
    destruct (c1 x y) eqn:E1; [|rewrite (cmp_lt_le_trans c1 x y z)|done];
      destruct (c1 y z) eqn:E2; simpl in *; try done.
    + rewrite (cmp_eq_trans c1 x y z) by done. by apply (cmp_trans (cmp:=c2)) with y.
    + rewrite (cmp_le_lt_trans c1 x y z); [done|congruence|done].
Qed.
Lemma then_with_Eq c1 c2 : then_with c1 c2 = Eq ↔ c1 = Eq ∧ c2 = Eq.
Proof. destruct c1; naive_solver. Qed.

(** Lexicographic comparison of byte strings, the derived [Ord] of [[u8; n]]. *)
Fixpoint lex_compare (l1 l2 : bytes) : comparison :=
  match l1, l2 with
  | [], [] => Eq
  | [], _ => Lt
  | _, [] => Gt
  | a :: l1, b :: l2 => then_with (byte_val a ?= byte_val b) (lex_compare l1 l2)
  end.
Definition array_compare {n} (a b : array n) : comparison :=
  lex_compare (array_bytes a) (array_bytes b).

Lemma lex_compare_Eq l1 l2 : lex_compare l1 l2 = Eq ↔ l1 = l2.
Proof.
  revert l2; induction l1 as [|a l1 IH]; intros [|b l2]; simpl; try naive_solver.
  rewrite then_with_Eq, Z.compare_eq_iff, IH. split; [|naive_solver].
  intros [?%(inj byte_val) ->]. by subst.
Qed.
#[export] Instance lex_compare_order : CmpOrder lex_compare.
Proof.
  split.
  - intros l1; induction l1 as [|a l1 IH]; intros [|b l2]; simpl; try done.
    rewrite IH, (Z.compare_antisym (byte_val a)). by destruct (byte_val a ?= byte_val b).
  - intros l1; induction l1 as [|a l1 IH]; intros [|b l2] [|c l3]; simpl; try done.
    intros Hxy Hyz.
    destruct (Z.compare_spec (byte_val a) (byte_val b)) as [Hab|Hab|Hab]; simpl in *; try done;
      destruct (Z.compare_spec (byte_val b) (byte_val c)) as [Hbc|Hbc|Hbc]; simpl in *; try done.
    + rewrite Hab, Hbc, Z.compare_refl. simpl. by apply IH with l2.
    + assert (byte_val a < byte_val c) as Hac%Z.compare_lt_iff by lia. by rewrite Hac.
    + assert (byte_val a < byte_val c) as Hac%Z.compare_lt_iff by lia. by rewrite Hac.
    + assert (byte_val a < byte_val c) as Hac%Z.compare_lt_iff by lia. by rewrite Hac.
Qed.
#[export] Instance array_compare_order n : CmpOrder (@array_compare n).
Proof. apply (cmp_key_order (array_bytes (n:=n)) lex_compare). Qed.
Lemma array_compare_Eq {n} (a b : array n) : array_compare a b = Eq ↔ a = b.
Proof. unfold array_compare. rewrite lex_compare_Eq. split; [apply array_eq|by intros ->]. Qed.

(** ** The stable sort *)
Section sort_by.
Context {A : Type} (cmp : A → A → comparison).

(** Insert before the first element that does not compare smaller. *)
Fixpoint insert_by (x : A) (l : list A) : list A :=
  match l with
  | [] => [x]
  | y :: l' => match cmp x y with Gt => y :: insert_by x l' | _ => x :: l end
  end.
Definition sort_by (l : list A) : list A := foldr insert_by [] l.

(** [Iterator::min_by]: the first of the minimal elements. *)
Definition min_by (l : list A) : option A :=
  match l with
  | [] => None
  | x :: l => Some (foldl (λ m y, match cmp m y with Gt => y | _ => m end) x l)
  end.

Lemma insert_by_perm x l : insert_by x l ≡ₚ x :: l.
Proof.
  induction l as [|y l IH]; simpl; [done|]. destruct (cmp x y); try done.
  rewrite IH. apply Permutation_swap.
Qed.
Lemma sort_by_perm l : sort_by l ≡ₚ l.
Proof. induction l as [|x l IH]; simpl; [done|]. by rewrite insert_by_perm, IH. Qed.

Context `{!CmpOrder cmp}.

Lemma insert_by_sorted x l : Sorted (cmp_le cmp) l → Sorted (cmp_le cmp) (insert_by x l).
Proof.
  induction l as [|y l IH]; simpl; intros Hl; [by repeat constructor|].
  destruct (cmp x y) eqn:Hxy; [constructor; [done|constructor; unfold cmp_le; congruence]..|].
  apply Sorted_inv in Hl as [Hl Hhd]. constructor; [by apply IH|].
  assert (cmp_le cmp y x) by (unfold cmp_le; rewrite (cmp_opp (cmp:=cmp) x y), Hxy; done).
  destruct l as [|z l]; simpl; [by constructor|].
  inversion Hhd; subst. destruct (cmp x z); by constructor.
Qed.
Lemma sort_by_sorted l : Sorted (cmp_le cmp) (sort_by l).
Proof. induction l; simpl; [constructor|]. by apply insert_by_sorted. Qed.

(** Sorting forgets the order of its input when comparing equal is equality. *)
Lemma sort_by_unique l1 l2 :
  l1 ≡ₚ l2 → (∀ x y, x ∈ l1 → y ∈ l1 → cmp x y = Eq → x = y) → sort_by l1 = sort_by l2.
Proof.
  intros Hperm Huniq. apply (Sorted_unique_strong (cmp_le cmp)).
  - intros x y Hx Hy Hxy Hyx. rewrite sort_by_perm in Hx, Hy.
    rewrite <-Hperm in Hy. apply Huniq; [done..|].
    unfold cmp_le in *. rewrite (cmp_opp (cmp:=cmp) x y) in Hyx. by destruct (cmp x y).
  - apply sort_by_sorted.
  - apply sort_by_sorted.
  - by rewrite !sort_by_perm.
Qed.

Lemma min_by_foldl x l :
  let m := foldl (λ m y, match cmp m y with Gt => y | _ => m end) x l in
  m ∈ x :: l ∧ cmp m x ≠ Gt ∧ ∀ y, y ∈ l → cmp m y ≠ Gt.
Proof.
  revert x; induction l as [|y l IH]; intros x; simpl.
  - split_and!; [by left| |by intros ? ?%elem_of_nil]. by rewrite (cmp_refl cmp).
  - set (x' := match cmp x y with Gt => y | _ => x end).
    destruct (IH x') as (Hin & Hx' & Hl).
    assert (cmp x' x ≠ Gt ∧ cmp x' y ≠ Gt) as [Hx1 Hx2].
    { unfold x'. destruct (cmp x y) eqn:Hxy; rewrite ?(cmp_refl cmp), ?Hxy; try done.
      by rewrite (cmp_opp (cmp:=cmp) x y), Hxy. }
    split_and!.
    + apply elem_of_cons in Hin as [->|?]; [|by do 2 right].
      unfold x'. destruct (cmp x y); [left|left|right; left].
    + by apply (cmp_trans (cmp:=cmp)) with x'.
    + intros z [->|?]%elem_of_cons; [by apply (cmp_trans (cmp:=cmp)) with x'|by apply Hl].
Qed.
Lemma min_by_Some l m : min_by l = Some m → m ∈ l ∧ ∀ y, y ∈ l → cmp m y ≠ Gt.
Proof.
  destruct l as [|x l]; simpl; [done|]. intros [= <-].
  destruct (min_by_foldl x l) as (Hin & Hx & Hl). split; [done|].
  by intros y [->|?]%elem_of_cons; [|apply Hl].
Qed.
Lemma min_by_None l : min_by l = None ↔ l = [].
Proof. by destruct l. Qed.
End sort_by.

Lemma StronglySorted_filter {A} (R : A → A → Prop) (P : A → Prop) `{∀ x, Decision (P x)} l :
  StronglySorted R l → StronglySorted R (filter P l).
Proof.
  induction 1 as [|x l Hl IH Hall]; [constructor|]. rewrite filter_cons. case_decide; [|done].
  constructor; [done|]. rewrite Forall_forall in Hall |- *. intros y [_ Hy]%list_elem_of_filter. auto.
Qed.
Lemma sort_by_id {A} (cmp : A → A → comparison) l : Sorted (cmp_le cmp) l → sort_by cmp l = l.
Proof.
  induction 1 as [|x l _ IH Hhd]; [done|]. simpl. rewrite IH. destruct Hhd as [|y l Hxy]; [done|].
  simpl. unfold cmp_le in Hxy. by destruct (cmp x y).
Qed.
