(* ===== verification/Text.v ===== *)
(** * Strings

    The parts of Rust's [str] and integer formatting that the code uses. A
    [&str] is modelled by its UTF-8 bytes (Stdlib's [string]), so [len] is the
    byte length and [trim] recognises the UTF-8 encodings of the Unicode
    white-space characters. *)

From Stdlib Require Import Ascii String.
From S2P Require Import Prelude.

Definition str_bytes (s : string) : bytes := String.list_ascii_of_string s.
Definition bytes_str (l : bytes) : string := String.string_of_list_ascii l.
Definition str_len (s : string) : Z := Z.of_nat (String.length s).
Definition is_empty (s : string) : bool := match s with EmptyString => true | _ => false end.

(** [strip_prefix], [starts_with] and [trim_start_matches] for string patterns. *)
Fixpoint strip_prefix (p s : string) : option string :=
  match p, s with
  | EmptyString, _ => Some s
  | String a p, String b s => if bool_decide (a = b) then strip_prefix p s else None
  | String _ _, EmptyString => None
  end.
Definition starts_with (p s : string) : bool :=
  match strip_prefix p s with Some _ => true | None => false end.
Fixpoint trim_start_fuel (fuel : nat) (p s : string) : string :=
  match fuel with
  | O => s
  | S fuel => match strip_prefix p s with Some s' => trim_start_fuel fuel p s' | None => s end
  end.
Definition trim_start_matches (p s : string) : string := trim_start_fuel (String.length s) p s.

(** [char::is_ascii_hexdigit], [to_ascii_lowercase], [eq_ignore_ascii_case]. *)
Definition is_ascii_hexdigit (c : byte) : bool :=
  let v := byte_val c in
  ((48 <=? v) && (v <=? 57)) || ((65 <=? v) && (v <=? 70)) || ((97 <=? v) && (v <=? 102)).
Definition ascii_lower (c : byte) : byte :=
  let v := byte_val c in if (65 <=? v) && (v <=? 90) then byte_of (v + 32) else c.
Fixpoint to_ascii_lowercase (s : string) : string :=
  match s with
  | EmptyString => EmptyString
  | String c s => String (ascii_lower c) (to_ascii_lowercase s)
  end.
Definition eq_ignore_ascii_case (a b : string) : bool :=
  bool_decide (to_ascii_lowercase a = to_ascii_lowercase b).
Definition str_all (P : byte → bool) (s : string) : bool := forallb P (str_bytes s).
Definition str_contains (c : byte) (s : string) : bool := bool_decide (c ∈ str_bytes s).

(** [chars().count()] counts the bytes that start a code point; [chars().take(n)]
    keeps the first [n] of them. *)
Definition starts_char (c : byte) : bool :=
  let v := byte_val c in negb ((128 <=? v) && (v <=? 191)).
Definition chars_count (s : string) : Z :=
  Z.of_nat (length (List.filter starts_char (str_bytes s))).
Fixpoint take_chars (n : nat) (s : string) : string :=
  match s with
  | EmptyString => EmptyString
  | String c s' =>
      if starts_char c then
        match n with O => EmptyString | S n => String c (take_chars n s') end
      else String c (take_chars n s')
  end.

(** [trim]: the encodings of the characters with the [White_Space] property. *)
Definition white_space : list bytes :=
  map (map byte_of)
    ([[9]; [10]; [11]; [12]; [13]; [32]; [194; 133]; [194; 160]; [225; 154; 128]] ++
     map (λ z, [226; 128; z]) [128; 129; 130; 131; 132; 133; 134; 135; 136; 137; 138; 168; 169; 175]
     ++ [[226; 129; 159]; [227; 128; 128]]).
Fixpoint strip_bytes (p l : bytes) : option bytes :=
  match p, l with
  | [], _ => Some l
  | a :: p, b :: l => if bool_decide (a = b) then strip_bytes p l else None
  | _ :: _, [] => None
  end.
Fixpoint strip_any (ps : list bytes) (l : bytes) : option bytes :=
  match ps with
  | [] => None
  | p :: ps => match strip_bytes p l with Some l' => Some l' | None => strip_any ps l end
  end.
Fixpoint trim_bytes (fuel : nat) (ps : list bytes) (l : bytes) : bytes :=
  match fuel with
  | O => l
  | S fuel => match strip_any ps l with Some l' => trim_bytes fuel ps l' | None => l end
  end.
Definition trim (s : string) : string :=
  let l := trim_bytes (String.length s) white_space (str_bytes s) in
  bytes_str (rev (trim_bytes (length l) (map (@rev byte) white_space) (rev l))).

(** [split_once] and [rsplit_once] on an ASCII separator. *)
Fixpoint split_once (c : byte) (s : string) : option (string * string) :=
  match s with
  | EmptyString => None
  | String b s => if bool_decide (b = c) then Some (EmptyString, s)
                  else match split_once c s with
                       | Some (l, r) => Some (String b l, r)
                       | None => None
                       end
  end.
Fixpoint rsplit_once (c : byte) (s : string) : option (string * string) :=
  match s with
  | EmptyString => None
  | String b s => match rsplit_once c s with
                  | Some (l, r) => Some (String b l, r)
                  | None => if bool_decide (b = c) then Some (EmptyString, s) else None
                  end
  end.

(** ** Integers in radix 10 and 16 *)

(** [char::to_digit]. *)
Definition to_digit (radix : Z) (c : byte) : option Z :=
  let v := byte_val c in
  let d := if (48 <=? v) && (v <=? 57) then v - 48
           else if (65 <=? v) && (v <=? 90) then v - 55
           else if (97 <=? v) && (v <=? 122) then v - 87
           else radix in
  if d <? radix then Some d else None.
Definition digit_char (d : Z) : byte := byte_of (if d <? 10 then d + 48 else d + 87).

Fixpoint parse_digits (m radix acc : Z) (s : string) : option Z :=
  match s with
  | EmptyString => Some acc
  | String c s =>
      acc ← checked_mul m acc radix;
      d ← to_digit radix c;
      acc ← checked_add m acc d;
      parse_digits m radix acc s
  end.
(** [from_str_radix] of the unsigned type with maximum [m], whose only accepted
    sign is a leading [+]. *)
Definition from_str_radix (m radix : Z) (s : string) : option Z :=
  match s with
  | EmptyString => None
  | String c s' =>
      if bool_decide (c = "+"%char) then
        if is_empty s' then None else parse_digits m radix 0 s'
      else parse_digits m radix 0 s
  end.

(** [format!("{:x}")] and [to_string()]: no leading zero, lower case. The fuel
    is the bit length, which bounds the number of digits in any radix. *)
Fixpoint digits_onto (radix : Z) (fuel : nat) (n : Z) (acc : string) : string :=
  match fuel with
  | O => acc
  | S fuel =>
      let acc := String (digit_char (n `mod` radix)) acc in
      if n / radix =? 0 then acc else digits_onto radix fuel (n / radix) acc
  end.
Definition fmt_radix (radix n : Z) : string :=
  digits_onto radix (S (Z.to_nat (Z.log2 n))) n EmptyString.
Definition fmt_hex (n : Z) : string := fmt_radix 16 n.
Definition fmt_dec (n : Z) : string := fmt_radix 10 n.
(** [format!("0x{:x}", n)] *)
Definition fmt_0x (n : Z) : string := "0x" +:+ fmt_hex n.

(** ** Lemmas *)

Lemma strip_prefix_app p s : strip_prefix p (p +:+ s) = Some s.
Proof. induction p as [|a p IH]; simpl; [done|]. by rewrite bool_decide_true. Qed.
Lemma strip_prefix_Some p s s' : strip_prefix p s = Some s' ↔ s = p +:+ s'.
Proof.
  split; [|intros ->; apply strip_prefix_app].
  revert s; induction p as [|a p IH]; intros s; simpl; [by intros [= ->]|].
  destruct s as [|b s]; [done|]. case_bool_decide; [|done]. subst.
  intros ->%IH. done.
Qed.
Lemma starts_with_app p s : starts_with p (p +:+ s) = true.
Proof. unfold starts_with. by rewrite strip_prefix_app. Qed.
Lemma str_len_app a b : str_len (a +:+ b) = str_len a + str_len b.
Proof.
  unfold str_len. induction a as [|c a IH]; [done|].
  change (String.length (String c a +:+ b)) with (S (String.length (a +:+ b))).
  change (String.length (String c a)) with (S (String.length a)). lia.
Qed.
Lemma str_bytes_length s : length (str_bytes s) = String.length s.
Proof. unfold str_bytes. induction s; simpl; congruence. Qed.
Lemma str_bytes_str l : str_bytes (bytes_str l) = l.
Proof. apply String.list_ascii_of_string_of_list_ascii. Qed.
Lemma bytes_str_length l : String.length (bytes_str l) = length l.
Proof. unfold bytes_str. induction l as [|c l IH]; [done|]. simpl. by rewrite IH. Qed.
Lemma bytes_str_bytes s : bytes_str (str_bytes s) = s.
Proof. apply String.string_of_list_ascii_of_string. Qed.
Lemma to_digit_char radix d : 0 ≤ d < radix → radix ≤ 16 → to_digit radix (digit_char d) = Some d.
Proof.
  intros Hd Hr. unfold to_digit, digit_char.
  destruct (Z.ltb_spec d 10).
  - rewrite byte_val_of by lia.
    rewrite (proj2 (Z.leb_le 48 _)), (proj2 (Z.leb_le _ 57)) by lia. simpl.
    replace (d + 48 - 48) with d by lia. by rewrite (proj2 (Z.ltb_lt d radix)) by lia.
  - rewrite byte_val_of by lia.
    rewrite (proj2 (Z.leb_le 48 _)), (proj2 (Z.leb_gt _ 57)) by lia.
    rewrite (proj2 (Z.leb_le 65 _)), (proj2 (Z.leb_gt _ 90)) by lia.
    rewrite (proj2 (Z.leb_le 97 _)), (proj2 (Z.leb_le _ 122)) by lia. simpl.
    replace (d + 87 - 87) with d by lia. by rewrite (proj2 (Z.ltb_lt d radix)) by lia.
Qed.

Lemma parse_digits_onto m radix fuel n acc :
  2 ≤ radix ≤ 16 → 0 ≤ n < radix ^ Z.of_nat fuel → n ≤ m →
  parse_digits m radix 0 (digits_onto radix fuel n acc) = parse_digits m radix n acc.
Proof.
  intros Hr. revert n acc. induction fuel as [|fuel IH]; intros n acc Hn Hm.
  - simpl. replace n with 0 by (change (radix ^ Z.of_nat 0) with 1 in Hn; lia). done.
  - assert (0 ≤ n `mod` radix < radix) as Hmod by (apply Z.mod_pos_bound; lia).
    pose proof (Z.div_mod n radix ltac:(lia)) as Hdm.
    assert (0 ≤ n / radix) as Hdiv by (apply Z.div_pos; lia).
    assert (parse_digits m radix (n / radix) (String (digit_char (n `mod` radix)) acc)
            = parse_digits m radix n acc) as Hstep.
    { simpl. unfold checked_mul, checked_add.
      assert (n / radix * radix + n `mod` radix = n) as Hn' by lia.
      rewrite (proj2 (Z.leb_le (n / radix * radix) m)) by lia. simpl.
      rewrite to_digit_char by lia. simpl. rewrite Hn'.
      by rewrite (proj2 (Z.leb_le n m)) by lia. }
    simpl. destruct (Z.eqb_spec (n / radix) 0) as [Hz|Hz].
    + rewrite <-Hstep, Hz. done.
    + assert (n / radix ≤ n) by (apply Z.div_le_upper_bound; nia).
      rewrite IH; [done| |lia].
      split; [done|]. rewrite Nat2Z.inj_succ, Z.pow_succ_r in Hn by lia.
      apply Z.div_lt_upper_bound; lia.
Qed.

Lemma fmt_radix_fuel radix n :
  2 ≤ radix → 0 ≤ n → n < radix ^ Z.of_nat (S (Z.to_nat (Z.log2 n))).
Proof.
  intros Hr Hn. destruct (decide (n = 0)) as [->|].
  { change (Z.of_nat (S (Z.to_nat (Z.log2 0)))) with 1. rewrite Z.pow_1_r. lia. }
  rewrite Nat2Z.inj_succ, Z2Nat.id by apply Z.log2_nonneg.
  pose proof (Z.log2_spec n ltac:(lia)) as [_ Hlt].
  eapply Z.lt_le_trans; [exact Hlt|].
  apply Z.pow_le_mono_l. pose proof (Z.log2_nonneg n). lia.
Qed.

(** Printing is never empty and starts with [0] only for zero itself. *)
Lemma digits_onto_hd radix fuel n acc :
  2 ≤ radix ≤ 16 → 0 ≤ n →
  ∃ c s, digits_onto radix (S fuel) n acc = String c s ∧ c ≠ "+"%char.
Proof.
  intros Hr. revert n acc. induction fuel as [|fuel IH]; intros n acc Hn.
  - simpl. assert (0 ≤ n `mod` radix < radix) by (apply Z.mod_pos_bound; lia).
    destruct (_ =? 0); (eexists _, _; split; [done|]); unfold digit_char; intros Hc;
      apply (f_equal byte_val) in Hc; revert Hc; (case (Z.ltb_spec (n `mod` radix) 10); intros);
      rewrite byte_val_of in Hc by lia; change (byte_val "+") with 43 in Hc; lia.
  - simpl. destruct (_ =? 0).
    + assert (0 ≤ n `mod` radix < radix) by (apply Z.mod_pos_bound; lia).
      eexists _, _; split; [done|]. unfold digit_char; intros Hc.
      apply (f_equal byte_val) in Hc; revert Hc; case (Z.ltb_spec (n `mod` radix) 10); intros;
      rewrite byte_val_of in Hc by lia; change (byte_val "+") with 43 in Hc; lia.
    + apply (IH (n / radix)). apply Z.div_pos; lia.
Qed.

(** Parsing what was printed gives the number back, at any width that holds it. *)
Lemma from_str_radix_fmt m radix n :
  2 ≤ radix ≤ 16 → 0 ≤ n ≤ m → from_str_radix m radix (fmt_radix radix n) = Some n.
Proof.
  intros Hr Hn. unfold fmt_radix, from_str_radix.
  destruct (digits_onto_hd radix (Z.to_nat (Z.log2 n)) n EmptyString Hr ltac:(lia)) as (c & s & Heq & Hc).
  rewrite Heq. rewrite bool_decide_false by done. rewrite <-Heq.
  rewrite parse_digits_onto; [done|done| |lia].
  split; [lia|]. apply fmt_radix_fuel; lia.
Qed.

(** A decidable fact about every byte, checked by evaluation. *)
Lemma byte_check (P : byte → bool) :
  forallb P (map byte_of (seqZ 0 256)) = true → ∀ c, P c = true.
Proof.
  intros HP c. rewrite forallb_forall in HP. apply HP.
  rewrite <-list_elem_of_In. apply list_elem_of_fmap. exists (byte_val c).
  rewrite byte_of_val, elem_of_seqZ. pose proof (byte_val_range c). split; [done|lia].
Qed.

(** Lower-casing keeps the length and what a digit stands for. *)
Lemma to_ascii_lowercase_len s : str_len (to_ascii_lowercase s) = str_len s.
Proof. unfold str_len. f_equal. induction s; simpl; auto. Qed.
Lemma ascii_lower_hexdigit c : is_ascii_hexdigit (ascii_lower c) = is_ascii_hexdigit c.
Proof.
  revert c. assert (∀ c, eqb (is_ascii_hexdigit (ascii_lower c)) (is_ascii_hexdigit c) = true) as H;
    [by apply byte_check; vm_compute|intros c; by apply eqb_prop].
Qed.
Lemma to_ascii_lowercase_hexdigits s :
  str_all is_ascii_hexdigit (to_ascii_lowercase s) = str_all is_ascii_hexdigit s.
Proof.
  unfold str_all. induction s as [|c s IH]; [done|]. cbn. rewrite ascii_lower_hexdigit. by f_equal.
Qed.
Lemma to_digit_lower c : to_digit 16 (ascii_lower c) = to_digit 16 c.
Proof.
  revert c. assert (∀ c, bool_decide (to_digit 16 (ascii_lower c) = to_digit 16 c) = true) as H;
    [by apply byte_check; vm_compute|intros c; by eapply bool_decide_eq_true_1].
Qed.
Lemma to_digit_Some c d : to_digit 16 c = Some d ↔ 0 ≤ d < 16 ∧ ascii_lower c = digit_char d.
Proof.
  split; [|intros [Hd Hc]; by rewrite <-to_digit_lower, Hc, to_digit_char].
  revert c. assert (∀ c, match to_digit 16 c with
    | Some d => bool_decide (0 ≤ d < 16 ∧ ascii_lower c = digit_char d) | None => true
    end = true) as H; [by apply byte_check; vm_compute|].
  intros c Hc. specialize (H c). rewrite Hc in H. by eapply bool_decide_eq_true_1.
Qed.

Lemma digits_onto_len radix fuel n acc :
  (String.length (digits_onto radix fuel n acc) ≤ fuel + String.length acc)%nat.
Proof.
  revert n acc. induction fuel as [|fuel IH]; intros n acc; simpl; [done|].
  destruct (_ =? 0); simpl; [lia|]. etrans; [apply IH|]. simpl. lia.
Qed.
Lemma fmt_radix_len radix n b : 0 ≤ b → n < 2 ^ b → str_len (fmt_radix radix n) ≤ b + 1.
Proof.
  intros Hb Hn. unfold str_len, fmt_radix.
  pose proof (digits_onto_len radix (S (Z.to_nat (Z.log2 n))) n EmptyString) as Hlen.
  assert (Z.log2 n ≤ b).
  { destruct (Z.lt_ge_cases 0 n); [|rewrite Z.log2_nonpos; lia].
    apply Z.lt_le_incl. by apply Z.log2_lt_pow2. }
  change (String.length EmptyString) with 0%nat in Hlen. pose proof (Z.log2_nonneg n). lia.
Qed.

(** ** Canonical digit strings

    A digit string without a leading zero is what printing its value gives, up
    to letter case. *)
Definition digits_value (acc : Z) (ds : list Z) : Z := foldl (λ n d, 16 * n + d) acc ds.
Definition digits_str (ds : list Z) : string := bytes_str (map digit_char ds).
Definition hex_digit (d : Z) : Prop := 0 ≤ d < 16.

Lemma digits_value_ge acc ds : 0 ≤ acc → Forall hex_digit ds → acc ≤ digits_value acc ds.
Proof.
  intros Hacc Hds. revert acc Hacc. induction Hds as [|d ds Hd _ IH]; intros acc Hacc; [done|].
  simpl. unfold hex_digit in Hd. specialize (IH (16 * acc + d) ltac:(lia)). unfold digits_value in *. lia.
Qed.
Lemma digits_value_snoc acc ds d : digits_value acc (ds ++ [d]) = 16 * digits_value acc ds + d.
Proof. unfold digits_value. by rewrite foldl_app. Qed.
Lemma hexdigit_to_digit c : is_ascii_hexdigit c = true → ∃ d, to_digit 16 c = Some d.
Proof.
  assert (∀ c, implb (is_ascii_hexdigit c) (bool_decide (to_digit 16 c ≠ None)) = true) as Hall
    by (by apply byte_check; vm_compute).
  intros Hc. specialize (Hall c). rewrite Hc in Hall. apply bool_decide_eq_true in Hall.
  destruct (to_digit 16 c); [by eexists|done].
Qed.
(** A string of hexadecimal digits spells a list of digits. *)
Lemma hexdigits_spell s :
  str_all is_ascii_hexdigit s = true →
  ∃ ds, Forall hex_digit ds ∧ to_ascii_lowercase s = digits_str ds ∧ length ds = String.length s.
Proof.
  unfold str_all, digits_str, bytes_str. induction s as [|c s IH]; simpl; [by exists []|].
  intros [[d Hd]%hexdigit_to_digit Hs]%andb_true_iff. destruct (IH Hs) as (ds & Hds & Heq & Hlen).
  apply to_digit_Some in Hd as [Hr Hl]. exists (d :: ds). simpl. rewrite Hl, Heq, Hlen.
  split_and!; [by constructor|done|done].
Qed.
Lemma parse_digits_spell m s ds acc :
  0 ≤ acc ≤ m → Forall hex_digit ds → to_ascii_lowercase s = digits_str ds →
  parse_digits m 16 acc s
  = if digits_value acc ds <=? m then Some (digits_value acc ds) else None.
Proof.
  revert ds acc. induction s as [|c s IH]; intros ds acc Hacc Hds Heq.
  - destruct ds as [|d ds]; [|done]. simpl. by rewrite (proj2 (Z.leb_le acc m)) by lia.
  - destruct ds as [|d ds]; [done|]. inversion Hds as [|?? Hd Hds']; subst.
    cbn in Heq. injection Heq as Hc Hs.
    assert (to_digit 16 c = Some d) as Htd by (by apply to_digit_Some).
    cbn [parse_digits]. rewrite Htd. cbn [mbind option_bind].
    change (digits_value acc (d :: ds)) with (digits_value (16 * acc + d) ds).
    rewrite (Z.mul_comm 16 acc). unfold hex_digit in Hd.
    pose proof (digits_value_ge (acc * 16 + d) ds ltac:(lia) Hds') as Hge.
    destruct (checked_mul m acc 16) as [x|] eqn:Hm; simpl.
    + apply checked_mul_Some in Hm as [-> Hm].
      destruct (checked_add m (acc * 16) d) as [y|] eqn:Ha; simpl.
      * apply checked_add_Some in Ha as [-> Ha]. by apply IH; [lia| |].
      * apply checked_add_None in Ha. by rewrite (proj2 (Z.leb_gt _ m)) by lia.
    + apply checked_mul_None in Hm. by rewrite (proj2 (Z.leb_gt _ m)) by lia.
Qed.
Definition canonical (ds : list Z) : Prop := ds = [0] ∨ ∃ d ds', ds = d :: ds' ∧ d ≠ 0.
Lemma digits_str_app ds acc d :
  String.string_of_list_ascii (map digit_char (ds ++ [d])) +:+ acc
  = String.string_of_list_ascii (map digit_char ds) +:+ String (digit_char d) acc.
Proof.
  induction ds as [|x ds IH]; simpl; [done|].
  change (String (digit_char x) (String.string_of_list_ascii (map digit_char (ds ++ [d]))
    +:+ acc) = String (digit_char x) (String.string_of_list_ascii (map digit_char ds)
    +:+ String (digit_char d) acc)). by rewrite IH.
Qed.
Lemma digits_onto_spell ds fuel acc :
  Forall hex_digit ds → canonical ds → (length ds ≤ fuel)%nat →
  digits_onto 16 fuel (digits_value 0 ds) acc = digits_str ds +:+ acc.
Proof.
  revert fuel acc. induction ds as [|d ds IH] using rev_ind; intros fuel acc Hds Hcan Hlen.
  { destruct Hcan as [?|(?&?&?&?)]; done. }
  rewrite length_app in Hlen. simpl in Hlen. destruct fuel as [|fuel]; [lia|].
  apply Forall_app in Hds as [Hds Hd]. inversion Hd as [|?? Hd' _]; subst. unfold hex_digit in Hd'.
  rewrite digits_value_snoc. cbn [digits_onto].
  rewrite (Z.mul_comm 16), Z.add_comm, Z.mod_add, Z.mod_small by lia.
  rewrite Z.div_add, Z.div_small, Z.add_0_l by lia. unfold digits_str, bytes_str in *.
  rewrite digits_str_app. destruct ds as [|d0 ds0]; [by destruct (Z.eqb_spec (digits_value 0 []) 0)|].
  assert (d0 ≠ 0) as Hne by (destruct Hcan as [Heq|(x & y & Heq & ?)];
    [destruct ds0; simplify_eq|by simplify_eq/=]).
  assert (0 < digits_value 0 (d0 :: ds0)) as Hpos.
  { inversion Hds as [|?? Hd0 Hds0]; subst. unfold hex_digit in Hd0.
    pose proof (digits_value_ge (16 * 0 + d0) ds0 ltac:(lia) Hds0). unfold digits_value in *. simpl in *. lia. }
  destruct (Z.eqb_spec (digits_value 0 (d0 :: ds0)) 0); [lia|].
  apply IH; [done|right; eauto|simpl in *; lia].
Qed.
Lemma digits_value_lower acc ds :
  0 ≤ acc → Forall hex_digit ds → acc * 16 ^ Z.of_nat (length ds) ≤ digits_value acc ds.
Proof.
  intros Hacc Hds. revert acc Hacc. induction Hds as [|d ds Hd _ IH]; intros acc Hacc; [simpl; lia|].
  change (digits_value acc (d :: ds)) with (digits_value (16 * acc + d) ds). unfold hex_digit in Hd.
  specialize (IH (16 * acc + d) ltac:(lia)). cbn [length]. rewrite Nat2Z.inj_succ, Z.pow_succ_r by lia.
  assert (0 ≤ 16 ^ Z.of_nat (length ds)) by (apply Z.pow_nonneg; lia). nia.
Qed.
Lemma digits_value_nonneg ds : Forall hex_digit ds → 0 ≤ digits_value 0 ds.
Proof. intros Hds. pose proof (digits_value_ge 0 ds (Z.le_refl 0) Hds). lia. Qed.
Lemma canonical_length ds :
  Forall hex_digit ds → canonical ds → (length ds ≤ S (Z.to_nat (Z.log2 (digits_value 0 ds))))%nat.
Proof.
  intros Hds [->|(d & ds' & -> & Hne)]; [done|]. inversion Hds as [|?? Hd Hds']; subst.
  unfold hex_digit in Hd. simpl. apply le_n_S.
  change (digits_value 0 (d :: ds')) with (digits_value (16 * 0 + d) ds').
  pose proof (digits_value_lower (16 * 0 + d) ds' ltac:(lia) Hds') as Hlow.
  assert (2 ^ Z.of_nat (length ds') ≤ 16 ^ Z.of_nat (length ds')) as H2
    by (apply Z.pow_le_mono_l; lia).
  assert (0 < 2 ^ Z.of_nat (length ds')) by (apply Z.pow_pos_nonneg; lia).
  assert (2 ^ Z.of_nat (length ds') ≤ digits_value (16 * 0 + d) ds') as Hle by nia.
  apply Z.log2_le_mono in Hle. rewrite Z.log2_pow2 in Hle by lia. lia.
Qed.
(** Printing a canonical list's value spells the list. *)
Lemma fmt_hex_spell ds :
  Forall hex_digit ds → canonical ds → fmt_hex (digits_value 0 ds) = digits_str ds.
Proof.
  intros Hds Hcan. unfold fmt_hex, fmt_radix.
  rewrite digits_onto_spell; [|done|done|by apply canonical_length].
  generalize (digits_str ds). intros s. induction s as [|c s IH]; [done|].
  change (String c (s +:+ EmptyString) = String c s). by rewrite IH.
Qed.
(** Every number is the value of a canonical list. *)
Lemma digits_of n : 0 ≤ n → ∃ ds, Forall hex_digit ds ∧ canonical ds ∧ digits_value 0 ds = n.
Proof.
  induction n as [n IH] using (well_founded_induction (Z.lt_wf 0)). intros Hn.
  pose proof (Z.div_mod n 16 ltac:(lia)) as Hdm. pose proof (Z.mod_pos_bound n 16 ltac:(lia)) as Hmod.
  destruct (decide (n < 16)) as [Hlt|Hge].
  - exists [n]. split_and!; [by constructor| |].
    + destruct (decide (n = 0)) as [->|]; [by left|right; eauto].
    + unfold digits_value. simpl. lia.
  - assert (1 ≤ n / 16 < n) as Hdiv by (split; [apply Z.div_le_lower_bound|apply Z.div_lt]; lia).
    destruct (IH (n / 16)) as (ds & Hds & Hcan & Hv); [lia|lia|]. exists (ds ++ [n `mod` 16]).
    split_and!.
    + apply Forall_app. split; [done|by constructor].
    + right. destruct Hcan as [->|(d & ds' & -> & Hne)].
      * unfold digits_value in Hv. simpl in Hv. lia.
      * by exists d, (ds' ++ [n `mod` 16]).
    + rewrite digits_value_snoc, Hv. lia.
Qed.

Lemma digit_char_hexdigit d : 0 ≤ d < 16 → is_ascii_hexdigit (digit_char d) = true.
Proof.
  intros Hd. unfold is_ascii_hexdigit, digit_char. destruct (Z.ltb_spec d 10);
    rewrite byte_val_of by lia;
    repeat match goal with |- context [?a <=? ?b] => destruct (Z.leb_spec a b); simpl end; lia || done.
Qed.
Lemma digit_char_lower d : 0 ≤ d < 16 → ascii_lower (digit_char d) = digit_char d.
Proof.
  intros Hd. by destruct (proj1 (to_digit_Some (digit_char d) d) (to_digit_char 16 d Hd ltac:(lia))).
Qed.
Lemma lower_zero c : ascii_lower c = digit_char 0 → c = "0"%char.
Proof.
  assert (∀ c, implb (bool_decide (ascii_lower c = digit_char 0)) (bool_decide (c = "0"%char)) = true)
    as H by (by apply byte_check; vm_compute).
  intros Hc. specialize (H c). rewrite bool_decide_true in H by done. simpl in H.
  by apply bool_decide_eq_true in H.
Qed.

(** The strict spelling of a QUANTITY after its prefix. *)
Definition strict_digits (s : string) : Prop :=
  s ≠ EmptyString ∧ (str_len s ≤ 1 ∨ starts_with "0" s = false) ∧ str_all is_ascii_hexdigit s = true.
Lemma strict_digits_spell s :
  strict_digits s → ∃ ds, Forall hex_digit ds ∧ canonical ds ∧ to_ascii_lowercase s = digits_str ds.
Proof.
  intros (Hne & Hlead & Hall). destruct (hexdigits_spell s Hall) as (ds & Hds & Heq & Hlen).
  exists ds. split_and!; try done. destruct s as [|c s]; [done|].
  destruct ds as [|d ds]; [done|]. destruct (decide (d = 0)) as [->|]; [|right; eauto].
  left. f_equal. cbn in Heq. injection Heq as Hc _. destruct Hlead as [Hl|Hl].
  - unfold str_len in Hl. simpl in *. apply nil_length_inv. lia.
  - exfalso. apply lower_zero in Hc as ->. done.
Qed.
Lemma digits_str_lower ds : Forall hex_digit ds → to_ascii_lowercase (digits_str ds) = digits_str ds.
Proof.
  unfold digits_str, bytes_str. induction 1 as [|d ds Hd _ IH]; [done|]. simpl. rewrite IH.
  by rewrite digit_char_lower.
Qed.
Lemma digits_str_hexdigits ds : Forall hex_digit ds → str_all is_ascii_hexdigit (digits_str ds) = true.
Proof.
  unfold str_all, digits_str. rewrite str_bytes_str. induction 1 as [|d ds Hd _ IH]; [done|]. simpl.
  by rewrite digit_char_hexdigit.
Qed.
Lemma fmt_hex_length n k :
  0 ≤ n < 16 ^ Z.of_nat k → (0 < k)%nat → (String.length (fmt_hex n) ≤ k)%nat.
Proof.
  intros [Hn Hk] Hpos. destruct (digits_of n Hn) as (ds & Hds & Hcan & <-).
  rewrite fmt_hex_spell by done. unfold digits_str. rewrite bytes_str_length, length_map.
  destruct Hcan as [->|(d & ds' & -> & Hne)]; [done|]. inversion Hds as [|?? Hd Hds']; subst.
  unfold hex_digit in Hd. change (digits_value 0 (d :: ds')) with (digits_value (16 * 0 + d) ds') in Hk.
  pose proof (digits_value_lower (16 * 0 + d) ds' ltac:(lia) Hds') as Hlow.
  assert (0 < 16 ^ Z.of_nat (length ds')) by (apply Z.pow_pos_nonneg; lia).
  assert (16 ^ Z.of_nat (length ds') < 16 ^ Z.of_nat k) as Hlt%Z.pow_lt_mono_r_iff by nia; simpl; lia.
Qed.
Lemma fmt_hex_strict n : 0 ≤ n → strict_digits (fmt_hex n).
Proof.
  intros Hn. destruct (digits_of n Hn) as (ds & Hds & Hcan & <-).
  rewrite fmt_hex_spell by done. split_and!; [| |by apply digits_str_hexdigits].
  - by destruct Hcan as [->|(d & ds' & -> & _)].
  - destruct Hcan as [->|(d & ds' & -> & Hne)]; [by left|right].
    inversion Hds as [|?? Hd _]; subst. unfold starts_with, digits_str, bytes_str. simpl.
    case_bool_decide as Hz; [|done]. exfalso. apply Hne.
    pose proof (to_digit_char 16 d Hd ltac:(lia)) as Hdd. rewrite <-Hz in Hdd.
    change (to_digit 16 "0") with (Some 0) in Hdd. congruence.
Qed.
(** Parsing a strict spelling succeeds exactly with the number it is the printed
    form of, up to letter case. *)
Lemma from_str_radix_strict m s n :
  0 ≤ m → strict_digits s →
  from_str_radix m 16 s = Some n ↔ to_ascii_lowercase s = fmt_hex n ∧ 0 ≤ n ≤ m.
Proof.
  intros Hm Hs. destruct (strict_digits_spell s Hs) as (ds & Hds & Hcan & Heq).
  assert (from_str_radix m 16 s = parse_digits m 16 0 s) as ->.
  { destruct Hs as (Hne & _ & Hall). destruct s as [|c s]; [done|]. unfold from_str_radix.
    rewrite bool_decide_false; [done|]. intros ->. done. }
  rewrite (parse_digits_spell m s ds 0) by (done || lia).
  pose proof (digits_value_nonneg ds Hds) as Hpos. rewrite Heq. split.
  - destruct (Z.leb_spec (digits_value 0 ds) m); [|done]. intros [= <-].
    by rewrite fmt_hex_spell.
  - intros [Hfmt Hn]. destruct (digits_of n ltac:(lia)) as (es & Hes & Hcan' & <-).
    rewrite fmt_hex_spell in Hfmt by done.
    assert (digits_value 0 ds = digits_value 0 es) as ->; [|by rewrite (proj2 (Z.leb_le _ m)) by lia].
    pose proof (parse_digits_spell (Z.max (digits_value 0 ds) (digits_value 0 es))
      (digits_str ds) ds 0 ltac:(lia) Hds (digits_str_lower ds Hds)) as H1.
    pose proof (parse_digits_spell (Z.max (digits_value 0 ds) (digits_value 0 es))
      (digits_str es) es 0 ltac:(lia) Hes (digits_str_lower es Hes)) as H2.
    rewrite Hfmt in H1. rewrite H1 in H2.
    rewrite !(proj2 (Z.leb_le _ (Z.max _ _))) in H2 by lia. congruence.
Qed.
Lemma strict_digits_lower s n : 0 ≤ n → to_ascii_lowercase s = fmt_hex n → strict_digits s.
Proof.
  intros Hn Hs. destruct (fmt_hex_strict n Hn) as (Hne & Hlead & Hall). rewrite <-Hs in *.
  split_and!.
  - by intros ->.
  - rewrite to_ascii_lowercase_len in Hlead. destruct Hlead as [|Hlead]; [by left|right].
    destruct s as [|c s]; [done|]. revert Hlead. unfold starts_with. simpl.
    destruct (decide ("0"%char = c)) as [<-|Hc]; [done|]. by rewrite (bool_decide_false _ Hc).
  - by rewrite <-to_ascii_lowercase_hexdigits.
Qed.

(** ** Text that trimming leaves alone *)

(** Printable ASCII other than the space. *)
Definition is_graphic (c : byte) : bool := (33 <=? byte_val c) && (byte_val c <=? 126).
Definition blank_led (p : bytes) : bool := match p with c :: _ => negb (is_graphic c) | [] => false end.
Lemma strip_any_graphic ps l :
  forallb blank_led ps = true → forallb is_graphic l = true → strip_any ps l = None.
Proof.
  intros Hps Hl. induction ps as [|p ps IH]; [done|]. apply andb_true_iff in Hps as [Hp Hps].
  simpl. rewrite IH by done. destruct p as [|c p]; [done|]. destruct l as [|b l]; [done|].
  apply andb_true_iff in Hl as [Hb _]. simpl. rewrite bool_decide_false; [done|]. intros <-.
  unfold blank_led in Hp. by rewrite Hb in Hp.
Qed.
Lemma trim_bytes_graphic fuel ps l :
  forallb blank_led ps = true → forallb is_graphic l = true → trim_bytes fuel ps l = l.
Proof. intros Hps Hl. destruct fuel; [done|]. simpl. by rewrite strip_any_graphic. Qed.
Lemma trim_graphic s : str_all is_graphic s = true → trim s = s.
Proof.
  intros Hs. unfold trim. rewrite (trim_bytes_graphic _ white_space (str_bytes s)); [|by vm_compute|done].
  rewrite (trim_bytes_graphic _ _ (rev (str_bytes s)));
    [by rewrite rev_involutive, bytes_str_bytes|by vm_compute|].
  unfold str_all in Hs. rewrite forallb_forall in *. intros c Hc%in_rev. auto.
Qed.
Lemma hexdigit_graphic c : is_ascii_hexdigit c = true → is_graphic c = true.
Proof.
  revert c. assert (∀ c, implb (is_ascii_hexdigit c) (is_graphic c) = true) as H;
    [by apply byte_check; vm_compute|intros c Hc; specialize (H c); by rewrite Hc in H].
Qed.
Lemma str_all_impl (P Q : byte → bool) s :
  (∀ c, P c = true → Q c = true) → str_all P s = true → str_all Q s = true.
Proof. unfold str_all. rewrite !forallb_forall. auto. Qed.
Lemma str_all_app P a b : str_all P (a +:+ b) = str_all P a && str_all P b.
Proof.
  unfold str_all. rewrite <-forallb_app. f_equal. induction a as [|c a IH]; [done|]. simpl. by f_equal.
Qed.

(** A parsed integer fits the type it was parsed at. *)
Lemma parse_digits_width m radix acc s n :
  0 ≤ radix → in_width m acc → parse_digits m radix acc s = Some n → in_width m n.
Proof.
  intros Hr. revert acc. induction s as [|c s IH]; intros acc Hacc; simpl; [by intros [= <-]|].
  destruct (checked_mul m acc radix) as [x|] eqn:Hx; [|done]. simpl.
  destruct (to_digit radix c) as [d|] eqn:Hd; [|done]. simpl.
  destruct (checked_add m x d) as [y|] eqn:Hy; [|done]. simpl. apply IH.
  apply checked_mul_Some in Hx as [-> _]. apply checked_add_Some in Hy as [-> Hle].
  assert (0 ≤ d) as Hd0.
  { unfold to_digit in Hd. pose proof (byte_val_range c).
    destruct (_ <? radix); [|done]. injection Hd as <-.
    destruct ((48 <=? byte_val c) && _) eqn:H1; bool_hyps; [lia|].
    destruct ((65 <=? byte_val c) && _) eqn:H2; bool_hyps; [lia|].
    destruct ((97 <=? byte_val c) && _) eqn:H3; bool_hyps; lia. }
  unfold in_width in *. nia.
Qed.
Lemma from_str_radix_width m radix s n :
  0 ≤ radix → 0 ≤ m → from_str_radix m radix s = Some n → in_width m n.
Proof.
  intros Hr Hm. assert (in_width m 0) as H0 by (unfold in_width; lia). destruct s as [|c s]; [done|].
  unfold from_str_radix. case_bool_decide; [destruct (is_empty s); [done|]|];
    by apply parse_digits_width.
Qed.
