(* ===== verification/Deps.v ===== *)
(** * Third-party interfaces

    The crates the workspace calls but does not contain, as parameters of the
    model: a class with the functions, and a separate class with the documented
    behaviour the code relies on. Reference instances that discharge the laws
    are in [Bincode]; the theorems never look at them. *)

From Stdlib Require Import String.
From S2P Require Import Prelude Text.

(** [blake3::hash]: a 32-byte digest. Nothing else is assumed of it; a theorem
    that needs two digests to differ says which two. *)
Class Blake3 := blake3 : bytes → array 32.

(** The [hex] crate: two lower-case digits per byte; decoding accepts either
    case and nothing else. *)
Class Hex := {
  hex_encode : bytes → string;
  hex_decode : string → result string bytes
}.
Class HexLaws `{!Hex} : Prop := {
  hex_encode_length b : str_len (hex_encode b) = 2 * Z.of_nat (length b);
  hex_encode_digits b : str_all is_ascii_hexdigit (hex_encode b) = true;
  hex_encode_lower b : to_ascii_lowercase (hex_encode b) = hex_encode b;
  hex_decode_Ok s b : hex_decode s = Ok b ↔ to_ascii_lowercase s = hex_encode b;
  hex_decode_total s n :
    str_len s = 2 * Z.of_nat n → str_all is_ascii_hexdigit s = true → ∃ b, hex_decode s = Ok b
}.
Section hex_facts.
Context `{!Hex, !HexLaws}.

Lemma hex_decode_encode b : hex_decode (hex_encode b) = Ok b.
Proof. by rewrite hex_decode_Ok, hex_encode_lower. Qed.
Lemma hex_decode_length s b : hex_decode s = Ok b → str_len s = 2 * Z.of_nat (length b).
Proof.
  intros Hs%hex_decode_Ok. by rewrite <-hex_encode_length, <-Hs, to_ascii_lowercase_len.
Qed.
Lemma hex_decode_digits s b : hex_decode s = Ok b → str_all is_ascii_hexdigit s = true.
Proof.
  intros Hs%hex_decode_Ok. by rewrite <-to_ascii_lowercase_hexdigits, Hs, hex_encode_digits.
Qed.
End hex_facts.

(** [bincode::serialize] and [bincode::deserialize] at one type. The round trip
    holds for the values the Rust type can represent, which [P] delimits. *)
Class Serialize (A : Type) := bincode : A → bytes.
Class Deserialize (A : Type) := bincode_de : bytes → result string A.
Class BincodeLaws (A : Type) (P : A → Prop) `{!Serialize A, !Deserialize A} : Prop :=
  bincode_de_ser x : P x → bincode_de (bincode x) = Ok x.

(** [serde_json::to_string_pretty], [to_vec], [from_str] and [from_slice] at one
    type; the text is a string or its bytes. *)
Class SerdeJson (A : Type) := {
  to_json : A → string;
  from_json : string → result string A
}.
Class SerdeJsonLaws (A : Type) (P : A → Prop) `{!SerdeJson A} : Prop :=
  from_to_json x : P x → from_json (to_json x) = Ok x.

(** [ed25519-dalek]: a signing key is its 32-byte seed. *)
Class Ed25519 := {
  ed_public_key : array 32 → array 32;
  ed_sign : array 32 → bytes → array 64;
  (** [VerifyingKey::from_bytes] succeeds. *)
  ed_valid_key : array 32 → bool;
  ed_verify : array 32 → bytes → array 64 → bool
}.
Class Ed25519Laws `{!Ed25519} : Prop := {
  ed_public_key_valid sk : ed_valid_key (ed_public_key sk) = true;
  ed_verify_sign sk m : ed_verify (ed_public_key sk) m (ed_sign sk m) = true
}.

(** [serde_json::Value]. Objects list their fields; looking a field up is
    [Value::get], which finds nothing in a value that is not an object. *)
Inductive Value : Type :=
| VNull
| VBool (b : bool)
| VNumber (n : Z)
| VString (s : string)
| VArray (l : list Value)
| VObject (fields : list (string * Value)).

Fixpoint assoc {A : Type} (key : string) (fields : list (string * A)) : option A :=
  match fields with
  | [] => None
  | (k, v) :: fields => if bool_decide (k = key) then Some v else assoc key fields
  end.
Definition value_get (key : string) (v : Value) : option Value :=
  match v with VObject fields => assoc key fields | _ => None end.
Definition value_as_str (v : Value) : option string :=
  match v with VString s => Some s | _ => None end.
(** [Value::as_u64] and [Value::as_u128] of an integer number. *)
Definition value_as_uint (m : Z) (v : Value) : option Z :=
  match v with VNumber n => if (0 <=? n) && (n <=? m) then Some n else None | _ => None end.
(** The values [serde_json] prints and parses back: integers of at most 64 bits
    and objects without repeated keys. *)
Fixpoint json_ok (v : Value) : bool :=
  match v with
  | VNull | VBool _ | VString _ => true
  | VNumber n => (- (u64_max / 2) - 1 <=? n) && (n <=? u64_max)
  | VArray l => forallb json_ok l
  | VObject fields => bool_decide (NoDup fields.*1) && forallb (λ kv, json_ok kv.2) fields
  end.

(** [std::net::SocketAddr]. *)
Inductive IpAddr : Type :=
| V4 (a b c d : Z)
| V6 (segments : list Z).
Record SocketAddr := { sa_ip : IpAddr; sa_port : Z }.
Definition is_loopback (ip : IpAddr) : bool :=
  match ip with
  | V4 a _ _ _ => a =? 127
  | V6 segments => bool_decide (segments = [0; 0; 0; 0; 0; 0; 0; 1])
  end.
