(* ===== verification/Bincode.v ===== *)
(** * Reference instances of the third-party interfaces

    Concrete functions that satisfy the laws of [Deps], used to show that the
    hypotheses of the theorems can hold: the lower-case hexadecimal codec, a
    32-byte polynomial digest standing in for BLAKE3, and codecs in the
    documented bincode 1.x format (little-endian fixed-width integers, [u64]
    lengths, [u32] variant tags, one-byte option tags), built from combinators
    that carry their round-trip proof. *)

From Stdlib Require Import Ascii String.
From S2P Require Import Prelude Text Deps.

(** ** Hexadecimal *)
Fixpoint ref_hex_encode (l : bytes) : string :=
  match l with
  | [] => EmptyString
  | b :: l => String (digit_char (byte_val b / 16))
                (String (digit_char (byte_val b `mod` 16)) (ref_hex_encode l))
  end.
Fixpoint ref_hex_decode (s : string) : option bytes :=
  match s with
  | EmptyString => Some []
  | String h (String l s) =>
      h ← to_digit 16 h; l ← to_digit 16 l; bs ← ref_hex_decode s;
      Some (byte_of (16 * h + l) :: bs)
  | String _ EmptyString => None
  end.
#[export] Instance ref_hex : Hex := {|
  hex_encode := ref_hex_encode;
  hex_decode s := ok_or (ref_hex_decode s) "invalid hex"
|}.

Lemma byte_nibbles c :
  0 ≤ byte_val c / 16 < 16 ∧ 0 ≤ byte_val c `mod` 16 < 16 ∧
  16 * (byte_val c / 16) + byte_val c `mod` 16 = byte_val c.
Proof.
  pose proof (byte_val_range c). pose proof (Z.div_mod (byte_val c) 16 ltac:(lia)).
  pose proof (Z.mod_pos_bound (byte_val c) 16 ltac:(lia)).
  assert (0 ≤ byte_val c / 16 < 16) by (split; [apply Z.div_pos|apply Z.div_lt_upper_bound]; lia).
  lia.
Qed.
Lemma byte_of_nibbles h l :
  0 ≤ h < 16 → 0 ≤ l < 16 →
  byte_val (byte_of (16 * h + l)) / 16 = h ∧ byte_val (byte_of (16 * h + l)) `mod` 16 = l.
Proof.
  intros Hh Hl. rewrite byte_val_of by lia.
  by rewrite Z.mul_comm, Z.div_add_l, Z.div_small, Z.add_0_r, Z.add_comm, Z.mod_add, Z.mod_small
    by lia.
Qed.
Lemma ref_hex_decode_encode b : ref_hex_decode (ref_hex_encode b) = Some b.
Proof.
  induction b as [|c b IH]; [done|]. simpl. destruct (byte_nibbles c) as (Hh & Hl & Heq).
  rewrite !to_digit_char by lia. simpl. rewrite IH. simpl. by rewrite Heq, byte_of_val.
Qed.
Lemma ref_hex_decode_lower n s :
  (String.length s ≤ n)%nat → ref_hex_decode (to_ascii_lowercase s) = ref_hex_decode s.
Proof.
  revert s. induction n as [|n IH]; intros [|h [|l s]] Hn; simpl in *; try lia; try done.
  by rewrite !to_digit_lower, IH by lia.
Qed.
Lemma ref_hex_decode_Some n s b :
  (String.length s ≤ n)%nat → ref_hex_decode s = Some b → to_ascii_lowercase s = ref_hex_encode b.
Proof.
  revert s b. induction n as [|n IH]; intros [|h [|l s]] b Hn; simpl in *; try lia; try done;
    try (intros [= <-]; done).
  destruct (to_digit 16 h) as [dh|] eqn:Hh; simpl; [|done].
  destruct (to_digit 16 l) as [dl|] eqn:Hl; simpl; [|done].
  destruct (ref_hex_decode s) as [bs|] eqn:Hs; simpl; [|done]. intros [= <-].
  apply to_digit_Some in Hh as [Hdh ->]. apply to_digit_Some in Hl as [Hdl ->]. simpl.
  destruct (byte_of_nibbles dh dl Hdh Hdl) as [-> ->]. by rewrite (IH s bs) by (done || lia).
Qed.
Lemma ref_hex_decode_total n s :
  str_len s = 2 * Z.of_nat n → str_all is_ascii_hexdigit s = true → ∃ b, ref_hex_decode s = Some b.
Proof.
  unfold str_len, str_all. revert s. induction n as [|n IH]; intros [|h [|l s]] Hn Hd; simpl in *;
    try lia; [by eexists|].
  apply andb_true_iff in Hd as [[dh Hh]%hexdigit_to_digit Hd].
  apply andb_true_iff in Hd as [[dl Hl]%hexdigit_to_digit Hd].
  destruct (IH s) as [b Hb]; [lia|done|]. rewrite Hh, Hl, Hb. by eexists.
Qed.
#[export] Instance ref_hex_laws : HexLaws.
Proof.
  split; simpl.
  - intros b. unfold str_len. induction b as [|c b IH]; [done|].
    cbn [ref_hex_encode String.length length]. lia.
  - intros b. unfold str_all. induction b as [|c b IH]; [done|]. cbn.
    destruct (byte_nibbles c) as (Hh & Hl & _).
    by rewrite (digit_char_hexdigit _ Hh), (digit_char_hexdigit _ Hl).
  - intros b. induction b as [|c b IH]; [done|]. simpl. rewrite IH.
    destruct (byte_nibbles c) as (Hh & Hl & _). by rewrite !digit_char_lower.
  - intros s b. rewrite ok_or_Ok. split; [by apply (ref_hex_decode_Some (String.length s))|].
    intros Hs. rewrite <-(ref_hex_decode_lower (String.length s)), Hs by done.
    apply ref_hex_decode_encode.
  - intros s n Hl Hd. destruct (ref_hex_decode_total n s Hl Hd) as [b Hb]. exists b. by rewrite Hb.
Qed.

(** ** Hashing

    A digest that depends on every byte and on the length. *)
Definition ref_digest (l : bytes) : Z :=
  foldl (λ acc b, Z.land (65599 * acc + byte_val b + 1) 2305843009213693951) 5381 l.
Definition spread (d : Z) : Z := d * (1 + 2 ^ 64 + 2 ^ 128 + 2 ^ 192).
#[export] Instance ref_blake3 : Blake3 := λ l,
  dexist (le_bytes 32 (spread (ref_digest l))) (le_bytes_length 32 (spread (ref_digest l))).

(** ** Codecs *)
Create HintDb codec.
Record codec (A : Type) := {
  enc : A → bytes;
  dec : bytes → option (A * bytes)
}.
Arguments enc {_} _ _.
Arguments dec {_} _ _.
Definition codec_ok {A : Type} (c : codec A) (P : A → Prop) : Prop :=
  ∀ x rest, P x → dec c (enc c x ++ rest) = Some (x, rest).

Section codecs.
Context {A B : Type}.

Definition c_bytes (n : nat) : codec (array n) := {|
  enc := array_bytes;
  dec l := a ← to_array n (take n l); Some (a, drop n l)
|}.
Definition c_uint (n : nat) : codec Z := {|
  enc := le_bytes n;
  dec l := if bool_decide (n ≤ length l)%nat then Some (le_value (take n l), drop n l) else None
|}.
Definition c_pair (c1 : codec A) (c2 : codec B) : codec (A * B) := {|
  enc x := enc c1 x.1 ++ enc c2 x.2;
  dec l := '(a, l) ← dec c1 l; '(b, l) ← dec c2 l; Some ((a, b), l)
|}.
Definition c_iso (f : A → B) (g : B → A) (c : codec B) : codec A := {|
  enc x := enc c (f x);
  dec l := '(b, l) ← dec c l; Some (g b, l)
|}.
Fixpoint dec_n (c : codec A) (n : nat) (l : bytes) : option (list A * bytes) :=
  match n with
  | O => Some ([], l)
  | S n => '(a, l) ← dec c l; '(xs, l) ← dec_n c n l; Some (a :: xs, l)
  end.
Definition c_list (c : codec A) : codec (list A) := {|
  enc xs := le_bytes 8 (Z.of_nat (length xs)) ++ concat (map (enc c) xs);
  dec l := '(n, l) ← dec (c_uint 8) l; dec_n c (Z.to_nat n) l
|}.
Definition c_option (c : codec A) : codec (option A) := {|
  enc o := match o with None => le_bytes 1 0 | Some x => le_bytes 1 1 ++ enc c x end;
  dec l := '(t, l) ← dec (c_uint 1) l;
           if t =? 0 then Some (None, l) else '(a, l) ← dec c l; Some (Some a, l)
|}.

Lemma c_bytes_ok n : codec_ok (c_bytes n) (λ _, True).
Proof.
  intros a rest _. simpl. pose proof (array_length a) as Hl.
  rewrite take_app_length', drop_app_length' by done.
  by rewrite (to_array_bytes a).
Qed.
Lemma c_uint_ok n m : m < 256 ^ Z.of_nat n → codec_ok (c_uint n) (in_width m).
Proof.
  intros Hm z rest Hz. simpl. pose proof (le_bytes_length n z) as Hl.
  rewrite bool_decide_true by (rewrite length_app; lia).
  rewrite take_app_length', drop_app_length' by done.
  by rewrite le_value_bytes by (unfold in_width in Hz; lia).
Qed.
Lemma c_pair_ok c1 c2 P Q :
  codec_ok c1 P → codec_ok c2 Q → codec_ok (c_pair c1 c2) (λ x, P x.1 ∧ Q x.2).
Proof.
  intros H1 H2 [a b] rest [Ha Hb]. simpl in *. rewrite <-app_assoc, H1 by done. simpl.
  by rewrite H2.
Qed.
Lemma c_iso_ok (f : A → B) g c P :
  (∀ x, P (f x) → g (f x) = x) → codec_ok c P → codec_ok (c_iso f g c) (λ x, P (f x)).
Proof. intros Hgf Hc x rest Hx. simpl. rewrite Hc by done. simpl. by rewrite Hgf. Qed.
Lemma dec_n_ok c P xs rest :
  codec_ok c P → Forall P xs →
  dec_n c (length xs) (concat (map (enc c) xs) ++ rest) = Some (xs, rest).
Proof.
  intros Hc. induction 1 as [|x xs Hx Hxs IH]; simpl; [done|].
  rewrite <-app_assoc, Hc by done. simpl. by rewrite IH.
Qed.
Lemma c_list_ok c P :
  codec_ok c P → codec_ok (c_list c) (λ xs, is_u64 (Z.of_nat (length xs)) ∧ Forall P xs).
Proof.
  intros Hc xs rest [Hlen Hxs]. cbn [c_list enc dec]. rewrite <-app_assoc.
  change (le_bytes 8) with (enc (c_uint 8)). rewrite (c_uint_ok 8 u64_max); [|done|done].
  cbn [mbind option_bind]. rewrite Nat2Z.id. by eapply dec_n_ok.
Qed.
Lemma c_option_ok c P : codec_ok c P → codec_ok (c_option c) (λ o, from_option P True o).
Proof.
  intros Hc [x|] rest Hx; cbn [c_option enc dec]; rewrite <-?app_assoc;
    change (le_bytes 1) with (enc (c_uint 1)); rewrite (c_uint_ok 1 u8_max) by (done || width);
    cbn [mbind option_bind]; simpl; [|done]. by rewrite Hc.
Qed.
End codecs.

(** The widths and shapes the protocol types use. *)
Definition c_u8 : codec Z := c_uint 1.
Definition c_u32 : codec Z := c_uint 4.
Definition c_u64 : codec Z := c_uint 8.
Definition c_u128 : codec Z := c_uint 16.
Definition c_byte : codec byte := c_iso byte_val byte_of c_u8.
Definition c_string : codec string := c_iso str_bytes bytes_str (c_list c_byte).
Lemma c_u8_ok : codec_ok c_u8 is_u8.
Proof. by apply c_uint_ok. Qed.
Lemma c_u32_ok : codec_ok c_u32 is_u32.
Proof. by apply c_uint_ok. Qed.
Lemma c_u64_ok : codec_ok c_u64 is_u64.
Proof. by apply c_uint_ok. Qed.
Lemma c_u128_ok : codec_ok c_u128 is_u128.
Proof. by apply c_uint_ok. Qed.

Lemma codec_ok_weaken {A} (c : codec A) P Q : codec_ok c Q → (∀ x, P x → Q x) → codec_ok c P.
Proof. intros Hc HPQ x rest Hx. by apply Hc, HPQ. Qed.

Lemma c_byte_ok : codec_ok c_byte (λ _, True).
Proof.
  eapply codec_ok_weaken; [apply c_iso_ok, c_u8_ok; intros; apply byte_of_val|].
  intros b _. pose proof (byte_val_range b). width.
Qed.
Lemma c_vec_ok {A} (c : codec A) :
  codec_ok c (λ _, True) → codec_ok (c_list c) (λ xs, is_u64 (Z.of_nat (length xs))).
Proof.
  intros Hc. eapply codec_ok_weaken; [by apply c_list_ok|].
  intros xs Hxs. split; [done|]. by apply Forall_true.
Qed.
Lemma c_string_ok : codec_ok c_string (λ s, is_u64 (str_len s)).
Proof.
  eapply codec_ok_weaken; [apply c_iso_ok, c_vec_ok, c_byte_ok; intros; apply bytes_str_bytes|].
  intros s Hs. cbv beta. by rewrite str_bytes_length.
Qed.
#[export] Hint Resolve c_bytes_ok c_u8_ok c_u32_ok c_u64_ok c_u128_ok c_byte_ok c_vec_ok
  c_string_ok c_pair_ok c_option_ok : codec.
#[export] Hint Unfold codec_ok : codec.
(** Finds the domain on which a codec built from combinators round-trips. *)
Ltac codec_step :=
  first [ apply c_bytes_ok | apply c_u8_ok | apply c_u32_ok | apply c_u64_ok | apply c_u128_ok
        | apply c_byte_ok | apply c_string_ok | apply c_pair_ok | apply c_option_ok
        | solve [auto with codec] | apply c_list_ok ].
Ltac codec_record := apply c_iso_ok; [by intros []|repeat codec_step].

(** [bincode::deserialize] ignores trailing bytes. *)
Definition codec_serialize {A} (c : codec A) : Serialize A := enc c.
Definition codec_deserialize {A} (c : codec A) : Deserialize A := λ l,
  match dec c l with Some (x, _) => Ok x | None => Err "io error" end.
Lemma codec_laws {A} (c : codec A) P :
  codec_ok c P →
  @BincodeLaws A P (codec_serialize c) (codec_deserialize c).
Proof.
  intros Hc x Hx. unfold bincode_de, codec_deserialize, bincode, codec_serialize.
  rewrite <-(app_nil_r (enc c x)). by rewrite Hc.
Qed.

(** A textual codec standing in for [serde_json]. *)
Definition codec_json {A} (c : codec A) : SerdeJson A := {|
  to_json x := bytes_str (enc c x);
  from_json s := codec_deserialize c (str_bytes s)
|}.
Lemma codec_json_laws {A} (c : codec A) P :
  codec_ok c P → @SerdeJsonLaws A P (codec_json c).
Proof. intros Hc x Hx. simpl. rewrite str_bytes_str. by apply (codec_laws c P Hc). Qed.

(** A signature scheme standing in for ed25519: the public key is the digest of
    the seed and a signature is the digest of key and message. *)
Definition ref_tag (pk : array 32) (m : bytes) : array 64 :=
  dexist (le_bytes 64 (ref_digest (array_bytes pk ++ m))) (le_bytes_length 64 _).
#[export] Instance ref_ed25519 : Ed25519 := {|
  ed_public_key sk := ref_blake3 (array_bytes sk);
  ed_sign sk m := ref_tag (ref_blake3 (array_bytes sk)) m;
  ed_valid_key _ := true;
  ed_verify pk m s := bool_decide (s = ref_tag pk m)
|}.
#[export] Instance ref_ed25519_laws : Ed25519Laws.
Proof. split; [done|]. intros sk m. simpl. by apply bool_decide_eq_true. Qed.

(** ** JSON values

    A textual form of [Value] through its injection into labelled trees, standing
    in for [serde_json]'s parser and printer. *)
Section value_ind.
Context (P : Value → Prop) (Hnull : P VNull) (Hbool : ∀ b, P (VBool b)) (Hnum : ∀ n, P (VNumber n))
  (Hstr : ∀ s, P (VString s)) (Harr : ∀ l, Forall P l → P (VArray l))
  (Hobj : ∀ fs, Forall (λ kv, P kv.2) fs → P (VObject fs)).

Fixpoint value_ind' (v : Value) : P v :=
  match v with
  | VNull => Hnull
  | VBool b => Hbool b
  | VNumber n => Hnum n
  | VString s => Hstr s
  | VArray l => Harr l ((fix go l : Forall P l :=
      match l with [] => Forall_nil_2 _ | v :: l => Forall_cons_2 _ _ _ (value_ind' v) (go l) end) l)
  | VObject fs => Hobj fs ((fix go fs : Forall (λ kv, P kv.2) fs :=
      match fs with [] => Forall_nil_2 _ | kv :: fs => Forall_cons_2 _ _ _ (value_ind' kv.2) (go fs) end) fs)
  end.
End value_ind.

Definition value_leaf : Type := unit + bool + Z + string.
Fixpoint value_tree (v : Value) : gen_tree value_leaf :=
  match v with
  | VNull => GenLeaf (inl (inl (inl ())))
  | VBool b => GenLeaf (inl (inl (inr b)))
  | VNumber n => GenLeaf (inl (inr n))
  | VString s => GenLeaf (inr s)
  | VArray l => GenNode 0 (map value_tree l)
  | VObject fs => GenNode 1 (map (λ kv, GenNode 2 [GenLeaf (inr kv.1); value_tree kv.2]) fs)
  end.
Fixpoint tree_value (t : gen_tree value_leaf) : Value :=
  match t with
  | GenLeaf (inl (inl (inl _))) => VNull
  | GenLeaf (inl (inl (inr b))) => VBool b
  | GenLeaf (inl (inr n)) => VNumber n
  | GenLeaf (inr s) => VString s
  | GenNode 0 l => VArray (map tree_value l)
  | GenNode 1 l => VObject (map (λ t, match t with
                                      | GenNode 2 [GenLeaf (inr k); t] => (k, tree_value t)
                                      | _ => (EmptyString, VNull)
                                      end) l)
  | GenNode _ _ => VNull
  end.
Lemma tree_value_tree v : tree_value (value_tree v) = v.
Proof.
  induction v as [| | | |l IH|fs IH] using value_ind'; try done; simpl; f_equal.
  - rewrite map_map. induction IH as [|v l Hv _ IHl]; [done|]. simpl. by rewrite Hv, IHl.
  - rewrite map_map. induction IH as [|[k v] l Hv _ IHl]; [done|]. simpl in *. by rewrite Hv, IHl.
Qed.
#[export] Instance value_eq_dec : EqDecision Value.
Proof.
  refine (λ v w, cast_if (decide (value_tree v = value_tree w))); [|congruence].
  by rewrite <-(tree_value_tree v), <-(tree_value_tree w), e.
Defined.
#[export] Program Instance value_countable : Countable Value :=
  inj_countable' value_tree tree_value tree_value_tree.

Fixpoint pos_bits (p : positive) : string :=
  match p with
  | xH => EmptyString
  | xO p => String "0" (pos_bits p)
  | xI p => String "1" (pos_bits p)
  end.
Fixpoint bits_pos (s : string) : positive :=
  match s with
  | EmptyString => xH
  | String "0" s => xO (bits_pos s)
  | String _ s => xI (bits_pos s)
  end.
Lemma bits_pos_bits p : bits_pos (pos_bits p) = p.
Proof. induction p as [p IH|p IH|]; simpl; congruence. Qed.
#[export] Instance ref_json_value : SerdeJson Value := {|
  to_json v := pos_bits (encode v);
  from_json s := ok_or (decode (bits_pos s)) "invalid JSON"
|}.
#[export] Instance ref_json_value_laws P : SerdeJsonLaws Value P.
Proof. intros v _. simpl. by rewrite bits_pos_bits, decode_encode. Qed.

