(* ===== verification/Core.v ===== *)
(** * [subhost-core]

    The consensus-independent types of [crates/subhost-core/src/lib.rs]: hashes
    and addresses with their hexadecimal form, transactions with their cost and
    signing payload, blocks and receipts with their commitments, and the genesis
    document with its validation and its allocation codec. *)

From Stdlib Require Import String.
From S2P Require Import Prelude Order Text Deps Bincode.

Definition HASH_SIZE : nat := 32.
Definition ADDRESS_SIZE : nat := 20.
Definition BLOCK_GAS_LIMIT : Z := 30000000.
Definition DEFAULT_BLOCK_TIME_MS : Z := 1000.

Inductive CoreError :=
| InvalidHashLength (len : Z)
| InvalidAddressLength (len : Z)
| InvalidHex (message : string)
| InvalidGenesis (message : string)
| GenesisRead (path source : string)
| GenesisWrite (path source : string)
| GenesisDecode (e : JsonError)
(** A [serde_json::Error]: the parser's own, or one raised by the allocation
    deserializer through [D::Error::custom]. *)
with JsonError :=
| JsonSyntax (message : string)
| JsonCustom (e : AllocationError)
with AllocationError :=
| AllocationPrefix
| AllocationAddress (e : CoreError)
| AllocationBalance
| AllocationDuplicate.

(** ** Hashes and addresses *)

Definition Hash : Type := array HASH_SIZE.
Definition Address : Type := array ADDRESS_SIZE.
#[export] Instance Hash_eq_dec : EqDecision Hash := array_eq_dec HASH_SIZE.
#[export] Instance Hash_countable : Countable Hash := array_countable HASH_SIZE.
#[export] Instance Address_eq_dec : EqDecision Address := array_eq_dec ADDRESS_SIZE.
#[export] Instance Address_countable : Countable Address := array_countable ADDRESS_SIZE.

Definition Hash_ZERO : Hash := array_repeat (byte_of 0) HASH_SIZE.
Definition Address_ZERO : Address := array_repeat (byte_of 0) ADDRESS_SIZE.
Definition hash_compare : Hash → Hash → comparison := array_compare (n:=HASH_SIZE).
Definition address_compare : Address → Address → comparison := array_compare (n:=ADDRESS_SIZE).

Definition from_data `{!Blake3} (data : bytes) : Hash := blake3 data.

(** The low 20 bytes of the digest of the public key. *)
Definition from_public_key `{!Blake3} (public_key : bytes) : Address :=
  default Address_ZERO
    (to_array ADDRESS_SIZE (drop (HASH_SIZE - ADDRESS_SIZE) (array_bytes (blake3 public_key)))).

Section hex.
Context `{!Hex}.

Definition hash_from_hex (value : string) : result CoreError Hash :=
  let raw := default value (strip_prefix "0x" value) in
  bs ← map_err InvalidHex (hex_decode raw);
  ok_or (to_array HASH_SIZE bs) (InvalidHashLength (Z.of_nat (length bs))).

Definition address_from_hex (value : string) : result CoreError Address :=
  let raw := default value (strip_prefix "0x" value) in
  bs ← map_err InvalidHex (hex_decode raw);
  ok_or (to_array ADDRESS_SIZE bs) (InvalidAddressLength (Z.of_nat (length bs))).

Definition hash_to_string (h : Hash) : string := "0x" +:+ hex_encode (array_bytes h).
Definition address_to_string (a : Address) : string := "0x" +:+ hex_encode (array_bytes a).
End hex.

(** ** Transactions *)

Inductive TransactionType :=
| Transfer | ContractCreation | ContractCall | Stake | Unstake | GovernanceVote | CrossChain.
#[export] Instance TransactionType_eq_dec : EqDecision TransactionType.
Proof. solve_decision. Defined.

Definition transaction_type_to_string (t : TransactionType) : string :=
  match t with
  | Transfer => "transfer"
  | ContractCreation => "contractCreation"
  | ContractCall => "contractCall"
  | Stake => "stake"
  | Unstake => "unstake"
  | GovernanceVote => "governanceVote"
  | CrossChain => "crossChain"
  end.

Record TransactionSignature := {
  sig_r : array 32;
  sig_s : array 32;
  sig_v : Z
}.
#[export] Instance TransactionSignature_eq_dec : EqDecision TransactionSignature.
Proof. solve_decision. Defined.

Definition EMPTY : TransactionSignature :=
  {| sig_r := array_repeat (byte_of 0) 32; sig_s := array_repeat (byte_of 0) 32; sig_v := 0 |}.

Definition zeros (n : nat) : array n := array_repeat (byte_of 0) n.
Definition from_ed25519 (signature : array 64) : TransactionSignature :=
  {| sig_r := default (zeros 32) (to_array 32 (take 32 (array_bytes signature)));
     sig_s := default (zeros 32) (to_array 32 (drop 32 (array_bytes signature)));
     sig_v := 0 |}.
Definition to_ed25519 (sig : TransactionSignature) : array 64 :=
  default (zeros 64) (to_array 64 (array_bytes (sig_r sig) ++ array_bytes (sig_s sig))).

Record Transaction := {
  tx_type : TransactionType;
  tx_nonce : Z;
  tx_from : Address;
  tx_to : option Address;
  tx_value : Z;
  tx_gas_price : Z;
  tx_gas_limit : Z;
  tx_data : bytes;
  tx_chain_id : Z;
  tx_signature : TransactionSignature
}.
#[export] Instance Transaction_eq_dec : EqDecision Transaction.
Proof. solve_decision. Defined.

(** The values a Rust [Transaction] can hold. *)
Definition tx_wf (tx : Transaction) : Prop :=
  is_u64 (tx_nonce tx) ∧ is_u128 (tx_value tx) ∧ is_u128 (tx_gas_price tx) ∧
  is_u64 (tx_gas_limit tx) ∧ is_u64 (tx_chain_id tx) ∧ is_u8 (sig_v (tx_signature tx)) ∧
  is_u64 (Z.of_nat (length (tx_data tx))).
#[export] Instance tx_wf_dec tx : Decision (tx_wf tx).
Proof. unfold tx_wf. apply _. Defined.

Definition fee (tx : Transaction) : option Z :=
  checked_mul u128_max (tx_gas_price tx) (tx_gas_limit tx).
Definition total_cost (tx : Transaction) : option Z :=
  f ← fee tx; checked_add u128_max (tx_value tx) f.

Definition unsigned (tx : Transaction) : Transaction :=
  {| tx_type := tx_type tx; tx_nonce := tx_nonce tx; tx_from := tx_from tx; tx_to := tx_to tx;
     tx_value := tx_value tx; tx_gas_price := tx_gas_price tx; tx_gas_limit := tx_gas_limit tx;
     tx_data := tx_data tx; tx_chain_id := tx_chain_id tx; tx_signature := EMPTY |}.
Definition with_signature (tx : Transaction) (sig : TransactionSignature) : Transaction :=
  {| tx_type := tx_type tx; tx_nonce := tx_nonce tx; tx_from := tx_from tx; tx_to := tx_to tx;
     tx_value := tx_value tx; tx_gas_price := tx_gas_price tx; tx_gas_limit := tx_gas_limit tx;
     tx_data := tx_data tx; tx_chain_id := tx_chain_id tx; tx_signature := sig |}.

Section tx_encoding.
Context `{!Blake3, !Serialize Transaction}.

Definition tx_hash (tx : Transaction) : Hash := from_data (bincode tx).
Definition signing_payload (tx : Transaction) : bytes := bincode (unsigned tx).
End tx_encoding.

(** ** Blocks and receipts *)

Record BlockHeader := {
  hdr_version : Z;
  hdr_chain_id : Z;
  hdr_height : Z;
  hdr_timestamp : Z;
  hdr_parent_hash : Hash;
  hdr_state_root : Hash;
  hdr_tx_root : Hash;
  hdr_receipt_root : Hash;
  hdr_validator : Address;
  hdr_gas_used : Z;
  hdr_gas_limit : Z;
  hdr_extra_data : bytes
}.
#[export] Instance BlockHeader_eq_dec : EqDecision BlockHeader.
Proof. solve_decision. Defined.

Record ValidatorSignature := { vs_validator : Address; vs_signature : bytes }.
#[export] Instance ValidatorSignature_eq_dec : EqDecision ValidatorSignature.
Proof. solve_decision. Defined.

Record Block := {
  blk_header : BlockHeader;
  blk_transactions : list Transaction;
  blk_signatures : list ValidatorSignature
}.
#[export] Instance Block_eq_dec : EqDecision Block.
Proof. solve_decision. Defined.

Inductive ReceiptStatus := Success | Failure.
#[export] Instance ReceiptStatus_eq_dec : EqDecision ReceiptStatus.
Proof. solve_decision. Defined.
Definition receipt_status_u8 (s : ReceiptStatus) : Z :=
  match s with Success => 1 | Failure => 0 end.

Record Log := { log_address : Address; log_topics : list Hash; log_data : bytes }.
#[export] Instance Log_eq_dec : EqDecision Log.
Proof. solve_decision. Defined.

Record Receipt := {
  rcpt_tx_hash : Hash;
  rcpt_block_hash : Hash;
  rcpt_block_height : Z;
  rcpt_gas_used : Z;
  rcpt_status : ReceiptStatus;
  rcpt_logs : list Log;
  rcpt_contract_address : option Address
}.
#[export] Instance Receipt_eq_dec : EqDecision Receipt.
Proof. solve_decision. Defined.

Section block_encoding.
Context `{!Blake3, !Serialize BlockHeader, !Serialize (list Hash)}.

Definition header_hash (h : BlockHeader) : Hash := from_data (bincode h).
Definition block_hash (b : Block) : Hash := header_hash (blk_header b).
Definition tx_root_of (tx_hashes : list Hash) : Hash := from_data (bincode tx_hashes).
Definition tx_root `{!Serialize Transaction} (b : Block) : Hash :=
  from_data (bincode (map tx_hash (blk_transactions b))).
End block_encoding.

(** ** The genesis document *)

Record ValidatorInfo := { vi_address : Address; vi_public_key : bytes; vi_power : Z }.
#[export] Instance ValidatorInfo_eq_dec : EqDecision ValidatorInfo.
Proof. solve_decision. Defined.

Record GenesisConfig := {
  gen_chain_id : Z;
  gen_initial_validators : list ValidatorInfo;
  gen_allocations : gmap Address Z;
  gen_block_time_ms : Z;
  gen_gas_limit : Z;
  gen_genesis_time : Z
}.
#[export] Instance GenesisConfig_eq_dec : EqDecision GenesisConfig.
Proof. solve_decision. Defined.

(** [unix_timestamp()]: the clock is an input of the model; [duration_since]
    fails before 1970 and the code saturates to [0]. *)
Definition unix_timestamp (clock : Z) : Z := if 0 <=? clock then clock else 0.

(** [GenesisConfig::default()] at clock reading [now]. *)
Definition genesis_default (now : Z) : GenesisConfig :=
  {| gen_chain_id := 1; gen_initial_validators := []; gen_allocations := ∅;
     gen_block_time_ms := DEFAULT_BLOCK_TIME_MS; gen_gas_limit := BLOCK_GAS_LIMIT;
     gen_genesis_time := unix_timestamp now |}.

Section genesis.
Context `{!Hex}.

Fixpoint validate_validators (seen : gset Address) (vs : list ValidatorInfo)
  : result CoreError unit :=
  match vs with
  | [] => Ok ()
  | v :: vs =>
      _ ← fail_if (vi_power v =? 0)
            (InvalidGenesis ("validator " +:+ address_to_string (vi_address v)
                             +:+ " has zero voting power"));
      _ ← fail_if (bool_decide (vi_public_key v = []))
            (InvalidGenesis ("validator " +:+ address_to_string (vi_address v)
                             +:+ " has no public key"));
      _ ← fail_if (bool_decide (vi_address v ∈ seen))
            (InvalidGenesis ("duplicate validator " +:+ address_to_string (vi_address v)));
      validate_validators ({[vi_address v]} ∪ seen) vs
  end.

Definition validate (g : GenesisConfig) : result CoreError unit :=
  _ ← fail_if (gen_chain_id g =? 0) (InvalidGenesis "chain ID cannot be 0");
  _ ← fail_if (gen_block_time_ms g =? 0) (InvalidGenesis "block time must be > 0");
  _ ← fail_if (gen_gas_limit g =? 0) (InvalidGenesis "gas limit must be > 0");
  validate_validators ∅ (gen_initial_validators g).

Definition requires_validators (g : GenesisConfig) : result CoreError unit :=
  fail_if (bool_decide (gen_initial_validators g = []))
    (InvalidGenesis "a validator network requires at least one initial validator").

Definition total_voting_power (g : GenesisConfig) : Z :=
  foldr (λ v total, vi_power v + total) 0 (gen_initial_validators g).

(** The [genesis_allocations] module: a sorted array of decimal strings. *)
Record Allocation := { alloc_address : string; alloc_balance : string }.

Definition alloc_compare (left right : Allocation) : comparison :=
  lex_compare (str_bytes (alloc_address left)) (str_bytes (alloc_address right)).

(** [serialize] on the entries in the order the [HashMap] iterates them. *)
Definition allocations_serialize_iter (entries : list (Address * Z)) : list Allocation :=
  sort_by alloc_compare
    (map (λ '(address, balance),
            {| alloc_address := address_to_string address;
               alloc_balance := fmt_dec balance |}) entries).
Definition allocations_serialize (allocations : gmap Address Z) : list Allocation :=
  allocations_serialize_iter (map_to_list allocations).

Definition allocation_insert (allocations : gmap Address Z) (value : Allocation)
  : result AllocationError (gmap Address Z) :=
  _ ← fail_if (negb (starts_with "0x" (alloc_address value))) AllocationPrefix;
  address ← map_err AllocationAddress (address_from_hex (alloc_address value));
  balance ← ok_or (from_str_radix u128_max 10 (alloc_balance value)) AllocationBalance;
  _ ← fail_if (bool_decide (is_Some (allocations !! address))) AllocationDuplicate;
  Ok (<[address := balance]> allocations).
Definition allocations_deserialize (values : list Allocation)
  : result AllocationError (gmap Address Z) :=
  try_fold allocation_insert ∅ values.

(** The JSON document: the derived fields with the allocations in their
    serialized form. *)
Record GenesisDoc := {
  doc_chain_id : Z;
  doc_initial_validators : list ValidatorInfo;
  doc_allocations : list Allocation;
  doc_block_time_ms : Z;
  doc_gas_limit : Z;
  doc_genesis_time : Z
}.
Definition genesis_to_doc (g : GenesisConfig) : GenesisDoc :=
  {| doc_chain_id := gen_chain_id g; doc_initial_validators := gen_initial_validators g;
     doc_allocations := allocations_serialize (gen_allocations g);
     doc_block_time_ms := gen_block_time_ms g; doc_gas_limit := gen_gas_limit g;
     doc_genesis_time := gen_genesis_time g |}.
Definition genesis_of_doc (d : GenesisDoc) : result AllocationError GenesisConfig :=
  allocations ← allocations_deserialize (doc_allocations d);
  Ok {| gen_chain_id := doc_chain_id d; gen_initial_validators := doc_initial_validators d;
        gen_allocations := allocations; gen_block_time_ms := doc_block_time_ms d;
        gen_gas_limit := doc_gas_limit d; gen_genesis_time := doc_genesis_time d |}.

Context `{!SerdeJson GenesisDoc}.

(** [GenesisConfig::load]: [file] is what [read_to_string] returned. *)
Definition genesis_load (path : string) (file : result string string)
  : result CoreError GenesisConfig :=
  content ← map_err (GenesisRead path) file;
  doc ← map_err (GenesisDecode ∘ JsonSyntax) (from_json content);
  config ← map_err (GenesisDecode ∘ JsonCustom) (genesis_of_doc doc);
  _ ← validate config;
  Ok config.

(** [GenesisConfig::save]: the text written to [path] when [write] succeeds. *)
Definition genesis_save (path : string) (write : result string unit) (g : GenesisConfig)
  : result CoreError string :=
  _ ← validate g;
  let json := to_json (genesis_to_doc g) in
  _ ← map_err (GenesisWrite path) write;
  Ok json.
End genesis.

(** ** Reference codecs

    The bincode encodings of the types above, in field order. *)

Definition tx_type_index (t : TransactionType) : Z :=
  match t with
  | Transfer => 0 | ContractCreation => 1 | ContractCall => 2 | Stake => 3
  | Unstake => 4 | GovernanceVote => 5 | CrossChain => 6
  end.
Definition tx_type_of (z : Z) : TransactionType :=
  default Transfer
    ([Transfer; ContractCreation; ContractCall; Stake; Unstake; GovernanceVote; CrossChain]
       !! Z.to_nat z).
Definition c_tx_type : codec TransactionType := c_iso tx_type_index tx_type_of c_u32.
Definition c_signature : codec TransactionSignature :=
  c_iso (λ s, (sig_r s, (sig_s s, sig_v s)))
        (λ '(r, (s, v)), {| sig_r := r; sig_s := s; sig_v := v |})
        (c_pair (c_bytes 32) (c_pair (c_bytes 32) c_u8)).
Definition c_tx : codec Transaction :=
  c_iso (λ t, (tx_type t, (tx_nonce t, (tx_from t, (tx_to t, (tx_value t, (tx_gas_price t,
               (tx_gas_limit t, (tx_data t, (tx_chain_id t, tx_signature t))))))))))
        (λ '(ty, (n, (f, (t, (v, (p, (l, (d, (c, s))))))))),
           {| tx_type := ty; tx_nonce := n; tx_from := f; tx_to := t; tx_value := v;
              tx_gas_price := p; tx_gas_limit := l; tx_data := d; tx_chain_id := c;
              tx_signature := s |})
        (c_pair c_tx_type (c_pair c_u64 (c_pair (c_bytes ADDRESS_SIZE)
          (c_pair (c_option (c_bytes ADDRESS_SIZE)) (c_pair c_u128 (c_pair c_u128
          (c_pair c_u64 (c_pair (c_list c_byte) (c_pair c_u64 c_signature))))))))).
Definition c_validator_info : codec ValidatorInfo :=
  c_iso (λ v, (vi_address v, (vi_public_key v, vi_power v)))
        (λ '(a, (k, p)), {| vi_address := a; vi_public_key := k; vi_power := p |})
        (c_pair (c_bytes ADDRESS_SIZE) (c_pair (c_list c_byte) c_u64)).
Definition c_allocation : codec Allocation :=
  c_iso (λ a, (alloc_address a, alloc_balance a))
        (λ '(a, b), {| alloc_address := a; alloc_balance := b |}) (c_pair c_string c_string).
Definition c_genesis_doc : codec GenesisDoc :=
  c_iso (λ d, (doc_chain_id d, (doc_initial_validators d, (doc_allocations d,
               (doc_block_time_ms d, (doc_gas_limit d, doc_genesis_time d))))))
        (λ '(c, (v, (a, (b, (g, t))))),
           {| doc_chain_id := c; doc_initial_validators := v; doc_allocations := a;
              doc_block_time_ms := b; doc_gas_limit := g; doc_genesis_time := t |})
        (c_pair c_u64 (c_pair (c_list c_validator_info) (c_pair (c_list c_allocation)
          (c_pair c_u64 (c_pair c_u64 c_u64))))).

Lemma c_tx_type_ok : codec_ok c_tx_type (λ _, True).
Proof.
  eapply codec_ok_weaken; [apply c_iso_ok, c_u32_ok; by intros []|]. intros []; simpl; width.
Qed.
Lemma c_signature_ok : codec_ok c_signature (λ s, is_u8 (sig_v s)).
Proof. eapply codec_ok_weaken; [codec_record|]. done. Qed.
#[export] Hint Resolve c_tx_type_ok c_signature_ok : codec.
Lemma c_tx_ok : codec_ok c_tx tx_wf.
Proof.
  eapply codec_ok_weaken; [codec_record|].
  intros t (?&?&?&?&?&?&?). simpl. by destruct (tx_to t).
Qed.
#[export] Hint Resolve c_tx_ok : codec.

(** What a genesis document can hold, and what its JSON form can. *)
Definition vi_wf (v : ValidatorInfo) : Prop :=
  is_u64 (Z.of_nat (length (vi_public_key v))) ∧ is_u64 (vi_power v).
Definition genesis_wf (g : GenesisConfig) : Prop :=
  is_u64 (gen_chain_id g) ∧ is_u64 (gen_block_time_ms g) ∧ is_u64 (gen_gas_limit g) ∧
  is_u64 (gen_genesis_time g) ∧ is_u64 (Z.of_nat (length (gen_initial_validators g))) ∧
  Forall vi_wf (gen_initial_validators g) ∧ is_u64 (Z.of_nat (size (gen_allocations g))) ∧
  map_Forall (λ _ b, is_u128 b) (gen_allocations g).
Definition doc_wf (d : GenesisDoc) : Prop :=
  is_u64 (doc_chain_id d) ∧ is_u64 (doc_block_time_ms d) ∧ is_u64 (doc_gas_limit d) ∧
  is_u64 (doc_genesis_time d) ∧ is_u64 (Z.of_nat (length (doc_initial_validators d))) ∧
  Forall vi_wf (doc_initial_validators d) ∧ is_u64 (Z.of_nat (length (doc_allocations d))) ∧
  Forall (λ a, is_u64 (str_len (alloc_address a)) ∧ is_u64 (str_len (alloc_balance a)))
    (doc_allocations d).
Lemma c_validator_info_ok : codec_ok c_validator_info vi_wf.
Proof. eapply codec_ok_weaken; [codec_record|]. by intros ? [??]. Qed.
Lemma c_allocation_ok : codec_ok c_allocation
  (λ a, is_u64 (str_len (alloc_address a)) ∧ is_u64 (str_len (alloc_balance a))).
Proof. eapply codec_ok_weaken; [codec_record|]. by intros ? [??]. Qed.
Lemma c_genesis_doc_ok : codec_ok c_genesis_doc doc_wf.
Proof.
  eapply codec_ok_weaken.
  - apply c_iso_ok; [by intros []|]. repeat (apply c_list_ok || codec_step);
      [apply c_validator_info_ok|apply c_allocation_ok].
  - by intros d (?&?&?&?&?&?&?&?).
Qed.

(** ** Properties *)

Section core_facts.
Context `{!Hex, !HexLaws}.

Lemma address_from_to_string a : address_from_hex (address_to_string a) = Ok a.
Proof.
  unfold address_from_hex, address_to_string. rewrite strip_prefix_app. simpl.
  rewrite hex_decode_encode. cbn. by rewrite (to_array_bytes (n:=ADDRESS_SIZE)).
Qed.
Lemma hash_from_to_string h : hash_from_hex (hash_to_string h) = Ok h.
Proof.
  unfold hash_from_hex, hash_to_string. rewrite strip_prefix_app. simpl.
  rewrite hex_decode_encode. cbn. by rewrite (to_array_bytes (n:=HASH_SIZE)).
Qed.
Lemma address_lower a : to_ascii_lowercase (address_to_string a) = address_to_string a.
Proof.
  unfold address_to_string.
  change ("0x" +:+ to_ascii_lowercase (hex_encode (array_bytes a)) = "0x" +:+ hex_encode (array_bytes a)).
  by rewrite hex_encode_lower.
Qed.
#[export] Instance address_to_string_inj : Inj (=) (=) address_to_string.
Proof.
  intros a b Hab. pose proof (address_from_to_string a) as Ha.
  rewrite Hab, address_from_to_string in Ha. congruence.
Qed.
Lemma address_to_string_len a : str_len (address_to_string a) = 42.
Proof.
  unfold address_to_string. rewrite str_len_app, hex_encode_length.
  rewrite (array_length (n:=ADDRESS_SIZE)). done.
Qed.

Lemma address_to_string_prefix a : starts_with "0x" (address_to_string a) = true.
Proof. apply starts_with_app. Qed.
Lemma allocation_insert_entry m a b :
  m !! a = None → is_u128 b →
  allocation_insert m {| alloc_address := address_to_string a; alloc_balance := fmt_dec b |}
  = Ok (<[a := b]> m).
Proof.
  intros Ha Hb. unfold allocation_insert. cbn [alloc_address alloc_balance].
  rewrite address_to_string_prefix. simpl. rewrite address_from_to_string. simpl. unfold fmt_dec.
  rewrite from_str_radix_fmt by width. simpl. by rewrite Ha.
Qed.
(** Inserting serialized entries with fresh addresses one after the other. *)
Lemma allocations_deserialize_entries entries m :
  NoDup entries.*1 → (∀ a, a ∈ entries.*1 → m !! a = None) →
  Forall (λ e, is_u128 e.2) entries →
  try_fold allocation_insert m
    (map (λ '(a, b), {| alloc_address := address_to_string a; alloc_balance := fmt_dec b |})
         entries)
  = Ok (list_to_map entries ∪ m).
Proof.
  revert m. induction entries as [|[a b] entries IH]; intros m Hnd Hfresh Hwf; cbn [map try_fold].
  { simpl. by rewrite (left_id_L ∅ (∪)). }
  inversion Hnd as [|?? Ha Hnd']; subst. inversion Hwf as [|?? Hb Hwf']; subst. simpl in Hb.
  rewrite allocation_insert_entry by (done || apply Hfresh; left).
  simpl. rewrite IH; [|done| |done].
  - f_equal. simpl. rewrite <-(insert_union_r _ m a b); [by rewrite insert_union_l|].
    by apply not_elem_of_list_to_map_1.
  - intros a' Ha'. rewrite lookup_insert_ne by (intros ->; done). apply Hfresh. by right.
Qed.
Lemma allocations_roundtrip m :
  map_Forall (λ _ b, is_u128 b) m → allocations_deserialize (allocations_serialize m) = Ok m.
Proof.
  intros Hm. unfold allocations_deserialize, allocations_serialize, allocations_serialize_iter.
  set (ser := λ '(a, b), _).
  destruct (Permutation_map_inv ser (map_to_list m) (sort_by_perm alloc_compare _))
    as (entries & -> & Hperm).
  rewrite allocations_deserialize_entries.
  - f_equal. rewrite (right_id_L ∅ (∪)). rewrite <-(list_to_map_to_list m).
    apply list_to_map_proper; [|by symmetry].
    rewrite <-Hperm. apply NoDup_fst_map_to_list.
  - rewrite <-Hperm. apply NoDup_fst_map_to_list.
  - intros a _. apply lookup_empty.
  - rewrite <-Hperm. apply Forall_forall. intros [a b] Hab%elem_of_map_to_list.
    by apply (Hm a b).
Qed.

Lemma genesis_doc_wf g : genesis_wf g → doc_wf (genesis_to_doc g).
Proof.
  intros (?&?&?&?&?&?&Hsize&Hbal). unfold doc_wf, genesis_to_doc. simpl.
  unfold allocations_serialize, allocations_serialize_iter. split_and!; try done.
  - by rewrite sort_by_perm, length_map, length_map_to_list.
  - rewrite sort_by_perm. apply Forall_map, Forall_forall.
    intros [a b] Hab%elem_of_map_to_list. simpl.
    rewrite address_to_string_len. specialize (Hbal a b Hab). simpl in Hbal.
    pose proof (fmt_radix_len 10 b 128 ltac:(lia) ltac:(width)). unfold fmt_dec.
    unfold str_len in *. width.
Qed.
Lemma hex_encode_no_prefix b : strip_prefix "0x" (hex_encode b) = None.
Proof.
  destruct (strip_prefix _ _) as [s|] eqn:Hs; [|done]. apply strip_prefix_Some in Hs.
  pose proof (hex_encode_digits b) as Hd. by rewrite Hs in Hd.
Qed.
Lemma address_from_hex_Ok s a :
  address_from_hex s = Ok a ↔
  to_ascii_lowercase (default s (strip_prefix "0x" s)) = hex_encode (array_bytes a).
Proof.
  unfold address_from_hex. rewrite bind_Ok. setoid_rewrite map_err_Ok.
  setoid_rewrite ok_or_Ok. setoid_rewrite to_array_Some. setoid_rewrite hex_decode_Ok.
  split; [by intros (bs & ? & ->)|eauto].
Qed.
Lemma hash_from_hex_Ok s h :
  hash_from_hex s = Ok h ↔
  to_ascii_lowercase (default s (strip_prefix "0x" s)) = hex_encode (array_bytes h).
Proof.
  unfold hash_from_hex. rewrite bind_Ok. setoid_rewrite map_err_Ok.
  setoid_rewrite ok_or_Ok. setoid_rewrite to_array_Some. setoid_rewrite hex_decode_Ok.
  split; [by intros (bs & ? & ->)|eauto].
Qed.
End core_facts.

Lemma bincode_inj {A} (P : A → Prop) `{BincodeLaws A P} x y :
  P x → P y → bincode x = bincode y → x = y.
Proof.
  intros Hx Hy Heq. pose proof (bincode_de_ser x Hx) as Hde.
  rewrite Heq, (bincode_de_ser y Hy) in Hde. congruence.
Qed.
Lemma unsigned_wf tx : tx_wf tx → tx_wf (unsigned tx).
Proof. intros (?&?&?&?&?&?&?). unfold tx_wf, unsigned. simpl. split_and!; try done. Qed.
Lemma unsigned_with_signature tx sig : unsigned (with_signature tx sig) = unsigned tx.
Proof. done. Qed.

Lemma validate_validators_Ok `{!Hex} seen vs :
  validate_validators seen vs = Ok () ↔
  Forall (λ v, vi_power v ≠ 0 ∧ vi_public_key v ≠ []) vs ∧
  NoDup (map vi_address vs) ∧ ∀ a, a ∈ map vi_address vs → a ∉ seen.
Proof.
  revert seen. induction vs as [|v vs IH]; intros seen; cbn [validate_validators map].
  { split; [|done]. intros _. split_and!; [constructor..|]. by intros a ?%elem_of_nil. }
  rewrite !guard_Ok, Z.eqb_neq, !bool_decide_eq_false, IH, Forall_cons, NoDup_cons. split.
  - intros (? & ? & ? & ? & ? & Hseen). split_and!; try done.
    + intros Hin. by apply (Hseen _ Hin), elem_of_union_l, elem_of_singleton.
    + intros a [->|Ha]%elem_of_cons; [done|]. specialize (Hseen a Ha). set_solver.
  - intros ([[??]?] & [Hnin ?] & Hseen). split_and!; try done; [apply Hseen; left|].
    intros a Ha [->%elem_of_singleton|?]%elem_of_union; [done|]. by apply (Hseen a); [right|].
Qed.

(** A structurally valid genesis, as [GenesisConfig::validate] promises it. *)
Record genesis_valid (g : GenesisConfig) : Prop := {
  gv_chain : gen_chain_id g ≠ 0;
  gv_time : gen_block_time_ms g ≠ 0;
  gv_gas : gen_gas_limit g ≠ 0;
  gv_validators : Forall (λ v, vi_power v ≠ 0 ∧ vi_public_key v ≠ []) (gen_initial_validators g);
  gv_distinct : NoDup (map vi_address (gen_initial_validators g))
}.
Lemma validate_Ok `{!Hex} g : validate g = Ok () ↔ genesis_valid g.
Proof.
  unfold validate. rewrite !guard_Ok, !Z.eqb_neq, validate_validators_Ok. split.
  - intros (? & ? & ? & ? & ? & _). by split.
  - intros []. split_and!; try done.
Qed.

(** *** Claims *)

(** Printing an address or a hash and parsing it back gives the same value,
    with or without the [0x] prefix; and parsing succeeds exactly on the strings
    that spell the value's digits in either case, so two different values never
    share a spelling. *)
Theorem hex_text_roundtrip `{!Hex, !HexLaws} (s : string) (a : Address) (h : Hash) :
  address_from_hex (address_to_string a) = Ok a ∧
  address_from_hex (hex_encode (array_bytes a)) = Ok a ∧
  hash_from_hex (hash_to_string h) = Ok h ∧
  hash_from_hex (hex_encode (array_bytes h)) = Ok h ∧
  (address_from_hex s = Ok a ↔
     to_ascii_lowercase (default s (strip_prefix "0x" s)) = hex_encode (array_bytes a)) ∧
  (hash_from_hex s = Ok h ↔
     to_ascii_lowercase (default s (strip_prefix "0x" s)) = hex_encode (array_bytes h)).
Proof.
  split_and!; [apply address_from_to_string| |apply hash_from_to_string| |
               apply address_from_hex_Ok|apply hash_from_hex_Ok].
  - rewrite address_from_hex_Ok, hex_encode_no_prefix. apply hex_encode_lower.
  - rewrite hash_from_hex_Ok, hex_encode_no_prefix. apply hex_encode_lower.
Qed.
Lemma hex_text_roundtrip_witness :
  address_from_hex (address_to_string Address_ZERO) = Ok Address_ZERO.
Proof. apply (hex_text_roundtrip EmptyString Address_ZERO Hash_ZERO). Defined.

(** The signing payload commits to every field of a transaction except the
    signature: two representable transactions have the same payload exactly
    when they differ at most in their signature. *)
Theorem signing_payload_commits `{!Serialize Transaction, !Deserialize Transaction,
    !BincodeLaws Transaction tx_wf} (t1 t2 : Transaction) :
  tx_wf t1 → tx_wf t2 →
  signing_payload t1 = signing_payload t2 ↔ t2 = with_signature t1 (tx_signature t2).
Proof.
  intros H1 H2. unfold signing_payload. split.
  - intros Heq%(bincode_inj tx_wf _ _ (unsigned_wf _ H1) (unsigned_wf _ H2)).
    destruct t1, t2. unfold unsigned, with_signature in *. simpl in *. injection Heq. intros. by subst.
  - intros ->. by rewrite unsigned_with_signature.
Qed.
Definition sample_tx : Transaction :=
  {| tx_type := Transfer; tx_nonce := 0; tx_from := Address_ZERO; tx_to := Some Address_ZERO;
     tx_value := 5; tx_gas_price := 2; tx_gas_limit := 21000; tx_data := []; tx_chain_id := 1;
     tx_signature := EMPTY |}.
Lemma signing_payload_commits_witness :
  let _ := codec_serialize c_tx in
  signing_payload sample_tx
  = signing_payload (with_signature sample_tx (from_ed25519 (zeros 64))).
Proof.
  intros ser. apply (@signing_payload_commits ser (codec_deserialize c_tx)
    (codec_laws c_tx tx_wf c_tx_ok)); [by apply (bool_decide_unpack _)..|done].
Defined.

Lemma to_from_ed25519 raw : to_ed25519 (from_ed25519 raw) = raw.
Proof.
  pose proof (array_length raw) as Hraw.
  destruct (to_array 32 (take 32 (array_bytes raw))) as [r|] eqn:Er;
    [|apply to_array_None in Er; rewrite length_take in Er; lia].
  destruct (to_array 32 (drop 32 (array_bytes raw))) as [s|] eqn:Es;
    [|apply to_array_None in Es; rewrite length_drop in Es; lia].
  unfold to_ed25519, from_ed25519. rewrite Er, Es. simpl.
  apply to_array_Some in Er, Es. by rewrite Er, Es, take_drop, to_array_bytes.
Qed.
(** Splitting a raw 64-byte signature into [r] and [s] and recombining them
    is lossless, and recombining then splitting only resets [v] to zero. *)
Theorem ed25519_split_roundtrip (raw : array 64) (sig : TransactionSignature) :
  to_ed25519 (from_ed25519 raw) = raw ∧
  from_ed25519 (to_ed25519 sig) = {| sig_r := sig_r sig; sig_s := sig_s sig; sig_v := 0 |}.
Proof.
  pose proof (array_length (sig_r sig)) as Hr. pose proof (array_length (sig_s sig)) as Hs. split.
  - apply to_from_ed25519.
  - unfold from_ed25519, to_ed25519.
    destruct (to_array 64 _) as [raw'|] eqn:E;
      [|apply to_array_None in E; rewrite length_app in E; lia].
    apply to_array_Some in E. simpl. rewrite E, take_app_length', drop_app_length' by done.
    by rewrite !to_array_bytes.
Qed.

(** The cost of a transaction is exactly [value + gas_price * gas_limit]
    whenever that sum fits in 128 bits, and is reported as an overflow exactly
    when it does not: the two checked steps never lose a representable cost. *)
Theorem total_cost_exact (tx : Transaction) :
  tx_wf tx →
  total_cost tx = let cost := tx_value tx + tx_gas_price tx * tx_gas_limit tx in
                  if decide (cost ≤ u128_max) then Some cost else None.
Proof.
  intros (_ & [Hv _] & [Hp _] & [Hl _] & _). unfold total_cost, fee. cbv zeta.
  destruct (checked_mul _ _ _) as [f|] eqn:Hf; simpl.
  - apply checked_mul_Some in Hf as [-> Hf]. unfold checked_add.
    destruct (decide _), (Z.leb_spec (tx_value tx + tx_gas_price tx * tx_gas_limit tx) u128_max);
      done || lia.
  - apply checked_mul_None in Hf. rewrite decide_False; [done|]. lia.
Qed.
Lemma total_cost_exact_witness : total_cost sample_tx = Some 42005.
Proof. rewrite (total_cost_exact sample_tx); [done|by apply (bool_decide_unpack _)]. Defined.

(** [GenesisConfig::validate] accepts exactly the structurally valid
    documents: non-zero chain ID, block time and gas limit, and validators with
    power, with a key, and with pairwise distinct addresses. *)
Theorem validate_spec `{!Hex} (g : GenesisConfig) :
  validate g = Ok () ↔ genesis_valid g.
Proof. apply validate_Ok. Qed.

(** The serialized allocations do not depend on the order in which the hash
    map yields its entries, are sorted by address, and parse back to the same
    allocations: the genesis file is byte-stable and keeps every [u128]. *)
Theorem allocations_codec `{!Hex, !HexLaws} (m : gmap Address Z) (entries : list (Address * Z)) :
  map_Forall (λ _ b, is_u128 b) m → entries ≡ₚ map_to_list m →
  allocations_serialize_iter entries = allocations_serialize m ∧
  Sorted (cmp_le alloc_compare) (allocations_serialize m) ∧
  allocations_deserialize (allocations_serialize m) = Ok m.
Proof.
  intros Hm Hperm.
  pose proof (cmp_key_order (str_bytes ∘ alloc_address) lex_compare : CmpOrder alloc_compare).
  split_and!; [|by apply sort_by_sorted|by apply allocations_roundtrip].
  apply sort_by_unique; [done|by rewrite Hperm|]. intros x y Hx Hy Hxy.
  apply list_elem_of_fmap in Hx as ([a1 b1] & -> & Hin1).
  apply list_elem_of_fmap in Hy as ([a2 b2] & -> & Hin2).
  apply lex_compare_Eq, (f_equal bytes_str) in Hxy. simpl in Hxy.
  rewrite !bytes_str_bytes in Hxy. apply (inj address_to_string) in Hxy as ->.
  rewrite Hperm in Hin1, Hin2. apply elem_of_map_to_list in Hin1, Hin2. by simplify_eq.
Qed.
Definition addr (z : Z) : Address := array_repeat (byte_of z) ADDRESS_SIZE.
Lemma allocations_codec_witness :
  allocations_serialize_iter [(addr 2, 7); (addr 1, u128_max)]
  = allocations_serialize (<[addr 1 := u128_max]> {[addr 2 := 7]}).
Proof.
  refine (proj1 (allocations_codec (<[addr 1 := u128_max]> {[addr 2 := 7]})
    [(addr 2, 7); (addr 1, u128_max)] _ _)); apply (bool_decide_unpack _); by vm_compute.
Defined.

Lemma genesis_reload `{!Hex, !HexLaws, !SerdeJson GenesisDoc, !SerdeJsonLaws GenesisDoc doc_wf}
    path path' write g text :
  genesis_wf g → genesis_save path write g = Ok text → genesis_load path' (Ok text) = Ok g.
Proof.
  unfold genesis_save. intros Hwf ([] & Hv & ([] & _ & [= <-])%bind_Ok)%bind_Ok. unfold genesis_load. simpl.
  rewrite (from_to_json (genesis_to_doc g)) by (by apply genesis_doc_wf). simpl.
  assert (genesis_of_doc (genesis_to_doc g) = Ok g) as ->; [|simpl; by rewrite Hv].
  unfold genesis_of_doc, genesis_to_doc. simpl. rewrite allocations_roundtrip by apply Hwf. by destruct g.
Qed.

(** A genesis that saves also loads back unchanged: for every representable
    configuration, [save] followed by [load] of the written text returns the
    configuration exactly when it is valid, and a rejected one writes nothing. *)
Theorem genesis_save_load `{!Hex, !HexLaws, !SerdeJson GenesisDoc, !SerdeJsonLaws GenesisDoc doc_wf}
    (path : string) (g : GenesisConfig) :
  genesis_wf g →
  (genesis_valid g → ∃ text, genesis_save path (Ok ()) g = Ok text ∧
     genesis_load path (Ok text) = Ok g) ∧
  (¬ genesis_valid g → ∃ e, ∀ write, genesis_save path write g = Err e).
Proof.
  intros Hwf. split.
  - intros Hv%validate_Ok. assert (genesis_save path (Ok ()) g = Ok (to_json (genesis_to_doc g))) as Hs
      by (unfold genesis_save; by rewrite Hv).
    eexists. split; [exact Hs|]. by apply (genesis_reload path path (Ok ())).
  - intros Hv. unfold genesis_save. destruct (validate g) as [[]|e] eqn:He; [by apply validate_Ok in He|].
    by exists e.
Qed.
Definition sample_genesis : GenesisConfig :=
  {| gen_chain_id := 7;
     gen_initial_validators := [{| vi_address := addr 3; vi_public_key := [byte_of 9]; vi_power := 10 |}];
     gen_allocations := <[addr 1 := u128_max]> {[addr 2 := 7]};
     gen_block_time_ms := DEFAULT_BLOCK_TIME_MS; gen_gas_limit := BLOCK_GAS_LIMIT;
     gen_genesis_time := 0 |}.
Lemma sample_genesis_wf : genesis_wf sample_genesis.
Proof.
  unfold genesis_wf, vi_wf. split_and!; apply (bool_decide_unpack _); by vm_compute.
Qed.
Lemma genesis_save_load_witness :
  let _ := codec_json c_genesis_doc in
  ∃ text, genesis_save "genesis.json" (Ok ()) sample_genesis = Ok text ∧
    genesis_load "genesis.json" (Ok text) = Ok sample_genesis.
Proof.
  intros json. refine (proj1 (@genesis_save_load ref_hex ref_hex_laws json
    (codec_json_laws c_genesis_doc doc_wf c_genesis_doc_ok) "genesis.json" sample_genesis
    sample_genesis_wf) _).
  apply validate_Ok. by vm_compute.
Defined.
