(* ===== verification/WorldState.v ===== *)
(** * [subhost-state]

    The account world state of [crates/subhost-state/src/lib.rs] and the
    execution rules applied to it. [State] is a [Record] with the account map
    and the chain ID; every [&mut self] method is a computation in [ST State
    StateError], which keeps the mutations made before a failure. *)

From Stdlib Require Import String.
From S2P Require Import Prelude Order Text Deps Bincode Core.

Record Account := { acc_nonce : Z; acc_balance : Z }.
#[export] Instance Account_eq_dec : EqDecision Account.
Proof. solve_decision. Defined.
Definition account_default : Account := {| acc_nonce := 0; acc_balance := 0 |}.
Definition account_new (balance : Z) : Account := {| acc_nonce := 0; acc_balance := balance |}.

Record State := { accounts : gmap Address Account; state_chain_id : Z }.
#[export] Instance State_eq_dec : EqDecision State.
Proof. solve_decision. Defined.

Inductive StateError :=
| InsufficientBalance (address : Address) (have want : Z)
| InvalidNonce (address : Address) (expected got : Z)
| StateChainMismatch (expected got : Z)
| InvalidTransaction (message : string)
| InvalidSnapshot (message : string)
| UnsupportedTransactionType (t : TransactionType)
| BalanceOverflow (address : Address).

(** [impl Display for StateError] *)
Definition state_error_to_string `{!Hex} (e : StateError) : string :=
  match e with
  | InsufficientBalance a have want =>
      "insufficient balance for " +:+ address_to_string a +:+ ": have " +:+ fmt_dec have
      +:+ ", want " +:+ fmt_dec want
  | InvalidNonce a expected got =>
      "invalid nonce for " +:+ address_to_string a +:+ ": expected " +:+ fmt_dec expected
      +:+ ", got " +:+ fmt_dec got
  | StateChainMismatch expected got =>
      "transaction chain ID " +:+ fmt_dec got +:+ " does not match state chain ID "
      +:+ fmt_dec expected
  | InvalidTransaction message => "invalid transaction: " +:+ message
  | InvalidSnapshot message => "invalid state snapshot: " +:+ message
  | UnsupportedTransactionType t =>
      "transaction type " +:+ transaction_type_to_string t
      +:+ " is not supported by this state backend"
  | BalanceOverflow a => "balance overflow for " +:+ address_to_string a
  end.

Definition with_chain_id (chain_id : Z) : State :=
  {| accounts := ∅; state_chain_id := chain_id |}.
Definition state_new : State := with_chain_id 1.

Definition account (s : State) (address : Address) : option Account := accounts s !! address.
Definition balance (s : State) (address : Address) : Z :=
  from_option acc_balance 0 (accounts s !! address).
Definition nonce (s : State) (address : Address) : Z :=
  from_option acc_nonce 0 (accounts s !! address).
Definition account_count (s : State) : Z := Z.of_nat (size (accounts s)).

(** [*self.accounts.entry(address).or_default() = f(..)] *)
Definition entry_modify (address : Address) (f : Account → Account) (s : State) : State :=
  {| accounts := <[address := f (default account_default (accounts s !! address))]> (accounts s);
     state_chain_id := state_chain_id s |}.
Definition put_balance (b : Z) (a : Account) : Account :=
  {| acc_nonce := acc_nonce a; acc_balance := b |}.
Definition put_nonce (n : Z) (a : Account) : Account :=
  {| acc_nonce := n; acc_balance := acc_balance a |}.

(** [or_default()] inserts the account before the checked addition can fail. *)
Definition credit (address : Address) (amount : Z) : ST State StateError unit :=
  _ ← st_modify (entry_modify address id);
  s ← st_get;
  new ← st_lift (ok_or (checked_add u128_max (balance s address) amount) (BalanceOverflow address));
  st_modify (entry_modify address (put_balance new)).

Definition set_balance (address : Address) (b : Z) (s : State) : State :=
  entry_modify address (put_balance b) s.

Definition apply_transfer (from to : Address) (value : Z) : ST State StateError unit :=
  s ← st_get;
  let from_balance := balance s from in
  _ ← st_fail_if (from_balance <? value) (InsufficientBalance from from_balance value);
  if decide (from = to) then mret ()
  else
    credited ← st_lift (ok_or (checked_add u128_max (balance s to) value) (BalanceOverflow to));
    _ ← st_modify (entry_modify from (put_balance (from_balance - value)));
    st_modify (entry_modify to (put_balance credited)).

Definition ensure_balance (address : Address) (amount : Z) : ST State StateError unit :=
  s ← st_get;
  let have := balance s address in
  st_fail_if (have <? amount) (InsufficientBalance address have amount).

Definition debit (address : Address) (amount : Z) : ST State StateError unit :=
  s ← st_get;
  let b := balance s address in
  _ ← st_fail_if (b <? amount) (InsufficientBalance address b amount);
  st_modify (entry_modify address (put_balance (b - amount))).

Definition apply_transaction (tx : Transaction) : ST State StateError Z :=
  s ← st_get;
  _ ← st_fail_if (negb (tx_chain_id tx =? state_chain_id s))
        (StateChainMismatch (state_chain_id s) (tx_chain_id tx));
  _ ← st_fail_if (tx_gas_limit tx =? 0) (InvalidTransaction "gas limit must be > 0");
  let expected_nonce := nonce s (tx_from tx) in
  _ ← st_fail_if (negb (tx_nonce tx =? expected_nonce))
        (InvalidNonce (tx_from tx) expected_nonce (tx_nonce tx));
  next_nonce ← st_lift (ok_or (checked_add u64_max (tx_nonce tx) 1)
                          (InvalidTransaction "transaction nonce overflow"));
  f ← st_lift (ok_or (fee tx) (InvalidTransaction "transaction fee overflows"));
  _ ← match tx_type tx with
      | Transfer =>
          to ← st_lift (ok_or (tx_to tx) (InvalidTransaction "transfer requires a destination"));
          total ← st_lift (ok_or (total_cost tx) (InvalidTransaction "transaction cost overflows"));
          _ ← ensure_balance (tx_from tx) total;
          _ ← apply_transfer (tx_from tx) to (tx_value tx);
          debit (tx_from tx) f
      | other => st_lift (Err (UnsupportedTransactionType other))
      end;
  _ ← st_modify (entry_modify (tx_from tx) (put_nonce next_nonce));
  mret f.

(** ** Snapshots *)

Record StateSnapshot := { snap_chain_id : Z; snap_accounts : list (Address * Account) }.
#[export] Instance StateSnapshot_eq_dec : EqDecision StateSnapshot.
Proof. solve_decision. Defined.

Definition snapshot_compare (left right : Address * Account) : comparison :=
  address_compare left.1 right.1.
(** [snapshot] on the entries in the order the [HashMap] iterates them. *)
Definition snapshot_iter (chain_id : Z) (entries : list (Address * Account)) : StateSnapshot :=
  {| snap_chain_id := chain_id; snap_accounts := sort_by snapshot_compare entries |}.
Definition snapshot (s : State) : StateSnapshot :=
  snapshot_iter (state_chain_id s) (map_to_list (accounts s)).

Definition snapshot_insert (m : gmap Address Account) (entry : Address * Account)
  : result StateError (gmap Address Account) :=
  _ ← fail_if (bool_decide (is_Some (m !! entry.1)))
        (InvalidSnapshot "snapshot contains duplicate accounts");
  Ok (<[entry.1 := entry.2]> m).
Definition from_snapshot (sn : StateSnapshot) : result StateError State :=
  _ ← fail_if (snap_chain_id sn =? 0) (InvalidSnapshot "chain ID cannot be zero");
  m ← try_fold snapshot_insert ∅ (snap_accounts sn);
  Ok {| accounts := m; state_chain_id := snap_chain_id sn |}.

Definition root `{!Blake3, !Serialize StateSnapshot} (s : State) : Hash :=
  from_data (bincode (snapshot s)).

(** ** Well-formedness and supply *)

(** The values the Rust types can hold. *)
Definition account_wf (a : Account) : Prop := is_u64 (acc_nonce a) ∧ is_u128 (acc_balance a).
Definition state_wf (s : State) : Prop := map_Forall (λ _ a, account_wf a) (accounts s).
#[export] Instance account_wf_dec a : Decision (account_wf a).
Proof. unfold account_wf. apply _. Defined.
#[export] Instance state_wf_dec s : Decision (state_wf s).
Proof. unfold state_wf. apply _. Defined.

Definition supply (s : State) : Z := map_sum acc_balance (accounts s).

Lemma balance_entry_modify a f s b :
  balance (entry_modify a f s) b =
  if decide (b = a) then acc_balance (f (default account_default (accounts s !! a)))
  else balance s b.
Proof.
  unfold balance, entry_modify. simpl. destruct (decide (b = a)) as [->|].
  - by rewrite lookup_insert_eq.
  - by rewrite lookup_insert_ne.
Qed.
Lemma nonce_entry_modify a f s b :
  nonce (entry_modify a f s) b =
  if decide (b = a) then acc_nonce (f (default account_default (accounts s !! a)))
  else nonce s b.
Proof.
  unfold nonce, entry_modify. simpl. destruct (decide (b = a)) as [->|].
  - by rewrite lookup_insert_eq.
  - by rewrite lookup_insert_ne.
Qed.
Lemma acc_balance_default s a :
  acc_balance (default account_default (accounts s !! a)) = balance s a.
Proof. unfold balance. by destruct (accounts s !! a). Qed.
Lemma acc_nonce_default s a :
  acc_nonce (default account_default (accounts s !! a)) = nonce s a.
Proof. unfold nonce. by destruct (accounts s !! a). Qed.
Lemma balance_put_balance a v s b :
  balance (entry_modify a (put_balance v) s) b = if decide (b = a) then v else balance s b.
Proof. by rewrite balance_entry_modify. Qed.
Lemma balance_put_nonce a n s b : balance (entry_modify a (put_nonce n) s) b = balance s b.
Proof.
  rewrite balance_entry_modify. simpl. rewrite acc_balance_default. by case_decide; subst.
Qed.
Lemma nonce_put_nonce a n s b :
  nonce (entry_modify a (put_nonce n) s) b = if decide (b = a) then n else nonce s b.
Proof. by rewrite nonce_entry_modify. Qed.
Lemma nonce_put_balance a v s b : nonce (entry_modify a (put_balance v) s) b = nonce s b.
Proof. rewrite nonce_entry_modify. simpl. rewrite acc_nonce_default. by case_decide; subst. Qed.
Lemma supply_entry_modify a f s :
  supply (entry_modify a f s)
  = supply s - balance s a + acc_balance (f (default account_default (accounts s !! a))).
Proof.
  unfold supply, entry_modify, balance. simpl. rewrite map_sum_insert.
  by destruct (accounts s !! a).
Qed.
Lemma supply_put_balance a v s :
  supply (entry_modify a (put_balance v) s) = supply s - balance s a + v.
Proof. by rewrite supply_entry_modify. Qed.
Lemma supply_put_nonce a n s : supply (entry_modify a (put_nonce n) s) = supply s.
Proof. rewrite supply_entry_modify. simpl. rewrite acc_balance_default. lia. Qed.
#[export] Hint Rewrite balance_put_balance balance_put_nonce nonce_put_nonce nonce_put_balance
  supply_put_balance supply_put_nonce : state.

Section wf.
Context (s : State) (Hwf : state_wf s).

Lemma state_wf_default a : account_wf (default account_default (accounts s !! a)).
Proof.
  destruct (accounts s !! a) as [acc|] eqn:Ha; simpl; [by apply (Hwf a)|].
  by apply (bool_decide_unpack _).
Qed.
Lemma balance_range a : is_u128 (balance s a).
Proof. rewrite <-acc_balance_default. apply state_wf_default. Qed.
Lemma nonce_range a : is_u64 (nonce s a).
Proof. rewrite <-acc_nonce_default. apply state_wf_default. Qed.
Lemma entry_modify_wf a f :
  account_wf (f (default account_default (accounts s !! a))) → state_wf (entry_modify a f s).
Proof. intros Hf. by apply map_Forall_insert_2. Qed.
Lemma put_balance_wf a b : is_u128 b → state_wf (entry_modify a (put_balance b) s).
Proof. intros Hb. apply entry_modify_wf. split; [apply state_wf_default|done]. Qed.
Lemma put_nonce_wf a n : is_u64 n → state_wf (entry_modify a (put_nonce n) s).
Proof. intros Hb. apply entry_modify_wf. split; [done|apply state_wf_default]. Qed.
Lemma balance_le_supply a : balance s a ≤ supply s.
Proof.
  assert (∀ k v, accounts s !! k = Some v → 0 ≤ acc_balance v) as Hpos
    by (intros k v Hk; apply (Hwf k v Hk)).
  unfold balance, supply. destruct (accounts s !! a) as [acc|] eqn:Ha; simpl.
  - by apply (map_sum_lookup_le acc_balance _ a).
  - by apply map_sum_nonneg.
Qed.
Lemma balance_pair_le_supply a b : a ≠ b → balance s a + balance s b ≤ supply s.
Proof.
  intros Hab. pose proof (balance_le_supply a). pose proof (balance_le_supply b).
  unfold balance, supply in *.
  destruct (accounts s !! a) as [x|] eqn:Ha, (accounts s !! b) as [y|] eqn:Hb; simpl in *; try lia.
  apply (map_sum_pair_le acc_balance _ a b); try done. intros k v Hk. by apply (Hwf k v Hk).
Qed.
End wf.

(** ** Execution *)

(** What a transaction must satisfy to execute. *)
Record executable (s : State) (tx : Transaction) (to : Address) : Prop := {
  ex_type : tx_type tx = Transfer;
  ex_chain : tx_chain_id tx = state_chain_id s;
  ex_gas : tx_gas_limit tx ≠ 0;
  ex_nonce : tx_nonce tx = nonce s (tx_from tx);
  ex_nonce_max : tx_nonce tx < u64_max;
  ex_to : tx_to tx = Some to;
  ex_cost : tx_value tx + tx_gas_price tx * tx_gas_limit tx ≤ balance s (tx_from tx);
  ex_credit : tx_from tx = to ∨ balance s to + tx_value tx ≤ u128_max
}.
(** The abstract effect of an executed transfer on balances and nonces. *)
Definition moved (tx : Transaction) (to a : Address) : Z :=
  (if decide (a = to) then tx_value tx else 0)
  - (if decide (a = tx_from tx) then tx_value tx + tx_gas_price tx * tx_gas_limit tx else 0).
Record executed (s : State) (tx : Transaction) (to : Address) (s' : State) : Prop := {
  exd_chain : state_chain_id s' = state_chain_id s;
  exd_balance a : balance s' a = balance s a + moved tx to a;
  exd_nonce a : nonce s' a = nonce s a + (if decide (a = tx_from tx) then 1 else 0)
}.

Lemma apply_transfer_inv from to v s s' r :
  0 ≤ v → apply_transfer from to v s = (s', r) →
  match r with
  | Err _ => s' = s
  | Ok _ => v ≤ balance s from ∧ (from = to ∨ balance s to + v ≤ u128_max) ∧
            s' = if decide (from = to) then s
                 else entry_modify to (put_balance (balance s to + v))
                        (entry_modify from (put_balance (balance s from - v)) s)
  end.
Proof.
  intros Hv. unfold apply_transfer. intros H. run_inv; try done.
  - split_and!; [lia|by left|done].
  - apply checked_add_Some in Heqo as [-> ?]. auto.
Qed.

Lemma apply_transaction_inv tx s s' r :
  state_wf s → tx_wf tx → apply_transaction tx s = (s', r) →
  match r with
  | Err _ => s' = s
  | Ok f => f = tx_gas_price tx * tx_gas_limit tx ∧ ∃ to, executable s tx to ∧
      s' = entry_modify (tx_from tx) (put_nonce (tx_nonce tx + 1))
             (entry_modify (tx_from tx)
               (put_balance (balance s (tx_from tx) - (if decide (tx_from tx = to) then 0 else tx_value tx) - f))
               (if decide (tx_from tx = to) then s
                else entry_modify to (put_balance (balance s to + tx_value tx))
                       (entry_modify (tx_from tx)
                          (put_balance (balance s (tx_from tx) - tx_value tx)) s)))
  end.
Proof.
  intros Hwf (_ & [Hv _] & [Hp _] & [Hl _] & _) H. unfold apply_transaction, ensure_balance, debit in H.
  assert (0 ≤ tx_gas_price tx * tx_gas_limit tx) as Hf by lia.
  unfold total_cost in H. destruct (fee tx) as [f|] eqn:Hfee; [|run_inv; done].
  unfold fee in Hfee. apply checked_mul_Some in Hfee as [-> Hfee].
  destruct (apply_transfer (tx_from tx) (default Address_ZERO (tx_to tx)) (tx_value tx) s)
    as [s1 r1] eqn:Htr.
  run_inv; try done; simpl in Htr; rewrite Heqp in Htr; simplify_eq;
    apply apply_transfer_inv in Heqp; try done; destruct Heqp as (Hle & Hcr & ->);
    apply checked_add_Some in Heqo as [-> Hmax]; apply checked_add_Some in Heqo1 as [-> Hcost];
    rewrite ?balance_put_balance in Heqb3; repeat case_decide; subst; bool_hyps; try congruence;
    rewrite ?balance_put_balance in Heqb3; repeat case_decide; try congruence; try lia;
    (split; [done|]); eexists; (split; [by split; eauto; lia|]);
    rewrite ?balance_put_balance; repeat case_decide; try congruence; do 4 f_equal; lia.
Qed.

(** A transaction that meets the conditions does execute. *)
Lemma apply_transaction_executable tx to s :
  tx_wf tx → state_wf s → executable s tx to →
  ∃ s', apply_transaction tx s = (s', Ok (tx_gas_price tx * tx_gas_limit tx)).
Proof.
  intros (_ & [Hv _] & [Hp _] & [Hl _] & _) Hwf [Ht Hc Hg Hn Hm Hto Hcost Hcr].
  pose proof (balance_range s Hwf (tx_from tx)) as [_ Hb].
  assert (0 ≤ tx_gas_price tx * tx_gas_limit tx) as Hf by lia.
  assert (fee tx = Some (tx_gas_price tx * tx_gas_limit tx)) as Hfee
    by (apply checked_mul_Some; lia).
  assert (checked_add u64_max (tx_nonce tx) 1 = Some (tx_nonce tx + 1)) as Hnext
    by (apply checked_add_Some; lia).
  destruct (apply_transaction tx s) as [s' r] eqn:H. exists s'. f_equal. revert H.
  unfold apply_transaction, total_cost, ensure_balance, debit, apply_transfer.
  rewrite Hfee, Hnext.
  rewrite Hto, Ht. intros H. run_inv; try done;
    repeat match goal with
    | H : checked_add _ _ _ = None |- _ => apply checked_add_None in H
    | H : checked_add _ _ _ = Some _ |- _ => apply checked_add_Some in H as [-> ?]
    | H : context [balance (entry_modify _ (put_balance _) _) _] |- _ =>
        rewrite balance_put_balance in H
    end; repeat case_decide; try congruence; try lia; destruct Hcr; congruence || lia.
Qed.

Lemma executed_post s tx to :
  executable s tx to →
  executed s tx to
    (entry_modify (tx_from tx) (put_nonce (tx_nonce tx + 1))
       (entry_modify (tx_from tx)
         (put_balance (balance s (tx_from tx) - (if decide (tx_from tx = to) then 0 else tx_value tx)
                       - tx_gas_price tx * tx_gas_limit tx))
         (if decide (tx_from tx = to) then s
          else entry_modify to (put_balance (balance s to + tx_value tx))
                 (entry_modify (tx_from tx)
                    (put_balance (balance s (tx_from tx) - tx_value tx)) s)))).
Proof.
  intros Hex. split; [by case_decide| |]; intros a; unfold moved; autorewrite with state;
    destruct (decide (tx_from tx = to)); repeat case_decide; subst; try congruence;
    autorewrite with state; repeat case_decide; subst; try congruence; try lia.
  all: rewrite (ex_nonce s tx _ Hex); done.
Qed.
Lemma apply_transaction_executed tx s s' f :
  state_wf s → tx_wf tx → apply_transaction tx s = (s', Ok f) →
  f = tx_gas_price tx * tx_gas_limit tx ∧ ∃ to, executable s tx to ∧ executed s tx to s'.
Proof.
  intros Hwf Htx [-> (to & Hex & ->)]%apply_transaction_inv; [|done..].
  split; [done|]. exists to. split; [done|]. by apply executed_post.
Qed.
Lemma apply_transaction_wf tx s s' r :
  state_wf s → tx_wf tx → apply_transaction tx s = (s', r) → state_wf s'.
Proof.
  intros Hwf Htx H. pose proof (apply_transaction_inv tx s s' r Hwf Htx H) as Hr.
  destruct r as [f|e]; [|by subst]. destruct Hr as (-> & to & Hex & ->).
  destruct Htx as ([Hn _] & [Hv _] & [Hp _] & [Hl _] & _).
  pose proof (balance_range s Hwf (tx_from tx)). pose proof (balance_range s Hwf to).
  destruct Hex as [_ _ _ _ Hm _ Hcost Hcr]. assert (0 ≤ tx_gas_price tx * tx_gas_limit tx) by lia.
  apply put_nonce_wf; [apply put_balance_wf|]; [case_decide; [done|]| |width].
  - destruct Hcr; [done|]. do 2 (apply put_balance_wf; [|width]). done.
  - case_decide; width.
Qed.
Lemma apply_transaction_supply tx s s' f :
  state_wf s → tx_wf tx → apply_transaction tx s = (s', Ok f) → supply s' = supply s - f.
Proof.
  intros Hwf Htx [-> (to & Hex & ->)]%apply_transaction_inv; [|done..].
  autorewrite with state. destruct (decide (tx_from tx = to)); [lia|].
  autorewrite with state. repeat case_decide; try congruence. lia.
Qed.

(** ** Any sequence of operations *)

Inductive state_step : State → State → Prop :=
| step_credit s s' a v r : is_u128 v → credit a v s = (s', r) → state_step s s'
| step_set_balance s a v : is_u128 v → state_step s (set_balance a v s)
| step_transfer s s' from to v r :
    is_u128 v → apply_transfer from to v s = (s', r) → state_step s s'
| step_apply s s' tx r : tx_wf tx → apply_transaction tx s = (s', r) → state_step s s'.

Lemma credit_inv a v s s' r :
  credit a v s = (s', r) →
  s' = entry_modify a (put_balance (if decide (balance s a + v ≤ u128_max)
                                    then balance s a + v else balance s a)) s ∧
  (is_ok r = true ↔ balance s a + v ≤ u128_max).
Proof.
  assert (balance (entry_modify a id s) a = balance s a) as Hb.
  { rewrite balance_entry_modify, decide_True by done. apply acc_balance_default. }
  assert (∀ b, entry_modify a (put_balance b) (entry_modify a id s)
               = entry_modify a (put_balance b) s) as Hput.
  { intros b. unfold entry_modify. simpl. by rewrite lookup_insert_eq, insert_insert_eq. }
  unfold credit. intros H. run_inv; rewrite Hb in *.
  - apply checked_add_Some in Heqo as [-> ?]. rewrite decide_True by done. by rewrite Hput.
  - apply checked_add_None in Heqo. rewrite decide_False by lia. split; [|split; [discriminate|lia]].
    unfold entry_modify. simpl. do 2 f_equal. rewrite <-acc_balance_default. by destruct (default _ _).
Qed.
Lemma state_step_wf s s' : state_step s s' → state_wf s → state_wf s'.
Proof.
  intros Hstep Hwf. destruct Hstep.
  - apply credit_inv in H0 as [-> _]. pose proof (balance_range s Hwf a).
    apply put_balance_wf; [done|]. case_decide; width.
  - by apply put_balance_wf.
  - pose proof (balance_range s Hwf from). pose proof (balance_range s Hwf to).
    apply apply_transfer_inv in H0; [|width]. destruct r; [|by subst].
    destruct H0 as (Hle & Hcr & ->). case_decide; [done|]. destruct Hcr; [done|].
    apply put_balance_wf; [apply put_balance_wf|]; width || done.
  - by eapply apply_transaction_wf.
Qed.
Lemma state_step_nonce s s' a :
  state_step s s' → state_wf s → state_chain_id s' = state_chain_id s ∧ nonce s a ≤ nonce s' a.
Proof.
  intros Hstep Hwf. destruct Hstep.
  - apply credit_inv in H0 as [-> _]. by autorewrite with state.
  - unfold set_balance. by autorewrite with state.
  - apply apply_transfer_inv in H0; [|width]. destruct r; [|by subst].
    destruct H0 as (_ & _ & ->). case_decide; [done|]. by autorewrite with state.
  - destruct r as [f|e].
    + apply apply_transaction_executed in H0 as (_ & to & _ & [Hc _ Hn]); [|done..].
      rewrite Hn. split; [done|]. case_decide; lia.
    + apply apply_transaction_inv in H0; [by subst|done..].
Qed.
Lemma state_steps_nonce s s' a :
  rtc state_step s s' → state_wf s →
  state_wf s' ∧ state_chain_id s' = state_chain_id s ∧ nonce s a ≤ nonce s' a.
Proof.
  induction 1 as [s|s1 s2 s3 Hstep _ IH]; intros Hwf; [done|].
  destruct (state_step_nonce s1 s2 a Hstep Hwf).
  destruct IH as (? & ? & ?); [by eapply state_step_wf|]. split_and!; [done|congruence|lia].
Qed.

(** ** Snapshot lemmas *)

Lemma snapshot_compare_order : CmpOrder snapshot_compare.
Proof. apply (cmp_key_order fst address_compare). Qed.
Lemma snapshot_insert_Ok m a acc m' :
  snapshot_insert m (a, acc) = Ok m' ↔ m !! a = None ∧ m' = <[a := acc]> m.
Proof.
  unfold snapshot_insert. rewrite guard_Ok, bool_decide_eq_false, <-eq_None_not_Some. naive_solver.
Qed.
Lemma snapshot_fold entries m :
  NoDup entries.*1 → (∀ a, a ∈ entries.*1 → m !! a = None) →
  try_fold snapshot_insert m entries = Ok (list_to_map entries ∪ m).
Proof.
  revert m. induction entries as [|[a acc] entries IH]; intros m Hnd Hfresh; simpl.
  { by rewrite (left_id_L ∅ (∪)). }
  apply NoDup_cons in Hnd as [Ha Hnd].
  rewrite (proj2 (snapshot_insert_Ok m a acc _) (conj (Hfresh a ltac:(left)) eq_refl)). simpl.
  rewrite IH; [|done|].
  - f_equal. rewrite <-(insert_union_r _ m a acc); [by rewrite insert_union_l|].
    by apply not_elem_of_list_to_map_1.
  - intros a' Ha'. rewrite lookup_insert_ne by (intros ->; done). apply Hfresh. by right.
Qed.
Lemma snapshot_fold_Ok entries m m' :
  try_fold snapshot_insert m entries = Ok m' →
  NoDup entries.*1 ∧ ∀ a, a ∈ entries.*1 → m !! a = None.
Proof.
  revert m. induction entries as [|[a acc] entries IH]; intros m; simpl.
  { intros _. split; [constructor|]. by intros a ?%elem_of_nil. }
  rewrite bind_Ok. intros (m1 & Hm1 & [Hnd Hfresh]%IH).
  apply snapshot_insert_Ok in Hm1 as [Hb ->]. split.
  - constructor; [|done]. intros Ha. specialize (Hfresh a Ha). by rewrite lookup_insert_eq in Hfresh.
  - intros b [->|Hbin]%elem_of_cons; [done|].
    specialize (Hfresh b Hbin). by apply lookup_insert_None in Hfresh as [??].
Qed.
Lemma from_snapshot_Ok sn s :
  from_snapshot sn = Ok s ↔
  snap_chain_id sn ≠ 0 ∧ NoDup (snap_accounts sn).*1 ∧
  s = {| accounts := list_to_map (snap_accounts sn); state_chain_id := snap_chain_id sn |}.
Proof.
  unfold from_snapshot. rewrite guard_Ok, Z.eqb_neq, bind_Ok. split.
  - intros (? & m & Hm & [= <-]). destruct (snapshot_fold_Ok _ _ _ Hm) as [Hnd _].
    rewrite snapshot_fold, (right_id_L ∅ (∪)) in Hm; [by simplify_eq|done|done].
  - intros (? & Hnd & ->). split; [done|]. eexists. split; [by apply snapshot_fold|].
    by rewrite (right_id_L ∅ (∪)).
Qed.
Lemma from_snapshot_snapshot s : state_chain_id s ≠ 0 → from_snapshot (snapshot s) = Ok s.
Proof.
  intros Hc. apply from_snapshot_Ok. simpl.
  assert (NoDup (sort_by snapshot_compare (map_to_list (accounts s))).*1) as Hnd.
  { rewrite sort_by_perm. apply NoDup_fst_map_to_list. }
  split_and!; [done|done|]. destruct s as [m c]. simpl in *. f_equal.
  rewrite <-(list_to_map_to_list m) at 1. apply list_to_map_proper; [apply NoDup_fst_map_to_list|].
  symmetry. apply sort_by_perm.
Qed.
Lemma snapshot_deterministic s entries :
  entries ≡ₚ map_to_list (accounts s) → snapshot_iter (state_chain_id s) entries = snapshot s.
Proof.
  intros Hperm. unfold snapshot, snapshot_iter. f_equal.
  apply (sort_by_unique snapshot_compare (CmpOrder0:=snapshot_compare_order)); [done|].
  intros [a1 x1] [a2 x2] Hx Hy Hxy. rewrite Hperm in Hx, Hy.
  apply elem_of_map_to_list in Hx, Hy. apply array_compare_Eq in Hxy. simpl in *. by simplify_eq.
Qed.
Lemma snapshot_entries s : list_to_map (snap_accounts (snapshot s)) = accounts s.
Proof.
  simpl. rewrite <-(list_to_map_to_list (accounts s)) at 2. apply list_to_map_proper.
  - rewrite sort_by_perm. apply NoDup_fst_map_to_list.
  - apply sort_by_perm.
Qed.
#[export] Instance snapshot_inj : Inj (=) (=) snapshot.
Proof.
  intros s1 s2 Heq. pose proof (snapshot_entries s1) as Hs. rewrite Heq, snapshot_entries in Hs.
  apply (f_equal snap_chain_id) in Heq. destruct s1, s2. simpl in *. congruence.
Qed.

(** The reference codec of a snapshot. *)
Definition c_account : codec Account :=
  c_iso (λ a, (acc_nonce a, acc_balance a))
        (λ '(n, b), {| acc_nonce := n; acc_balance := b |}) (c_pair c_u64 c_u128).
Definition c_snapshot : codec StateSnapshot :=
  c_iso (λ s, (snap_chain_id s, snap_accounts s))
        (λ '(c, a), {| snap_chain_id := c; snap_accounts := a |})
        (c_pair c_u64 (c_list (c_pair (c_bytes ADDRESS_SIZE) c_account))).
Definition snapshot_wf (sn : StateSnapshot) : Prop :=
  is_u64 (snap_chain_id sn) ∧ is_u64 (Z.of_nat (length (snap_accounts sn))) ∧
  Forall (λ e, account_wf e.2) (snap_accounts sn).
Lemma c_account_ok : codec_ok c_account account_wf.
Proof. eapply codec_ok_weaken; [codec_record|]. by intros ? [??]. Qed.
#[export] Hint Resolve c_account_ok : codec.
Lemma c_snapshot_ok : codec_ok c_snapshot snapshot_wf.
Proof.
  eapply codec_ok_weaken.
  - apply c_iso_ok; [by intros []|]. apply c_pair_ok; [codec_step|]. apply c_list_ok.
    apply c_pair_ok; codec_step.
  - intros sn (? & ? & Hall). simpl. split_and!; try done.
    eapply Forall_impl; [exact Hall|]. by intros [??].
Qed.
Lemma snapshot_of_wf s :
  state_wf s → is_u64 (state_chain_id s) → is_u64 (account_count s) → snapshot_wf (snapshot s).
Proof.
  intros Hwf Hc Hn. unfold snapshot_wf, snapshot, snapshot_iter. simpl. split_and!; [done| |].
  - by rewrite sort_by_perm, length_map_to_list.
  - rewrite sort_by_perm. apply Forall_forall. intros [a acc] Ha%elem_of_map_to_list.
    by apply (Hwf a).
Qed.

(** ** Claims *)

(** C1. A transaction executes exactly when it is a transfer on this chain with
    a positive gas limit, the account's next nonce, a destination, a sender who
    can pay value plus fee, and a recipient who can hold the value. It then
    returns the fee, moves the value, charges the fee and advances the sender's
    nonce by one, changing nothing else; in every other case it fails and leaves
    the state untouched. *)
Theorem apply_transaction_spec (s : State) (tx : Transaction) :
  state_wf s → tx_wf tx →
  (∀ to, executable s tx to → ∃ s',
     apply_transaction tx s = (s', Ok (tx_gas_price tx * tx_gas_limit tx)) ∧ executed s tx to s') ∧
  ((∀ to, ¬ executable s tx to) → ∃ e, apply_transaction tx s = (s, Err e)).
Proof.
  intros Hwf Htx. split.
  - intros to Hex. destruct (apply_transaction_executable tx to s Htx Hwf Hex) as [s' Hs'].
    exists s'. split; [done|].
    destruct (apply_transaction_executed tx s s' _ Hwf Htx Hs') as (_ & to' & Hex' & Hexd).
    pose proof (ex_to _ _ _ Hex). pose proof (ex_to _ _ _ Hex'). by simplify_eq.
  - intros Hno. destruct (apply_transaction tx s) as [s' [f|e]] eqn:H.
    + apply apply_transaction_executed in H as (_ & to & Hex & _); [|done..]. by destruct (Hno to).
    + pose proof (apply_transaction_inv tx s s' (Err e) Hwf Htx H) as ->. by exists e.
Qed.
Definition sample_state : State :=
  {| accounts := {[ Address_ZERO := {| acc_nonce := 0; acc_balance := 100000 |} ]};
     state_chain_id := 1 |}.
Definition sample_transfer : Transaction :=
  {| tx_type := Transfer; tx_nonce := 0; tx_from := Address_ZERO; tx_to := Some (addr 1);
     tx_value := 5; tx_gas_price := 2; tx_gas_limit := 21000; tx_data := []; tx_chain_id := 1;
     tx_signature := EMPTY |}.
Lemma sample_state_wf : state_wf sample_state.
Proof. apply (bool_decide_unpack _). by vm_compute. Qed.
Lemma sample_transfer_wf : tx_wf sample_transfer.
Proof. apply (bool_decide_unpack _). by vm_compute. Qed.
Lemma apply_transaction_spec_witness :
  ∃ s', apply_transaction sample_transfer sample_state = (s', Ok 42000) ∧
        executed sample_state sample_transfer (addr 1) s'.
Proof.
  apply (apply_transaction_spec sample_state sample_transfer sample_state_wf sample_transfer_wf).
  split; (by vm_compute) || right; by vm_compute.
Defined.

(** C10. Execution conserves funds: a transaction that executes removes exactly
    its fee from the total supply and a rejected one removes nothing; either way
    every balance and nonce stays in its machine width. *)
Theorem apply_transaction_conserves (s s' : State) (tx : Transaction) (r : result StateError Z) :
  state_wf s → tx_wf tx → apply_transaction tx s = (s', r) →
  supply s' = supply s - (match r with Ok f => f | Err _ => 0 end) ∧ state_wf s'.
Proof.
  intros Hwf Htx H. split; [|by eapply apply_transaction_wf]. destruct r as [f|e].
  - by eapply apply_transaction_supply.
  - apply apply_transaction_inv in H as ->; [lia|done..].
Qed.
Lemma apply_transaction_conserves_witness :
  supply (apply_transaction sample_transfer sample_state).1 = 58000.
Proof.
  destruct (apply_transaction sample_transfer sample_state) as [s' r] eqn:H. cbn [fst].
  rewrite (proj1 (apply_transaction_conserves _ _ _ _ sample_state_wf sample_transfer_wf H)).
  replace r with (apply_transaction sample_transfer sample_state).2 by (by rewrite H).
  by vm_compute.
Defined.

(** C33. While the total supply fits in a [u128], executing a transaction never
    fails with a balance overflow, whatever the transaction. *)
Theorem supply_bounds_credits (s : State) (tx : Transaction) (a : Address) :
  state_wf s → tx_wf tx → supply s ≤ u128_max →
  (apply_transaction tx s).2 ≠ Err (BalanceOverflow a).
Proof.
  intros Hwf (_ & [Hv _] & _) Hsup H.
  destruct (apply_transaction tx s) as [s' r] eqn:Heq. simpl in H. subst r.
  unfold apply_transaction, ensure_balance, debit, apply_transfer in Heq. run_inv.
  match goal with H : checked_add _ _ (tx_value tx) = None |- _ => apply checked_add_None in H end.
  match goal with H : tx_from tx ≠ ?to |- _ =>
    pose proof (balance_pair_le_supply _ Hwf (tx_from tx) to H) end. lia.
Qed.
Lemma supply_bounds_credits_witness :
  (apply_transaction sample_transfer sample_state).2 ≠ Err (BalanceOverflow (addr 1)).
Proof.
  apply supply_bounds_credits; [apply sample_state_wf|apply sample_transfer_wf|by vm_compute].
Defined.

(** C11. No replay: once a transaction has executed, it is refused with a nonce
    error in every state reachable afterwards by any sequence of credits,
    balance overrides, transfers and transactions. *)
Theorem no_replay (s s1 s2 : State) (tx : Transaction) (f : Z) :
  state_wf s → tx_wf tx → apply_transaction tx s = (s1, Ok f) → rtc state_step s1 s2 →
  apply_transaction tx s2
  = (s2, Err (InvalidNonce (tx_from tx) (nonce s2 (tx_from tx)) (tx_nonce tx))).
Proof.
  intros Hwf Htx H Hsteps. pose proof (apply_transaction_wf tx s s1 _ Hwf Htx H) as Hwf1.
  apply apply_transaction_executed in H as (_ & to & Hex & [Hc _ Hn]); [|done..].
  destruct (state_steps_nonce s1 s2 (tx_from tx) Hsteps Hwf1) as (_ & Hc2 & Hle).
  rewrite Hn, decide_True in Hle by done. destruct Hex as [Ht Hchain Hg Hnonce _ _ _ _].
  unfold apply_transaction. run_unfold. rewrite Hc2, Hc, Hchain, Z.eqb_refl. simpl.
  rewrite (proj2 (Z.eqb_neq (tx_gas_limit tx) 0)) by done.
  by rewrite (proj2 (Z.eqb_neq (tx_nonce tx) _)) by lia.
Qed.
Lemma no_replay_witness :
  ∃ s1 e, apply_transaction sample_transfer sample_state = (s1, Ok 42000) ∧
    apply_transaction sample_transfer (set_balance Address_ZERO 9 s1)
    = (set_balance Address_ZERO 9 s1, Err e).
Proof.
  destruct (apply_transaction sample_transfer sample_state) as [s1 r] eqn:H.
  assert (r = Ok 42000) as -> by
    (replace r with (apply_transaction sample_transfer sample_state).2 by (by rewrite H);
     by vm_compute).
  do 2 eexists; split; [done|].
  apply (no_replay _ _ _ _ _ sample_state_wf sample_transfer_wf H).
  apply rtc_once, step_set_balance. by apply (bool_decide_unpack _).
Defined.

(** A snapshot does not depend on the hash map's iteration order, restoring
    it gives the state back, restoring accepts exactly the account lists without
    a repeated address on a non-zero chain, and different states have different
    snapshots. *)
Theorem snapshot_restore (s s2 : State) (entries : list (Address * Account)) (sn : StateSnapshot) :
  (entries ≡ₚ map_to_list (accounts s) →
     snapshot_iter (state_chain_id s) entries = snapshot s) ∧
  (state_chain_id s ≠ 0 → from_snapshot (snapshot s) = Ok s) ∧
  (is_ok (from_snapshot sn) = true ↔ snap_chain_id sn ≠ 0 ∧ NoDup (snap_accounts sn).*1) ∧
  (snapshot s = snapshot s2 ↔ s = s2).
Proof.
  split_and!; [apply snapshot_deterministic|apply from_snapshot_snapshot| |].
  - split; [|by intros [Hc Hnd]; rewrite (proj2 (from_snapshot_Ok sn _) (conj Hc (conj Hnd eq_refl)))].
    destruct (from_snapshot sn) as [s'|] eqn:H; [|done]. apply from_snapshot_Ok in H. naive_solver.
  - split; [apply (inj snapshot)|by intros ->].
Qed.

(** The state root commits to the whole account set and the chain ID: two
    representable states have the same root exactly when they are equal, as long
    as BLAKE3 does not collide on the two snapshots. *)
Theorem state_root_commits `{!Blake3, !Serialize StateSnapshot, !Deserialize StateSnapshot,
    !BincodeLaws StateSnapshot snapshot_wf} (s1 s2 : State) :
  snapshot_wf (snapshot s1) → snapshot_wf (snapshot s2) →
  (blake3 (bincode (snapshot s1)) = blake3 (bincode (snapshot s2)) →
     bincode (snapshot s1) = bincode (snapshot s2)) →
  root s1 = root s2 ↔ s1 = s2.
Proof.
  intros H1 H2 Hinj. split; [|by intros ->].
  intros Heq%Hinj%(bincode_inj snapshot_wf _ _ H1 H2). by apply (inj snapshot).
Qed.
Lemma state_root_commits_witness :
  let _ := codec_serialize c_snapshot in root sample_state ≠ root (with_chain_id 1).
Proof.
  intros ser Heq. revert Heq.
  rewrite (@state_root_commits _ ser (codec_deserialize c_snapshot)
    (codec_laws c_snapshot snapshot_wf c_snapshot_ok) sample_state (with_chain_id 1)).
  - intros Heq%(f_equal (λ s, balance s Address_ZERO)). by vm_compute in Heq.
  - apply snapshot_of_wf; [apply sample_state_wf|apply (bool_decide_unpack _); by vm_compute..].
  - apply snapshot_of_wf; apply (bool_decide_unpack _); by vm_compute.
  - intros Heq. exfalso. revert Heq. by vm_compute.
Defined.

(** The documentation of [from_snapshot] promises to reject every snapshot that
    [snapshot] cannot have produced; an unsorted one is accepted. *)
Lemma from_snapshot_accepts_unsorted :
  ∃ sn s, from_snapshot sn = Ok s ∧ ∀ s', snapshot s' ≠ sn.
Proof.
  set (sn := {| snap_chain_id := 1;
                snap_accounts := [(addr 2, account_new 1); (addr 1, account_new 1)] |}).
  exists sn. eexists. split; [apply from_snapshot_Ok; split_and!; [done| |done]|].
  - by apply (bool_decide_unpack _); vm_compute.
  - intros s' Heq. apply (f_equal snap_accounts) in Heq.
    pose proof (sort_by_sorted snapshot_compare (CmpOrder0:=snapshot_compare_order)
      (map_to_list (accounts s'))) as Hs.
    change (sort_by snapshot_compare (map_to_list (accounts s')) = snap_accounts sn) in Heq.
    rewrite Heq in Hs. apply Sorted_inv in Hs as [_ Hs]. inversion Hs as [|?? Hle]. by apply Hle.
Qed.
