(* ===== verification/Mempool.v ===== *)
(** * [subhost-mempool]

    The pending transaction pool of [crates/subhost-mempool/src/lib.rs]. The
    pool keeps a hash-indexed map of transactions and, per sender, a
    [BTreeMap] from nonce to hash. The invariant [pool_inv] makes the second map
    an exact index of the first, so that a pool is determined by its
    transactions ([pool_ext]); the operations are then specified by their effect
    on the transactions alone. *)

From Stdlib Require Import String.
From S2P Require Import Prelude Order Text Deps Bincode Core.

Record MempoolConfig := {
  max_pending : Z;
  max_per_sender : Z;
  min_gas_price : Z;
  max_tx_data_bytes : Z
}.
#[export] Instance MempoolConfig_eq_dec : EqDecision MempoolConfig.
Proof. solve_decision. Defined.
Definition mempool_config_default : MempoolConfig :=
  {| max_pending := 10000; max_per_sender := 64; min_gas_price := 1;
     max_tx_data_bytes := 128 * 1024 |}.

Inductive MempoolError :=
| Full
| GasPriceTooLow (provided min : Z)
| MempoolInvalidTransaction (message : string)
| SenderQueueFull (sender : Address)
| DataTooLarge (provided max : Z)
| InvalidConfig (message : string).

(** [impl Display for MempoolError] *)
Definition mempool_error_to_string `{!Hex} (e : MempoolError) : string :=
  match e with
  | Full => "transaction pool is full"
  | GasPriceTooLow provided min =>
      "gas price " +:+ fmt_dec provided +:+ " is below the minimum " +:+ fmt_dec min
  | MempoolInvalidTransaction message => "submitted transaction is invalid: " +:+ message
  | SenderQueueFull sender => "sender queue is full: " +:+ address_to_string sender
  | DataTooLarge provided max =>
      "transaction data is too large: " +:+ fmt_dec provided +:+ " bytes (max " +:+ fmt_dec max
      +:+ ")"
  | InvalidConfig message => "invalid mempool configuration: " +:+ message
  end.

Definition config_validate (c : MempoolConfig) : result MempoolError unit :=
  _ ← fail_if (max_pending c =? 0) (InvalidConfig "max_pending must be > 0");
  _ ← fail_if (max_per_sender c =? 0) (InvalidConfig "max_per_sender must be > 0");
  Ok ().

Record Admission := {
  adm_hash : Hash;
  adm_accepted : bool;
  adm_displaced : option Transaction
}.

Record Mempool := {
  mp_config : MempoolConfig;
  mp_txs : gmap Hash Transaction;
  mp_by_sender : gmap Address (gmap Z Hash)
}.
#[export] Instance Mempool_eq_dec : EqDecision Mempool.
Proof. solve_decision. Defined.

Definition try_new (config : MempoolConfig) : result MempoolError Mempool :=
  _ ← config_validate config;
  Ok {| mp_config := config; mp_txs := ∅; mp_by_sender := ∅ |}.
Definition mempool_new (config : MempoolConfig) : Mempool :=
  match try_new config with
  | Ok pool => pool
  | Err _ => {| mp_config := mempool_config_default; mp_txs := ∅; mp_by_sender := ∅ |}
  end.

Definition set_txs (f : gmap Hash Transaction → gmap Hash Transaction) (p : Mempool) : Mempool :=
  {| mp_config := mp_config p; mp_txs := f (mp_txs p); mp_by_sender := mp_by_sender p |}.
Definition set_by_sender (f : gmap Address (gmap Z Hash) → gmap Address (gmap Z Hash))
  (p : Mempool) : Mempool :=
  {| mp_config := mp_config p; mp_txs := mp_txs p; mp_by_sender := f (mp_by_sender p) |}.

(** [if let Some(nonces) = map.get_mut(&sender) { *nonces = f(nonces) }] *)
Definition get_mut {A : Type} (sender : Address) (f : A → A) (m : gmap Address A) : gmap Address A :=
  match m !! sender with Some v => <[sender := f v]> m | None => m end.
Definition remove_if_empty (sender : Address) (m : gmap Address (gmap Z Hash))
  : gmap Address (gmap Z Hash) :=
  if decide (m !! sender = Some ∅) then delete sender m else m.
Definition slot (p : Mempool) (sender : Address) (n : Z) : option Hash :=
  nonces ← mp_by_sender p !! sender; nonces !! n.
Definition sender_len (p : Mempool) (sender : Address) : Z :=
  from_option (λ nonces : gmap Z Hash, Z.of_nat (size nonces)) 0 (mp_by_sender p !! sender).

Definition mempool_len (p : Mempool) : Z := Z.of_nat (size (mp_txs p)).
Definition mempool_is_empty (p : Mempool) : bool := mempool_len p =? 0.
Definition sender_count (p : Mempool) : Z := Z.of_nat (size (mp_by_sender p)).
Definition mempool_get (p : Mempool) (h : Hash) : option Transaction := mp_txs p !! h.
Definition mempool_contains (p : Mempool) (h : Hash) : bool := bool_decide (is_Some (mp_txs p !! h)).
Definition get_by_sender_nonce (p : Mempool) (sender : Address) (n : Z)
  : option (Hash * Transaction) :=
  nonces ← mp_by_sender p !! sender;
  h ← nonces !! n;
  tx ← mp_txs p !! h;
  Some (h, tx).

Definition mempool_remove (h : Hash) (p : Mempool) : Mempool * bool :=
  match mp_txs p !! h with
  | None => (p, false)
  | Some tx =>
      (set_by_sender (λ m, remove_if_empty (tx_from tx) (get_mut (tx_from tx) (delete (tx_nonce tx)) m))
         (set_txs (delete h) p), true)
  end.

(** Cheapest first; among equals the highest nonce, then the smallest hash. *)
Definition victim_compare (left right : Hash * Transaction) : comparison :=
  then_with (then_with (tx_gas_price left.2 ?= tx_gas_price right.2)
                       (tx_nonce right.2 ?= tx_nonce left.2))
            (hash_compare left.1 right.1).
Definition victim_iter (entries : list (Hash * Transaction)) : option Hash :=
  fst <$> min_by victim_compare entries.
Definition evict_lowest_priority : ST Mempool MempoolError (option Transaction) :=
  p ← st_get;
  match victim_iter (map_to_list (mp_txs p)) with
  | Some h =>
      let transaction := mp_txs p !! h in
      _ ← st_modify (λ p, (mempool_remove h p).1);
      mret transaction
  | None => st_lift (Err Full)
  end.

(** The first half of [admit]: replace-by-fee. [inr] is the early return. *)
Definition replace_by_fee (tx : Transaction)
  : ST Mempool MempoolError (option Transaction + Admission) :=
  p ← st_get;
  match slot p (tx_from tx) (tx_nonce tx) with
  | None => mret (inl None)
  | Some existing_hash =>
      let existing_price := from_option tx_gas_price 0 (mp_txs p !! existing_hash) in
      if tx_gas_price tx <=? existing_price then
        mret (inr {| adm_hash := existing_hash; adm_accepted := false; adm_displaced := None |})
      else
        let displaced := mp_txs p !! existing_hash in
        _ ← st_modify (set_txs (delete existing_hash));
        _ ← st_modify (set_by_sender (get_mut (tx_from tx) (delete (tx_nonce tx))));
        mret (inl displaced)
  end.

Section admission.
Context `{!Blake3, !Serialize Transaction}.

(** [admit] from the occupied-slot check on. *)
Definition admit_slot (tx : Transaction) : ST Mempool MempoolError Admission :=
  p ← st_get;
  let config := mp_config p in
  let h := tx_hash tx in
  replaced ← replace_by_fee tx;
  match replaced with
  | inr admission => mret admission
  | inl displaced =>
      p ← st_get;
      _ ← st_fail_if (bool_decide (displaced = None) &&
                        (max_per_sender config <=? sender_len p (tx_from tx)))
            (SenderQueueFull (tx_from tx));
      displaced ← (if max_pending config <=? mempool_len p then
                     evicted ← evict_lowest_priority;
                     mret (match displaced with None => evicted | Some _ => displaced end)
                   else mret displaced);
      _ ← st_modify (set_by_sender (λ m,
            <[tx_from tx := <[tx_nonce tx := h]> (default ∅ (m !! tx_from tx))]> m));
      _ ← st_modify (set_txs (insert h tx));
      mret {| adm_hash := h; adm_accepted := true; adm_displaced := displaced |}
  end.

(** [Mempool::admit] *)
Definition admit_tx (tx : Transaction) : ST Mempool MempoolError Admission :=
  p ← st_get;
  let config := mp_config p in
  let data_len := Z.of_nat (length (tx_data tx)) in
  _ ← st_fail_if (max_tx_data_bytes config <? data_len)
        (DataTooLarge data_len (max_tx_data_bytes config));
  let h := tx_hash tx in
  if mempool_contains p h then
    mret {| adm_hash := h; adm_accepted := true; adm_displaced := None |}
  else
    _ ← st_fail_if (tx_gas_limit tx =? 0) (MempoolInvalidTransaction "gas limit must be > 0");
    _ ← st_fail_if (tx_gas_price tx <? min_gas_price config)
          (GasPriceTooLow (tx_gas_price tx) (min_gas_price config));
    _ ← st_fail_if (bool_decide (total_cost tx = None))
          (MempoolInvalidTransaction "gas_price * gas_limit + value overflows");
    admit_slot tx.

Definition mempool_add (tx : Transaction) : ST Mempool MempoolError Hash :=
  admission ← admit_tx tx; mret (adm_hash admission).
End admission.

(** ** Queries *)

(** [pending] on the transactions in the order [HashMap::values] yields them. *)
Definition pending_compare (left right : Transaction) : comparison :=
  then_with (then_with (tx_gas_price right ?= tx_gas_price left)
                       (address_compare (tx_from left) (tx_from right)))
            (tx_nonce left ?= tx_nonce right).
Definition pending_iter (txs : list Transaction) : list Transaction := sort_by pending_compare txs.
Definition pending (p : Mempool) : list Transaction := pending_iter (map_to_list (mp_txs p)).*2.

(** A [BTreeMap] iterates in key order. *)
Definition btree_iter (m : gmap Z Hash) : list (Z * Hash) :=
  sort_by (λ x y, x.1 ?= y.1) (map_to_list m).
Fixpoint ready_loop (txs : gmap Hash Transaction) (expected : Z) (entries : list (Z * Hash))
  : list Transaction :=
  match entries with
  | [] => []
  | (n, h) :: entries =>
      if n =? expected then
        match txs !! h with
        | None => []
        | Some tx =>
            tx :: match checked_add u64_max expected 1 with
                  | Some next => ready_loop txs next entries
                  | None => []
                  end
        end
      else []
  end.
Definition ready_for (p : Mempool) (sender : Address) (next_nonce : Z) : list Transaction :=
  match mp_by_sender p !! sender with
  | None => []
  | Some nonces =>
      ready_loop (mp_txs p) next_nonce (filter (λ e, next_nonce ≤ e.1) (btree_iter nonces))
  end.

Definition next_nonce_for (p : Mempool) (sender : Address) : option Z :=
  nonces ← mp_by_sender p !! sender;
  highest ← last (btree_iter nonces).*1;
  checked_add u64_max highest 1.

Definition prune_below_nonce (sender : Address) (next_nonce : Z) (p : Mempool) : Mempool * Z :=
  match mp_by_sender p !! sender with
  | None => (p, 0)
  | Some nonces =>
      let stale := (filter (λ e, e.1 < next_nonce) (btree_iter nonces)).*2 in
      let p := set_txs (λ txs, foldl (λ txs h, delete h txs) txs stale) p in
      let p := set_by_sender (get_mut sender (filter (λ e : Z * Hash, next_nonce ≤ e.1))) p in
      (set_by_sender (remove_if_empty sender) p, Z.of_nat (length stale))
  end.

(** ** The sender index *)

Definition mslot (m : gmap Address (gmap Z Hash)) (a : Address) (n : Z) : option Hash :=
  nonces ← m !! a; nonces !! n.
Definition mlen (m : gmap Address (gmap Z Hash)) (a : Address) : Z :=
  from_option (λ nonces : gmap Z Hash, Z.of_nat (size nonces)) 0 (m !! a).
Definition idx_insert (tx : Transaction) (h : Hash) (m : gmap Address (gmap Z Hash))
  : gmap Address (gmap Z Hash) :=
  <[tx_from tx := <[tx_nonce tx := h]> (default ∅ (m !! tx_from tx))]> m.
Definition idx_remove (a : Address) (n : Z) (m : gmap Address (gmap Z Hash))
  : gmap Address (gmap Z Hash) :=
  remove_if_empty a (get_mut a (delete n) m).

Lemma mslot_default m a n : (default ∅ (m !! a) : gmap Z Hash) !! n = mslot m a n.
Proof. unfold mslot. by destruct (m !! a). Qed.
Lemma mslot_idx_insert tx h m a n :
  mslot (idx_insert tx h m) a n
  = if decide (a = tx_from tx ∧ n = tx_nonce tx) then Some h else mslot m a n.
Proof.
  unfold mslot at 1, idx_insert. destruct (decide (a = tx_from tx)) as [->|].
  - rewrite lookup_insert_eq. simpl. destruct (decide (n = tx_nonce tx)) as [->|].
    + by rewrite lookup_insert_eq, decide_True.
    + rewrite lookup_insert_ne, mslot_default by done. by rewrite decide_False by naive_solver.
  - rewrite lookup_insert_ne by done. by rewrite decide_False by naive_solver.
Qed.
Lemma mslot_get_mut f m a a' n :
  mslot (get_mut a f m) a' n = if decide (a' = a) then (f <$> m !! a) ≫= (.!! n) else mslot m a' n.
Proof.
  unfold mslot, get_mut. destruct (m !! a) as [x|] eqn:Ha; simpl; case_decide; subst.
  - by rewrite lookup_insert_eq.
  - by rewrite lookup_insert_ne.
  - by rewrite Ha.
  - done.
Qed.
Lemma mslot_remove_if_empty a m a' n : mslot (remove_if_empty a m) a' n = mslot m a' n.
Proof.
  unfold mslot, remove_if_empty. case_decide as Ha; [|done]. destruct (decide (a' = a)) as [->|].
  - by rewrite lookup_delete_eq, Ha.
  - by rewrite lookup_delete_ne.
Qed.
Lemma mslot_idx_remove a n m a' n' :
  mslot (idx_remove a n m) a' n' = if decide (a' = a ∧ n' = n) then None else mslot m a' n'.
Proof.
  unfold idx_remove. rewrite mslot_remove_if_empty, mslot_get_mut.
  destruct (decide (a' = a)) as [->|]; [|by rewrite decide_False by naive_solver].
  unfold mslot. destruct (m !! a) as [x|]; simpl; [|by case_decide].
  destruct (decide (n' = n)) as [->|].
  - by rewrite lookup_delete_eq, decide_True.
  - rewrite lookup_delete_ne by done. by rewrite decide_False by naive_solver.
Qed.
Lemma remove_if_empty_nonempty a m :
  (∀ b, b ≠ a → m !! b ≠ Some ∅) → ∀ b, remove_if_empty a m !! b ≠ Some ∅.
Proof.
  intros Hm b. unfold remove_if_empty. case_decide.
  - intros [??]%lookup_delete_Some. by apply (Hm b).
  - destruct (decide (b = a)) as [->|]; auto.
Qed.
Lemma get_mut_ne {A} a f (m : gmap Address A) b : b ≠ a → get_mut a f m !! b = m !! b.
Proof. intros. unfold get_mut. destruct (m !! a); [by rewrite lookup_insert_ne|done]. Qed.

Lemma mlen_idx_insert tx h m a :
  mlen (idx_insert tx h m) a
  = mlen m a + (if decide (a = tx_from tx ∧ mslot m a (tx_nonce tx) = None) then 1 else 0).
Proof.
  unfold mlen, idx_insert. destruct (decide (a = tx_from tx)) as [->|].
  - rewrite lookup_insert_eq. unfold mslot. destruct (m !! tx_from tx) as [x|]; simpl.
    + destruct (x !! tx_nonce tx) as [h'|] eqn:Hx.
      * rewrite decide_False by naive_solver. rewrite map_size_insert_Some by eauto. lia.
      * rewrite decide_True by done. rewrite map_size_insert_None by done. lia.
    + rewrite decide_True by done. by rewrite insert_empty, map_size_singleton.
  - rewrite lookup_insert_ne by done. rewrite decide_False by naive_solver. lia.
Qed.
Lemma mlen_remove_if_empty a m b : mlen (remove_if_empty a m) b = mlen m b.
Proof.
  unfold mlen, remove_if_empty. case_decide as Ha; [|done]. destruct (decide (b = a)) as [->|].
  - by rewrite lookup_delete_eq, Ha.
  - by rewrite lookup_delete_ne.
Qed.
Lemma mlen_get_mut_le a f m b :
  (∀ x, (size (f x) ≤ size x)%nat) → mlen (get_mut a f m) b ≤ mlen m b.
Proof.
  intros Hf. unfold mlen, get_mut. destruct (m !! a) as [x|] eqn:Ha; [|done].
  destruct (decide (b = a)) as [->|]; [|by rewrite lookup_insert_ne].
  rewrite lookup_insert_eq, Ha. simpl. specialize (Hf x). lia.
Qed.
Lemma mlen_idx_remove_le a n m b : mlen (idx_remove a n m) b ≤ mlen m b.
Proof.
  unfold idx_remove. rewrite mlen_remove_if_empty. apply mlen_get_mut_le.
  intros x. apply map_subseteq_size, delete_subseteq.
Qed.
Lemma mlen_idx_remove a n m h : mslot m a n = Some h → mlen (idx_remove a n m) a = mlen m a - 1.
Proof.
  unfold mslot, idx_remove. rewrite mlen_remove_if_empty. unfold mlen, get_mut.
  destruct (m !! a) as [x|] eqn:Ha; simpl; [|done]. intros Hx. rewrite lookup_insert_eq. simpl.
  rewrite map_size_delete_Some by eauto.
  assert (size x ≠ 0)%nat; [|lia]. intros ->%map_size_empty_inv. by rewrite lookup_empty in Hx.
Qed.
Lemma idx_insert_get_mut tx h m :
  is_Some (mslot m (tx_from tx) (tx_nonce tx)) →
  idx_insert tx h (get_mut (tx_from tx) (delete (tx_nonce tx)) m) = idx_insert tx h m.
Proof.
  unfold mslot, idx_insert, get_mut. destruct (m !! tx_from tx) as [x|] eqn:Hx; simpl; [|by intros []].
  intros _. rewrite lookup_insert_eq. simpl. by rewrite insert_insert_eq, insert_delete_eq.
Qed.

(** The sender index of a set of transactions, and that there is only one. *)
Section index.
Context `{!Blake3, !Serialize Transaction}.

Record index_ok (txs : gmap Hash Transaction) (m : gmap Address (gmap Z Hash)) : Prop := {
  ix_tx h tx : txs !! h = Some tx → tx_hash tx = h ∧ mslot m (tx_from tx) (tx_nonce tx) = Some h;
  ix_slot a n h : mslot m a n = Some h →
    ∃ tx, txs !! h = Some tx ∧ tx_from tx = a ∧ tx_nonce tx = n;
  ix_nonempty a : m !! a ≠ Some ∅
}.

Lemma index_ext txs m1 m2 : index_ok txs m1 → index_ok txs m2 → m1 = m2.
Proof.
  assert (∀ m1 m2 a n h, index_ok txs m1 → index_ok txs m2 →
    mslot m1 a n = Some h → mslot m2 a n = Some h) as Hle.
  { intros n1 n2 a n h I1 I2 (tx & Htx & <- & <-)%(ix_slot _ _ I1). by apply (ix_tx _ _ I2). }
  intros I1 I2.
  assert (∀ a n, mslot m1 a n = mslot m2 a n) as Hslot.
  { intros a n. apply option_eq. intros h. split; by apply Hle. }
  apply map_eq. intros a. pose proof (ix_nonempty _ _ I1 a) as N1.
  pose proof (ix_nonempty _ _ I2 a) as N2. specialize (Hslot a). unfold mslot in Hslot.
  destruct (m1 !! a) as [x|], (m2 !! a) as [y|]; simpl in *; try done.
  - f_equal. by apply map_eq.
  - destruct N1. f_equal. by apply map_empty.
  - destruct N2. f_equal. by apply map_empty.
Qed.
Lemma index_insert txs m tx :
  index_ok txs m → txs !! tx_hash tx = None → mslot m (tx_from tx) (tx_nonce tx) = None →
  index_ok (<[tx_hash tx := tx]> txs) (idx_insert tx (tx_hash tx) m).
Proof.
  intros [I1 I2 I3] Hh Hs. split.
  - intros h t. destruct (decide (h = tx_hash tx)) as [->|].
    + rewrite lookup_insert_eq. intros [= <-]. by rewrite mslot_idx_insert, decide_True.
    + rewrite lookup_insert_ne by done. intros Ht. destruct (I1 h t Ht) as [? Hm].
      split; [done|]. rewrite mslot_idx_insert. case_decide as Hd; [|done].
      destruct Hd as [E1 E2]. rewrite E1, E2 in Hm. congruence.
  - intros a n h. rewrite mslot_idx_insert. case_decide as Hd.
    + intros [= <-]. destruct Hd as [-> ->]. exists tx. by rewrite lookup_insert_eq.
    + intros (t & Ht & ? & ?)%I2. exists t. rewrite lookup_insert_ne by congruence. done.
  - intros a. unfold idx_insert. destruct (decide (a = tx_from tx)) as [->|].
    + rewrite lookup_insert_eq. intros [= Hx]. by apply insert_non_empty in Hx.
    + by rewrite lookup_insert_ne.
Qed.
Lemma index_remove txs m h tx :
  index_ok txs m → txs !! h = Some tx →
  index_ok (delete h txs) (idx_remove (tx_from tx) (tx_nonce tx) m).
Proof.
  intros [I1 I2 I3] Hh. destruct (I1 h tx Hh) as [Hhash Hslot]. split.
  - intros h' t [? Ht]%lookup_delete_Some. destruct (I1 h' t Ht) as [? Hm]. split; [done|].
    rewrite mslot_idx_remove. case_decide as Hd; [|done].
    destruct Hd as [E1 E2]. rewrite E1, E2 in Hm. congruence.
  - intros a n h'. rewrite mslot_idx_remove. case_decide as Hd; [done|].
    intros Hm. destruct (I2 a n h' Hm) as (t & Ht & ? & ?). exists t.
    rewrite lookup_delete_ne; [done|]. intros ->. apply Hd. by simplify_eq.
  - unfold idx_remove. apply remove_if_empty_nonempty. intros b Hb. by rewrite get_mut_ne.
Qed.
Lemma idx_insert_remove tx h m :
  is_Some (mslot m (tx_from tx) (tx_nonce tx)) →
  idx_insert tx h (idx_remove (tx_from tx) (tx_nonce tx) m) = idx_insert tx h m.
Proof.
  intros Hs. rewrite <-(idx_insert_get_mut tx h m Hs). unfold idx_remove, remove_if_empty.
  case_decide as He; [|done]. unfold idx_insert.
  by rewrite lookup_delete_eq, He, insert_delete_eq.
Qed.
End index.

(** ** The pool invariant *)

Definition admissible (c : MempoolConfig) (tx : Transaction) : Prop :=
  Z.of_nat (length (tx_data tx)) ≤ max_tx_data_bytes c ∧ tx_gas_limit tx ≠ 0 ∧
  min_gas_price c ≤ tx_gas_price tx ∧ total_cost tx ≠ None.
Definition is_victim (txs : gmap Hash Transaction) (h : Hash) (tx : Transaction) : Prop :=
  txs !! h = Some tx ∧
  ∀ h' tx', txs !! h' = Some tx' → victim_compare (h, tx) (h', tx') ≠ Gt.

Section pool.
Context `{!Blake3, !Serialize Transaction}.
Implicit Types (p : Mempool) (tx : Transaction) (h : Hash).

Record pool_inv p : Prop := {
  pi_index : index_ok (mp_txs p) (mp_by_sender p);
  pi_config : 0 < max_pending (mp_config p) ∧ 0 < max_per_sender (mp_config p);
  pi_len : mempool_len p ≤ max_pending (mp_config p);
  pi_sender a : mlen (mp_by_sender p) a ≤ max_per_sender (mp_config p);
  pi_admissible h tx : mp_txs p !! h = Some tx → admissible (mp_config p) tx
}.

(** A pool is determined by its configuration and its transactions. *)
Lemma pool_ext p1 p2 :
  pool_inv p1 → pool_inv p2 → mp_config p1 = mp_config p2 → mp_txs p1 = mp_txs p2 → p1 = p2.
Proof.
  intros I1 I2 Hc Ht. pose proof (pi_index _ I1) as X1. pose proof (pi_index _ I2) as X2.
  rewrite Ht in X1. pose proof (index_ext _ _ _ X1 X2). destruct p1, p2. simpl in *. congruence.
Qed.

Lemma victim_compare_order : CmpOrder victim_compare.
Proof.
  apply (then_with_order
    (λ l r : Hash * Transaction, then_with (tx_gas_price l.2 ?= tx_gas_price r.2)
       (tx_nonce r.2 ?= tx_nonce l.2))
    (λ l r : Hash * Transaction, hash_compare l.1 r.1)
    (CmpOrder0 := then_with_order (λ l r : Hash * Transaction, tx_gas_price l.2 ?= tx_gas_price r.2)
      (λ l r : Hash * Transaction, tx_nonce r.2 ?= tx_nonce l.2)
      (CmpOrder0 := cmp_key_order (λ x : Hash * Transaction, tx_gas_price x.2) Z.compare)
      (CmpOrder1 := cmp_rev_order (λ l r : Hash * Transaction, tx_nonce l.2 ?= tx_nonce r.2)
         (CmpOrder0 := cmp_key_order (λ x : Hash * Transaction, tx_nonce x.2) Z.compare)))
    (CmpOrder1 := cmp_key_order (λ x : Hash * Transaction, x.1) hash_compare)).
Qed.
Lemma victim_unique txs h1 tx1 h2 tx2 : is_victim txs h1 tx1 → is_victim txs h2 tx2 → h1 = h2.
Proof.
  intros [H1 M1] [H2 M2]. specialize (M1 h2 tx2 H2). specialize (M2 h1 tx1 H1).
  pose proof victim_compare_order as Hord.
  rewrite (cmp_opp (cmp:=victim_compare) (h1, tx1) (h2, tx2)) in M2.
  destruct (victim_compare (h1, tx1) (h2, tx2)) eqn:Hc; try done.
  apply then_with_Eq in Hc as [_ Hc]. by apply array_compare_Eq in Hc.
Qed.
(** The victim does not depend on the order in which the map is iterated. *)
Lemma victim_iter_Some txs entries h :
  entries ≡ₚ map_to_list txs →
  victim_iter entries = Some h ↔ ∃ tx, is_victim txs h tx.
Proof.
  intros Hperm. pose proof victim_compare_order as Hord.
  assert (∀ h', victim_iter entries = Some h' → ∃ tx, is_victim txs h' tx) as Hfwd.
  { unfold victim_iter. intros h' ([h1 t1] & Hmin & ->)%fmap_Some.
    apply min_by_Some in Hmin as [Hin Hmin]; [|done]. simpl. exists t1. split.
    - by rewrite Hperm, elem_of_map_to_list in Hin.
    - intros h2 t2 H2. apply Hmin. by rewrite Hperm, elem_of_map_to_list. }
  split; [apply Hfwd|]. intros [tx Hv].
  destruct (victim_iter entries) as [h'|] eqn:He.
  - destruct (Hfwd h' eq_refl) as [tx' Hv']. f_equal. by eapply victim_unique.
  - unfold victim_iter in He. apply fmap_None, min_by_None in He. subst.
    apply Permutation_nil_l in Hperm; symmetry in Hperm; apply map_to_list_empty_iff in Hperm. subst.
    destruct Hv as [Hv _]. by rewrite lookup_empty in Hv.
Qed.
Lemma victim_iter_nonempty txs : txs ≠ ∅ → ∃ h tx, is_victim txs h tx.
Proof.
  intros Hne. destruct (victim_iter (map_to_list txs)) as [h|] eqn:He.
  - exists h. by apply (victim_iter_Some txs (map_to_list txs)).
  - unfold victim_iter in He. by apply fmap_None, min_by_None, map_to_list_empty_iff in He.
Qed.

Lemma mempool_remove_Some h tx p :
  mp_txs p !! h = Some tx →
  mempool_remove h p
  = ({| mp_config := mp_config p; mp_txs := delete h (mp_txs p);
        mp_by_sender := idx_remove (tx_from tx) (tx_nonce tx) (mp_by_sender p) |}, true).
Proof. unfold mempool_remove. by intros ->. Qed.
Lemma mempool_remove_inv h p :
  pool_inv p → pool_inv (mempool_remove h p).1 ∧ mp_config (mempool_remove h p).1 = mp_config p ∧
    mp_txs (mempool_remove h p).1 = delete h (mp_txs p) ∧
    (mempool_remove h p).2 = mempool_contains p h.
Proof.
  intros I. unfold mempool_contains. destruct (mp_txs p !! h) as [tx|] eqn:Hh.
  - rewrite (mempool_remove_Some h tx p Hh). simpl. split_and!; try done.
    destruct I as [X C L S A]. split; simpl; try done.
    + by apply index_remove.
    + unfold mempool_len in *. simpl. etrans; [|exact L]. apply inj_le, map_subseteq_size, delete_subseteq.
    + intros a. etrans; [apply mlen_idx_remove_le|apply S].
    + intros h' t [_ Ht]%lookup_delete_Some. by apply (A h').
  - unfold mempool_remove. rewrite Hh. simpl. split_and!; try done. by rewrite delete_id.
Qed.
(** Putting a transaction into a free slot of a pool with room. *)
Definition pool_insert (tx : Transaction) (p : Mempool) : Mempool :=
  {| mp_config := mp_config p; mp_txs := <[tx_hash tx := tx]> (mp_txs p);
     mp_by_sender := idx_insert tx (tx_hash tx) (mp_by_sender p) |}.
Record insertable p tx : Prop := {
  in_fresh : mp_txs p !! tx_hash tx = None;
  in_slot : slot p (tx_from tx) (tx_nonce tx) = None;
  in_admissible : admissible (mp_config p) tx;
  in_sender : sender_len p (tx_from tx) < max_per_sender (mp_config p);
  in_len : mempool_len p < max_pending (mp_config p)
}.
Lemma pool_insert_inv p tx : pool_inv p → insertable p tx → pool_inv (pool_insert tx p).
Proof.
  intros [X C L S A] [F Sl Ad Se Le]. split; simpl; try done.
  - by apply index_insert.
  - unfold mempool_len in *. simpl. rewrite map_size_insert_None by done. lia.
  - intros a. rewrite mlen_idx_insert. specialize (S a). case_decide as Hd; [|lia].
    destruct Hd as [-> _]. change (mlen (mp_by_sender p) (tx_from tx) < max_per_sender (mp_config p))
      in Se. lia.
  - intros h t. destruct (decide (h = tx_hash tx)) as [->|].
    + rewrite lookup_insert_eq. by intros [= <-].
    + rewrite lookup_insert_ne by done. apply A.
Qed.
(** After a removal the pool has room for what takes the removed slot. *)
Lemma remove_insertable p h old tx :
  pool_inv p → mp_txs p !! h = Some old → tx_from tx = tx_from old → tx_nonce tx = tx_nonce old →
  delete h (mp_txs p) !! tx_hash tx = None → admissible (mp_config p) tx →
  insertable (mempool_remove h p).1 tx.
Proof.
  intros I Hh Hf Hn Hfresh Had. destruct (ix_tx _ _ (pi_index _ I) h old Hh) as [_ Hslot].
  pose proof (pi_sender _ I (tx_from tx)). pose proof (pi_len _ I).
  rewrite (mempool_remove_Some h old p Hh). split; simpl; try done.
  - change (mslot (idx_remove (tx_from old) (tx_nonce old) (mp_by_sender p))
      (tx_from tx) (tx_nonce tx) = None). by rewrite mslot_idx_remove, decide_True.
  - change (mlen (idx_remove (tx_from old) (tx_nonce old) (mp_by_sender p)) (tx_from tx)
      < max_per_sender (mp_config p)). rewrite Hf in *. rewrite (mlen_idx_remove _ _ _ h) by done. lia.
  - unfold mempool_len in *. simpl. rewrite map_size_delete_Some by eauto.
    assert (size (mp_txs p) ≠ 0)%nat; [|lia]. intros Hz%map_size_empty_inv.
    by rewrite Hz, lookup_empty in Hh.
Qed.
Lemma evict_run p :
  pool_inv p → mp_txs p ≠ ∅ →
  ∃ h v, is_victim (mp_txs p) h v ∧
    evict_lowest_priority p = ((mempool_remove h p).1, Ok (Some v)).
Proof.
  intros I Hne. destruct (victim_iter_nonempty (mp_txs p) Hne) as (h & v & Hv). exists h, v.
  split; [done|]. unfold evict_lowest_priority. run_unfold.
  rewrite (proj2 (victim_iter_Some (mp_txs p) (map_to_list (mp_txs p)) h ltac:(done))) by eauto.
  simpl. destruct Hv as [-> _]. done.
Qed.

(** *** What [admit] does *)

(** The transactions and the report after an admission. *)
Inductive admits p tx : gmap Hash Transaction → Admission → Prop :=
| admits_known :
    is_Some (mp_txs p !! tx_hash tx) →
    admits p tx (mp_txs p)
      {| adm_hash := tx_hash tx; adm_accepted := true; adm_displaced := None |}
| admits_kept h old :
    mp_txs p !! tx_hash tx = None → admissible (mp_config p) tx →
    slot p (tx_from tx) (tx_nonce tx) = Some h → mp_txs p !! h = Some old →
    tx_gas_price tx ≤ tx_gas_price old →
    admits p tx (mp_txs p) {| adm_hash := h; adm_accepted := false; adm_displaced := None |}
| admits_replaced h old :
    mp_txs p !! tx_hash tx = None → admissible (mp_config p) tx →
    slot p (tx_from tx) (tx_nonce tx) = Some h → mp_txs p !! h = Some old →
    tx_gas_price old < tx_gas_price tx →
    admits p tx (<[tx_hash tx := tx]> (delete h (mp_txs p)))
      {| adm_hash := tx_hash tx; adm_accepted := true; adm_displaced := Some old |}
| admits_fresh :
    insertable p tx →
    admits p tx (<[tx_hash tx := tx]> (mp_txs p))
      {| adm_hash := tx_hash tx; adm_accepted := true; adm_displaced := None |}
| admits_evicting h v :
    mp_txs p !! tx_hash tx = None → admissible (mp_config p) tx →
    slot p (tx_from tx) (tx_nonce tx) = None →
    sender_len p (tx_from tx) < max_per_sender (mp_config p) →
    mempool_len p = max_pending (mp_config p) → is_victim (mp_txs p) h v →
    admits p tx (<[tx_hash tx := tx]> (delete h (mp_txs p)))
      {| adm_hash := tx_hash tx; adm_accepted := true; adm_displaced := Some v |}.

(** When [admit] accepts, and the branch it takes before it looks at the slot. *)
Definition admit_ok p tx : Prop :=
  Z.of_nat (length (tx_data tx)) ≤ max_tx_data_bytes (mp_config p) ∧
  (is_Some (mp_txs p !! tx_hash tx) ∨
   admissible (mp_config p) tx ∧
   (slot p (tx_from tx) (tx_nonce tx) ≠ None ∨
    sender_len p (tx_from tx) < max_per_sender (mp_config p))).
Lemma admit_guards tx p :
  (∃ e, admit_tx tx p = (p, Err e) ∧ ¬ admit_ok p tx) ∨
  (admit_tx tx p = (p, Ok {| adm_hash := tx_hash tx; adm_accepted := true; adm_displaced := None |})
     ∧ admit_ok p tx ∧ is_Some (mp_txs p !! tx_hash tx)) ∨
  (admit_tx tx p = admit_slot tx p ∧
     mp_txs p !! tx_hash tx = None ∧ admissible (mp_config p) tx).
Proof.
  unfold admit_tx, admit_ok, admissible, mempool_contains. run_unfold.
  destruct (Z.ltb_spec (max_tx_data_bytes (mp_config p)) (Z.of_nat (length (tx_data tx)))).
  { left. eexists; split; [done|]. lia. }
  destruct (mp_txs p !! tx_hash tx) as [t|] eqn:Ht; simpl.
  { right; left. split_and!; eauto. }
  destruct (Z.eqb_spec (tx_gas_limit tx) 0).
  { left. eexists; split; [done|]. intros (_ & [[? [=]]|?]); naive_solver. }
  destruct (Z.ltb_spec (tx_gas_price tx) (min_gas_price (mp_config p))).
  { left. eexists; split; [done|]. intros (_ & [[? [=]]|?]); naive_solver lia. }
  destruct (bool_decide_reflect (total_cost tx = None)).
  { left. eexists; split; [done|]. intros (_ & [[? [=]]|?]); naive_solver. }
  right; right. by split_and!.
Qed.
Lemma admit_slot_occupied tx p h old :
  pool_inv p → mp_txs p !! tx_hash tx = None → admissible (mp_config p) tx →
  slot p (tx_from tx) (tx_nonce tx) = Some h → mp_txs p !! h = Some old →
  admit_slot tx p =
    if tx_gas_price tx <=? tx_gas_price old
    then (p, Ok {| adm_hash := h; adm_accepted := false; adm_displaced := None |})
    else (pool_insert tx (mempool_remove h p).1,
          Ok {| adm_hash := tx_hash tx; adm_accepted := true; adm_displaced := Some old |}).
Proof.
  intros I Hfresh Had Hslot Hold. unfold admit_slot, replace_by_fee. run_unfold.
  rewrite Hslot. simpl. rewrite Hold. simpl.
  destruct (tx_gas_price tx <=? tx_gas_price old); [done|].
  destruct (ix_slot _ _ (pi_index _ I) _ _ _ Hslot) as (old' & Hold' & Hf & Hn).
  rewrite Hold in Hold'. injection Hold' as <-.
  assert (delete h (mp_txs p) !! tx_hash tx = None) as Hdel by (by apply lookup_delete_None; right).
  pose proof (in_len _ _ (remove_insertable p h old tx I Hold (eq_sym Hf) (eq_sym Hn) Hdel Had)) as Hlen.
  rewrite (mempool_remove_Some h old p Hold) in *. unfold mempool_len in *. simpl in *.
  rewrite (proj2 (Z.leb_gt _ _)) by lia. f_equal. unfold pool_insert. simpl.
  unfold set_txs, set_by_sender. simpl. f_equal. rewrite Hf, Hn.
  rewrite idx_insert_remove by eauto. by apply idx_insert_get_mut; eauto.
Qed.
Lemma admit_slot_free tx p :
  pool_inv p → mp_txs p !! tx_hash tx = None → admissible (mp_config p) tx →
  slot p (tx_from tx) (tx_nonce tx) = None →
  (max_per_sender (mp_config p) ≤ sender_len p (tx_from tx) ∧
     ∃ e, admit_slot tx p = (p, Err e)) ∨
  (insertable p tx ∧
     admit_slot tx p = (pool_insert tx p,
       Ok {| adm_hash := tx_hash tx; adm_accepted := true; adm_displaced := None |})) ∨
  (sender_len p (tx_from tx) < max_per_sender (mp_config p) ∧
   mempool_len p = max_pending (mp_config p) ∧ ∃ h v, is_victim (mp_txs p) h v ∧
     admit_slot tx p = (pool_insert tx (mempool_remove h p).1,
       Ok {| adm_hash := tx_hash tx; adm_accepted := true; adm_displaced := Some v |})).
Proof.
  intros I Hfresh Had Hslot. unfold admit_slot, replace_by_fee. run_unfold. rewrite Hslot. simpl.
  destruct (Z.leb_spec (max_per_sender (mp_config p)) (sender_len p (tx_from tx))) as [|Hs]; [by eauto|].
  pose proof (pi_len _ I) as Hl. pose proof (pi_config _ I) as [Hc _].
  destruct (Z.leb_spec (max_pending (mp_config p)) (mempool_len p)) as [Hle|Hlt].
  - right; right. split_and!; [done|lia|].
    destruct (evict_run p I) as (h & v & Hv & Hev).
    { intros Hz. unfold mempool_len in Hle. rewrite Hz, map_size_empty in Hle. lia. }
    exists h, v. split; [done|]. run_unfold. rewrite Hev. done.
  - right; left. split; [by split|done].
Qed.
Lemma evict_insertable tx p h v :
  pool_inv p → mp_txs p !! tx_hash tx = None → admissible (mp_config p) tx →
  slot p (tx_from tx) (tx_nonce tx) = None →
  sender_len p (tx_from tx) < max_per_sender (mp_config p) →
  mp_txs p !! h = Some v → insertable (mempool_remove h p).1 tx.
Proof.
  intros I Hfresh Had Hslot Hs Hv. pose proof (pi_len _ I) as Hl.
  rewrite (mempool_remove_Some h v p Hv). split; simpl; try done.
  - apply lookup_delete_None. by right.
  - change (mslot (idx_remove (tx_from v) (tx_nonce v) (mp_by_sender p))
      (tx_from tx) (tx_nonce tx) = None). rewrite mslot_idx_remove. by case_decide.
  - change (mlen (idx_remove (tx_from v) (tx_nonce v) (mp_by_sender p)) (tx_from tx)
      < max_per_sender (mp_config p)).
    eapply Z.le_lt_trans; [apply mlen_idx_remove_le|exact Hs].
  - unfold mempool_len in *. simpl. rewrite map_size_delete_Some by eauto.
    assert (size (mp_txs p) ≠ 0)%nat; [|lia]. intros Hz%map_size_empty_inv.
    by rewrite Hz, lookup_empty in Hv.
Qed.

(** Every run of [admit]: it keeps the invariant, fails without a trace exactly
    when it must, and otherwise has one of the outcomes above. *)
Lemma admit_run tx p p' r :
  pool_inv p → admit_tx tx p = (p', r) →
  pool_inv p' ∧ mp_config p' = mp_config p ∧ (is_ok r = true ↔ admit_ok p tx) ∧
  match r with Ok a => admits p tx (mp_txs p') a | Err _ => p' = p end.
Proof.
  intros I Hrun. destruct (admit_guards tx p) as [(e & He & Hno)|[(He & Hok & Hin)|(He & Hf & Had)]];
    rewrite He in Hrun; [simplify_eq; split_and!; done| |].
  { simplify_eq. split_and!; try done. by constructor. }
  assert (Z.of_nat (length (tx_data tx)) ≤ max_tx_data_bytes (mp_config p)) as Hd by apply Had.
  destruct (slot p (tx_from tx) (tx_nonce tx)) as [h|] eqn:Hslot.
  - destruct (ix_slot _ _ (pi_index _ I) _ _ _ Hslot) as (old & Hold & Hfo & Hnn).
    assert (admit_ok p tx) by (split; [done|right; split; [done|left; by rewrite Hslot]]).
    rewrite (admit_slot_occupied tx p h old) in Hrun by done.
    destruct (Z.leb_spec (tx_gas_price tx) (tx_gas_price old)); simplify_eq.
    + split_and!; try done. by eapply admits_kept.
    + assert (insertable (mempool_remove h p).1 tx).
      { apply (remove_insertable p h old); try done. apply lookup_delete_None. by right. }
      destruct (mempool_remove_inv h p I) as (Ir & Hc & Ht & _).
      split_and!; [by apply pool_insert_inv|done|done|]. simpl. rewrite Ht.
      by eapply admits_replaced.
  - destruct (admit_slot_free tx p I Hf Had Hslot)
      as [(Hs & e & He')|[(Hins & He')|(Hs & Hl & h & v & Hv & He')]]; rewrite He' in Hrun; simplify_eq.
    + split_and!; try done. split; [done|]. intros (_ & [Hin|[_ [?|?]]]); [|done|lia].
      rewrite Hf in Hin. by destruct Hin.
    + assert (admit_ok p tx) by (split; [done|right; split; [done|right; apply Hins]]).
      split_and!; try done; [by apply pool_insert_inv|]. by apply admits_fresh.
    + assert (admit_ok p tx) by (split; [done|right; split; [done|by right]]).
      destruct (mempool_remove_inv h p I) as (Ir & Hc & Ht & _).
      split_and!; [|done|done|simpl; rewrite Ht; by apply admits_evicting].
      apply pool_insert_inv; [done|]. apply (evict_insertable tx p h v); try done. apply Hv.
Qed.

(** *** Undoing an admission *)
Lemma remove_pool_insert p tx :
  pool_inv p → insertable p tx → (mempool_remove (tx_hash tx) (pool_insert tx p)).1 = p.
Proof.
  intros I Hins. pose proof (pool_insert_inv p tx I Hins) as Ii.
  destruct (mempool_remove_inv (tx_hash tx) _ Ii) as (Ir & Hc & Ht & _).
  apply pool_ext; try done. rewrite Ht. simpl. apply delete_insert_id. by apply Hins.
Qed.
Lemma admit_insertable p tx :
  pool_inv p → insertable p tx →
  admit_tx tx p = (pool_insert tx p,
    Ok {| adm_hash := tx_hash tx; adm_accepted := true; adm_displaced := None |}).
Proof.
  intros I Hins. destruct Hins as [Hf Hslot Had Hs Hl].
  destruct (admit_guards tx p) as [(e & He & Hno)|[(He & Hok & Hin)|(He & _ & _)]].
  - destruct Hno. split; [apply Had|]. right. split; [done|]. by right.
  - rewrite Hf in Hin. by destruct Hin.
  - rewrite He. destruct (admit_slot_free tx p I Hf Had Hslot)
      as [(Hs' & _)|[(_ & He')|(_ & Hl' & _)]]; [lia|done|lia].
Qed.
(** What was removed can be put back, and gives the pool back. *)
Lemma readmit p h old :
  pool_inv p → mp_txs p !! h = Some old →
  admit_tx old (mempool_remove h p).1
  = (p, Ok {| adm_hash := h; adm_accepted := true; adm_displaced := None |}).
Proof.
  intros I Hold. destruct (ix_tx _ _ (pi_index _ I) h old Hold) as [Hhash _].
  destruct (mempool_remove_inv h p I) as (Ir & Hc & Ht & _).
  assert (insertable (mempool_remove h p).1 old) as Hins.
  { apply (remove_insertable p h old); try done.
    - rewrite Hhash. apply lookup_delete_eq.
    - by apply (pi_admissible _ I h). }
  rewrite admit_insertable, Hhash by done. f_equal. apply pool_ext; try done.
  - by apply pool_insert_inv.
  - simpl. rewrite Ht, Hhash. by apply insert_delete_id.
Qed.
Lemma admit_known p tx :
  pool_inv p → mp_txs p !! tx_hash tx = Some tx →
  admit_tx tx p = (p, Ok {| adm_hash := tx_hash tx; adm_accepted := true; adm_displaced := None |}).
Proof.
  intros I Htx. destruct (admit_guards tx p) as [(e & _ & Hno)|[(He & _)|(_ & Hf & _)]];
    [|done|congruence].
  destruct Hno. split; [by apply (pi_admissible _ I (tx_hash tx))|]. left. eauto.
Qed.
End pool.

(** ** Queries and pruning *)

Definition key_compare (x y : Z * Hash) : comparison := x.1 ?= y.1.
Lemma key_compare_order : CmpOrder key_compare.
Proof. apply (cmp_key_order fst Z.compare). Qed.
Lemma btree_iter_elem m k h : (k, h) ∈ btree_iter m ↔ m !! k = Some h.
Proof. unfold btree_iter. by rewrite sort_by_perm, elem_of_map_to_list. Qed.
Lemma btree_iter_sorted m : StronglySorted (λ x y, x.1 < y.1) (btree_iter m).
Proof.
  assert (Sorted (cmp_le key_compare) (btree_iter m)) as Hs
    by apply (sort_by_sorted key_compare (CmpOrder0:=key_compare_order)).
  assert (NoDup (btree_iter m).*1) as Hnd
    by (unfold btree_iter; rewrite sort_by_perm; apply NoDup_fst_map_to_list).
  apply (Sorted_StronglySorted) in Hs;
    [|apply (cmp_le_trans key_compare (CmpOrder0:=key_compare_order))].
  induction Hs as [|[k h] l Hs IH Hall]; [constructor|]. apply NoDup_cons in Hnd as [Hk Hnd].
  constructor; [by apply IH|]. rewrite Forall_forall in Hall |- *. intros [k' h'] Hin.
  specialize (Hall _ Hin). unfold cmp_le, key_compare in Hall. simpl in *.
  rewrite Z.compare_gt_iff in Hall. assert (k ≠ k'); [|lia]. intros ->.
  apply Hk, list_elem_of_fmap. by exists (k', h').
Qed.

(** The loop of [ready_for] on the entries at or above [e]. *)
Lemma ready_loop_spec txs (m : gmap Z Hash) entries e :
  StronglySorted (λ x y, x.1 < y.1) entries →
  (∀ k h, (k, h) ∈ entries ↔ m !! k = Some h ∧ e ≤ k) →
  (∀ k h, (k, h) ∈ entries → is_Some (txs !! h)) →
  let rd := ready_loop txs e entries in
  (∀ i tx, rd !! i = Some tx →
     ∃ h, m !! (e + Z.of_nat i) = Some h ∧ txs !! h = Some tx) ∧
  (e + Z.of_nat (length rd) ≤ u64_max → m !! (e + Z.of_nat (length rd)) = None).
Proof.
  revert e. induction entries as [|[k h] entries IH]; intros e Hs Hm Htx; cbn [ready_loop].
  { split; [done|]. simpl. rewrite Z.add_0_r. intros _. destruct (m !! e) as [h|] eqn:He; [|done].
    pose proof (proj2 (Hm e h) (conj He (Z.le_refl e))) as Hin. by apply elem_of_nil in Hin. }
  apply StronglySorted_inv in Hs as [Hs Hall]. rewrite Forall_forall in Hall.
  destruct (proj1 (Hm k h) ltac:(left)) as [Hk Hek].
  destruct (Z.eqb_spec k e) as [->|Hne].
  - destruct (Htx e h ltac:(left)) as [tx Ht]. rewrite Ht.
    destruct (checked_add u64_max e 1) as [next|] eqn:Hc.
    + apply checked_add_Some in Hc as [-> Hmax].
      destruct (IH (e + 1) Hs) as [IH1 IH2].
      * intros k' h'. split.
        -- intros Hin. specialize (Hall _ Hin). simpl in Hall.
           assert ((k', h') ∈ (e, h) :: entries) as Hin' by (by right).
           apply Hm in Hin' as [??]. split; [done|lia].
        -- intros [Hk' ?]. assert ((k', h') ∈ (e, h) :: entries) as Hin by (apply Hm; split; [done|lia]).
           apply elem_of_cons in Hin as [?|?]; [simplify_eq; lia|done].
      * intros k' h' Hin. apply (Htx k'). by right.
      * split.
        -- intros [|i] t; simpl; [intros [= <-]; rewrite Z.add_0_r; eauto|].
           intros Hi. replace (e + Z.of_nat (S i)) with (e + 1 + Z.of_nat i) by lia. by apply IH1.
        -- cbn [length]. rewrite Nat2Z.inj_succ. intros Hle.
           replace (e + Z.succ (Z.of_nat (length (ready_loop txs (e + 1) entries))))
             with (e + 1 + Z.of_nat (length (ready_loop txs (e + 1) entries))) in * by lia. by apply IH2.
    + apply checked_add_None in Hc. split.
      * intros [|i] t; simpl; [intros [= <-]; rewrite Z.add_0_r; eauto|done].
      * simpl. lia.
  - split; [done|]. simpl. rewrite Z.add_0_r. intros _. destruct (m !! e) as [h'|] eqn:He; [|done].
    pose proof (proj2 (Hm e h') (conj He (Z.le_refl e))) as Hin.
    apply elem_of_cons in Hin as [?|Hin]; [by simplify_eq|].
    specialize (Hall _ Hin). simpl in Hall. lia.
Qed.

Lemma delete_all_lookup (l : list Hash) (m : gmap Hash Transaction) h :
  foldl (λ m h, delete h m) m l !! h = if decide (h ∈ l) then None else m !! h.
Proof.
  revert m. induction l as [|x l IH]; intros m; simpl; [done|]. rewrite IH.
  destruct (decide (h ∈ l)); [by rewrite decide_True by (by right)|].
  destruct (decide (h = x)) as [->|].
  - by rewrite lookup_delete_eq, decide_True by left.
  - rewrite lookup_delete_ne by done. rewrite decide_False; [done|]. by intros [|]%elem_of_cons.
Qed.
Lemma delete_all_size (l : list Hash) (m : gmap Hash Transaction) :
  NoDup l → (∀ h, h ∈ l → is_Some (m !! h)) →
  (size (foldl (λ m h, delete h m) m l) + length l = size m)%nat.
Proof.
  revert m. induction l as [|x l IH]; intros m Hnd Hin; simpl; [lia|].
  apply NoDup_cons in Hnd as [Hx Hnd].
  assert (is_Some (m !! x)) as [t Ht] by (apply Hin; left).
  rewrite <-(insert_delete_id m x t Ht) at 2. rewrite map_size_insert_None by apply lookup_delete_eq.
  rewrite <-(IH (delete x m)); [lia|done|]. intros h Hh. rewrite lookup_delete_ne by congruence.
  apply Hin. by right.
Qed.

Section queries.
Context `{!Blake3, !Serialize Transaction}.
Implicit Types (p : Mempool).

Lemma ready_for_spec p a n :
  pool_inv p →
  let rd := ready_for p a n in
  (∀ i tx, rd !! i = Some tx →
     get_by_sender_nonce p a (n + Z.of_nat i) = Some (tx_hash tx, tx)) ∧
  (n + Z.of_nat (length rd) ≤ u64_max → slot p a (n + Z.of_nat (length rd)) = None).
Proof.
  intros I. unfold ready_for, get_by_sender_nonce, slot.
  destruct (mp_by_sender p !! a) as [m|] eqn:Ha; simpl; [|by split].
  destruct (ready_loop_spec (mp_txs p) m (filter (λ e, n ≤ e.1) (btree_iter m)) n) as [H1 H2].
  - apply StronglySorted_filter, btree_iter_sorted.
  - intros k h. rewrite list_elem_of_filter, btree_iter_elem. simpl. naive_solver.
  - intros k h [_ Hin]%list_elem_of_filter. apply btree_iter_elem in Hin.
    destruct (ix_slot _ _ (pi_index _ I) a k h) as (tx & ? & _); [|by eauto].
    unfold mslot. by rewrite Ha.
  - split; [|done]. intros i tx (h & -> & Ht)%H1. simpl. rewrite Ht. simpl.
    by destruct (ix_tx _ _ (pi_index _ I) h tx Ht) as [-> _].
Qed.

Lemma pending_compare_order : CmpOrder pending_compare.
Proof.
  apply (then_with_order
    (λ l r, then_with (tx_gas_price r ?= tx_gas_price l) (address_compare (tx_from l) (tx_from r)))
    (λ l r, tx_nonce l ?= tx_nonce r)
    (CmpOrder0 := then_with_order (λ l r, tx_gas_price r ?= tx_gas_price l)
      (λ l r, address_compare (tx_from l) (tx_from r))
      (CmpOrder0 := cmp_rev_order (λ l r, tx_gas_price l ?= tx_gas_price r)
         (CmpOrder0 := cmp_key_order tx_gas_price Z.compare))
      (CmpOrder1 := cmp_key_order tx_from address_compare))
    (CmpOrder1 := cmp_key_order tx_nonce Z.compare)).
Qed.
Lemma pending_deterministic p txs :
  pool_inv p → txs ≡ₚ (map_to_list (mp_txs p)).*2 → pending_iter txs = pending p.
Proof.
  intros I Hperm. apply (sort_by_unique pending_compare (CmpOrder0:=pending_compare_order)); [done|].
  intros x y Hx Hy Hxy. rewrite Hperm in Hx, Hy.
  apply list_elem_of_fmap in Hx as ([hx x'] & -> & Hx), Hy as ([hy y'] & -> & Hy).
  apply elem_of_map_to_list in Hx, Hy. simpl in *.
  apply then_with_Eq in Hxy as [[_ Hf]%then_with_Eq Hn%Z.compare_eq_iff].
  apply array_compare_Eq in Hf. destruct (ix_tx _ _ (pi_index _ I) hx x' Hx) as [_ Sx].
  destruct (ix_tx _ _ (pi_index _ I) hy y' Hy) as [_ Sy]. rewrite Hf, Hn, Sy in Sx. by simplify_eq.
Qed.
End queries.

Section pruning.
Context `{!Blake3, !Serialize Transaction}.
Implicit Types (p : Mempool).

(** What pruning keeps of the transactions. *)
Definition kept (a : Address) (n : Z) (tx : Transaction) : Prop := ¬ (tx_from tx = a ∧ tx_nonce tx < n).
#[export] Instance kept_dec a n tx : Decision (kept a n tx).
Proof. unfold kept. apply _. Defined.

Definition stale_hashes (m : gmap Z Hash) (n : Z) : list Hash :=
  (filter (λ e, e.1 < n) (btree_iter m)).*2.
Lemma stale_elem p a m n h :
  pool_inv p → mp_by_sender p !! a = Some m →
  h ∈ stale_hashes m n ↔ ∃ tx, mp_txs p !! h = Some tx ∧ ¬ kept a n tx.
Proof.
  intros I Ha. unfold stale_hashes, kept. rewrite list_elem_of_fmap. split.
  - intros ([k h'] & -> & [Hk Hin]%list_elem_of_filter). apply btree_iter_elem in Hin. simpl in *.
    destruct (ix_slot _ _ (pi_index _ I) a k h') as (tx & Ht & <- & <-); [|naive_solver].
    unfold mslot. by rewrite Ha.
  - intros (tx & Ht & Hd). apply dec_stable in Hd as [<- Hn].
    destruct (ix_tx _ _ (pi_index _ I) h tx Ht) as [_ Hslot]. unfold mslot in Hslot.
    rewrite Ha in Hslot. exists (tx_nonce tx, h). split; [done|].
    apply list_elem_of_filter. split; [done|]. by apply btree_iter_elem.
Qed.
Lemma stale_nodup p a m n : pool_inv p → mp_by_sender p !! a = Some m → NoDup (stale_hashes m n).
Proof.
  intros I Ha. unfold stale_hashes. apply NoDup_fmap_2_strong.
  - intros [k1 h1] [k2 h2] [_ H1]%list_elem_of_filter [_ H2]%list_elem_of_filter ?. simpl in *. subst.
    apply btree_iter_elem in H1, H2.
    destruct (ix_slot _ _ (pi_index _ I) a k1 h2) as (t1 & Ht1 & _ & <-); [unfold mslot; by rewrite Ha|].
    destruct (ix_slot _ _ (pi_index _ I) a k2 h2) as (t2 & Ht2 & _ & <-); [unfold mslot; by rewrite Ha|].
    by simplify_eq.
  - apply NoDup_filter. unfold btree_iter. rewrite sort_by_perm. apply NoDup_map_to_list.
Qed.
Lemma prune_txs p a m n :
  pool_inv p → mp_by_sender p !! a = Some m →
  foldl (λ txs h, delete h txs) (mp_txs p) (stale_hashes m n)
  = filter (λ e, kept a n e.2) (mp_txs p).
Proof.
  intros I Ha. apply map_eq. intros h. rewrite delete_all_lookup.
  apply option_eq. intros tx. rewrite map_lookup_filter_Some. simpl.
  case_decide as Hin; rewrite (stale_elem p a m n h I Ha) in Hin.
  - destruct Hin as (t & Ht & Hk). split; [done|]. intros [Ht' Hk']. by simplify_eq.
  - split; [|by intros [??]]. intros Ht. split; [done|]. apply dec_stable. naive_solver.
Qed.
Lemma prune_index p a n :
  pool_inv p →
  index_ok (filter (λ e, kept a n e.2) (mp_txs p))
    (remove_if_empty a (get_mut a (filter (λ e : Z * Hash, n ≤ e.1)) (mp_by_sender p))).
Proof.
  intros I. pose proof (pi_index _ I) as [X1 X2 X3].
  assert (∀ b k h, mslot (remove_if_empty a (get_mut a (filter (λ e : Z * Hash, n ≤ e.1))
    (mp_by_sender p))) b k = Some h ↔ mslot (mp_by_sender p) b k = Some h ∧ ¬ (b = a ∧ k < n)) as Hm.
  { intros b k h. rewrite mslot_remove_if_empty, mslot_get_mut. case_decide as Hb; [subst|].
    2: { split; [by intros ?; split; [|intros [??]]|by intros [??]]. }
    unfold mslot. destruct (mp_by_sender p !! a) as [m|]; simpl; [|by split; [|intros [??]]].
    rewrite map_lookup_filter_Some. simpl. split.
    - intros [? ?]. split; [done|lia].
    - intros [? Hn]. split; [done|]. apply Z.le_ngt. intros ?. by apply Hn. }
  split.
  - intros h tx [Ht Hk]%map_lookup_filter_Some. destruct (X1 h tx Ht). split; [done|]. by apply Hm.
  - intros b k h [Hs Hk]%Hm. destruct (X2 b k h Hs) as (tx & Ht & <- & <-). exists tx.
    split; [|done]. by apply map_lookup_filter_Some.
  - apply remove_if_empty_nonempty. intros b Hb. rewrite get_mut_ne by done. apply X3.
Qed.
Lemma prune_run p a n :
  pool_inv p →
  let '(p', count) := prune_below_nonce a n p in
  pool_inv p' ∧ mp_config p' = mp_config p ∧
  mp_txs p' = filter (λ e, kept a n e.2) (mp_txs p) ∧ count = mempool_len p - mempool_len p'.
Proof.
  intros I. unfold prune_below_nonce. destruct (mp_by_sender p !! a) as [m|] eqn:Ha.
  - change (filter (λ e, e.1 < n) (btree_iter m)).*2 with (stale_hashes m n). simpl.
    assert (filter (λ e, kept a n e.2) (mp_txs p) ⊆ mp_txs p) as Hsub by apply map_filter_subseteq.
    pose proof (delete_all_size (stale_hashes m n) (mp_txs p) (stale_nodup p a m n I Ha)) as Hsize.
    unfold set_txs, set_by_sender, mempool_len. simpl. rewrite (prune_txs p a m n I Ha) in Hsize |- *.
    split_and!; [|done|done|].
    + pose proof (prune_index p a n I). destruct I as [X C L S A]. split; simpl; [done|done| | |].
      * unfold mempool_len in *. simpl. apply map_subseteq_size in Hsub. lia.
      * intros b. rewrite mlen_remove_if_empty. etrans; [apply mlen_get_mut_le|apply S].
        intros x. apply map_subseteq_size, map_filter_subseteq.
      * intros h tx [Ht _]%map_lookup_filter_Some. by apply (A h).
    + rewrite <-Hsize; [lia|]. intros h Hh%(stale_elem p a m n h I Ha). naive_solver.
  - split_and!; try done; [|lia]. symmetry. apply map_filter_id. intros h tx Ht [Hf Hn].
    destruct (ix_tx _ _ (pi_index _ I) h tx Ht) as [_ Hslot]. unfold mslot in Hslot. simpl in Hf.
    by rewrite Hf, Ha in Hslot.
Qed.
End pruning.

(** ** Reachable pools *)

Lemma config_validate_Ok c :
  config_validate c = Ok () ↔ max_pending c ≠ 0 ∧ max_per_sender c ≠ 0.
Proof. unfold config_validate. rewrite !guard_Ok, !Z.eqb_neq. naive_solver. Qed.

Section reachable.
Context `{!Blake3, !Serialize Transaction}.

Inductive pool_step : Mempool → Mempool → Prop :=
| step_admit p p' tx r : admit_tx tx p = (p', r) → pool_step p p'
| step_remove p h : pool_step p (mempool_remove h p).1
| step_prune p a n : pool_step p (prune_below_nonce a n p).1.

Lemma pool_step_inv p p' : pool_step p p' → pool_inv p → pool_inv p'.
Proof.
  intros [q q' tx r Hr|q h|q a n] I.
  - by apply (admit_run tx q q' r).
  - by apply mempool_remove_inv.
  - pose proof (prune_run q a n I) as Hp. by destruct (prune_below_nonce a n q), Hp.
Qed.
Lemma empty_pool_inv c :
  0 < max_pending c → 0 < max_per_sender c →
  pool_inv {| mp_config := c; mp_txs := ∅; mp_by_sender := ∅ |}.
Proof.
  intros H1 H2. split; simpl.
  - by split; intros *; unfold mslot; rewrite ?lookup_empty.
  - done.
  - unfold mempool_len. simpl. rewrite map_size_empty. lia.
  - intros a. unfold mlen. rewrite lookup_empty. simpl. lia.
  - intros h tx. by rewrite lookup_empty.
Qed.
Lemma mempool_new_inv c :
  0 ≤ max_pending c → 0 ≤ max_per_sender c → pool_inv (mempool_new c).
Proof.
  intros H1 H2. unfold mempool_new, try_new. destruct (config_validate c) as [[]|e] eqn:Hc; simpl.
  - apply config_validate_Ok in Hc as [??]. apply empty_pool_inv; lia.
  - by apply empty_pool_inv.
Qed.
End reachable.

(** ** Claims *)

(** C18. Admission, on every branch of the code. It accepts exactly the known
    transactions and the admissible ones whose slot is taken or whose sender has
    budget left. A known one changes nothing; an occupied slot changes hands only
    for a strictly higher gas price; a free slot is filled, and when the pool is full
    the lowest-priority transaction pending so far is evicted for it; what was
    displaced is reported; and a rejected submission leaves the pool as it was. The
    incoming transaction is not compared with the evicted one, so that a full pool
    may trade a transaction for a cheaper one: see [full_pool_takes_cheaper]. *)
Theorem admit_spec `{!Blake3, !Serialize Transaction} (p p' : Mempool) (tx : Transaction)
    (r : result MempoolError Admission) :
  pool_inv p → admit_tx tx p = (p', r) →
  (is_ok r = true ↔ admit_ok p tx) ∧
  match r with Ok a => admits p tx (mp_txs p') a | Err _ => p' = p end.
Proof. intros I Hr. by destruct (admit_run tx p p' r I Hr) as (_ & _ & ? & ?). Qed.
Lemma admit_spec_witness :
  let _ := codec_serialize c_tx in
  is_ok (admit_tx sample_tx (mempool_new mempool_config_default)).2 = true.
Proof.
  intros ser. destruct (admit_tx sample_tx (mempool_new mempool_config_default)) as [p' r] eqn:Hr.
  apply (@admit_spec ref_blake3 ser _ _ _ _ (mempool_new_inv mempool_config_default ltac:(done) ltac:(done)) Hr).
  split; [by vm_compute|]. right. split; [|by right; vm_compute]. by split_and!; vm_compute.
Defined.

(** C22. Every pool reachable from a fresh one by any sequence of admissions,
    removals and prunings satisfies the pool invariant: one transaction per
    sender and nonce, an exact sender index without empty entries, the global
    and the per-sender caps, and only admissible transactions. *)
Theorem pool_reachable_inv `{!Blake3, !Serialize Transaction} (c : MempoolConfig) (p : Mempool) :
  0 ≤ max_pending c → 0 ≤ max_per_sender c → rtc pool_step (mempool_new c) p → pool_inv p.
Proof.
  intros H1 H2 Hsteps. pose proof (mempool_new_inv c H1 H2) as I. revert I.
  induction Hsteps as [|x y z Hxy _ IH]; [done|]. intros I. by apply IH, (pool_step_inv x).
Qed.
Lemma pool_reachable_inv_witness :
  let _ := codec_serialize c_tx in
  pool_inv (admit_tx sample_tx (mempool_new mempool_config_default)).1.
Proof.
  intros ser. apply (@pool_reachable_inv ref_blake3 ser mempool_config_default); [done..|].
  apply rtc_once. eapply step_admit. apply surjective_pairing.
Defined.

(** Proposal order: the pending list is a permutation of the pool sorted by
    descending gas price, then sender, then nonce, and is the same list whatever
    order the hash map yields the transactions in. *)
Theorem pending_order `{!Blake3, !Serialize Transaction} (p : Mempool) (txs : list Transaction) :
  pool_inv p → txs ≡ₚ (map_to_list (mp_txs p)).*2 →
  pending_iter txs = pending p ∧ pending p ≡ₚ txs ∧ Sorted (cmp_le pending_compare) (pending p).
Proof.
  intros I Hperm. split_and!.
  - by apply pending_deterministic.
  - rewrite Hperm. apply sort_by_perm.
  - apply (sort_by_sorted pending_compare (CmpOrder0:=pending_compare_order)).
Qed.
Definition sample_tx2 : Transaction :=
  {| tx_type := Transfer; tx_nonce := 1; tx_from := Address_ZERO; tx_to := Some Address_ZERO;
     tx_value := 5; tx_gas_price := 9; tx_gas_limit := 21000; tx_data := []; tx_chain_id := 1;
     tx_signature := EMPTY |}.
Definition sample_pool `{!Serialize Transaction} : Mempool :=
  (admit_tx sample_tx2 (admit_tx sample_tx (mempool_new mempool_config_default)).1).1.
Lemma sample_pool_inv `{!Serialize Transaction} : pool_inv sample_pool.
Proof.
  apply (pool_step_inv (admit_tx sample_tx (mempool_new mempool_config_default)).1).
  { eapply step_admit. apply surjective_pairing. }
  apply (pool_step_inv (mempool_new mempool_config_default)).
  { eapply step_admit. apply surjective_pairing. }
  by apply mempool_new_inv.
Qed.
Lemma pending_order_witness :
  let _ := codec_serialize c_tx in
  pending_iter [sample_tx; sample_tx2] = pending sample_pool ∧
  pending sample_pool = [sample_tx2; sample_tx].
Proof.
  intros ser. split; [|by vm_compute].
  apply (@pending_order ref_blake3 ser sample_pool [sample_tx; sample_tx2]).
  - apply sample_pool_inv.
  - apply (bool_decide_unpack _). by vm_compute.
Defined.

(** ** Queries by scanning

    What the sender index is for: the same answers without it, from any
    enumeration of the pending transactions. *)
Definition scan_slot (txs : list Transaction) (a : Address) (n : Z) : option Transaction :=
  snd <$> list_find (λ tx, tx_from tx = a ∧ tx_nonce tx = n) txs.
Fixpoint scan_ready (fuel : nat) (txs : list Transaction) (a : Address) (n : Z) : list Transaction :=
  match fuel with
  | O => []
  | S fuel =>
      match scan_slot txs a n with
      | Some tx => tx :: (if n <? u64_max then scan_ready fuel txs a (n + 1) else [])
      | None => []
      end
  end.

Section scanning.
Context `{!Blake3, !Serialize Transaction}.
Implicit Types (p : Mempool).

Lemma pending_elem p txs tx :
  pool_inv p → txs ≡ₚ (map_to_list (mp_txs p)).*2 → tx ∈ txs ↔ mp_txs p !! tx_hash tx = Some tx.
Proof.
  intros I ->. rewrite list_elem_of_fmap. split.
  - intros ([h t] & -> & Ht%elem_of_map_to_list). simpl. by rewrite (proj1 (ix_tx _ _ (pi_index _ I) h t Ht)).
  - intros Ht. exists (tx_hash tx, tx). by rewrite elem_of_map_to_list.
Qed.
Lemma scan_slot_index p txs a n :
  pool_inv p → txs ≡ₚ (map_to_list (mp_txs p)).*2 →
  get_by_sender_nonce p a n = (λ tx, (tx_hash tx, tx)) <$> scan_slot txs a n.
Proof.
  intros I Hp. pose proof (pi_index _ I) as X. unfold scan_slot.
  assert (get_by_sender_nonce p a n = (h ← mslot (mp_by_sender p) a n; tx ← mp_txs p !! h; Some (h, tx))) as ->.
  { unfold get_by_sender_nonce, mslot. by destruct (mp_by_sender p !! a). }
  destruct (list_find _ txs) as [[i tx]|] eqn:Hf; simpl.
  - apply list_find_Some in Hf as (Hi%list_elem_of_lookup_2 & [<- <-] & _).
    apply (pending_elem p) in Hi; [|done|done]. destruct (ix_tx _ _ X _ _ Hi) as [_ ->]. simpl. by rewrite Hi.
  - destruct (mslot (mp_by_sender p) a n) as [h|] eqn:Hs; [|done].
    destruct (ix_slot _ _ X _ _ _ Hs) as (tx & Ht & Hfrom & Hn).
    apply list_find_None in Hf. rewrite Forall_forall in Hf. destruct (Hf tx); [|done].
    apply (pending_elem p); [done|done|]. by rewrite (proj1 (ix_tx _ _ X h tx Ht)).
Qed.
Lemma ready_loop_length txs e entries :
  e ≤ u64_max → e + Z.of_nat (length (ready_loop txs e entries)) ≤ u64_max + 1.
Proof.
  revert e. induction entries as [|[k h] entries IH]; intros e He; cbn [ready_loop]; [simpl; lia|].
  destruct (k =? e); [|simpl; lia]. destruct (txs !! h); [|simpl; lia].
  destruct (checked_add u64_max e 1) as [next|] eqn:Hc; [|simpl; lia].
  apply checked_add_Some in Hc as [-> Hmax]. specialize (IH (e + 1) ltac:(lia)). cbn [length]. lia.
Qed.
(** The scan returns every run that a slot lookup describes. *)
Lemma scan_ready_run fuel txs a n rd :
  (length rd ≤ fuel)%nat → n ≤ u64_max → n + Z.of_nat (length rd) ≤ u64_max + 1 →
  (∀ i tx, rd !! i = Some tx → scan_slot txs a (n + Z.of_nat i) = Some tx) →
  (n + Z.of_nat (length rd) ≤ u64_max → scan_slot txs a (n + Z.of_nat (length rd)) = None) →
  scan_ready fuel txs a n = rd.
Proof.
  revert n rd. induction fuel as [|fuel IH]; intros n rd Hf Hn Hmax Hrd Hstop.
  { by destruct rd; [|simpl in Hf; lia]. }
  cbn [scan_ready]. destruct rd as [|tx rd]; simpl in *.
  { rewrite Z.add_0_r in Hstop. by rewrite Hstop. }
  pose proof (Hrd 0%nat tx eq_refl) as H0. rewrite Z.add_0_r in H0. rewrite H0. f_equal.
  destruct (Z.ltb_spec n u64_max).
  - apply IH; [lia|lia|lia| |].
    + intros i t Hi. specialize (Hrd (S i) t Hi). by replace (n + 1 + Z.of_nat i) with (n + Z.of_nat (S i)) by lia.
    + intros Hle. replace (n + 1 + Z.of_nat (length rd)) with (n + Z.of_nat (S (length rd))) in * by lia. auto.
  - destruct rd; [done|simpl in Hmax; lia].
Qed.
(** The run is made of distinct pending transactions. *)
Lemma ready_for_short p txs a n :
  pool_inv p → txs ≡ₚ (map_to_list (mp_txs p)).*2 → (length (ready_for p a n) ≤ length txs)%nat.
Proof.
  intros I Hp. destruct (ready_for_spec p a n I) as [Hrd _].
  assert (∀ i tx, ready_for p a n !! i = Some tx → tx ∈ txs ∧ tx_nonce tx = n + Z.of_nat i) as Hin.
  { intros i tx Hi. specialize (Hrd i tx Hi). rewrite (scan_slot_index p txs) in Hrd by done.
    unfold scan_slot in Hrd. destruct (list_find _ txs) as [[j t]|] eqn:Hf; [|done]. simpl in Hrd. simplify_eq.
    apply list_find_Some in Hf as (Ht%list_elem_of_lookup_2 & [_ Hn] & _). done. }
  apply submseteq_length, NoDup_submseteq.
  - apply NoDup_alt. intros i j tx Hi%Hin Hj%Hin. destruct Hi, Hj. lia.
  - intros tx [i Hi]%list_elem_of_lookup. by apply (Hin i).
Qed.
Lemma sender_len_scan p txs a :
  pool_inv p → txs ≡ₚ (map_to_list (mp_txs p)).*2 →
  sender_len p a = Z.of_nat (length (filter (λ tx, tx_from tx = a) txs)).
Proof.
  intros I Hp. pose proof (pi_index _ I) as X.
  set (m := default ∅ (mp_by_sender p !! a) : gmap Z Hash).
  assert (sender_len p a = Z.of_nat (length (map_to_list m).*2)) as ->.
  { unfold sender_len, m. rewrite length_fmap, length_map_to_list. by destruct (mp_by_sender p !! a). }
  assert (∀ k h, m !! k = Some h ↔ mslot (mp_by_sender p) a k = Some h) as Hm.
  { intros k h. unfold m. by rewrite mslot_default. }
  rewrite <-(length_fmap tx_hash (filter _ txs)). f_equal. apply Permutation_length, NoDup_Permutation.
  - apply NoDup_alt. intros i j h Hi Hj. rewrite list_lookup_fmap in Hi, Hj.
    apply fmap_Some in Hi as ([k h1] & Hi & ->), Hj as ([k' h2] & Hj & Hh). simpl in *. subst h2.
    pose proof (list_elem_of_lookup_2 _ _ _ Hi) as Hki%elem_of_map_to_list%Hm.
    pose proof (list_elem_of_lookup_2 _ _ _ Hj) as Hkj%elem_of_map_to_list%Hm.
    destruct (ix_slot _ _ X _ _ _ Hki) as (t & Ht & _ & <-), (ix_slot _ _ X _ _ _ Hkj) as (t' & Ht' & _ & <-).
    rewrite Ht in Ht'. injection Ht' as <-.
    eapply (NoDup_lookup (map_to_list m)); [apply NoDup_map_to_list|exact Hi|exact Hj].
  - apply (NoDup_fmap_2_strong tx_hash).
    + intros x y [_ Hx]%list_elem_of_filter [_ Hy]%list_elem_of_filter Hxy.
      apply (pending_elem p txs x I Hp) in Hx. apply (pending_elem p txs y I Hp) in Hy. congruence.
    + apply NoDup_filter. rewrite Hp. apply NoDup_fmap_2_strong; [|apply NoDup_map_to_list].
      intros [h1 t1] [h2 t2] Hx%elem_of_map_to_list Hy%elem_of_map_to_list Hxy. simpl in Hxy. subst t2.
      by rewrite <-(proj1 (ix_tx _ _ X _ _ Hx)), <-(proj1 (ix_tx _ _ X _ _ Hy)).
  - intros h. rewrite !list_elem_of_fmap. split.
    + intros ([k h'] & -> & (t & Ht & Hfrom & _)%elem_of_map_to_list%Hm%(ix_slot _ _ X)). simpl.
      exists t. pose proof (proj1 (ix_tx _ _ X _ _ Ht)) as Hh. rewrite list_elem_of_filter. split_and!; try done.
      apply (pending_elem p); [done|done|by rewrite Hh].
    + intros (t & -> & [Hfrom Ht]%list_elem_of_filter). apply (pending_elem p txs t I Hp) in Ht.
      exists (tx_nonce t, tx_hash t). split; [done|]. apply elem_of_map_to_list, Hm. rewrite <-Hfrom.
      apply (ix_tx _ _ X _ _ Ht).
Qed.
End scanning.

(** C26. The sender index answers what a scan of the whole pool would: over any
    enumeration of the pending transactions, a slot lookup is a linear search for
    the sender and nonce, a sender's count is the number of their transactions,
    and the executable run from a nonce is found by searching for each nonce in
    turn. *)
Theorem index_equals_scan `{!Blake3, !Serialize Transaction} (p : Mempool) (txs : list Transaction)
    (a : Address) (n : Z) :
  pool_inv p → txs ≡ₚ (map_to_list (mp_txs p)).*2 → is_u64 n →
  get_by_sender_nonce p a n = (λ tx, (tx_hash tx, tx)) <$> scan_slot txs a n ∧
  sender_len p a = Z.of_nat (length (filter (λ tx, tx_from tx = a) txs)) ∧
  ready_for p a n = scan_ready (length txs) txs a n.
Proof.
  intros I Hp Hn. split_and!; [by apply scan_slot_index|by apply sender_len_scan|].
  destruct (ready_for_spec p a n I) as [Hrd Hstop]. symmetry. apply scan_ready_run.
  - by apply ready_for_short.
  - width.
  - unfold ready_for. destruct (mp_by_sender p !! a); [|simpl; width]. apply ready_loop_length. width.
  - intros i tx Hi. specialize (Hrd i tx Hi). rewrite (scan_slot_index p txs) in Hrd by done.
    destruct (scan_slot _ _ _); simpl in Hrd; by simplify_eq.
  - intros Hle. specialize (Hstop Hle). destruct (scan_slot txs a _) as [tx|] eqn:Hs; [|done].
    pose proof (scan_slot_index p txs a (n + Z.of_nat (length (ready_for p a n))) I Hp) as Hq.
    rewrite Hs in Hq. unfold get_by_sender_nonce, slot in *.
    destruct (mp_by_sender p !! a) as [m|]; [|done]. simpl in *. by rewrite Hstop in Hq.
Qed.
Lemma index_equals_scan_witness :
  let _ := codec_serialize c_tx in
  ready_for sample_pool Address_ZERO 0 = scan_ready 2 [sample_tx; sample_tx2] Address_ZERO 0.
Proof.
  intros ser. apply (@index_equals_scan ref_blake3 ser sample_pool [sample_tx; sample_tx2] Address_ZERO 0).
  - apply sample_pool_inv.
  - apply (bool_decide_unpack _). by vm_compute.
  - width.
Defined.

(** [ready_for] returns the longest executable run: its [i]-th element is
    the pending transaction of the sender at nonce [next_nonce + i], and the
    nonce after the last one is not pending (or does not exist). *)
Theorem ready_for_contiguous `{!Blake3, !Serialize Transaction} (p : Mempool) (a : Address) (n : Z) :
  pool_inv p →
  let rd := ready_for p a n in
  (∀ i tx, rd !! i = Some tx →
     get_by_sender_nonce p a (n + Z.of_nat i) = Some (tx_hash tx, tx)) ∧
  (n + Z.of_nat (length rd) ≤ u64_max → slot p a (n + Z.of_nat (length rd)) = None).
Proof. apply ready_for_spec. Qed.
Lemma ready_for_contiguous_witness :
  let _ := codec_serialize c_tx in
  ready_for sample_pool Address_ZERO 0 = [sample_tx; sample_tx2] ∧
  slot sample_pool Address_ZERO 2 = None.
Proof.
  intros ser. assert (ready_for sample_pool Address_ZERO 0 = [sample_tx; sample_tx2]) as Hrd
    by (by vm_compute). split; [done|].
  pose proof (proj2 (@ready_for_contiguous ref_blake3 ser sample_pool Address_ZERO 0
    sample_pool_inv)) as H. rewrite Hrd in H. by apply H.
Defined.

(** Pruning drops exactly the sender's transactions below the given nonce,
    reports how many there were, and keeps the pool invariant. *)
Theorem prune_exact `{!Blake3, !Serialize Transaction} (p : Mempool) (a : Address) (n : Z) :
  pool_inv p →
  let '(p', count) := prune_below_nonce a n p in
  pool_inv p' ∧ count = mempool_len p - mempool_len p' ∧
  ∀ h tx, mp_txs p' !! h = Some tx ↔
    mp_txs p !! h = Some tx ∧ ¬ (tx_from tx = a ∧ tx_nonce tx < n).
Proof.
  intros I. pose proof (prune_run p a n I) as Hp. destruct (prune_below_nonce a n p) as [p' c].
  destruct Hp as (? & _ & -> & ?). split_and!; try done. intros h tx. apply map_lookup_filter_Some.
Qed.
Lemma prune_exact_witness :
  let _ := codec_serialize c_tx in
  let '(p', count) := prune_below_nonce Address_ZERO 1 sample_pool in
  count = mempool_len sample_pool - mempool_len p'.
Proof.
  intros ser. pose proof (@prune_exact ref_blake3 ser sample_pool Address_ZERO 1 sample_pool_inv) as H.
  destruct (prune_below_nonce Address_ZERO 1 sample_pool). apply H.
Defined.

(** A full pool evicts its cheapest transaction even when the incoming one is
    cheaper still: the lowest-gas-price transaction then is the one that stays. *)
Lemma full_pool_takes_cheaper :
  let _ := codec_serialize c_tx in
  let c := {| max_pending := 1; max_per_sender := 2; min_gas_price := 1; max_tx_data_bytes := 0 |} in
  let p := (admit_tx sample_tx2 (mempool_new c)).1 in
  ∃ p', admit_tx sample_tx p
        = (p', Ok {| adm_hash := tx_hash sample_tx; adm_accepted := true;
                     adm_displaced := Some sample_tx2 |}) ∧
        tx_gas_price sample_tx < tx_gas_price sample_tx2.
Proof.
  intros ser c p. exists (admit_tx sample_tx p).1. split; [|done].
  rewrite (surjective_pairing (admit_tx sample_tx p)) at 1.
  apply (f_equal2 pair); [done|by vm_compute].
Qed.
