(* ===== verification/Storage.v ===== *)
(** * [subhost-storage]

    The crash-safe ledger store of [crates/subhost-storage/src/lib.rs]. The
    operating system is explicit: a [Disk] has the ledger file, the temporary
    file next to it and the directory entry a power loss may bring back, and an
    oracle [io] says which operations fail. [persist] is the sequence of file
    operations the code performs, so that a crash after any prefix of them can
    be examined. *)

From Stdlib Require Import String.
From S2P Require Import Prelude Order Text Deps Bincode Core WorldState.

Definition MAX_LEDGER_BYTES : Z := 64 * 1024 * 1024.
Definition LEDGER_FILE_NAME : string := "node-state.bin".
Definition LEDGER_MAGIC : array 8 := default (zeros 8) (to_array 8 (str_bytes "SUBHOST1")).
Definition LEDGER_FORMAT_VERSION : Z := 1.

Record LedgerSnapshot := {
  ldg_chain_id : Z;
  ldg_state : StateSnapshot;
  ldg_blocks : list Block;
  ldg_receipts : list Receipt
}.
Record LedgerEnvelope := {
  env_magic : array 8;
  env_version : Z;
  env_checksum : array 32;
  env_payload : bytes
}.
Record RestoredLedger := {
  rst_state : State;
  rst_blocks : list Block;
  rst_receipts : list Receipt
}.
#[export] Instance RestoredLedger_eq_dec : EqDecision RestoredLedger.
Proof. solve_decision. Defined.
Definition height (l : RestoredLedger) : Z :=
  from_option (λ b, hdr_height (blk_header b)) 0 (last (rst_blocks l)).

Inductive StorageError :=
| InvalidChainId
| ChainMismatch (expected got : Z)
| TooLarge (size max : Z)
| UnsupportedFormat
| UnsupportedVersion (version : Z)
| ChecksumMismatch
| Invalid (message : string)
| Decode (message : string)
| Encode (message : string)
| MissingParentDirectory
| Io (path source : string).
(** [impl Display for StorageError] *)
Definition storage_error_to_string (e : StorageError) : string :=
  match e with
  | InvalidChainId => "chain ID cannot be zero"
  | ChainMismatch expected got =>
      "ledger chain ID " +:+ fmt_dec got +:+ " does not match configured chain ID "
      +:+ fmt_dec expected
  | TooLarge size max =>
      "ledger is " +:+ fmt_dec size +:+ " bytes, above the " +:+ fmt_dec max +:+ " byte limit"
  | UnsupportedFormat => "unsupported ledger format"
  | UnsupportedVersion v => "unsupported ledger format version: " +:+ fmt_dec v
  | ChecksumMismatch => "ledger checksum mismatch"
  | Invalid message => "ledger is invalid: " +:+ message
  | Decode message => "cannot decode ledger: " +:+ message
  | Encode message => "cannot encode ledger: " +:+ message
  | MissingParentDirectory => "ledger path has no parent directory"
  | Io path source => "ledger I/O failed for " +:+ path +:+ ": " +:+ source
  end.

(** [path] is [<dir>/node-state.bin]; its parent is [dir]. *)
Record LedgerStore := { ls_dir : option string; ls_chain_id : Z }.
Definition ledger_path (dir : string) : string := dir +:+ "/" +:+ LEDGER_FILE_NAME.

(** ** The file system *)

Record File := { f_bytes : bytes; f_synced : bool }.
Record Disk := {
  d_target : option File;
  d_temp : option File;
  (** The directory entry before a rename that is not yet durable. *)
  d_shadow : option (option File)
}.

Inductive FsOp :=
| CreateDirAll
| NewTemp
| WriteAll (data : bytes)
| SyncFile
| SetPermissions
| RenameOver
| SyncDir.
Definition fs_exec (op : FsOp) (d : Disk) : Disk :=
  match op with
  | CreateDirAll | SetPermissions => d
  | NewTemp => {| d_target := d_target d; d_temp := Some {| f_bytes := []; f_synced := false |};
                  d_shadow := d_shadow d |}
  | WriteAll data =>
      {| d_target := d_target d;
         d_temp := (λ f, {| f_bytes := f_bytes f ++ data; f_synced := false |}) <$> d_temp d;
         d_shadow := d_shadow d |}
  | SyncFile =>
      {| d_target := d_target d;
         d_temp := (λ f, {| f_bytes := f_bytes f; f_synced := true |}) <$> d_temp d;
         d_shadow := d_shadow d |}
  | RenameOver =>
      match d_temp d with
      | None => d
      | Some f => {| d_target := Some f; d_temp := None; d_shadow := Some (d_target d) |}
      end
  | SyncDir => {| d_target := d_target d; d_temp := d_temp d; d_shadow := None |}
  end.
(** An operation that fails has no effect on the target; dropping the
    [NamedTempFile] deletes the temporary file. *)
Definition drop_temp (d : Disk) : Disk :=
  {| d_target := d_target d; d_temp := None; d_shadow := d_shadow d |}.

(** [io op] is the error the operating system returns for [op], if any. *)
Fixpoint run_ops (io : FsOp → option string) (path_of : FsOp → string) (ops : list FsOp) (d : Disk)
  : Disk * result StorageError unit :=
  match ops with
  | [] => (d, Ok ())
  | op :: ops =>
      match io op with
      | Some e => (drop_temp d, Err (Io (path_of op) e))
      | None => run_ops io path_of ops (fs_exec op d)
      end
  end.

Definition persist_ops (encoded : bytes) : list FsOp :=
  [NewTemp; WriteAll encoded; SyncFile; SetPermissions; RenameOver; SyncDir].
Definition op_path (dir : string) (op : FsOp) : string :=
  match op with
  | CreateDirAll | NewTemp | SyncDir => dir
  | WriteAll _ | SyncFile | SetPermissions | RenameOver => ledger_path dir
  end.

(** ** The store *)

Definition ephemeral (chain_id : Z) : result StorageError LedgerStore :=
  _ ← fail_if (chain_id =? 0) InvalidChainId;
  Ok {| ls_dir := None; ls_chain_id := chain_id |}.
(** [mkdir] is what [create_dir_all] returned. *)
Definition open (chain_id : Z) (data_dir : string) (mkdir : option string)
  : result StorageError LedgerStore :=
  _ ← fail_if (chain_id =? 0) InvalidChainId;
  match mkdir with
  | Some e => Err (Io data_dir e)
  | None => Ok {| ls_dir := Some data_dir; ls_chain_id := chain_id |}
  end.
Definition exists_ (store : LedgerStore) (d : Disk) : bool :=
  match ls_dir store with None => false | Some _ => bool_decide (d_target d ≠ None) end.
Definition empty_ledger (store : LedgerStore) : RestoredLedger :=
  {| rst_state := with_chain_id (ls_chain_id store); rst_blocks := []; rst_receipts := [] |}.

Section storage.
Context `{!Blake3, !Hex, !Serialize Transaction, !Serialize BlockHeader, !Serialize (list Hash),
  !Serialize (Hash * Z * Z * Z), !Serialize StateSnapshot,
  !Serialize LedgerSnapshot, !Deserialize LedgerSnapshot,
  !Serialize LedgerEnvelope, !Deserialize LedgerEnvelope}.

Definition receipt_root (h : Hash) (height gas_used : Z) : Hash :=
  from_data (bincode (h, height, gas_used, receipt_status_u8 Success)).

(** The loop over the blocks, from [index] on with the hash of the block before. *)
Fixpoint validate_blocks (chain_id index : Z) (parent : Hash) (blocks : list Block)
  : result StorageError unit :=
  match blocks with
  | [] => Ok ()
  | block :: blocks =>
      let hdr := blk_header block in
      expected_height ← ok_or (checked_add u64_max index 1) (Invalid "block height overflow");
      match blk_transactions block with
      | [tx] =>
          _ ← fail_if (negb (hdr_height hdr =? expected_height)
                       || negb (bool_decide (hdr_parent_hash hdr = parent))
                       || negb (hdr_chain_id hdr =? chain_id)
                       || (hdr_gas_limit hdr <? hdr_gas_used hdr))
                (Invalid ("invalid block sequence at height " +:+ fmt_dec expected_height));
          let h := tx_hash tx in
          _ ← fail_if (negb (bool_decide (hdr_tx_root hdr = tx_root_of [h]))
                       || negb (tx_chain_id tx =? chain_id)
                       || negb (hdr_gas_used hdr =? tx_gas_limit tx)
                       || negb (bool_decide (hdr_receipt_root hdr
                                  = receipt_root h (hdr_height hdr) (hdr_gas_used hdr))))
                (Invalid ("invalid block commitment at height " +:+ fmt_dec expected_height));
          validate_blocks chain_id (index + 1) (block_hash block) blocks
      | _ => Err (Invalid ("invalid block sequence at height " +:+ fmt_dec expected_height))
      end
  end.

Definition find_block (blocks : list Block) (h : Hash) : option Block :=
  head (filter (λ b, block_hash b = h) blocks).
Fixpoint validate_receipts (blocks : list Block) (seen : gset Hash) (receipts : list Receipt)
  : result StorageError unit :=
  match receipts with
  | [] => Ok ()
  | receipt :: receipts =>
      _ ← fail_if (bool_decide (rcpt_block_hash receipt ∈ seen))
            (Invalid "multiple receipts reference the same block");
      block ← ok_or (find_block blocks (rcpt_block_hash receipt))
                (Invalid "receipt references an unknown block");
      _ ← fail_if (negb (rcpt_block_height receipt =? hdr_height (blk_header block))
                   || negb (existsb (λ tx, bool_decide (tx_hash tx = rcpt_tx_hash receipt))
                              (blk_transactions block))
                   || negb (bool_decide (rcpt_status receipt = Success))
                   || negb (rcpt_gas_used receipt =? hdr_gas_used (blk_header block))
                   || negb (bool_decide (receipt_root (rcpt_tx_hash receipt)
                              (rcpt_block_height receipt) (rcpt_gas_used receipt)
                              = hdr_receipt_root (blk_header block))))
            (Invalid ("invalid receipt for block " +:+ fmt_dec (rcpt_block_height receipt)));
      validate_receipts blocks ({[rcpt_block_hash receipt]} ∪ seen) receipts
  end.

(** The last check of [validate_chain]. *)
Definition root_check (state : State) (blocks : list Block) : result StorageError unit :=
  match last blocks with
  | None => Ok ()
  | Some last_block =>
      fail_if (negb (bool_decide (root state = hdr_state_root (blk_header last_block))))
        (Invalid "state does not match the newest block state root")
  end.
Definition validate_chain (blocks : list Block) (receipts : list Receipt) (chain_id : Z)
  (state : State) : result StorageError unit :=
  _ ← validate_blocks chain_id 0 Hash_ZERO blocks;
  _ ← fail_if (negb (Z.of_nat (length blocks) =? Z.of_nat (length receipts)))
        (Invalid "every block must have exactly one receipt");
  _ ← validate_receipts blocks ∅ receipts;
  root_check state blocks.

Definition chain_check (store : LedgerStore) (snap : LedgerSnapshot) : result StorageError unit :=
  fail_if (negb (ldg_chain_id snap =? ls_chain_id store)
           || negb (snap_chain_id (ldg_state snap) =? ls_chain_id store))
    (ChainMismatch (ls_chain_id store) (ldg_chain_id snap)).

Definition restore (store : LedgerStore) (snap : LedgerSnapshot)
  : result StorageError RestoredLedger :=
  _ ← chain_check store snap;
  state ← map_err (Invalid ∘ state_error_to_string) (from_snapshot (ldg_state snap));
  _ ← validate_chain (ldg_blocks snap) (ldg_receipts snap) (ls_chain_id store) state;
  Ok {| rst_state := state; rst_blocks := ldg_blocks snap; rst_receipts := ldg_receipts snap |}.

(** [io_meta] and [io_read] are the errors of [fs::metadata] and [fs::read]. *)
Definition load (store : LedgerStore) (io_meta io_read : option string) (d : Disk)
  : result StorageError RestoredLedger :=
  match ls_dir store, d_target d with
  | None, _ | _, None => Ok (empty_ledger store)
  | Some dir, Some file =>
      _ ← match io_meta with Some e => Err (Io (ledger_path dir) e) | None => Ok () end;
      let len := Z.of_nat (length (f_bytes file)) in
      _ ← fail_if (MAX_LEDGER_BYTES <? len) (TooLarge len MAX_LEDGER_BYTES);
      _ ← match io_read with Some e => Err (Io (ledger_path dir) e) | None => Ok () end;
      envelope ← map_err Decode (bincode_de (f_bytes file) : result string LedgerEnvelope);
      _ ← fail_if (negb (bool_decide (env_magic envelope = LEDGER_MAGIC))) UnsupportedFormat;
      _ ← fail_if (negb (env_version envelope =? LEDGER_FORMAT_VERSION))
            (UnsupportedVersion (env_version envelope));
      _ ← fail_if (negb (bool_decide (blake3 (env_payload envelope) = env_checksum envelope)))
            ChecksumMismatch;
      snap ← map_err Decode (bincode_de (env_payload envelope) : result string LedgerSnapshot);
      restore store snap
  end.

(** The bytes [persist] writes. *)
Definition encode_ledger (snap : LedgerSnapshot) : bytes :=
  let payload := bincode snap in
  bincode {| env_magic := LEDGER_MAGIC; env_version := LEDGER_FORMAT_VERSION;
             env_checksum := blake3 payload; env_payload := payload |}.

Definition persist (store : LedgerStore) (io : FsOp → option string) (snap : LedgerSnapshot)
  : ST Disk StorageError unit :=
  _ ← st_lift (chain_check store snap);
  match ls_dir store with
  | None => mret ()
  | Some dir =>
      _ ← run_ops io (op_path dir) [CreateDirAll];
      let encoded := encode_ledger snap in
      let len := Z.of_nat (length encoded) in
      _ ← st_fail_if (MAX_LEDGER_BYTES <? len) (TooLarge len MAX_LEDGER_BYTES);
      run_ops io (op_path dir) (persist_ops encoded)
  end.

(** ** Ledger validity, declaratively *)

(** A block at position [i] (counting from zero) after a block with hash
    [parent]: its header continues the chain and commits to its transaction. *)
Record block_ok (chain_id i : Z) (parent : Hash) (b : Block) (tx : Transaction) : Prop := {
  bo_txs : blk_transactions b = [tx];
  bo_height : hdr_height (blk_header b) = i + 1;
  bo_width : i + 1 ≤ u64_max;
  bo_parent : hdr_parent_hash (blk_header b) = parent;
  bo_chain : hdr_chain_id (blk_header b) = chain_id;
  bo_gas_limit : hdr_gas_used (blk_header b) ≤ hdr_gas_limit (blk_header b);
  bo_tx_root : hdr_tx_root (blk_header b) = tx_root_of [tx_hash tx];
  bo_tx_chain : tx_chain_id tx = chain_id;
  bo_gas : hdr_gas_used (blk_header b) = tx_gas_limit tx;
  bo_receipt_root : hdr_receipt_root (blk_header b)
                    = receipt_root (tx_hash tx) (hdr_height (blk_header b)) (hdr_gas_used (blk_header b))
}.
Definition parent_of (first : Hash) (blocks : list Block) (i : nat) : Hash :=
  match i with O => first | S j => from_option block_hash first (blocks !! j) end.
Definition chain_from (chain_id i0 : Z) (first : Hash) (blocks : list Block) : Prop :=
  ∀ i b, blocks !! i = Some b → ∃ tx, block_ok chain_id (i0 + Z.of_nat i) (parent_of first blocks i) b tx.

(** The checked part of a receipt, and what a block says it must be. *)
Definition receipt_key (r : Receipt) : Hash * Z * option Hash * Z * ReceiptStatus :=
  (rcpt_block_hash r, rcpt_block_height r, Some (rcpt_tx_hash r), rcpt_gas_used r, rcpt_status r).
Definition block_key (b : Block) : Hash * Z * option Hash * Z * ReceiptStatus :=
  (block_hash b, hdr_height (blk_header b), tx_hash <$> head (blk_transactions b),
   hdr_gas_used (blk_header b), Success).

Record ledger_valid (chain_id : Z) (blocks : list Block) (receipts : list Receipt) (state : State)
  : Prop := {
  lv_chain : chain_from chain_id 0 Hash_ZERO blocks;
  lv_receipts : map receipt_key receipts ≡ₚ map block_key blocks;
  lv_distinct : NoDup (map block_hash blocks);
  lv_root b : last blocks = Some b → root state = hdr_state_root (blk_header b)
}.

Lemma validate_blocks_cons chain_id i parent b blocks :
  validate_blocks chain_id i parent (b :: blocks) = Ok () ↔
  (∃ tx, block_ok chain_id i parent b tx) ∧
  validate_blocks chain_id (i + 1) (block_hash b) blocks = Ok ().
Proof.
  cbn [validate_blocks]. rewrite ok_or_bind_Ok. split.
  - intros (eh & [-> Hw]%checked_add_Some & Hrun).
    destruct (blk_transactions b) as [|tx [|? ?]] eqn:Htx; [done| |done].
    rewrite !guard_Ok in Hrun. destruct Hrun as (Hseq & Hcom & Hrest). split; [|done].
    exists tx. bool_hyps. split; try done; lia.
  - intros [[tx [Htx Hh Hw Hp Hc Hg Ht Htc Hgl Hr]] Hrest]. exists (i + 1).
    split; [by apply checked_add_Some|]. rewrite Htx, !guard_Ok. split_and!; [| |done].
    + rewrite Hh, Hp, Hc, !Z.eqb_refl, bool_decide_true by done. simpl. apply Z.ltb_ge. lia.
    + by rewrite Ht, Htc, Hr, Hgl, !Z.eqb_refl, !bool_decide_true.
Qed.
Lemma validate_blocks_Ok chain_id i parent blocks :
  validate_blocks chain_id i parent blocks = Ok () ↔ chain_from chain_id i parent blocks.
Proof.
  revert i parent. induction blocks as [|b blocks IH]; intros i parent.
  { split; [|done]. intros _ j b. by rewrite lookup_nil. }
  rewrite validate_blocks_cons, IH. unfold chain_from. split.
  - intros [Hb Hrest] [|j] b'; simpl.
    + intros [= <-]. by rewrite Z.add_0_r.
    + intros Hj. destruct (Hrest j b' Hj) as [tx Hok]. exists tx.
      replace (i + Z.of_nat (S j)) with (i + 1 + Z.of_nat j) by lia.
      destruct j as [|j]; simpl in *; [done|].
      apply lookup_lt_Some in Hj. destruct (blocks !! j) eqn:Hjj; [done|].
      apply lookup_ge_None in Hjj. lia.
  - intros Hall. split.
    + destruct (Hall O b eq_refl) as [tx Hok]. rewrite Z.add_0_r in Hok. by exists tx.
    + intros j b' Hj. destruct (Hall (S j) b' Hj) as [tx Hok]. exists tx.
      replace (i + 1 + Z.of_nat j) with (i + Z.of_nat (S j)) by lia.
      destruct j as [|j]; simpl in *; [done|].
      apply lookup_lt_Some in Hj. destruct (blocks !! j) eqn:Hjj; [done|].
      apply lookup_ge_None in Hjj. lia.
Qed.

Lemma find_block_Some blocks h b :
  find_block blocks h = Some b → b ∈ blocks ∧ block_hash b = h.
Proof.
  unfold find_block. intros Hh. apply head_Some_elem_of in Hh.
  by apply list_elem_of_filter in Hh as [??].
Qed.
Lemma find_block_elem blocks b :
  NoDup (map block_hash blocks) → b ∈ blocks → find_block blocks (block_hash b) = Some b.
Proof.
  intros Hnd Hb. destruct (find_block blocks (block_hash b)) as [b'|] eqn:Hf.
  - apply find_block_Some in Hf as [Hb' Hh]. f_equal.
    apply list_elem_of_lookup in Hb as [i Hi], Hb' as [j Hj].
    assert (i = j) as ->; [|congruence].
    apply (NoDup_lookup (map block_hash blocks) i j (block_hash b) Hnd).
    + by rewrite list_lookup_fmap, Hi.
    + by rewrite list_lookup_fmap, Hj, <-Hh.
  - unfold find_block in Hf. apply head_None in Hf.
    assert (b ∈ filter (λ b', block_hash b' = block_hash b) blocks) as Hin
      by (by apply list_elem_of_filter).
    rewrite Hf in Hin. by apply elem_of_nil in Hin.
Qed.
Lemma receipt_check r b tx chain_id i parent :
  block_ok chain_id i parent b tx → rcpt_block_hash r = block_hash b →
  (negb (rcpt_block_height r =? hdr_height (blk_header b))
   || negb (existsb (λ tx, bool_decide (tx_hash tx = rcpt_tx_hash r)) (blk_transactions b))
   || negb (bool_decide (rcpt_status r = Success))
   || negb (rcpt_gas_used r =? hdr_gas_used (blk_header b))
   || negb (bool_decide (receipt_root (rcpt_tx_hash r) (rcpt_block_height r) (rcpt_gas_used r)
              = hdr_receipt_root (blk_header b)))) = false ↔ receipt_key r = block_key b.
Proof.
  intros Hok Hbh. unfold receipt_key, block_key. rewrite (bo_txs _ _ _ _ _ Hok). simpl.
  rewrite orb_false_r. split.
  - intros Hc. bool_hyps. congruence.
  - intros Hk. injection Hk as Hh Hht Ht Hg Hs.
    rewrite Hht, Ht, Hg, Hs, !Z.eqb_refl, (bo_receipt_root _ _ _ _ _ Hok), !bool_decide_true by done.
    done.
Qed.
Lemma validate_receipts_Ok chain_id blocks seen receipts :
  chain_from chain_id 0 Hash_ZERO blocks →
  validate_receipts blocks seen receipts = Ok () ↔
  NoDup (map rcpt_block_hash receipts) ∧
  Forall (λ r, rcpt_block_hash r ∉ seen ∧
    ∃ b, find_block blocks (rcpt_block_hash r) = Some b ∧ receipt_key r = block_key b) receipts.
Proof.
  intros Hchain. revert seen. induction receipts as [|r receipts IH]; intros seen.
  { split; [|done]. intros _. split; constructor. }
  cbn [validate_receipts map]. rewrite guard_Ok, ok_or_bind_Ok, bool_decide_eq_false.
  setoid_rewrite guard_Ok. rewrite NoDup_cons, Forall_cons.
  assert (∀ b, find_block blocks (rcpt_block_hash r) = Some b →
    ∃ i parent tx, block_ok chain_id i parent b tx ∧ rcpt_block_hash r = block_hash b) as Hbok.
  { intros b [Hb Hh]%find_block_Some. apply list_elem_of_lookup in Hb as [i Hi].
    destruct (Hchain i b Hi) as [tx Hok]. eauto. }
  split.
  - intros (Hseen & b & Hf & Hchk & Hrest).
    destruct (Hbok b Hf) as (i & parent & tx & Hok & Hh).
    rewrite (receipt_check r b tx chain_id i parent Hok Hh) in Hchk.
    apply IH in Hrest as [Hnd Hall]. rewrite Forall_forall in Hall. split_and!; eauto.
    + intros (r' & Heq & Hin)%list_elem_of_fmap. destruct (Hall r' Hin) as [Hn _]. set_solver.
    + apply Forall_forall. intros r' Hin. destruct (Hall r' Hin). split; [set_solver|done].
  - intros ([Hnin Hnd] & (Hseen & b & Hf & Hkey) & Hall). split; [done|]. exists b.
    split; [done|]. destruct (Hbok b Hf) as (i & parent & tx & Hok & Hh).
    rewrite (receipt_check r b tx chain_id i parent Hok Hh). split; [done|].
    apply IH. split; [done|]. rewrite Forall_forall in Hall |- *. intros r' Hin.
    destruct (Hall r' Hin) as [Hs He]. split; [|done].
    intros [Heq%elem_of_singleton|?]%elem_of_union; [|done].
    apply Hnin. rewrite <-Heq. by apply list_elem_of_fmap_2.
Qed.

(** Receipts with distinct block hashes, each matching some block, as many as
    there are blocks: they match the blocks one to one. *)
Lemma receipts_permutation blocks receipts :
  length blocks = length receipts → NoDup (map rcpt_block_hash receipts) →
  Forall (λ r, ∃ b, find_block blocks (rcpt_block_hash r) = Some b ∧ receipt_key r = block_key b)
    receipts →
  NoDup (map block_hash blocks) ∧ map receipt_key receipts ≡ₚ map block_key blocks.
Proof.
  intros Hlen Hnd Hall. rewrite Forall_forall in Hall.
  assert (map rcpt_block_hash receipts ≡ₚ map block_hash blocks) as Hperm.
  { apply submseteq_length_Permutation; [|by rewrite !length_map; lia].
    apply NoDup_submseteq; [done|]. intros h (r & -> & Hr)%list_elem_of_fmap.
    destruct (Hall r Hr) as (b & [Hb <-]%find_block_Some & _). by apply list_elem_of_fmap_2. }
  assert (NoDup (map block_hash blocks)) as Hndb by (by rewrite <-Hperm).
  split; [done|]. destruct blocks as [|b0 blocks0] eqn:Hbs.
  { destruct receipts; [done|]. simpl in Hlen. lia. }
  set (key_of := λ h, from_option block_key (block_key b0) (find_block blocks h)). rewrite <-Hbs in *.
  trans (map key_of (map rcpt_block_hash receipts)).
  - rewrite map_map. erewrite map_ext_in; [reflexivity|]. intros r Hr.
    rewrite <-list_elem_of_In in Hr. unfold key_of. by destruct (Hall r Hr) as (b & -> & ->).
  - rewrite Hperm, map_map. erewrite map_ext_in; [reflexivity|]. intros b Hb.
    rewrite <-list_elem_of_In in Hb. unfold key_of. by rewrite find_block_elem.
Qed.
Lemma root_check_Ok state blocks :
  root_check state blocks = Ok () ↔
  ∀ b, last blocks = Some b → root state = hdr_state_root (blk_header b).
Proof.
  unfold root_check. destruct (last blocks) as [b|]; [|naive_solver].
  rewrite fail_if_Ok, negb_false_iff, bool_decide_eq_true. naive_solver.
Qed.
(** Of a linked chain with its receipts only the state root is left to check. *)
Lemma validate_chain_linked chain_id blocks receipts state :
  chain_from chain_id 0 Hash_ZERO blocks → map receipt_key receipts ≡ₚ map block_key blocks →
  NoDup (map block_hash blocks) →
  validate_chain blocks receipts chain_id state = root_check state blocks.
Proof.
  intros Hchain Hperm Hnd. unfold validate_chain.
  assert (map rcpt_block_hash receipts ≡ₚ map block_hash blocks) as Hh.
  { apply (Permutation_map (λ k, k.1.1.1.1)) in Hperm. by rewrite !map_map in Hperm. }
  assert (validate_receipts blocks ∅ receipts = Ok ()) as Hrec.
  { apply (validate_receipts_Ok chain_id); [done|]. split; [by rewrite Hh|].
    apply Forall_forall. intros r Hr. split; [set_solver|].
    assert (receipt_key r ∈ map block_key blocks) as (b & Hb & Hin)%list_elem_of_fmap
      by (rewrite <-Hperm; by apply list_elem_of_fmap_2).
    exists b. split; [|done]. assert (rcpt_block_hash r = block_hash b) as ->
      by (by apply (f_equal (λ k, k.1.1.1.1)) in Hb). by apply find_block_elem. }
  apply Permutation_length in Hperm. rewrite !length_map in Hperm.
  rewrite (proj2 (validate_blocks_Ok _ _ _ _) Hchain). simpl. rewrite Hperm, Z.eqb_refl. simpl.
  by rewrite Hrec.
Qed.
Lemma validate_chain_Ok chain_id blocks receipts state :
  validate_chain blocks receipts chain_id state = Ok () ↔ ledger_valid chain_id blocks receipts state.
Proof.
  split.
  - unfold validate_chain. rewrite bind_Ok. setoid_rewrite guard_Ok. setoid_rewrite bind_Ok.
    setoid_rewrite root_check_Ok.
    intros ([] & Hblocks%validate_blocks_Ok & Hlen & [] & Hrec & Hroot).
    apply (validate_receipts_Ok chain_id) in Hrec as [Hnd Hall]; [|done].
    apply negb_false_iff, Z.eqb_eq in Hlen.
    destruct (receipts_permutation blocks receipts) as [Hndb Hperm]; [lia|done| |by split].
    eapply Forall_impl; [exact Hall|]. by intros r [_ ?].
  - intros [Hchain Hperm Hnd Hroot]. rewrite validate_chain_linked by done. by apply root_check_Ok.
Qed.

(** ** Loading and persisting *)

(** The values the on-disk types can hold: the domain of the bincode laws. *)
Context {snap_ok : LedgerSnapshot → Prop} {env_ok : LedgerEnvelope → Prop}.
Context `{!BincodeLaws LedgerSnapshot snap_ok, !BincodeLaws LedgerEnvelope env_ok}.

Definition envelope_of (snap : LedgerSnapshot) : LedgerEnvelope :=
  {| env_magic := LEDGER_MAGIC; env_version := LEDGER_FORMAT_VERSION;
     env_checksum := blake3 (bincode snap); env_payload := bincode snap |}.
Definition stored (snap : LedgerSnapshot) : File :=
  {| f_bytes := encode_ledger snap; f_synced := true |}.
Definition storable (snap : LedgerSnapshot) : Prop :=
  snap_ok snap ∧ env_ok (envelope_of snap) ∧
  Z.of_nat (length (encode_ledger snap)) ≤ MAX_LEDGER_BYTES.

Lemma load_stored store dir snap d :
  ls_dir store = Some dir → storable snap → f_bytes <$> d_target d = Some (encode_ledger snap) →
  load store None None d = restore store snap.
Proof.
  intros Hdir (Hsnap & Henv & Hlen) Ht. unfold load. rewrite Hdir.
  destruct (d_target d) as [f|]; [|done]. simpl in Ht. injection Ht as ->.
  simpl. rewrite (proj2 (Z.ltb_ge _ _)) by lia. simpl.
  change (encode_ledger snap) with (bincode (envelope_of snap)).
  rewrite (bincode_de_ser (envelope_of snap)) by done. simpl.
  rewrite !bool_decide_true by done. simpl.
  by rewrite (bincode_de_ser snap).
Qed.
Lemma restore_Ok store snap l :
  restore store snap = Ok l ↔
  ldg_chain_id snap = ls_chain_id store ∧ snap_chain_id (ldg_state snap) = ls_chain_id store ∧
  from_snapshot (ldg_state snap) = Ok (rst_state l) ∧
  rst_blocks l = ldg_blocks snap ∧ rst_receipts l = ldg_receipts snap ∧
  ledger_valid (ls_chain_id store) (rst_blocks l) (rst_receipts l) (rst_state l).
Proof.
  unfold restore, chain_check. rewrite guard_Ok, orb_false_iff, !negb_false_iff, !Z.eqb_eq.
  rewrite map_err_bind_Ok. setoid_rewrite bind_Ok. split.
  - intros ([? ?] & st & Hst & [] & Hv%validate_chain_Ok & [= <-]). by split_and!.
  - intros (? & ? & Hst & Hb & Hr & Hv). split; [done|]. exists (rst_state l). split; [done|].
    exists (). rewrite <-Hb, <-Hr. split; [by apply validate_chain_Ok|]. by destruct l.
Qed.
Lemma persist_run store dir io snap d :
  ls_dir store = Some dir →
  persist store io snap d =
    match chain_check store snap with
    | Err e => (d, Err e)
    | Ok _ =>
        match io CreateDirAll with
        | Some e => (drop_temp d, Err (Io dir e))
        | None =>
            if MAX_LEDGER_BYTES <? Z.of_nat (length (encode_ledger snap))
            then (d, Err (TooLarge (Z.of_nat (length (encode_ledger snap))) MAX_LEDGER_BYTES))
            else run_ops io (op_path dir) (persist_ops (encode_ledger snap)) d
        end
    end.
Proof.
  intros Hdir. unfold persist. rewrite Hdir. run_unfold. destruct (chain_check store snap); [|done].
  simpl. destruct (io CreateDirAll); [done|]. by destruct (_ <? _).
Qed.

(** What a validated load guarantees about the file it read. *)
Lemma load_Ok store dir io_meta io_read d f l :
  ls_dir store = Some dir → d_target d = Some f → load store io_meta io_read d = Ok l →
  ∃ env snap, bincode_de (f_bytes f) = Ok env ∧ env_magic env = LEDGER_MAGIC ∧
    env_version env = LEDGER_FORMAT_VERSION ∧ blake3 (env_payload env) = env_checksum env ∧
    bincode_de (env_payload env) = Ok snap ∧ restore store snap = Ok l.
Proof.
  intros Hdir Ht. unfold load. rewrite Hdir, Ht. rewrite bind_Ok. intros ([] & _ & Hl).
  apply guard_Ok in Hl as [_ Hl]. apply bind_Ok in Hl as ([] & _ & Hl).
  apply map_err_bind_Ok in Hl as (env & Henv & Hl). rewrite !guard_Ok in Hl.
  destruct Hl as (Hm & Hv & Hc & Hl). apply map_err_bind_Ok in Hl as (snap & Hsnap & Hl).
  exists env, snap. bool_hyps. by split_and!.
Qed.
End storage.

(** ** Crash safety *)

(** Nothing pending: no temporary file, the ledger file and its directory entry
    are on stable storage. *)
Record stable (d : Disk) : Prop := {
  sb_temp : d_temp d = None;
  sb_shadow : d_shadow d = None;
  sb_synced f : d_target d = Some f → f_synced f = true
}.
(** What a power loss can leave of a file: its bytes if they were synced, any
    prefix of them otherwise. *)
Definition after_crash (f : option File) (c : option bytes) : Prop :=
  match f with
  | None => c = None
  | Some f => if f_synced f then c = Some (f_bytes f)
              else ∃ pre, c = Some pre ∧ pre `prefix_of` f_bytes f
  end.
(** The ledger file a node may find after a crash: what the directory entry
    names, or what it named before a rename that is not durable yet. *)
Definition recovered (d : Disk) (c : option bytes) : Prop :=
  after_crash (d_target d) c ∨ ∃ s, d_shadow d = Some s ∧ after_crash s c.

Lemma stable_recovered d c : stable d → recovered d c → c = f_bytes <$> d_target d.
Proof.
  intros [_ Hs Hf] [Hc|(s & Hs' & _)]; [|congruence]. unfold after_crash in Hc.
  destruct (d_target d) as [f|]; [|done]. by rewrite (Hf f eq_refl) in Hc.
Qed.
Ltac io_cases :=
  repeat match goal with |- context [match ?io ?op with Some _ => _ | None => _ end] =>
    destruct (io op) eqn:? end.
Lemma persist_ops_crash io path data k d c :
  stable d → recovered (run_ops io path (take k (persist_ops data)) d).1 c →
  c = f_bytes <$> d_target d ∨ c = Some data.
Proof.
  intros Hst. destruct Hst as [Ht Hsh Hf]. destruct d as [t tmp sh]. simpl in *. subst.
  assert (∀ tmp', recovered {| d_target := t; d_temp := tmp'; d_shadow := None |} c →
    c = f_bytes <$> t) as Hold.
  { intros tmp' [Hc|(s & [=] & _)]. simpl in Hc. unfold after_crash in Hc.
    destruct t as [f|]; [|done]. by rewrite (Hf f eq_refl) in Hc. }
  assert (∀ tmp' sh', (∀ s, sh' = Some s → s = t) →
    recovered {| d_target := Some {| f_bytes := data; f_synced := true |};
                 d_temp := tmp'; d_shadow := sh' |} c → c = f_bytes <$> t ∨ c = Some data) as Hnew.
  { intros tmp' sh' Hs' [Hc|(s & Hs & Hc)]; [by right|]. left. apply (Hold None). left.
    simpl. by rewrite <-(Hs' s Hs). }
  do 7 (destruct k as [|k]; [simpl; io_cases; cbn; try (by intros ?%Hold; left);
    apply Hnew; naive_solver|]).
  simpl. io_cases; cbn; try (by intros ?%Hold; left); apply Hnew; naive_solver.
Qed.
(** Without a temporary file in the way, a save that fails leaves the disk alone,
    unless it fails at the directory sync, after the rename. *)
Lemma persist_ops_run io path data d :
  d_temp d = None →
  match run_ops io path (persist_ops data) d with
  | (d', Ok _) => d' = {| d_target := Some {| f_bytes := data; f_synced := true |};
                          d_temp := None; d_shadow := None |}
  | (d', Err _) => (io SyncDir = None → d' = d) ∧
      (d' = d ∨ d' = {| d_target := Some {| f_bytes := data; f_synced := true |};
                        d_temp := None; d_shadow := Some (d_target d) |})
  end.
Proof.
  intros Ht. destruct d as [t tmp sh]. simpl in *. subst. unfold persist_ops. simpl.
  io_cases; cbn; try done; by (split; [by intros|auto]).
Qed.

(** Every outcome of [persist]. *)
Lemma persist_outcome `{!Blake3, !Serialize LedgerSnapshot, !Serialize LedgerEnvelope}
    store io snap d d' r :
  d_temp d = None → persist store io snap d = (d', r) →
  match r with
  | Ok _ => chain_check store snap = Ok () ∧
      match ls_dir store with
      | None => d' = d
      | Some _ => d' = {| d_target := Some (stored snap); d_temp := None; d_shadow := None |} ∧
                  Z.of_nat (length (encode_ledger snap)) ≤ MAX_LEDGER_BYTES
      end
  | Err _ => (io SyncDir = None → d' = d) ∧
      (d' = d ∨ d_temp d' = None ∧ d_target d' = Some (stored snap) ∧ ls_dir store ≠ None ∧
                Z.of_nat (length (encode_ledger snap)) ≤ MAX_LEDGER_BYTES)
  end.
Proof.
  intros Hst Hrun. assert (drop_temp d = d) as Hdrop by (destruct d; unfold drop_temp; simpl in *; by subst).
  destruct (ls_dir store) as [dir|] eqn:Hdir.
  - rewrite (persist_run store dir) in Hrun by done.
    destruct (chain_check store snap) as [[]|]; [|simplify_eq; auto].
    destruct (io CreateDirAll); [rewrite Hdrop in Hrun; simplify_eq; auto|].
    destruct (Z.ltb_spec MAX_LEDGER_BYTES (Z.of_nat (length (encode_ledger snap)))); [simplify_eq; auto|].
    pose proof (persist_ops_run io (op_path dir) (encode_ledger snap) d Hst) as Hr.
    rewrite Hrun in Hr. destruct r as [[]|e]; [by subst d'|]. destruct Hr as [Hio Hr].
    split; [done|]. destruct Hr as [->| ->]; [by left|right]. by split_and!.
  - unfold persist in Hrun. rewrite Hdir in Hrun. run_unfold.
    destruct (chain_check store snap) as [[]|]; simplify_eq; auto.
Qed.
Lemma persist_temp `{!Blake3, !Serialize LedgerSnapshot, !Serialize LedgerEnvelope} store io snap d d' r :
  d_temp d = None → persist store io snap d = (d', r) → d_temp d' = None.
Proof.
  intros Ht Hp%persist_outcome; [|done]. destruct r as [[]|].
  - destruct Hp as [_ Hp]. destruct (ls_dir store); [by destruct Hp as [-> _]|congruence].
  - destruct Hp as [_ [->|[? _]]]; done.
Qed.
Lemma stored_stable `{!Blake3, !Serialize LedgerSnapshot, !Serialize LedgerEnvelope} snap :
  stable {| d_target := Some (stored snap); d_temp := None; d_shadow := None |}.
Proof. split; [done..|]. by intros f [= <-]. Qed.

(** ** Reference codecs of the on-disk types *)

Definition is_len {A} (l : list A) : Prop := is_u64 (Z.of_nat (length l)).
Definition hdr_wf (h : BlockHeader) : Prop :=
  is_u32 (hdr_version h) ∧ is_u64 (hdr_chain_id h) ∧ is_u64 (hdr_height h) ∧
  is_u64 (hdr_timestamp h) ∧ is_u64 (hdr_gas_used h) ∧ is_u64 (hdr_gas_limit h) ∧
  is_len (hdr_extra_data h).
Definition vs_wf (v : ValidatorSignature) : Prop := is_len (vs_signature v).
Definition block_wf (b : Block) : Prop :=
  hdr_wf (blk_header b) ∧ (is_len (blk_transactions b) ∧ Forall tx_wf (blk_transactions b)) ∧
  is_len (blk_signatures b) ∧ Forall vs_wf (blk_signatures b).
Definition log_wf (l : Log) : Prop := is_len (log_topics l) ∧ is_len (log_data l).
Definition rcpt_wf (r : Receipt) : Prop :=
  is_u64 (rcpt_block_height r) ∧ is_u64 (rcpt_gas_used r) ∧
  is_len (rcpt_logs r) ∧ Forall log_wf (rcpt_logs r).
Definition ledger_wf (l : LedgerSnapshot) : Prop :=
  is_u64 (ldg_chain_id l) ∧ snapshot_wf (ldg_state l) ∧
  (is_len (ldg_blocks l) ∧ Forall block_wf (ldg_blocks l)) ∧
  is_len (ldg_receipts l) ∧ Forall rcpt_wf (ldg_receipts l).
Definition envelope_wf (e : LedgerEnvelope) : Prop :=
  is_u32 (env_version e) ∧ is_len (env_payload e).

Definition c_hash : codec Hash := c_bytes HASH_SIZE.
Definition c_address : codec Address := c_bytes ADDRESS_SIZE.
Definition c_header : codec BlockHeader :=
  c_iso (λ h, (hdr_version h, (hdr_chain_id h, (hdr_height h, (hdr_timestamp h, (hdr_parent_hash h,
           (hdr_state_root h, (hdr_tx_root h, (hdr_receipt_root h, (hdr_validator h,
           (hdr_gas_used h, (hdr_gas_limit h, hdr_extra_data h))))))))))))
        (λ '(v, (c, (h, (t, (p, (s, (x, (r, (a, (u, (l, e))))))))))),
           {| hdr_version := v; hdr_chain_id := c; hdr_height := h; hdr_timestamp := t;
              hdr_parent_hash := p; hdr_state_root := s; hdr_tx_root := x; hdr_receipt_root := r;
              hdr_validator := a; hdr_gas_used := u; hdr_gas_limit := l; hdr_extra_data := e |})
        (c_pair c_u32 (c_pair c_u64 (c_pair c_u64 (c_pair c_u64 (c_pair c_hash (c_pair c_hash
          (c_pair c_hash (c_pair c_hash (c_pair c_address (c_pair c_u64 (c_pair c_u64
          (c_list c_byte)))))))))))).
Definition c_validator_signature : codec ValidatorSignature :=
  c_iso (λ v, (vs_validator v, vs_signature v))
        (λ '(a, s), {| vs_validator := a; vs_signature := s |}) (c_pair c_address (c_list c_byte)).
Definition c_block : codec Block :=
  c_iso (λ b, (blk_header b, (blk_transactions b, blk_signatures b)))
        (λ '(h, (t, s)), {| blk_header := h; blk_transactions := t; blk_signatures := s |})
        (c_pair c_header (c_pair (c_list c_tx) (c_list c_validator_signature))).
(** serde numbers the variants in declaration order. *)
Definition c_status : codec ReceiptStatus :=
  c_iso (λ s, match s with Success => 0 | Failure => 1 end)
        (λ z, if z =? 0 then Success else Failure) c_u32.
Definition c_log : codec Log :=
  c_iso (λ l, (log_address l, (log_topics l, log_data l)))
        (λ '(a, (t, d)), {| log_address := a; log_topics := t; log_data := d |})
        (c_pair c_address (c_pair (c_list c_hash) (c_list c_byte))).
Definition c_receipt : codec Receipt :=
  c_iso (λ r, (rcpt_tx_hash r, (rcpt_block_hash r, (rcpt_block_height r, (rcpt_gas_used r,
               (rcpt_status r, (rcpt_logs r, rcpt_contract_address r)))))))
        (λ '(t, (b, (h, (g, (s, (l, c)))))),
           {| rcpt_tx_hash := t; rcpt_block_hash := b; rcpt_block_height := h; rcpt_gas_used := g;
              rcpt_status := s; rcpt_logs := l; rcpt_contract_address := c |})
        (c_pair c_hash (c_pair c_hash (c_pair c_u64 (c_pair c_u64 (c_pair c_status
          (c_pair (c_list c_log) (c_option c_address))))))).
Definition c_ledger : codec LedgerSnapshot :=
  c_iso (λ l, (ldg_chain_id l, (ldg_state l, (ldg_blocks l, ldg_receipts l))))
        (λ '(c, (s, (b, r))),
           {| ldg_chain_id := c; ldg_state := s; ldg_blocks := b; ldg_receipts := r |})
        (c_pair c_u64 (c_pair c_snapshot (c_pair (c_list c_block) (c_list c_receipt)))).
Definition c_envelope : codec LedgerEnvelope :=
  c_iso (λ e, (env_magic e, (env_version e, (env_checksum e, env_payload e))))
        (λ '(m, (v, (c, p))),
           {| env_magic := m; env_version := v; env_checksum := c; env_payload := p |})
        (c_pair (c_bytes 8) (c_pair c_u32 (c_pair (c_bytes 32) (c_list c_byte)))).

Lemma c_hash_ok : codec_ok c_hash (λ _, True).
Proof. apply c_bytes_ok. Qed.
Lemma c_address_ok : codec_ok c_address (λ _, True).
Proof. apply c_bytes_ok. Qed.
#[export] Hint Resolve c_hash_ok c_address_ok : codec.
Lemma c_header_ok : codec_ok c_header hdr_wf.
Proof. eapply codec_ok_weaken; [codec_record|]. by intros h (?&?&?&?&?&?&?). Qed.
Lemma c_validator_signature_ok : codec_ok c_validator_signature vs_wf.
Proof. eapply codec_ok_weaken; [codec_record|]. done. Qed.
#[export] Hint Resolve c_header_ok c_validator_signature_ok c_snapshot_ok : codec.
Lemma c_block_ok : codec_ok c_block block_wf.
Proof.
  eapply codec_ok_weaken.
  - apply c_iso_ok; [by intros []|]. repeat (apply c_pair_ok || apply c_list_ok || codec_step).
  - by intros b (?&?&?).
Qed.
Lemma c_status_ok : codec_ok c_status (λ _, True).
Proof.
  eapply codec_ok_weaken; [apply c_iso_ok, c_u32_ok; by intros []|]. intros []; simpl; width.
Qed.
Lemma c_log_ok : codec_ok c_log log_wf.
Proof. eapply codec_ok_weaken; [codec_record|]. by intros l [??]. Qed.
#[export] Hint Resolve c_block_ok c_status_ok c_log_ok : codec.
Lemma c_receipt_ok : codec_ok c_receipt rcpt_wf.
Proof.
  eapply codec_ok_weaken.
  - apply c_iso_ok; [by intros []|]. repeat (apply c_pair_ok || apply c_list_ok || codec_step).
  - intros r (?&?&?&?). simpl. split_and!; try done. by destruct (rcpt_contract_address r).
Qed.
#[export] Hint Resolve c_receipt_ok : codec.
Lemma c_ledger_ok : codec_ok c_ledger ledger_wf.
Proof.
  eapply codec_ok_weaken.
  - apply c_iso_ok; [by intros []|]. repeat (apply c_pair_ok || apply c_list_ok || codec_step).
  - by intros l (?&?&?&?).
Qed.
Lemma c_envelope_ok : codec_ok c_envelope envelope_wf.
Proof. eapply codec_ok_weaken; [codec_record|]. by intros l (?&?). Qed.

(** The reference encodings as instances, for concrete runs. *)
Module Ref.
#[export] Instance ser_tx : Serialize Transaction := codec_serialize c_tx.
#[export] Instance ser_header : Serialize BlockHeader := codec_serialize c_header.
#[export] Instance ser_hashes : Serialize (list Hash) := codec_serialize (c_list c_hash).
#[export] Instance ser_receipt_tuple : Serialize (Hash * Z * Z * Z) :=
  codec_serialize (c_pair (c_pair (c_pair c_hash c_u64) c_u64) c_u8).
#[export] Instance ser_snapshot : Serialize StateSnapshot := codec_serialize c_snapshot.
#[export] Instance ser_ledger : Serialize LedgerSnapshot := codec_serialize c_ledger.
#[export] Instance de_ledger : Deserialize LedgerSnapshot := codec_deserialize c_ledger.
#[export] Instance ser_envelope : Serialize LedgerEnvelope := codec_serialize c_envelope.
#[export] Instance de_envelope : Deserialize LedgerEnvelope := codec_deserialize c_envelope.
#[export] Instance ledger_laws : BincodeLaws LedgerSnapshot ledger_wf :=
  codec_laws c_ledger ledger_wf c_ledger_ok.
#[export] Instance envelope_laws : BincodeLaws LedgerEnvelope envelope_wf :=
  codec_laws c_envelope envelope_wf c_envelope_ok.

(** A ledger with one block that moved value from the zero address. *)
Definition post_state : State := (apply_transaction sample_transfer sample_state).1.
Definition block1 (post : State) : Block :=
  {| blk_header :=
       {| hdr_version := 1; hdr_chain_id := 1; hdr_height := 1; hdr_timestamp := 7;
          hdr_parent_hash := Hash_ZERO; hdr_state_root := root post;
          hdr_tx_root := tx_root_of [tx_hash sample_transfer];
          hdr_receipt_root := receipt_root (tx_hash sample_transfer) 1 21000;
          hdr_validator := Address_ZERO; hdr_gas_used := 21000;
          hdr_gas_limit := BLOCK_GAS_LIMIT; hdr_extra_data := [] |};
     blk_transactions := [sample_transfer]; blk_signatures := [] |}.
Definition receipt1 (post : State) : Receipt :=
  {| rcpt_tx_hash := tx_hash sample_transfer; rcpt_block_hash := block_hash (block1 post);
     rcpt_block_height := 1; rcpt_gas_used := 21000; rcpt_status := Success; rcpt_logs := [];
     rcpt_contract_address := None |}.
Definition ledger1 (post : State) : LedgerSnapshot :=
  {| ldg_chain_id := 1; ldg_state := snapshot post; ldg_blocks := [block1 post];
     ldg_receipts := [receipt1 post] |}.
Definition store1 : LedgerStore := {| ls_dir := Some "data"; ls_chain_id := 1 |}.
Definition empty_disk : Disk := {| d_target := None; d_temp := None; d_shadow := None |}.
Definition disk1 : Disk :=
  {| d_target := Some (stored (ledger1 post_state)); d_temp := None; d_shadow := None |}.
Definition no_error : FsOp → option string := λ _, None.
End Ref.
#[export] Instance hdr_wf_dec h : Decision (hdr_wf h).
Proof. unfold hdr_wf, is_len. apply _. Defined.
#[export] Instance block_wf_dec b : Decision (block_wf b).
Proof. unfold block_wf, vs_wf, is_len. apply _. Defined.
#[export] Instance rcpt_wf_dec r : Decision (rcpt_wf r).
Proof. unfold rcpt_wf, log_wf, is_len. apply _. Defined.
#[export] Instance snapshot_wf_dec sn : Decision (snapshot_wf sn).
Proof. unfold snapshot_wf. apply _. Defined.
#[export] Instance ledger_wf_dec l : Decision (ledger_wf l).
Proof. unfold ledger_wf, is_len. apply _. Defined.
#[export] Instance envelope_wf_dec e : Decision (envelope_wf e).
Proof. unfold envelope_wf, is_len. apply _. Defined.
#[export] Instance storable_dec `{!Blake3, !Serialize LedgerSnapshot, !Serialize LedgerEnvelope} snap :
  Decision (storable (snap_ok:=ledger_wf) (env_ok:=envelope_wf) snap).
Proof. unfold storable. apply _. Defined.

(** ** Claims *)

(** C25. [validate_chain] accepts exactly the valid ledgers: blocks at heights 1,
    2, ... linked by parent hash, each with one transaction of this chain and
    with commitments that recompute; receipts that match the blocks one to one
    in hash, height, transaction, gas and status; pairwise distinct block
    hashes; and a state whose root is the newest header's. *)
Theorem validate_chain_spec `{!Blake3, !Serialize Transaction, !Serialize BlockHeader,
    !Serialize (list Hash), !Serialize (Hash * Z * Z * Z), !Serialize StateSnapshot}
    (chain_id : Z) (blocks : list Block) (receipts : list Receipt) (state : State) :
  validate_chain blocks receipts chain_id state = Ok () ↔ ledger_valid chain_id blocks receipts state.
Proof. apply validate_chain_Ok. Qed.

Section roundtrip.
Context `{!Blake3, !Hex, !Serialize Transaction, !Serialize BlockHeader, !Serialize (list Hash),
  !Serialize (Hash * Z * Z * Z), !Serialize StateSnapshot,
  !Serialize LedgerSnapshot, !Deserialize LedgerSnapshot,
  !Serialize LedgerEnvelope, !Deserialize LedgerEnvelope}.

(** A persisted ledger of this chain loads back, whether the write just finished
    or the node restarts from the disk later. *)
Lemma persist_load `{!BincodeLaws LedgerSnapshot ledger_wf, !BincodeLaws LedgerEnvelope envelope_wf}
    store dir state blocks receipts d :
  let snap := {| ldg_chain_id := ls_chain_id store; ldg_state := snapshot state;
                 ldg_blocks := blocks; ldg_receipts := receipts |} in
  ls_dir store = Some dir → ls_chain_id store ≠ 0 → state_chain_id state = ls_chain_id store →
  stable d → storable (snap_ok:=ledger_wf) (env_ok:=envelope_wf) snap →
  ledger_valid (ls_chain_id store) blocks receipts state →
  ∃ d', persist store (λ _, None) snap d = (d', Ok ()) ∧ stable d' ∧
    load store None None d'
    = Ok {| rst_state := state; rst_blocks := blocks; rst_receipts := receipts |}.
Proof.
  intros snap Hdir Hne Hc Hst Hok Hv. rewrite (persist_run store dir) by done.
  assert (chain_check store snap = Ok ()) as ->.
  { unfold chain_check. simpl. by rewrite Hc, Z.eqb_refl. }
  cbv beta iota. rewrite (proj2 (Z.ltb_ge _ _)) by apply Hok.
  pose proof (persist_ops_run (λ _, None) (op_path dir) (encode_ledger snap) d (sb_temp _ Hst)) as Hrun.
  destruct (run_ops _ _ _ d) as [d' [[]|e]] eqn:Hr; [|by discriminate Hr].
  exists d'. split; [done|]. subst d'. split; [by split; [done..|intros f [= <-]]|].
  rewrite (load_stored (snap_ok:=ledger_wf) (env_ok:=envelope_wf) store dir snap) by done.
  apply restore_Ok. simpl. split_and!; try done. rewrite from_snapshot_snapshot; congruence.
Qed.
End roundtrip.

(** What is persisted loads back: writing the ledger of a node (any state of
    this chain with a valid history, within the size limit) succeeds when no file
    operation fails, leaves the disk durable, and loading it returns exactly the
    same state, blocks and receipts. *)
Theorem persist_load_roundtrip `{!Blake3, !Hex, !Serialize Transaction, !Serialize BlockHeader,
    !Serialize (list Hash), !Serialize (Hash * Z * Z * Z), !Serialize StateSnapshot,
    !Serialize LedgerSnapshot, !Deserialize LedgerSnapshot, !Serialize LedgerEnvelope,
    !Deserialize LedgerEnvelope, !BincodeLaws LedgerSnapshot ledger_wf,
    !BincodeLaws LedgerEnvelope envelope_wf}
    (store : LedgerStore) (dir : string) (state : State) (blocks : list Block)
    (receipts : list Receipt) (d : Disk) :
  let snap := {| ldg_chain_id := ls_chain_id store; ldg_state := snapshot state;
                 ldg_blocks := blocks; ldg_receipts := receipts |} in
  ls_dir store = Some dir → ls_chain_id store ≠ 0 → state_chain_id state = ls_chain_id store →
  stable d → storable (snap_ok:=ledger_wf) (env_ok:=envelope_wf) snap →
  ledger_valid (ls_chain_id store) blocks receipts state →
  ∃ d', persist store (λ _, None) snap d = (d', Ok ()) ∧ stable d' ∧
    load store None None d'
    = Ok {| rst_state := state; rst_blocks := blocks; rst_receipts := receipts |}.
Proof. apply persist_load. Qed.

(** C2. A crash never corrupts the ledger: whichever file operation fails and
    after however many of them the power is lost, the ledger file found on
    restart is either absent or present exactly as before the write, or the
    complete new ledger. A write that reports success is on stable storage, and
    one that fails before the directory is synced leaves the disk as it was. *)
Theorem persist_crash_safe `{!Blake3, !Serialize LedgerSnapshot, !Serialize LedgerEnvelope}
    (store : LedgerStore) (dir : string) (io : FsOp → option string) (snap : LedgerSnapshot)
    (d : Disk) :
  ls_dir store = Some dir → stable d →
  (∀ k c, recovered (run_ops io (op_path dir) (take k (persist_ops (encode_ledger snap))) d).1 c →
     c = f_bytes <$> d_target d ∨ c = Some (encode_ledger snap)) ∧
  match persist store io snap d with
  | (d', Ok _) => stable d' ∧ d_target d' = Some (stored snap)
  | (d', Err _) => (io SyncDir = None → d' = d) ∧
      ∀ c, recovered d' c → c = f_bytes <$> d_target d ∨ c = Some (encode_ledger snap)
  end.
Proof.
  intros Hdir Hst. split; [intros k c; by apply persist_ops_crash|].
  destruct (persist store io snap d) as [d' [[]|e]] eqn:Hrun;
    pose proof (persist_outcome store io snap d d' _ (sb_temp _ Hst) Hrun) as Hout; rewrite Hdir in *.
  - destruct Hout as (_ & -> & _). split; [apply stored_stable|done].
  - split; [apply Hout|]. intros c Hc. rewrite (persist_run store dir) in Hrun by done.
    assert (drop_temp d = d) as Hdrop
      by (pose proof (sb_temp _ Hst); destruct d; unfold drop_temp; simpl in *; by subst).
    destruct (chain_check store snap); [|simplify_eq; left; by apply stable_recovered].
    destruct (io CreateDirAll); [rewrite Hdrop in Hrun; simplify_eq; left; by apply stable_recovered|].
    destruct (_ <? _); [simplify_eq; left; by apply stable_recovered|].
    apply (persist_ops_crash io (op_path dir) (encode_ledger snap) 6 d c Hst).
    change (take 6 (persist_ops (encode_ledger snap))) with (persist_ops (encode_ledger snap)).
    by rewrite Hrun.
Qed.

(** Nothing unvalidated is ever loaded: a load of an existing file that
    succeeds read an envelope with the right magic, version and payload digest,
    whose snapshot is bound to this chain, and returned exactly that snapshot's
    state with a block history valid against it. *)
Theorem load_validated `{!Blake3, !Hex, !Serialize Transaction, !Serialize BlockHeader,
    !Serialize (list Hash), !Serialize (Hash * Z * Z * Z), !Serialize StateSnapshot,
    !Deserialize LedgerSnapshot, !Deserialize LedgerEnvelope}
    (store : LedgerStore) (dir : string) (io_meta io_read : option string) (d : Disk) (f : File)
    (l : RestoredLedger) :
  ls_dir store = Some dir → d_target d = Some f → load store io_meta io_read d = Ok l →
  ∃ env snap, bincode_de (f_bytes f) = Ok env ∧ env_magic env = LEDGER_MAGIC ∧
    env_version env = LEDGER_FORMAT_VERSION ∧ blake3 (env_payload env) = env_checksum env ∧
    bincode_de (env_payload env) = Ok snap ∧ ldg_chain_id snap = ls_chain_id store ∧
    from_snapshot (ldg_state snap) = Ok (rst_state l) ∧
    state_chain_id (rst_state l) = ls_chain_id store ∧
    rst_blocks l = ldg_blocks snap ∧ rst_receipts l = ldg_receipts snap ∧
    ledger_valid (ls_chain_id store) (rst_blocks l) (rst_receipts l) (rst_state l).
Proof.
  intros Hdir Ht Hl. destruct (load_Ok store dir io_meta io_read d f l Hdir Ht Hl)
    as (env & snap & ? & ? & ? & ? & ? & (? & Hc & Hst & ? & ? & ?)%restore_Ok).
  exists env, snap. split_and!; try done.
  apply from_snapshot_Ok in Hst as (_ & _ & ->). done.
Qed.

(** *** Concrete runs *)
Import Ref.

Lemma validate_ledger1 : validate_chain [block1 post_state] [receipt1 post_state] 1 post_state = Ok ().
Proof. by vm_compute. Qed.
Lemma empty_disk_stable : stable empty_disk.
Proof. by split. Qed.
Lemma persist_load_roundtrip_witness :
  ∃ d', persist store1 (λ _, None) (ledger1 post_state) empty_disk = (d', Ok ()) ∧ stable d' ∧
    load store1 None None d'
    = Ok {| rst_state := post_state; rst_blocks := [block1 post_state];
            rst_receipts := [receipt1 post_state] |}.
Proof.
  apply (persist_load_roundtrip store1 "data" post_state [block1 post_state] [receipt1 post_state]).
  - done.
  - done.
  - by vm_compute.
  - apply empty_disk_stable.
  - apply (bool_decide_unpack _). by vm_compute.
  - apply validate_chain_Ok, validate_ledger1.
Defined.
Lemma persist_crash_safe_witness :
  match persist store1 no_error (ledger1 post_state) empty_disk with
  | (d', Ok _) => stable d' ∧ d_target d' = Some (stored (ledger1 post_state))
  | (d', Err _) => (no_error SyncDir = None → d' = empty_disk) ∧
      ∀ c, recovered d' c → c = None ∨ c = Some (encode_ledger (ledger1 post_state))
  end.
Proof.
  apply (persist_crash_safe store1 "data" no_error (ledger1 post_state) empty_disk eq_refl
    empty_disk_stable).
Defined.
Lemma disk1_loads : ∃ l, load store1 None None disk1 = Ok l.
Proof.
  assert (is_ok (load store1 None None disk1) = true) as Hok by (by vm_compute). revert Hok.
  generalize (load store1 None None disk1). intros [l|e] Hok; [by exists l|done].
Qed.
Lemma load_validated_witness :
  ∃ l, load store1 None None disk1 = Ok l ∧
       ledger_valid 1 (rst_blocks l) (rst_receipts l) (rst_state l).
Proof.
  destruct disk1_loads as [l Hl]. exists l. split; [exact Hl|].
  destruct (load_validated store1 "data" None None disk1 (stored (ledger1 post_state)) l
    eq_refl eq_refl Hl) as (env & snap & H). apply H.
Defined.

(** [persist] documents that it validates the snapshot first; it only compares
    chain IDs, so a ledger that cannot be loaded again is written without an
    error. *)
Lemma persist_writes_invalid :
  ∃ snap d e, persist store1 no_error snap empty_disk = (d, Ok ()) ∧
    load store1 None None d = Err (Invalid e).
Proof.
  set (snap := {| ldg_chain_id := 1; ldg_state := snapshot sample_state;
                  ldg_blocks := [block1 post_state]; ldg_receipts := [receipt1 post_state] |}).
  eexists snap, (persist store1 no_error snap empty_disk).1, _. split; by vm_compute.
Qed.
