(* ===== verification/Rpc.v ===== *)
(** * [subhost-rpc]: the node behind the RPC surface

    [RpcState] of [crates/subhost-rpc/src/lib.rs] and its commit path. Every
    mutation of the node happens under the one commit lock, so the operations
    are sequential computations in [ST RpcState RpcError]; the disk the store
    writes to is part of the state. The clock and the outcome of each file
    operation are arguments. *)

From Stdlib Require Import String.
From S2P Require Import Prelude Order Text Deps Bincode Core WorldState Mempool Storage.

Inductive RpcError :=
| RpcInvalidAddress
| RpcInvalidTxHash
| RpcInvalidParams
| RpcInvalidChainId
| RpcInvalidSignature
| RpcUnsupportedTransactionType (t : TransactionType)
| TransactionRejected (message : string)
| Persistence (message : string)
| Internal.

(** [impl Display for RpcError] *)
Definition rpc_error_to_string (e : RpcError) : string :=
  match e with
  | RpcInvalidAddress => "invalid address"
  | RpcInvalidTxHash => "invalid transaction hash"
  | RpcInvalidParams => "invalid params"
  | RpcInvalidChainId => "invalid chain ID"
  | RpcInvalidSignature => "transaction signature is required and must be valid"
  | RpcUnsupportedTransactionType t =>
      "unsupported transaction type: " +:+ transaction_type_to_string t
  | TransactionRejected message => "transaction rejected: " +:+ message
  | Persistence message => "state persistence failed: " +:+ message
  | Internal => "internal error"
  end.
(** [impl From<RpcError> for ErrorObject]: code and message sent to the client. *)
Definition error_object (e : RpcError) : Z * string :=
  match e with
  | RpcInvalidAddress | RpcInvalidTxHash | RpcInvalidParams | RpcInvalidChainId
  | RpcInvalidSignature => (-32602, rpc_error_to_string e)
  | RpcUnsupportedTransactionType _ | TransactionRejected _ => (-32000, rpc_error_to_string e)
  | Persistence _ => (-32603, "state persistence failed")
  | Internal => (-32603, "internal error")
  end.
Definition rpc_of_storage (e : StorageError) : RpcError := Persistence (storage_error_to_string e).

Record RpcState := {
  rs_chain_id : Z;
  rs_block_height : Z;
  rs_mempool : Mempool;
  rs_state : State;
  rs_blocks : list Block;
  rs_receipts : gmap Hash Receipt;
  rs_store : LedgerStore;
  (** The disk [rs_store] reads and writes. *)
  rs_disk : Disk
}.

Definition set_mempool (f : Mempool → Mempool) (n : RpcState) : RpcState :=
  {| rs_chain_id := rs_chain_id n; rs_block_height := rs_block_height n;
     rs_mempool := f (rs_mempool n); rs_state := rs_state n; rs_blocks := rs_blocks n;
     rs_receipts := rs_receipts n; rs_store := rs_store n; rs_disk := rs_disk n |}.
Definition set_state (s : State) (n : RpcState) : RpcState :=
  {| rs_chain_id := rs_chain_id n; rs_block_height := rs_block_height n;
     rs_mempool := rs_mempool n; rs_state := s; rs_blocks := rs_blocks n;
     rs_receipts := rs_receipts n; rs_store := rs_store n; rs_disk := rs_disk n |}.
Definition set_disk (d : Disk) (n : RpcState) : RpcState :=
  {| rs_chain_id := rs_chain_id n; rs_block_height := rs_block_height n;
     rs_mempool := rs_mempool n; rs_state := rs_state n; rs_blocks := rs_blocks n;
     rs_receipts := rs_receipts n; rs_store := rs_store n; rs_disk := d |}.
Definition set_blocks (blocks : list Block) (n : RpcState) : RpcState :=
  {| rs_chain_id := rs_chain_id n; rs_block_height := rs_block_height n;
     rs_mempool := rs_mempool n; rs_state := rs_state n; rs_blocks := blocks;
     rs_receipts := rs_receipts n; rs_store := rs_store n; rs_disk := rs_disk n |}.
Definition set_receipts (receipts : gmap Hash Receipt) (n : RpcState) : RpcState :=
  {| rs_chain_id := rs_chain_id n; rs_block_height := rs_block_height n;
     rs_mempool := rs_mempool n; rs_state := rs_state n; rs_blocks := rs_blocks n;
     rs_receipts := receipts; rs_store := rs_store n; rs_disk := rs_disk n |}.
Definition set_height (height : Z) (n : RpcState) : RpcState :=
  {| rs_chain_id := rs_chain_id n; rs_block_height := height;
     rs_mempool := rs_mempool n; rs_state := rs_state n; rs_blocks := rs_blocks n;
     rs_receipts := rs_receipts n; rs_store := rs_store n; rs_disk := rs_disk n |}.
(** Apply a pool operation in place. *)
Definition with_mempool {A E} (m : ST Mempool E A) : ST RpcState E A := λ n,
  match m (rs_mempool n) with (p, r) => (set_mempool (λ _, p) n, r) end.

Definition rpc_balance (n : RpcState) (a : Address) : Z := balance (rs_state n) a.
Definition rpc_nonce (n : RpcState) (a : Address) : Z := nonce (rs_state n) a.
Definition rpc_receipt (n : RpcState) (h : Hash) : option Receipt := rs_receipts n !! h.
Definition block_at_height (n : RpcState) (h : Z) : option Block :=
  index ← checked_sub h 1; rs_blocks n !! Z.to_nat index.
Definition block_count (n : RpcState) : Z := Z.of_nat (length (rs_blocks n)).
Definition pending_count (n : RpcState) : Z := mempool_len (rs_mempool n).
Definition rpc_min_gas_price (n : RpcState) : Z := min_gas_price (mp_config (rs_mempool n)).
Definition has_persisted_state (n : RpcState) : bool := exists_ (rs_store n) (rs_disk n).

Section rpc.
Context `{!Blake3, !Hex, !Serialize Transaction, !Serialize BlockHeader, !Serialize (list Hash),
  !Serialize (Hash * Z * Z * Z), !Serialize StateSnapshot,
  !Serialize LedgerSnapshot, !Deserialize LedgerSnapshot,
  !Serialize LedgerEnvelope, !Deserialize LedgerEnvelope}.

Definition with_store (store : LedgerStore) (io_meta io_read : option string) (d : Disk)
  : result StorageError RpcState :=
  restored ← load store io_meta io_read d;
  Ok {| rs_chain_id := ls_chain_id store;
        rs_block_height := height restored;
        rs_mempool := mempool_new mempool_config_default;
        rs_state := rst_state restored;
        rs_blocks := rst_blocks restored;
        (** [collect()] into a map: a later receipt replaces an earlier one. *)
        rs_receipts := foldl (λ m r, <[rcpt_tx_hash r := r]> m) ∅ (rst_receipts restored);
        rs_store := store;
        rs_disk := d |}.
Definition in_memory (chain_id : Z) (d : Disk) : result StorageError RpcState :=
  store ← ephemeral chain_id; with_store store None None d.
Definition with_data_dir (chain_id : Z) (dir : string) (mkdir io_meta io_read : option string)
  (d : Disk) : result StorageError RpcState :=
  store ← open chain_id dir mkdir; with_store store io_meta io_read d.

(** [persist] on the receipts in the order [HashMap::values] yields them. *)
Definition receipt_compare (left right : Receipt) : comparison :=
  rcpt_block_height left ?= rcpt_block_height right.
Definition ledger_iter (chain_id : Z) (state : State) (blocks : list Block) (receipts : list Receipt)
  : LedgerSnapshot :=
  {| ldg_chain_id := chain_id; ldg_state := snapshot state; ldg_blocks := blocks;
     ldg_receipts := sort_by receipt_compare receipts |}.
Definition ledger_of (chain_id : Z) (state : State) (blocks : list Block)
  (receipts : gmap Hash Receipt) : LedgerSnapshot :=
  ledger_iter chain_id state blocks (map_to_list receipts).*2.
Definition rpc_persist (io : FsOp → option string) (state : State) (blocks : list Block)
  (receipts : gmap Hash Receipt) : ST RpcState RpcError unit := λ n,
  match persist (rs_store n) io (ledger_of (rs_chain_id n) state blocks receipts) (rs_disk n) with
  | (d, r) => (set_disk d n, map_err rpc_of_storage r)
  end.

Definition seed_accounts (io : FsOp → option string) (allocations : list (Address * Z))
  : ST RpcState RpcError unit :=
  n ← st_get;
  let candidate := foldl (λ s '(a, b), set_balance a b s) (rs_state n) allocations in
  _ ← rpc_persist io candidate (rs_blocks n) (rs_receipts n);
  st_modify (set_state candidate).

(** The checks and the values of [seal_next_block]: the gas guard, the execution on
    a clone of the state, the height after the previous block, the block and its
    receipt. *)
Definition gas_guard (tx : Transaction) : result RpcError unit :=
  let gas_used := tx_gas_limit tx in
  fail_if (BLOCK_GAS_LIMIT <? gas_used)
    (TransactionRejected ("transaction gas " +:+ fmt_dec gas_used
       +:+ " exceeds the block gas limit " +:+ fmt_dec BLOCK_GAS_LIMIT)).
Definition execute (tx : Transaction) (state : State) : result RpcError State :=
  match apply_transaction tx state with
  | (s, Ok _) => Ok s
  | (_, Err e) => Err (TransactionRejected (state_error_to_string e))
  end.
Definition height_after (previous_block : option Block) : result RpcError Z :=
  match previous_block with
  | Some b => ok_or (checked_add u64_max (hdr_height (blk_header b)) 1) Internal
  | None => Ok 1
  end.
Definition block_after (chain_id : Z) (previous_block : option Block) (tx : Transaction) (h : Hash)
  (post : State) (height now : Z) : Block :=
  {| blk_header :=
       {| hdr_version := 1;
          hdr_chain_id := chain_id;
          hdr_height := height;
          hdr_timestamp := unix_timestamp now;
          hdr_parent_hash := from_option block_hash Hash_ZERO previous_block;
          hdr_state_root := root post;
          hdr_tx_root := tx_root_of [h];
          hdr_receipt_root := receipt_root h height (tx_gas_limit tx);
          hdr_validator := Address_ZERO;
          hdr_gas_used := tx_gas_limit tx;
          hdr_gas_limit := BLOCK_GAS_LIMIT;
          hdr_extra_data := [] |};
     blk_transactions := [tx];
     blk_signatures := [] |}.
Definition next_block (n : RpcState) : Transaction → Hash → State → Z → Z → Block :=
  block_after (rs_chain_id n) (last (rs_blocks n)).
Definition next_receipt (b : Block) (h : Hash) : Receipt :=
  {| rcpt_tx_hash := h; rcpt_block_hash := block_hash b;
     rcpt_block_height := hdr_height (blk_header b); rcpt_gas_used := hdr_gas_used (blk_header b);
     rcpt_status := Success; rcpt_logs := []; rcpt_contract_address := None |}.

Definition seal_next_block (io : FsOp → option string) (now : Z) (h : Hash)
  : ST RpcState RpcError Receipt :=
  n ← st_get;
  tx ← st_lift (ok_or (mempool_get (rs_mempool n) h) RpcInvalidTxHash);
  _ ← st_lift (gas_guard tx);
  candidate_state ← st_lift (execute tx (rs_state n));
  height ← st_lift (height_after (last (rs_blocks n)));
  let block := next_block n tx h candidate_state height now in
  let receipt := next_receipt block h in
  let next_blocks := rs_blocks n ++ [block] in
  let next_receipts := <[h := receipt]> (rs_receipts n) in
  _ ← rpc_persist io candidate_state next_blocks next_receipts;
  _ ← st_modify (set_state candidate_state);
  _ ← st_modify (set_mempool (λ p, (mempool_remove h p).1));
  _ ← st_modify (set_blocks next_blocks);
  _ ← st_modify (set_receipts next_receipts);
  _ ← st_modify (set_height height);
  mret receipt.

Definition include_transaction (io : FsOp → option string) (now : Z) (h : Hash)
  : ST RpcState RpcError Receipt := seal_next_block io now h.

(** A failed rollback insertion is only logged. *)
Definition restore_pool (h : Hash) (previous_pending displaced : option Transaction) (p : Mempool)
  : Mempool :=
  foldl (λ p tx, (mempool_add tx p).1) (mempool_remove h p).1
    (omap id [previous_pending; displaced]).

(** [match self.seal_next_block(&admission.hash)] in [submit_transaction]. *)
Definition seal_or_restore (io : FsOp → option string) (now : Z) (admission : Admission)
  (previous_pending : option Transaction) : ST RpcState RpcError Hash := λ n,
  match seal_next_block io now (adm_hash admission) n with
  | (n, Ok receipt) => (n, Ok (rcpt_tx_hash receipt))
  | (n, Err e) =>
      (set_mempool (restore_pool (adm_hash admission) previous_pending (adm_displaced admission)) n,
       Err e)
  end.
Definition underpriced : RpcError :=
  TransactionRejected "a transaction with this sender and nonce already has an equal or higher gas price".
Definition submit_transaction (io : FsOp → option string) (now : Z) (tx : Transaction)
  : ST RpcState RpcError Hash :=
  n ← st_get;
  let previous_pending := snd <$> get_by_sender_nonce (rs_mempool n) (tx_from tx) (tx_nonce tx) in
  admission ← st_map_err (TransactionRejected ∘ mempool_error_to_string)
                (with_mempool (admit_tx tx));
  _ ← st_fail_if (negb (adm_accepted admission)) underpriced;
  seal_or_restore io now admission previous_pending.

(** ** Rolling an admission back *)

Lemma mempool_add_fst tx p : (mempool_add tx p).1 = (admit_tx tx p).1.
Proof. unfold mempool_add. run_unfold. by destruct (admit_tx tx p) as [? []]. Qed.
Lemma get_by_sender_nonce_slot p a n :
  pool_inv p → snd <$> get_by_sender_nonce p a n = slot p a n ≫= (mp_txs p !!.).
Proof.
  intros I. unfold get_by_sender_nonce, slot. destruct (mp_by_sender p !! a) as [m|]; [|done]. simpl.
  destruct (m !! n) as [h|]; [|done]. simpl. by destruct (mp_txs p !! h).
Qed.
Lemma removed_again p p' h tx :
  pool_inv p → pool_inv p' → mp_config p' = mp_config p → mp_txs p !! tx_hash tx = None →
  mp_txs p' = <[tx_hash tx := tx]> (delete h (mp_txs p)) →
  (mempool_remove (tx_hash tx) p').1 = (mempool_remove h p).1.
Proof.
  intros I I' Hc Hf Ht. destruct (mempool_remove_inv (tx_hash tx) p' I') as (I1 & C1 & T1 & _).
  destruct (mempool_remove_inv h p I) as (I2 & C2 & T2 & _).
  apply pool_ext; try done; [congruence|]. rewrite T1, T2, Ht. apply delete_insert_id.
  apply lookup_delete_None. by right.
Qed.
Lemma restore_pool_exact p p' tx adm :
  pool_inv p → (∀ t, mp_txs p !! tx_hash tx = Some t → t = tx) →
  admit_tx tx p = (p', Ok adm) → adm_accepted adm = true →
  restore_pool (adm_hash adm) (snd <$> get_by_sender_nonce p (tx_from tx) (tx_nonce tx))
    (adm_displaced adm) p' = p.
Proof.
  intros I Hcol Hrun Hacc. destruct (admit_run tx p p' (Ok adm) I Hrun) as (I' & Hc & _ & Had).
  rewrite get_by_sender_nonce_slot by done. unfold restore_pool.
  inversion Had as [[t Ht] Htx Hadm|h old Hf Hadmi Hs Hold Hle Htx Hadm
    |h old Hf Hadmi Hs Hold Hlt Htx Hadm|Hins Htx Hadm|h v Hf Hadmi Hs Hsl Hl Hv Htx Hadm];
    subst adm; simpl in *; try done.
  - pose proof (Hcol t Ht) as ->. assert (p' = p) as -> by (by apply pool_ext).
    destruct (ix_tx _ _ (pi_index _ I) _ _ Ht) as [_ Hslot].
    change (slot p (tx_from tx) (tx_nonce tx) = Some (tx_hash tx)) in Hslot.
    rewrite Hslot. simpl. rewrite Ht. simpl. by rewrite mempool_add_fst, readmit.
  - rewrite Hs. simpl. rewrite Hold. simpl. rewrite !mempool_add_fst.
    rewrite (removed_again p p' h tx) by done. rewrite (readmit p h old) by done. simpl.
    destruct (ix_tx _ _ (pi_index _ I) _ _ Hold) as [Hh _].
    rewrite admit_known; [done|done|]. by rewrite Hh.
  - rewrite (in_slot _ _ Hins). simpl.
    destruct (mempool_remove_inv (tx_hash tx) p' I') as (I1 & C1 & T1 & _).
    apply pool_ext; try done; [congruence|]. rewrite T1, <-Htx.
    apply delete_insert_id, Hins.
  - rewrite Hs. simpl. rewrite mempool_add_fst.
    rewrite (removed_again p p' h tx) by done. by rewrite (readmit p h v (I) (proj1 Hv)).
Qed.

(** ** What sealing does *)

Definition next_height (n : RpcState) : option Z :=
  match last (rs_blocks n) with
  | Some b => checked_add u64_max (hdr_height (blk_header b)) 1
  | None => Some 1
  end.
(** A successful seal of [tx] (hash [h]) on [n], with the ledger it wrote. *)
Record sealed (io : FsOp → option string) (now : Z) (n : RpcState) (h : Hash) (tx : Transaction)
  (post : State) (b : Block) (d' : Disk) : Prop := {
  sl_pool : mp_txs (rs_mempool n) !! h = Some tx;
  sl_gas : tx_gas_limit tx ≤ BLOCK_GAS_LIMIT;
  sl_exec : ∃ f, apply_transaction tx (rs_state n) = (post, Ok f);
  sl_block : ∃ ht, next_height n = Some ht ∧ b = next_block n tx h post ht now;
  sl_persist : persist (rs_store n) io
                 (ledger_of (rs_chain_id n) post (rs_blocks n ++ [b])
                    (<[h := next_receipt b h]> (rs_receipts n))) (rs_disk n) = (d', Ok ())
}.
Definition sealed_node (n : RpcState) (h : Hash) (post : State) (b : Block) (d' : Disk) : RpcState :=
  {| rs_chain_id := rs_chain_id n; rs_block_height := hdr_height (blk_header b);
     rs_mempool := (mempool_remove h (rs_mempool n)).1; rs_state := post;
     rs_blocks := rs_blocks n ++ [b];
     rs_receipts := <[h := next_receipt b h]> (rs_receipts n);
     rs_store := rs_store n; rs_disk := d' |}.
(** A failed commit leaves the disk alone, unless it fails at the directory sync:
    then the disk holds the ledger the commit would have published. *)
Definition left_behind (io : FsOp → option string) (n : RpcState) (d' : Disk)
  (P : LedgerSnapshot → Prop) : Prop :=
  (io SyncDir = None → d' = rs_disk n) ∧
  (d' = rs_disk n ∨ ∃ snap, P snap ∧ d_temp d' = None ∧ d_target d' = Some (stored snap) ∧
     ls_dir (rs_store n) ≠ None ∧ Z.of_nat (length (encode_ledger snap)) ≤ MAX_LEDGER_BYTES).
Lemma left_same io n P : left_behind io n (rs_disk n) P.
Proof. split; [done|by left]. Qed.
Lemma left_persist io n snap d' e (P : LedgerSnapshot → Prop) :
  d_temp (rs_disk n) = None → persist (rs_store n) io snap (rs_disk n) = (d', Err e) → P snap →
  left_behind io n d' P.
Proof.
  intros Ht Hp%persist_outcome HP; [|done]. destruct Hp as [Hio Hp]. split; [done|].
  destruct Hp as [|(? & ? & ? & ?)]; [by left|right]. by exists snap.
Qed.
Lemma left_mono io n d' P (Q : LedgerSnapshot → Prop) :
  (∀ snap, P snap → Q snap) → left_behind io n d' P → left_behind io n d' Q.
Proof. intros HPQ [Hio [->|(snap & HP & Hrest)]]; (split; [done|]); [by left|right]. eauto. Qed.
(** The ledger sealing [tx] on [n] writes. *)
Definition sealing (n : RpcState) (now : Z) (h : Hash) (snap : LedgerSnapshot) : Prop :=
  ∃ tx post f ht, mp_txs (rs_mempool n) !! h = Some tx ∧ tx_gas_limit tx ≤ BLOCK_GAS_LIMIT ∧
    apply_transaction tx (rs_state n) = (post, Ok f) ∧ next_height n = Some ht ∧
    let b := next_block n tx h post ht now in
    snap = ledger_of (rs_chain_id n) post (rs_blocks n ++ [b]) (<[h := next_receipt b h]> (rs_receipts n)).
Lemma seal_run io now h n n' r :
  d_temp (rs_disk n) = None → seal_next_block io now h n = (n', r) →
  match r with
  | Err _ => ∃ d', n' = set_disk d' n ∧ left_behind io n d' (sealing n now h)
  | Ok rc => ∃ tx post b d', sealed io now n h tx post b d' ∧ rc = next_receipt b h ∧
                             n' = sealed_node n h post b d'
  end.
Proof.
  intros Hst. unfold seal_next_block, gas_guard, execute, height_after, mempool_get, rpc_persist. run_unfold.
  assert (set_disk (rs_disk n) n = n) as Hid by (by destruct n).
  assert (∀ P, ∃ d', n = set_disk d' n ∧ left_behind io n d' P) as Hsame.
  { intros P. exists (rs_disk n). split; [done|apply left_same]. }
  destruct (mp_txs (rs_mempool n) !! h) as [tx|] eqn:Htx; [|intros [= <- <-]; apply Hsame].
  destruct (Z.ltb_spec BLOCK_GAS_LIMIT (tx_gas_limit tx)) as [|Hgas]; [intros [= <- <-]; apply Hsame|].
  destruct (apply_transaction tx (rs_state n)) as [post [f|e]] eqn:Hexec; [|intros [= <- <-]; apply Hsame].
  assert (∀ ht, next_height n = Some ht →
    match persist (rs_store n) io (ledger_of (rs_chain_id n) post
            (rs_blocks n ++ [next_block n tx h post ht now])
            (<[h := next_receipt (next_block n tx h post ht now) h]> (rs_receipts n))) (rs_disk n) with
    | (d', Ok _) => (sealed_node n h post (next_block n tx h post ht now) d',
                     Ok (next_receipt (next_block n tx h post ht now) h))
    | (d', Err e) => (set_disk d' n, Err (rpc_of_storage e))
    end = (n', r) →
    match r with
    | Err _ => ∃ d', n' = set_disk d' n ∧ left_behind io n d' (sealing n now h)
    | Ok rc => ∃ tx post b d', sealed io now n h tx post b d' ∧ rc = next_receipt b h ∧
                               n' = sealed_node n h post b d'
    end) as Hfin.
  { intros ht Hht. destruct (persist _ _ _ _) as [d' [[]|e]] eqn:Hp; intros [= <- <-].
    - eexists tx, post, _, d'. split; [|done]. split; eauto.
    - exists d'. split; [done|]. eapply left_persist; [done|exact Hp|]. by exists tx, post, f, ht. }
  unfold next_height in Hfin. destruct (last (rs_blocks n)) as [lb|] eqn:Hlast.
  - destruct (checked_add u64_max (hdr_height (blk_header lb)) 1) as [ht|];
      [|intros [= <- <-]; apply Hsame].
    specialize (Hfin ht eq_refl). intros Hrun. apply Hfin. rewrite <-Hrun. simpl.
    by destruct (persist _ _ _ _) as [d' [[]|e]].
  - specialize (Hfin 1 eq_refl). intros Hrun. apply Hfin. rewrite <-Hrun. simpl.
    by destruct (persist _ _ _ _) as [d' [[]|e]].
Qed.

Lemma admits_accepted p tx txs adm :
  (∀ t, mp_txs p !! tx_hash tx = Some t → t = tx) →
  admits p tx txs adm → adm_accepted adm = true →
  adm_hash adm = tx_hash tx ∧ txs !! tx_hash tx = Some tx.
Proof.
  intros Hcol Had Hacc. inversion Had as [[t Ht]| | | |]; subst; simpl in *; try done;
    (split; [done|]); try apply lookup_insert_eq. by rewrite Ht, (Hcol t Ht).
Qed.
Lemma submit_run io now tx n n' r :
  pool_inv (rs_mempool n) → d_temp (rs_disk n) = None →
  (∀ t, mp_txs (rs_mempool n) !! tx_hash tx = Some t → t = tx) →
  submit_transaction io now tx n = (n', r) →
  match r with
  | Err _ => ∃ d', n' = set_disk d' n ∧ left_behind io n d' (λ snap, ∃ p adm,
      admit_tx tx (rs_mempool n) = (p, Ok adm) ∧ adm_accepted adm = true ∧
      sealing (set_mempool (λ _, p) n) now (tx_hash tx) snap)
  | Ok h => h = tx_hash tx ∧ ∃ p adm post b d',
      admit_tx tx (rs_mempool n) = (p, Ok adm) ∧ adm_accepted adm = true ∧
      sealed io now (set_mempool (λ _, p) n) h tx post b d' ∧
      n' = sealed_node (set_mempool (λ _, p) n) h post b d'
  end.
Proof.
  intros I Hst Hcol. unfold submit_transaction, with_mempool, seal_or_restore. run_unfold.
  assert (set_disk (rs_disk n) n = n) as Hid by (by destruct n).
  destruct (admit_tx tx (rs_mempool n)) as [p [adm|e]] eqn:Had; simpl.
  2: { intros [= <- <-]. destruct (admit_run _ _ _ _ I Had) as (_ & _ & _ & ->).
       exists (rs_disk n). split; [by destruct n|apply left_same]. }
  destruct (adm_accepted adm) eqn:Hacc; simpl.
  2: { intros [= <- <-]. destruct (admit_run _ _ _ _ I Had) as (Ip & Hc & _ & Hadm).
       exists (rs_disk n). split; [|apply left_same]. assert (p = rs_mempool n) as ->; [|by destruct n].
       apply pool_ext; try done. by inversion Hadm; subst. }
  destruct (seal_next_block io now (adm_hash adm) (set_mempool (λ _, p) n)) as [n1 r1] eqn:Hseal.
  apply seal_run in Hseal; [|done]. destruct (admit_run _ _ _ _ I Had) as (_ & _ & _ & Hadm).
  destruct (admits_accepted _ _ _ _ Hcol Hadm Hacc) as [Hh Htx]. destruct r1 as [rc|e].
  - destruct Hseal as (tx' & post & b & d' & Hsl & -> & ->). intros [= <- <-]. rewrite Hh in *.
    split; [done|]. exists p, adm, post, b, d'. split_and!; try done.
    pose proof (sl_pool _ _ _ _ _ _ _ _ Hsl) as Htx'. simpl in Htx'.
    by rewrite Htx in Htx'; injection Htx' as <-.
  - destruct Hseal as (d' & -> & Hd). intros [= <- <-]. exists d'. rewrite Hh in *. split.
    2: { eapply left_mono; [|exact Hd]. intros snap Hsnap. by exists p, adm. }
    pose proof (restore_pool_exact (rs_mempool n) p tx adm I Hcol Had Hacc) as Hr.
    rewrite Hh in Hr. unfold set_mempool, set_disk. simpl. cbv [fmap] in Hr |- *. by rewrite Hr.
Qed.

(** ** The ledger a node maintains *)

Definition receipt_of (b : Block) : Receipt :=
  next_receipt b (default Hash_ZERO (tx_hash <$> head (blk_transactions b))).
Definition receipt_map (blocks : list Block) : gmap Hash Receipt :=
  list_to_map (map (λ b, (rcpt_tx_hash (receipt_of b), receipt_of b)) blocks).

Record ledger_inv (chain_id : Z) (st : State) (blocks : list Block) (receipts : gmap Hash Receipt)
  : Prop := {
  li_chain : chain_id ≠ 0;
  li_state_chain : state_chain_id st = chain_id;
  li_wf : state_wf st;
  li_linked : chain_from chain_id 0 Hash_ZERO blocks;
  li_hashes : NoDup (map block_hash blocks);
  li_receipts : receipts = receipt_map blocks;
  li_distinct : NoDup (map (λ b, rcpt_tx_hash (receipt_of b)) blocks);
  li_executed b tx : b ∈ blocks → tx ∈ blk_transactions b → tx_nonce tx < nonce st (tx_from tx)
}.

Lemma receipt_compare_order : CmpOrder receipt_compare.
Proof. apply (cmp_key_order rcpt_block_height Z.compare). Qed.
Lemma receipts_sorted chain_id blocks :
  chain_from chain_id 0 Hash_ZERO blocks →
  Sorted (cmp_le receipt_compare) (map receipt_of blocks).
Proof.
  intros Hc. apply StronglySorted_Sorted.
  assert (∀ (i0 : Z) first bs, chain_from chain_id i0 first bs →
    StronglySorted (cmp_le receipt_compare) (map receipt_of bs) ∧
    Forall (λ r, i0 < rcpt_block_height r) (map receipt_of bs)) as Hgen; [|by eapply Hgen].
  intros i0 first bs. revert i0 first. induction bs as [|b bs IH]; intros i0 first Hch.
  { split; constructor. }
  apply validate_blocks_Ok, validate_blocks_cons in Hch as [[tx Hok] Hch%validate_blocks_Ok].
  destruct (IH _ _ Hch) as [Hs Hall]. pose proof (bo_height _ _ _ _ _ Hok) as Hh. split; constructor.
  - done.
  - eapply Forall_impl; [exact Hall|]. intros r Hr. unfold cmp_le, receipt_compare. simpl in *.
    rewrite Hh, Z.compare_gt_iff. lia.
  - simpl. lia.
  - eapply Forall_impl; [exact Hall|]. simpl. lia.
Qed.
(** Whatever order the hash map yields the receipts in, the ledger written to
    disk is the same. *)
Lemma ledger_of_inv chain_id st blocks receipts rs :
  ledger_inv chain_id st blocks receipts → rs ≡ₚ (map_to_list receipts).*2 →
  ledger_iter chain_id st blocks rs
  = {| ldg_chain_id := chain_id; ldg_state := snapshot st; ldg_blocks := blocks;
       ldg_receipts := map receipt_of blocks |}.
Proof.
  intros L Hperm. unfold ledger_iter. f_equal.
  pose proof (receipts_sorted _ _ (li_linked _ _ _ _ L)) as Hs.
  assert (rs ≡ₚ map receipt_of blocks) as Hrs.
  { rewrite Hperm, (li_receipts _ _ _ _ L). unfold receipt_map. rewrite map_to_list_to_map.
    - by rewrite <-list_fmap_compose.
    - rewrite <-list_fmap_compose. apply (li_distinct _ _ _ _ L). }
  rewrite <-(sort_by_id receipt_compare (map receipt_of blocks)) by done.
  apply (sort_by_unique receipt_compare (CmpOrder0:=receipt_compare_order)); [done|].
  intros x y Hx Hy Hxy%Z.compare_eq_iff. rewrite Hrs in Hx, Hy.
  apply list_elem_of_fmap in Hx as (bx & -> & Hx), Hy as (by_ & -> & Hy).
  apply list_elem_of_lookup in Hx as [i Hi], Hy as [j Hj].
  pose proof (li_linked _ _ _ _ L) as Hc.
  destruct (Hc i bx Hi) as [tx Hokx], (Hc j by_ Hj) as [ty Hoky]. simpl in Hxy.
  rewrite (bo_height _ _ _ _ _ Hokx), (bo_height _ _ _ _ _ Hoky) in Hxy.
  assert (i = j) by lia. by simplify_eq.
Qed.

(** ** Appending a block *)

Lemma parent_of_app first bs b i :
  (i ≤ length bs)%nat → parent_of first (bs ++ [b]) i = parent_of first bs i.
Proof.
  intros Hi. destruct i as [|j]; [done|]. simpl. by rewrite lookup_app_l by lia.
Qed.
Lemma parent_of_length first bs :
  parent_of first bs (length bs) = from_option block_hash first (last bs).
Proof.
  destruct bs as [|b bs] using rev_ind; [done|]. rewrite last_snoc, length_app, Nat.add_comm. simpl.
  by rewrite lookup_app_r, Nat.sub_diag by lia.
Qed.
Lemma chain_from_snoc chain_id bs b tx :
  chain_from chain_id 0 Hash_ZERO bs →
  block_ok chain_id (Z.of_nat (length bs)) (from_option block_hash Hash_ZERO (last bs)) b tx →
  chain_from chain_id 0 Hash_ZERO (bs ++ [b]).
Proof.
  intros Hc Hb i b' Hi. apply lookup_app_Some in Hi as [Hi|[Hle Hi]].
  - rewrite parent_of_app by (apply lookup_lt_Some in Hi; lia). by apply Hc.
  - apply list_lookup_singleton_Some in Hi as [Hz <-]. assert (i = length bs) as -> by lia.
    exists tx. by rewrite parent_of_app, parent_of_length by done.
Qed.
Lemma chain_height chain_id bs b :
  chain_from chain_id 0 Hash_ZERO bs → last bs = Some b →
  hdr_height (blk_header b) = Z.of_nat (length bs).
Proof.
  intros Hc Hl. rewrite last_lookup in Hl. destruct (Hc _ _ Hl) as [tx Hok].
  rewrite (bo_height _ _ _ _ _ Hok). apply lookup_lt_Some in Hl. lia.
Qed.
Lemma next_height_length n :
  chain_from (rs_chain_id n) 0 Hash_ZERO (rs_blocks n) → ∀ ht, next_height n = Some ht →
  ht = Z.of_nat (length (rs_blocks n)) + 1 ∧ ht ≤ u64_max.
Proof.
  intros Hc ht. unfold next_height. destruct (last (rs_blocks n)) as [b|] eqn:Hl.
  - rewrite checked_add_Some, (chain_height _ _ _ Hc Hl). lia.
  - intros [= <-]. apply last_None in Hl. rewrite Hl. simpl. width.
Qed.

(** The transaction and the block do not collide with others in the ledger. *)
Record no_collision (blocks : list Block) (tx : Transaction) (b : Block) : Prop := {
  nc_tx b' t : b' ∈ blocks → t ∈ blk_transactions b' → tx_hash t = tx_hash tx → t = tx;
  nc_block : block_hash b ∉ map block_hash blocks
}.

Lemma next_block_ok n tx post ht now :
  ledger_inv (rs_chain_id n) (rs_state n) (rs_blocks n) (rs_receipts n) →
  next_height n = Some ht → tx_gas_limit tx ≤ BLOCK_GAS_LIMIT → tx_chain_id tx = rs_chain_id n →
  block_ok (rs_chain_id n) (Z.of_nat (length (rs_blocks n)))
    (from_option block_hash Hash_ZERO (last (rs_blocks n)))
    (next_block n tx (tx_hash tx) post ht now) tx.
Proof.
  intros L Hht Hgas Hchain.
  destruct (next_height_length n (li_linked _ _ _ _ L) ht Hht) as [-> Hmax].
  by split.
Qed.
Lemma fresh_tx_hash n tx post f b :
  ledger_inv (rs_chain_id n) (rs_state n) (rs_blocks n) (rs_receipts n) →
  tx_wf tx → apply_transaction tx (rs_state n) = (post, Ok f) → no_collision (rs_blocks n) tx b →
  tx_hash tx ∉ map (λ b, rcpt_tx_hash (receipt_of b)) (rs_blocks n).
Proof.
  intros L Htx Hexec Hnc (b' & Hh & Hin)%list_elem_of_fmap.
  pose proof Hin as Hin'. apply list_elem_of_lookup in Hin' as [i Hi].
  destruct (li_linked _ _ _ _ L i b' Hi) as [t Hok].
  pose proof (bo_txs _ _ _ _ _ Hok) as Htxs. unfold receipt_of in Hh. rewrite Htxs in Hh. simpl in Hh.
  assert (t ∈ blk_transactions b') as Ht by (rewrite Htxs; left).
  pose proof (nc_tx _ _ _ Hnc b' t Hin Ht (eq_sym Hh)) as ->.
  pose proof (li_executed _ _ _ _ L b' tx Hin Ht) as Hlt.
  apply apply_transaction_executed in Hexec as (_ & to & Hex & _); [|apply L|done].
  rewrite (ex_nonce _ _ _ Hex) in Hlt. lia.
Qed.
Lemma ledger_inv_snoc n tx post f ht now :
  ledger_inv (rs_chain_id n) (rs_state n) (rs_blocks n) (rs_receipts n) →
  tx_wf tx → apply_transaction tx (rs_state n) = (post, Ok f) →
  tx_gas_limit tx ≤ BLOCK_GAS_LIMIT → next_height n = Some ht →
  let b := next_block n tx (tx_hash tx) post ht now in
  no_collision (rs_blocks n) tx b →
  ledger_inv (rs_chain_id n) post (rs_blocks n ++ [b])
    (<[tx_hash tx := next_receipt b (tx_hash tx)]> (rs_receipts n)).
Proof.
  intros L Htx Hexec Hgas Hht b Hnc.
  pose proof (fresh_tx_hash n tx post f b L Htx Hexec Hnc) as Hfresh.
  destruct (apply_transaction_executed tx _ post f (li_wf _ _ _ _ L) Htx Hexec)
    as (_ & to & Hex & Hexd).
  assert (tx_chain_id tx = rs_chain_id n) as Htc
    by (by rewrite (ex_chain _ _ _ Hex), (li_state_chain _ _ _ _ L)).
  pose proof (next_block_ok n tx post ht now L Hht Hgas Htc) as Hok. fold b in Hok.
  split.
  - apply L.
  - rewrite (exd_chain _ _ _ _ Hexd). apply L.
  - by eapply apply_transaction_wf; [apply L| |].
  - eapply chain_from_snoc; [apply L|done].
  - rewrite map_app. apply NoDup_app. split_and!; [apply L| |apply NoDup_singleton].
    intros x Hx ->%list_elem_of_singleton. by apply (nc_block _ _ _ Hnc).
  - rewrite (li_receipts _ _ _ _ L). unfold receipt_map. rewrite map_app. simpl.
    rewrite list_to_map_snoc; [done|]. by rewrite <-list_fmap_compose.
  - rewrite map_app. apply NoDup_app. split_and!; [apply L| |apply NoDup_singleton].
    by intros x Hx ->%list_elem_of_singleton.
  - intros b' t Hb' Ht. rewrite (exd_nonce _ _ _ _ Hexd).
    apply elem_of_app in Hb' as [Hb'|Hb'%list_elem_of_singleton]; [|subst b'].
    + pose proof (li_executed _ _ _ _ L b' t Hb' Ht). case_decide; lia.
    + apply list_elem_of_singleton in Ht as ->. rewrite decide_True by done.
      rewrite (ex_nonce _ _ _ Hex). lia.
Qed.

(** ** The node invariant *)

Definition ledger_with (st : State) (blocks : list Block) : RestoredLedger :=
  {| rst_state := st; rst_blocks := blocks; rst_receipts := map receipt_of blocks |}.
Definition memory (n : RpcState) : RestoredLedger := ledger_with (rs_state n) (rs_blocks n).
Definition seeded (st : State) (allocations : list (Address * Z)) : State :=
  foldl (λ s '(a, b), set_balance a b s) st allocations.

(** A ledger whose values fit the Rust types they are encoded from. *)
Definition representable (snap : LedgerSnapshot) : Prop :=
  ledger_wf snap ∧ envelope_wf (envelope_of snap).
(** What a commit of [tx] relies on beyond the code: no hash collision with the
    ledger, and a representable result. *)
Definition good_commit (n : RpcState) (tx : Transaction) (now : Z) : Prop :=
  ∀ post f ht, apply_transaction tx (rs_state n) = (post, Ok f) → next_height n = Some ht →
    let b := next_block n tx (tx_hash tx) post ht now in
    no_collision (rs_blocks n) tx b ∧
    representable (ledger_of (rs_chain_id n) post (rs_blocks n ++ [b])
                     (<[tx_hash tx := next_receipt b (tx_hash tx)]> (rs_receipts n))).

(** [tx] collides with no pending transaction. *)
Definition pool_no_collision (n : RpcState) (tx : Transaction) : Prop :=
  ∀ t, mp_txs (rs_mempool n) !! tx_hash tx = Some t → t = tx.

(** What may go wrong in a run besides failing calls: seedings of a node that has
    blocks, and directory syncs that fail after the ledger was renamed in place. *)
Record Faults := { fl_late : bool; fl_unsynced : bool }.
(** [Node::bootstrap] seeds a node only before its first block. *)
Definition serving : Faults := {| fl_late := false; fl_unsynced := true |}.
Definition any_fault : Faults := {| fl_late := true; fl_unsynced := true |}.

(** The ledgers the disk of [n] may hold: the one in memory, or the one a call wrote
    that failed at the directory sync and was not published. *)
Inductive recoverable (fl : Faults) (n : RpcState) : RestoredLedger → Prop :=
| rec_memory : recoverable fl n (memory n)
| rec_block tx post f ht now :
    fl_unsynced fl = true → tx_wf tx → tx_gas_limit tx ≤ BLOCK_GAS_LIMIT →
    apply_transaction tx (rs_state n) = (post, Ok f) → next_height n = Some ht →
    no_collision (rs_blocks n) tx (next_block n tx (tx_hash tx) post ht now) →
    recoverable fl n (ledger_with post (rs_blocks n ++ [next_block n tx (tx_hash tx) post ht now]))
| rec_seed allocations :
    fl_unsynced fl = true → (fl_late fl = false → rs_blocks n = []) →
    Forall (λ e, is_u128 e.2) allocations →
    recoverable fl n (ledger_with (seeded (rs_state n) allocations) (rs_blocks n)).
(** The disk holds [l]: it loads unless its state root is not the newest block's. *)
Definition loads_as (store : LedgerStore) (d : Disk) (l : RestoredLedger) : Prop :=
  load store None None d = (_ ← root_check (rst_state l) (rst_blocks l); Ok l).
Record node_inv_at (fl : Faults) (n : RpcState) : Prop := {
  ni_pool : pool_inv (rs_mempool n);
  ni_pool_wf h tx : mp_txs (rs_mempool n) !! h = Some tx → tx_wf tx;
  ni_ledger : ledger_inv (rs_chain_id n) (rs_state n) (rs_blocks n) (rs_receipts n);
  ni_height : rs_block_height n = Z.of_nat (length (rs_blocks n));
  ni_store : ls_chain_id (rs_store n) = rs_chain_id n;
  ni_disk : d_temp (rs_disk n) = None;
  ni_rooted : fl_late fl = false → root_check (rs_state n) (rs_blocks n) = Ok ();
  ni_reload dir : ls_dir (rs_store n) = Some dir →
    ∃ l, recoverable fl n l ∧ loads_as (rs_store n) (rs_disk n) l
}.

Lemma nonce_seeded st allocations a : nonce (seeded st allocations) a = nonce st a.
Proof.
  revert st. induction allocations as [|[a' x] l IH]; intros st; [done|]. simpl. rewrite IH.
  unfold set_balance. by apply nonce_put_balance.
Qed.
Lemma seeded_inv st allocations :
  state_wf st → Forall (λ e, is_u128 e.2) allocations →
  state_wf (seeded st allocations) ∧
  state_chain_id (seeded st allocations) = state_chain_id st.
Proof.
  intros Hwf Hall. revert st Hwf. induction Hall as [|[a b] l Hb _ IH]; intros st Hwf; [done|]. simpl.
  by destruct (IH (set_balance a b st)) as [? ->]; [apply put_balance_wf|].
Qed.
Lemma ledger_inv_seeded chain_id st blocks receipts allocations :
  ledger_inv chain_id st blocks receipts → Forall (λ e, is_u128 e.2) allocations →
  ledger_inv chain_id (seeded st allocations) blocks receipts.
Proof.
  intros [? Hc Hwf ? ? ? ? Hex] Hal. destruct (seeded_inv st allocations Hwf Hal) as [Hwf' Hc'].
  split; try done; [by rewrite Hc'|]. intros b tx Hb Htx. rewrite nonce_seeded. by apply (Hex b).
Qed.
Lemma next_block_rooted n tx h post ht now :
  root_check post (rs_blocks n ++ [next_block n tx h post ht now]) = Ok ().
Proof. apply root_check_Ok. intros b. rewrite last_snoc. by intros [= <-]. Qed.
(** Every such ledger is linked, and rooted unless a late seeding is allowed. *)
Lemma recoverable_ledger fl n l :
  ledger_inv (rs_chain_id n) (rs_state n) (rs_blocks n) (rs_receipts n) → recoverable fl n l →
  ∃ st blocks, l = ledger_with st blocks ∧ ledger_inv (rs_chain_id n) st blocks (receipt_map blocks) ∧
    (fl_late fl = false → root_check (rs_state n) (rs_blocks n) = Ok () → root_check st blocks = Ok ()).
Proof.
  intros L [|tx post f ht now _ Htx Hgas Hexec Hht Hnc|al _ Hlate Hal]; do 2 eexists; (split; [done|]).
  - by rewrite <-(li_receipts _ _ _ _ L).
  - pose proof (ledger_inv_snoc n tx post f ht now L Htx Hexec Hgas Hht Hnc) as L'.
    rewrite (li_receipts _ _ _ _ L') in L'. split; [done|]. intros _ _. apply next_block_rooted.
  - rewrite <-(li_receipts _ _ _ _ L). split; [by apply ledger_inv_seeded|].
    intros Hl _. by rewrite (Hlate Hl).
Qed.
Lemma recoverable_same fl n n' l :
  rs_chain_id n' = rs_chain_id n → rs_state n' = rs_state n → rs_blocks n' = rs_blocks n →
  recoverable fl n l → recoverable fl n' l.
Proof.
  intros Hc Hs Hb [|tx post f ht now|al].
  - replace (memory n) with (memory n') by (unfold memory; by rewrite Hs, Hb). constructor.
  - assert (next_block n' = next_block n) as Hn by (unfold next_block; by rewrite Hc, Hb).
    rewrite <-Hb, <-Hn. apply (rec_block fl n' tx post f ht now); unfold next_height in *; by rewrite ?Hn, ?Hs, ?Hb.
  - rewrite <-Hs, <-Hb. apply rec_seed; by rewrite ?Hb.
Qed.

Lemma receipts_of_keys chain_id i first blocks :
  chain_from chain_id i first blocks →
  map receipt_key (map receipt_of blocks) ≡ₚ map block_key blocks.
Proof.
  intros Hc. rewrite map_map. erewrite map_ext_in; [done|]. intros b Hb.
  apply list_elem_of_In, list_elem_of_lookup in Hb as [j Hj]. destruct (Hc j b Hj) as [tx Hok].
  unfold receipt_key, block_key, receipt_of. by rewrite (bo_txs _ _ _ _ _ Hok).
Qed.
Lemma ledger_inv_valid chain_id st blocks receipts :
  ledger_inv chain_id st blocks receipts → root_check st blocks = Ok () →
  ledger_valid chain_id blocks (map receipt_of blocks) st.
Proof.
  intros L Hr. apply validate_chain_Ok.
  rewrite validate_chain_linked; [done|apply L|by eapply receipts_of_keys, L|apply L].
Qed.

Context `{!BincodeLaws LedgerSnapshot ledger_wf, !BincodeLaws LedgerEnvelope envelope_wf}.

Lemma stored_loads store dir chain_id st blocks receipts d :
  ls_dir store = Some dir → ls_chain_id store = chain_id → ledger_inv chain_id st blocks receipts →
  representable (ledger_of chain_id st blocks receipts) →
  Z.of_nat (length (encode_ledger (ledger_of chain_id st blocks receipts))) ≤ MAX_LEDGER_BYTES →
  d_target d = Some (stored (ledger_of chain_id st blocks receipts)) →
  loads_as store d (ledger_with st blocks).
Proof.
  intros Hdir Hc L [Hwf Henv] Hlen Ht. unfold loads_as.
  rewrite (load_stored (snap_ok:=ledger_wf) (env_ok:=envelope_wf) store dir
    (ledger_of chain_id st blocks receipts)) by (done || by rewrite Ht).
  unfold ledger_of. rewrite (ledger_of_inv _ _ _ _ (map_to_list receipts).*2 L) by done.
  unfold restore, chain_check. simpl. rewrite (li_state_chain _ _ _ _ L), Hc, Z.eqb_refl. simpl.
  rewrite from_snapshot_snapshot by (rewrite (li_state_chain _ _ _ _ L); apply L). simpl.
  rewrite validate_chain_linked; [|apply L|by eapply receipts_of_keys, L|apply L].
  by destruct (root_check st blocks).
Qed.
(** The disk after a save that succeeded. *)
Lemma persist_loads store io chain_id st blocks receipts d d' :
  ls_chain_id store = chain_id → d_temp d = None → ledger_inv chain_id st blocks receipts →
  representable (ledger_of chain_id st blocks receipts) →
  persist store io (ledger_of chain_id st blocks receipts) d = (d', Ok ()) →
  ∀ dir, ls_dir store = Some dir → loads_as store d' (ledger_with st blocks).
Proof.
  intros Hc Hst L Hrep Hp dir Hdir.
  destruct (persist_outcome store io _ d d' _ Hst Hp) as [_ Hout]. rewrite Hdir in Hout.
  destruct Hout as [-> Hlen]. by eapply stored_loads.
Qed.
Lemma node_reload fl n dir :
  node_inv_at fl n → fl_late fl = false → ls_dir (rs_store n) = Some dir →
  ∃ l, recoverable fl n l ∧ load (rs_store n) None None (rs_disk n) = Ok l.
Proof.
  intros I Hl Hdir. destruct (ni_reload _ _ I dir Hdir) as (l & Hrec & Hload). exists l. split; [done|].
  destruct (recoverable_ledger _ _ _ (ni_ledger _ _ I) Hrec) as (st & blocks & -> & _ & Hroot).
  unfold loads_as in Hload. simpl in Hload. by rewrite (Hroot Hl (ni_rooted _ _ I Hl)) in Hload.
Qed.
(** A call that failed: nothing was published, and the disk holds the ledger it held
    or the one the call wrote. *)
Lemma failed_inv fl io n d' P :
  node_inv_at fl n → (fl_unsynced fl = false → io SyncDir = None) → left_behind io n d' P →
  (∀ snap, P snap → fl_unsynced fl = true → ∃ st blocks receipts,
     snap = ledger_of (rs_chain_id n) st blocks receipts ∧ ledger_inv (rs_chain_id n) st blocks receipts ∧
     representable snap ∧ recoverable fl n (ledger_with st blocks)) →
  node_inv_at fl (set_disk d' n).
Proof.
  intros I Hio [Hsync Hd] HP. assert (d' = rs_disk n → node_inv_at fl (set_disk d' n)) as Hsame.
  { intros ->. by destruct n. }
  destruct Hd as [|(snap & Hsnap & Htemp & Ht & Hdir & Hlen)]; [auto|].
  destruct (fl_unsynced fl) eqn:Hu; [|auto].
  destruct (HP snap Hsnap eq_refl) as (st & blocks & receipts & -> & L & Hrep & Hrec).
  destruct I as [? ? ? ? Hst ? ? _]. split; try done. intros dir Hd. exists (ledger_with st blocks).
  split; [by apply (recoverable_same fl n)|]. simpl. by eapply stored_loads.
Qed.
Lemma sealed_inv fl io now n tx post b d' :
  node_inv_at fl n → sealed io now n (tx_hash tx) tx post b d' → good_commit n tx now →
  node_inv_at fl (sealed_node n (tx_hash tx) post b d') ∧
  ∀ dir, ls_dir (rs_store n) = Some dir →
    load (rs_store n) None None d' = Ok (memory (sealed_node n (tx_hash tx) post b d')).
Proof.
  intros I [Hpool Hgas [f Hexec] (ht & Hht & ->) Hpersist] Hgood.
  destruct (Hgood post f ht Hexec Hht) as [Hnc Hrep].
  pose proof (ni_pool_wf _ _ I _ _ Hpool) as Htx.
  pose proof (ledger_inv_snoc n tx post f ht now (ni_ledger _ _ I) Htx Hexec Hgas Hht Hnc) as L.
  destruct (mempool_remove_inv (tx_hash tx) (rs_mempool n) (ni_pool _ _ I)) as (Ip & _ & Ht & _).
  pose proof (persist_loads _ _ _ _ _ _ _ _ (ni_store _ _ I) (ni_disk _ _ I) L Hrep Hpersist) as Hload.
  split.
  - split; simpl; try done.
    + intros h t. rewrite Ht. intros [_ Hh]%lookup_delete_Some. by apply (ni_pool_wf _ _ I h).
    + rewrite length_app. simpl.
      destruct (next_height_length n (li_linked _ _ _ _ (ni_ledger _ _ I)) ht Hht). lia.
    + apply I.
    + eapply persist_temp; [apply I|exact Hpersist].
    + intros _. apply next_block_rooted.
    + intros dir Hdir. eexists. split; [apply rec_memory|]. by eapply Hload.
  - intros dir Hdir. rewrite (Hload dir Hdir). simpl. by rewrite next_block_rooted.
Qed.
Lemma set_mempool_inv fl n p :
  node_inv_at fl n → pool_inv p → (∀ h tx, mp_txs p !! h = Some tx → tx_wf tx) →
  node_inv_at fl (set_mempool (λ _, p) n).
Proof.
  intros [? ? ? ? ? ? ? Hr] ? ?. split; try done. intros dir Hdir.
  destruct (Hr dir Hdir) as (l & Hrec & Hl). exists l. split; [|done]. by apply (recoverable_same fl n).
Qed.
Lemma admits_wf p tx txs adm :
  (∀ h t, mp_txs p !! h = Some t → tx_wf t) → tx_wf tx → admits p tx txs adm →
  ∀ h t, txs !! h = Some t → tx_wf t.
Proof.
  intros Hwf Htx Had h t Hh. destruct Had; eauto;
    apply lookup_insert_Some in Hh as [[_ <-]|[_ Hh]]; eauto;
    apply lookup_delete_Some in Hh as [_ Hh]; eauto.
Qed.
(** A seal that failed, of a pending transaction with hash [h]. *)
Lemma seal_failed_inv fl io now n tx d' :
  node_inv_at fl n → (fl_unsynced fl = false → io SyncDir = None) → pool_no_collision n tx →
  good_commit n tx now → left_behind io n d' (sealing n now (tx_hash tx)) →
  node_inv_at fl (set_disk d' n).
Proof.
  intros I Hio Hcol Hgood Hleft. eapply failed_inv; [done..|].
  intros snap (t & post & f & ht & Hpool & Hgas & Hexec & Hht & ->) Hu.
  pose proof (ni_pool_wf _ _ I _ _ Hpool) as Htx. apply Hcol in Hpool as ->.
  destruct (Hgood post f ht Hexec Hht) as [Hnc Hrep]. do 3 eexists. split; [done|].
  split; [by eapply ledger_inv_snoc; [apply I|..]|]. split; [done|].
  by apply (rec_block fl n tx post f ht now).
Qed.

(** ** Starting, restarting and seeding *)

Lemma collect_receipts rs :
  NoDup (map rcpt_tx_hash rs) →
  foldl (λ (m : gmap Hash Receipt) r, <[rcpt_tx_hash r := r]> m) ∅ rs
  = list_to_map (map (λ r, (rcpt_tx_hash r, r)) rs).
Proof.
  induction rs as [|r rs IH] using rev_ind; [done|]. rewrite map_app. simpl.
  intros [Hnd [Hr _]]%NoDup_app. rewrite foldl_app. simpl. rewrite IH by done. rewrite map_app. simpl.
  rewrite list_to_map_snoc; [done|]. rewrite <-list_fmap_compose. intros Hin.
  by apply (Hr (rcpt_tx_hash r)); [|left].
Qed.
Lemma ledger_inv_empty chain_id st :
  chain_id ≠ 0 → state_chain_id st = chain_id → state_wf st → ledger_inv chain_id st [] ∅.
Proof.
  intros Hc Hs Hwf. split; [done..|intros i b; by rewrite lookup_nil|constructor|done|constructor|].
  by intros b tx ?%elem_of_nil.
Qed.
Lemma with_store_inv fl store d n :
  ls_chain_id store ≠ 0 → d_temp d = None →
  (∀ dir, ls_dir store = Some dir → d_target d = None ∨
     ∃ st blocks, ledger_inv (ls_chain_id store) st blocks (receipt_map blocks) ∧
       loads_as store d (ledger_with st blocks)) →
  with_store store None None d = Ok n →
  node_inv_at fl n ∧ load store None None d = Ok (memory n) ∧ rs_receipts n = receipt_map (rs_blocks n).
Proof.
  intros Hc Hst Hdisk Hrun. unfold with_store in Hrun. apply bind_Ok in Hrun as (l & Hl & [= <-]).
  assert (∃ st blocks, ledger_inv (ls_chain_id store) st blocks (receipt_map blocks) ∧
    root_check st blocks = Ok () ∧ l = ledger_with st blocks) as (st & blocks & L & Hroot & ->).
  { assert (load store None None d = Ok (empty_ledger store) → ∃ st blocks,
      ledger_inv (ls_chain_id store) st blocks (receipt_map blocks) ∧
      root_check st blocks = Ok () ∧ l = ledger_with st blocks) as Hempty.
    { intros He. rewrite He in Hl. injection Hl as <-.
      exists (with_chain_id (ls_chain_id store)), []. split; [by apply ledger_inv_empty|done]. }
    destruct (ls_dir store) as [dir|] eqn:Hdir; [|apply Hempty; unfold load; by rewrite Hdir].
    destruct (Hdisk dir eq_refl) as [Hnone|(st & blocks & L & Hl')].
    - apply Hempty. unfold load. by rewrite Hdir, Hnone.
    - unfold loads_as in Hl'. rewrite Hl' in Hl. apply bind_Ok in Hl as ([] & Hroot & [= <-]). eauto. }
  assert (foldl (λ (m : gmap Hash Receipt) r, <[rcpt_tx_hash r := r]> m) ∅ (map receipt_of blocks)
    = receipt_map blocks) as Hrc.
  { rewrite collect_receipts, !map_map; [done|]. rewrite map_map. apply L. }
  split_and!; [|exact Hl|exact Hrc]. split; simpl;
    [by apply (mempool_new_inv mempool_config_default)|done|by rewrite Hrc| |done|done|done|].
  - unfold height. simpl. destruct (last blocks) as [b|] eqn:Hlast; simpl.
    + apply (chain_height (ls_chain_id store)); [apply L|done].
    + by apply last_None in Hlast as ->.
  - intros dir Hdir. eexists. split; [apply rec_memory|]. unfold loads_as, memory. simpl.
    by rewrite Hroot, Hl.
Qed.
Lemma restart_inv fl n n' :
  node_inv_at fl n → with_store (rs_store n) None None (rs_disk n) = Ok n' →
  node_inv_at fl n' ∧ load (rs_store n) None None (rs_disk n) = Ok (memory n') ∧
  (ls_dir (rs_store n) ≠ None → recoverable fl n (memory n')).
Proof.
  intros I Hrun. pose proof (ni_store _ _ I) as Hs.
  assert (∀ dir, ls_dir (rs_store n) = Some dir → ∃ st blocks, recoverable fl n (ledger_with st blocks) ∧
    ledger_inv (rs_chain_id n) st blocks (receipt_map blocks) ∧
    loads_as (rs_store n) (rs_disk n) (ledger_with st blocks)) as Hdisk.
  { intros dir Hdir. destruct (ni_reload _ _ I dir Hdir) as (l & Hrec & Hl).
    destruct (recoverable_ledger _ _ _ (ni_ledger _ _ I) Hrec) as (st & blocks & -> & L & _). eauto. }
  destruct (with_store_inv fl (rs_store n) (rs_disk n) n') as (I' & Hl' & _); try done.
  - rewrite Hs. apply (li_chain _ _ _ _ (ni_ledger _ _ I)).
  - apply I.
  - intros dir (st & blocks & _ & L & Hl)%Hdisk. right. rewrite Hs. eauto.
  - split_and!; [done|done|]. intros Hdir. destruct (ls_dir (rs_store n)) as [dir|]; [|done].
    destruct (Hdisk dir eq_refl) as (st & blocks & Hrec & _ & Hl).
    unfold loads_as in Hl. rewrite Hl' in Hl. symmetry in Hl. apply bind_Ok in Hl as ([] & _ & [= Hst Hbl _]).
    unfold memory. by rewrite <-Hst, <-Hbl.
Qed.

Lemma seed_run io allocations n n' r :
  d_temp (rs_disk n) = None → seed_accounts io allocations n = (n', r) →
  match r with
  | Ok _ => ∃ d', n' = set_state (seeded (rs_state n) allocations) (set_disk d' n) ∧
      persist (rs_store n) io (ledger_of (rs_chain_id n) (seeded (rs_state n) allocations)
                                 (rs_blocks n) (rs_receipts n)) (rs_disk n) = (d', Ok ())
  | Err _ => ∃ d', n' = set_disk d' n ∧ left_behind io n d' (λ snap,
      snap = ledger_of (rs_chain_id n) (seeded (rs_state n) allocations) (rs_blocks n) (rs_receipts n))
  end.
Proof.
  intros Hst. unfold seed_accounts, rpc_persist. run_unfold.
  fold (seeded (rs_state n) allocations).
  destruct (persist _ _ _ _) as [d' [[]|e]] eqn:Hp; intros [= <- <-]; [by exists d'|].
  exists d'. split; [done|]. by eapply left_persist.
Qed.
Lemma seed_done fl io allocations n d' :
  node_inv_at fl n → (fl_late fl = false → rs_blocks n = []) → Forall (λ e, is_u128 e.2) allocations →
  representable (ledger_of (rs_chain_id n) (seeded (rs_state n) allocations)
                   (rs_blocks n) (rs_receipts n)) →
  persist (rs_store n) io (ledger_of (rs_chain_id n) (seeded (rs_state n) allocations)
                             (rs_blocks n) (rs_receipts n)) (rs_disk n) = (d', Ok ()) →
  node_inv_at fl (set_state (seeded (rs_state n) allocations) (set_disk d' n)).
Proof.
  intros I Hb Hall Hrep Hp.
  pose proof (ledger_inv_seeded _ _ _ _ allocations (ni_ledger _ _ I) Hall) as L'.
  pose proof (persist_loads _ _ _ _ _ _ _ _ (ni_store _ _ I) (ni_disk _ _ I) L' Hrep Hp) as Hload.
  pose proof (persist_temp _ _ _ _ _ _ (ni_disk _ _ I) Hp) as Htemp.
  destruct I. split; simpl; try done.
  - intros Hl. by rewrite (Hb Hl).
  - intros dir Hdir. eexists. split; [apply rec_memory|]. by eapply Hload.
Qed.
Lemma seed_inv fl io allocations n n' r :
  node_inv_at fl n → (fl_late fl = false → rs_blocks n = []) → Forall (λ e, is_u128 e.2) allocations →
  (fl_unsynced fl = false → io SyncDir = None) →
  representable (ledger_of (rs_chain_id n) (seeded (rs_state n) allocations)
                   (rs_blocks n) (rs_receipts n)) →
  seed_accounts io allocations n = (n', r) → node_inv_at fl n'.
Proof.
  intros I Hb Hall Hio Hrep Hrun. apply seed_run in Hrun; [|apply I].
  destruct r as [[]|e]; destruct Hrun as (d' & -> & Hp); [by eapply seed_done|].
  pose proof (ledger_inv_seeded _ _ _ _ allocations (ni_ledger _ _ I) Hall) as L'.
  eapply failed_inv; [done..|]. intros snap -> Hu. do 3 eexists. split_and!; [done..|]. by apply rec_seed.
Qed.

(** ** Any sequence of operations *)

Inductive node_step_at (fl : Faults) : RpcState → RpcState → Prop :=
| step_submit io now tx n n' r :
    tx_wf tx → (fl_unsynced fl = false → io SyncDir = None) → pool_no_collision n tx →
    good_commit n tx now → submit_transaction io now tx n = (n', r) → node_step_at fl n n'
| step_include io now tx n n' r :
    (fl_unsynced fl = false → io SyncDir = None) → pool_no_collision n tx → good_commit n tx now →
    include_transaction io now (tx_hash tx) n = (n', r) → node_step_at fl n n'
| step_seed io allocations n n' r :
    (fl_late fl = false → rs_blocks n = []) → Forall (λ e, is_u128 e.2) allocations →
    (fl_unsynced fl = false → io SyncDir = None) →
    representable (ledger_of (rs_chain_id n) (seeded (rs_state n) allocations)
                     (rs_blocks n) (rs_receipts n)) →
    seed_accounts io allocations n = (n', r) → node_step_at fl n n'
| step_restart n n' :
    with_store (rs_store n) None None (rs_disk n) = Ok n' → node_step_at fl n n'.

Lemma admitted_inv fl n tx p adm :
  node_inv_at fl n → tx_wf tx → admit_tx tx (rs_mempool n) = (p, Ok adm) →
  node_inv_at fl (set_mempool (λ _, p) n).
Proof.
  intros I Htx Had. destruct (admit_run _ _ _ _ (ni_pool _ _ I) Had) as (Ip & _ & _ & Hadm).
  apply set_mempool_inv; [done|done|]. by apply (admits_wf (rs_mempool n) tx _ adm); [apply I| |].
Qed.
Lemma submit_inv fl io now tx n n' r :
  node_inv_at fl n → tx_wf tx → (fl_unsynced fl = false → io SyncDir = None) →
  pool_no_collision n tx → good_commit n tx now →
  submit_transaction io now tx n = (n', r) → node_inv_at fl n'.
Proof.
  intros I Htx Hio Hcol Hgood Hrun. apply submit_run in Hrun; [|apply I|apply I|done].
  destruct r as [h|e].
  - destruct Hrun as (-> & p & adm & post & b & d' & Had & _ & Hsl & ->).
    by apply (sealed_inv fl io now); [eapply admitted_inv|..].
  - destruct Hrun as (d' & -> & Hleft). eapply failed_inv; [done..|].
    intros snap (p & adm & Had & Hacc & t & post & f & ht & Hpool & Hgas & Hexec & Hht & ->) Hu.
    destruct (admit_run _ _ _ _ (ni_pool _ _ I) Had) as (_ & _ & _ & Hadm).
    destruct (admits_accepted _ _ _ _ Hcol Hadm Hacc) as [_ Htxp]. simpl in Hpool.
    rewrite Htxp in Hpool. injection Hpool as <-.
    destruct (Hgood post f ht Hexec Hht) as [Hnc Hrep]. do 3 eexists. split; [done|].
    split; [by apply (ledger_inv_snoc n tx post f ht now); [apply I|..]|]. split; [done|].
    by apply (rec_block fl n tx post f ht now).
Qed.
Lemma node_step_inv fl n n' : node_step_at fl n n' → node_inv_at fl n → node_inv_at fl n'.
Proof.
  intros [io now tx m m' r Htx Hio Hcol Hg Hrun|io now tx m m' r Hio Hcol Hg Hrun
    |io al m m' r Hb Hal Hio Hrep Hrun|m m' Hrun] I.
  - by eapply submit_inv.
  - apply seal_run in Hrun; [|apply I]. destruct r as [rc|e].
    + destruct Hrun as (t & post & b & d' & Hsl & _ & ->).
      pose proof (sl_pool _ _ _ _ _ _ _ _ Hsl) as Hp. apply Hcol in Hp. subst t.
      by apply (sealed_inv fl io now).
    + destruct Hrun as (d' & -> & Hd). by eapply seal_failed_inv.
  - by eapply seed_inv.
  - by eapply restart_inv.
Qed.

(** ** When a submission succeeds *)

(** The candidate ledger stays within the size limit of a durable store. *)
Definition fits (n : RpcState) (tx : Transaction) (now : Z) : Prop :=
  ∀ post f ht, apply_transaction tx (rs_state n) = (post, Ok f) → next_height n = Some ht →
    let b := next_block n tx (tx_hash tx) post ht now in
    Z.of_nat (length (encode_ledger (ledger_of (rs_chain_id n) post (rs_blocks n ++ [b])
      (<[tx_hash tx := next_receipt b (tx_hash tx)]> (rs_receipts n))))) ≤ MAX_LEDGER_BYTES.
Lemma persist_no_error store snap d :
  chain_check store snap = Ok () → Z.of_nat (length (encode_ledger snap)) ≤ MAX_LEDGER_BYTES →
  ∃ d', persist store (λ _, None) snap d = (d', Ok ()).
Proof.
  intros Hc Hlen. destruct (ls_dir store) as [dir|] eqn:Hdir.
  - rewrite (persist_run _ dir), Hc, (proj2 (Z.ltb_ge _ _)) by done. by eexists.
  - unfold persist. rewrite Hdir. run_unfold. rewrite Hc. by eexists.
Qed.
Lemma seal_succeeds fl now n tx post f :
  node_inv_at fl n → mp_txs (rs_mempool n) !! tx_hash tx = Some tx → tx_gas_limit tx ≤ BLOCK_GAS_LIMIT →
  apply_transaction tx (rs_state n) = (post, Ok f) →
  Z.of_nat (length (rs_blocks n)) < u64_max → fits n tx now →
  is_ok (seal_next_block (λ _, None) now (tx_hash tx) n).2 = true.
Proof.
  intros I Hp Hgas Hexec Hlen Hfit. pose proof (ni_ledger _ _ I) as L.
  assert (∃ ht, next_height n = Some ht) as [ht Hht].
  { unfold next_height. destruct (last (rs_blocks n)) as [b|] eqn:Hl; [|eauto].
    rewrite (chain_height _ _ _ (li_linked _ _ _ _ L) Hl).
    eexists. by apply checked_add_Some; split; [|lia]. }
  specialize (Hfit post f ht Hexec Hht). simpl in Hfit.
  destruct (seal_next_block _ now (tx_hash tx) n) as [n' [rc|e]] eqn:Hrun; [done|]. exfalso.
  unfold seal_next_block, gas_guard, execute, height_after, mempool_get, rpc_persist in Hrun. run_unfold. rewrite Hp in Hrun.
  rewrite (proj2 (Z.ltb_ge _ _)), Hexec in Hrun by lia.
  assert (∃ d', persist (rs_store n) (λ _, None) (ledger_of (rs_chain_id n) post
    (rs_blocks n ++ [next_block n tx (tx_hash tx) post ht now])
    (<[tx_hash tx := next_receipt (next_block n tx (tx_hash tx) post ht now) (tx_hash tx)]>
       (rs_receipts n))) (rs_disk n) = (d', Ok ())) as [d' Hpersist].
  { apply persist_no_error; [|done]. unfold chain_check. simpl.
    assert (state_chain_id post = rs_chain_id n) as ->; [|by rewrite (ni_store _ _ I), Z.eqb_refl].
    rewrite <-(li_state_chain _ _ _ _ L).
    destruct (apply_transaction_inv _ _ _ _ (li_wf _ _ _ _ L) (ni_pool_wf _ _ I _ _ Hp) Hexec)
      as (_ & to & _ & ->). by case_decide. }
  unfold next_height in Hht. destruct (last (rs_blocks n)) as [b|].
  - rewrite Hht in Hrun. simpl in Hrun. by rewrite Hpersist in Hrun.
  - injection Hht as <-. simpl in Hrun. by rewrite Hpersist in Hrun.
Qed.
End rpc.
(** A node as [Node::bootstrap] runs it, every file operation of which may fail. *)
Notation node_inv := (node_inv_at serving).
Notation node_step := (node_step_at serving).

(** ** Claims *)

(** C3. A submission that fails leaves no trace: the pool, the state, the block
    history, the receipts and the height are exactly what they were before,
    whatever the failure (admission, execution or a file operation), and so is
    the disk unless the failing operation is the last directory sync. *)
Theorem submit_failure_atomic `{!Blake3, !Hex, !Serialize Transaction, !Serialize BlockHeader,
    !Serialize (list Hash), !Serialize (Hash * Z * Z * Z), !Serialize StateSnapshot,
    !Serialize LedgerSnapshot, !Deserialize LedgerSnapshot, !Serialize LedgerEnvelope,
    !Deserialize LedgerEnvelope}
    (io : FsOp → option string) (now : Z) (tx : Transaction) (n n' : RpcState) (e : RpcError) :
  node_inv n → pool_no_collision n tx → submit_transaction io now tx n = (n', Err e) →
  (∃ d', n' = set_disk d' n) ∧ (io SyncDir = None → n' = n).
Proof.
  intros I Hcol Hrun. apply submit_run in Hrun as (d' & -> & Hd); [|apply I|apply I|done].
  split; [by exists d'|]. intros Hio. destruct Hd as [Hd _]. rewrite (Hd Hio). by destruct n.
Qed.

(** C4. A submission that succeeds has committed its transaction: the returned
    hash is the transaction's, the transaction executed against the state with
    exactly its documented effect, one block holding it was appended at the next
    height, its receipt is found under the hash, it left the pool, and a durable
    node restarted from its disk comes back with this very ledger. *)
Theorem submit_commits `{!Blake3, !Hex, !Serialize Transaction, !Serialize BlockHeader,
    !Serialize (list Hash), !Serialize (Hash * Z * Z * Z), !Serialize StateSnapshot,
    !Serialize LedgerSnapshot, !Deserialize LedgerSnapshot, !Serialize LedgerEnvelope,
    !Deserialize LedgerEnvelope, !BincodeLaws LedgerSnapshot ledger_wf,
    !BincodeLaws LedgerEnvelope envelope_wf}
    (io : FsOp → option string) (now : Z) (tx : Transaction) (n n' : RpcState) (h : Hash) :
  node_inv n → tx_wf tx → pool_no_collision n tx → good_commit n tx now →
  submit_transaction io now tx n = (n', Ok h) →
  h = tx_hash tx ∧ ∃ to b,
    executable (rs_state n) tx to ∧ executed (rs_state n) tx to (rs_state n') ∧
    rs_blocks n' = rs_blocks n ++ [b] ∧ blk_transactions b = [tx] ∧
    rs_block_height n' = rs_block_height n + 1 ∧ block_at_height n' (rs_block_height n') = Some b ∧
    rpc_receipt n' h = Some (receipt_of b) ∧ mempool_contains (rs_mempool n') h = false ∧
    (∀ dir, ls_dir (rs_store n') = Some dir → load (rs_store n') None None (rs_disk n') = Ok (memory n')).
Proof.
  intros I Htx Hcol Hgood Hrun. apply submit_run in Hrun; [|apply I|apply I|done].
  destruct Hrun as (-> & p & adm & post & b & d' & Had & _ & Hsl & ->). split; [done|].
  destruct (admit_run _ _ _ _ (ni_pool _ _ I) Had) as (Ip & _ & _ & Hadm).
  pose proof (admitted_inv _ n tx p adm I Htx Had) as In.
  destruct (sealed_inv serving io now _ tx post b d' In Hsl Hgood) as [_ Hload].
  destruct (mempool_remove_inv (tx_hash tx) p Ip) as (_ & _ & Ht & _).
  destruct Hsl as [_ Hgas [f Hexec] (ht & Hht & ->) _]. simpl in Hexec.
  destruct (apply_transaction_executed _ _ _ _ (li_wf _ _ _ _ (ni_ledger _ _ I)) Htx Hexec)
    as (_ & to & Hex & Hexd).
  destruct (next_height_length _ (li_linked _ _ _ _ (ni_ledger _ _ In)) ht Hht)
    as [Hlen _]. simpl in Hlen. rewrite (ni_height _ _ I).
  exists to, (next_block n tx (tx_hash tx) post ht now). split_and!; try done.
  - unfold block_at_height, checked_sub. simpl. rewrite Hlen, (proj2 (Z.leb_le 1 _)) by lia. simpl.
    replace (Z.to_nat _) with (length (rs_blocks n)) by lia. by rewrite list_lookup_middle.
  - unfold rpc_receipt. simpl. by rewrite lookup_insert_eq.
  - unfold mempool_contains. simpl. rewrite Ht, lookup_delete_eq. done.
Qed.

(** C30. A submission that should succeed does: on a healthy disk with room, a
    transaction the pool must take (and that outbids whatever holds its slot),
    that is executable and within the block gas limit, is committed. *)
Theorem submit_succeeds `{!Blake3, !Hex, !Serialize Transaction, !Serialize BlockHeader,
    !Serialize (list Hash), !Serialize (Hash * Z * Z * Z), !Serialize StateSnapshot,
    !Serialize LedgerSnapshot, !Deserialize LedgerSnapshot, !Serialize LedgerEnvelope,
    !Deserialize LedgerEnvelope}
    (now : Z) (tx : Transaction) (to : Address) (n : RpcState) :
  node_inv n → tx_wf tx → pool_no_collision n tx → admit_ok (rs_mempool n) tx →
  (∀ h old, slot (rs_mempool n) (tx_from tx) (tx_nonce tx) = Some h →
     mp_txs (rs_mempool n) !! h = Some old → h ≠ tx_hash tx → tx_gas_price old < tx_gas_price tx) →
  executable (rs_state n) tx to → tx_gas_limit tx ≤ BLOCK_GAS_LIMIT →
  Z.of_nat (length (rs_blocks n)) < u64_max → fits n tx now →
  ∃ n', submit_transaction (λ _, None) now tx n = (n', Ok (tx_hash tx)).
Proof.
  intros I Htx Hcol Hadm Hbid Hex Hgas Hlen Hfit.
  destruct (submit_transaction (λ _, None) now tx n) as [n' r] eqn:Hrun. exists n'. f_equal.
  pose proof (submit_run _ _ _ _ _ _ (ni_pool _ _ I) (ni_disk _ _ I) Hcol Hrun) as Hout.
  destruct r as [h|e]; [by destruct Hout as [-> _]|]. exfalso. clear Hout. revert Hrun.
  unfold submit_transaction, with_mempool, seal_or_restore. run_unfold.
  destruct (admit_tx tx (rs_mempool n)) as [p r] eqn:Had.
  destruct (admit_run _ _ _ _ (ni_pool _ _ I) Had) as (Ip & _ & Hiff & Hout).
  destruct r as [adm|e']; [|by apply Hiff in Hadm]. simpl.
  assert (adm_accepted adm = true) as Hacc.
  { inversion Hout as [|h old Hf _ Hs Hold Hle| | |]; subst; simpl; try done.
    assert (h ≠ tx_hash tx) as Hne by congruence. pose proof (Hbid h old Hs Hold Hne). lia. }
  rewrite Hacc. simpl. destruct (admits_accepted _ _ _ _ Hcol Hout Hacc) as [-> Htxp].
  destruct (apply_transaction_executable tx to _ Htx (li_wf _ _ _ _ (ni_ledger _ _ I)) Hex) as [post Hexec].
  pose proof (admitted_inv _ n tx p adm I Htx Had) as In.
  pose proof (seal_succeeds serving now (set_mempool (λ _, p) n) tx post _ In Htxp Hgas Hexec Hlen Hfit) as Hok.
  by destruct (seal_next_block _ now (tx_hash tx) (set_mempool (λ _, p) n)) as [? []].
Qed.

(** C6. Every node reachable from a fresh one satisfies the node invariant, by any
    sequence of submissions (accepted or not), inclusions, seedings and restarts with
    any file operation failing: the pool is consistent, the ledger is a hash-linked
    chain whose receipts are exactly those of its blocks, and the disk holds the ledger
    in memory or, where a directory sync failed after the rename, the ledger of the
    call that failed so. That ledger loads unless its state was seeded after its
    newest block. The faults are a parameter: where no directory sync fails the disk
    holds the ledger in memory, and where seeding stops at the first block, as in
    [Node::bootstrap], it always loads. Values are within their Rust types, and no
    BLAKE3 collision occurs. *)
Theorem node_reachable_inv `{!Blake3, !Hex, !Serialize Transaction, !Serialize BlockHeader,
    !Serialize (list Hash), !Serialize (Hash * Z * Z * Z), !Serialize StateSnapshot,
    !Serialize LedgerSnapshot, !Deserialize LedgerSnapshot, !Serialize LedgerEnvelope,
    !Deserialize LedgerEnvelope, !BincodeLaws LedgerSnapshot ledger_wf,
    !BincodeLaws LedgerEnvelope envelope_wf}
    (fl : Faults) (store : LedgerStore) (d : Disk) (n0 n : RpcState) :
  ls_chain_id store ≠ 0 → stable d → d_target d = None → with_store store None None d = Ok n0 →
  rtc (node_step_at fl) n0 n →
  node_inv_at fl n ∧
  (fl_unsynced fl = false → ls_dir (rs_store n) ≠ None → loads_as (rs_store n) (rs_disk n) (memory n)) ∧
  (fl_late fl = false → ls_dir (rs_store n) ≠ None →
     ∃ l, recoverable fl n l ∧ load (rs_store n) None None (rs_disk n) = Ok l).
Proof.
  intros Hc Hst Hd Hstart Hsteps.
  assert (node_inv_at fl n0) as I0 by (apply (with_store_inv fl store d); auto; apply Hst). clear Hstart.
  assert (node_inv_at fl n) as I.
  { induction Hsteps as [|x y z Hxy _ IH]; [done|]. by apply IH, (node_step_inv fl x). }
  split_and!; [done|..]; intros Hfl Hdir; destruct (ls_dir (rs_store n)) as [dir|] eqn:Hn; try done.
  - destruct (ni_reload _ _ I dir Hn) as (l & Hrec & Hl). by destruct Hrec; [|congruence..].
  - by eapply node_reload.
Qed.

(** The ledger file is byte-stable: the bytes written do not depend on the
    order in which the receipt map is iterated. *)
Theorem ledger_file_deterministic `{!Blake3, !Hex, !Serialize Transaction, !Serialize BlockHeader,
    !Serialize (list Hash), !Serialize (Hash * Z * Z * Z), !Serialize StateSnapshot,
    !Serialize LedgerSnapshot, !Deserialize LedgerSnapshot, !Serialize LedgerEnvelope,
    !Deserialize LedgerEnvelope} (n : RpcState) (rs : list Receipt) :
  node_inv n → rs ≡ₚ (map_to_list (rs_receipts n)).*2 →
  encode_ledger (ledger_iter (rs_chain_id n) (rs_state n) (rs_blocks n) rs)
  = encode_ledger (ledger_of (rs_chain_id n) (rs_state n) (rs_blocks n) (rs_receipts n)).
Proof.
  intros I Hperm. unfold ledger_of. by rewrite !(ledger_of_inv _ _ _ _ _ (ni_ledger _ _ I)).
Qed.

(** *** Concrete runs *)
Import Ref.

Definition node0 : RpcState :=
  {| rs_chain_id := 1; rs_block_height := 0; rs_mempool := mempool_new mempool_config_default;
     rs_state := with_chain_id 1; rs_blocks := []; rs_receipts := ∅; rs_store := store1;
     rs_disk := empty_disk |}.
Lemma node0_start : with_store store1 None None empty_disk = Ok node0.
Proof. done. Qed.
Lemma node0_inv : node_inv node0.
Proof.
  apply (with_store_inv serving store1 empty_disk); [done|apply empty_disk_stable|by left|apply node0_start].
Qed.
Definition node1 : RpcState := (seed_accounts no_error [(Address_ZERO, 100000)] node0).1.
Lemma representable_compute snap :
  bool_decide (ledger_wf snap ∧ envelope_wf (envelope_of snap)) = true → representable snap.
Proof. apply bool_decide_eq_true_1. Qed.
Lemma node1_step_at fl : node_step_at fl node0 node1.
Proof.
  apply (step_seed fl no_error [(Address_ZERO, 100000)] node0 node1
    (seed_accounts no_error [(Address_ZERO, 100000)] node0).2).
  - done.
  - constructor; [by apply (bool_decide_unpack _)|constructor].
  - done.
  - apply representable_compute. by vm_compute.
  - apply surjective_pairing.
Qed.
Lemma node1_step : node_step node0 node1.
Proof. apply node1_step_at. Qed.
Lemma node1_inv : node_inv node1.
Proof. apply (node_step_inv serving node0); [apply node1_step|apply node0_inv]. Qed.
Lemma node1_no_collision : pool_no_collision node1 sample_transfer.
Proof.
  intros t. assert (mp_txs (rs_mempool node1) = ∅) as -> by (by vm_compute). by rewrite lookup_empty.
Qed.
Lemma node1_exec post f ht :
  apply_transaction sample_transfer (rs_state node1) = (post, Ok f) → next_height node1 = Some ht →
  post = (apply_transaction sample_transfer (rs_state node1)).1 ∧ ht = 1.
Proof.
  intros Hexec Hht. rewrite Hexec. split; [done|].
  assert (next_height node1 = Some 1) as H1 by (by vm_compute). congruence.
Qed.
Lemma no_collision_nil tx b : no_collision [] tx b.
Proof. split; [by intros b' t ?%elem_of_nil|simpl; by intros ?%elem_of_nil]. Qed.
Lemma node1_good_commit : good_commit node1 sample_transfer 7.
Proof.
  intros post f ht Hexec Hht. destruct (node1_exec post f ht Hexec Hht) as [-> ->]. clear Hexec Hht.
  assert (∀ b, no_collision (rs_blocks node1) sample_transfer b) as Hnc.
  { assert (rs_blocks node1 = []) as -> by (by vm_compute). apply no_collision_nil. }
  split; [apply Hnc|]. apply representable_compute. by vm_compute.
Qed.
Lemma node1_fits : fits node1 sample_transfer 7.
Proof.
  intros post f ht Hexec Hht. destruct (node1_exec post f ht Hexec Hht) as [-> ->]. clear Hexec Hht.
  apply Z.leb_le. by vm_compute.
Qed.

Lemma submit_succeeds_witness :
  ∃ n', submit_transaction (λ _, None) 7 sample_transfer node1 = (n', Ok (tx_hash sample_transfer)).
Proof.
  apply (submit_succeeds 7 sample_transfer (addr 1) node1 node1_inv sample_transfer_wf
    node1_no_collision).
  - split; [by vm_compute|]. right. split; [by split_and!; vm_compute|]. right. by vm_compute.
  - intros h old Hs. vm_compute in Hs. discriminate Hs.
  - split; (by vm_compute) || right; by vm_compute.
  - by vm_compute.
  - by vm_compute.
  - apply node1_fits.
Defined.
Lemma submit_failure_atomic_witness :
  ∃ e, submit_transaction (λ op, match op with RenameOver => Some "disk full" | _ => None end) 7
         sample_transfer node1 = (node1, Err e).
Proof.
  set (io := λ op, match op with RenameOver => Some "disk full" | _ => None end).
  destruct (submit_transaction io 7 sample_transfer node1) as [n' [h|e]] eqn:Hrun.
  - apply (f_equal (is_ok ∘ snd)) in Hrun. vm_compute in Hrun. discriminate Hrun.
  - exists e. by rewrite (proj2 (submit_failure_atomic io 7 sample_transfer node1 n' e node1_inv
      node1_no_collision Hrun) eq_refl).
Defined.
Lemma submit_commits_witness :
  ∃ n' b, submit_transaction no_error 7 sample_transfer node1 = (n', Ok (tx_hash sample_transfer)) ∧
    rs_blocks n' = rs_blocks node1 ++ [b] ∧ load store1 None None (rs_disk n') = Ok (memory n').
Proof.
  destruct (submit_transaction no_error 7 sample_transfer node1) as [n' [h|e]] eqn:Hrun.
  2: { apply (f_equal (is_ok ∘ snd)) in Hrun. vm_compute in Hrun. discriminate Hrun. }
  pose proof (submit_commits no_error 7 sample_transfer node1 n' h node1_inv sample_transfer_wf
    node1_no_collision node1_good_commit Hrun) as (-> & to & b & _ & _ & Hb & _ & _ & _ & _ & _ & Hl).
  exists n', b. split; [reflexivity|]. split; [exact Hb|].
  assert (rs_store n' = store1) as Hs.
  { apply submit_run in Hrun as (_ & p & adm & post & b' & d' & _ & _ & _ & ->);
      [reflexivity|apply node1_inv|apply node1_inv|apply node1_no_collision]. }
  rewrite Hs in Hl. exact (Hl "data" eq_refl).
Defined.
(** The directory sync of a submission fails: the node has not changed, and its disk
    holds the block. *)
Definition unsynced : FsOp → option string := λ op, match op with SyncDir => Some "I/O error" | _ => None end.
Definition node1_unsynced : RpcState := (submit_transaction unsynced 7 sample_transfer node1).1.
Lemma node1_unsynced_steps : rtc (node_step_at serving) node0 node1_unsynced.
Proof.
  eapply rtc_l; [apply node1_step|]. apply rtc_once.
  apply (step_submit serving unsynced 7 sample_transfer node1 node1_unsynced
    (submit_transaction unsynced 7 sample_transfer node1).2); [apply sample_transfer_wf|done
    |apply node1_no_collision|apply node1_good_commit|apply surjective_pairing].
Qed.
Lemma node1_unsynced_store : rs_store node1_unsynced = store1.
Proof.
  destruct (submit_transaction unsynced 7 sample_transfer node1) as [n' r] eqn:Hrun.
  unfold node1_unsynced. rewrite Hrun. apply submit_run in Hrun;
    [|apply node1_inv|apply node1_inv|apply node1_no_collision].
  destruct r; [by destruct Hrun as (_ & ? & ? & ? & ? & ? & _ & _ & _ & ->)|by destruct Hrun as (? & -> & _)].
Qed.
Lemma node1_unsynced_disk :
  length (rs_blocks node1_unsynced) = 0%nat ∧
  (λ l, length (rst_blocks l)) <$> load store1 None None (rs_disk node1_unsynced) = Ok 1%nat.
Proof. vm_compute. split; reflexivity. Qed.
Lemma node_reachable_inv_witness :
  ∃ l, recoverable serving node1_unsynced l ∧ length (rst_blocks l) = 1%nat ∧
    length (rs_blocks node1_unsynced) = 0%nat.
Proof.
  destruct (node_reachable_inv serving store1 empty_disk node0 node1_unsynced ltac:(discriminate)
    empty_disk_stable eq_refl node0_start node1_unsynced_steps) as (_ & _ & Hload).
  destruct node1_unsynced_disk as [Hmem Hdisk].
  destruct (Hload eq_refl) as (l & Hrec & Hl); [rewrite node1_unsynced_store; discriminate|].
  rewrite node1_unsynced_store in Hl. rewrite Hl in Hdisk. exists l. split; [exact Hrec|].
  split; [injection Hdisk as ->; reflexivity|exact Hmem].
Defined.
Lemma ledger_file_deterministic_witness :
  encode_ledger (ledger_iter 1 (rs_state node1) [] [])
  = encode_ledger (ledger_of 1 (rs_state node1) [] ∅).
Proof. apply (ledger_file_deterministic node1 [] node1_inv). by vm_compute. Defined.

(** Seeding a node that already has blocks persists a ledger whose state root is
    not the newest header's: the call succeeds and the node cannot be restarted. *)
Definition node2 : RpcState := (submit_transaction no_error 7 sample_transfer node1).1.
Lemma node2_inv : node_inv node2.
Proof.
  eapply (submit_inv serving no_error 7 sample_transfer node1); [apply node1_inv|apply sample_transfer_wf
    |reflexivity|apply node1_no_collision|apply node1_good_commit|apply surjective_pairing].
Qed.
Lemma seed_breaks_restart :
  ∃ n3, seed_accounts no_error [(addr 9, 5)] node2 = (n3, Ok ()) ∧
    ∃ e, with_store (rs_store n3) None None (rs_disk n3) = Err (Invalid e).
Proof.
  exists (seed_accounts no_error [(addr 9, 5)] node2).1. split.
  - rewrite (surjective_pairing (seed_accounts no_error [(addr 9, 5)] node2)) at 1.
    apply (f_equal2 pair); [done|by vm_compute].
  - eexists. by vm_compute.
Qed.
