(* ===== verification/RpcApi.v ===== *)
(** * [subhost-rpc]: the JSON-RPC surface

    Parameter parsing, the signature gate, the JSON views and the method
    handlers of [crates/subhost-rpc/src/lib.rs]. A request's parameters are the
    positional JSON values ([None] when they are not an array), which is what
    [jsonrpsee] hands the handlers. *)

From Stdlib Require Import String.
From S2P Require Import Prelude Order Text Deps Bincode Core WorldState Mempool Storage Rpc.

Definition DEFAULT_TX_GAS_LIMIT : Z := 21000.
Definition MAX_REQUEST_BODY_BYTES : Z := 256 * 1024.
Definition MAX_RESPONSE_BODY_BYTES : Z := 1024 * 1024.
Definition MAX_BATCH_REQUESTS : Z := 10.

(** ** Parsing *)

Definition hex_digits (value : Value) : result RpcError string :=
  match value with
  | VString text =>
      digits ← ok_or (strip_prefix "0x" text) RpcInvalidParams;
      _ ← fail_if (is_empty digits || ((1 <? str_len digits) && starts_with "0" digits)
                   || negb (str_all is_ascii_hexdigit digits)) RpcInvalidParams;
      Ok digits
  | _ => Err RpcInvalidParams
  end.
Definition hex_quantity (value : option Value) (dflt : Z) : result RpcError Z :=
  match value with
  | None => Ok dflt
  | Some value => digits ← hex_digits value; ok_or (from_str_radix u64_max 16 digits) RpcInvalidParams
  end.
Definition hex_amount (value : option Value) (dflt : Z) : result RpcError Z :=
  match value with
  | None => Ok dflt
  | Some value => digits ← hex_digits value; ok_or (from_str_radix u128_max 16 digits) RpcInvalidParams
  end.

(** [None] is "no such block". *)
Definition resolve_block_height (tag : string) (block_count : Z) : result RpcError (option Z) :=
  if block_count =? 0 then Ok None
  else
    let newest := block_count in
    if bool_decide (tag ∈ ["latest"; "pending"; "safe"; "finalized"]) then Ok (Some newest)
    else if bool_decide (tag = "earliest") then Ok (Some 1)
    else
      digits ← ok_or (strip_prefix "0x" tag) RpcInvalidParams;
      h ← ok_or (from_str_radix u64_max 16 digits) RpcInvalidParams;
      Ok (if (1 <=? h) && (h <=? newest) then Some h else None).

Section api.
Context `{!Blake3, !Hex, !Ed25519, !Serialize Transaction, !Serialize BlockHeader,
  !Serialize (list Hash), !Serialize (Hash * Z * Z * Z), !Serialize StateSnapshot,
  !Serialize LedgerSnapshot, !Deserialize LedgerSnapshot,
  !Serialize LedgerEnvelope, !Deserialize LedgerEnvelope}.

Definition parse_address (value : string) : result RpcError Address :=
  _ ← fail_if (negb (str_len value =? 42)) RpcInvalidAddress;
  map_err (λ _, RpcInvalidAddress) (address_from_hex value).
Definition parse_tx_hash (value : string) : result RpcError Hash :=
  _ ← fail_if (negb (str_len value =? 66)) RpcInvalidTxHash;
  map_err (λ _, RpcInvalidTxHash) (hash_from_hex value).

Definition fixed_hex (n : nat) (value : option Value) : result RpcError (array n) :=
  text ← ok_or (value ≫= value_as_str) RpcInvalidSignature;
  digits ← ok_or (strip_prefix "0x" text) RpcInvalidSignature;
  bs ← map_err (λ _, RpcInvalidSignature) (hex_decode digits);
  ok_or (to_array n bs) RpcInvalidSignature.
Definition hex_data (value : option Value) : result RpcError bytes :=
  match value with
  | None => Ok []
  | Some value =>
      text ← ok_or (value_as_str value) RpcInvalidParams;
      digits ← ok_or (strip_prefix "0x" text) RpcInvalidParams;
      map_err (λ _, RpcInvalidParams) (hex_decode digits)
  end.

Definition or_else {A} (o1 o2 : option A) : option A := match o1 with Some _ => o1 | None => o2 end.
Definition transaction_from_params (params : Value) (configured_chain_id : Z)
  : result RpcError Transaction :=
  from ← (text ← ok_or (value_get "from" params ≫= value_as_str) RpcInvalidAddress;
          parse_address text);
  to ← match value_get "to" params ≫= value_as_str with
       | Some value => a ← parse_address value; Ok (Some a)
       | None => Ok None
       end;
  chain_id ← hex_quantity (value_get "chainId" params) configured_chain_id;
  _ ← fail_if (negb (chain_id =? configured_chain_id)) RpcInvalidChainId;
  gas_limit ← match or_else (value_get "gas" params) (value_get "gasLimit" params) with
              | Some value => hex_quantity (Some value) DEFAULT_TX_GAS_LIMIT
              | None => Ok DEFAULT_TX_GAS_LIMIT
              end;
  _ ← fail_if (bool_decide (to = None)) (RpcUnsupportedTransactionType ContractCreation);
  tx_nonce ← hex_quantity (value_get "nonce" params) 0;
  value ← hex_amount (value_get "value" params) 0;
  gas_price ← hex_amount (value_get "gasPrice" params) 1;
  data ← hex_data (or_else (value_get "data" params) (value_get "input" params));
  Ok {| tx_type := Transfer; tx_nonce := tx_nonce; tx_from := from; tx_to := to; tx_value := value;
        tx_gas_price := gas_price; tx_gas_limit := gas_limit; tx_data := data;
        tx_chain_id := chain_id; tx_signature := EMPTY |}.

Definition verify_transaction_signature (tx : Transaction) (public_key : array 32)
  (signature : array 64) : result RpcError unit :=
  _ ← fail_if (negb (ed_valid_key public_key)) RpcInvalidSignature;
  _ ← fail_if (negb (bool_decide (from_public_key (array_bytes public_key) = tx_from tx)))
        RpcInvalidSignature;
  fail_if (negb (ed_verify public_key (signing_payload tx) signature)) RpcInvalidSignature.

(** ** JSON views *)

Definition json_hex (b : bytes) : Value := VString ("0x" +:+ hex_encode b).
Definition json_quantity (n : Z) : Value := VString (fmt_0x n).
Definition json_option {A} (f : A → string) (o : option A) : Value :=
  match o with Some a => VString (f a) | None => VNull end.

Definition log_json (l : Log) : Value :=
  VObject [("address", VString (address_to_string (log_address l)));
           ("topics", VArray (map (VString ∘ hash_to_string) (log_topics l)));
           ("data", json_hex (log_data l))].
Definition receipt_json (r : Receipt) : Value :=
  VObject [("transactionHash", VString (hash_to_string (rcpt_tx_hash r)));
           ("blockHash", VString (hash_to_string (rcpt_block_hash r)));
           ("blockNumber", json_quantity (rcpt_block_height r));
           ("transactionIndex", VString "0x0");
           ("cumulativeGasUsed", json_quantity (rcpt_gas_used r));
           ("gasUsed", json_quantity (rcpt_gas_used r));
           ("status", json_quantity (receipt_status_u8 (rcpt_status r)));
           ("contractAddress", json_option address_to_string (rcpt_contract_address r));
           ("logs", VArray (map log_json (rcpt_logs r)))].
Definition transaction_json (tx : Transaction) (b : Block) (index : Z) : Value :=
  VObject [("hash", VString (hash_to_string (tx_hash tx)));
           ("blockHash", VString (hash_to_string (block_hash b)));
           ("blockNumber", json_quantity (hdr_height (blk_header b)));
           ("transactionIndex", json_quantity index);
           ("from", VString (address_to_string (tx_from tx)));
           ("to", json_option address_to_string (tx_to tx));
           ("value", json_quantity (tx_value tx));
           ("nonce", json_quantity (tx_nonce tx));
           ("gas", json_quantity (tx_gas_limit tx));
           ("gasPrice", json_quantity (tx_gas_price tx));
           ("chainId", json_quantity (tx_chain_id tx));
           ("input", json_hex (tx_data tx));
           ("type", VString (transaction_type_to_string (tx_type tx)))].
Definition block_json (b : Block) (full_transactions : bool) : Value :=
  let transactions :=
    if full_transactions
    then imap (λ index tx, transaction_json tx b (Z.of_nat index)) (blk_transactions b)
    else map (λ tx, VString (hash_to_string (tx_hash tx))) (blk_transactions b) in
  let h := blk_header b in
  VObject [("number", json_quantity (hdr_height h));
           ("hash", VString (hash_to_string (block_hash b)));
           ("parentHash", VString (hash_to_string (hdr_parent_hash h)));
           ("stateRoot", VString (hash_to_string (hdr_state_root h)));
           ("transactionsRoot", VString (hash_to_string (hdr_tx_root h)));
           ("receiptsRoot", VString (hash_to_string (hdr_receipt_root h)));
           ("miner", VString (address_to_string (hdr_validator h)));
           ("timestamp", json_quantity (hdr_timestamp h));
           ("gasLimit", json_quantity (hdr_gas_limit h));
           ("gasUsed", json_quantity (hdr_gas_used h));
           ("extraData", json_hex (hdr_extra_data h));
           ("transactions", VArray transactions)].

(** ** Method handlers *)

Definition Params : Type := option (list Value).
(** [params.sequence().next::<String>()], [params.one::<String>()] and
    [params.one::<Value>()]. *)
Definition next_string (params : Params) (e : RpcError) : result RpcError (string * list Value) :=
  match params with Some (VString s :: rest) => Ok (s, rest) | _ => Err e end.
Definition one_string (params : Params) (e : RpcError) : result RpcError string :=
  match params with Some [VString s] => Ok s | _ => Err e end.
Definition one_value (params : Params) (e : RpcError) : result RpcError Value :=
  match params with Some [v] => Ok v | _ => Err e end.
(** [optional_next::<bool>().unwrap_or(Some(false)).unwrap_or(false)] *)
Definition optional_bool (rest : list Value) : bool :=
  match rest with VBool b :: _ => b | _ => false end.

Definition eth_chainId (n : RpcState) : result RpcError Value := Ok (json_quantity (rs_chain_id n)).
Definition net_version (n : RpcState) : result RpcError Value := Ok (VString (fmt_dec (rs_chain_id n))).
Definition eth_blockNumber (n : RpcState) : result RpcError Value :=
  Ok (json_quantity (rs_block_height n)).
Definition eth_gasPrice (n : RpcState) : result RpcError Value :=
  Ok (json_quantity (rpc_min_gas_price n)).
Definition eth_getBalance (params : Params) (n : RpcState) : result RpcError Value :=
  '(text, _) ← next_string params RpcInvalidParams;
  a ← parse_address text;
  Ok (json_quantity (rpc_balance n a)).
Definition eth_getTransactionCount (params : Params) (n : RpcState) : result RpcError Value :=
  '(text, _) ← next_string params RpcInvalidParams;
  a ← parse_address text;
  Ok (json_quantity (rpc_nonce n a)).
Definition eth_getTransactionReceipt (params : Params) (n : RpcState) : result RpcError Value :=
  text ← one_string params RpcInvalidTxHash;
  h ← parse_tx_hash text;
  Ok (from_option receipt_json VNull (rpc_receipt n h)).
Definition eth_getBlockByNumber (params : Params) (n : RpcState) : result RpcError Value :=
  '(tag, rest) ← next_string params RpcInvalidParams;
  let full_transactions := optional_bool rest in
  resolved ← resolve_block_height tag (block_count n);
  Ok match resolved with
     | None => VNull
     | Some h => from_option (λ b, block_json b full_transactions) VNull (block_at_height n h)
     end.
Definition eth_getTransactionByHash (params : Params) (n : RpcState) : result RpcError Value :=
  text ← one_string params RpcInvalidTxHash;
  h ← parse_tx_hash text;
  Ok (default VNull
        (receipt ← rpc_receipt n h;
         b ← block_at_height n (rcpt_block_height receipt);
         '(index, tx) ← list_find (λ tx, tx_hash tx = h) (blk_transactions b);
         Some (transaction_json tx b (Z.of_nat index)))).

(** The request of [eth_sendTransaction] up to the signature check. *)
Definition authorize (params : Params) (chain_id : Z) : result RpcError Transaction :=
  request ← one_value params RpcInvalidParams;
  unsigned ← transaction_from_params request chain_id;
  public_key ← fixed_hex 32 (value_get "publicKey" request);
  signature ← fixed_hex 64 (value_get "signature" request);
  _ ← verify_transaction_signature unsigned public_key signature;
  Ok (with_signature unsigned (from_ed25519 signature)).
Definition eth_sendTransaction (io : FsOp → option string) (now : Z) (params : Params)
  : ST RpcState RpcError Value :=
  n ← st_get;
  tx ← st_lift (authorize params (rs_chain_id n));
  h ← submit_transaction io now tx;
  mret (VString (hash_to_string h)).

(** The handler registered for each method name; a query does not change the
    node, and only [eth_sendTransaction] reaches the disk and the clock. *)
Definition query {A} (f : RpcState → result RpcError A) : ST RpcState RpcError A := λ n, (n, f n).
Definition build_module (io : FsOp → option string) (now : Z)
  : list (string * (Params → ST RpcState RpcError Value)) :=
  [("eth_chainId", λ _, query eth_chainId);
   ("net_version", λ _, query net_version);
   ("eth_blockNumber", λ _, query eth_blockNumber);
   ("eth_gasPrice", λ _, query eth_gasPrice);
   ("eth_getBalance", λ params, query (eth_getBalance params));
   ("eth_getTransactionCount", λ params, query (eth_getTransactionCount params));
   ("eth_sendTransaction", eth_sendTransaction io now);
   ("eth_getTransactionReceipt", λ params, query (eth_getTransactionReceipt params));
   ("eth_getBlockByNumber", λ params, query (eth_getBlockByNumber params));
   ("eth_getTransactionByHash", λ params, query (eth_getTransactionByHash params))].
End api.

(** ** The listener *)

Record RpcServerConfig := { rsc_listen_addr : SocketAddr; rsc_max_connections : Z }.
Definition rpc_server_config_default : RpcServerConfig :=
  {| rsc_listen_addr := {| sa_ip := V4 127 0 0 1; sa_port := 8545 |}; rsc_max_connections := 1000 |}.
(** The limits [RpcServer::start] hands the server builder, and whether it warns
    about a reachable listener once bound to [addr]. *)
Record ServerLimits := {
  sl_max_connections : Z;
  sl_max_request_body : Z;
  sl_max_response_body : Z;
  sl_max_batch : Z
}.
Definition server_limits (c : RpcServerConfig) : ServerLimits :=
  {| sl_max_connections := Z.max (rsc_max_connections c) 1;
     sl_max_request_body := MAX_REQUEST_BODY_BYTES;
     sl_max_response_body := MAX_RESPONSE_BODY_BYTES;
     sl_max_batch := MAX_BATCH_REQUESTS |}.
Definition warns_exposed (addr : SocketAddr) : bool := negb (is_loopback (sa_ip addr)).
Inductive RpcServeError :=
| ServeBind (addr : SocketAddr) (source : string)
| ServeRegistration (source : string).
(** [start]: [bind] is what building the listener for the limits returned, [local]
    its [local_addr], and [register] the error of adding a method to a module
    that already has the ones listed, if any. The result is the bound address, the
    methods served and whether the warning was issued. *)
Definition rpc_start {A : Type} (c : RpcServerConfig) (bind : ServerLimits → result string unit)
  (local : result string SocketAddr) (register : list string → string → option string)
  (module : list (string * A)) : result RpcServeError (SocketAddr * list string * bool) :=
  _ ← map_err (ServeBind (rsc_listen_addr c)) (bind (server_limits c));
  addr ← map_err (ServeBind (rsc_listen_addr c)) local;
  methods ← try_fold (λ registered name,
                        match register registered name with
                        | Some e => Err (ServeRegistration e)
                        | None => Ok (registered ++ [name])
                        end) [] (map fst module);
  Ok (addr, methods, warns_exposed addr).

(** ** Quantities *)

Lemma hex_digits_Ok v s :
  hex_digits v = Ok s ↔ v = VString ("0x" +:+ s) ∧ strict_digits s.
Proof.
  destruct v as [| | |text| |]; try (split; [done|by intros [??]]). unfold hex_digits.
  rewrite ok_or_bind_Ok. setoid_rewrite guard_Ok. setoid_rewrite strip_prefix_Some.
  setoid_rewrite orb_false_iff. setoid_rewrite orb_false_iff. setoid_rewrite negb_false_iff.
  setoid_rewrite andb_false_iff. setoid_rewrite Z.ltb_ge. unfold strict_digits. split.
  - intros (s' & -> & ((Hne & Hlead) & Hall) & [= ->]). split_and!; try done. by intros ->.
  - intros [[= ->] (Hne & Hlead & Hall)]. exists s. split_and!; try done. by destruct s.
Qed.
Lemma strict_quantity m v n :
  0 ≤ m →
  (digits ← hex_digits v; ok_or (from_str_radix m 16 digits) RpcInvalidParams) = Ok n ↔
  ∃ s, v = VString ("0x" +:+ s) ∧ to_ascii_lowercase s = fmt_hex n ∧ 0 ≤ n ≤ m.
Proof.
  intros Hm. rewrite bind_Ok. setoid_rewrite hex_digits_Ok. setoid_rewrite ok_or_Ok. split.
  - intros (s & [-> Hs] & Hn). exists s. split; [done|]. by apply from_str_radix_strict.
  - intros (s & -> & Hs & Hn). exists s. pose proof (strict_digits_lower s n ltac:(lia) Hs).
    split; [done|]. by apply from_str_radix_strict.
Qed.
Lemma quantity_error m v e :
  (digits ← hex_digits v; ok_or (from_str_radix m 16 digits) RpcInvalidParams) = Err e →
  e = RpcInvalidParams.
Proof. unfold hex_digits. intros Hrun. run_inv; done. Qed.
Lemma json_quantity_parses m n :
  0 ≤ n ≤ m →
  (digits ← hex_digits (json_quantity n); ok_or (from_str_radix m 16 digits) RpcInvalidParams) = Ok n.
Proof.
  intros Hn. apply strict_quantity; [lia|]. exists (fmt_hex n). split_and!; [done| |lia..].
  destruct (digits_of n ltac:(lia)) as (ds & Hds & Hcan & <-).
  by rewrite fmt_hex_spell, digits_str_lower.
Qed.

(** ** The signature gate *)

Section gate.
Context `{!Blake3, !Hex, !Ed25519, !Serialize Transaction}.

(** What a request that parses is guaranteed to be. *)
Record parsed (chain_id : Z) (tx : Transaction) : Prop := {
  pa_type : tx_type tx = Transfer;
  pa_chain : tx_chain_id tx = chain_id;
  pa_to : tx_to tx ≠ None;
  pa_unsigned : tx_signature tx = EMPTY;
  pa_nonce : is_u64 (tx_nonce tx);
  pa_value : is_u128 (tx_value tx);
  pa_gas_price : is_u128 (tx_gas_price tx);
  pa_gas_limit : is_u64 (tx_gas_limit tx)
}.
Lemma hex_quantity_width ov d n : is_u64 d → hex_quantity ov d = Ok n → is_u64 n.
Proof.
  destruct ov as [v|]; simpl; [|by intros ? [= <-]].
  by intros _ (s & _ & _ & Hn)%strict_quantity.
Qed.
Lemma hex_amount_width ov d n : is_u128 d → hex_amount ov d = Ok n → is_u128 n.
Proof.
  destruct ov as [v|]; simpl; [|by intros ? [= <-]].
  by intros _ (s & _ & _ & Hn)%strict_quantity.
Qed.
Lemma transaction_from_params_parsed params chain_id tx :
  transaction_from_params params chain_id = Ok tx → parsed chain_id tx.
Proof.
  unfold transaction_from_params. intros (from & _ & Hrun)%bind_Ok.
  apply bind_Ok in Hrun as (to & _ & Hrun). apply bind_Ok in Hrun as (c & _ & Hrun).
  apply guard_Ok in Hrun as [Hc Hrun]. apply bind_Ok in Hrun as (g & Hg & Hrun).
  apply guard_Ok in Hrun as [Hto Hrun]. apply bind_Ok in Hrun as (n & Hn & Hrun).
  apply bind_Ok in Hrun as (v & Hv & Hrun). apply bind_Ok in Hrun as (p & Hp & Hrun).
  apply bind_Ok in Hrun as (data & _ & [= <-]). bool_hyps. split; simpl; try done.
  - by apply hex_quantity_width in Hn.
  - by apply hex_amount_width in Hv.
  - by apply hex_amount_width in Hp.
  - destruct (or_else _ _) as [w|]; [by apply hex_quantity_width in Hg|by injection Hg as <-].
Qed.
(** The key holder signed exactly this transaction. *)
Record signed_by (pk : array 32) (tx : Transaction) : Prop := {
  sb_valid : ed_valid_key pk = true;
  sb_sender : from_public_key (array_bytes pk) = tx_from tx;
  sb_verify : ed_verify pk (signing_payload tx) (to_ed25519 (tx_signature tx)) = true
}.
Lemma authorize_Ok params chain_id tx :
  authorize params chain_id = Ok tx → ∃ request pk,
    params = Some [request] ∧ transaction_from_params request chain_id = Ok (unsigned tx) ∧
    parsed chain_id (unsigned tx) ∧ signed_by pk tx.
Proof.
  unfold authorize, one_value. destruct params as [[|request []]|]; try done. simpl.
  intros (u & Hu & Hrun)%bind_Ok. apply bind_Ok in Hrun as (pk & _ & Hrun).
  apply bind_Ok in Hrun as (sig & _ & Hrun). apply bind_Ok in Hrun as ([] & Hver & [= <-]).
  unfold verify_transaction_signature in Hver. apply guard_Ok in Hver as [Hk Hver].
  apply guard_Ok in Hver as [Hfrom Hver%fail_if_Ok]. bool_hyps.
  pose proof (transaction_from_params_parsed _ _ _ Hu) as P.
  assert (unsigned (with_signature u (from_ed25519 sig)) = u) as Hun.
  { destruct u. unfold with_signature, unsigned. simpl. f_equal. by rewrite <-(pa_unsigned _ _ P). }
  exists request, pk. rewrite Hun. split_and!; try done.
  split; [done|done|]. cbn [tx_signature with_signature]. by rewrite to_from_ed25519, <-Hver.
Qed.
End gate.

(** ** Reading the ledger back *)

Section queries.
Context `{!Blake3, !Hex, !HexLaws, !Ed25519, !Serialize Transaction, !Serialize BlockHeader,
  !Serialize (list Hash), !Serialize (Hash * Z * Z * Z), !Serialize StateSnapshot,
  !Serialize LedgerSnapshot, !Deserialize LedgerSnapshot,
  !Serialize LedgerEnvelope, !Deserialize LedgerEnvelope}.

Lemma hash_to_string_len h : str_len (hash_to_string h) = 66.
Proof.
  unfold hash_to_string. rewrite str_len_app, hex_encode_length.
  by rewrite (array_length (n:=HASH_SIZE)).
Qed.
Lemma parse_tx_hash_print h : parse_tx_hash (hash_to_string h) = Ok h.
Proof.
  unfold parse_tx_hash. rewrite hash_to_string_len. cbn. by rewrite hash_from_to_string.
Qed.
Lemma parse_address_print a : parse_address (address_to_string a) = Ok a.
Proof.
  unfold parse_address. rewrite address_to_string_len. cbn. by rewrite address_from_to_string.
Qed.
(** *** Answers are JSON *)
Lemma json_object_ok fields :
  bool_decide (NoDup fields.*1) = true → forallb (λ kv, json_ok kv.2) fields = true →
  json_ok (VObject fields) = true.
Proof. intros Hk Hv. cbn [json_ok]. by rewrite Hk, Hv. Qed.
Lemma json_array_ok {A} (f : A → Value) l :
  (∀ x, json_ok (f x) = true) → json_ok (VArray (map f l)) = true.
Proof. intros Hf. simpl. induction l as [|x l IH]; simpl; [done|]. by rewrite Hf, IH. Qed.
Lemma transaction_json_ok tx b i : json_ok (transaction_json tx b i) = true.
Proof. apply json_object_ok; [by vm_compute|]. by destruct (tx_to tx). Qed.
Lemma block_json_ok b full : json_ok (block_json b full) = true.
Proof.
  apply json_object_ok; [by vm_compute|]. cbn [forallb snd json_ok json_quantity json_hex andb].
  rewrite andb_true_r. destruct full; apply forallb_forall; intros v Hv.
  - apply list_elem_of_In, elem_of_lookup_imap_1 in Hv as (i & tx & -> & _). apply transaction_json_ok.
  - by apply in_map_iff in Hv as (tx & <- & _).
Qed.
Lemma block_at_index n (i : nat) : block_at_height n (Z.of_nat i + 1) = rs_blocks n !! i.
Proof.
  unfold block_at_height, checked_sub. rewrite (proj2 (Z.leb_le _ _)) by lia. simpl.
  f_equal. lia.
Qed.
Lemma resolve_quantity h count :
  0 ≤ h ≤ u64_max → 0 ≤ count →
  resolve_block_height (fmt_0x h) count
  = Ok (if decide (1 ≤ h ≤ count) then Some h else None).
Proof.
  intros Hh Hc. unfold resolve_block_height. destruct (Z.eqb_spec count 0) as [->|Hne].
  { by rewrite decide_False by lia. }
  rewrite bool_decide_false, bool_decide_false; unfold fmt_0x.
  - rewrite strip_prefix_app. cbn [ok_or mbind result_bind]. unfold fmt_hex.
    rewrite from_str_radix_fmt by lia. cbn [ok_or mbind result_bind]. case_decide.
    + by rewrite (proj2 (Z.leb_le _ _)), (proj2 (Z.leb_le _ _)) by lia.
    + destruct (Z.leb_spec 1 h), (Z.leb_spec h count); try done. lia.
  - done.
  - rewrite !elem_of_cons, elem_of_nil. by intros [?|[?|[?|[?|?]]]].
Qed.
Lemma receipt_lookup n i b :
  node_inv n → rs_blocks n !! i = Some b →
  rs_receipts n !! rcpt_tx_hash (receipt_of b) = Some (receipt_of b).
Proof.
  intros I Hi. pose proof (ni_ledger _ _ I) as L. rewrite (li_receipts _ _ _ _ L).
  apply elem_of_list_to_map.
  - rewrite <-list_fmap_compose. apply L.
  - apply list_elem_of_fmap. exists b. split; [done|]. by eapply list_elem_of_lookup_2.
Qed.
Lemma ledger_block n i b :
  node_inv n → rs_blocks n !! i = Some b → ∃ tx, blk_transactions b = [tx] ∧
    hdr_height (blk_header b) = Z.of_nat i + 1 ∧ receipt_of b = next_receipt b (tx_hash tx).
Proof.
  intros I Hi.
  destruct (li_linked _ _ _ _ (ni_ledger _ _ I) i b Hi) as [tx Hok].
  exists tx. pose proof (bo_txs _ _ _ _ _ Hok) as Htx. split_and!; [done| |].
  - rewrite (bo_height _ _ _ _ _ Hok). lia.
  - unfold receipt_of. by rewrite Htx.
Qed.
Lemma unknown_receipt n h :
  node_inv n → (∀ b tx, b ∈ rs_blocks n → tx ∈ blk_transactions b → tx_hash tx ≠ h) →
  rs_receipts n !! h = None.
Proof.
  intros I Hno. rewrite (li_receipts _ _ _ _ (ni_ledger _ _ I)).
  apply not_elem_of_list_to_map_1. rewrite <-list_fmap_compose.
  intros (b & -> & [i Hi]%list_elem_of_lookup)%list_elem_of_fmap.
  destruct (ledger_block n i b I Hi) as (tx & Htx & _ & Hr).
  apply (Hno b tx).
  - by eapply list_elem_of_lookup_2.
  - rewrite Htx. left.
  - change (tx_hash tx = rcpt_tx_hash (receipt_of b)). by rewrite Hr.
Qed.
End queries.

(** ** Properties *)

(** A JSON-RPC quantity is accepted exactly when it is the canonical [0x]
    spelling, in either letter case, of an integer of the field's width (64 bits
    for [hex_quantity], 128 for [hex_amount]): no empty digits, signs, leading
    zeros, bare numbers or wrapped values; anything else is [InvalidParams]. *)
Theorem quantity_strict (v : Value) (dflt n : Z) :
  (hex_quantity (Some v) dflt = Ok n ↔
     ∃ s, v = VString ("0x" +:+ s) ∧ to_ascii_lowercase s = fmt_hex n ∧ is_u64 n) ∧
  (hex_amount (Some v) dflt = Ok n ↔
     ∃ s, v = VString ("0x" +:+ s) ∧ to_ascii_lowercase s = fmt_hex n ∧ is_u128 n) ∧
  (∀ e, hex_quantity (Some v) dflt = Err e ∨ hex_amount (Some v) dflt = Err e →
     e = RpcInvalidParams).
Proof.
  split_and!; [by apply strict_quantity..|]. by intros e [He|He]; eapply quantity_error.
Qed.

(** C9. Signature gate: whatever [eth_sendTransaction] is sent, an error leaves the
    served node as it was (its file included, unless the failing operation is the
    last directory sync), and a success has committed exactly one transaction, in
    a new block: a transfer of the node's own chain with a recipient and fields in
    width, that the key controlling the sender's address signed over exactly these
    fields, executed with exactly its documented effect; the answer is its hash.
    The transaction the request spells is assumed representable (its chain id and
    the length of its data fit in 64 bits) and not to share its hash with another
    transaction of the pool. *)
Theorem send_requires_signature `{!Blake3, !Hex, !Ed25519, !Serialize Transaction,
    !Serialize BlockHeader, !Serialize (list Hash), !Serialize (Hash * Z * Z * Z),
    !Serialize StateSnapshot, !Serialize LedgerSnapshot, !Deserialize LedgerSnapshot,
    !Serialize LedgerEnvelope, !Deserialize LedgerEnvelope}
  (io : FsOp → option string) (now : Z) (params : Params) (n n' : RpcState) (r : result RpcError Value) :
  node_inv n →
  (∀ tx, authorize params (rs_chain_id n) = Ok tx →
     tx_wf tx ∧ pool_no_collision n tx) →
  eth_sendTransaction io now params n = (n', r) →
  match r with
  | Err _ => (∃ d', n' = set_disk d' n) ∧ (io SyncDir = None → n' = n)
  | Ok v => ∃ tx pk to b, v = VString (hash_to_string (tx_hash tx)) ∧
      parsed (rs_chain_id n) (unsigned tx) ∧ signed_by pk tx ∧
      executable (rs_state n) tx to ∧ executed (rs_state n) tx to (rs_state n') ∧
      rs_blocks n' = rs_blocks n ++ [b] ∧ blk_transactions b = [tx]
  end.
Proof.
  intros I Htx. unfold eth_sendTransaction. run_unfold.
  destruct (authorize params (rs_chain_id n)) as [tx|e] eqn:Ha.
  2: { intros [= <- <-]. split; [|done]. exists (rs_disk n). by destruct n. }
  destruct (Htx tx eq_refl) as [Hwf Hcol].
  destruct (authorize_Ok _ _ _ Ha) as (request & pk & _ & _ & P & Sg).
  destruct (submit_transaction io now tx n) as [n1 r1] eqn:Hrun.
  apply submit_run in Hrun; [|apply I|apply I|done]. destruct r1 as [h|e]; intros [= <- <-].
  - destruct Hrun as (-> & p & adm & post & b & d' & _ & _ & [_ _ [f Hexec] (ht & _ & ->) _] & ->).
    destruct (apply_transaction_executed _ _ _ _ (li_wf _ _ _ _ (ni_ledger _ _ I)) Hwf Hexec)
      as (_ & to & Hx & Hpost).
    by eexists tx, pk, to, _.
  - destruct Hrun as (d' & -> & Hd & _). split; [by exists d'|].
    intros Hio. rewrite (Hd Hio). by destruct n.
Qed.

(** C31. The query methods present the whole ledger and nothing else: for every
    block of the node, its number selects it, its transaction's hash yields the
    receipt naming that block and the transaction at index 0, and ["latest"]
    is the newest one; a hash of no committed transaction, number zero and a
    number beyond the tip answer [null]. *)
Theorem ledger_queries `{!Blake3, !Hex, !HexLaws, !Serialize Transaction, !Serialize BlockHeader,
    !Serialize (list Hash), !Serialize (Hash * Z * Z * Z), !Serialize StateSnapshot,
    !Serialize LedgerSnapshot, !Deserialize LedgerSnapshot,
    !Serialize LedgerEnvelope, !Deserialize LedgerEnvelope} (n : RpcState) (full : bool) :
  node_inv n → block_count n ≤ u64_max →
  (∀ i b, rs_blocks n !! i = Some b → ∃ tx, blk_transactions b = [tx] ∧
     eth_getBlockByNumber (Some [json_quantity (Z.of_nat i + 1); VBool full]) n
       = Ok (block_json b full) ∧
     eth_getTransactionReceipt (Some [VString (hash_to_string (tx_hash tx))]) n
       = Ok (receipt_json (next_receipt b (tx_hash tx))) ∧
     eth_getTransactionByHash (Some [VString (hash_to_string (tx_hash tx))]) n
       = Ok (transaction_json tx b 0)) ∧
  (∀ b, last (rs_blocks n) = Some b →
     eth_getBlockByNumber (Some [VString "latest"; VBool full]) n = Ok (block_json b full) ∧
     eth_blockNumber n = Ok (json_quantity (hdr_height (blk_header b)))) ∧
  (∀ h, h = 0 ∨ block_count n < h ≤ u64_max →
     eth_getBlockByNumber (Some [json_quantity h; VBool full]) n = Ok VNull) ∧
  (∀ h, (∀ b tx, b ∈ rs_blocks n → tx ∈ blk_transactions b → tx_hash tx ≠ h) →
     eth_getTransactionReceipt (Some [VString (hash_to_string h)]) n = Ok VNull ∧
     eth_getTransactionByHash (Some [VString (hash_to_string h)]) n = Ok VNull).
Proof.
  intros I Hcount. unfold eth_getTransactionReceipt, eth_getTransactionByHash, eth_getBlockByNumber,
    rpc_receipt, one_string. split_and!.
  - intros i b Hi. destruct (ledger_block n i b I Hi) as (tx & Htx & Hh & Hr).
    pose proof (receipt_lookup n i b I Hi) as Hrc. rewrite Hr in Hrc.
    cbn [rcpt_tx_hash next_receipt] in Hrc.
    pose proof (lookup_lt_Some _ _ _ Hi) as Hlt. exists tx. unfold json_quantity, next_string.
    cbn [mbind result_bind]. rewrite parse_tx_hash_print, resolve_quantity, decide_True
      by (unfold block_count in *; lia). cbn [mbind result_bind].
    rewrite block_at_index, Hi, Hrc. simpl. rewrite Hh, block_at_index, Hi. simpl.
    rewrite Htx. simpl. by rewrite decide_True.
  - intros b Hl. unfold next_string, resolve_block_height, eth_blockNumber.
    rewrite (proj2 (Z.eqb_neq (block_count n) 0)); cycle 1.
    { unfold block_count. destruct (rs_blocks n); [done|simpl; lia]. }
    pose proof Hl as Hl'. rewrite last_lookup in Hl'. cbn [mbind result_bind].
    rewrite bool_decide_true by (left). cbn [mbind result_bind optional_bool].
    assert (block_count n = Z.of_nat (pred (length (rs_blocks n))) + 1) as ->.
    { unfold block_count. destruct (rs_blocks n); [done|simpl; lia]. }
    rewrite block_at_index, Hl'. simpl. split; [done|]. rewrite (ni_height _ _ I).
    by rewrite (chain_height (rs_chain_id n) (rs_blocks n) b) by (done || apply I).
  - intros h Hh. unfold json_quantity, next_string. cbn [mbind result_bind].
    by rewrite resolve_quantity, decide_False by (unfold block_count in *; lia).
  - intros h Hno. cbn [mbind result_bind]. rewrite parse_tx_hash_print. cbn [mbind result_bind].
    by rewrite (unknown_receipt n h I Hno).
Qed.

(** *** Concrete runs *)
Import Ref.

Lemma ledger_queries_witness :
  ∃ b, rs_blocks node2 = [b] ∧
    eth_getTransactionByHash (Some [VString (hash_to_string (tx_hash sample_transfer))]) node2
    = Ok (transaction_json sample_transfer b 0).
Proof.
  destruct (rs_blocks node2) as [|b []] eqn:Hb; [by vm_compute in Hb| |by vm_compute in Hb].
  exists b. split; [done|].
  destruct (proj1 (ledger_queries node2 true node2_inv ltac:(by apply Z.leb_le; vm_compute)) 0%nat b)
    as (tx & Htx & _ & _ & Hq); [by rewrite Hb|].
  assert (blk_transactions <$> rs_blocks node2 = [[sample_transfer]]) as Ht by (by vm_compute).
  rewrite Hb in Ht. injection Ht as Ht. rewrite Htx in Ht. injection Ht as ->. exact Hq.
Defined.

(** A block tag is parsed more liberally than a quantity: a sign or leading zeros
    are accepted. *)
Lemma block_tag_lenient :
  resolve_block_height "0x+5" 9 = Ok (Some 5) ∧ resolve_block_height "0x005" 9 = Ok (Some 5) ∧
  hex_quantity (Some (VString "0x+5")) 0 = Err RpcInvalidParams ∧
  hex_quantity (Some (VString "0x005")) 0 = Err RpcInvalidParams.
Proof. by vm_compute. Qed.
