(* ===== verification/Interleave.v ===== *)
(** * Calls that share state and a lock

    The code shared by several threads takes a lock for the length of a call and,
    inside it, opens each protected field only for the statement that uses it. A
    call is therefore a sequence of instructions ([Proc]): atomic accesses and,
    where the source has it, the acquisition of the lock, whose guard is dropped
    when the call returns. Threads run their next instruction in any order, and the
    lock stops only the one that is about to take it while it is held: a call that
    does not lock is free to access the state in the middle of another. This file
    has the calls, the system of threads that run them, and what follows when every
    call locks first and only once: the calls take effect one after the other, in
    the order they release the lock, and once no new call comes every one returns. *)

From S2P Require Import Prelude.

(** ** Sequences of accesses *)

(** An access updates the state with [f] and goes on from what it read with [k]. *)
Inductive Proc (S E A : Type) : Type :=
| Done (r : result E A)
| Access (f : S → S) (k : S → Proc S E A)
| Lock (p : Proc S E A).
Arguments Done {S E A} _.
Arguments Access {S E A} _ _.
Arguments Lock {S E A} _.

Fixpoint proc_then {S E F A B} (p : Proc S E A) (k : result E A → Proc S F B) : Proc S F B :=
  match p with
  | Done r => k r
  | Access f next => Access f (λ s, proc_then (next s) k)
  | Lock p => Lock (proc_then p k)
  end.
#[export] Instance proc_ret {S E} : MRet (Proc S E) := λ A a, Done (Ok a).
#[export] Instance proc_bind {S E} : MBind (Proc S E) := λ A B k p,
  proc_then p (λ r, match r with Ok a => k a | Err e => Done (Err e) end).
(** The statement [m], under the guard of the field it uses. *)
Definition access {S E A} (m : ST S E A) : Proc S E A :=
  Access (λ s, (m s).1) (λ s, Done (m s).2).
(** [let _guard = self.lock.lock()]: the guard lives until the call returns. *)
Definition lock {S E} : Proc S E unit := Lock (Done (Ok ())).

(** The call run with nobody in between, and the states it leaves on its way. *)
Fixpoint run {S E A} (p : Proc S E A) (s : S) : S * result E A :=
  match p with
  | Done r => (s, r)
  | Access f next => run (next s) (f s)
  | Lock p => run p s
  end.
Fixpoint visited {S E A} (p : Proc S E A) (s : S) : list S :=
  match p with
  | Done _ => [s]
  | Access f next => s :: visited (next s) (f s)
  | Lock p => visited p s
  end.
(** The first [k] instructions. *)
Fixpoint advance {S E A} (k : nat) (p : Proc S E A) (s : S) : S * Proc S E A :=
  match k, p with
  | Datatypes.S k, Access f next => advance k (next s) (f s)
  | Datatypes.S k, Lock p => advance k p s
  | _, _ => (s, p)
  end.
(** Every access relates the state it finds to the one it leaves by [R]. *)
Fixpoint chain {S E A} (R : S → S → Prop) (p : Proc S E A) (s : S) : Prop :=
  match p with
  | Done _ => True
  | Access f next => R s (f s) ∧ chain R (next s) (f s)
  | Lock p => chain R p s
  end.
(** No instruction takes the lock, and at most [k] instructions are left before the
    return, whatever is read. *)
Fixpoint lock_free {S E A} (p : Proc S E A) : Prop :=
  match p with
  | Done _ => True
  | Access _ next => ∀ s, lock_free (next s)
  | Lock _ => False
  end.
Fixpoint within {S E A} (k : nat) (p : Proc S E A) {struct p} : Prop :=
  match p, k with
  | Done _, _ => True
  | Access _ next, Datatypes.S k => ∀ s, within k (next s)
  | Lock p, Datatypes.S k => within k p
  | _, O => False
  end.
(** A call that locks first and only once. *)
Definition locks_first {S E A} (p : Proc S E A) : Prop :=
  match p with Lock p => lock_free p | _ => False end.

Section procs.
Context {S E : Type}.

Lemma run_then {F A B} (p : Proc S E A) (k : result E A → Proc S F B) s :
  run (proc_then p k) s = run (k (run p s).2) (run p s).1.
Proof. revert s. induction p as [r|f next IH|p IH]; intros s; simpl; auto. Qed.
Lemma run_bind {A B} (p : Proc S E A) (k : A → Proc S E B) s :
  run (p ≫= k) s = (run p ≫= (λ a, run (k a)) : ST S E B) s.
Proof.
  cbv [mbind proc_bind st_bind]. rewrite run_then. by destruct (run p s) as [s' [a|e]].
Qed.

Lemma advance_add {A} k j (p : Proc S E A) s :
  advance (k + j) p s = advance j (advance k p s).2 (advance k p s).1.
Proof.
  revert p s. induction k as [|k IH]; intros p s; [done|].
  destruct p; simpl; [by destruct j|apply IH..].
Qed.
Lemma visited_head {A} (p : Proc S E A) s : s ∈ visited p s.
Proof. induction p; simpl; [left|left|done]. Qed.
Lemma visited_last {A} (p : Proc S E A) s : (run p s).1 ∈ visited p s.
Proof. revert s. induction p as [r|f next IH|p IH]; intros s; simpl; [left|by right|done]. Qed.
Lemma visited_then {F A B} (p : Proc S E A) (k : result E A → Proc S F B) s v :
  v ∈ visited (proc_then p k) s →
  v ∈ visited p s ∨ v ∈ visited (k (run p s).2) (run p s).1.
Proof.
  revert s. induction p as [r|f next IH|p IH]; intros s; simpl; [by right| |by apply IH].
  intros [->|Hv]%elem_of_cons; [left; left|].
  destruct (IH s (f s) Hv) as [Hl|Hr]; [left; by right|by right].
Qed.
Lemma visited_bind {A B} (p : Proc S E A) (k : A → Proc S E B) s v :
  v ∈ visited (p ≫= k) s →
  v ∈ visited p s ∨ ∃ a, (run p s).2 = Ok a ∧ v ∈ visited (k a) (run p s).1.
Proof.
  intros [Hv|Hv]%visited_then; [by left|]. destruct (run p s) as [s' [a|e]] eqn:Hr; simpl in *.
  - right. by exists a.
  - left. apply list_elem_of_singleton in Hv as ->.
    pose proof (visited_last p s) as Hl. by rewrite Hr in Hl.
Qed.
Lemma chain_then {F A B} (R : S → S → Prop) (p : Proc S E A) (k : result E A → Proc S F B) s :
  chain R p s → chain R (k (run p s).2) (run p s).1 → chain R (proc_then p k) s.
Proof.
  revert s. induction p as [r|f next IH|p IH]; intros s; simpl; [done| |by apply IH].
  intros [HR Hp] Hk. split; [done|]. by apply IH.
Qed.
Lemma chain_bind {A B} (R : S → S → Prop) (p : Proc S E A) (k : A → Proc S E B) s :
  chain R p s → (∀ a, (run p s).2 = Ok a → chain R (k a) (run p s).1) → chain R (p ≫= k) s.
Proof.
  intros Hp Hk. apply chain_then; [done|]. destruct (run p s) as [s' [a|e]]; [by apply Hk|done].
Qed.

(** Lock-freedom and length, composed as the calls are. *)
Lemma lock_free_then {F A B} (p : Proc S E A) (k : result E A → Proc S F B) :
  lock_free p → (∀ r, lock_free (k r)) → lock_free (proc_then p k).
Proof. intros Hp Hk. induction p as [r|f next IH|p IH]; simpl in *; [done|auto|done]. Qed.
Lemma lock_free_bind {A B} (p : Proc S E A) (k : A → Proc S E B) :
  lock_free p → (∀ a, lock_free (k a)) → lock_free (p ≫= k).
Proof. intros Hp Hk. apply lock_free_then; [done|]. by intros [a|e]. Qed.
Lemma advance_lock_free {A} k (p : Proc S E A) s : lock_free p → lock_free (advance k p s).2.
Proof.
  revert p s. induction k as [|k IH]; intros p s; [done|]. destruct p; simpl; try done.
  intros Hp. apply IH, Hp.
Qed.
Lemma locks_first_bind {A B} (p : Proc S E A) (k : A → Proc S E B) :
  locks_first p → (∀ a, lock_free (k a)) → locks_first (p ≫= k).
Proof. destruct p; simpl; try done. intros Hp Hk. by apply (lock_free_bind _ k). Qed.
Lemma within_mono {F A} k j (p : Proc S F A) : (k ≤ j)%nat → within k p → within j p.
Proof.
  revert k j. induction p as [r|f next IH|p IH]; intros k j Hkj; destruct k, j; simpl; try done; try lia.
  - intros Hp s. eapply IH; [|apply Hp]. lia.
  - apply IH. lia.
Qed.
Lemma within_then {F A B} k j (p : Proc S E A) (next : result E A → Proc S F B) :
  within k p → (∀ r, within j (next r)) → within (k + j) (proc_then p next).
Proof.
  intros Hp Hn. revert k Hp. induction p as [r|f nx IH|p IH]; intros [|k]; simpl; try done; intros Hp.
  - eapply within_mono; [|apply Hn]. lia.
  - intros s. by apply IH.
  - by apply IH.
Qed.
Lemma within_bind {A B} k j (p : Proc S E A) (next : A → Proc S E B) :
  within k p → (∀ a, within j (next a)) → within (k + j) (p ≫= next).
Proof. intros Hp Hn. apply within_then; [done|]. intros [a|e]; [apply Hn|by destruct j]. Qed.
End procs.

(** ** Threads and the mutex *)

Section mutex.
Context {S E Call A : Type} (body : Call → Proc S E A) (ok : S → Call → Prop).

(** The shared state, the thread that holds the lock, every call in progress with
    the instructions it still has to run, and the calls that have returned. *)
Record System := {
  sys_state : S;
  sys_lock : option nat;
  sys_threads : gmap nat (Call * Proc S E A);
  sys_returned : list (nat * Call * result E A)
}.
Definition sys_start (s : S) : System :=
  {| sys_state := s; sys_lock := None; sys_threads := ∅; sys_returned := [] |}.
(** The call that holds the lock, with what it still has to do. *)
Definition sys_holder (y : System) : option (nat * Call * Proc S E A) :=
  i ← sys_lock y; '(c, p) ← sys_threads y !! i; Some (i, c, p).

(** A returning call drops the guard it may have. *)
Definition released (i : nat) (h : option nat) : option nat :=
  if decide (h = Some i) then None else h.
(** One instruction of one thread. Only taking the lock waits, and also a thread
    that already has it would; [ok] is what is known of the state a call finds when
    it gets the lock. *)
Inductive thread_step : System → System → Prop :=
| thread_lock i c p s t l :
    t !! i = Some (c, Lock p) → ok s c →
    thread_step {| sys_state := s; sys_lock := None; sys_threads := t; sys_returned := l |}
      {| sys_state := s; sys_lock := Some i; sys_threads := <[i := (c, p)]> t; sys_returned := l |}
| thread_access i c f next s h t l :
    t !! i = Some (c, Access f next) →
    thread_step {| sys_state := s; sys_lock := h; sys_threads := t; sys_returned := l |}
      {| sys_state := f s; sys_lock := h; sys_threads := <[i := (c, next s)]> t; sys_returned := l |}
| thread_return i c r s h t l :
    t !! i = Some (c, Done r) →
    thread_step {| sys_state := s; sys_lock := h; sys_threads := t; sys_returned := l |}
      {| sys_state := s; sys_lock := released i h; sys_threads := delete i t;
         sys_returned := l ++ [(i, c, r)] |}.
(** A new call comes in, or a thread goes on. *)
Inductive sys_step : System → System → Prop :=
| sys_call i c s h t l :
    t !! i = None →
    sys_step {| sys_state := s; sys_lock := h; sys_threads := t; sys_returned := l |}
      {| sys_state := s; sys_lock := h; sys_threads := <[i := (c, body c)]> t; sys_returned := l |}
| sys_thread x y : thread_step x y → sys_step x y.

(** A call that takes no lock reads at instants of its own choosing: from system
    [y] it returns [r], its last access in [z]. *)
Inductive reads {F B : Type} : System → Proc S F B → result F B → System → Prop :=
| reads_done y r : reads y (Done r) r y
| reads_access y x z f next r :
    rtc sys_step y x → f (sys_state x) = sys_state x → reads x (next (sys_state x)) r z →
    reads y (Access f next) r z.
Lemma reads_one {F B} y (m : ST S F B) r z :
  reads y (access m) r z → rtc sys_step y z ∧ m (sys_state z) = (sys_state z, r).
Proof.
  intros Hr. inversion Hr as [|? x ? ? ? ? Hx Hf Hn]; subst. inversion Hn; subst.
  split; [done|]. rewrite <-Hf at 2. apply surjective_pairing.
Qed.

(** The calls run to completion one after the other. *)
Inductive serial (s0 : S) : list (nat * Call * result E A) → S → Prop :=
| serial_nil : serial s0 [] s0
| serial_snoc l s i c s' r :
    serial s0 l s → ok s c → run (body c) s = (s', r) → serial s0 (l ++ [(i, c, r)]) s'.
Lemma serial_ind_inv (P : S → Prop) s0 l s :
  P s0 → (∀ x c, P x → ok x c → P (run (body c) x).1) → serial s0 l s → P s.
Proof.
  intros H0 Hstep Hs. induction Hs as [|l s i c s' r _ IH Hok Hrun]; [done|].
  specialize (Hstep s c IH Hok). by rewrite Hrun in Hstep.
Qed.

(** The call in progress, if any, began in [s], the state the returned calls left. *)
Definition in_progress (s : S) (y : System) : Prop :=
  match sys_holder y with
  | None => sys_state y = s
  | Some (_, c, p) =>
      ok s c ∧ run p (sys_state y) = run (body c) s ∧
      visited p (sys_state y) ⊆ visited (body c) s
  end.
Lemma in_progress_visited s y :
  in_progress s y → sys_state y = s ∨ ∃ i c p, sys_holder y = Some (i, c, p) ∧ ok s c ∧
    sys_state y ∈ visited (body c) s.
Proof.
  unfold in_progress. destruct (sys_holder y) as [[[i c] p]|]; [|by left].
  intros (Hok & _ & Hv). right. exists i, c, p. split_and!; try done. apply Hv, visited_head.
Qed.

(** What a system of calls that lock first looks like: the thread that holds the
    lock is past it, and every other one has yet to take it. *)
Record excluded (y : System) : Prop := {
  xc_holder i : sys_lock y = Some i → ∃ c p, sys_threads y !! i = Some (c, p) ∧ lock_free p;
  xc_waiting i c p : sys_threads y !! i = Some (c, p) → sys_lock y ≠ Some i → p = body c
}.
Lemma excluded_start s : excluded (sys_start s).
Proof. split; simpl; [done|]. intros i c p. by rewrite lookup_empty. Qed.
Lemma holder_Some y i : excluded y → sys_lock y = Some i →
  ∃ c p, sys_holder y = Some (i, c, p) ∧ sys_threads y !! i = Some (c, p) ∧ lock_free p.
Proof.
  intros X Hi. destruct (xc_holder y X i Hi) as (c & p & Hp & Hf). exists c, p.
  unfold sys_holder. rewrite Hi. simpl. by rewrite Hp.
Qed.

(** From here on every call locks first and only once. *)
Section exclusion.
Hypothesis locks : ∀ c, locks_first (body c).

(** A thread at an access or at its end holds the lock. *)
Lemma active_holds y i c p :
  excluded y → sys_threads y !! i = Some (c, p) → (∀ q, p ≠ Lock q) → sys_lock y = Some i.
Proof.
  intros X Hi Hp. destruct (decide (sys_lock y = Some i)) as [|Hne]; [done|].
  pose proof (xc_waiting y X i c p Hi Hne) as ->. pose proof (locks c) as Hl.
  destruct (body c) as [| |q] eqn:Hb; try done. by destruct (Hp q).
Qed.
Lemma thread_excluded x y : thread_step x y → excluded x → excluded y.
Proof.
  intros Hstep X. destruct Hstep as [i c p s t l Hi Hok|i c f next s h t l Hi|i c r s h t l Hi].
  - pose proof (xc_waiting _ X i c _ Hi ltac:(done)) as Hb. pose proof (locks c) as Hl.
    rewrite <-Hb in Hl. split; simpl.
    + intros j [= <-]. exists c, p. by rewrite lookup_insert_eq.
    + intros j d q Hj Hne. rewrite lookup_insert_ne in Hj by congruence.
      by apply (xc_waiting _ X j d q Hj).
  - pose proof (active_holds _ i c _ X Hi ltac:(done)) as Hh. simpl in Hh. subst h.
    destruct (xc_holder _ X i eq_refl) as (c' & p & Hp & Hf). simpl in Hp. rewrite Hi in Hp.
    simplify_eq. split; simpl.
    + intros j [= <-]. exists c', (next s). split; [by rewrite lookup_insert_eq|apply Hf].
    + intros j d q Hj Hne. rewrite lookup_insert_ne in Hj by congruence.
      by apply (xc_waiting _ X j d q Hj).
  - pose proof (active_holds _ i c _ X Hi ltac:(done)) as Hh. simpl in Hh. subst h.
    unfold released. rewrite decide_True by done. split; simpl; [done|]. intros j d q Hj _.
    apply lookup_delete_Some in Hj as [Hne Hj]. apply (xc_waiting _ X j d q Hj). simpl. congruence.
Qed.
Lemma step_excluded x y : sys_step x y → excluded x → excluded y.
Proof.
  intros [i c s h t l Hi|x' y' Hstep] X; [|by eapply thread_excluded]. split; simpl.
  - intros j Hj. destruct (xc_holder _ X j Hj) as (d & p & Hp & Hf). simpl in Hp. exists d, p.
    rewrite lookup_insert_ne by congruence. done.
  - intros j d p Hj Hne. apply lookup_insert_Some in Hj as [[<- [= <- <-]]|[_ Hj]]; [done|].
    by apply (xc_waiting _ X j d p Hj).
Qed.
Lemma reachable_excluded s0 y : rtc sys_step (sys_start s0) y → excluded y.
Proof.
  revert y. apply rtc_ind_r; [apply excluded_start|]. intros x y _ Hs. by apply step_excluded.
Qed.

Lemma sys_step_serial s0 s x y :
  excluded x → sys_step x y → serial s0 (sys_returned x) s → in_progress s x →
  ∃ s', serial s0 (sys_returned y) s' ∧ in_progress s' y.
Proof.
  intros X Hstep Hser Hp. pose proof (step_excluded x y Hstep X) as Y.
  destruct Hstep as [i c s1 h t l Hi|x y Hstep]; [|destruct Hstep as
    [i c p s1 t l Hi Hok|i c f next s1 h t l Hi|i c r s1 h t l Hi]]; unfold in_progress in *; simpl in *.
  - exists s. split; [done|]. revert Hp. unfold sys_holder. simpl. destruct h as [j|]; simpl; [|done].
    destruct (xc_holder _ X j eq_refl) as (d & p & Hj & _). simpl in Hj.
    rewrite lookup_insert_ne by congruence. by rewrite Hj.
  - subst s1. exists s. split; [done|]. unfold sys_holder. simpl. rewrite lookup_insert_eq. simpl.
    by rewrite <-(xc_waiting _ X i c _ Hi ltac:(done)).
  - pose proof (active_holds _ i c _ X Hi ltac:(done)) as Hh. simpl in Hh. subst h. exists s.
    revert Hp. unfold sys_holder. simpl. rewrite Hi, lookup_insert_eq. simpl.
    intros (Hok & Hrun & Hvis). split_and!; try done. intros v Hv. apply Hvis. by right.
  - pose proof (active_holds _ i c _ X Hi ltac:(done)) as Hh. simpl in Hh. subst h.
    unfold released. rewrite decide_True by done. revert Hp. unfold sys_holder. simpl. rewrite Hi.
    simpl. intros (Hok & Hrun & _). exists s1. split; [|done]. by eapply serial_snoc.
Qed.
(** Every reachable system is the serial run of the calls that have returned,
    followed by the first accesses of the one that holds the lock. *)
Lemma sys_serial s0 y :
  rtc sys_step (sys_start s0) y → ∃ s, serial s0 (sys_returned y) s ∧ in_progress s y.
Proof.
  revert y. apply rtc_ind_r.
  - exists s0. split; [constructor|done].
  - intros x y Hx Hstep (s & Hs & Hp). eapply sys_step_serial; try done. by eapply reachable_excluded.
Qed.

(** When every call moves the state along [R], so does the system, whatever is
    interleaved: [P] is an invariant of the states the lock is free in. *)
Section along.
Context (P : S → Prop) (R : S → S → Prop) (s0 : S).
Hypothesis start_P : P s0.
Hypothesis run_P : ∀ s c, P s → ok s c → P (run (body c) s).1.
Hypothesis body_R : ∀ s c, P s → ok s c → chain R (body c) s.

Definition remaining (y : System) : Prop :=
  match sys_holder y with Some (_, _, p) => chain R p (sys_state y) | None => True end.
Lemma step_along x y :
  rtc sys_step (sys_start s0) x → remaining x → sys_step x y →
  remaining y ∧ (sys_state y = sys_state x ∨ R (sys_state x) (sys_state y)).
Proof.
  intros Hx Hr Hstep. pose proof (reachable_excluded _ _ Hx) as X.
  destruct Hstep as [i c s h t l Hi|x y Hstep]; [|destruct Hstep as
    [i c p s t l Hi Hok|i c f next s h t l Hi|i c r s h t l Hi]]; unfold remaining in *; simpl in *.
  - split; [|by left]. revert Hr. unfold sys_holder. simpl. destruct h as [j|]; simpl; [|done].
    destruct (xc_holder _ X j eq_refl) as (d & p & Hj & _). simpl in Hj.
    rewrite lookup_insert_ne by congruence. by rewrite Hj.
  - split; [|by left]. unfold sys_holder. simpl. rewrite lookup_insert_eq. simpl.
    destruct (sys_serial _ _ Hx) as (s' & Hs & Hp). unfold in_progress in Hp. simpl in Hp. subst s'.
    pose proof (body_R s c ltac:(by eapply serial_ind_inv) Hok) as Hc.
    by rewrite <-(xc_waiting _ X i c _ Hi ltac:(done)) in Hc.
  - pose proof (active_holds _ i c _ X Hi ltac:(done)) as Hh. simpl in Hh. subst h.
    revert Hr. unfold sys_holder. simpl. rewrite Hi, lookup_insert_eq. simpl. intros [HR Hn].
    split; [done|by right].
  - pose proof (active_holds _ i c _ X Hi ltac:(done)) as Hh. simpl in Hh. subst h.
    unfold released. rewrite decide_True by done. by split; [|left].
Qed.
Lemma reachable_along y : rtc sys_step (sys_start s0) y → remaining y.
Proof.
  revert y. apply rtc_ind_r; [done|]. intros x y Hx Hstep Hr. by apply (step_along x y).
Qed.
Lemma sys_along y z :
  rtc sys_step (sys_start s0) y → rtc sys_step y z → rtc R (sys_state y) (sys_state z).
Proof.
  intros Hy. revert z. apply rtc_ind_r; [done|]. intros x z Hx Hstep Hrtc.
  assert (rtc sys_step (sys_start s0) x) as Hreach by (by etrans).
  destruct (step_along x z Hreach (reachable_along x Hreach) Hstep) as [_ [->|HR]]; [done|].
  by eapply rtc_r.
Qed.
End along.

(** *** Every schedule ends

    Once no new call comes in, the threads can only run so many instructions, and
    they stop only when every call has returned: there is no deadlock. *)
Definition budget (b : nat → nat) (t : gmap nat (Call * Proc S E A)) : nat :=
  map_fold (λ i _ n, Datatypes.S (b i) + n)%nat O t.
Definition budgeted (b : nat → nat) (y : System) : Prop :=
  ∀ i c p, sys_threads y !! i = Some (c, p) → within (b i) p.
Lemma budget_insert b t i x :
  t !! i = None → budget b (<[i := x]> t) = (Datatypes.S (b i) + budget b t)%nat.
Proof. intros Hi. unfold budget. rewrite map_fold_insert_L; [done|lia|done]. Qed.
Lemma budget_ext b b' t :
  (∀ i, is_Some (t !! i) → b i = b' i) → budget b t = budget b' t.
Proof.
  induction t as [|i x t Hi IH] using map_ind; intros Hb; [done|]. rewrite !budget_insert by done.
  rewrite (Hb i) by (by rewrite lookup_insert_eq). rewrite IH; [done|]. intros j Hj.
  apply Hb. destruct (decide (i = j)) as [->|]; [by rewrite lookup_insert_eq|by rewrite lookup_insert_ne].
Qed.
Lemma budget_lookup b t i x :
  t !! i = Some x → budget b t = (Datatypes.S (b i) + budget b (delete i t))%nat.
Proof.
  intros Hi. rewrite <-(insert_delete_id t i x Hi) at 1. by rewrite budget_insert by apply lookup_delete_eq.
Qed.
Lemma budget_size k t : budget (λ _, k) t = (Datatypes.S k * size t)%nat.
Proof.
  induction t as [|i x t Hi IH] using map_ind.
  - unfold budget. rewrite map_fold_empty, map_size_empty. lia.
  - rewrite budget_insert, map_size_insert_None, IH by done. lia.
Qed.
(** The budget of [i] lowered by one: what one instruction of [i] uses. *)
Definition spend (i : nat) (b : nat → nat) : nat → nat :=
  λ j, if decide (j = i) then pred (b j) else b j.
Lemma spend_budget b t i x y :
  t !! i = Some x → (0 < b i)%nat → Datatypes.S (budget (spend i b) (<[i := y]> t)) = budget b t.
Proof.
  intros Hi Hb. rewrite (budget_lookup b t i x Hi), <-insert_delete_eq, budget_insert by apply lookup_delete_eq.
  rewrite (budget_ext (spend i b) b); cycle 1.
  { intros j [? [Hne _]%lookup_delete_Some]. unfold spend. by rewrite decide_False. }
  unfold spend. rewrite decide_True by done. lia.
Qed.
Lemma thread_budget b x y :
  budgeted b x → thread_step x y →
  ∃ b', budgeted b' y ∧ (budget b' (sys_threads y) < budget b (sys_threads x))%nat.
Proof.
  assert (∀ (t : gmap nat (Call * Proc S E A)) i c q p,
    (∀ i c p, t !! i = Some (c, p) → within (b i) p) → t !! i = Some (c, q) →
    (0 < b i)%nat → within (pred (b i)) p →
    (∀ j d r, <[i := (c, p)]> t !! j = Some (d, r) → within (spend i b j) r) ∧
    (budget (spend i b) (<[i := (c, p)]> t) < budget b t)%nat) as Hgo.
  { intros t i c q p Hb Hi H0 Hp. split; [|rewrite <-(spend_budget b t i _ (c, p) Hi H0); lia].
    intros j d r. unfold spend. intros [[<- [= <- <-]]|[Hne Hj]]%lookup_insert_Some.
    - by rewrite decide_True.
    - rewrite decide_False by done. by apply (Hb j d). }
  intros Hb Hstep.
  destruct Hstep as [i c p s t l Hi Hok|i c f next s h t l Hi|i c r s h t l Hi]; simpl in *.
  - pose proof (Hb i c _ Hi) as Hw. simpl in Hw. exists (spend i b).
    destruct (b i) as [|k] eqn:Hk; [done|]. apply (Hgo t i c (Lock p)); try done; rewrite Hk; [lia|done].
  - pose proof (Hb i c _ Hi) as Hw. simpl in Hw. exists (spend i b).
    destruct (b i) as [|k] eqn:Hk; [done|].
    apply (Hgo t i c (Access f next)); try done; rewrite Hk; [lia|apply Hw].
  - exists b. split; [|rewrite (budget_lookup b t i _ Hi); lia].
    intros j d p. simpl. intros [_ Hj]%lookup_delete_Some. by apply (Hb j d).
Qed.
Lemma thread_within k x y : budgeted (λ _, k) x → thread_step x y → budgeted (λ _, k) y.
Proof.
  intros Hb Hstep. destruct Hstep as [i c p s t l Hi Hok|i c f next s h t l Hi|i c r s h t l Hi];
    intros j d q; simpl; pose proof (Hb i c _ Hi) as Hw; simpl in Hw.
  1, 2: intros [[<- [= <- <-]]|[_ Hj]]%lookup_insert_Some; [|by apply (Hb j d)];
    (destruct k as [|k]; [done|]); eapply within_mono, Hw; lia.
  intros [_ Hj]%lookup_delete_Some. by apply (Hb j d).
Qed.
Lemma threads_bounded b x y n :
  budgeted b x → nsteps thread_step n x y → (n ≤ budget b (sys_threads x))%nat.
Proof.
  intros Hb Hn. revert b Hb. induction Hn as [|n x y z Hstep _ IH]; intros b Hb; [lia|].
  destruct (thread_budget b x y Hb Hstep) as (b' & Hb' & Hlt). specialize (IH b' Hb'). lia.
Qed.
(** A system that can go no further has no call left. *)
Lemma stuck_empty y :
  excluded y → (∀ s c, ok s c) → (∀ z, ¬ thread_step y z) → sys_threads y = ∅ ∧ sys_lock y = None.
Proof.
  intros X Hok Hstuck. destruct y as [s h t l]. simpl.
  destruct h as [i|].
  { destruct (xc_holder _ X i eq_refl) as (c & p & Hi & Hf). simpl in Hi.
    destruct p as [r|f next|p]; [| |done]; exfalso; eapply Hstuck;
      [by eapply thread_return|by eapply thread_access]. }
  split; [|done]. apply map_empty. intros i. destruct (t !! i) as [[c p]|] eqn:Hi; [|done]. exfalso.
  pose proof (xc_waiting _ X i c p Hi ltac:(done)) as ->. pose proof (locks c) as Hl.
  destruct (body c) as [| |p] eqn:Hb; try done. eapply Hstuck. by eapply thread_lock.
Qed.
Lemma thread_pending y z i c p :
  rtc thread_step y z → sys_threads y !! i = Some (c, p) →
  (∃ q, sys_threads z !! i = Some (c, q)) ∨ ∃ r, (i, c, r) ∈ sys_returned z.
Proof.
  intros Hyz Hi. revert z Hyz. apply rtc_ind_r; [by eauto|]. intros x z _ Hstep [[q Hq]|[r Hr]].
  - destruct Hstep as [j d p' s t l Hj Hok|j d f next s h t l Hj|j d r s h t l Hj]; simpl in *;
      (destruct (decide (j = i)) as [->|Hne]; [simplify_eq|]).
    1, 3: left; eexists; apply lookup_insert_eq.
    1, 2: left; exists q; by rewrite lookup_insert_ne.
    + right. exists r. apply elem_of_app. right. by left.
    + left. exists q. by rewrite lookup_delete_ne.
  - right. exists r. destruct Hstep; simpl in *; try done. apply elem_of_app. by left.
Qed.
Lemma threads_sys y z : rtc thread_step y z → rtc sys_step y z.
Proof. induction 1 as [|x y z Hstep _ IH]; [done|]. eapply rtc_l; [by apply sys_thread|done]. Qed.
(** The two together, for calls of at most [k] instructions each: once no call comes in,
    every schedule of the threads of [y] ends, and it ends with all of them returned. *)
Lemma all_return k s0 y :
  (∀ c, within k (body c)) → (∀ s c, ok s c) → rtc sys_step (sys_start s0) y →
  (∀ n z, nsteps thread_step n y z → (n ≤ Datatypes.S k * size (sys_threads y))%nat) ∧
  (∀ z, rtc thread_step y z → (∀ x, ¬ thread_step z x) →
     sys_threads z = ∅ ∧ sys_lock z = None ∧
     ∀ i c p, sys_threads y !! i = Some (c, p) → ∃ r, (i, c, r) ∈ sys_returned z).
Proof.
  intros Hk Hok Hy. split.
  - intros n z Hn. rewrite <-budget_size. eapply threads_bounded; [|done]. revert Hy. clear n z Hn.
    revert y. apply rtc_ind_r; [intros i c p; simpl; by rewrite lookup_empty|].
    intros x y _ [i c s h t l Hi|x' y' Hstep] Hb.
    + intros j d p. simpl. intros [[<- [= <- <-]]|[_ Hj]]%lookup_insert_Some; [apply Hk|by apply (Hb j d)].
    + by apply (thread_within k x' y').
  - intros z Hz Hstuck.
    assert (rtc sys_step (sys_start s0) z) as Hreach.
    { etrans; [exact Hy|]. by apply threads_sys. }
    destruct (stuck_empty z) as [Ht Hl]; [by eapply reachable_excluded|done..|].
    split_and!; try done. intros i c p Hi.
    destruct (thread_pending y z i c p Hz Hi) as [[q Hq]|]; [|done]. by rewrite Ht, lookup_empty in Hq.
Qed.
End exclusion.

(** A call served alone, up to its [k]-th instruction. *)
Lemma alone_advances k i c p s l :
  lock_free p →
  rtc sys_step
    {| sys_state := s; sys_lock := Some i; sys_threads := {[i := (c, p)]}; sys_returned := l |}
    {| sys_state := (advance k p s).1; sys_lock := Some i;
       sys_threads := {[i := (c, (advance k p s).2)]}; sys_returned := l |}.
Proof.
  revert p s. induction k as [|k IH]; intros p s Hp; [done|]. destruct p as [r|f next|p]; simpl; [done| |done].
  eapply rtc_l; [apply sys_thread, (thread_access i c f next); apply lookup_singleton_eq|].
  rewrite insert_singleton_eq. apply IH, Hp.
Qed.
Lemma alone_locks k i c s :
  locks_first (body c) → ok s c →
  rtc sys_step (sys_start s)
    {| sys_state := (advance (Datatypes.S k) (body c) s).1; sys_lock := Some i;
       sys_threads := {[i := (c, (advance (Datatypes.S k) (body c) s).2)]}; sys_returned := [] |}.
Proof.
  intros Hl Hok. eapply rtc_l; [by apply (sys_call i c)|].
  destruct (body c) as [| |p] eqn:Hb; try done.
  eapply rtc_l; [apply sys_thread, (thread_lock i c p); [apply lookup_insert_eq|done]|].
  rewrite insert_insert_eq. simpl. by apply (alone_advances k i c p s).
Qed.
End mutex.
Arguments System : clear implicits.

(** ** Calls among strangers

    A lock only orders those who take it. When others can change the shared state
    too, a call is judged against what they may do ([rely]): [tolerates Q p s] says
    that [p], begun in [s] and disturbed by any number of [rely] steps before each
    access and after the last, ends with [Q]. [fine] is what is known of the state
    at each access. *)

Section rely.
Context {S E A : Type} (rely : S → S → Prop) (fine : S → Prop).

Fixpoint tolerates (Q : result E A → S → Prop) (p : Proc S E A) (s : S) : Prop :=
  ∀ s', rtc rely s s' →
    match p with
    | Done r => Q r s'
    | Access f next => fine s' → tolerates Q (next s') (f s')
    | Lock p => tolerates Q p s'
    end.
Lemma tolerates_rely Q p s s' : tolerates Q p s → rtc rely s s' → tolerates Q p s'.
Proof. intros Hp Hs. destruct p; simpl in *; intros s2 H2; apply Hp; by etrans. Qed.
End rely.

Section open.
Context {S E Call A : Type} (body : Call → Proc S E A).
Context (rely : S → S → Prop) (fine : Call → S → Prop).

Definition with_state (s : S) (y : System S E Call A) : System S E Call A :=
  {| sys_state := s; sys_lock := sys_lock y; sys_threads := sys_threads y;
     sys_returned := sys_returned y |}.
(** A step of the threads, each access in a state [fine] for its call, or of the
    others. *)
Inductive open_step : System S E Call A → System S E Call A → Prop :=
| open_inside x y :
    sys_step body (λ _ _, True) x y →
    (∀ i c f next, sys_threads x !! i = Some (c, Access f next) → fine c (sys_state x)) → open_step x y
| open_outside x s : rely (sys_state x) s → open_step x (with_state s x).

(** Every call locks first and only once. *)
Hypothesis locks : ∀ c, locks_first (body c).

(** A call served while nothing else happens. *)
Lemma open_alone i c s :
  chain (λ s _, fine c s) (body c) s →
  rtc open_step (sys_start s)
    {| sys_state := (run (body c) s).1; sys_lock := None; sys_threads := ∅;
       sys_returned := [(i, c, (run (body c) s).2)] |}.
Proof.
  intros Hc. eapply rtc_l; [apply open_inside; [by apply (sys_call _ _ i c)|done]|].
  pose proof (locks c) as Hl. destruct (body c) as [| |p] eqn:Hb; try done. simpl in Hl, Hc.
  eapply rtc_l.
  { apply open_inside; [by apply sys_thread, (thread_lock _ i c p); [apply lookup_insert_eq|]|].
    intros j d f next. simpl. by intros [[<- [=]]|[_ Hj]]%lookup_insert_Some. }
  rewrite insert_insert_eq. clear Hb. simpl. revert s Hc Hl.
  induction p as [r|f next IH|p IH]; intros s Hc Hl; simpl; [|destruct Hc as [Hs Hn]|done].
  - apply rtc_once, open_inside.
    + pose proof (thread_return (λ _ _, True) i c r s (Some i) {[i := (c, Done r)]} []
        (lookup_singleton_eq _ _)) as Hr.
      unfold released in Hr. rewrite decide_True, delete_singleton_eq in Hr by done. by apply sys_thread.
    + intros j d f next. simpl. by intros [_ [=]]%lookup_singleton_Some.
  - eapply rtc_l; [|apply IH; done || apply Hl]. apply open_inside.
    + pose proof (thread_access (λ _ _, True) i c f next s (Some i) {[i := (c, Access f next)]} []
        (lookup_singleton_eq _ _)) as Hr. rewrite insert_singleton_eq in Hr. by apply sys_thread.
    + intros j d f' next'. simpl. by intros [_ [= <- _ _]]%lookup_singleton_Some.
Qed.

(** The lock invariant: [Inv l s] relates the state to the calls returned so far. It
    survives the others, and every call re-establishes it. *)
Context (Inv : list (nat * Call * result E A) → S → Prop) (s0 : S).
Hypothesis inv_start : Inv [] s0.
Hypothesis inv_rely : ∀ l s s', Inv l s → rely s s' → Inv l s'.
Hypothesis inv_call : ∀ l s i c, Inv l s →
  tolerates rely (fine c) (λ r, Inv (l ++ [(i, c, r)])) (body c) s.

Definition lock_inv (y : System S E Call A) : Prop :=
  match sys_holder y with
  | None => Inv (sys_returned y) (sys_state y)
  | Some (i, c, p) =>
      tolerates rely (fine c) (λ r, Inv (sys_returned y ++ [(i, c, r)])) p (sys_state y)
  end.
Lemma open_lock_inv x y :
  excluded body x → lock_inv x → open_step x y → lock_inv y.
Proof.
  intros X Hx Hopen. destruct Hopen as [x1 y1 Hstep Hfine|x1 s Hs]; unfold lock_inv in *.
  2: { change (sys_holder (with_state s x1)) with (sys_holder x1). simpl.
       destruct (sys_holder x1) as [[[i c] p]|]; [|eapply inv_rely; [exact Hx|exact Hs]].
       eapply tolerates_rely; [done|]. by apply rtc_once. }
  destruct Hstep as [i c s h t l Hi|x y Hstep]; [|destruct Hstep as
    [i c p s t l Hi Hok|i c f next s h t l Hi|i c r s h t l Hi]]; simpl in *.
  - revert Hx. unfold sys_holder. simpl. destruct h as [j|]; simpl; [|done].
    destruct (xc_holder _ _ X j eq_refl) as (d & p & Hj & _). simpl in Hj.
    rewrite lookup_insert_ne by congruence. by rewrite Hj.
  - unfold sys_holder. simpl. rewrite lookup_insert_eq. simpl.
    pose proof (inv_call l s i c Hx) as Hc. rewrite <-(xc_waiting _ _ X i c _ Hi ltac:(done)) in Hc.
    by apply Hc.
  - pose proof (active_holds body locks _ i c _ X Hi ltac:(done)) as Hh. simpl in Hh. subst h.
    revert Hx. unfold sys_holder. simpl. rewrite Hi, lookup_insert_eq. simpl. intros Hx.
    apply Hx; [done|]. by eapply Hfine.
  - pose proof (active_holds body locks _ i c _ X Hi ltac:(done)) as Hh. simpl in Hh. subst h.
    unfold released. rewrite decide_True by done. revert Hx. unfold sys_holder. simpl. rewrite Hi.
    simpl. intros Hx. by apply Hx.
Qed.
Lemma open_excluded x y : open_step x y → excluded body x → excluded body y.
Proof.
  intros Hopen X. destruct Hopen as [x1 y1 Hstep _|x1 s _]; [exact (step_excluded body (λ _ _, True) locks x1 y1 Hstep X)|]. destruct X as [Xh Xw]. by split.
Qed.
Lemma open_invariant y :
  rtc open_step (sys_start s0) y → excluded body y ∧ lock_inv y ∧ ∃ s, Inv (sys_returned y) s.
Proof.
  revert y. apply rtc_ind_r; [split_and!; [apply excluded_start|done|by exists s0]|].
  intros x y _ Hstep (X & Hx & s1 & Hs1).
  pose proof (open_excluded x y Hstep X) as Y. pose proof (open_lock_inv x y X Hx Hstep) as Hy.
  split_and!; [done..|]. destruct Hstep as [x1 y1 Hstep Hf|x1 s Hs]; [|by exists s1].
  destruct Hstep as [i c s h t l Hi|x2 y2 Hstep]; [by exists s1|].
  destruct Hstep as [i c p s t l Hi Hok|i c f next s h t l Hi|i c r s h t l Hi]; [by exists s1..|].
  pose proof (active_holds body locks _ i c _ X Hi ltac:(done)) as Hh. simpl in Hh. subst h.
  exists s. revert Hy. unfold lock_inv, sys_holder, released. simpl. by rewrite decide_True.
Qed.
End open.
