(* ===== verification/Concurrent.v ===== *)
(** * Concurrent calls on one node

    [RpcState] is cloned into every connection of the JSON-RPC server: the calls
    of [Rpc] run on several threads. The mutating ones take [commit_lock] in their
    first statement and, holding it, open each field for the statement that needs
    it; the queries of [RpcApi] take no lock but that of the field they read. Here
    every mutating call is the sequence of its instructions, in the order of the
    source, the acquisition of the lock being one of them, and every query reads
    between any two of them. *)

From Stdlib Require Import String.
From S2P Require Import Prelude Order Text Deps Bincode Core WorldState Mempool Storage Rpc RpcApi Interleave.

Section calls.
Context `{!Blake3, !Hex, !Serialize Transaction, !Serialize BlockHeader, !Serialize (list Hash),
  !Serialize (Hash * Z * Z * Z), !Serialize StateSnapshot,
  !Serialize LedgerSnapshot, !Deserialize LedgerSnapshot,
  !Serialize LedgerEnvelope, !Deserialize LedgerEnvelope}.

(** [seal_next_block]; the chain ID is not behind a lock. *)
Definition seal_accesses (io : FsOp → option string) (now : Z) (h : Hash)
  : Proc RpcState RpcError Receipt :=
  tx ← access (λ n, (n, ok_or (mempool_get (rs_mempool n) h) RpcInvalidTxHash));
  _ ← Done (gas_guard tx);
  state ← access (st_gets rs_state);
  candidate_state ← Done (execute tx state);
  '(chain_id, previous_block) ← access (st_gets (λ n, (rs_chain_id n, last (rs_blocks n))));
  height ← Done (height_after previous_block);
  let block := block_after chain_id previous_block tx h candidate_state height now in
  let receipt := next_receipt block h in
  blocks ← access (st_gets rs_blocks);
  receipts ← access (st_gets rs_receipts);
  let next_blocks := blocks ++ [block] in
  let next_receipts := <[h := receipt]> receipts in
  _ ← access (rpc_persist io candidate_state next_blocks next_receipts);
  _ ← access (st_modify (set_state candidate_state));
  _ ← access (st_modify (set_mempool (λ p, (mempool_remove h p).1)));
  _ ← access (st_modify (set_blocks next_blocks));
  _ ← access (st_modify (set_receipts next_receipts));
  _ ← access (st_modify (set_height height));
  mret receipt.
Definition include_accesses (io : FsOp → option string) (now : Z) (h : Hash)
  : Proc RpcState RpcError Receipt :=
  _ ← lock;
  seal_accesses io now h.
Definition submit_accesses (io : FsOp → option string) (now : Z) (tx : Transaction)
  : Proc RpcState RpcError Hash :=
  _ ← lock;
  previous_pending ← access (st_gets (λ n,
    snd <$> get_by_sender_nonce (rs_mempool n) (tx_from tx) (tx_nonce tx)));
  admission ← access (st_map_err (TransactionRejected ∘ mempool_error_to_string)
                        (with_mempool (admit_tx tx)));
  _ ← Done (fail_if (negb (adm_accepted admission)) underpriced);
  proc_then (seal_accesses io now (adm_hash admission)) (λ r,
    match r with
    | Ok receipt => mret (rcpt_tx_hash receipt)
    | Err e =>
        _ ← access (st_modify (set_mempool
              (restore_pool (adm_hash admission) previous_pending (adm_displaced admission))));
        Done (Err e)
    end).
(** The guards on the blocks and the receipts are held while they are written. *)
Definition seed_accesses (io : FsOp → option string) (allocations : list (Address * Z))
  : Proc RpcState RpcError unit :=
  _ ← lock;
  candidate ← access (st_gets (λ n,
    foldl (λ s '(a, b), set_balance a b s) (rs_state n) allocations));
  _ ← access (λ n, rpc_persist io candidate (rs_blocks n) (rs_receipts n) n);
  access (st_modify (set_state candidate)).

(** The methods that take the commit lock. *)
Inductive Commit :=
| CommitSubmit (io : FsOp → option string) (now : Z) (tx : Transaction)
| CommitInclude (io : FsOp → option string) (now : Z) (h : Hash)
| CommitSeed (io : FsOp → option string) (allocations : list (Address * Z)).
Inductive Answer := Hashed (h : Hash) | Included (r : Receipt) | Seeded.
Definition commit_accesses (c : Commit) : Proc RpcState RpcError Answer :=
  match c with
  | CommitSubmit io now tx => h ← submit_accesses io now tx; mret (Hashed h)
  | CommitInclude io now h => r ← include_accesses io now h; mret (Included r)
  | CommitSeed io allocations => _ ← seed_accesses io allocations; mret Seeded
  end.
(** The same calls of the sequential model. *)
Definition commit_call (c : Commit) : ST RpcState RpcError Answer :=
  match c with
  | CommitSubmit io now tx => h ← submit_transaction io now tx; mret (Hashed h)
  | CommitInclude io now h => r ← include_transaction io now h; mret (Included r)
  | CommitSeed io allocations => _ ← seed_accounts io allocations; mret Seeded
  end.

(** ** The accesses add up to the sequential calls *)

Lemma seal_accesses_run io now h n : run (seal_accesses io now h) n = seal_next_block io now h n.
Proof.
  unfold seal_accesses, seal_next_block, next_block. cbv [mbind proc_bind st_bind st_get st_lift].
  simpl. destruct (ok_or _ _) as [tx|e]; [|done]. simpl. destruct (gas_guard tx) as [[]|e]; [|done].
  simpl. destruct (execute tx (rs_state n)) as [post|e]; [|done]. simpl.
  destruct (height_after _) as [ht|e]; [|done]. simpl.
  by destruct (rpc_persist _ _ _ _ n) as [n' [[]|e]].
Qed.
Lemma include_accesses_run io now h n :
  run (include_accesses io now h) n = include_transaction io now h n.
Proof. apply seal_accesses_run. Qed.
#[local] Opaque seal_accesses.
Lemma submit_accesses_run io now tx n :
  run (submit_accesses io now tx) n = submit_transaction io now tx n.
Proof.
  unfold submit_accesses, submit_transaction, seal_or_restore.
  cbv [mbind proc_bind st_bind st_get st_lift st_fail_if]. simpl.
  destruct (st_map_err _ _ n) as [n' [adm|e]]; [|done]. simpl.
  destruct (fail_if _ _) as [[]|e]; [|done]. rewrite run_then, seal_accesses_run.
  by destruct (seal_next_block _ _ _ n') as [n1 [rc|e]].
Qed.
Lemma seed_accesses_run io al n : run (seed_accesses io al) n = seed_accounts io al n.
Proof.
  unfold seed_accesses, seed_accounts. cbv [mbind proc_bind st_bind st_get]. simpl.
  by destruct (rpc_persist _ _ _ _ n) as [n' [[]|e]].
Qed.
Lemma commit_accesses_run c n : run (commit_accesses c) n = commit_call c n.
Proof.
  destruct c; unfold commit_accesses, commit_call; rewrite run_bind; cbv [mbind st_bind].
  - by rewrite submit_accesses_run.
  - by rewrite include_accesses_run.
  - by rewrite seed_accesses_run.
Qed.

(** Every call takes the lock in its first instruction, never again, and makes at most
    fifteen: the lock, the two on the pool, the eleven of the seal, the restoring. *)
#[local] Transparent seal_accesses.
Lemma seal_lock_free io now h : lock_free (seal_accesses io now h).
Proof.
  repeat (first [apply lock_free_bind|intros []|intros ?|destruct (gas_guard _)|done]).
Qed.
Lemma seal_within io now h : within 11 (seal_accesses io now h).
Proof.
  unfold seal_accesses. cbv [mbind proc_bind]. simpl. intros n.
  destruct (ok_or _ _) as [tx|]; simpl; [|done]. destruct (gas_guard tx) as [[]|]; simpl; [|done].
  intros n1. destruct (execute _ _) as [post|]; simpl; [|done]. intros n2.
  destruct (height_after _) as [ht|]; simpl; [|done]. intros n3 n4 n5.
  by destruct (rpc_persist _ _ _ _ n5) as [n6 [[]|e]].
Qed.
#[local] Opaque seal_accesses.
Lemma commit_locks c : locks_first (commit_accesses c).
Proof.
  destruct c as [io now tx|io now h|io al]; (apply locks_first_bind; [|done]); simpl.
  - intros n n1. destruct (st_map_err _ _ n1) as [n2 [adm|e]]; simpl; [|done].
    destruct (fail_if _ _); simpl; [|done].
    apply (lock_free_then (seal_accesses io now (adm_hash adm))); [apply seal_lock_free|by intros [rc|e]].
  - apply seal_lock_free.
  - intros n n1. by destruct (rpc_persist _ _ _ _ n1) as [n2 [[]|e]].
Qed.
Lemma commit_within c : within 15 (commit_accesses c).
Proof.
  destruct c as [io now tx|io now h|io al]; apply (within_bind 15 0); try done; simpl.
  - intros n n1. destruct (st_map_err _ _ n1) as [n2 [adm|e]]; simpl; [|done].
    destruct (fail_if _ _); simpl; [|done].
    apply (within_then 11 1 (seal_accesses io now (adm_hash adm))); [apply seal_within|by intros [rc|e]].
  - eapply within_mono; [|apply seal_within]. lia.
  - intros n n1. by destruct (rpc_persist _ _ _ _ n1) as [n2 [[]|e]].
Qed.

(** ** What a reader can see *)

(** [v] is on the way from [n] to [n']: its disk is that of [n'], and each field is
    the old or the new one, the new blocks only once the new state is there, the new
    receipts and the new height only once the new blocks are. *)
Record between (n n' v : RpcState) : Prop := {
  bt_store : rs_store v = rs_store n';
  bt_disk : rs_disk v = rs_disk n';
  bt_state : rs_state v = rs_state n ∨ rs_state v = rs_state n';
  bt_blocks : rs_blocks v = rs_blocks n ∨
    rs_blocks v = rs_blocks n' ∧ rs_state v = rs_state n';
  bt_receipts : rs_receipts v = rs_receipts n ∨
    rs_receipts v = rs_receipts n' ∧ rs_blocks v = rs_blocks n';
  bt_height : rs_block_height v = rs_block_height n ∨
    rs_block_height v = rs_block_height n' ∧ rs_blocks v = rs_blocks n'
}.
Lemma between_refl n : between n n n.
Proof. split; auto. Qed.
Lemma between_mempool n n' p v : between (set_mempool p n) n' v → between n n' v.
Proof. by intros [? ? ? ? ? ?]; split. Qed.
Lemma between_mempool_same n p v :
  between (set_mempool p n) (set_mempool p n) v → between n n v.
Proof. by intros [? ? ? ? ? ?]; split. Qed.

#[local] Transparent seal_accesses.
(** While a block is sealed the node is as before or, once the disk was touched, on
    the way to the result. *)
Lemma seal_visited io now h n v :
  v ∈ visited (seal_accesses io now h) n → between n n v ∨ between n (seal_next_block io now h n).1 v.
Proof.
  rewrite <-seal_accesses_run. unfold seal_accesses. cbv [mbind proc_bind]. simpl.
  assert (∀ x, x = n → between n n x) as Hn by (intros x ->; apply between_refl).
  destruct (ok_or _ _) as [tx|e]; simpl; [|set_solver]. destruct (gas_guard tx) as [[]|e]; simpl; [|set_solver].
  destruct (execute tx (rs_state n)) as [post|e]; simpl; [|set_solver].
  destruct (height_after _) as [ht|e]; simpl; [|set_solver].
  unfold rpc_persist. destruct (persist _ _ _ _) as [d [[]|e]]; simpl;
    rewrite !elem_of_cons, elem_of_nil; intros Hv;
    destruct_or! Hv; try done; subst v; try (left; apply between_refl); right; split; simpl; auto.
Qed.
#[local] Opaque seal_accesses.
Lemma submit_visited io now tx n v :
  d_temp (rs_disk n) = None → v ∈ visited (submit_accesses io now tx) n →
  between n n v ∨ between n (submit_transaction io now tx n).1 v.
Proof.
  intros Hst. rewrite <-submit_accesses_run. unfold submit_accesses. cbv [mbind proc_bind]. simpl.
  destruct (st_map_err _ _ n) as [n1 r] eqn:Had. simpl.
  assert (∃ p, n1 = set_mempool p n) as [p ->].
  { unfold st_map_err, with_mempool in Had. destruct (admit_tx tx (rs_mempool n)) as [p ?].
    injection Had as <- _. by exists (λ _, p). }
  assert (between n n (set_mempool p n)) as Hn1 by (by split; auto).
  rewrite !elem_of_cons. intros [->|[->|Hv]]; [left; apply between_refl..|].
  destruct r as [adm|e]; simpl in *; [|apply list_elem_of_singleton in Hv as ->; by left].
  destruct (fail_if _ _) as [[]|e]; simpl in *; [|apply list_elem_of_singleton in Hv as ->; by left].
  rewrite run_then, seal_accesses_run. apply visited_then in Hv as [Hv|Hv].
  - apply seal_visited in Hv as [Hv|Hv]; [left; by apply (between_mempool_same n p)|right].
    apply (between_mempool n _ p).
    destruct (seal_next_block _ _ _ _) as [n2 [rc|e]]; simpl in *; [done|].
    destruct Hv. by split.
  - rewrite seal_accesses_run in Hv. right.
    destruct (seal_next_block _ _ _ _) as [n2 r2] eqn:Hseal. apply seal_run in Hseal; [|done].
    destruct r2 as [rc|e]; simpl in *.
    + destruct Hseal as (t & post & b & d' & _ & _ & ->). apply list_elem_of_singleton in Hv as ->.
      by split; auto.
    + destruct Hseal as (d' & -> & _). rewrite !elem_of_cons, elem_of_nil in Hv.
      by destruct_or! Hv; subst; split; auto.
Qed.
Lemma seed_visited io al n v :
  v ∈ visited (seed_accesses io al) n → between n n v ∨ between n (seed_accounts io al n).1 v.
Proof.
  rewrite <-seed_accesses_run. unfold seed_accesses, rpc_persist. cbv [mbind proc_bind]. simpl.
  destruct (persist _ _ _ _) as [d [[]|e]]; simpl; rewrite !elem_of_cons, elem_of_nil; intros Hv;
    destruct_or! Hv; subst; try done; try (left; apply between_refl); right; split; simpl; auto.
Qed.

(** What a commit relies on when it gets the lock, as in [node_step]: any of its file
    operations may fail; a seeding comes before the first block. *)
Definition admissible (n : RpcState) (c : Commit) : Prop :=
  match c with
  | CommitSubmit io now tx =>
      tx_wf tx ∧ pool_no_collision n tx ∧ good_commit n tx now
  | CommitInclude io now h =>
      ∃ tx, h = tx_hash tx ∧ pool_no_collision n tx ∧ good_commit n tx now
  | CommitSeed io allocations =>
      rs_blocks n = [] ∧ Forall (λ e, is_u128 e.2) allocations ∧
      representable (ledger_of (rs_chain_id n) (seeded (rs_state n) allocations)
                       (rs_blocks n) (rs_receipts n))
  end.
Lemma admissible_step n c : admissible n c → node_step n (commit_call c n).1.
Proof.
  destruct c as [io now tx|io now h|io al]; simpl; cbv [mbind st_bind].
  - intros (Htx & Hp & Hg).
    apply (step_submit serving io now tx _ _ (submit_transaction io now tx n).2); try done.
    by destruct (submit_transaction io now tx n) as [? []].
  - intros (tx & -> & Hp & Hg).
    apply (step_include serving io now tx _ _ (include_transaction io now (tx_hash tx) n).2); try done.
    by destruct (include_transaction io now (tx_hash tx) n) as [? []].
  - intros (Hb & Hal & Hrep). apply (step_seed serving io al _ _ (seed_accounts io al n).2); try done.
    by destruct (seed_accounts io al n) as [? []].
Qed.
Lemma commit_visited c n v :
  node_inv n → admissible n c → v ∈ visited (commit_accesses c) n →
  between n n v ∨ between n (commit_call c n).1 v.
Proof.
  intros I Hadm Hv.
  assert (∀ {B} (p : Proc RpcState RpcError B) (k : B → Answer),
    v ∈ visited (a ← p; mret (k a)) n → v ∈ visited p n ∨ v = (run p n).1) as Hret.
  { intros B p k [Hp|(b & _ & Hp)]%visited_bind; [by left|].
    apply list_elem_of_singleton in Hp as ->. by right. }
  destruct c as [io now tx|io now h|io al]; simpl in Hadm; simpl; cbv [mbind st_bind];
    apply Hret in Hv as [Hv|Hv].
  - apply submit_visited in Hv; [|apply I].
    by destruct (submit_transaction io now tx n) as [? []].
  - rewrite submit_accesses_run in Hv. subst v. right.
    destruct (submit_transaction io now tx n) as [? []]; split; auto.
  - apply (seal_visited io now h) in Hv as [Hv|Hv]; [by left|right].
    unfold include_transaction. by destruct (seal_next_block io now h n) as [? []].
  - rewrite include_accesses_run in Hv. subst v. right.
    destruct (include_transaction io now h n) as [? []]; split; auto.
  - apply seed_visited in Hv. by destruct (seed_accounts io al n) as [? []].
  - rewrite seed_accesses_run in Hv. subst v. right.
    destruct (seed_accounts io al n) as [? []]; split; auto.
Qed.

(** ** The ledger only grows *)

Record grows (n n' : RpcState) : Prop := {
  gr_blocks : rs_blocks n `prefix_of` rs_blocks n';
  gr_receipts : rs_receipts n ⊆ rs_receipts n';
  gr_height : rs_block_height n ≤ rs_block_height n'
}.
#[export] Instance grows_preorder : PreOrder grows.
Proof.
  split; [intros n; by split|]. intros x y z [] []. split; [by etrans..|lia].
Qed.
Lemma grows_same n n' :
  rs_blocks n' = rs_blocks n → rs_receipts n' = rs_receipts n →
  rs_block_height n' = rs_block_height n → grows n n'.
Proof. by intros Hb Hr Hh; split; rewrite ?Hb, ?Hr, ?Hh. Qed.
Lemma receipt_map_lookup n h r :
  node_inv n → rs_receipts n !! h = Some r ↔
  ∃ b, b ∈ rs_blocks n ∧ receipt_of b = r ∧ rcpt_tx_hash r = h.
Proof.
  intros I. pose proof (ni_ledger _ _ I) as L. rewrite (li_receipts _ _ _ _ L). unfold receipt_map.
  rewrite <-elem_of_list_to_map, list_elem_of_fmap.
  - split; [intros (b & [-> ->]%pair_equal_spec & Hb); eauto|intros (b & Hb & <- & <-); eauto].
  - rewrite <-list_fmap_compose. apply (li_distinct _ _ _ _ L).
Qed.
Lemma grows_inv n n' :
  node_inv n → node_inv n' → rs_blocks n `prefix_of` rs_blocks n' → grows n n'.
Proof.
  intros I I' Hp. split; [done| |].
  - apply map_subseteq_spec. intros h r. rewrite !receipt_map_lookup by done.
    intros (b & Hb & Hr). exists b. split; [|done]. destruct Hp as [k ->]. apply elem_of_app. by left.
  - rewrite (ni_height _ _ I), (ni_height _ _ I'). apply prefix_length in Hp. lia.
Qed.
Lemma commit_prefix c n :
  node_inv n → admissible n c → rs_blocks n `prefix_of` rs_blocks (commit_call c n).1 ∧
    rs_store (commit_call c n).1 = rs_store n.
Proof.
  intros I Hadm. destruct c as [io now tx|io now h|io al]; simpl in *; cbv [mbind st_bind].
  - destruct (submit_transaction io now tx n) as [n' r] eqn:Hs. 
    apply submit_run in Hs; [|apply I|apply I|apply Hadm].
    destruct r; [destruct Hs as (_ & ? & ? & ? & b & ? & _ & _ & _ & ->)|destruct Hs as (? & -> & _)];
      simpl; [|done]. split; [by exists [b]|done].
  - unfold include_transaction. destruct (seal_next_block io now h n) as [n' r] eqn:Hs.
    apply seal_run in Hs; [|apply I].
    destruct r; [destruct Hs as (? & ? & b & ? & _ & _ & ->)|destruct Hs as (? & -> & _)];
      simpl; [|done]. split; [by exists [b]|done].
  - destruct (seed_accounts io al n) as [n' r] eqn:Hs. apply seed_run in Hs; [|apply I].
    destruct r; [destruct Hs as (? & -> & _)|destruct Hs as (? & -> & _)]; done.
Qed.

#[local] Transparent seal_accesses.
Lemma seal_chain io now h n :
  (∀ rc, (seal_next_block io now h n).2 = Ok rc → grows n (seal_next_block io now h n).1) →
  chain grows (seal_accesses io now h) n.
Proof.
  rewrite <-seal_accesses_run. unfold seal_accesses. cbv [mbind proc_bind]. simpl.
  destruct (ok_or _ _) as [tx|e]; simpl; [|done]. destruct (gas_guard tx) as [[]|e]; simpl; [|done].
  destruct (execute tx (rs_state n)) as [post|e]; simpl; [|done].
  destruct (height_after _) as [ht|e]; simpl; [|done].
  unfold rpc_persist. destruct (persist _ _ _ _) as [d [[]|e]]; simpl.
  2: { intros _. split_and!; done || by apply grows_same. }
  intros Hg. destruct (Hg _ eq_refl) as [Hb Hr Hh]. simpl in *.
  split_and!; try done; try (by apply grows_same); split; simpl; done.
Qed.
#[local] Opaque seal_accesses.
Lemma submit_chain io now tx n :
  grows n (submit_transaction io now tx n).1 → chain grows (submit_accesses io now tx) n.
Proof.
  rewrite <-submit_accesses_run. unfold submit_accesses. cbv [mbind proc_bind]. simpl.
  destruct (st_map_err _ _ n) as [n1 r] eqn:Had. simpl.
  assert (∃ p, n1 = set_mempool p n) as [p ->].
  { unfold st_map_err, with_mempool in Had. destruct (admit_tx tx (rs_mempool n)) as [p ?].
    injection Had as <- _. by exists (λ _, p). }
  intros Hg. split_and!; [done|by apply grows_same|]. destruct r as [adm|e]; simpl in *; [|done].
  destruct (fail_if _ _) as [[]|e]; simpl in *; [|done]. rewrite run_then, seal_accesses_run in Hg.
  apply chain_then; [|rewrite seal_accesses_run; destruct (seal_next_block _ _ _ _) as [n2 [rc|e]]];
    [|done|split; [by apply grows_same|done]].
  apply seal_chain. intros rc Hrc. destruct (seal_next_block _ _ _ _) as [n2 r]. simpl in *. subst r.
  destruct Hg. by split.
Qed.
Context `{!BincodeLaws LedgerSnapshot ledger_wf, !BincodeLaws LedgerEnvelope envelope_wf}.
Lemma commit_chain c n : node_inv n → admissible n c → chain grows (commit_accesses c) n.
Proof.
  intros I Hadm. pose proof (node_step_inv _ _ _ (admissible_step n c Hadm) I) as I'.
  destruct (commit_prefix c n I Hadm) as [Hpre _]. pose proof (grows_inv _ _ I I' Hpre) as Hg.
  clear Hpre I'. destruct c as [io now tx|io now h|io al]; unfold commit_accesses;
    (apply chain_bind; [|done]); simpl in Hg; cbv [mbind st_bind] in Hg.
  - apply submit_chain. by destruct (submit_transaction io now tx n) as [? []].
  - apply seal_chain. intros rc Hrc. unfold include_transaction in Hg.
    destruct (seal_next_block io now h n) as [n' r]. simpl in *. by subst r.
  - unfold seed_accesses, rpc_persist. cbv [mbind proc_bind]. simpl.
    destruct (persist _ _ _ _) as [d [[]|e]]; simpl; split_and!; done || by apply grows_same.
Qed.

(** ** Coherence of what is visible *)

(** The height is that of a visible block, a visible receipt names the visible block
    that holds its transaction, and a visible block's transaction has advanced the
    visible nonce of its sender. *)
Record coherent (v : RpcState) : Prop := {
  ch_height : 0 ≤ rs_block_height v ≤ block_count v;
  ch_receipt h r : rpc_receipt v h = Some r → ∃ b tx,
    block_at_height v (rcpt_block_height r) = Some b ∧ blk_transactions b = [tx] ∧
    tx_hash tx = h ∧ r = next_receipt b h;
  ch_executed b tx : b ∈ rs_blocks v → tx ∈ blk_transactions b →
    tx_nonce tx < rpc_nonce v (tx_from tx)
}.
(** Every block and receipt visible in [v], and its state unless it still is the
    one before the commit in progress ([n]), is in the ledger a restart would load. *)
Definition on_disk (n v : RpcState) : Prop :=
  ∀ dir, ls_dir (rs_store v) = Some dir → ∃ l,
    load (rs_store v) None None (rs_disk v) = Ok l ∧
    rs_blocks v `prefix_of` rst_blocks l ∧
    (∀ h r, rpc_receipt v h = Some r → r ∈ rst_receipts l) ∧
    (rs_state v = rst_state l ∨ rs_state v = rs_state n).

Lemma block_at_prefix n v h b :
  rs_blocks n `prefix_of` rs_blocks v → block_at_height n h = Some b → block_at_height v h = Some b.
Proof.
  intros Hp. unfold block_at_height. destruct (checked_sub h 1) as [i|]; [|done].
  simpl. intros Hb. by eapply prefix_lookup_Some.
Qed.
Lemma receipt_block n h r :
  node_inv n → rs_receipts n !! h = Some r → ∃ b tx,
    block_at_height n (rcpt_block_height r) = Some b ∧ blk_transactions b = [tx] ∧
    tx_hash tx = h ∧ r = next_receipt b h.
Proof.
  intros I Hr. apply receipt_map_lookup in Hr as (b & Hb & <- & Hh); [|done].
  apply list_elem_of_lookup in Hb as [i Hi]. destruct (ledger_block n i b I Hi) as (tx & Htx & Hht & Hrc).
  rewrite Hrc in *. simpl in *. exists b, tx. rewrite Hht, block_at_index. by subst h.
Qed.
Lemma between_coherent n n' v :
  node_inv n → node_inv n' → grows n n' → between n n' v → coherent v.
Proof.
  intros I I' [Hb Hr Hh] [_ _ Hst Hbl Hrc Hht].
  assert (rs_blocks n `prefix_of` rs_blocks v) as Hnv by (destruct Hbl as [->|[-> _]]; done).
  split; unfold block_count, rpc_receipt, rpc_nonce in *.
  - pose proof (prefix_length _ _ Hnv).
    destruct Hht as [->|[-> ->]]; rewrite (ni_height _ _ I) || rewrite (ni_height _ _ I'); lia.
  - intros h r. destruct Hrc as [->|[-> Hv]]; intros Hl.
    + destruct (receipt_block n h r I Hl) as (b & tx & Hat & ?). exists b, tx.
      split; [by eapply block_at_prefix|done].
    + destruct (receipt_block n' h r I' Hl) as (b & tx & Hat & ?). exists b, tx.
      split; [|done]. unfold block_at_height. by rewrite Hv.
  - intros b tx Hin Htx. destruct Hst as [Hs|Hs].
    + destruct Hbl as [Hbl|[Hbl Hs']]; [rewrite Hs|rewrite Hs']; rewrite Hbl in Hin.
      * by apply (li_executed _ _ _ _ (ni_ledger _ _ I) b).
      * by apply (li_executed _ _ _ _ (ni_ledger _ _ I') b).
    + rewrite Hs. apply (li_executed _ _ _ _ (ni_ledger _ _ I') b); [|done].
      destruct Hbl as [Hbl|[Hbl _]]; rewrite Hbl in Hin; [|done].
      destruct Hb as [k ->]. apply elem_of_app. by left.
Qed.
(** A commit that changed the state has put the new ledger on disk. *)
Definition settled (n n' : RpcState) : Prop :=
  rs_state n' = rs_state n ∨
  ∀ dir, ls_dir (rs_store n') = Some dir → load (rs_store n') None None (rs_disk n') = Ok (memory n').
Lemma commit_settled c n : node_inv n → admissible n c → settled n (commit_call c n).1.
Proof.
  intros I Hadm. destruct c as [io now tx|io now h|io al]; simpl in *; cbv [mbind st_bind].
  - destruct Hadm as (Htx & Hcol & Hg). destruct (submit_transaction io now tx n) as [n' r] eqn:Hs.
    apply submit_run in Hs; [|apply I..|done].
    destruct r; [right|left; by destruct Hs as (? & -> & _)].
    destruct Hs as (-> & p & adm & post & b & d' & Had & _ & Hsl & ->).
    by destruct (sealed_inv serving io now _ tx post b d' (admitted_inv _ n tx p adm I Htx Had) Hsl Hg).
  - destruct Hadm as (tx & -> & Hcol & Hg). unfold include_transaction.
    destruct (seal_next_block io now _ n) as [n' r] eqn:Hs. apply seal_run in Hs; [|apply I].
    destruct r; [right|left; by destruct Hs as (? & -> & _)].
    destruct Hs as (t & post & b & d' & Hsl & _ & ->). pose proof (sl_pool _ _ _ _ _ _ _ _ Hsl) as Hp.
    apply Hcol in Hp. subst t. by destruct (sealed_inv serving io now _ tx post b d' I Hsl Hg).
  - destruct Hadm as (Hb & Hal & Hrep). destruct (seed_accounts io al n) as [n' r] eqn:Hs.
    apply seed_run in Hs; [|apply I]. destruct r; [right|left; by destruct Hs as (? & -> & _)].
    destruct Hs as (d' & -> & Hp). intros dir Hdir.
    pose proof (ledger_inv_seeded _ _ _ _ al (ni_ledger _ _ I) Hal) as L'.
    pose proof (persist_loads _ _ _ _ _ _ _ _ (ni_store _ _ I) (ni_disk _ _ I) L' Hrep Hp dir Hdir) as Hl.
    unfold loads_as in Hl. simpl in Hl. rewrite Hb in Hl. unfold memory. simpl. by rewrite Hb.
Qed.
(** Whatever a restart finds, it has the blocks and the receipts in memory. *)
Lemma recoverable_prefix fl n l :
  recoverable fl n l → rs_blocks n `prefix_of` rst_blocks l ∧ rst_receipts l = map receipt_of (rst_blocks l).
Proof. intros [| |]; (split; [|done]); simpl; [done|by eexists|done]. Qed.
Lemma between_on_disk n n' v :
  node_inv n → node_inv n' → grows n n' → settled n n' → between n n' v → on_disk n v.
Proof.
  intros I I' [Hb Hr _] Hset [Hstore Hdisk Hst Hbl Hrc _] dir Hdir. rewrite Hstore, Hdisk in *.
  assert (∃ l, load (rs_store n') None None (rs_disk n') = Ok l ∧ recoverable serving n' l ∧
    (rs_state v = rst_state l ∨ rs_state v = rs_state n)) as (l & Hl & Hrec & Hs).
  { destruct Hset as [Hsame|Hload].
    - destruct (node_reload _ n' dir I' eq_refl Hdir) as (l & Hrec & Hl). exists l. split_and!; try done.
      right. destruct Hst; congruence.
    - exists (memory n'). split_and!; [by eapply Hload|constructor|]. simpl. destruct Hst; auto. }
  exists l. destruct (recoverable_prefix _ _ _ Hrec) as [Hp Hm]. split_and!; try done.
  - destruct Hbl as [->|[-> _]]; [by etrans|done].
  - intros h r Hh. unfold rpc_receipt in Hh.
    assert (rs_receipts n' !! h = Some r) as Hh'.
    { destruct Hrc as [Hrc|[Hrc _]]; rewrite Hrc in Hh; [by eapply lookup_weaken|done]. }
    apply receipt_map_lookup in Hh' as (b & Hin & <- & _); [|done]. rewrite Hm. apply list_elem_of_fmap.
    exists b. split; [done|]. destruct Hp as [k ->]. apply elem_of_app. by left.
Qed.
Lemma commit_ok_inv n c : node_inv n → admissible n c → node_inv (run (commit_accesses c) n).1.
Proof.
  intros I Hadm. rewrite commit_accesses_run. by eapply node_step_inv; [apply admissible_step|].
Qed.
(** Whatever is interleaved, the visible node is on the way from the node the
    returned commits left. *)
Lemma reachable_between n0 y :
  node_inv n0 → rtc (sys_step commit_accesses admissible) (sys_start n0) y →
  ∃ n n', serial commit_accesses admissible n0 (sys_returned y) n ∧ node_inv n ∧ node_inv n' ∧
    grows n n' ∧ rs_store n' = rs_store n ∧ settled n n' ∧ between n n' (sys_state y) ∧
    (n' = n ∨ node_step n n') ∧ (sys_holder y = None → sys_state y = n).
Proof.
  intros I0 Hy. destruct (sys_serial _ _ commit_locks _ _ Hy) as (n & Hser & Hp).
  assert (sys_holder y = None → sys_state y = n) as Hfree.
  { unfold in_progress in Hp. by destruct (sys_holder y) as [[[? ?] ?]|]. }
  assert (node_inv n) as I by (eapply (serial_ind_inv _ _ node_inv); [|apply commit_ok_inv|]; done).
  exists n. destruct (in_progress_visited _ _ _ _ Hp) as [->|(i & c & p & _ & Hadm & Hv)].
  { exists n. split_and!; try done; [by left|apply between_refl|by left]. }
  apply commit_visited in Hv as [Hv|Hv]; [exists n; split_and!; try done; by left| |done..].
  exists (commit_call c n).1.
  pose proof (commit_ok_inv n c I Hadm) as I'. rewrite commit_accesses_run in I'.
  destruct (commit_prefix c n I Hadm) as [Hpre Hs].
  split_and!; try done; [by apply grows_inv|by apply commit_settled|right; by apply admissible_step].
Qed.
(** The returned commits are steps of the sequential node. *)
Lemma serial_steps n0 l n :
  node_inv n0 → serial commit_accesses admissible n0 l n → rtc node_step n0 n.
Proof.
  intros I0 Hs. apply (serial_ind_inv _ _ (λ n, node_inv n ∧ rtc node_step n0 n)) in Hs;
    [by destruct Hs|done|].
  intros m c [I Hm] Hadm. split; [by apply commit_ok_inv|]. rewrite commit_accesses_run.
  eapply rtc_r; [done|]. by apply admissible_step.
Qed.

(** ** Queries *)

(** The two handlers that read twice, and the ones that read once. *)
Definition block_by_number_accesses (params : Params) : Proc RpcState RpcError Value :=
  '(tag, rest) ← Done (next_string params RpcInvalidParams);
  let full_transactions := optional_bool rest in
  count ← access (st_gets block_count);
  resolved ← Done (resolve_block_height tag count);
  match resolved with
  | None => mret VNull
  | Some h =>
      block ← access (st_gets (λ n, block_at_height n h));
      mret (from_option (λ b, block_json b full_transactions) VNull block)
  end.
Definition transaction_by_hash_accesses (params : Params) : Proc RpcState RpcError Value :=
  text ← Done (one_string params RpcInvalidTxHash);
  h ← Done (parse_tx_hash text);
  receipt ← access (st_gets (λ n, rpc_receipt n h));
  match receipt with
  | None => mret VNull
  | Some receipt =>
      block ← access (st_gets (λ n, block_at_height n (rcpt_block_height receipt)));
      mret (default VNull
        (b ← block;
         '(index, tx) ← list_find (λ tx, tx_hash tx = h) (blk_transactions b);
         Some (transaction_json tx b (Z.of_nat index))))
  end.
Definition query_module : list (string * (Params → Proc RpcState RpcError Value)) :=
  [("eth_chainId", λ _, access (query eth_chainId));
   ("net_version", λ _, access (query net_version));
   ("eth_blockNumber", λ _, access (query eth_blockNumber));
   ("eth_gasPrice", λ _, access (query eth_gasPrice));
   ("eth_getBalance", λ params, access (query (eth_getBalance params)));
   ("eth_getTransactionCount", λ params, access (query (eth_getTransactionCount params)));
   ("eth_getTransactionReceipt", λ params, access (query (eth_getTransactionReceipt params)));
   ("eth_getBlockByNumber", block_by_number_accesses);
   ("eth_getTransactionByHash", transaction_by_hash_accesses)].

Lemma resolve_bounds tag count h :
  0 ≤ count → resolve_block_height tag count = Ok (Some h) → 1 ≤ h ≤ count.
Proof.
  intros Hc. unfold resolve_block_height. destruct (Z.eqb_spec count 0) as [|Hne]; [done|].
  case_bool_decide; [intros [= <-]; lia|]. case_bool_decide; [intros [= <-]; lia|].
  rewrite ok_or_bind_Ok. setoid_rewrite ok_or_bind_Ok. intros (ds & _ & x & _ & Heq).
  destruct (Z.leb_spec 1 x), (Z.leb_spec x count); simpl in Heq; simplify_eq. done.
Qed.
Lemma block_count_at n h : 1 ≤ h ≤ block_count n → ∃ b, block_at_height n h = Some b.
Proof.
  unfold block_count. intros Hh. replace h with (Z.of_nat (Z.to_nat (h - 1)) + 1) by lia.
  rewrite block_at_index. apply lookup_lt_is_Some. lia.
Qed.

Notation nstep := (sys_step commit_accesses admissible).
Lemma reachable_grows n0 y z :
  node_inv n0 → rtc nstep (sys_start n0) y → rtc nstep y z → grows (sys_state y) (sys_state z).
Proof.
  intros I Hy Hz. eapply (sys_along _ _ commit_locks node_inv grows n0 I commit_ok_inv) in Hz; [|intros s c; apply commit_chain|done].
  induction Hz; [done|by etrans].
Qed.
Lemma reads_block n0 y params r z :
  node_inv n0 → rtc nstep (sys_start n0) y →
  reads commit_accesses admissible y (block_by_number_accesses params) r z →
  ∃ x, rtc nstep y x ∧ rtc nstep x z ∧ eth_getBlockByNumber params (sys_state x) = r.
Proof.
  intros I0 Hy. unfold block_by_number_accesses, eth_getBlockByNumber. cbv [mbind proc_bind result_bind].
  destruct (next_string _ _) as [[tag rest]|e]; simpl; intros Hr.
  2: { inversion Hr; subst. by exists z. }
  inversion Hr as [|? x ? ? ? ? Hyx _ Hn]; subst. simpl in Hn. exists x. split; [done|].
  destruct (resolve_block_height _ _) as [[h|]|e] eqn:Hres; simpl in *; [|by inversion Hn; subst..].
  inversion Hn as [|? x' ? ? ? ? Hxx _ Hn']; subst. inversion Hn'; subst. split; [done|].
  assert (rtc nstep (sys_start n0) x) as Hx by (by etrans).
  apply resolve_bounds in Hres; [|unfold block_count; lia]. destruct (block_count_at _ _ Hres) as [b Hb].
  by rewrite Hb, (block_at_prefix _ _ _ _ (gr_blocks _ _ (reachable_grows _ _ _ I0 Hx Hxx)) Hb).
Qed.
Lemma reads_transaction n0 y params r z :
  node_inv n0 → rtc nstep (sys_start n0) y →
  reads commit_accesses admissible y (transaction_by_hash_accesses params) r z →
  ∃ x, rtc nstep y x ∧ rtc nstep x z ∧ eth_getTransactionByHash params (sys_state x) = r.
Proof.
  intros I0 Hy. unfold transaction_by_hash_accesses, eth_getTransactionByHash.
  cbv [mbind proc_bind result_bind]. destruct (one_string _ _) as [text|e]; simpl; intros Hr.
  2: { inversion Hr; subst. by exists z. }
  destruct (parse_tx_hash text) as [h|e]; simpl in *.
  2: { inversion Hr; subst. by exists z. }
  inversion Hr as [|? x ? ? ? ? Hyx _ Hn]; subst. simpl in Hn. exists x. split; [done|].
  destruct (rpc_receipt (sys_state x) h) as [rc|] eqn:Hrc; simpl in *; [|by inversion Hn; subst].
  inversion Hn as [|? x' ? ? ? ? Hxx _ Hn']; subst. inversion Hn'; subst. split; [done|].
  assert (rtc nstep (sys_start n0) x) as Hx by (by etrans).
  destruct (reachable_between n0 x I0 Hx) as (n & n' & _ & I & I' & Hg & _ & _ & Hbt & _).
  destruct (ch_receipt _ (between_coherent _ _ _ I I' Hg Hbt) h rc Hrc) as (b & tx & Hb & _).
  by rewrite Hb, (block_at_prefix _ _ _ _ (gr_blocks _ _ (reachable_grows _ _ _ I0 Hx Hxx)) Hb).
Qed.

(** The commits [calls], one after the other from [n0], with their answers. *)
Definition replay (n0 : RpcState) (calls : list (nat * Commit))
  : RpcState * list (nat * Commit * result RpcError Answer) :=
  foldl (λ '(n, l) '(i, c), let '(n', r) := commit_call c n in (n', l ++ [(i, c, r)])) (n0, []) calls.
Lemma serial_replay (ok : RpcState → Commit → Prop) n0 l n :
  serial commit_accesses ok n0 l n → replay n0 (map fst l) = (n, l).
Proof.
  intros Hs. induction Hs as [|l n i c n' r _ IH _ Hrun]; [done|]. unfold replay in *.
  rewrite map_app, foldl_app, IH. simpl. rewrite commit_accesses_run in Hrun. by rewrite Hrun.
Qed.
End calls.

Section registered.
Context `{!Blake3, !Hex, !Ed25519, !Serialize Transaction, !Serialize BlockHeader,
  !Serialize (list Hash), !Serialize (Hash * Z * Z * Z), !Serialize StateSnapshot,
  !Serialize LedgerSnapshot, !Deserialize LedgerSnapshot,
  !Serialize LedgerEnvelope, !Deserialize LedgerEnvelope}.
(** A query of one access answers as the handler registered at its place. *)
Lemma registered_read k name (f : Params → RpcState → result RpcError Value) params ok io now y r z :
  reads commit_accesses ok y (access (query (f params))) r z →
  build_module io now !! k = Some (name, λ params, query (f params)) →
  ∃ x handler, rtc (sys_step commit_accesses ok) y x ∧ rtc (sys_step commit_accesses ok) x z ∧
    (name, handler) ∈ build_module io now ∧ handler params (sys_state x) = (sys_state x, r).
Proof.
  intros [Hyz Hz]%reads_one Hk. exists z, (λ params, query (f params)).
  split_and!; [done|done|by eapply list_elem_of_lookup_2|done].
Qed.
End registered.

(** ** Properties *)

(** C7. Commits are serializable and all return. The threads that call the node's
    mutating methods run their instructions in any order, taking the commit lock
    being one of them: the node and every answer returned are those of running the
    calls one after the other in the order they return, and the call that holds the
    lock, if any, is completing its turn of that run. Once no new call comes in, every
    schedule of the pending ones makes at most sixteen steps for each, and where no
    thread can go on, every one of them has returned and the lock is free: no
    schedule deadlocks or runs forever. *)
Theorem commits_serializable `{!Blake3, !Hex, !Serialize Transaction, !Serialize BlockHeader,
    !Serialize (list Hash), !Serialize (Hash * Z * Z * Z), !Serialize StateSnapshot,
    !Serialize LedgerSnapshot, !Deserialize LedgerSnapshot, !Serialize LedgerEnvelope,
    !Deserialize LedgerEnvelope} (n0 : RpcState) (y : System RpcState RpcError Commit Answer) :
  rtc (sys_step commit_accesses (λ _ _, True)) (sys_start n0) y →
  (replay n0 (map fst (sys_returned y))).2 = sys_returned y ∧
  match sys_holder y with
  | None => sys_state y = (replay n0 (map fst (sys_returned y))).1
  | Some (_, c, p) =>
      run p (sys_state y) = commit_call c (replay n0 (map fst (sys_returned y))).1
  end ∧
  (∀ k z, nsteps (thread_step (λ _ _, True)) k y z → (k ≤ 16 * size (sys_threads y))%nat) ∧
  (∀ z, rtc (thread_step (λ _ _, True)) y z → (∀ x, ¬ thread_step (λ _ _, True) z x) →
     sys_threads z = ∅ ∧ sys_lock z = None ∧
     ∀ i c p, sys_threads y !! i = Some (c, p) → ∃ r, (i, c, r) ∈ sys_returned z).
Proof.
  intros Hy. destruct (sys_serial _ _ commit_locks _ _ Hy) as (n & Hs & Hp).
  rewrite (serial_replay _ _ _ _ Hs). simpl. split; [done|]. split.
  - unfold in_progress in Hp. destruct (sys_holder y) as [[[i c] p]|]; [|done].
    destruct Hp as (_ & Hrun & _). by rewrite <-commit_accesses_run.
  - by apply (all_return _ _ commit_locks 15 n0); [apply commit_within| |].
Qed.

(** C8. Visible means durable and coherent. At every instant of every interleaving,
    what a query can read hangs together although the fields are published one by
    one: the height is that of a visible block, a visible receipt belongs to a visible
    block, a visible block's transaction has advanced its sender's visible nonce; and
    on a node with a data directory every visible block and receipt, and the state
    unless it still is the one before the commit in progress, is in the ledger that
    a restart at this instant would load. Any file operation may fail, the last
    directory sync included; accounts are seeded only before the first block, and
    what is committed is representable and collides with no hash. *)
Theorem reads_coherent `{!Blake3, !Hex, !Serialize Transaction, !Serialize BlockHeader,
    !Serialize (list Hash), !Serialize (Hash * Z * Z * Z), !Serialize StateSnapshot,
    !Serialize LedgerSnapshot, !Deserialize LedgerSnapshot, !Serialize LedgerEnvelope,
    !Deserialize LedgerEnvelope, !BincodeLaws LedgerSnapshot ledger_wf,
    !BincodeLaws LedgerEnvelope envelope_wf}
    (n0 : RpcState) (y : System RpcState RpcError Commit Answer) :
  node_inv n0 → rtc (sys_step commit_accesses admissible) (sys_start n0) y →
  coherent (sys_state y) ∧ on_disk (replay n0 (map fst (sys_returned y))).1 (sys_state y).
Proof.
  intros I0 Hy. destruct (reachable_between n0 y I0 Hy) as (n & n' & Hs & I & I' & Hg & _ & Hset & Hb & _).
  rewrite (serial_replay _ _ _ _ Hs). split; [by apply (between_coherent n n')|by apply (between_on_disk n n')].
Qed.

(** C19. Queries are linearizable. A query that runs while commits are in progress
    answers what its sequential handler answers on the node of one instant between
    its call and its return, also when it reads twice. *)
Theorem queries_linearizable `{!Blake3, !Hex, !Ed25519, !Serialize Transaction,
    !Serialize BlockHeader, !Serialize (list Hash), !Serialize (Hash * Z * Z * Z),
    !Serialize StateSnapshot, !Serialize LedgerSnapshot, !Deserialize LedgerSnapshot,
    !Serialize LedgerEnvelope, !Deserialize LedgerEnvelope, !BincodeLaws LedgerSnapshot ledger_wf,
    !BincodeLaws LedgerEnvelope envelope_wf}
    (n0 : RpcState) (y z : System RpcState RpcError Commit Answer) (name : string)
    (q : Params → Proc RpcState RpcError Value) (params : Params) (r : result RpcError Value)
    (io : FsOp → option string) (now : Z) :
  node_inv n0 → rtc (sys_step commit_accesses admissible) (sys_start n0) y →
  (name, q) ∈ query_module → reads commit_accesses admissible y (q params) r z →
  ∃ x handler, rtc (sys_step commit_accesses admissible) y x ∧
    rtc (sys_step commit_accesses admissible) x z ∧
    (name, handler) ∈ build_module io now ∧ handler params (sys_state x) = (sys_state x, r).
Proof.
  intros I0 Hy Hq Hr. unfold query_module in Hq. rewrite !elem_of_cons, elem_of_nil in Hq.
  destruct_or! Hq; injection Hq as -> ->.
  - by apply (registered_read 0 _ (λ _, eth_chainId)).
  - by apply (registered_read 1 _ (λ _, net_version)).
  - by apply (registered_read 2 _ (λ _, eth_blockNumber)).
  - by apply (registered_read 3 _ (λ _, eth_gasPrice)).
  - by apply (registered_read 4 _ eth_getBalance).
  - by apply (registered_read 5 _ eth_getTransactionCount).
  - by apply (registered_read 7 _ eth_getTransactionReceipt).
  - apply (reads_block n0) in Hr as (x & Hyx & Hxz & Hx); [|done..].
    eexists x, _. split_and!; [done|done|by apply (list_elem_of_lookup_2 _ 8)|].
    unfold query. by rewrite Hx.
  - apply (reads_transaction n0) in Hr as (x & Hyx & Hxz & Hx); [|done..].
    eexists x, _. split_and!; [done|done|by apply (list_elem_of_lookup_2 _ 9)|].
    unfold query. by rewrite Hx.
Qed.

(** *** A concrete interleaving: a submission stopped between two of its writes *)
Import Ref.

Definition transfer_call : Commit := CommitSubmit no_error 7 sample_transfer.
(** The system after a submission to [node1] has locked and made its first [k] accesses. *)
Definition submitting (k : nat) : System RpcState RpcError Commit Answer :=
  {| sys_state := (advance (S k) (commit_accesses transfer_call) node1).1;
     sys_lock := Some 0%nat;
     sys_threads := {[0%nat := (transfer_call, (advance (S k) (commit_accesses transfer_call) node1).2)]};
     sys_returned := [] |}.
Lemma transfer_admissible : admissible node1 transfer_call.
Proof. split_and!; [apply sample_transfer_wf|apply node1_no_collision|apply node1_good_commit]. Qed.
Lemma submitting_reachable (ok : RpcState → Commit → Prop) k :
  ok node1 transfer_call → rtc (sys_step commit_accesses ok) (sys_start node1) (submitting k).
Proof. intros Hok. apply alone_locks; [apply commit_locks|done]. Qed.
(** After ten accesses the state and the pool are published and nothing else. *)
Lemma submitting_10 :
  rpc_nonce (submitting 10).(sys_state) Address_ZERO = 1 ∧
  mempool_contains (rs_mempool (submitting 10).(sys_state)) (tx_hash sample_transfer) = false ∧
  rpc_receipt (submitting 10).(sys_state) (tx_hash sample_transfer) = None ∧
  block_count (submitting 10).(sys_state) = 0.
Proof. vm_compute. split_and!; reflexivity. Qed.

(** The views are not swapped at once: a reader can find a transfer executed that
    is neither pending nor in any block. *)
Lemma publication_torn :
  ∃ y, rtc (sys_step commit_accesses admissible) (sys_start node1) y ∧
    rpc_nonce (sys_state y) Address_ZERO = 1 ∧
    mempool_contains (rs_mempool (sys_state y)) (tx_hash sample_transfer) = false ∧
    rpc_receipt (sys_state y) (tx_hash sample_transfer) = None.
Proof.
  exists (submitting 10). split; [apply submitting_reachable, transfer_admissible|].
  destruct submitting_10 as (Hn & Hm & Hr & _). split_and!; assumption.
Qed.

Lemma commits_serializable_witness :
  match sys_holder (submitting 10) with
  | None => False
  | Some (_, c, p) => run p (sys_state (submitting 10))
      = commit_call c (replay node1 (map fst (sys_returned (submitting 10)))).1
  end ∧
  ∀ k z, nsteps (thread_step (λ _ _, True)) k (submitting 10) z → (k ≤ 16)%nat.
Proof.
  pose proof (commits_serializable node1 (submitting 10)
    (submitting_reachable (λ _ _, True) 10 I)) as (_ & Hrun & Hend & _). split; [exact Hrun|].
  intros k z Hk. specialize (Hend k z Hk). cbn [sys_threads submitting] in Hend.
  rewrite map_size_singleton in Hend. exact Hend.
Defined.
Lemma reads_coherent_witness :
  coherent (sys_state (submitting 10)) ∧
  on_disk (replay node1 (map fst (sys_returned (submitting 10)))).1 (sys_state (submitting 10)).
Proof.
  exact (reads_coherent node1 (submitting 10) node1_inv
    (submitting_reachable admissible 10 transfer_admissible)).
Defined.
(** A query that counts the blocks once they are published and reads one after the
    submission has made its last access. *)
Definition published_block : option Block := block_at_height (sys_state (submitting 13)) 1.
Lemma submitting_11 :
  block_count (sys_state (submitting 11)) = 1 ∧ rs_block_height (sys_state (submitting 11)) = 0.
Proof. vm_compute. split; reflexivity. Qed.
Lemma submitting_later (ok : RpcState → Commit → Prop) k j :
  rtc (sys_step commit_accesses ok) (submitting k) (submitting (k + j)).
Proof.
  pose proof (commit_locks transfer_call) as Hl. unfold submitting.
  change (S (k + j)) with (S k + j)%nat. rewrite (advance_add (S k) j). apply alone_advances.
  destruct (commit_accesses transfer_call); [done..|]. exact (advance_lock_free k _ _ Hl).
Qed.
Lemma reads_latest (ok : RpcState → Commit → Prop) x x' :
  block_count (sys_state x) = 1 → rtc (sys_step commit_accesses ok) x x' →
  reads commit_accesses ok x (block_by_number_accesses (Some [VString "latest"]))
    (Ok (from_option (λ b, block_json b false) VNull (block_at_height (sys_state x') 1))) x'.
Proof.
  intros Hc Hx. eapply reads_access; [apply rtc_refl|done|]. cbn [snd st_gets]. rewrite Hc.
  eapply reads_access; [exact Hx|done|]. apply reads_done.
Qed.
Lemma queries_linearizable_witness :
  ∃ x handler, ("eth_getBlockByNumber", handler) ∈ build_module no_error 7 ∧
    rtc (sys_step commit_accesses admissible) (submitting 11) x ∧
    handler (Some [VString "latest"]) (sys_state x)
    = (sys_state x, Ok (from_option (λ b, block_json b false) VNull published_block)).
Proof.
  destruct (queries_linearizable node1 (submitting 11) (submitting 13) "eth_getBlockByNumber"
    block_by_number_accesses (Some [VString "latest"])
    (Ok (from_option (λ b, block_json b false) VNull published_block)) no_error 7 node1_inv
    (submitting_reachable admissible 11 transfer_admissible)) as (x & handler & Hyx & _ & Hin & Hx).
  - apply (list_elem_of_lookup_2 _ 7). reflexivity.
  - exact (reads_latest admissible _ _ (proj1 submitting_11) (submitting_later admissible 11 2)).
  - exists x, handler. split; [exact Hin|]. split; [exact Hyx|exact Hx].
Defined.
