(* ===== verification/Crypto.v ===== *)
(** * [subhost-crypto]: cryptographic primitives

    [crates/subhost-crypto/src/lib.rs] over the libraries it calls: the pairing
    curve of [arkworks], SHA3-384, ChaCha20-Poly1305 and X25519 are interfaces,
    and random bytes are arguments. The laws state the algebra the code relies
    on for correct signatures to verify; nothing is assumed about forgery. *)

From Stdlib Require Import String.
From S2P Require Import Prelude Text Deps Bincode.

(** [ark_bls12_381]: two groups with generators, scalar multiplication, a
    pairing into a multiplicative target, and point encodings. A scalar is an
    integer, taken modulo the group order. *)
Class Curve := {
  G1 : Type;
  G2 : Type;
  GT : Type;
  scalar_order : Z;
  g1_generator : G1;
  g1_zero : G1;
  g1_add : G1 → G1 → G1;
  g1_mul : G1 → Z → G1;
  g1_is_zero : G1 → bool;
  g2_generator : G2;
  g2_zero : G2;
  g2_add : G2 → G2 → G2;
  g2_mul : G2 → Z → G2;
  g2_is_zero : G2 → bool;
  gt_one : GT;
  gt_mul : GT → GT → GT;
  gt_eqb : GT → GT → bool;
  pairing : G1 → G2 → GT;
  g1_compressed : G1 → bytes;
  g2_decompress : bytes → option G2
}.
Class CurveLaws `{!Curve} : Prop := {
  gt_eqb_refl x : gt_eqb x x = true;
  (** Prime order: a non-zero multiple of a non-zero point is not zero. *)
  g1_generator_order s : s `mod` scalar_order ≠ 0 → g1_is_zero (g1_mul g1_generator s) = false;
  g2_order q s : g2_is_zero q = false → s `mod` scalar_order ≠ 0 → g2_is_zero (g2_mul q s) = false;
  (** Bilinearity. *)
  pairing_mul p q s : pairing (g1_mul p s) q = pairing p (g2_mul q s);
  pairing_add_l p1 p2 q : pairing (g1_add p1 p2) q = gt_mul (pairing p1 q) (pairing p2 q);
  pairing_zero_l q : pairing g1_zero q = gt_one;
  pairing_add_r p q1 q2 : pairing p (g2_add q1 q2) = gt_mul (pairing p q1) (pairing p q2);
  pairing_zero_r p : pairing p g2_zero = gt_one
}.
(** [sha3::Sha3_384]. *)
Class Sha3 := sha3_384 : bytes → bytes.
(** [chacha20poly1305]: [None] when the library reports an error. *)
Class ChaCha := {
  chacha_encrypt : array 32 → bytes → bytes → option bytes;
  chacha_decrypt : array 32 → bytes → bytes → option bytes
}.
Class ChaChaLaws `{!ChaCha} : Prop := {
  chacha_roundtrip key nonce m c : chacha_encrypt key nonce m = Some c → chacha_decrypt key nonce c = Some m;
  (** The ciphertext carries a 16-byte tag. *)
  chacha_tag key nonce m c : chacha_encrypt key nonce m = Some c → length c = (length m + 16)%nat
}.
(** [x25519_dalek]. *)
Class X25519 := {
  x_public : array 32 → array 32;
  x_diffie_hellman : array 32 → array 32 → array 32
}.
Class X25519Laws `{!X25519} : Prop := {
  x_agree a b : x_diffie_hellman a (x_public b) = x_diffie_hellman b (x_public a);
  x_zero a p : Forall (λ b, b = byte_of 0) (array_bytes p) →
    Forall (λ b, b = byte_of 0) (array_bytes (x_diffie_hellman a p))
}.

Inductive CryptoError :=
| InvalidCiphertext
| EncryptionFailed
| DecryptionFailed
| InvalidPublicKey.

Definition BLS_DOMAIN : bytes := str_bytes "subhost-bls-01".
Definition AEAD_NONCE_BYTES : nat := 12.

(** ** BLS signatures *)
Section bls.
Context `{!Curve, !Sha3}.

Definition PublicKey : Type := G1.
Definition Signature : Type := G2.
(** [Scalar::from_le_bytes_mod_order] *)
Definition from_le_bytes_mod_order (b : bytes) : Z := le_value b `mod` scalar_order.

Definition hash_to_g2 (message : bytes) : G2 :=
  g2_mul g2_generator (from_le_bytes_mod_order
    (sha3_384 (BLS_DOMAIN ++ be_bytes 8 (Z.of_nat (length message)) ++ message))).
(** The resampling loop over the random strings it draws; [None] when the
    strings run out before a non-zero scalar. *)
Fixpoint keygen (draws : list (array 32)) : option (Z * PublicKey) :=
  match draws with
  | [] => None
  | b :: draws =>
      let scalar := from_le_bytes_mod_order (array_bytes b) in
      if scalar =? 0 then keygen draws else Some (scalar, g1_mul g1_generator scalar)
  end.
Definition bls_sign (secret : Z) (message : bytes) : Signature := g2_mul (hash_to_g2 message) secret.
Definition bls_verify (public : PublicKey) (message : bytes) (signature : Signature) : bool :=
  if g1_is_zero public || g2_is_zero signature then false
  else gt_eqb (pairing public (hash_to_g2 message)) (pairing g1_generator signature).
Definition aggregate_public_keys (keys : list PublicKey) : PublicKey := foldl g1_add g1_zero keys.
Definition aggregate_signatures (signatures : list Signature) : Signature :=
  foldl g2_add g2_zero signatures.
Definition verify_aggregate (keys : list PublicKey) (messages : list bytes) (aggregate : Signature)
  : bool :=
  if bool_decide (keys = []) || negb (bool_decide (length keys = length messages))
     || g2_is_zero aggregate || existsb g1_is_zero keys then false
  else
    let product := foldl (λ acc '(key, message), gt_mul acc (pairing key (hash_to_g2 message)))
                     gt_one (zip keys messages) in
    gt_eqb product (pairing g1_generator aggregate).
Definition verify_aggregate_shared_message (keys : list PublicKey) (message : bytes)
  (aggregate : Signature) : bool :=
  if bool_decide (keys = []) || g2_is_zero aggregate || existsb g1_is_zero keys then false
  else bls_verify (aggregate_public_keys keys) message aggregate.
Definition encode_public_key (public : PublicKey) : bytes := g1_compressed public.
Definition proof_of_possession (secret : Z) : Signature :=
  let public := g1_mul g1_generator secret in
  bls_sign secret (encode_public_key public).
Definition verify_possession (public : PublicKey) (proof : Signature) : bool :=
  if g1_is_zero public then false else bls_verify public (encode_public_key public) proof.
End bls.

(** ** Symmetric encryption and key exchange *)

Definition crypto_encrypt `{!ChaCha} (key : array 32) (nonce : array AEAD_NONCE_BYTES)
  (plaintext : bytes) : result CryptoError bytes :=
  ciphertext ← ok_or (chacha_encrypt key (array_bytes nonce) plaintext) EncryptionFailed;
  Ok (array_bytes nonce ++ ciphertext).
Definition crypto_decrypt `{!ChaCha} (key : array 32) (ciphertext : bytes)
  : result CryptoError bytes :=
  _ ← fail_if (bool_decide (length ciphertext ≤ AEAD_NONCE_BYTES)%nat) InvalidCiphertext;
  ok_or (chacha_decrypt key (take AEAD_NONCE_BYTES ciphertext) (drop AEAD_NONCE_BYTES ciphertext))
    DecryptionFailed.
Definition all_zero (b : bytes) : bool := forallb (λ c, bool_decide (c = byte_of 0)) b.
(** [key_exchange::generate_keypair] from the drawn bytes. *)
Definition exchange_generate_keypair `{!X25519} (drawn : array 32) : array 32 * array 32 :=
  (drawn, x_public drawn).
Definition exchange_public_key `{!X25519} (secret : array 32) : array 32 := x_public secret.
Definition shared_secret `{!X25519} (secret peer_public : array 32)
  : result CryptoError (array 32) :=
  _ ← fail_if (all_zero (array_bytes peer_public)) InvalidPublicKey;
  let shared := x_diffie_hellman secret peer_public in
  _ ← fail_if (all_zero (array_bytes shared)) InvalidPublicKey;
  Ok shared.

(** ** Transaction signatures: the [ed25519] module *)
Definition ed25519_generate_keypair `{!Ed25519} (drawn : array 32) : array 32 * array 32 :=
  (drawn, ed_public_key drawn).
Definition ed25519_sign `{!Ed25519} (signing_key : array 32) (message : bytes) : array 64 :=
  ed_sign signing_key message.
Definition ed25519_verify `{!Ed25519} (verifying_key : array 32) (message : bytes)
  (signature : array 64) : bool :=
  ed_verify verifying_key message signature.

(** ** Completeness *)
Section bls_facts.
Context `{!Curve, !CurveLaws, !Sha3}.

Definition public_of (secret : Z) : PublicKey := g1_mul g1_generator secret.
Lemma pairing_sign secret m :
  pairing (public_of secret) (hash_to_g2 m) = pairing g1_generator (bls_sign secret m).
Proof. apply pairing_mul. Qed.
Lemma verify_sign secret m :
  secret `mod` scalar_order ≠ 0 → g2_is_zero (hash_to_g2 m) = false →
  bls_verify (public_of secret) m (bls_sign secret m) = true.
Proof.
  intros Hs Hm. unfold bls_verify, public_of. rewrite g1_generator_order by done.
  unfold bls_sign. rewrite g2_order by done. simpl.
  rewrite pairing_mul. apply gt_eqb_refl.
Qed.
(** The aggregate's pairing is the product of the signers' pairings. *)
Lemma pairing_aggregate_from p q sigs :
  pairing p (foldl g2_add q sigs) = foldl gt_mul (pairing p q) (map (pairing p) sigs).
Proof. revert q. induction sigs as [|s sigs IH]; intros q; simpl; [done|]. by rewrite IH, pairing_add_r. Qed.
Lemma pairing_aggregate p sigs :
  pairing p (aggregate_signatures sigs) = foldl gt_mul gt_one (map (pairing p) sigs).
Proof. unfold aggregate_signatures. by rewrite pairing_aggregate_from, pairing_zero_r. Qed.
Lemma pairing_keys_from q p keys :
  pairing (foldl g1_add p keys) q = foldl gt_mul (pairing p q) (map (λ k, pairing k q) keys).
Proof. revert p. induction keys as [|k keys IH]; intros p; simpl; [done|]. by rewrite IH, pairing_add_l. Qed.
Lemma pairing_keys q keys :
  pairing (aggregate_public_keys keys) q = foldl gt_mul gt_one (map (λ k, pairing k q) keys).
Proof. unfold aggregate_public_keys. by rewrite pairing_keys_from, pairing_zero_l. Qed.
Lemma no_zero_keys secrets :
  Forall (λ s, s `mod` scalar_order ≠ 0) secrets →
  existsb g1_is_zero (map public_of secrets) = false.
Proof. induction 1 as [|s l Hs _ IH]; [done|]. simpl. unfold public_of at 1. by rewrite g1_generator_order. Qed.
Lemma product_pairs secrets messages acc :
  length secrets = length messages →
  foldl (λ acc '(key, message), gt_mul acc (pairing key (hash_to_g2 message))) acc
    (zip (map public_of secrets) messages)
  = foldl gt_mul acc (map (pairing g1_generator) (zip_with bls_sign secrets messages)).
Proof.
  revert messages acc. induction secrets as [|s secrets IH]; intros [|m messages] acc Hlen; try done.
  simpl. rewrite pairing_sign. apply IH. by injection Hlen.
Qed.
Lemma aggregate_verifies secrets messages :
  secrets ≠ [] → length secrets = length messages →
  Forall (λ s, s `mod` scalar_order ≠ 0) secrets →
  let aggregate := aggregate_signatures (zip_with bls_sign secrets messages) in
  g2_is_zero aggregate = false →
  verify_aggregate (map public_of secrets) messages aggregate = true.
Proof.
  intros Hne Hlen Hs aggregate Hagg. unfold verify_aggregate.
  rewrite bool_decide_false by (by destruct secrets).
  rewrite bool_decide_true by (by rewrite length_map). rewrite Hagg, no_zero_keys by done. simpl.
  rewrite product_pairs by done. unfold aggregate. rewrite pairing_aggregate. apply gt_eqb_refl.
Qed.
Lemma aggregate_shared_verifies secrets m :
  secrets ≠ [] → Forall (λ s, s `mod` scalar_order ≠ 0) secrets →
  let aggregate := aggregate_signatures (map (λ s, bls_sign s m) secrets) in
  g2_is_zero aggregate = false → g1_is_zero (aggregate_public_keys (map public_of secrets)) = false →
  verify_aggregate_shared_message (map public_of secrets) m aggregate = true.
Proof.
  intros Hne Hs aggregate Hagg Hkey. unfold verify_aggregate_shared_message, bls_verify.
  rewrite bool_decide_false by (by destruct secrets). rewrite Hagg, no_zero_keys, Hkey by done. simpl.
  unfold aggregate. rewrite pairing_aggregate, pairing_keys, !map_map.
  replace (map (λ x, pairing g1_generator (bls_sign x m)) secrets)
    with (map (λ x, pairing (public_of x) (hash_to_g2 m)) secrets); [apply gt_eqb_refl|].
  apply map_ext. intros s. apply pairing_sign.
Qed.
End bls_facts.

(** Honest BLS signatures verify: every key pair that [keygen] returns
    verifies its own signatures and its proof of possession, the aggregate of one
    signature per message verifies against the list of keys, and the aggregate
    over a shared message verifies against the aggregate key, whenever no point
    involved is the identity. *)
Theorem bls_complete `{!Curve, !CurveLaws, !Sha3} (draws : list (array 32)) (secret : Z)
    (public : PublicKey) (secrets : list Z) (messages : list bytes) (m : bytes) :
  (∀ m', g2_is_zero (hash_to_g2 m') = false) → keygen draws = Some (secret, public) →
  secrets ≠ [] → length secrets = length messages →
  Forall (λ s, s `mod` scalar_order ≠ 0) secrets →
  bls_verify public m (bls_sign secret m) = true ∧
  verify_possession public (proof_of_possession secret) = true ∧
  (g2_is_zero (aggregate_signatures (zip_with bls_sign secrets messages)) = false →
   verify_aggregate (map public_of secrets) messages
     (aggregate_signatures (zip_with bls_sign secrets messages)) = true) ∧
  (g2_is_zero (aggregate_signatures (map (λ s, bls_sign s m) secrets)) = false →
   g1_is_zero (aggregate_public_keys (map public_of secrets)) = false →
   verify_aggregate_shared_message (map public_of secrets) m
     (aggregate_signatures (map (λ s, bls_sign s m) secrets)) = true).
Proof.
  intros Hhash Hkey Hne Hlen Hs.
  assert (secret `mod` scalar_order ≠ 0 ∧ public = public_of secret) as [Hsec ->].
  { induction draws as [|d draws IH]; [done|]. simpl in Hkey.
    destruct (Z.eqb_spec (from_le_bytes_mod_order (array_bytes d)) 0) as [|Hnz]; [by apply IH|].
    injection Hkey as <- <-. split; [|done]. unfold from_le_bytes_mod_order in *.
    by rewrite Zmod_mod. }
  split_and!.
  - by apply verify_sign.
  - unfold verify_possession, proof_of_possession. fold (public_of secret).
    unfold public_of at 1. rewrite g1_generator_order by done. by apply verify_sign.
  - by apply aggregate_verifies.
  - by apply aggregate_shared_verifies.
Qed.

(** The symmetric channel round-trips: two parties derive the same X25519
    secret, or both refuse, and what one encrypts under any nonce the other
    decrypts; a ciphertext without room for a nonce is refused before
    decryption. *)
Theorem channel_roundtrip `{!ChaCha, !ChaChaLaws, !X25519, !X25519Laws} (a b : array 32)
    (nonce : array AEAD_NONCE_BYTES) (m c short : bytes) :
  shared_secret a (exchange_public_key b) = shared_secret b (exchange_public_key a) ∧
  (∀ key, crypto_encrypt key nonce m = Ok c → crypto_decrypt key c = Ok m) ∧
  (∀ key, (length short ≤ 12)%nat → crypto_decrypt key short = Err InvalidCiphertext).
Proof.
  assert (∀ x, all_zero x = true ↔ Forall (λ c, c = byte_of 0) x) as Hz.
  { intros x. unfold all_zero. rewrite forallb_forall, Forall_forall.
    setoid_rewrite bool_decide_eq_true. setoid_rewrite <-list_elem_of_In. done. }
  split_and!.
  - unfold shared_secret, exchange_public_key. rewrite (x_agree a b).
    assert (∀ x y, all_zero (array_bytes (x_public y)) = true →
      all_zero (array_bytes (x_diffie_hellman x (x_public y))) = true) as Hzero.
    { intros x y. rewrite !Hz. apply x_zero. }
    pose proof (Hzero b a) as Hba. pose proof (Hzero a b) as Hab. rewrite (x_agree a b) in Hab.
    destruct (all_zero (array_bytes (x_public b))), (all_zero (array_bytes (x_public a))); simpl in *;
      try done; [by rewrite Hab|by rewrite Hba].
  - intros key Henc. apply ok_or_bind_Ok in Henc as (ct & Hct & [= <-]). unfold crypto_decrypt.
    pose proof (array_length nonce) as Hn. pose proof (chacha_tag _ _ _ _ Hct) as Hl.
    rewrite bool_decide_false by (rewrite length_app; unfold AEAD_NONCE_BYTES in *; lia). simpl.
    rewrite take_app_length', drop_app_length' by done.
    by rewrite (chacha_roundtrip _ _ _ _ Hct).
  - intros key Hs. unfold crypto_decrypt. by rewrite bool_decide_true.
Qed.

(** ** Reference instances

    The integers modulo a prime with multiplication as the pairing, a digest
    never divisible by it, and an invertible masking cipher. *)
Module RefCurve.
Definition p : Z := 101.
#[export] Instance ref_curve : Curve := {|
  G1 := Z; G2 := Z; GT := Z; scalar_order := p;
  g1_generator := 1; g1_zero := 0; g1_add x y := x + y; g1_mul x s := x * s;
  g1_is_zero x := x `mod` p =? 0;
  g2_generator := 1; g2_zero := 0; g2_add x y := x + y; g2_mul x s := x * s;
  g2_is_zero x := x `mod` p =? 0;
  gt_one := 0; gt_mul x y := x + y; gt_eqb x y := x `mod` p =? y `mod` p;
  pairing x y := x * y;
  g1_compressed x := le_bytes 48 x;
  g2_decompress l := Some (le_value l)
|}.
#[export] Instance ref_sha3 : Sha3 := λ l, le_bytes 48 (ref_digest l `mod` 100 + 1).

Lemma no_zero_divisors x y : x `mod` p ≠ 0 → y `mod` p ≠ 0 → (x * y) `mod` p ≠ 0.
Proof.
  assert (forallb (λ a, forallb (λ b, negb ((a * b) `mod` p =? 0)) (seqZ 1 100)) (seqZ 1 100) = true)
    as Hall by (by vm_compute).
  intros Hx Hy. rewrite Zmult_mod. pose proof (Z.mod_pos_bound x p ltac:(done)).
  pose proof (Z.mod_pos_bound y p ltac:(done)). unfold p in *.
  assert (In (x `mod` 101) (seqZ 1 100)) as Hix by (apply list_elem_of_In, elem_of_seqZ; lia).
  assert (In (y `mod` 101) (seqZ 1 100)) as Hiy by (apply list_elem_of_In, elem_of_seqZ; lia).
  pose proof (proj1 (forallb_forall _ _) Hall _ Hix) as Hrow.
  pose proof (proj1 (forallb_forall _ _) Hrow _ Hiy) as Hxy. by apply negb_true_iff, Z.eqb_neq in Hxy.
Qed.
#[export] Instance ref_curve_laws : CurveLaws.
Proof.
  split; simpl; try (intros; lia).
  - intros s Hs. apply Z.eqb_neq. by rewrite Z.mul_1_l.
  - intros q s Hq%Z.eqb_neq Hs. by apply Z.eqb_neq, no_zero_divisors.
Qed.
Lemma ref_hash_nonzero m : g2_is_zero (hash_to_g2 m) = false.
Proof.
  unfold hash_to_g2, from_le_bytes_mod_order, sha3_384, ref_sha3.
  cbn [g2_is_zero g2_mul g2_generator scalar_order ref_curve]. generalize (ref_digest
    (BLS_DOMAIN ++ be_bytes 8 (Z.of_nat (length m)) ++ m)). intros d. apply Z.eqb_neq.
  rewrite Z.mul_1_l, Zmod_mod. pose proof (Z.mod_pos_bound d 100 ltac:(lia)).
  rewrite le_value_bytes by (change (256 ^ Z.of_nat 48) with (2 ^ 384); lia).
  unfold p. rewrite Z.mod_small by lia. lia.
Qed.

Definition mask (key : array 32) (nonce m : bytes) : bytes :=
  map (λ b, byte_of ((255 - byte_val b) `mod` 256)) m.
#[export] Instance ref_chacha : ChaCha := {|
  chacha_encrypt key nonce m := Some (mask key nonce m ++ le_bytes 16 (ref_digest (array_bytes key ++ nonce ++ m)));
  chacha_decrypt key nonce c :=
    let m := mask key nonce (take (length c - 16) c) in
    if bool_decide (drop (length c - 16) c = le_bytes 16 (ref_digest (array_bytes key ++ nonce ++ m)))
    then Some m else None
|}.
Lemma mask_mask key nonce m : mask key nonce (mask key nonce m) = m.
Proof.
  unfold mask. rewrite map_map. rewrite <-(map_id m) at 2. apply map_ext. intros b.
  pose proof (byte_val_range b). rewrite byte_val_of by (rewrite Z.mod_small by lia; lia).
  rewrite (Z.mod_small (255 - byte_val b)) by lia.
  replace (255 - (255 - byte_val b)) with (byte_val b) by lia.
  rewrite Z.mod_small by lia. apply byte_of_val.
Qed.
#[export] Instance ref_chacha_laws : ChaChaLaws.
Proof.
  split; cbn [chacha_encrypt chacha_decrypt ref_chacha]; intros key nonce m c Hc;
    apply (inj Some) in Hc; subst c.
  - rewrite !length_app, le_bytes_length, Nat.add_sub, take_app_length, drop_app_length, mask_mask.
    by rewrite bool_decide_true.
  - rewrite length_app, le_bytes_length. unfold mask. by rewrite length_map.
Qed.
(** Key agreement: the public key is the secret, and secrets combine bytewise. *)
Definition mul_bytes (a b : bytes) : bytes :=
  zip_with (λ x y, byte_of ((byte_val x * byte_val y) `mod` 256)) a b.
Lemma mul_bytes_length (a b : array 32) : length (mul_bytes (array_bytes a) (array_bytes b)) = 32%nat.
Proof. unfold mul_bytes. rewrite length_zip_with, !array_length. done. Qed.
Lemma mul_bytes_comm a b : mul_bytes a b = mul_bytes b a.
Proof.
  unfold mul_bytes. revert b. induction a as [|x a IH]; intros [|y b]; try done. simpl.
  by rewrite IH, Z.mul_comm.
Qed.
#[export] Instance ref_x25519 : X25519 := {|
  x_public a := a;
  x_diffie_hellman a b := dexist (mul_bytes (array_bytes a) (array_bytes b)) (mul_bytes_length a b)
|}.
#[export] Instance ref_x25519_laws : X25519Laws.
Proof.
  split; simpl.
  - intros a b. apply array_eq. apply mul_bytes_comm.
  - intros a q Hq. change (Forall (λ b, b = byte_of 0) (mul_bytes (array_bytes a) (array_bytes q))).
    unfold mul_bytes. generalize (array_bytes a).
    induction Hq as [|b l Hb _ IH]; intros [|x xs]; simpl; constructor; [|done].
    by rewrite Hb, Z.mul_0_r.
Qed.
End RefCurve.

Import RefCurve.
Lemma bls_complete_witness :
  verify_aggregate (map public_of [3; 5]) [[byte_of 1]; [byte_of 2]]
    (aggregate_signatures (zip_with bls_sign [3; 5] [[byte_of 1]; [byte_of 2]])) = true.
Proof.
  destruct (bls_complete [array_repeat (byte_of 7) 32] _ _ [3; 5] [[byte_of 1]; [byte_of 2]] []
    ref_hash_nonzero eq_refl) as (_ & _ & Hagg & _); [done|done|repeat constructor; by vm_compute|].
  apply Hagg. by vm_compute.
Defined.
Lemma channel_roundtrip_witness :
  ∃ c, crypto_encrypt (array_repeat (byte_of 5) 32) (array_repeat (byte_of 9) 12) [byte_of 1] = Ok c ∧
    crypto_decrypt (array_repeat (byte_of 5) 32) c = Ok [byte_of 1].
Proof.
  set (key := array_repeat (byte_of 5) 32). set (nonce := array_repeat (byte_of 9) 12).
  destruct (crypto_encrypt key nonce [byte_of 1]) as [c|e] eqn:Hc; [|discriminate Hc].
  exists c. split; [reflexivity|].
  exact (proj1 (proj2 (channel_roundtrip key key nonce [byte_of 1] c [])) key Hc).
Defined.
