(* ===== verification/Staking.v ===== *)
(** * [subhost-consensus]: validator staking, delegation and slashing

    [crates/subhost-consensus/src/staking.rs]. The registry is two hash maps and
    the evidence log; its methods are computations in [ST StakingModule
    StakingError]. Uptime is an IEEE 754 double, Stdlib's [spec_float]. *)

From Stdlib Require Import String Floats.SpecFloat.
From S2P Require Import Prelude Order Text Deps Core.

Definition MIN_VALIDATOR_STAKE : Z := 10000000.
Definition MAX_COMMISSION_BPS : Z := 10000.

Record Validator := {
  v_address : Address;
  v_public_key : bytes;
  v_stake : Z;
  v_commission_bps : Z;
  v_uptime : spec_float
}.
Record ValidatorSet := {
  vs_validators : list Validator;
  vs_total_stake : Z;
  vs_quorum_threshold : Z
}.
Record Delegation := {
  dg_delegator : Address;
  dg_validator : Address;
  dg_amount : Z;
  dg_rewards : Z
}.
Inductive SlashingType := DoubleSign | Downtime | MaliciousBehavior.
#[export] Instance slashing_type_eq_dec : EqDecision SlashingType.
Proof. solve_decision. Defined.
Record SlashingEvidence := {
  se_validator : Address;
  se_type : SlashingType;
  se_height : Z;
  se_proof : bytes
}.
Inductive StakingError :=
| StakeTooLow (provided minimum : Z)
| MissingPublicKey (a : Address)
| InvalidCommission (bps : Z)
| InvalidUptime (uptime : spec_float)
| StakingDuplicateValidator (a : Address)
| StakingUnknownValidator (a : Address)
| UnknownDelegation (delegator validator : Address)
| InsufficientDelegation (have want : Z)
| ZeroAmount
| StakeOverflow (a : Address)
| MissingProof (a : Address).

(** [f64::is_finite] and the literals [0.0] and [1.0]. *)
Definition f64_is_finite (x : spec_float) : bool :=
  match x with S754_zero _ | S754_finite _ _ _ => true | _ => false end.
Definition f64_zero : spec_float := S754_zero false.
Definition f64_one : spec_float := S754_finite false 4503599627370496 (-52).

Definition validator_validate (v : Validator) : result StakingError unit :=
  _ ← fail_if (v_stake v <? MIN_VALIDATOR_STAKE) (StakeTooLow (v_stake v) MIN_VALIDATOR_STAKE);
  _ ← fail_if (bool_decide (v_public_key v = [])) (MissingPublicKey (v_address v));
  _ ← fail_if (MAX_COMMISSION_BPS <? v_commission_bps v) (InvalidCommission (v_commission_bps v));
  fail_if (negb (f64_is_finite (v_uptime v)) || SFltb (v_uptime v) f64_zero
           || SFltb f64_one (v_uptime v)) (InvalidUptime (v_uptime v)).

Definition penalty (t : SlashingType) (stake : Z) : Z :=
  match t with
  | DoubleSign => stake
  | Downtime => stake `div` 100
  | MaliciousBehavior => stake `div` 2
  end.

Record StakingModule := {
  sm_validators : gmap Address Validator;
  sm_delegations : gmap (Address * Address) Delegation;
  sm_slashings : list SlashingEvidence
}.
Definition staking_new : StakingModule :=
  {| sm_validators := ∅; sm_delegations := ∅; sm_slashings := [] |}.

Definition set_stake (stake : Z) (v : Validator) : Validator :=
  {| v_address := v_address v; v_public_key := v_public_key v; v_stake := stake;
     v_commission_bps := v_commission_bps v; v_uptime := v_uptime v |}.
Definition set_amount (amount : Z) (d : Delegation) : Delegation :=
  {| dg_delegator := dg_delegator d; dg_validator := dg_validator d; dg_amount := amount;
     dg_rewards := dg_rewards d |}.
Definition set_validators (f : gmap Address Validator → gmap Address Validator) (s : StakingModule)
  : StakingModule :=
  {| sm_validators := f (sm_validators s); sm_delegations := sm_delegations s;
     sm_slashings := sm_slashings s |}.
Definition set_delegations (f : gmap (Address * Address) Delegation → gmap (Address * Address) Delegation)
  (s : StakingModule) : StakingModule :=
  {| sm_validators := sm_validators s; sm_delegations := f (sm_delegations s);
     sm_slashings := sm_slashings s |}.

Definition add_validator (v : Validator) : ST StakingModule StakingError unit :=
  _ ← st_lift (validator_validate v);
  s ← st_get;
  _ ← st_fail_if (bool_decide (is_Some (sm_validators s !! v_address v)))
        (StakingDuplicateValidator (v_address v));
  st_modify (set_validators (<[v_address v := v]>)).

Definition staking_validator (s : StakingModule) (a : Address) : option Validator := sm_validators s !! a.
Definition validator_count (s : StakingModule) : Z := Z.of_nat (size (sm_validators s)).
(** The folds over [HashMap::values], on the values in the order they come. *)
Definition total_stake_iter (vs : list Validator) : Z :=
  foldl (λ total v, saturating_add u128_max total (v_stake v)) 0 vs.
Definition total_stake (s : StakingModule) : Z := total_stake_iter (map_to_list (sm_validators s)).*2.

Definition validator_compare (left right : Validator) : comparison :=
  then_with (v_stake right ?= v_stake left) (address_compare (v_address left) (v_address right)).
Definition validator_set_iter (vs : list Validator) : ValidatorSet :=
  let validators := sort_by validator_compare vs in
  let count := Z.of_nat (length validators) in
  {| vs_validators := validators;
     vs_total_stake := total_stake_iter vs;
     vs_quorum_threshold := if count =? 0 then 0 else 2 * ((count - 1) `div` 3) + 1 |}.
Definition validator_set (s : StakingModule) : ValidatorSet :=
  validator_set_iter (map_to_list (sm_validators s)).*2.

(** The delegation record is created before the second overflow check. *)
Definition delegate (delegator validator : Address) (amount : Z) : ST StakingModule StakingError Z :=
  _ ← st_fail_if (amount =? 0) ZeroAmount;
  s ← st_get;
  target ← st_lift (ok_or (sm_validators s !! validator) (StakingUnknownValidator validator));
  new_stake ← st_lift (ok_or (checked_add u128_max (v_stake target) amount) (StakeOverflow validator));
  let entry := default {| dg_delegator := delegator; dg_validator := validator;
                          dg_amount := 0; dg_rewards := 0 |}
                 (sm_delegations s !! (delegator, validator)) in
  _ ← st_modify (set_delegations (<[(delegator, validator) := entry]>));
  new_amount ← st_lift (ok_or (checked_add u128_max (dg_amount entry) amount) (StakeOverflow validator));
  _ ← st_modify (set_delegations (<[(delegator, validator) := set_amount new_amount entry]>));
  _ ← st_modify (set_validators (<[validator := set_stake new_stake target]>));
  mret new_amount.

Definition undelegate (delegator validator : Address) (amount : Z) : ST StakingModule StakingError Z :=
  _ ← st_fail_if (amount =? 0) ZeroAmount;
  s ← st_get;
  entry ← st_lift (ok_or (sm_delegations s !! (delegator, validator))
                     (UnknownDelegation delegator validator));
  _ ← st_fail_if (dg_amount entry <? amount) (InsufficientDelegation (dg_amount entry) amount);
  let remaining := dg_amount entry - amount in
  _ ← st_modify (set_delegations
        (if (remaining =? 0) && (dg_rewards entry =? 0)
         then delete (delegator, validator)
         else <[(delegator, validator) := set_amount remaining entry]>));
  _ ← st_modify (set_validators
        (alter (λ target, set_stake (saturating_sub (v_stake target) amount) target) validator));
  mret remaining.

Definition delegation (s : StakingModule) (delegator validator : Address) : option Delegation :=
  sm_delegations s !! (delegator, validator).
Definition delegated_to_iter (ds : list Delegation) (validator : Address) : Z :=
  foldl (λ total d, saturating_add u128_max total (dg_amount d)) 0
    (filter (λ d, dg_validator d = validator) ds).
Definition delegated_to (s : StakingModule) (validator : Address) : Z :=
  delegated_to_iter (map_to_list (sm_delegations s)).*2 validator.

Definition slash (e : SlashingEvidence) : ST StakingModule StakingError Z :=
  s ← st_get;
  let a := se_validator e in
  stake ← st_lift (ok_or (v_stake <$> sm_validators s !! a) (StakingUnknownValidator a));
  _ ← st_fail_if (bool_decide (se_proof e = [])) (MissingProof a);
  let p := penalty (se_type e) stake in
  _ ← st_modify (λ s, {| sm_validators := sm_validators s; sm_delegations := sm_delegations s;
                         sm_slashings := sm_slashings s ++ [e] |});
  if p =? 0 then mret 0
  else
    (let ejected := stake <=? p in
     _ ← st_modify (if ejected
                    then λ s, set_delegations (filter (λ kd, kd.1.2 ≠ a)) (set_validators (delete a) s)
                    else set_validators (alter (λ v, set_stake (v_stake v - p) v) a));
     mret p).

Definition slashings_for (s : StakingModule) (validator : Address) : Z :=
  Z.of_nat (length (filter (λ e, se_validator e = validator) (sm_slashings s))).

(** ** The registry's invariant *)

(** What is delegated to a validator, as an exact sum. *)
Definition owed (ds : gmap (Address * Address) Delegation) (a : Address) : Z :=
  map_sum (λ d, if decide (dg_validator d = a) then dg_amount d else 0) ds.

Definition validator_wf (v : Validator) : Prop :=
  is_u128 (v_stake v) ∧ is_u64 (v_commission_bps v).
Record staking_inv (s : StakingModule) : Prop := {
  si_validator a v : sm_validators s !! a = Some v → v_address v = a ∧ is_u128 (v_stake v);
  si_delegation k d : sm_delegations s !! k = Some d →
    k = (dg_delegator d, dg_validator d) ∧ 0 < dg_amount d ≤ u128_max ∧ dg_rewards d = 0 ∧
    is_Some (sm_validators s !! dg_validator d);
  (** Until a validator is slashed its stake covers every delegation to it, on
      top of the minimum self-stake. *)
  si_backed a v : sm_validators s !! a = Some v → slashings_for s a = 0 →
    MIN_VALIDATOR_STAKE + owed (sm_delegations s) a ≤ v_stake v
}.

Lemma staking_new_inv : staking_inv staking_new.
Proof. split; simpl; intros ??; rewrite lookup_empty; done. Qed.
Lemma owed_nonneg s a : staking_inv s → 0 ≤ owed (sm_delegations s) a.
Proof.
  intros I. apply map_sum_nonneg. intros k d Hd. destruct (si_delegation _ I k d Hd).
  case_decide; lia.
Qed.
Lemma owed_le s k d :
  staking_inv s → sm_delegations s !! k = Some d →
  dg_amount d ≤ owed (sm_delegations s) (dg_validator d).
Proof.
  intros I Hd. pose proof (map_sum_lookup_le
    (λ d', if decide (dg_validator d' = dg_validator d) then dg_amount d' else 0)
    (sm_delegations s) k d) as Hle. simpl in Hle. rewrite decide_True in Hle by done.
  apply Hle; [|done]. intros k' d' Hd'. destruct (si_delegation _ I k' d' Hd'). case_decide; lia.
Qed.
(** While it fits its width, the saturating fold of [delegated_to] is exact. *)
Lemma delegated_to_owed s a :
  staking_inv s → delegated_to s a = Z.min (owed (sm_delegations s) a) u128_max.
Proof.
  intros I. unfold delegated_to, delegated_to_iter, owed. rewrite map_sum_zsum.
  assert (Forall (λ d, 0 ≤ dg_amount d) (map_to_list (sm_delegations s)).*2) as Hpos.
  { apply Forall_forall. intros d ([k d'] & -> & Hin%elem_of_map_to_list)%list_elem_of_fmap.
    destruct (si_delegation _ I k d' Hin). simpl. lia. }
  rewrite saturating_fold; [|width|]; cycle 1.
  { apply Forall_forall. intros d [_ Hd]%list_elem_of_filter. by apply (proj1 (Forall_forall _ _) Hpos). }
  f_equal. rewrite Z.add_0_l. clear Hpos. unfold zsum.
  induction (map_to_list (sm_delegations s)).*2 as [|d l IH]; [done|].
  rewrite filter_cons. simpl. case_decide; simpl; rewrite IH; lia.
Qed.
Lemma owed_unknown s a :
  staking_inv s → sm_validators s !! a = None → owed (sm_delegations s) a = 0.
Proof.
  intros I Ha. unfold owed. rewrite <-(map_sum_filter _ (λ _, False)).
  - assert (filter (λ _, False) (sm_delegations s) = ∅) as ->; [|done].
    apply map_empty. intros k. apply map_lookup_filter_None. right. by intros d _ [].
  - intros k d Hd _. case_decide as Hv; [|done].
    destruct (si_delegation _ I k d Hd) as (_ & _ & _ & [w Hw]). congruence.
Qed.

Lemma add_validator_inv v s s' r :
  staking_inv s → validator_wf v → add_validator v s = (s', r) → staking_inv s'.
Proof.
  intros I Hv Hrun. unfold add_validator in Hrun. run_unfold.
  destruct (validator_validate v) as [[]|] eqn:Hval; [|by injection Hrun as <- <-].
  case_bool_decide as Hdup; [by injection Hrun as <- <-|]. injection Hrun as <- <-.
  apply eq_None_not_Some in Hdup. unfold validator_validate in Hval.
  apply guard_Ok in Hval as [Hmin _]. bool_hyps. split; simpl.
  - intros a w [[<- <-]|[_ Hw]]%lookup_insert_Some; [by destruct Hv|by apply (si_validator _ I)].
  - intros k d Hd. destruct (si_delegation _ I k d Hd) as (? & ? & ? & Hs). split_and!; try done; try lia.
    rewrite lookup_insert_is_Some'. by right.
  - intros a w [[<- <-]|[_ Hw]]%lookup_insert_Some Hsl; [|by apply (si_backed _ I)].
    assert (owed (sm_delegations s) (v_address v) = 0) as ->; [|lia].
    by apply owed_unknown.
Qed.

(** What [d] holds with [a]. *)
Definition held (s : StakingModule) (d a : Address) : Z := from_option dg_amount 0 (delegation s d a).
Lemma held_range s d a : staking_inv s → 0 ≤ held s d a ≤ u128_max.
Proof.
  intros I. unfold held, delegation. destruct (sm_delegations s !! (d, a)) as [e|] eqn:He; simpl.
  - destruct (si_delegation _ I _ e He). lia.
  - width.
Qed.
Lemma owed_insert s d a e b :
  staking_inv s → dg_validator e = a →
  owed (<[(d, a) := e]> (sm_delegations s)) b
  = owed (sm_delegations s) b + (if decide (a = b) then dg_amount e - held s d a else 0).
Proof.
  intros I He. unfold owed. rewrite map_sum_insert, He. unfold held, delegation.
  destruct (sm_delegations s !! (d, a)) as [e'|] eqn:He'; simpl; [|case_decide; lia].
  destruct (si_delegation _ I _ e' He') as ([= _ <-] & _). case_decide; lia.
Qed.
Lemma owed_delete s d a b :
  staking_inv s →
  owed (delete (d, a) (sm_delegations s)) b
  = owed (sm_delegations s) b - (if decide (a = b) then held s d a else 0).
Proof.
  intros I. unfold owed, held, delegation.
  destruct (sm_delegations s !! (d, a)) as [e|] eqn:He; simpl.
  - rewrite (map_sum_delete _ (sm_delegations s) _ _ He).
    destruct (si_delegation _ I _ e He) as ([= _ <-] & _). case_decide; lia.
  - rewrite delete_id by done. case_decide; lia.
Qed.

Definition delegated (s : StakingModule) (d a : Address) (v : Validator) (x : Z) : StakingModule :=
  {| sm_validators := <[a := set_stake (v_stake v + x) v]> (sm_validators s);
     sm_delegations := <[(d, a) := {| dg_delegator := d; dg_validator := a;
                                      dg_amount := held s d a + x; dg_rewards := 0 |}]>
                         (sm_delegations s);
     sm_slashings := sm_slashings s |}.
Lemma delegate_run d a x s s' r :
  staking_inv s → is_u128 x → delegate d a x s = (s', r) →
  match r with
  | Err _ => s' = s
  | Ok n => ∃ v, sm_validators s !! a = Some v ∧ 0 < x ∧ v_stake v + x ≤ u128_max ∧
                 n = held s d a + x ∧ n ≤ u128_max ∧ s' = delegated s d a v x
  end.
Proof.
  intros I Hx Hrun. unfold delegate in Hrun. run_unfold.
  destruct (Z.eqb_spec x 0) as [->|Hx0]; [by injection Hrun as <- <-|].
  destruct (sm_validators s !! a) as [v|] eqn:Hv; [|by injection Hrun as <- <-].
  destruct (checked_add u128_max (v_stake v) x) as [ns|] eqn:Hns; [|by injection Hrun as <- <-].
  apply checked_add_Some in Hns as [-> Hns].
  set (e := default _ _) in Hrun.
  assert (e = {| dg_delegator := d; dg_validator := a; dg_amount := held s d a; dg_rewards := 0 |})
    as He.
  { unfold e, held, delegation. destruct (sm_delegations s !! (d, a)) as [e'|] eqn:He'; [|done].
    destruct (si_delegation _ I _ _ He') as ([= -> ->] & _ & Hr & _). destruct e'. simpl in *.
    by rewrite Hr. }
  destruct (checked_add u128_max (dg_amount e) x) as [n|] eqn:Hn.
  - injection Hrun as <- <-. apply checked_add_Some in Hn as [-> Hn]. rewrite He in *. simpl in *.
    exists v. split_and!; try done; [width|]. unfold delegated, set_validators, set_delegations. simpl.
    by rewrite insert_insert_eq.
  - injection Hrun as <- <-. apply checked_add_None in Hn. rewrite He in Hn. simpl in Hn.
    unfold held, delegation in Hn. destruct (sm_delegations s !! (d, a)) as [e'|] eqn:He';
      simpl in Hn; [|width].
    unfold e, set_delegations. simpl. rewrite insert_id by done. by destruct s.
Qed.
Lemma delegate_inv d a x s s' r :
  staking_inv s → is_u128 x → delegate d a x s = (s', r) → staking_inv s'.
Proof.
  intros I Hx Hrun. pose proof (delegate_run _ _ _ _ _ _ I Hx Hrun) as Hout.
  destruct r as [n|]; [|by subst]. destruct Hout as (v & Hv & Hpos & Hmax & -> & Hn & ->).
  pose proof (held_range s d a I). destruct (si_validator _ I a v Hv) as [Hva Hvs]. split; simpl.
  - intros b w [[<- <-]|[_ Hw]]%lookup_insert_Some; [|by apply (si_validator _ I)].
    simpl. split; [done|width].
  - intros k e. rewrite lookup_insert_is_Some'. intros [[<- <-]|[_ He]]%lookup_insert_Some; simpl.
    + split_and!; try done; [lia|by left].
    + destruct (si_delegation _ I k e He) as (? & ? & ? & ?). by auto.
  - intros b w Hw Hsl. rewrite owed_insert by done. simpl.
    change (slashings_for s b = 0) in Hsl.
    apply lookup_insert_Some in Hw as [[<- <-]|[Hne Hw]]; simpl.
    + rewrite decide_True by done. pose proof (si_backed _ I a v Hv Hsl). lia.
    + rewrite decide_False by done. pose proof (si_backed _ I b w Hw Hsl). lia.
Qed.

Definition undelegated (s : StakingModule) (d a : Address) (x : Z) : StakingModule :=
  {| sm_validators := alter (λ v, set_stake (saturating_sub (v_stake v) x) v) a (sm_validators s);
     sm_delegations :=
       if decide (held s d a = x) then delete (d, a) (sm_delegations s)
       else <[(d, a) := {| dg_delegator := d; dg_validator := a;
                           dg_amount := held s d a - x; dg_rewards := 0 |}]> (sm_delegations s);
     sm_slashings := sm_slashings s |}.
Lemma undelegate_run d a x s s' r :
  staking_inv s → is_u128 x → undelegate d a x s = (s', r) →
  match r with
  | Err _ => s' = s
  | Ok n => 0 < x ≤ held s d a ∧ n = held s d a - x ∧ s' = undelegated s d a x
  end.
Proof.
  intros I Hx Hrun. unfold undelegate in Hrun. run_unfold. unfold undelegated, held, delegation.
  destruct (Z.eqb_spec x 0) as [->|Hx0]; [by injection Hrun as <- <-|].
  destruct (sm_delegations s !! (d, a)) as [e|] eqn:He; [|by injection Hrun as <- <-]. simpl.
  destruct (Z.ltb_spec (dg_amount e) x) as [Hlt|Hle]; [by injection Hrun as <- <-|].
  injection Hrun as <- <-. split_and!; [width|done..|].
  destruct (si_delegation _ I _ e He) as ([= Hd Ha] & _ & Hr & _). rewrite Hr. simpl.
  unfold set_validators, set_delegations. simpl. f_equal. rewrite andb_true_r.
  destruct (Z.eqb_spec (dg_amount e - x) 0); case_decide; try lia; [done|].
  unfold set_amount. by rewrite Hr, <-Hd, <-Ha.
Qed.
Lemma owed_undelegated s d a x b :
  staking_inv s →
  owed (sm_delegations (undelegated s d a x)) b
  = owed (sm_delegations s) b - (if decide (a = b) then x else 0).
Proof.
  intros I. simpl. case_decide as Hx.
  - rewrite owed_delete by done. case_decide; lia.
  - rewrite owed_insert by done. simpl. case_decide; lia.
Qed.
Lemma undelegate_inv d a x s s' r :
  staking_inv s → is_u128 x → undelegate d a x s = (s', r) → staking_inv s'.
Proof.
  intros I Hx Hrun. pose proof (undelegate_run _ _ _ _ _ _ I Hx Hrun) as Hout.
  destruct r as [n|]; [|by subst]. destruct Hout as (Hxr & _ & ->).
  pose proof (held_range s d a I).
  assert (∀ k e, sm_delegations (undelegated s d a x) !! k = Some e →
    sm_delegations s !! k = Some e ∨ k = (d, a) ∧ dg_delegator e = d ∧ dg_validator e = a ∧
      dg_amount e = held s d a - x ∧ 0 < dg_amount e ∧ dg_rewards e = 0) as Hlook.
  { intros k e. simpl. case_decide.
    - intros [_ He]%lookup_delete_Some. by left.
    - intros [[<- <-]|[_ He]]%lookup_insert_Some; [right|by left]. simpl. split_and!; try done. lia. }
  split.
  - intros b w. simpl. rewrite lookup_alter_Some. intros [[<- (v & Hv & ->)]|[_ Hw]].
    + destruct (si_validator _ I a v Hv). unfold saturating_sub. simpl. split; [done|width].
    + by apply (si_validator _ I).
  - intros k e Hke. simpl. rewrite lookup_alter_is_Some. apply Hlook in Hke as [He|(-> & <- & <- & He)].
    + by apply (si_delegation _ I).
    + split_and!; try naive_solver lia. destruct (sm_delegations s !! (dg_delegator e, dg_validator e))
        as [e'|] eqn:He'; [|unfold held, delegation in Hxr; rewrite He' in Hxr; simpl in Hxr; lia].
      destruct (si_delegation _ I _ e' He') as ([= _ Hv] & _ & _ & Hs). by rewrite Hv.
  - intros b w Hw Hsl. change (slashings_for s b = 0) in Hsl. rewrite owed_undelegated by done.
    simpl in Hw. apply lookup_alter_Some in Hw as [[<- (v & Hv & ->)]|[Hne Hw]].
    + rewrite decide_True by done. pose proof (si_backed _ I a v Hv Hsl). simpl.
      unfold saturating_sub. lia.
    + rewrite decide_False by done. pose proof (si_backed _ I b w Hw Hsl). lia.
Qed.

(** ** Slashing *)

Definition record_slashing (e : SlashingEvidence) (s : StakingModule) : StakingModule :=
  {| sm_validators := sm_validators s; sm_delegations := sm_delegations s;
     sm_slashings := sm_slashings s ++ [e] |}.
Lemma slashings_for_record e s a :
  slashings_for (record_slashing e s) a
  = slashings_for s a + (if decide (se_validator e = a) then 1 else 0).
Proof.
  unfold slashings_for. simpl. rewrite filter_app, length_app, filter_cons. simpl.
  case_decide; simpl; lia.
Qed.
Lemma penalty_range t x : 0 ≤ x → 0 ≤ penalty t x ≤ x.
Proof. destruct t; simpl; Z.to_euclidean_division_equations; lia. Qed.
Lemma penalty_full t x : 0 < x → penalty t x = x ↔ t = DoubleSign.
Proof.
  destruct t; simpl; intros Hx; (split; [|done]); intros He; try done;
    Z.to_euclidean_division_equations; lia.
Qed.
Definition ejects (t : SlashingType) (stake : Z) : Prop := t = DoubleSign ∧ 0 < stake.
#[export] Instance ejects_dec t stake : Decision (ejects t stake).
Proof. unfold ejects. apply _. Defined.
(** The registry after evidence [e] against [v] is applied. *)
Definition slashed (e : SlashingEvidence) (v : Validator) (s : StakingModule) : StakingModule :=
  let a := se_validator e in
  if decide (ejects (se_type e) (v_stake v)) then
    {| sm_validators := delete a (sm_validators s);
       sm_delegations := filter (λ kd, kd.1.2 ≠ a) (sm_delegations s);
       sm_slashings := sm_slashings s ++ [e] |}
  else
    {| sm_validators := <[a := set_stake (v_stake v - penalty (se_type e) (v_stake v)) v]>
                          (sm_validators s);
       sm_delegations := sm_delegations s;
       sm_slashings := sm_slashings s ++ [e] |}.
Lemma slash_run e s v :
  staking_inv s → sm_validators s !! se_validator e = Some v → se_proof e ≠ [] →
  slash e s = (slashed e v s, Ok (penalty (se_type e) (v_stake v))).
Proof.
  intros I Hv Hproof. destruct (si_validator _ I _ _ Hv) as [_ Hs].
  unfold slash, slashed. run_unfold. rewrite Hv. simpl. rewrite (bool_decide_false _ Hproof).
  pose proof (penalty_range (se_type e) (v_stake v) ltac:(width)) as Hp.
  destruct (Z.eqb_spec (penalty (se_type e) (v_stake v)) 0) as [Hz|Hz].
  - rewrite decide_False; [|intros [Ht Hpos]; rewrite Ht in Hz; simpl in Hz; lia].
    rewrite Hz, Z.sub_0_r. simpl. rewrite insert_id; [done|]. rewrite Hv. by destruct v.
  - pose proof (penalty_full (se_type e) (v_stake v) ltac:(lia)) as Hf.
    destruct (Z.leb_spec (v_stake v) (penalty (se_type e) (v_stake v))) as [Hle|Hgt]; simpl.
    + rewrite decide_True; [done|]. split; [|lia]. apply Hf. lia.
    + rewrite decide_False; [|intros [Ht _]; apply Hf in Ht; lia]. unfold set_validators. simpl.
      by rewrite (alter_present _ _ _ v).
Qed.
Lemma slash_error e s :
  (sm_validators s !! se_validator e = None →
     slash e s = (s, Err (StakingUnknownValidator (se_validator e)))) ∧
  (∀ v, sm_validators s !! se_validator e = Some v → se_proof e = [] →
     slash e s = (s, Err (MissingProof (se_validator e)))).
Proof. unfold slash. run_unfold. split; [by intros ->|by intros v -> ->]. Qed.
Lemma slash_inv e s s' r : staking_inv s → slash e s = (s', r) → staking_inv s'.
Proof.
  intros I Hrun. destruct (slash_error e s) as [Hnone Hproof].
  destruct (sm_validators s !! se_validator e) as [v|] eqn:Hv;
    [|rewrite (Hnone eq_refl) in Hrun; by injection Hrun as <- <-].
  destruct (decide (se_proof e = [])) as [Hp|Hp].
  { rewrite (Hproof v eq_refl Hp) in Hrun. by injection Hrun as <- <-. }
  rewrite (slash_run e s v I Hv Hp) in Hrun. injection Hrun as <- <-.
  assert (∀ b, slashings_for (slashed e v s) b = 0 → b ≠ se_validator e ∧ slashings_for s b = 0) as Hsl.
  { intros b Hb. assert (slashings_for (record_slashing e s) b = 0) as Hr.
    { rewrite <-Hb. unfold slashings_for, slashed. by case_decide. }
    rewrite slashings_for_record in Hr. unfold slashings_for in *. case_decide; [lia|].
    split; [congruence|lia]. }
  pose proof (penalty_range (se_type e) (v_stake v)) as Hpr.
  destruct (si_validator _ I _ _ Hv) as [_ Hs]. unfold slashed in *. case_decide as He; split; simpl.
  - intros b w [_ Hw]%lookup_delete_Some. by apply (si_validator _ I).
  - intros k d [Hd Hk]%map_lookup_filter_Some. destruct (si_delegation _ I k d Hd) as (Hkd & ? & ? & ?).
    rewrite Hkd in Hk. simpl in Hk. split_and!; try done; try lia. by rewrite lookup_delete_ne.
  - intros b w [Hne Hw]%lookup_delete_Some [Hb Hb0]%Hsl. unfold owed.
    rewrite map_sum_filter; [by apply (si_backed _ I)|]. intros k d Hd Hk.
    destruct (si_delegation _ I k d Hd) as (Hkd & _). rewrite Hkd in Hk. simpl in Hk.
    apply dec_stable in Hk. rewrite decide_False; [done|congruence].
  - intros b w [[<- <-]|[_ Hw]]%lookup_insert_Some; [|by apply (si_validator _ I)]. simpl.
    split; [by apply (si_validator _ I)|width].
  - intros k d Hd. rewrite lookup_insert_is_Some'.
    destruct (si_delegation _ I k d Hd) as (? & ? & ? & ?). by auto.
  - intros b w Hw [Hb Hb0]%Hsl. rewrite lookup_insert_ne in Hw by done. by apply (si_backed _ I).
Qed.

(** ** Any sequence of operations *)

Inductive staking_step : StakingModule → StakingModule → Prop :=
| step_add v s s' r : validator_wf v → add_validator v s = (s', r) → staking_step s s'
| step_delegate d a x s s' r : is_u128 x → delegate d a x s = (s', r) → staking_step s s'
| step_undelegate d a x s s' r : is_u128 x → undelegate d a x s = (s', r) → staking_step s s'
| step_slash e s s' r : slash e s = (s', r) → staking_step s s'.
Lemma staking_step_inv s s' : staking_step s s' → staking_inv s → staking_inv s'.
Proof.
  intros [] I; [by eapply add_validator_inv|by eapply delegate_inv|by eapply undelegate_inv
    |by eapply slash_inv].
Qed.
Lemma undelegate_succeeds d a x s :
  staking_inv s → 0 < x ≤ held s d a →
  undelegate d a x s = (undelegated s d a x, Ok (held s d a - x)).
Proof.
  intros I Hx. pose proof (held_range s d a I).
  destruct (undelegate d a x s) as [s' r] eqn:Hrun.
  pose proof (undelegate_run d a x s s' r I ltac:(width) Hrun) as Hout.
  destruct r as [n|err]; [by destruct Hout as (_ & -> & ->)|]. exfalso.
  unfold held, delegation in Hx. unfold undelegate in Hrun. run_unfold.
  destruct (Z.eqb_spec x 0); [lia|]. destruct (sm_delegations s !! (d, a)) as [e|]; simpl in Hx; [|lia].
  by destruct (Z.ltb_spec (dg_amount e) x); [lia|].
Qed.
Lemma held_undelegated s d a x : 0 < x ≤ held s d a → held (undelegated s d a x) d a = held s d a - x.
Proof.
  intros Hx. unfold held at 1, delegation, undelegated. simpl. case_decide.
  - rewrite lookup_delete_eq. simpl. lia.
  - by rewrite lookup_insert_eq.
Qed.

(** The published set does not depend on the order the hash map yields the
    validators in. *)
Lemma validator_set_deterministic s vs :
  staking_inv s → vs ≡ₚ (map_to_list (sm_validators s)).*2 → validator_set_iter vs = validator_set s.
Proof.
  intros I Hperm. unfold validator_set, validator_set_iter.
  assert (CmpOrder validator_compare) as Hord.
  { apply then_with_order; [apply (cmp_rev_order (λ l r, v_stake l ?= v_stake r)
      (CmpOrder0:=cmp_key_order v_stake Z.compare))|apply (cmp_key_order v_address address_compare)]. }
  assert (sort_by validator_compare vs
          = sort_by validator_compare (map_to_list (sm_validators s)).*2) as ->.
  { apply (sort_by_unique validator_compare); [done|]. intros x y Hx Hy Hxy.
    apply then_with_Eq in Hxy as [_ Hxy%array_compare_Eq]. rewrite Hperm in Hx, Hy.
    apply list_elem_of_fmap in Hx as ([a x'] & -> & Hx%elem_of_map_to_list).
    apply list_elem_of_fmap in Hy as ([b y'] & -> & Hy%elem_of_map_to_list). simpl in *.
    destruct (si_validator _ I a x' Hx), (si_validator _ I b y' Hy). congruence. }
  f_equal. unfold total_stake_iter.
  assert (Forall (λ v, 0 ≤ v_stake v) vs) as Hpos.
  { apply Forall_forall. intros v. rewrite Hperm.
    intros ([a v'] & -> & Hv%elem_of_map_to_list)%list_elem_of_fmap.
    destruct (si_validator _ I a v' Hv) as [_ Hw]. simpl. width. }
  rewrite !saturating_fold; [by rewrite Hperm|width|by rewrite <-Hperm|width|done].
Qed.

(** ** Properties *)

(** C28. After any sequence of registrations, delegations, withdrawals and
    slashings, failed ones included, a validator that has never been slashed has
    the minimum self-stake on top of everything delegated to it, so each of its
    delegators can withdraw any part of what they hold, and the withdrawal takes
    exactly that amount from the delegation and from the validator's stake. *)
Theorem staking_solvent (s : StakingModule) (a : Address) (v : Validator) :
  rtc staking_step staking_new s → staking_validator s a = Some v → slashings_for s a = 0 →
  MIN_VALIDATOR_STAKE + delegated_to s a ≤ v_stake v ≤ u128_max ∧
  ∀ d x, 0 < x ≤ held s d a → ∃ s', undelegate d a x s = (s', Ok (held s d a - x)) ∧
    held s' d a = held s d a - x ∧ delegated_to s' a = delegated_to s a - x ∧
    staking_validator s' a = Some (set_stake (v_stake v - x) v).
Proof.
  intros Hreach Hv Hsl. assert (staking_inv s) as I.
  { pose proof staking_new_inv as I0. revert I0. induction Hreach as [|x y z Hs _ IH]; [done|].
    intros Hx. apply IH; [done..|]. by eapply staking_step_inv. }
  pose proof (si_backed _ I a v Hv Hsl) as Hb. destruct (si_validator _ I a v Hv) as [_ Hw].
  pose proof (owed_nonneg s a I). unfold MIN_VALIDATOR_STAKE in *.
  assert (delegated_to s a = owed (sm_delegations s) a) as Hd
    by (rewrite delegated_to_owed by done; width).
  split; [rewrite Hd; width|]. intros d x Hx. exists (undelegated s d a x).
  pose proof (held_range s d a I) as Hh.
  pose proof (undelegate_succeeds d a x s I Hx) as Hrun.
  pose proof (undelegate_inv d a x s _ _ I ltac:(width) Hrun) as I'.
  assert (held s d a ≤ owed (sm_delegations s) a) as Hle.
  { unfold held, delegation in *. destruct (sm_delegations s !! (d, a)) as [e|] eqn:He; simpl in *; [|lia].
    destruct (si_delegation _ I _ e He) as ([= _ ->] & _). by eapply owed_le. }
  split_and!; [done|by apply held_undelegated| |].
  - rewrite delegated_to_owed, owed_undelegated, decide_True, Hd by done. width.
  - unfold staking_validator in *. simpl. rewrite lookup_alter_eq, Hv. simpl. unfold saturating_sub.
    do 2 f_equal. lia.
Qed.

(** Slashing is exact: evidence without a proof or against an unknown
    validator is refused without effect; otherwise the evidence is recorded and
    precisely the offence's penalty leaves the total stake. A double sign burns a
    validator that has stake, with every delegation to it and no other; any other
    offence keeps the validator, with a positive stake if it had one. *)
Theorem slash_spec (e : SlashingEvidence) (s : StakingModule) :
  staking_inv s →
  match staking_validator s (se_validator e) with
  | None => slash e s = (s, Err (StakingUnknownValidator (se_validator e)))
  | Some v =>
      let p := penalty (se_type e) (v_stake v) in
      if decide (se_proof e = []) then slash e s = (s, Err (MissingProof (se_validator e)))
      else ∃ s', slash e s = (s', Ok p) ∧ sm_slashings s' = sm_slashings s ++ [e] ∧
        map_sum v_stake (sm_validators s') = map_sum v_stake (sm_validators s) - p ∧
        (∀ b, b ≠ se_validator e → staking_validator s' b = staking_validator s b) ∧
        if decide (ejects (se_type e) (v_stake v)) then
          staking_validator s' (se_validator e) = None ∧
          ∀ d b, delegation s' d b = if decide (b = se_validator e) then None else delegation s d b
        else
          staking_validator s' (se_validator e) = Some (set_stake (v_stake v - p) v) ∧
          sm_delegations s' = sm_delegations s ∧ (0 < v_stake v → 0 < v_stake v - p)
  end.
Proof.
  intros I. destruct (slash_error e s) as [Hnone Hproof]. unfold staking_validator, delegation.
  destruct (sm_validators s !! se_validator e) as [v|] eqn:Hv; [|by apply Hnone]. simpl.
  case_decide as Hp; [by apply (Hproof v)|]. exists (slashed e v s).
  rewrite (slash_run e s v I Hv Hp). unfold slashed. split; [done|].
  pose proof (penalty_range (se_type e) (v_stake v)) as Hpr.
  destruct (si_validator _ I _ _ Hv) as [_ Hw].
  destruct (decide (ejects (se_type e) (v_stake v))) as [He|He]; simpl; split_and!; try done.
  - rewrite (map_sum_delete v_stake (sm_validators s) _ _ Hv). destruct He as [-> _]. simpl. lia.
  - intros b Hb. by rewrite lookup_delete_ne.
  - apply lookup_delete_eq.
  - intros d b. case_decide as Hb.
    + apply map_lookup_filter_None. right. intros x _ Hx. by apply Hx.
    + destruct (sm_delegations s !! (d, b)) as [x|] eqn:Hx.
      * by apply map_lookup_filter_Some.
      * apply map_lookup_filter_None. by left.
  - rewrite (map_sum_insert_Some _ _ _ v) by done. simpl. lia.
  - intros b Hb. by rewrite lookup_insert_ne.
  - apply lookup_insert_eq.
  - intros Hpos. pose proof (penalty_full (se_type e) (v_stake v) Hpos) as Hf.
    assert (penalty (se_type e) (v_stake v) ≠ v_stake v); [|lia]. intros Ht%Hf. by apply He.
Qed.

(** *** Concrete runs *)

Definition sample_validator : Validator :=
  {| v_address := addr 1; v_public_key := [byte_of 7]; v_stake := 10000000; v_commission_bps := 500;
     v_uptime := f64_one |}.
Definition staking1 : StakingModule := (add_validator sample_validator staking_new).1.
Definition staking2 : StakingModule := (delegate (addr 2) (addr 1) 10000000 staking1).1.
Lemma staking2_reachable : rtc staking_step staking_new staking2.
Proof.
  eapply rtc_l; [|apply rtc_once].
  - eapply (step_add sample_validator); [by apply (bool_decide_unpack _)|].
    apply (surjective_pairing (add_validator sample_validator staking_new)).
  - eapply (step_delegate (addr 2) (addr 1) 10000000); [by apply (bool_decide_unpack _)|].
    apply surjective_pairing.
Qed.
Lemma staking_solvent_witness :
  ∃ s', undelegate (addr 2) (addr 1) 4000000 staking2 = (s', Ok 6000000) ∧
    delegated_to s' (addr 1) = delegated_to staking2 (addr 1) - 4000000.
Proof.
  assert (staking_validator staking2 (addr 1) = Some (set_stake 20000000 sample_validator)) as Hv
    by (by vm_compute).
  assert (held staking2 (addr 2) (addr 1) = 10000000) as Hh by (by vm_compute).
  destruct (proj2 (staking_solvent staking2 (addr 1) _ staking2_reachable Hv ltac:(by vm_compute))
    (addr 2) 4000000) as (s' & Hrun & _ & Hd & _); [rewrite Hh; lia|].
  rewrite Hh in Hrun. exists s'. by split.
Defined.
Definition evidence (t : SlashingType) : SlashingEvidence :=
  {| se_validator := addr 1; se_type := t; se_height := 3; se_proof := [byte_of 1] |}.
Lemma slash_spec_witness :
  ∃ s', slash (evidence MaliciousBehavior) staking2 = (s', Ok 10000000) ∧
    staking_validator s' (addr 1) = Some (set_stake 10000000 sample_validator).
Proof.
  assert (staking_inv staking2) as I.
  { generalize staking2_reachable, staking_new_inv. generalize staking2. intros s Hr.
    induction Hr as [|x y z Hs _ IH]; [done|]. intros Hx. apply IH. by eapply staking_step_inv. }
  pose proof (slash_spec (evidence MaliciousBehavior) staking2 I) as Hs.
  assert (staking_validator staking2 (se_validator (evidence MaliciousBehavior))
          = Some (set_stake 20000000 sample_validator)) as Hv by (by vm_compute).
  rewrite Hv in Hs. destruct Hs as (s' & Hrun & _ & _ & _ & Hv' & _). exists s'. by split.
Defined.

(** A validator whose stake has dropped to zero is not ejected for signing
    twice. *)
Lemma zero_stake_not_ejected :
  let s3 := (slash (evidence MaliciousBehavior) staking2).1 in
  let s4 := (undelegate (addr 2) (addr 1) 10000000 s3).1 in
  let s5 := (slash (evidence DoubleSign) s4).1 in
  (slash (evidence DoubleSign) s4).2 = Ok 0 ∧
  staking_validator s5 (addr 1) = Some (set_stake 0 sample_validator).
Proof. by vm_compute. Qed.
