(* ===== verification/Consensus.v ===== *)
(** * [subhost-consensus]: quorum sizing, the vertex DAG and HotStuff

    [crates/subhost-consensus/src/lib.rs]. The round-indexed store, its indexes
    and the committed set are the fields of [DAG]; the view state is [HotStuff].
    Signatures are checked with the BLS scheme of [Crypto]. *)

From Stdlib Require Import String.
From S2P Require Import Prelude Order Text Deps Bincode Core Crypto.

Definition BLS_SIGNATURE_BYTES : nat := 96.
Definition BLS_PUBLIC_KEY_BYTES : nat := 48.

Inductive ConsensusError :=
| InvalidConfig (message : string)
| MissingParent (h : Hash)
| UnknownVertex (h : Hash)
| InvalidVertex (message : string)
| InsufficientSupport (have need : Z)
| UnknownValidator (a : Address)
| DuplicateSigner (a : Address)
| DuplicateValidator (a : Address)
| MalformedSignature (a : Address)
| InvalidSignature (a : Address)
| InvalidProofOfPossession (a : Address)
| EmptyValidatorRegistry
| InvalidProposal (message : string).

Record ConsensusConfig := {
  cc_validator_count : Z;
  cc_quorum_threshold : Z;
  cc_max_faulty : Z;
  cc_block_time_ms : Z;
  cc_dag_round_timeout_ms : Z
}.
Definition consensus_config_new (validator_count : Z) : result ConsensusError ConsensusConfig :=
  _ ← fail_if (validator_count =? 0) (InvalidConfig "validator_count must be > 0");
  let max_faulty := (validator_count - 1) `div` 3 in
  Ok {| cc_validator_count := validator_count;
        cc_quorum_threshold := 2 * max_faulty + 1;
        cc_max_faulty := max_faulty;
        cc_block_time_ms := DEFAULT_BLOCK_TIME_MS;
        cc_dag_round_timeout_ms := 500 |}.

(** ** The validator registry *)
Section registry.
Context `{!Curve, !Sha3}.

Record ValidatorRegistry := { vr_keys : gmap Address PublicKey }.
Definition registry_new : ValidatorRegistry := {| vr_keys := ∅ |}.
(** [HashMap::insert] replaces the key before the duplicate is reported. *)
Definition register (a : Address) (public_key : PublicKey) (proof : Signature)
  : ST ValidatorRegistry ConsensusError unit :=
  _ ← st_fail_if (negb (verify_possession public_key proof)) (InvalidProofOfPossession a);
  r ← st_get;
  let previous := vr_keys r !! a in
  _ ← st_put {| vr_keys := <[a := public_key]> (vr_keys r) |};
  st_fail_if (bool_decide (is_Some previous)) (DuplicateValidator a).
Definition registry_public_key (r : ValidatorRegistry) (a : Address) : option PublicKey := vr_keys r !! a.
Definition registry_contains (r : ValidatorRegistry) (a : Address) : bool :=
  bool_decide (is_Some (vr_keys r !! a)).
Definition registry_len (r : ValidatorRegistry) : Z := Z.of_nat (size (vr_keys r)).
Definition registry_is_empty (r : ValidatorRegistry) : bool := bool_decide (vr_keys r = ∅).
End registry.

(** ** The vertex DAG *)

Record DAGVertex := {
  vx_author : Address;
  vx_round : Z;
  vx_block : Block;
  vx_parents : list Hash;
  vx_signature : bytes
}.
Record DAG := {
  dag_vertices : gmap Z (list DAGVertex);
  dag_index : gmap Hash Z;
  dag_edges : gmap Hash (list Hash);
  dag_committed : gset Hash;
  dag_config : ConsensusConfig
}.
Definition dag_new (c : ConsensusConfig) : DAG :=
  {| dag_vertices := ∅; dag_index := ∅; dag_edges := ∅; dag_committed := ∅; dag_config := c |}.

Definition get_round (d : DAG) (round : Z) : list DAGVertex := default [] (dag_vertices d !! round).
Definition dag_contains (d : DAG) (h : Hash) : bool := bool_decide (is_Some (dag_index d !! h)).
Definition vertex_round (d : DAG) (h : Hash) : option Z := dag_index d !! h.
Definition parents_of (d : DAG) (h : Hash) : option (list Hash) := dag_edges d !! h.
(** The greatest key of the ordered map. *)
Definition latest_round (d : DAG) : Z := foldr Z.max 0 (map_to_list (dag_vertices d)).*1.
Definition vertex_count (d : DAG) : Z := Z.of_nat (size (dag_index d)).
Definition is_committed (d : DAG) (h : Hash) : bool := bool_decide (h ∈ dag_committed d).
Definition committed_count (d : DAG) : Z := Z.of_nat (size (dag_committed d)).

(** The distinct next-round authors that reference a vertex, and their number. *)
Definition supporters (d : DAG) (h : Hash) : gset Address :=
  match vertex_round d h ≫= (λ round, checked_add u64_max round 1) with
  | None => ∅
  | Some next_round =>
      list_to_set (map vx_author (filter (λ v, h ∈ vx_parents v) (get_round d next_round)))
  end.
Definition support_for (d : DAG) (h : Hash) : Z := Z.of_nat (size (supporters d h)).
Definition has_quorum_support (d : DAG) (h : Hash) : bool :=
  cc_quorum_threshold (dag_config d) <=? support_for d h.

Definition mark_committed (h : Hash) : ST DAG ConsensusError unit :=
  d ← st_get;
  _ ← st_fail_if (negb (dag_contains d h)) (UnknownVertex h);
  _ ← st_fail_if (negb (has_quorum_support d h))
        (InsufficientSupport (support_for d h) (cc_quorum_threshold (dag_config d)));
  st_put {| dag_vertices := dag_vertices d; dag_index := dag_index d; dag_edges := dag_edges d;
            dag_committed := {[h]} ∪ dag_committed d; dag_config := dag_config d |}.

Section dag.
Context `{!Blake3, !Serialize BlockHeader, !Serialize (Address * Z * Hash * list Hash)}.

Definition vertex_hash (v : DAGVertex) : Hash :=
  from_data (bincode (vx_author v, vx_round v, block_hash (vx_block v),
                      sort_by hash_compare (vx_parents v))).

Definition check_parents (d : DAG) (v : DAGVertex) : result ConsensusError unit :=
  if 1 <? vx_round v then
    _ ← fail_if (bool_decide (vx_parents v = []))
          (InvalidVertex "a non-genesis vertex must reference parents");
    try_fold (λ _ parent, fail_if (negb (dag_contains d parent)) (MissingParent parent)) ()
      (vx_parents v)
  else Ok ().
Definition insert_vertex (v : DAGVertex) (d : DAG) : DAG :=
  let h := vertex_hash v in
  {| dag_vertices := <[vx_round v := get_round d (vx_round v) ++ [v]]> (dag_vertices d);
     dag_index := <[h := vx_round v]> (dag_index d);
     dag_edges := <[h := vx_parents v]> (dag_edges d);
     dag_committed := dag_committed d; dag_config := dag_config d |}.
Definition add_vertex (v : DAGVertex) : ST DAG ConsensusError Hash :=
  _ ← st_fail_if (vx_round v =? 0) (InvalidVertex "round must be >= 1");
  let h := vertex_hash v in
  d ← st_get;
  if dag_contains d h then mret h
  else
    (_ ← st_lift (check_parents d v);
     _ ← st_modify (insert_vertex v);
     mret h).

(** The rounds [gc] keeps: everything from the cutoff on, and before it the
    vertices that are not committed. *)
Definition retain_round (cutoff : Z) (committed : gset Hash) (round : Z) (vs : list DAGVertex)
  : option (list DAGVertex) :=
  if cutoff <=? round then Some vs
  else
    let vs := filter (λ v, vertex_hash v ∉ committed) vs in
    if bool_decide (vs = []) then None else Some vs.
Definition live_hashes (vertices : gmap Z (list DAGVertex)) : gset Hash :=
  list_to_set (concat (map (λ '(_, vs), map vertex_hash vs) (map_to_list vertices))).
Definition gc (keep_rounds : Z) (d : DAG) : DAG * Z :=
  let cutoff := saturating_sub (latest_round d) keep_rounds in
  let vertices := map_imap (retain_round cutoff (dag_committed d)) (dag_vertices d) in
  let live := live_hashes vertices in
  let index := filter (λ e, e.1 ∈ live) (dag_index d) in
  ({| dag_vertices := vertices;
      dag_index := index;
      dag_edges := filter (λ e, e.1 ∈ live) (dag_edges d);
      dag_committed := filter (λ h, h ∈ live) (dag_committed d);
      dag_config := dag_config d |},
   Z.of_nat (size (dag_index d)) - Z.of_nat (size index)).
End dag.

(** ** Quorum certificates and HotStuff *)

Record QuorumCertificate := {
  qc_view : Z;
  qc_block_hash : Hash;
  qc_signatures : list (Address * bytes)
}.
Definition payload_for (view : Z) (h : Hash) : bytes :=
  str_bytes "subhost-qc-v1" ++ be_bytes 8 view ++ array_bytes h.
Definition qc_signing_payload (qc : QuorumCertificate) : bytes :=
  payload_for (qc_view qc) (qc_block_hash qc).

Section hotstuff.
Context `{!Curve, !Sha3}.

Record HotStuff := {
  hs_view : Z;
  hs_high_qc : option QuorumCertificate;
  hs_locked_view : Z;
  hs_config : ConsensusConfig;
  hs_registry : ValidatorRegistry
}.
Definition hotstuff_new (c : ConsensusConfig) (r : ValidatorRegistry) : HotStuff :=
  {| hs_view := 0; hs_high_qc := None; hs_locked_view := 0; hs_config := c; hs_registry := r |}.

Definition enter_next_view : ST HotStuff ConsensusError Z :=
  s ← st_get;
  view ← st_lift (ok_or (checked_add u64_max (hs_view s) 1) (InvalidProposal "view counter overflow"));
  _ ← st_put {| hs_view := view; hs_high_qc := hs_high_qc s; hs_locked_view := hs_locked_view s;
                hs_config := hs_config s; hs_registry := hs_registry s |};
  mret view.

(** One iteration of the signature loop. *)
Definition verify_signer (s : HotStuff) (payload : bytes) (verified : gset Address)
  (entry : Address * bytes) : result ConsensusError (gset Address) :=
  let '(a, signature_bytes) := entry in
  _ ← fail_if (negb (bool_decide (length signature_bytes = BLS_SIGNATURE_BYTES))) (MalformedSignature a);
  public_key ← ok_or (registry_public_key (hs_registry s) a) (UnknownValidator a);
  signature ← ok_or (g2_decompress signature_bytes) (MalformedSignature a);
  _ ← fail_if (negb (bls_verify public_key payload signature)) (InvalidSignature a);
  _ ← fail_if (bool_decide (a ∈ verified)) (DuplicateSigner a);
  Ok ({[a]} ∪ verified).
Definition validate_qc (s : HotStuff) (qc : QuorumCertificate) : result ConsensusError unit :=
  _ ← fail_if (registry_is_empty (hs_registry s)) EmptyValidatorRegistry;
  verified ← try_fold (verify_signer s (qc_signing_payload qc)) ∅ (qc_signatures qc);
  fail_if (Z.of_nat (size verified) <? cc_quorum_threshold (hs_config s))
    (InsufficientSupport (Z.of_nat (size verified)) (cc_quorum_threshold (hs_config s))).

Definition update_high_qc (qc : QuorumCertificate) : ST HotStuff ConsensusError bool :=
  s ← st_get;
  _ ← st_lift (validate_qc s qc);
  let current_view := from_option qc_view 0 (hs_high_qc s) in
  if bool_decide (is_Some (hs_high_qc s)) && (qc_view qc <=? current_view) then mret false
  else
    (_ ← st_put {| hs_view := Z.max (hs_view s) (qc_view qc); hs_high_qc := Some qc;
                   hs_locked_view := qc_view qc; hs_config := hs_config s;
                   hs_registry := hs_registry s |};
     mret true).
Definition is_safe_proposal (s : HotStuff) (view : Z) : bool :=
  (hs_locked_view s <? view) || negb (bool_decide (is_Some (hs_high_qc s))).
End hotstuff.

(** ** The DAG's invariant *)

Section dag_facts.
Context `{!Blake3, !Serialize BlockHeader, !Serialize (Address * Z * Hash * list Hash)}.
Implicit Types (d : DAG) (v : DAGVertex) (h : Hash).

Record dag_inv d : Prop := {
  di_vertex r v : v ∈ get_round d r →
    vx_round v = r ∧ 1 ≤ r ∧ dag_index d !! vertex_hash v = Some r ∧
    dag_edges d !! vertex_hash v = Some (vx_parents v);
  di_index h r : dag_index d !! h = Some r → ∃ v, v ∈ get_round d r ∧ vertex_hash v = h;
  di_unique r : NoDup (map vertex_hash (get_round d r));
  di_committed h : h ∈ dag_committed d → is_Some (dag_index d !! h) ∧ has_quorum_support d h = true
}.
Lemma dag_new_inv c : dag_inv (dag_new c).
Proof.
  split; unfold get_round; simpl.
  - intros r v. rewrite lookup_empty. by intros ?%elem_of_nil.
  - intros h r. by rewrite lookup_empty.
  - intros r. rewrite lookup_empty. constructor.
  - intros h. set_solver.
Qed.
(** A vertex support depends only on its round and on the next one. *)
Lemma supporters_ext d d' h :
  vertex_round d h = vertex_round d' h →
  (∀ r, vertex_round d h = Some r → get_round d (r + 1) = get_round d' (r + 1)) →
  supporters d h = supporters d' h.
Proof.
  intros Hr Hget. unfold supporters. rewrite <-Hr. destruct (vertex_round d h) as [r|] eqn:Hd; [|done].
  simpl. destruct (checked_add u64_max r 1) as [n|] eqn:Hn; [|done].
  apply checked_add_Some in Hn as [-> _]. by rewrite (Hget r).
Qed.
Lemma supporters_mono d d' h :
  vertex_round d h = vertex_round d' h →
  (∀ r v, v ∈ get_round d r → v ∈ get_round d' r) → supporters d h ⊆ supporters d' h.
Proof.
  intros Hr Hget. unfold supporters. rewrite <-Hr.
  destruct (vertex_round d h ≫= _) as [n|]; [|done]. intros a.
  rewrite !elem_of_list_to_set, !list_elem_of_fmap. intros (v & -> & Hv). exists v. split; [done|].
  apply list_elem_of_filter in Hv as [??]. apply list_elem_of_filter. auto.
Qed.
Lemma support_mono d d' h :
  dag_config d' = dag_config d → supporters d h ⊆ supporters d' h →
  has_quorum_support d h = true → has_quorum_support d' h = true.
Proof.
  intros Hc Hs. unfold has_quorum_support, support_for. rewrite Hc, !Z.leb_le.
  pose proof (subseteq_size _ _ Hs). lia.
Qed.
Lemma get_round_insert v d r :
  get_round (insert_vertex v d) r
  = if decide (vx_round v = r) then get_round d r ++ [v] else get_round d r.
Proof.
  unfold get_round, insert_vertex. simpl. case_decide as Hr.
  - subst r. by rewrite lookup_insert_eq.
  - by rewrite lookup_insert_ne.
Qed.
Lemma insert_vertex_inv v d :
  dag_inv d → 1 ≤ vx_round v → dag_index d !! vertex_hash v = None → dag_inv (insert_vertex v d).
Proof.
  intros I Hr Hnew.
  assert (∀ r w, w ∈ get_round d r → vertex_hash w ≠ vertex_hash v) as Hne.
  { intros r w (_ & _ & Hw & _)%(di_vertex _ I) Heq. congruence. }
  split.
  - intros r w. rewrite get_round_insert. intros Hw.
    assert (w = v ∧ vx_round v = r ∨ w ∈ get_round d r) as [[-> <-]|Hw'].
    { case_decide; [|by right]. apply elem_of_app in Hw as [?|Hw%list_elem_of_singleton]; auto. }
    + simpl. by rewrite !lookup_insert_eq.
    + simpl. rewrite !lookup_insert_ne by (symmetry; by apply (Hne r)). by apply (di_vertex _ I).
  - intros h r. simpl. rewrite get_round_insert. intros [[<- <-]|[_ Hh]]%lookup_insert_Some.
    + exists v. rewrite decide_True by done. split; [|done]. apply elem_of_app. right. left.
    + destruct (di_index _ I h r Hh) as (w & Hw & <-). exists w. split; [|done].
      case_decide; [apply elem_of_app; by left|done].
  - intros r. rewrite get_round_insert. case_decide; [|apply I]. rewrite map_app.
    apply NoDup_app. split_and!; [apply I| |apply NoDup_singleton].
    intros h (w & -> & Hw)%list_elem_of_fmap Heq%list_elem_of_singleton. by apply (Hne r w).
  - intros h Hh. destruct (di_committed _ I h Hh) as [[r Hi] Hq].
    assert (h ≠ vertex_hash v) as Hhv by congruence. split.
    + simpl. rewrite lookup_insert_ne by done. by exists r.
    + revert Hq. apply support_mono; [done|]. apply supporters_mono.
      * unfold vertex_round. simpl. by rewrite lookup_insert_ne.
      * intros r' w Hw. rewrite get_round_insert. case_decide; [|done]. apply elem_of_app. by left.
Qed.
Lemma add_vertex_inv v d d' r :
  dag_inv d → 0 ≤ vx_round v → add_vertex v d = (d', r) → dag_inv d'.
Proof.
  intros I Hr Hrun. unfold add_vertex in Hrun. run_unfold.
  destruct (Z.eqb_spec (vx_round v) 0); [by injection Hrun as <- <-|]. unfold dag_contains in Hrun.
  case_bool_decide as Hin; [by injection Hrun as <- <-|].
  destruct (check_parents d v); injection Hrun as <- <-; [|done].
  apply insert_vertex_inv; [done|lia|]. by apply eq_None_not_Some.
Qed.
Lemma mark_committed_inv h d d' r : dag_inv d → mark_committed h d = (d', r) → dag_inv d'.
Proof.
  intros I Hrun. unfold mark_committed, dag_contains in Hrun. run_unfold.
  case_bool_decide as Hin; simpl in Hrun; [|by injection Hrun as <- <-].
  destruct (has_quorum_support d h) eqn:Hq; simpl in Hrun; injection Hrun as <- <-; [|done].
  destruct I as [I1 I2 I3 I4]. split; [exact I1|exact I2|exact I3|]. simpl.
  intros h' [Hh%elem_of_singleton|Hh]%elem_of_union; [by subst h'|by apply I4].
Qed.

(** ** Garbage collection *)

Definition cutoff (keep_rounds : Z) d : Z := saturating_sub (latest_round d) keep_rounds.
(** A vertex [gc] drops. *)
Definition collected (keep_rounds : Z) d (r : Z) (h : Hash) : Prop :=
  r < cutoff keep_rounds d ∧ h ∈ dag_committed d.
#[export] Instance collected_dec keep d r h : Decision (collected keep d r h).
Proof. unfold collected. apply _. Defined.

Lemma get_round_gc keep d r :
  get_round (gc keep d).1 r = filter (λ v, ¬ collected keep d r (vertex_hash v)) (get_round d r).
Proof.
  unfold get_round. cbn [gc fst dag_vertices]. rewrite map_lookup_imap.
  fold (cutoff keep d). destruct (dag_vertices d !! r) as [vs|]; [|done]. simpl.
  unfold retain_round, collected. destruct (Z.leb_spec (cutoff keep d) r) as [Hle|Hlt].
  - simpl. symmetry. apply filter_keep. apply Forall_forall. intros v _ [Hv _]. lia.
  - assert (filter (λ v, ¬ (r < cutoff keep d ∧ vertex_hash v ∈ dag_committed d)) vs
      = filter (λ v, vertex_hash v ∉ dag_committed d) vs) as ->.
    { apply list_filter_iff. intros v. naive_solver. }
    by case_bool_decide as He; simpl.
Qed.
Lemma live_gc keep d h :
  h ∈ live_hashes (dag_vertices (gc keep d).1) ↔
  ∃ r v, v ∈ get_round (gc keep d).1 r ∧ vertex_hash v = h.
Proof.
  unfold live_hashes. rewrite elem_of_list_to_set, elem_of_concat. unfold get_round. split.
  - intros (hs & ([r vs] & -> & Hr%elem_of_map_to_list)%list_elem_of_fmap & Hh).
    apply list_elem_of_fmap in Hh as (v & -> & Hv). exists r, v. by rewrite Hr.
  - intros (r & v & Hv & <-).
    destruct (dag_vertices (gc keep d).1 !! r) as [vs|] eqn:Hr; [|by apply elem_of_nil in Hv].
    exists (map vertex_hash vs). split; [|by apply list_elem_of_fmap_2].
    apply list_elem_of_fmap. exists (r, vs). split; [done|]. by apply elem_of_map_to_list.
Qed.
Lemma live_spec keep d h r :
  dag_inv d → dag_index d !! h = Some r →
  h ∈ live_hashes (dag_vertices (gc keep d).1) ↔ ¬ collected keep d r h.
Proof.
  intros I Hh. rewrite live_gc. setoid_rewrite get_round_gc. setoid_rewrite list_elem_of_filter. split.
  - intros (r' & v & [Hc Hv] & <-). destruct (di_vertex _ I r' v Hv) as (_ & _ & Hi & _). congruence.
  - intros Hc. destruct (di_index _ I h r Hh) as (v & Hv & <-). eauto.
Qed.
Lemma gc_index keep d h r :
  dag_inv d → dag_index d !! h = Some r →
  dag_index (gc keep d).1 !! h = if decide (collected keep d r h) then None else Some r.
Proof.
  intros I Hh. pose proof (live_spec keep d h r I Hh) as Hl. cbn [gc fst dag_index dag_vertices] in *.
  case_decide as Hc.
  - apply map_lookup_filter_None. right. intros r' _. simpl. tauto.
  - apply map_lookup_filter_Some. split; [done|]. simpl. tauto.
Qed.
Lemma gc_inv keep d : dag_inv d → dag_inv (gc keep d).1.
Proof.
  intros I.
  assert (∀ h r, dag_index (gc keep d).1 !! h = Some r →
    dag_index d !! h = Some r ∧ ¬ collected keep d r h) as Hindex.
  { intros h r Hh. assert (dag_index d !! h = Some r) as Hd.
    { cbn [gc fst dag_index] in Hh. by apply map_lookup_filter_Some in Hh as [??]. }
    split; [done|]. rewrite (gc_index keep d h r I Hd) in Hh. by case_decide. }
  split.
  - intros r v. rewrite get_round_gc. intros [Hc Hv]%list_elem_of_filter.
    destruct (di_vertex _ I r v Hv) as (Hr & Hpos & Hi & He). split_and!; [done|done| |].
    + rewrite (gc_index keep d _ r I Hi). by rewrite decide_False.
    + apply (live_spec keep d _ r I Hi) in Hc. cbn [gc fst dag_edges dag_vertices] in *.
      by apply map_lookup_filter_Some.
  - intros h r [Hi Hc]%Hindex. destruct (di_index _ I h r Hi) as (v & Hv & <-). exists v.
    split; [|done]. rewrite get_round_gc. by apply list_elem_of_filter.
  - intros r. rewrite get_round_gc. apply NoDup_map_filter. apply I.
  - intros h Hh. cbn [gc fst dag_committed] in Hh. apply elem_of_filter in Hh as [Hlive Hh].
    destruct (di_committed _ I h Hh) as [[r Hi] Hq].
    assert (¬ collected keep d r h) as Hc by (by apply (live_spec keep d h r I Hi)).
    assert (dag_index (gc keep d).1 !! h = Some r) as Hi' by (by rewrite (gc_index keep d h r I Hi), decide_False).
    split; [by exists r|]. revert Hq. apply support_mono; [done|].
    rewrite (supporters_ext d (gc keep d).1 h); [done| |]; unfold vertex_round; [by rewrite Hi, Hi'|].
    intros r' Hr'. assert (r' = r) as -> by congruence. rewrite get_round_gc. symmetry.
    apply filter_keep. apply Forall_forall. intros v _ [Hlt _]. apply Hc. split; [lia|done].
Qed.

Inductive dag_step : DAG → DAG → Prop :=
| step_vertex v d d' r : 0 ≤ vx_round v → add_vertex v d = (d', r) → dag_step d d'
| step_commit h d d' r : mark_committed h d = (d', r) → dag_step d d'
| step_gc keep d : dag_step d (gc keep d).1.
Lemma dag_step_inv d d' : dag_step d d' → dag_inv d → dag_inv d'.
Proof. intros []; eauto using add_vertex_inv, mark_committed_inv, gc_inv. Qed.
End dag_facts.

(** ** Certificates *)

Lemma payload_inj v1 v2 h1 h2 :
  is_u64 v1 → is_u64 v2 → payload_for v1 h1 = payload_for v2 h2 → v1 = v2 ∧ h1 = h2.
Proof.
  intros H1 H2 Heq. unfold payload_for in Heq. apply app_inj_1 in Heq as [_ Heq]; [|done].
  apply app_inj_1 in Heq as [Hv Hh]; [|by rewrite !be_bytes_length].
  split; [|by apply array_eq]. apply (be_bytes_inj 8); [width..|done].
Qed.
(** Two sets inside a third overlap by at least what they exceed it by. *)
Lemma overlap `{Countable A} (X Y D : gset A) :
  X ⊆ D → Y ⊆ D → (size X + size Y ≤ size D + size (X ∩ Y))%nat.
Proof.
  intros HX HY. assert (size (X ∪ Y) ≤ size D)%nat by (apply subseteq_size; set_solver).
  rewrite size_union_alt in *.
  assert (size Y = size (Y ∖ X) + size (X ∩ Y))%nat; [|lia].
  rewrite <-size_union by set_solver. f_equal. apply set_eq. intros a.
  destruct (decide (a ∈ X)); set_solver.
Qed.

Section qc_facts.
Context `{!Curve, !Sha3}.
Implicit Types (s : HotStuff) (qc : QuorumCertificate).

(** An entry of a certificate that passes the checks. *)
Record entry_ok s (payload : bytes) (e : Address * bytes) : Prop := {
  eo_length : length e.2 = BLS_SIGNATURE_BYTES;
  eo_signed : ∃ pk sig, registry_public_key (hs_registry s) e.1 = Some pk ∧
    g2_decompress e.2 = Some sig ∧ bls_verify pk payload sig = true
}.
Lemma verify_signer_Ok s payload verified e verified' :
  verify_signer s payload verified e = Ok verified' ↔
  entry_ok s payload e ∧ e.1 ∉ verified ∧ verified' = {[e.1]} ∪ verified.
Proof.
  destruct e as [a raw]. unfold verify_signer. rewrite guard_Ok, ok_or_bind_Ok, negb_false_iff,
    bool_decide_eq_true. setoid_rewrite ok_or_bind_Ok. setoid_rewrite guard_Ok.
  setoid_rewrite guard_Ok. setoid_rewrite negb_false_iff. setoid_rewrite bool_decide_eq_false. split.
  - intros (Hl & pk & Hpk & sig & Hsig & Hv & Ha & [= <-]). split_and!; [|done..]. split; simpl; eauto.
  - intros ([Hl (pk & sig & Hpk & Hsig & Hv)] & Ha & ->). simpl in *. eauto 10.
Qed.
Lemma verify_signers_Ok s payload verified es verified' :
  try_fold (verify_signer s payload) verified es = Ok verified' ↔
  Forall (entry_ok s payload) es ∧ NoDup es.*1 ∧ (∀ a, a ∈ es.*1 → a ∉ verified) ∧
  verified' = list_to_set es.*1 ∪ verified.
Proof.
  revert verified. induction es as [|e es IH]; intros verified; simpl.
  - split.
    + intros [= <-]. split_and!; [constructor..|by intros a ?%elem_of_nil|]. set_solver.
    + intros (_ & _ & _ & ->). f_equal. set_solver.
  - rewrite bind_Ok. setoid_rewrite verify_signer_Ok. setoid_rewrite IH.
    rewrite Forall_cons, NoDup_cons. setoid_rewrite elem_of_cons. split.
    + intros (w & (He & Hn & ->) & Hes & Hnd & Hdis & ->).
      split_and!; try done; [|naive_solver set_solver|set_solver].
      intros Hin. apply (Hdis _ Hin). set_solver.
    + intros ([He Hes] & [Hnin Hnd] & Hdis & ->). exists ({[e.1]} ∪ verified).
      split; [by auto|]. split; [done|]. split; [done|]. split; [|set_solver].
      intros a Ha [Hv%elem_of_singleton|Hv]%elem_of_union; [by subst a|]. by apply (Hdis a); [right|].
Qed.
Lemma validate_qc_Ok s qc :
  validate_qc s qc = Ok () ↔
  vr_keys (hs_registry s) ≠ ∅ ∧ NoDup (qc_signatures qc).*1 ∧
  Forall (entry_ok s (qc_signing_payload qc)) (qc_signatures qc) ∧
  cc_quorum_threshold (hs_config s) ≤ Z.of_nat (length (qc_signatures qc)).
Proof.
  unfold validate_qc. rewrite guard_Ok, bind_Ok. unfold registry_is_empty.
  rewrite bool_decide_eq_false. setoid_rewrite fail_if_Ok. setoid_rewrite Z.ltb_ge.
  setoid_rewrite verify_signers_Ok. split.
  - intros (Hne & w & (Hall & Hnd & _ & ->) & Hsize). split_and!; try done.
    rewrite (right_id_L ∅ (∪)), size_list_to_set, length_fmap in Hsize by done. done.
  - intros (Hne & Hnd & Hall & Hsize). split; [done|].
    exists (list_to_set (qc_signatures qc).*1 ∪ ∅). split_and!; try done.
    by rewrite (right_id_L ∅ (∪)), size_list_to_set, length_fmap.
Qed.
Definition signers qc : gset Address := list_to_set (qc_signatures qc).*1.
Lemma qc_signers_size s qc :
  validate_qc s qc = Ok () → cc_quorum_threshold (hs_config s) ≤ Z.of_nat (size (signers qc)).
Proof.
  intros (_ & Hnd & _ & Hq)%validate_qc_Ok. unfold signers.
  by rewrite size_list_to_set, length_fmap.
Qed.
Lemma qc_signer s qc a :
  validate_qc s qc = Ok () → a ∈ signers qc →
  a ∈ dom (vr_keys (hs_registry s)) ∧
  ∃ raw, (a, raw) ∈ qc_signatures qc ∧ entry_ok s (qc_signing_payload qc) (a, raw).
Proof.
  intros (_ & _ & Hall & _)%validate_qc_Ok.
  intros ([b raw] & -> & Hin)%elem_of_list_to_set%list_elem_of_fmap.
  pose proof (proj1 (Forall_forall _ _) Hall _ Hin) as Hok.
  destruct (eo_signed _ _ _ Hok) as (pk & sig & Hpk & _). split; [|by exists raw].
  unfold registry_public_key in Hpk. by apply elem_of_dom_2 in Hpk.
Qed.

(** ** View state *)

Record hotstuff_inv s : Prop := {
  hi_locked : hs_locked_view s = from_option qc_view 0 (hs_high_qc s);
  hi_view : hs_locked_view s ≤ hs_view s;
  hi_range : is_u64 (hs_view s);
  hi_qc qc : hs_high_qc s = Some qc → validate_qc s qc = Ok ()
}.
Inductive hotstuff_step : HotStuff → HotStuff → Prop :=
| step_next_view s s' r : enter_next_view s = (s', r) → hotstuff_step s s'
| step_update qc s s' r : is_u64 (qc_view qc) → update_high_qc qc s = (s', r) → hotstuff_step s s'.
(** What a step can change. *)
Record advanced s s' : Prop := {
  av_config : hs_config s' = hs_config s;
  av_registry : hs_registry s' = hs_registry s;
  av_view : hs_view s ≤ hs_view s';
  av_locked : hs_locked_view s ≤ hs_locked_view s';
  av_qc : is_Some (hs_high_qc s) → is_Some (hs_high_qc s')
}.
Lemma advanced_refl s : advanced s s.
Proof. by split. Qed.
Lemma advanced_trans s1 s2 s3 : advanced s1 s2 → advanced s2 s3 → advanced s1 s3.
Proof. intros [] []. split; try congruence; try lia. auto. Qed.
Lemma validate_qc_ext s s' qc :
  hs_config s' = hs_config s → hs_registry s' = hs_registry s → validate_qc s' qc = validate_qc s qc.
Proof. destruct s, s'. simpl. by intros -> ->. Qed.
Lemma hotstuff_step_inv s s' : hotstuff_step s s' → hotstuff_inv s → hotstuff_inv s' ∧ advanced s s'.
Proof.
  intros [t t' r Hrun|qc t t' r Hqc Hrun] [Hl Hv Hr Hq].
  - unfold enter_next_view in Hrun. run_unfold.
    destruct (checked_add u64_max (hs_view t) 1) as [w|] eqn:Hw; injection Hrun as <- <-;
      [|split; [by split|apply advanced_refl]].
    apply checked_add_Some in Hw as [-> Hw]. split; split; simpl; try done; try width.
  - unfold update_high_qc in Hrun. run_unfold.
    destruct (validate_qc t qc) as [[]|] eqn:Hval; [|injection Hrun as <- <-; split; [by split|apply advanced_refl]].
    destruct (bool_decide _ && _)%bool eqn:Hold; injection Hrun as <- <-;
      [split; [by split|apply advanced_refl]|].
    assert (hs_locked_view t ≤ qc_view qc) as Hle.
    { rewrite Hl. destruct (hs_high_qc t) as [old|]; simpl in *; [|width].
      by apply Z.leb_gt in Hold; lia. }
    split; split; simpl; try done; try width. by intros q [= <-].
Qed.
End qc_facts.

(** ** Properties *)

(** C12. Quorum intersection: with [n = 3f + 1] validators of which at most [f]
    are faulty, any two certificates that pass [validate_qc] share a validator
    that is not faulty and whose registered key verifies a signature in each;
    and certificates for different blocks or views are signatures over different
    bytes, so the second conflicting signature is proof of equivocation. *)
Theorem qc_intersection `{!Curve, !Sha3} (s : HotStuff) (n f : Z) (qc1 qc2 : QuorumCertificate)
    (faulty : gset Address) :
  consensus_config_new n = Ok (hs_config s) → n = 3 * f + 1 → registry_len (hs_registry s) ≤ n →
  validate_qc s qc1 = Ok () → validate_qc s qc2 = Ok () →
  is_u64 (qc_view qc1) → is_u64 (qc_view qc2) → Z.of_nat (size faulty) ≤ f →
  (∃ a raw1 raw2, a ∉ faulty ∧
     (a, raw1) ∈ qc_signatures qc1 ∧ entry_ok s (qc_signing_payload qc1) (a, raw1) ∧
     (a, raw2) ∈ qc_signatures qc2 ∧ entry_ok s (qc_signing_payload qc2) (a, raw2)) ∧
  (qc_signing_payload qc1 = qc_signing_payload qc2 →
     qc_view qc1 = qc_view qc2 ∧ qc_block_hash qc1 = qc_block_hash qc2).
Proof.
  intros Hc Hn Hlen H1 H2 Hv1 Hv2 Hf. split;
    [|intros Hp; exact (payload_inj _ _ _ _ Hv1 Hv2 Hp)].
  apply guard_Ok in Hc as [_ [= Hc]]. unfold registry_len in Hlen.
  pose proof (qc_signers_size s qc1 H1) as Hs1. pose proof (qc_signers_size s qc2 H2) as Hs2.
  rewrite <-Hc in Hs1, Hs2. simpl in Hs1, Hs2.
  assert ((n - 1) `div` 3 = f) as Hdiv by (subst n; Z.to_euclidean_division_equations; lia).
  assert (∀ qc, validate_qc s qc = Ok () → signers qc ⊆ dom (vr_keys (hs_registry s))) as Hsub.
  { intros qc Hqc a Ha. by apply (qc_signer s qc a). }
  pose proof (overlap _ _ _ (Hsub qc1 H1) (Hsub qc2 H2)) as Hov. rewrite size_dom in Hov.
  destruct (set_choose_or_empty ((signers qc1 ∩ signers qc2) ∖ faulty)) as [[a Ha]|He].
  - apply elem_of_difference in Ha as [[Ha1 Ha2]%elem_of_intersection Hnf].
    destruct (qc_signer s qc1 a H1 Ha1) as (_ & raw1 & ? & ?).
    destruct (qc_signer s qc2 a H2 Ha2) as (_ & raw2 & ? & ?). by exists a, raw1, raw2.
  - exfalso. assert (signers qc1 ∩ signers qc2 ⊆ faulty) as Hin.
    { intros a Ha. destruct (decide (a ∈ faulty)) as [|Hnf]; [done|]. set_solver. }
    apply subseteq_size in Hin. lia.
Qed.

(** C34. The view state only advances: along any run of view changes and
    certificate updates, failed ones included, the view and the locked view
    never decrease, the highest certificate is one that passes [validate_qc] and
    its view is the lock, and a proposal is refused exactly when a certificate
    is held and the proposal's view is not above it. *)
Theorem hotstuff_monotone `{!Curve, !Sha3} (c : ConsensusConfig) (r : ValidatorRegistry)
    (s s' : HotStuff) :
  rtc hotstuff_step (hotstuff_new c r) s → rtc hotstuff_step s s' →
  hs_view s ≤ hs_view s' ∧ hs_locked_view s ≤ hs_locked_view s' ∧ hs_locked_view s' ≤ hs_view s' ∧
  (∀ qc, hs_high_qc s' = Some qc → validate_qc s' qc = Ok () ∧ hs_locked_view s' = qc_view qc) ∧
  (∀ view, is_safe_proposal s view = false ↔ ∃ qc, hs_high_qc s = Some qc ∧ view ≤ qc_view qc) ∧
  (∀ view, is_safe_proposal s view = false → is_safe_proposal s' view = false).
Proof.
  intros Hs Hs'.
  assert (∀ t t', rtc hotstuff_step t t' → hotstuff_inv t → hotstuff_inv t' ∧ advanced t t') as Hrun.
  { induction 1 as [t|t1 t2 t3 Hstep _ IH]; intros I; [by split; [|apply advanced_refl]|].
    destruct (hotstuff_step_inv _ _ Hstep I) as [I2 A2]. destruct (IH I2) as [I3 A3].
    split; [done|by eapply advanced_trans]. }
  assert (hotstuff_inv (hotstuff_new c r)) as I0 by (split; simpl; done || width).
  destruct (Hrun _ _ Hs I0) as [I _]. destruct (Hrun _ _ Hs' I) as [I' A].
  assert (∀ t view, hotstuff_inv t →
    is_safe_proposal t view = false ↔ ∃ qc, hs_high_qc t = Some qc ∧ view ≤ qc_view qc) as Hsafe.
  { intros t view It. unfold is_safe_proposal. rewrite orb_false_iff, Z.ltb_ge, negb_false_iff,
      bool_decide_eq_true, (hi_locked _ It). destruct (hs_high_qc t) as [qc|]; simpl; split.
    - intros [Hle _]. by exists qc.
    - intros (qc' & [= <-] & Hle). by split; [|eexists].
    - intros [_ [? [=]]].
    - by intros (? & [=] & _). }
  split_and!; [apply A|apply A|apply I'| |by intros view; apply Hsafe|].
  - intros qc Hqc. split; [by apply (hi_qc _ I')|]. by rewrite (hi_locked _ I'), Hqc.
  - intros view. rewrite !Hsafe by done. intros (qc & Hqc & Hle).
    destruct (av_qc _ _ A ltac:(by exists qc)) as [qc' Hqc']. exists qc'. split; [done|].
    pose proof (av_locked _ _ A) as Hl. rewrite (hi_locked _ I), (hi_locked _ I'), Hqc, Hqc' in Hl.
    simpl in Hl. lia.
Qed.

(** C27. After any sequence of vertex insertions, commits and garbage
    collections, failed ones included, the indexes describe exactly the stored
    vertices; every committed vertex is known and referenced by at least a quorum
    of distinct next-round authors; and [gc] drops precisely the committed
    vertices more than [keep_rounds] behind the newest round. *)
Theorem dag_reachable `{!Blake3, !Serialize BlockHeader, !Serialize (Address * Z * Hash * list Hash)}
    (c : ConsensusConfig) (d : DAG) :
  rtc dag_step (dag_new c) d →
  (∀ h r, vertex_round d h = Some r ↔ ∃ v, v ∈ get_round d r ∧ vertex_hash v = h) ∧
  (∀ r v, v ∈ get_round d r →
     vx_round v = r ∧ 1 ≤ r ∧ parents_of d (vertex_hash v) = Some (vx_parents v)) ∧
  (∀ h, is_committed d h = true → dag_contains d h = true ∧
     cc_quorum_threshold (dag_config d) ≤ Z.of_nat (size (supporters d h))) ∧
  (∀ keep h r, vertex_round d h = Some r →
     vertex_round (gc keep d).1 h
     = if (r <? saturating_sub (latest_round d) keep) && is_committed d h then None else Some r).
Proof.
  intros Hreach. assert (dag_inv d) as I.
  { pose proof (dag_new_inv c) as I0. revert I0. generalize dependent (dag_new c). intros d0 Hr.
    induction Hr as [|d1 d2 d3 Hs _ IH]; [done|]. intros I1. apply IH. by eapply dag_step_inv. }
  split_and!.
  - intros h r. split; [apply (di_index _ I)|]. intros (v & Hv & <-). by apply (di_vertex _ I).
  - intros r v Hv. destruct (di_vertex _ I r v Hv) as (? & ? & ? & ?). done.
  - intros h Hh%bool_decide_eq_true. destruct (di_committed _ I h Hh) as [Hi Hq%Z.leb_le].
    split; [by apply bool_decide_eq_true|done].
  - intros keep h r Hr. unfold vertex_round. rewrite (gc_index keep d h r I Hr).
    unfold collected, cutoff, is_committed. destruct (Z.ltb_spec r (saturating_sub (latest_round d) keep)).
    + case_bool_decide; simpl; [by rewrite decide_True|by rewrite decide_False by naive_solver].
    + rewrite decide_False by lia. done.
Qed.

(** *** Concrete runs *)
Import RefCurve.

Definition hash_of (z : Z) : Hash := array_repeat (byte_of z) HASH_SIZE.
(** [n] validators with secret keys [1..n], on the reference curve. *)
Definition registry_of (n : Z) : ValidatorRegistry :=
  {| vr_keys := list_to_map (map (λ k, (addr k, public_of k)) (seqZ 1 n)) |}.
Definition config_of (n : Z) : ConsensusConfig :=
  {| cc_validator_count := n; cc_quorum_threshold := 2 * ((n - 1) `div` 3) + 1;
     cc_max_faulty := (n - 1) `div` 3; cc_block_time_ms := DEFAULT_BLOCK_TIME_MS;
     cc_dag_round_timeout_ms := 500 |}.
Definition replica (n : Z) : HotStuff := hotstuff_new (config_of n) (registry_of n).
Definition certificate (view : Z) (h : Hash) (keys : list Z) : QuorumCertificate :=
  {| qc_view := view; qc_block_hash := h;
     qc_signatures := map (λ k, (addr k, le_bytes 96 (bls_sign k (payload_for view h)))) keys |}.

Lemma qc_intersection_witness :
  ∃ a raw1 raw2, a ∉ ({[addr 2]} : gset Address) ∧
    (a, raw1) ∈ qc_signatures (certificate 5 (hash_of 1) [1; 2; 3]) ∧
    (a, raw2) ∈ qc_signatures (certificate 5 (hash_of 2) [2; 3; 4]).
Proof.
  assert (validate_qc (replica 4) (certificate 5 (hash_of 1) [1; 2; 3]) = Ok ()) as H1 by (by vm_compute).
  assert (validate_qc (replica 4) (certificate 5 (hash_of 2) [2; 3; 4]) = Ok ()) as H2 by (by vm_compute).
  destruct (proj1 (qc_intersection (replica 4) 4 1 _ _ {[addr 2]} eq_refl eq_refl
    ltac:(by apply Z.leb_le; vm_compute) H1 H2 ltac:(by apply (bool_decide_unpack _))
    ltac:(by apply (bool_decide_unpack _)) ltac:(by rewrite size_singleton)))
    as (a & raw1 & raw2 & Ha & Hr1 & _ & Hr2 & _).
  exists a, raw1, raw2. exact (conj Ha (conj Hr1 Hr2)).
Defined.
Lemma hotstuff_monotone_witness :
  let s1 := (update_high_qc (certificate 5 (hash_of 1) [1; 2; 3]) (replica 4)).1 in
  let s2 := (enter_next_view s1).1 in
  is_safe_proposal s1 5 = false ∧ is_safe_proposal s2 5 = false.
Proof.
  intros s1 s2. assert (is_safe_proposal s1 5 = false) as Hs by (by vm_compute). split; [exact Hs|].
  apply (hotstuff_monotone (config_of 4) (registry_of 4) s1 s2); [| |exact Hs]; apply rtc_once.
  - apply (step_update (certificate 5 (hash_of 1) [1; 2; 3]) (replica 4) s1
      (update_high_qc (certificate 5 (hash_of 1) [1; 2; 3]) (replica 4)).2).
    + by apply (bool_decide_unpack _).
    + apply surjective_pairing.
  - apply (step_next_view s1 s2 (enter_next_view s1).2). apply surjective_pairing.
Defined.

(** With three validators the threshold is one signature: two replicas that each
    vote once in a view yield two valid certificates for different blocks. *)
Lemma quorum_too_small :
  consensus_config_new 3 = Ok (config_of 3) ∧ registry_len (registry_of 3) = 3 ∧
  validate_qc (replica 3) (certificate 5 (hash_of 1) [1]) = Ok () ∧
  validate_qc (replica 3) (certificate 5 (hash_of 2) [2]) = Ok ().
Proof. by vm_compute. Qed.
(** A refused duplicate registration has already replaced the validator's key. *)
Lemma register_overwrites :
  let '(r, outcome) := register (addr 1) (public_of 9) (proof_of_possession 9) (registry_of 3) in
  outcome = Err (DuplicateValidator (addr 1)) ∧
  registry_public_key (registry_of 3) (addr 1) = Some (public_of 1) ∧
  registry_public_key r (addr 1) = Some (public_of 9).
Proof. by vm_compute. Qed.

Module RefDag.
#[export] Instance ser_header : Serialize BlockHeader := λ h, le_bytes 8 (hdr_height h).
#[export] Instance ser_vertex : Serialize (Address * Z * Hash * list Hash) :=
  λ '(a, r, h, ps), array_bytes a ++ le_bytes 8 r ++ array_bytes h ++ concat (map array_bytes ps).
End RefDag.
Import RefDag.
Definition sample_block : Block :=
  {| blk_header :=
       {| hdr_version := 1; hdr_chain_id := 1; hdr_height := 1; hdr_timestamp := 7;
          hdr_parent_hash := Hash_ZERO; hdr_state_root := Hash_ZERO; hdr_tx_root := Hash_ZERO;
          hdr_receipt_root := Hash_ZERO; hdr_validator := Address_ZERO; hdr_gas_used := 0;
          hdr_gas_limit := BLOCK_GAS_LIMIT; hdr_extra_data := [] |};
     blk_transactions := []; blk_signatures := [] |}.
Definition vertex (a r : Z) (ps : list Hash) : DAGVertex :=
  {| vx_author := addr a; vx_round := r; vx_block := sample_block; vx_parents := ps; vx_signature := [] |}.
Definition dag1 : DAG := (add_vertex (vertex 1 1 []) (dag_new (config_of 1))).1.
Definition root_hash : Hash := vertex_hash (vertex 1 1 []).
Definition dag2 : DAG := (add_vertex (vertex 2 2 [root_hash]) dag1).1.
Definition dag3 : DAG := (mark_committed root_hash dag2).1.
Lemma dag_reachable_witness :
  is_committed dag3 root_hash = true ∧
  1 ≤ Z.of_nat (size (supporters dag3 root_hash)).
Proof.
  assert (is_committed dag3 root_hash = true) as Hc by (by vm_compute). split; [exact Hc|].
  refine (proj2 (proj1 (proj2 (proj2 (dag_reachable (config_of 1) dag3 _))) root_hash Hc)).
  eapply rtc_l; [|eapply rtc_l; [|apply rtc_once]].
  - eapply (step_vertex (vertex 1 1 [])); [simpl; lia|]. apply (surjective_pairing (add_vertex _ _)).
  - eapply (step_vertex (vertex 2 2 [root_hash])); [simpl; lia|].
    apply (surjective_pairing (add_vertex _ dag1)).
  - eapply step_commit. apply (surjective_pairing (mark_committed root_hash dag2)).
Defined.

