(* ===== verification/Ibc.v ===== *)
(** * [subhost-ibc]: the local packet state machine

    [crates/subhost-ibc/src/lib.rs]: channel handshake, outbound and inbound
    packets, acknowledgements and timeouts, as computations in [ST IbcModule
    IbcError]. The clock is an argument and the payload's JSON codec an
    interface. *)

From Stdlib Require Import String.
From S2P Require Import Prelude Order Text Deps Bincode Core.

Definition MAX_PACKET_BYTES : Z := 128 * 1024.
Definition DEFAULT_TIMEOUT_BLOCKS : Z := 1000.
Definition DEFAULT_TIMEOUT_SECONDS : Z := 600.

Record IbcConfig := {
  ic_enabled : bool;
  ic_chain_id : string;
  ic_connection_id : string;
  ic_client_id : string;
  ic_counterparty_chain_id : string
}.
Definition ibc_config_default : IbcConfig :=
  {| ic_enabled := true; ic_chain_id := "subhost-1"; ic_connection_id := "connection-0";
     ic_client_id := "07-tendermint-0"; ic_counterparty_chain_id := "cosmoshub-4" |}.

Inductive ChannelState := Init | TryOpen | Open | Closed.
Inductive ChannelOrdering := Unordered | Ordered.
#[export] Instance channel_state_eq_dec : EqDecision ChannelState.
Proof. solve_decision. Defined.
#[export] Instance channel_ordering_eq_dec : EqDecision ChannelOrdering.
Proof. solve_decision. Defined.
Record IbcChannel := {
  ch_channel_id : string;
  ch_port_id : string;
  ch_state : ChannelState;
  ch_ordering : ChannelOrdering;
  ch_counterparty_channel_id : string;
  ch_counterparty_port_id : string
}.
Definition is_open (c : IbcChannel) : bool := match ch_state c with Open => true | _ => false end.

Record IbcPacket := {
  pk_sequence : Z;
  pk_source_port : string;
  pk_source_channel : string;
  pk_destination_port : string;
  pk_destination_channel : string;
  pk_data : bytes;
  pk_timeout_height : Z;
  pk_timeout_timestamp : Z
}.
Record IbcTransfer := {
  tf_sender : Address;
  tf_receiver : string;
  tf_token : string;
  tf_amount : Z;
  tf_source_channel : string
}.

Inductive IbcError :=
| Disabled
| ChannelNotFound (channel_id : string)
| ChannelNotOpen (channel_id : string) (state : ChannelState)
| InvalidChannelTransition (from to : ChannelState)
| InvalidChannel (message : string)
| InvalidPacket (message : string)
| InvalidTransfer (message : string)
| PacketTooLarge (provided max : Z)
| PacketTimedOut
| PacketNotExpired
| Replay
| UnknownPacket (sequence : Z)
| InvalidSequence (expected got : Z)
| SequenceOverflow
| IbcSerialization (message : string).

Definition transfer_validate (t : IbcTransfer) : result IbcError unit :=
  _ ← fail_if (tf_amount t =? 0) (InvalidTransfer "amount must be > 0");
  _ ← fail_if (is_empty (trim (tf_receiver t))) (InvalidTransfer "receiver is required");
  fail_if (is_empty (trim (tf_token t))) (InvalidTransfer "token denomination is required").

Record IbcModule := {
  im_config : IbcConfig;
  im_channels : gmap string IbcChannel;
  im_sent_packets : gmap Z IbcPacket;
  im_next_sequence_send : Z;
  im_next_sequence_recv : gmap string Z;
  im_current_height : Z;
  im_received_packets : gset (string * Z);
  im_acknowledged_packets : gset Z
}.
Definition ibc_new (c : IbcConfig) : IbcModule :=
  {| im_config := c; im_channels := ∅; im_sent_packets := ∅; im_next_sequence_send := 1;
     im_next_sequence_recv := ∅; im_current_height := 0; im_received_packets := ∅;
     im_acknowledged_packets := ∅ |}.

(** Field updates. *)
Definition with_channels (f : gmap string IbcChannel → gmap string IbcChannel) (s : IbcModule) : IbcModule :=
  {| im_config := im_config s; im_channels := f (im_channels s); im_sent_packets := im_sent_packets s;
     im_next_sequence_send := im_next_sequence_send s; im_next_sequence_recv := im_next_sequence_recv s;
     im_current_height := im_current_height s; im_received_packets := im_received_packets s;
     im_acknowledged_packets := im_acknowledged_packets s |}.
Definition with_sent (f : gmap Z IbcPacket → gmap Z IbcPacket) (s : IbcModule) : IbcModule :=
  {| im_config := im_config s; im_channels := im_channels s; im_sent_packets := f (im_sent_packets s);
     im_next_sequence_send := im_next_sequence_send s; im_next_sequence_recv := im_next_sequence_recv s;
     im_current_height := im_current_height s; im_received_packets := im_received_packets s;
     im_acknowledged_packets := im_acknowledged_packets s |}.
Definition with_next_send (n : Z) (s : IbcModule) : IbcModule :=
  {| im_config := im_config s; im_channels := im_channels s; im_sent_packets := im_sent_packets s;
     im_next_sequence_send := n; im_next_sequence_recv := im_next_sequence_recv s;
     im_current_height := im_current_height s; im_received_packets := im_received_packets s;
     im_acknowledged_packets := im_acknowledged_packets s |}.
Definition with_next_recv (f : gmap string Z → gmap string Z) (s : IbcModule) : IbcModule :=
  {| im_config := im_config s; im_channels := im_channels s; im_sent_packets := im_sent_packets s;
     im_next_sequence_send := im_next_sequence_send s; im_next_sequence_recv := f (im_next_sequence_recv s);
     im_current_height := im_current_height s; im_received_packets := im_received_packets s;
     im_acknowledged_packets := im_acknowledged_packets s |}.
Definition with_received (f : gset (string * Z) → gset (string * Z)) (s : IbcModule) : IbcModule :=
  {| im_config := im_config s; im_channels := im_channels s; im_sent_packets := im_sent_packets s;
     im_next_sequence_send := im_next_sequence_send s; im_next_sequence_recv := im_next_sequence_recv s;
     im_current_height := im_current_height s; im_received_packets := f (im_received_packets s);
     im_acknowledged_packets := im_acknowledged_packets s |}.
Definition with_acknowledged (f : gset Z → gset Z) (s : IbcModule) : IbcModule :=
  {| im_config := im_config s; im_channels := im_channels s; im_sent_packets := im_sent_packets s;
     im_next_sequence_send := im_next_sequence_send s; im_next_sequence_recv := im_next_sequence_recv s;
     im_current_height := im_current_height s; im_received_packets := im_received_packets s;
     im_acknowledged_packets := f (im_acknowledged_packets s) |}.
Definition set_current_height (h : Z) (s : IbcModule) : IbcModule :=
  {| im_config := im_config s; im_channels := im_channels s; im_sent_packets := im_sent_packets s;
     im_next_sequence_send := im_next_sequence_send s; im_next_sequence_recv := im_next_sequence_recv s;
     im_current_height := h; im_received_packets := im_received_packets s;
     im_acknowledged_packets := im_acknowledged_packets s |}.

Definition ensure_enabled : ST IbcModule IbcError unit :=
  s ← st_get; st_fail_if (negb (ic_enabled (im_config s))) Disabled.

Definition open_channel (port_id counterparty_port counterparty_channel : string)
  (ordering : ChannelOrdering) : ST IbcModule IbcError string :=
  _ ← ensure_enabled;
  _ ← st_fail_if (is_empty (trim port_id) || is_empty (trim counterparty_port))
        (InvalidChannel "port IDs are required");
  _ ← st_fail_if (is_empty (trim counterparty_channel))
        (InvalidChannel "counterparty channel ID is required");
  s ← st_get;
  let channel_id := "channel-" +:+ fmt_dec (Z.of_nat (size (im_channels s))) in
  _ ← st_modify (with_channels
        (<[channel_id := {| ch_channel_id := channel_id; ch_port_id := port_id; ch_state := Init;
                            ch_ordering := ordering;
                            ch_counterparty_channel_id := counterparty_channel;
                            ch_counterparty_port_id := counterparty_port |}]>));
  mret channel_id.

Definition transition_allowed (from to : ChannelState) : bool :=
  match from, to with
  | Init, (TryOpen | Open) => true
  | TryOpen, Open => true
  | (Init | TryOpen | Open), Closed => true
  | _, _ => false
  end.
Definition set_state_of (state : ChannelState) (c : IbcChannel) : IbcChannel :=
  {| ch_channel_id := ch_channel_id c; ch_port_id := ch_port_id c; ch_state := state;
     ch_ordering := ch_ordering c; ch_counterparty_channel_id := ch_counterparty_channel_id c;
     ch_counterparty_port_id := ch_counterparty_port_id c |}.
Definition set_channel_state (channel_id : string) (state : ChannelState) : ST IbcModule IbcError unit :=
  _ ← ensure_enabled;
  s ← st_get;
  channel ← st_lift (ok_or (im_channels s !! channel_id) (ChannelNotFound channel_id));
  _ ← st_fail_if (negb (transition_allowed (ch_state channel) state))
        (InvalidChannelTransition (ch_state channel) state);
  st_modify (with_channels (<[channel_id := set_state_of state channel]>)).

Definition expected_recv_sequence (s : IbcModule) (channel_id : string) : Z :=
  default 1 (im_next_sequence_recv s !! channel_id).

Definition timed_out (now : Z) (s : IbcModule) (p : IbcPacket) : bool :=
  (negb (pk_timeout_height p =? 0) && (pk_timeout_height p <=? im_current_height s))
  || (negb (pk_timeout_timestamp p =? 0) && (pk_timeout_timestamp p <=? unix_timestamp now)).

Section packets.
Context `{!SerdeJson IbcTransfer}.

Definition outbound_packet (now : Z) (s : IbcModule) (c : IbcChannel) (t : IbcTransfer) (data : bytes)
  : IbcPacket :=
  {| pk_sequence := im_next_sequence_send s;
     pk_source_port := ch_port_id c;
     pk_source_channel := tf_source_channel t;
     pk_destination_port := ch_counterparty_port_id c;
     pk_destination_channel := ch_counterparty_channel_id c;
     pk_data := data;
     pk_timeout_height := saturating_add u64_max (im_current_height s) DEFAULT_TIMEOUT_BLOCKS;
     pk_timeout_timestamp := saturating_add u64_max (unix_timestamp now) DEFAULT_TIMEOUT_SECONDS |}.
Definition send_transfer (now : Z) (t : IbcTransfer) : ST IbcModule IbcError Z :=
  _ ← ensure_enabled;
  _ ← st_lift (transfer_validate t);
  s ← st_get;
  channel ← st_lift (ok_or (im_channels s !! tf_source_channel t) (ChannelNotFound (tf_source_channel t)));
  _ ← st_fail_if (negb (is_open channel)) (ChannelNotOpen (tf_source_channel t) (ch_state channel));
  let data := str_bytes (to_json t) in
  _ ← st_fail_if (MAX_PACKET_BYTES <? Z.of_nat (length data))
        (PacketTooLarge (Z.of_nat (length data)) MAX_PACKET_BYTES);
  let sequence := im_next_sequence_send s in
  let packet := outbound_packet now s channel t data in
  next ← st_lift (ok_or (checked_add u64_max sequence 1) SequenceOverflow);
  _ ← st_modify (with_next_send next);
  _ ← st_modify (with_sent (<[sequence := packet]>));
  mret sequence.

(** The checks of [receive_packet] before it touches the state. *)
Definition check_packet (now : Z) (p : IbcPacket) (s : IbcModule) : result IbcError IbcTransfer :=
  _ ← fail_if (pk_sequence p =? 0) (InvalidPacket "sequence must be >= 1");
  _ ← fail_if (bool_decide (pk_data p = [])) (InvalidPacket "payload is empty");
  _ ← fail_if (MAX_PACKET_BYTES <? Z.of_nat (length (pk_data p)))
        (PacketTooLarge (Z.of_nat (length (pk_data p))) MAX_PACKET_BYTES);
  channel ← ok_or (im_channels s !! pk_destination_channel p) (ChannelNotFound (pk_destination_channel p));
  _ ← fail_if (match ch_state channel with Open | TryOpen => false | _ => true end)
        (ChannelNotOpen (pk_destination_channel p) (ch_state channel));
  _ ← fail_if (negb (bool_decide (ch_counterparty_channel_id channel = pk_source_channel p))
               || negb (bool_decide (ch_counterparty_port_id channel = pk_source_port p))
               || negb (bool_decide (ch_port_id channel = pk_destination_port p)))
        (InvalidPacket "packet does not match the channel's counterparty binding");
  _ ← fail_if ((pk_timeout_height p =? 0) && (pk_timeout_timestamp p =? 0))
        (InvalidPacket "at least one timeout must be set");
  _ ← fail_if (timed_out now s p) PacketTimedOut;
  _ ← fail_if (bool_decide ((pk_source_channel p, pk_sequence p) ∈ im_received_packets s)) Replay;
  let expected := expected_recv_sequence s (pk_destination_channel p) in
  _ ← fail_if (bool_decide (ch_ordering channel = Ordered) && negb (pk_sequence p =? expected))
        (InvalidSequence expected (pk_sequence p));
  transfer ← map_err IbcSerialization (from_json (bytes_str (pk_data p)));
  _ ← transfer_validate transfer;
  _ ← fail_if (negb (bool_decide (tf_source_channel transfer = pk_source_channel p)))
        (InvalidPacket "transfer source channel does not match the packet");
  Ok transfer.
(** The receipt is recorded, and the channel's counter created, before the
    counter's overflow check. *)
Definition receive_packet (now : Z) (p : IbcPacket) : ST IbcModule IbcError IbcTransfer :=
  _ ← ensure_enabled;
  s ← st_get;
  transfer ← st_lift (check_packet now p s);
  _ ← st_modify (with_received (λ r, {[(pk_source_channel p, pk_sequence p)]} ∪ r));
  let next := expected_recv_sequence s (pk_destination_channel p) in
  _ ← st_modify (with_next_recv (<[pk_destination_channel p := next]>));
  next ← st_lift (ok_or (checked_add u64_max (Z.max next (pk_sequence p)) 1) SequenceOverflow);
  _ ← st_modify (with_next_recv (<[pk_destination_channel p := next]>));
  mret transfer.
End packets.

Definition acknowledge_packet (sequence : Z) : ST IbcModule IbcError unit :=
  _ ← ensure_enabled;
  s ← st_get;
  _ ← st_fail_if (negb (bool_decide (is_Some (im_sent_packets s !! sequence)))) (UnknownPacket sequence);
  _ ← st_fail_if (bool_decide (sequence ∈ im_acknowledged_packets s)) Replay;
  st_modify (with_acknowledged (λ a, {[sequence]} ∪ a)).
Definition timeout_packet (now : Z) (sequence : Z) : ST IbcModule IbcError IbcPacket :=
  _ ← ensure_enabled;
  s ← st_get;
  packet ← st_lift (ok_or (im_sent_packets s !! sequence) (UnknownPacket sequence));
  _ ← st_fail_if (bool_decide (sequence ∈ im_acknowledged_packets s))
        (InvalidPacket "an acknowledged packet cannot time out");
  _ ← st_fail_if (negb (timed_out now s packet)) PacketNotExpired;
  _ ← st_modify (with_sent (delete sequence));
  mret packet.

Definition channel (s : IbcModule) (channel_id : string) : option IbcChannel := im_channels s !! channel_id.
Definition channel_count (s : IbcModule) : Z := Z.of_nat (size (im_channels s)).
Definition sent_packet (s : IbcModule) (sequence : Z) : option IbcPacket := im_sent_packets s !! sequence.
Definition is_acknowledged (s : IbcModule) (sequence : Z) : bool :=
  bool_decide (sequence ∈ im_acknowledged_packets s).
Definition has_received (s : IbcModule) (source_channel : string) (sequence : Z) : bool :=
  bool_decide ((source_channel, sequence) ∈ im_received_packets s).

(** ** Runs

    One call of the module's interface, and what an observer sees of it: the
    packets sent, accepted, acknowledged and timed out. *)
Inductive IbcOp :=
| OpHeight (h : Z)
| OpOpen (port counterparty_port counterparty_channel : string) (ordering : ChannelOrdering)
| OpState (channel_id : string) (state : ChannelState)
| OpSend (now : Z) (t : IbcTransfer)
| OpReceive (now : Z) (p : IbcPacket)
| OpAck (sequence : Z)
| OpTimeout (now sequence : Z).
Inductive IbcEvent :=
| Sent (sequence : Z)
| Received (p : IbcPacket)
| Acked (sequence : Z)
| TimedOut (sequence : Z).
Definition observe {A} (f : A → IbcEvent) (r : IbcModule * result IbcError A) : IbcModule * list IbcEvent :=
  match r with (s, Ok a) => (s, [f a]) | (s, Err _) => (s, []) end.

Section runs.
Context `{!SerdeJson IbcTransfer}.

Definition ibc_op (op : IbcOp) (s : IbcModule) : IbcModule * list IbcEvent :=
  match op with
  | OpHeight h => (set_current_height h s, [])
  | OpOpen port cport cchannel ordering => ((open_channel port cport cchannel ordering s).1, [])
  | OpState channel_id state => ((set_channel_state channel_id state s).1, [])
  | OpSend now t => observe Sent (send_transfer now t s)
  | OpReceive now p => observe (λ _, Received p) (receive_packet now p s)
  | OpAck sequence => observe (λ _, Acked sequence) (acknowledge_packet sequence s)
  | OpTimeout now sequence => observe (λ _, TimedOut sequence) (timeout_packet now sequence s)
  end.
Fixpoint ibc_run (ops : list IbcOp) (s : IbcModule) : IbcModule * list IbcEvent :=
  match ops with
  | [] => (s, [])
  | op :: ops => let '(s, evs) := ibc_op op s in let '(s, evs') := ibc_run ops s in (s, evs ++ evs')
  end.
End runs.

(** ** What each call does *)

Definition receipt_key (p : IbcPacket) : string * Z := (pk_source_channel p, pk_sequence p).
(** The packet is addressed to channel [c] from its counterparty. *)
Record bound (p : IbcPacket) (c : IbcChannel) : Prop := {
  bd_channel : ch_counterparty_channel_id c = pk_source_channel p;
  bd_port : ch_counterparty_port_id c = pk_source_port p;
  bd_local : ch_port_id c = pk_destination_port p
}.
Record acceptable `{!SerdeJson IbcTransfer} (now : Z) (p : IbcPacket) (s : IbcModule) (c : IbcChannel)
  (t : IbcTransfer) : Prop := {
  ac_channel : im_channels s !! pk_destination_channel p = Some c;
  ac_state : ch_state c = Open ∨ ch_state c = TryOpen;
  ac_bound : bound p c;
  ac_timeout : timed_out now s p = false;
  ac_fresh : receipt_key p ∉ im_received_packets s;
  ac_order : ch_ordering c = Ordered → pk_sequence p = expected_recv_sequence s (pk_destination_channel p);
  ac_transfer : from_json (bytes_str (pk_data p)) = Ok t;
  ac_valid : transfer_validate t = Ok ()
}.

Section calls.
Context `{!SerdeJson IbcTransfer}.

Lemma check_packet_Ok now p s t :
  check_packet now p s = Ok t → ∃ c, acceptable now p s c t.
Proof.
  unfold check_packet. intros (_ & (_ & (_ & Hrun)%guard_Ok)%guard_Ok)%guard_Ok.
  apply ok_or_bind_Ok in Hrun as (c & Hc & (Hst & (Hb & (_ & Hrun)%guard_Ok)%guard_Ok)%guard_Ok).
  apply guard_Ok in Hrun as (Hto & (Hfr & (Hord & Hrun)%guard_Ok)%guard_Ok).
  apply map_err_bind_Ok in Hrun as (t' & Ht & Hrun). apply bind_Ok in Hrun as ([] & Hv & Hrun).
  apply guard_Ok in Hrun as [_ [= <-]]. bool_hyps. exists c. split; try done.
  - destruct (ch_state c); naive_solver.
  - intros Ho. rewrite Ho in Hord. simpl in Hord. by bool_hyps.
Qed.
(** The receipt alone, as an overflowing receive leaves it. *)
Definition receipted (p : IbcPacket) (next : Z) (s : IbcModule) : IbcModule :=
  with_next_recv (<[pk_destination_channel p := next]>)
    (with_received (λ r, {[receipt_key p]} ∪ r) s).
Lemma receive_run now p s s' r :
  receive_packet now p s = (s', r) →
  let expected := expected_recv_sequence s (pk_destination_channel p) in
  match r with
  | Err _ => s' = s ∨ ∃ c t, acceptable now p s c t ∧ s' = receipted p expected s
  | Ok t => ∃ c, acceptable now p s c t ∧ s' = receipted p (Z.max expected (pk_sequence p) + 1) s
  end.
Proof.
  unfold receive_packet, ensure_enabled. run_unfold.
  destruct (negb (ic_enabled (im_config s))); [intros [= <- <-]; by left|].
  destruct (check_packet now p s) as [t|e] eqn:Hc; [|intros [= <- <-]; by left].
  apply check_packet_Ok in Hc as [c Hc]. destruct (checked_add _ _ _) as [n|] eqn:Hn; intros [= <- <-].
  - apply checked_add_Some in Hn as [-> _]. exists c. split; [done|].
    unfold receipted, with_next_recv, with_received. simpl. by rewrite insert_insert_eq.
  - right. by exists c, t.
Qed.
Lemma send_run now t s s' r :
  send_transfer now t s = (s', r) →
  match r with
  | Err _ => s' = s
  | Ok n => ∃ c, im_channels s !! tf_source_channel t = Some c ∧ ch_state c = Open ∧
      n = im_next_sequence_send s ∧ n + 1 ≤ u64_max ∧
      transfer_validate t = Ok () ∧ Z.of_nat (length (str_bytes (to_json t))) ≤ MAX_PACKET_BYTES ∧
      s' = with_sent (<[n := outbound_packet now s c t (str_bytes (to_json t))]>)
             (with_next_send (n + 1) s)
  end.
Proof.
  unfold send_transfer, ensure_enabled. run_unfold.
  destruct (negb (ic_enabled (im_config s))); [by intros [= <- <-]|].
  destruct (transfer_validate t) as [[]|] eqn:Hv; [|by intros [= <- <-]].
  destruct (im_channels s !! tf_source_channel t) as [c|] eqn:Hc; [|by intros [= <- <-]].
  unfold is_open. destruct (ch_state c) eqn:Hst; simpl; try by intros [= <- <-].
  destruct (Z.ltb_spec MAX_PACKET_BYTES (Z.of_nat (length (str_bytes (to_json t)))));
    [by intros [= <- <-]|].
  destruct (checked_add _ _ _) as [n|] eqn:Hn; intros [= <- <-]; [|done].
  apply checked_add_Some in Hn as [-> Hn]. by exists c.
Qed.
End calls.
Lemma ack_run n s s' r :
  acknowledge_packet n s = (s', r) →
  match r with
  | Err _ => s' = s
  | Ok _ => is_Some (im_sent_packets s !! n) ∧ n ∉ im_acknowledged_packets s ∧
            s' = with_acknowledged (λ a, {[n]} ∪ a) s
  end.
Proof.
  unfold acknowledge_packet, ensure_enabled. run_unfold.
  destruct (negb (ic_enabled (im_config s))); [by intros [= <- <-]|].
  case_bool_decide; simpl; [|by intros [= <- <-]]. case_bool_decide; by intros [= <- <-].
Qed.
Lemma timeout_run now n s s' r :
  timeout_packet now n s = (s', r) →
  match r with
  | Err _ => s' = s
  | Ok p => im_sent_packets s !! n = Some p ∧ n ∉ im_acknowledged_packets s ∧
            timed_out now s p = true ∧ s' = with_sent (delete n) s
  end.
Proof.
  unfold timeout_packet, ensure_enabled. run_unfold.
  destruct (negb (ic_enabled (im_config s))); [by intros [= <- <-]|].
  destruct (im_sent_packets s !! n) as [p|] eqn:Hp; [|by intros [= <- <-]].
  case_bool_decide; [by intros [= <- <-]|].
  destruct (timed_out now s p) eqn:Ht; simpl; by intros [= <- <-].
Qed.
Lemma open_run port cport cchannel ordering s s' r :
  open_channel port cport cchannel ordering s = (s', r) →
  match r with
  | Err _ => s' = s
  | Ok id => id = "channel-" +:+ fmt_dec (Z.of_nat (size (im_channels s))) ∧ ∃ c,
      ch_ordering c = ordering ∧ ch_state c = Init ∧ s' = with_channels (<[id := c]>) s
  end.
Proof.
  unfold open_channel, ensure_enabled. run_unfold.
  destruct (negb (ic_enabled (im_config s))); [by intros [= <- <-]|].
  destruct (is_empty (trim port) || _); [by intros [= <- <-]|].
  destruct (is_empty _); [by intros [= <- <-]|]. intros [= <- <-]. split; [done|].
  by refine (ex_intro _ _ (conj _ (conj _ eq_refl))).
Qed.
Lemma state_run id state s s' r :
  set_channel_state id state s = (s', r) →
  match r with
  | Err _ => s' = s
  | Ok _ => ∃ c, im_channels s !! id = Some c ∧ transition_allowed (ch_state c) state = true ∧
                 s' = with_channels (<[id := set_state_of state c]>) s
  end.
Proof.
  unfold set_channel_state, ensure_enabled. run_unfold.
  destruct (negb (ic_enabled (im_config s))); [by intros [= <- <-]|].
  destruct (im_channels s !! id) as [c|] eqn:Hc; [|by intros [= <- <-]].
  destruct (transition_allowed (ch_state c) state) eqn:Ht; simpl; intros [= <- <-]; [|done]. by exists c.
Qed.

(** ** Receiving *)

Definition accepted (evs : list IbcEvent) : list IbcPacket :=
  omap (λ e, match e with Received p => Some p | _ => None end) evs.
(** The sequences accepted on a local channel, in order. *)
Definition accepted_on (id : string) (evs : list IbcEvent) : list Z :=
  map pk_sequence (filter (λ p, pk_destination_channel p = id) (accepted evs)).
Definition channel_name (i : Z) : string := "channel-" +:+ fmt_dec i.
Lemma channel_name_inj i j : 0 ≤ i → 0 ≤ j → channel_name i = channel_name j → i = j.
Proof.
  intros Hi Hj Heq. apply (inj (String.append "channel-")) in Heq.
  pose proof (from_str_radix_fmt (Z.max i j) 10 i ltac:(lia) ltac:(lia)) as H1.
  pose proof (from_str_radix_fmt (Z.max i j) 10 j ltac:(lia) ltac:(lia)) as H2.
  unfold fmt_dec in Heq. rewrite Heq in H1. congruence.
Qed.

Record recv_inv (s : IbcModule) (evs : list IbcEvent) : Prop := {
  ri_received p : p ∈ accepted evs → receipt_key p ∈ im_received_packets s;
  ri_once : NoDup (map receipt_key (accepted evs));
  ri_bound p : p ∈ accepted evs → ∃ c, im_channels s !! pk_destination_channel p = Some c ∧ bound p c;
  ri_counter id : 1 ≤ expected_recv_sequence s id;
  ri_ordered id c : im_channels s !! id = Some c → ch_ordering c = Ordered →
    accepted_on id evs = seqZ 1 (expected_recv_sequence s id - 1);
  ri_unopened id : im_channels s !! id = None → im_next_sequence_recv s !! id = None;
  ri_ids id c : im_channels s !! id = Some c →
    ∃ i, 0 ≤ i < Z.of_nat (size (im_channels s)) ∧ id = channel_name i
}.
Lemma recv_inv_new c : recv_inv (ibc_new c) [].
Proof.
  split; simpl; try (intros ?; by rewrite lookup_empty); try (intros ??; by rewrite lookup_empty).
  - by intros p ?%elem_of_nil.
  - constructor.
  - by intros p ?%elem_of_nil.
  - intros id. unfold expected_recv_sequence. simpl. by rewrite lookup_empty.
Qed.
Lemma accepted_snoc evs evs' : accepted evs' = [] → accepted (evs ++ evs') = accepted evs.
Proof. intros He. unfold accepted in *. by rewrite omap_app, He, app_nil_r. Qed.
Lemma accepted_received evs p : accepted (evs ++ [Received p]) = accepted evs ++ [p].
Proof. unfold accepted. by rewrite omap_app. Qed.
(** Steps that touch neither the channels nor the receive side. *)
Lemma recv_inv_frame s s' evs evs' :
  recv_inv s evs → accepted evs' = [] → im_channels s' = im_channels s →
  im_received_packets s' = im_received_packets s → im_next_sequence_recv s' = im_next_sequence_recv s →
  recv_inv s' (evs ++ evs').
Proof.
  intros I He Hc Hr Hn.
  assert (∀ id, expected_recv_sequence s' id = expected_recv_sequence s id) as Hexp
    by (intros id; unfold expected_recv_sequence; by rewrite Hn).
  split; unfold accepted_on; rewrite ?(accepted_snoc _ _ He), ?Hc, ?Hr, ?Hn; intros; rewrite ?Hexp;
    by eauto using ri_received, ri_once, ri_bound, ri_counter, ri_unopened, ri_ids
    || by eapply ri_ordered.
Qed.
(** Channels change without losing a binding or an ordering. *)
Lemma recv_inv_state s evs id c state :
  recv_inv s evs → im_channels s !! id = Some c →
  recv_inv (with_channels (<[id := set_state_of state c]>) s) evs.
Proof.
  intros I Hc. split; simpl; try apply I.
  - intros p Hp. destruct (ri_bound _ _ I p Hp) as (c' & Hc' & Hb).
    destruct (decide (pk_destination_channel p = id)) as [<-|Hne].
    + exists (set_state_of state c). rewrite lookup_insert_eq. split; [done|].
      rewrite Hc in Hc'. injection Hc' as <-. by destruct Hb.
    + exists c'. by rewrite lookup_insert_ne.
  - intros id' c' [[<- <-]|[_ Hc']]%lookup_insert_Some Ho;
      [exact (ri_ordered _ _ I id c Hc Ho)|exact (ri_ordered _ _ I id' c' Hc' Ho)].
  - intros id' [Hid _]%lookup_insert_None. by apply (ri_unopened _ _ I).
  - intros id' c' Hc'. rewrite map_size_insert_Some by (by rewrite Hc).
    apply lookup_insert_Some in Hc' as [[<- _]|[_ Hc']]; by eapply (ri_ids _ _ I).
Qed.
Lemma recv_inv_open s evs c :
  recv_inv s evs →
  let id := channel_name (Z.of_nat (size (im_channels s))) in
  im_channels s !! id = None ∧ recv_inv (with_channels (<[id := c]>) s) evs.
Proof.
  intros I id. assert (im_channels s !! id = None) as Hid.
  { destruct (im_channels s !! id) as [c'|] eqn:Hc; [|done].
    destruct (ri_ids _ _ I id c' Hc) as (i & Hi & Heq). apply channel_name_inj in Heq; lia. }
  split; [done|]. split; simpl; try apply I.
  - intros p Hp. destruct (ri_bound _ _ I p Hp) as (c' & Hc' & Hb). exists c'.
    rewrite lookup_insert_ne; [done|]. intros Heq. rewrite Heq in Hid. congruence.
  - intros id' c' [[<- <-]|[_ Hc']]%lookup_insert_Some Ho; [|by apply (ri_ordered _ _ I _ c')].
    assert (accepted_on id evs = []) as ->.
    { unfold accepted_on. destruct (filter _ _) as [|p ps] eqn:Hf; [done|]. exfalso.
      assert (p ∈ p :: ps) as Hp by left. rewrite <-Hf in Hp. apply list_elem_of_filter in Hp as [Hd Hp].
      destruct (ri_bound _ _ I p Hp) as (c'' & Hc & _). rewrite Hd in Hc. congruence. }
    unfold expected_recv_sequence. simpl. by rewrite (ri_unopened _ _ I id Hid).
  - intros id' [Hn _]%lookup_insert_None. by apply (ri_unopened _ _ I).
  - intros id' c' Hc'. rewrite map_size_insert_None by done.
    apply lookup_insert_Some in Hc' as [[<- _]|[_ Hc']].
    + eexists. split; [|done]. lia.
    + destruct (ri_ids _ _ I id' c' Hc') as (i & Hi & ->). exists i. split; [lia|done].
Qed.
Lemma expected_receipted p n s id :
  expected_recv_sequence (receipted p n s) id
  = if decide (pk_destination_channel p = id) then n else expected_recv_sequence s id.
Proof.
  unfold expected_recv_sequence. simpl. case_decide as Hid.
  - subst id. by rewrite lookup_insert_eq.
  - by rewrite lookup_insert_ne.
Qed.
Lemma seqZ_snoc n : 0 ≤ n → seqZ 1 (n + 1) = seqZ 1 n ++ [n + 1].
Proof.
  intros Hn. rewrite <-(Z2Nat.id n) by done. replace (Z.of_nat (Z.to_nat n) + 1)
    with (Z.of_nat (S (Z.to_nat n))) by lia. rewrite seqZ_S. do 2 f_equal. lia.
Qed.
Section receiving.
Context `{!SerdeJson IbcTransfer}.

Lemma recv_inv_overflow now p c t s evs :
  recv_inv s evs → acceptable now p s c t →
  recv_inv (receipted p (expected_recv_sequence s (pk_destination_channel p)) s) evs.
Proof.
  intros I Ha.
  assert (∀ id, expected_recv_sequence (receipted p (expected_recv_sequence s
    (pk_destination_channel p)) s) id = expected_recv_sequence s id) as Hexp.
  { intros id. rewrite expected_receipted. by case_decide as Hid; [rewrite Hid|]. }
  split; simpl.
  - intros q Hq. apply elem_of_union. right. by apply (ri_received _ _ I).
  - apply I.
  - apply I.
  - intros id. rewrite Hexp. apply I.
  - intros id c' Hc Ho. rewrite Hexp. by apply (ri_ordered _ _ I id c').
  - intros id Hid. rewrite lookup_insert_ne; [by apply (ri_unopened _ _ I)|].
    intros Heq. pose proof (ac_channel _ _ _ _ _ Ha). congruence.
  - apply I.
Qed.
Lemma recv_inv_accept now p c t s evs :
  recv_inv s evs → acceptable now p s c t →
  recv_inv (receipted p (Z.max (expected_recv_sequence s (pk_destination_channel p)) (pk_sequence p) + 1) s)
    (evs ++ [Received p]).
Proof.
  intros I Ha. pose proof (ac_channel _ _ _ _ _ Ha) as Hch.
  split; rewrite ?accepted_received; cbn [im_channels im_received_packets im_next_sequence_recv
    receipted with_next_recv with_received].
  - intros q [Hq|Hq%list_elem_of_singleton]%elem_of_app; apply elem_of_union;
      [right; by apply (ri_received _ _ I)|left; subst q; by apply elem_of_singleton].
  - rewrite map_app. apply NoDup_app. split_and!; [apply I| |apply NoDup_singleton].
    intros k (q & -> & Hq)%list_elem_of_fmap Hk%list_elem_of_singleton.
    apply (ac_fresh _ _ _ _ _ Ha). rewrite <-Hk. by apply (ri_received _ _ I).
  - intros q [Hq|Hq%list_elem_of_singleton]%elem_of_app; [by apply (ri_bound _ _ I)|].
    subst q. exists c. split; [done|apply Ha].
  - intros id. rewrite expected_receipted. pose proof (ri_counter _ _ I id).
    pose proof (ri_counter _ _ I (pk_destination_channel p)). case_decide; lia.
  - intros id c' Hc Ho. rewrite expected_receipted. unfold accepted_on.
    rewrite accepted_received, filter_app, map_app, filter_cons, filter_nil.
    pose proof (ri_ordered _ _ I id c' Hc Ho) as Hon. unfold accepted_on in Hon. rewrite Hon.
    pose proof (ri_counter _ _ I id). case_decide as Hid; [|by rewrite app_nil_r]. subst id.
    assert (c' = c) as -> by congruence. cbn [map]. rewrite (ac_order _ _ _ _ _ Ha Ho), Z.max_id.
    set (e := expected_recv_sequence s (pk_destination_channel p)) in *.
    replace (e + 1 - 1) with ((e - 1) + 1) by lia. by rewrite seqZ_snoc, Z.sub_add by lia.
  - intros id Hid. rewrite lookup_insert_ne; [by apply (ri_unopened _ _ I)|]. congruence.
  - apply I.
Qed.
End receiving.

(** ** Sending *)

Definition sent_seqs (evs : list IbcEvent) : list Z :=
  omap (λ e, match e with Sent n => Some n | _ => None end) evs.
Definition timed_out_seqs (evs : list IbcEvent) : list Z :=
  omap (λ e, match e with TimedOut n => Some n | _ => None end) evs.
Definition settled_seqs (evs : list IbcEvent) : list Z :=
  omap (λ e, match e with Acked n | TimedOut n => Some n | _ => None end) evs.

Record send_inv (s : IbcModule) (evs : list IbcEvent) : Prop := {
  se_sent : sent_seqs evs = seqZ 1 (im_next_sequence_send s - 1);
  se_next : 1 ≤ im_next_sequence_send s;
  (** A sent packet is held until it times out. *)
  se_held n : is_Some (im_sent_packets s !! n) ↔
    1 ≤ n < im_next_sequence_send s ∧ n ∉ timed_out_seqs evs;
  se_acked n : n ∈ im_acknowledged_packets s → is_Some (im_sent_packets s !! n);
  se_settled n : n ∈ settled_seqs evs ↔ n ∈ im_acknowledged_packets s ∨ n ∈ timed_out_seqs evs;
  se_timed n : n ∈ timed_out_seqs evs → 1 ≤ n < im_next_sequence_send s;
  se_once : NoDup (settled_seqs evs)
}.
Lemma send_inv_new c : send_inv (ibc_new c) [].
Proof.
  split; simpl.
  - done.
  - done.
  - intros n. rewrite lookup_empty. split; [by intros []|lia].
  - intros n. set_solver.
  - intros n. set_solver.
  - by intros n ?%elem_of_nil.
  - constructor.
Qed.
Lemma send_inv_frame s s' evs evs' :
  send_inv s evs → sent_seqs evs' = [] → timed_out_seqs evs' = [] → settled_seqs evs' = [] →
  im_sent_packets s' = im_sent_packets s → im_next_sequence_send s' = im_next_sequence_send s →
  im_acknowledged_packets s' = im_acknowledged_packets s → send_inv s' (evs ++ evs').
Proof.
  unfold sent_seqs, timed_out_seqs, settled_seqs. intros [] H1 H2 H3 Hs Hn Ha.
  split; unfold sent_seqs, timed_out_seqs, settled_seqs in *;
    rewrite ?omap_app, ?H1, ?H2, ?H3, ?app_nil_r, ?Hs, ?Hn, ?Ha; done.
Qed.
Lemma send_inv_sent s evs packet :
  send_inv s evs →
  let n := im_next_sequence_send s in
  send_inv (with_sent (<[n := packet]>) (with_next_send (n + 1) s)) (evs ++ [Sent n]).
Proof.
  intros I n. pose proof (se_next _ _ I) as Hn. fold n in Hn.
  split; unfold sent_seqs, timed_out_seqs, settled_seqs; rewrite ?omap_app; simpl; rewrite ?app_nil_r;
    fold (sent_seqs evs) (timed_out_seqs evs) (settled_seqs evs).
  - rewrite (se_sent _ _ I). fold n. replace (n + 1 - 1) with ((n - 1) + 1) by lia.
    by rewrite seqZ_snoc, Z.sub_add by lia.
  - lia.
  - intros m. rewrite lookup_insert_is_Some', (se_held _ _ I). fold n. split.
    + intros [<-|[Hm Ht]]; [|split; [lia|done]]. split; [lia|]. intros Ht%(se_timed _ _ I).
      fold n in Ht. lia.
    + intros [Hm Ht]. destruct (decide (n = m)); [by left|right]. split; [lia|done].
  - intros m Hm. rewrite lookup_insert_is_Some'. right. by apply (se_acked _ _ I).
  - apply I.
  - intros m Hm%(se_timed _ _ I). fold n in Hm. lia.
  - apply I.
Qed.
Lemma send_inv_acked s evs n :
  send_inv s evs → is_Some (im_sent_packets s !! n) → n ∉ im_acknowledged_packets s →
  send_inv (with_acknowledged (λ a, {[n]} ∪ a) s) (evs ++ [Acked n]).
Proof.
  intros I Hn Ha.
  split; unfold sent_seqs, timed_out_seqs, settled_seqs; rewrite ?omap_app; simpl; rewrite ?app_nil_r;
    fold (sent_seqs evs) (timed_out_seqs evs) (settled_seqs evs); try apply I.
  - intros m [Hm%elem_of_singleton|Hm]%elem_of_union; [by subst m|by apply (se_acked _ _ I)].
  - intros m. rewrite elem_of_app, list_elem_of_singleton, (se_settled _ _ I). set_solver.
  - apply NoDup_app. split_and!; [apply I| |apply NoDup_singleton].
    intros m Hm ->%list_elem_of_singleton. apply (se_settled _ _ I) in Hm as [Hm|Hm]; [done|].
    by apply (se_held _ _ I) in Hn as [_ Hn].
Qed.
Lemma send_inv_timed_out s evs n :
  send_inv s evs → is_Some (im_sent_packets s !! n) → n ∉ im_acknowledged_packets s →
  send_inv (with_sent (delete n) s) (evs ++ [TimedOut n]).
Proof.
  intros I Hn Ha. pose proof (proj1 (se_held _ _ I n) Hn) as [Hr Ht].
  split; unfold sent_seqs, timed_out_seqs, settled_seqs; rewrite ?omap_app; simpl; rewrite ?app_nil_r;
    fold (sent_seqs evs) (timed_out_seqs evs) (settled_seqs evs); try apply I.
  - intros m. rewrite lookup_delete_is_Some, (se_held _ _ I), elem_of_app, list_elem_of_singleton.
    naive_solver.
  - intros m Hm. apply lookup_delete_is_Some. split; [by intros <-|by apply (se_acked _ _ I)].
  - intros m. rewrite !elem_of_app, !list_elem_of_singleton, (se_settled _ _ I). tauto.
  - intros m [Hm|Hm%list_elem_of_singleton]%elem_of_app; [by apply (se_timed _ _ I)|by subst m].
  - apply NoDup_app. split_and!; [apply I| |apply NoDup_singleton].
    intros m Hm ->%list_elem_of_singleton. by apply (se_settled _ _ I) in Hm as [Hm|Hm].
Qed.

(** ** Any sequence of calls *)
Section any_run.
Context `{!SerdeJson IbcTransfer}.

Lemma ibc_op_inv op s s' evs evs' :
  recv_inv s evs → send_inv s evs → ibc_op op s = (s', evs') →
  recv_inv s' (evs ++ evs') ∧ send_inv s' (evs ++ evs').
Proof.
  intros R S. destruct op as [h|port cport cch ord|id st|now t|now p|n|now n]; simpl.
  - intros [= <- <-]. split; [by apply (recv_inv_frame s)|by apply (send_inv_frame s)].
  - destruct (open_channel port cport cch ord s) as [s1 r] eqn:Hrun. intros [= <- <-]. simpl.
    apply open_run in Hrun. destruct r as [id|e]; [|subst; by rewrite !app_nil_r].
    destruct Hrun as (-> & c & _ & _ & ->). rewrite app_nil_r. split.
    + by apply (recv_inv_open s evs c R).
    + rewrite <-(app_nil_r evs). by apply (send_inv_frame s).
  - destruct (set_channel_state id st s) as [s1 r] eqn:Hrun. intros [= <- <-]. simpl.
    apply state_run in Hrun. destruct r as [[]|e]; [|subst; by rewrite !app_nil_r].
    destruct Hrun as (c & Hc & _ & ->). rewrite app_nil_r. split.
    + by apply recv_inv_state.
    + rewrite <-(app_nil_r evs). by apply (send_inv_frame s).
  - destruct (send_transfer now t s) as [s1 r] eqn:Hrun. apply send_run in Hrun.
    destruct r as [n|e]; intros [= <- <-]; [|subst; by rewrite !app_nil_r].
    destruct Hrun as (c & _ & _ & -> & _ & _ & _ & ->).
    split; [by apply (recv_inv_frame s)|by apply send_inv_sent].
  - destruct (receive_packet now p s) as [s1 r] eqn:Hrun. apply receive_run in Hrun.
    destruct r as [t|e]; intros [= <- <-].
    + destruct Hrun as (c & Ha & ->). split; [by eapply recv_inv_accept|by apply (send_inv_frame s)].
    + rewrite app_nil_r. destruct Hrun as [->|(c & t & Ha & ->)]; [done|].
      split; [by eapply recv_inv_overflow|]. rewrite <-(app_nil_r evs). by apply (send_inv_frame s).
  - destruct (acknowledge_packet n s) as [s1 r] eqn:Hrun. apply ack_run in Hrun.
    destruct r as [[]|e]; intros [= <- <-]; [|subst; by rewrite !app_nil_r].
    destruct Hrun as (Hn & Ha & ->). split; [by apply (recv_inv_frame s)|by apply send_inv_acked].
  - destruct (timeout_packet now n s) as [s1 r] eqn:Hrun. apply timeout_run in Hrun.
    destruct r as [p|e]; intros [= <- <-]; [|subst; by rewrite !app_nil_r].
    destruct Hrun as (Hn & Ha & _ & ->). split; [by apply (recv_inv_frame s)|].
    apply send_inv_timed_out; [done|by exists p|done].
Qed.
Lemma ibc_run_inv ops s s' evs evs' :
  recv_inv s evs → send_inv s evs → ibc_run ops s = (s', evs') →
  recv_inv s' (evs ++ evs') ∧ send_inv s' (evs ++ evs').
Proof.
  revert s evs evs'. induction ops as [|op ops IH]; intros s evs evs' R S; simpl.
  { intros [= <- <-]. by rewrite app_nil_r. }
  destruct (ibc_op op s) as [s1 e1] eqn:Hop. destruct (ibc_run ops s1) as [s2 e2] eqn:Hrun.
  intros [= <- <-]. destruct (ibc_op_inv _ _ _ _ _ R S Hop) as [R1 S1]. rewrite app_assoc. by eapply IH.
Qed.
End any_run.

(** ** Properties *)

(** C24. Replay protection: over any sequence of calls, with any interleaving and
    any failures, no (source channel, sequence) pair is accepted twice; every
    accepted packet was addressed to an existing channel by that channel's
    counterparty; and an ordered channel accepts exactly 1, 2, 3, ... in that
    order. *)
Theorem receive_exactly_once `{!SerdeJson IbcTransfer} (c : IbcConfig) (ops : list IbcOp)
    (s : IbcModule) (evs : list IbcEvent) :
  ibc_run ops (ibc_new c) = (s, evs) →
  NoDup (map receipt_key (accepted evs)) ∧
  (∀ p, p ∈ accepted evs → has_received s (pk_source_channel p) (pk_sequence p) = true ∧
     ∃ ch, channel s (pk_destination_channel p) = Some ch ∧ bound p ch) ∧
  (∀ id ch, channel s id = Some ch → ch_ordering ch = Ordered →
     accepted_on id evs = seqZ 1 (Z.of_nat (length (accepted_on id evs))) ∧
     expected_recv_sequence s id = Z.of_nat (length (accepted_on id evs)) + 1).
Proof.
  intros Hrun. destruct (ibc_run_inv ops (ibc_new c) s [] evs) as [R _];
    [apply recv_inv_new|apply send_inv_new|done|]. simpl in R. split_and!.
  - apply R.
  - intros p Hp. split; [|by apply (ri_bound _ _ R)].
    apply bool_decide_eq_true. by apply (ri_received _ _ R p).
  - intros id ch Hch Ho. pose proof (ri_ordered _ _ R id ch Hch Ho) as Hon.
    pose proof (ri_counter _ _ R id). assert (Z.of_nat (length (accepted_on id evs))
      = expected_recv_sequence s id - 1) as Hlen by (rewrite Hon, length_seqZ; lia).
    rewrite Hlen. split; [done|lia].
Qed.

(** C40. Outbound packets are numbered 1, 2, 3, ... without gaps, each is settled at
    most once, by an acknowledgement or by a timeout but never both, only sent
    packets are settled, and a packet is held by the module exactly until it
    times out, so no unacknowledged packet is lost. *)
Theorem send_settles_once `{!SerdeJson IbcTransfer} (c : IbcConfig) (ops : list IbcOp)
    (s : IbcModule) (evs : list IbcEvent) :
  ibc_run ops (ibc_new c) = (s, evs) →
  sent_seqs evs = seqZ 1 (im_next_sequence_send s - 1) ∧
  NoDup (settled_seqs evs) ∧
  (∀ n, n ∈ settled_seqs evs → n ∈ sent_seqs evs) ∧
  (∀ n, n ∈ sent_seqs evs → (sent_packet s n = None ↔ n ∈ timed_out_seqs evs) ∧
     (is_acknowledged s n = true ↔ n ∈ settled_seqs evs ∧ n ∉ timed_out_seqs evs)).
Proof.
  intros Hrun. destruct (ibc_run_inv ops (ibc_new c) s [] evs) as [_ S];
    [apply recv_inv_new|apply send_inv_new|done|]. simpl in S.
  assert (∀ n, n ∈ sent_seqs evs ↔ 1 ≤ n < im_next_sequence_send s) as Hsent.
  { intros n. rewrite (se_sent _ _ S), elem_of_seqZ. lia. }
  split_and!; [apply S|apply S| |].
  - intros n [Hn|Hn]%(se_settled _ _ S); apply Hsent; [|by apply (se_timed _ _ S)].
    by apply (se_acked _ _ S), (se_held _ _ S) in Hn as [Hn _].
  - intros n Hn%Hsent. unfold sent_packet, is_acknowledged. rewrite bool_decide_eq_true. split.
    + rewrite eq_None_not_Some, (se_held _ _ S).
      destruct (decide (n ∈ timed_out_seqs evs)); tauto.
    + rewrite (se_settled _ _ S). split; [|tauto]. intros Ha. split; [by left|].
      by apply (se_acked _ _ S), (se_held _ _ S) in Ha as [_ Ha].
Qed.

(** *** Concrete runs *)
Module RefIbc.
Definition c_transfer : codec IbcTransfer :=
  c_iso (λ t, ((((tf_sender t, tf_receiver t), tf_token t), tf_amount t), tf_source_channel t))
    (λ '((((a, r), k), n), ch), {| tf_sender := a; tf_receiver := r; tf_token := k; tf_amount := n;
                                   tf_source_channel := ch |})
    (c_pair (c_pair (c_pair (c_pair (c_bytes 20) c_string) c_string) c_u128) c_string).
#[export] Instance json_transfer : SerdeJson IbcTransfer := codec_json c_transfer.
End RefIbc.
Import RefIbc.

Definition transfer1 : IbcTransfer :=
  {| tf_sender := addr 1; tf_receiver := "cosmos1"; tf_token := "usub"; tf_amount := 5;
     tf_source_channel := "channel-0" |}.
Definition inbound (channel_id : string) (sequence : Z) : IbcPacket :=
  {| pk_sequence := sequence; pk_source_port := "transfer"; pk_source_channel := "channel-0";
     pk_destination_port := "transfer"; pk_destination_channel := channel_id;
     pk_data := str_bytes (to_json transfer1); pk_timeout_height := 100; pk_timeout_timestamp := 0 |}.
Definition open_ops (channel_id : string) : list IbcOp :=
  [OpOpen "transfer" "transfer" "channel-0" Ordered; OpState channel_id Open].
Definition sample_run : list IbcOp :=
  open_ops "channel-0" ++ [OpReceive 7 (inbound "channel-0" 1); OpReceive 7 (inbound "channel-0" 1);
    OpReceive 7 (inbound "channel-0" 3); OpReceive 7 (inbound "channel-0" 2); OpSend 7 transfer1;
    OpSend 7 transfer1; OpAck 1; OpTimeout 7 1; OpTimeout 607 2; OpAck 2].
Definition outcome : IbcModule * list IbcEvent := ibc_run sample_run (ibc_new ibc_config_default).
Lemma receive_exactly_once_witness :
  accepted_on "channel-0" outcome.2 = seqZ 1 (Z.of_nat (length (accepted_on "channel-0" outcome.2))).
Proof.
  pose proof (proj2 (proj2 (receive_exactly_once ibc_config_default sample_run outcome.1 outcome.2
    (surjective_pairing outcome))) "channel-0") as Ho.
  assert (ch_ordering <$> channel outcome.1 "channel-0" = Some Ordered) as Hc by (by vm_compute).
  revert Hc Ho. generalize (channel outcome.1 "channel-0"). intros [ch|] Hc Ho; [|discriminate Hc].
  injection Hc as Hc. exact (proj1 (Ho ch eq_refl Hc)).
Defined.
Lemma send_settles_once_witness :
  sent_seqs outcome.2 = [1; 2] ∧ settled_seqs outcome.2 = [1; 2] ∧ NoDup (settled_seqs outcome.2).
Proof.
  split; [by vm_compute|]. split; [by vm_compute|].
  exact (proj1 (proj2 (send_settles_once ibc_config_default sample_run outcome.1 outcome.2
    (surjective_pairing outcome)))).
Defined.

(** The receipt is not rolled back when the counter overflows: the largest
    sequence is refused with an error and recorded as received. *)
Lemma overflow_records_receipt :
  let '(s, _) := ibc_run [OpOpen "transfer" "transfer" "channel-0" Unordered; OpState "channel-0" Open]
                   (ibc_new ibc_config_default) in
  let '(s', r) := receive_packet 7 (inbound "channel-0" u64_max) s in
  r = Err SequenceOverflow ∧ has_received s "channel-0" u64_max = false ∧
  has_received s' "channel-0" u64_max = true.
Proof. by vm_compute. Qed.
(** The replay key omits the local channel: two channels opened to counterparty
    channels of the same name share it, and the second, ordered, cannot receive
    its first packet. *)
Lemma replay_key_collides :
  let '(s, _) := ibc_run (open_ops "channel-0" ++ open_ops "channel-1"
                            ++ [OpReceive 7 (inbound "channel-0" 1)]) (ibc_new ibc_config_default) in
  expected_recv_sequence s "channel-1" = 1 ∧
  (receive_packet 7 (inbound "channel-1" 1) s).2 = Err Replay.
Proof. by vm_compute. Qed.

