(* ===== verification/Relay.v ===== *)
(** * Two chains and a relayer

    [subhost-ibc] is the packet state machine of one chain. Here two of them face each
    other: each runs any calls of its module, and a relayer carries packets and
    acknowledgements between them. The crate verifies no proofs, so what the relayer
    may do is explicit: it loses, delays, reorders and repeats packets, and it makes
    none up. *)

From Stdlib Require Import String.
From S2P Require Import Prelude Order Text Deps Bincode Core Ibc.

(** ** The two chains *)

#[export] Instance packet_eq_dec : EqDecision IbcPacket.
Proof. solve_decision. Defined.

Section bridge.
Context `{!SerdeJson IbcTransfer}.

(** A chain: its module, what an observer saw of it, the packets it sent with their
    transfers, the packets it accepted with the transfers it returned for them, and
    the packets whose timeout gave their escrow back. *)
Record Chain := {
  cn_module : IbcModule;
  cn_events : list IbcEvent;
  cn_sent : list (IbcPacket * IbcTransfer);
  cn_accepted : list (IbcPacket * IbcTransfer);
  cn_refunded : list IbcPacket
}.
Definition chain_new (c : IbcConfig) : Chain :=
  {| cn_module := ibc_new c; cn_events := []; cn_sent := []; cn_accepted := []; cn_refunded := [] |}.
(** One call on a chain. *)
Definition chain_op (op : IbcOp) (x : Chain) : Chain :=
  let s := cn_module x in
  let '(s', evs) := ibc_op op s in
  {| cn_module := s';
     cn_events := cn_events x ++ evs;
     cn_sent := cn_sent x ++
       match op with
       | OpSend now t =>
           match (send_transfer now t s).2 with
           | Ok n => match sent_packet s' n with Some p => [(p, t)] | None => [] end
           | Err _ => []
           end
       | _ => []
       end;
     cn_accepted := cn_accepted x ++
       match op with
       | OpReceive now p => match (receive_packet now p s).2 with Ok t => [(p, t)] | Err _ => [] end
       | _ => []
       end;
     cn_refunded := cn_refunded x ++
       match op with
       | OpTimeout now n => match (timeout_packet now n s).2 with Ok p => [p] | Err _ => [] end
       | _ => []
       end |}.

(** A transfer that fits the types of its fields. *)
Definition transfer_wf (t : IbcTransfer) : Prop :=
  is_u128 (tf_amount t) ∧ is_u64 (str_len (tf_receiver t)) ∧ is_u64 (str_len (tf_token t)) ∧
  is_u64 (str_len (tf_source_channel t)).
#[export] Instance transfer_wf_dec t : Decision (transfer_wf t).
Proof. unfold transfer_wf. apply _. Defined.
(** What may be called on [x] at time [now] while it faces [y]. Heights grow; only
    packets [y] sent are delivered and only packets [y] accepted are acknowledged. A
    [careful] relayer reports a timeout only of a packet that [y] has not accepted and
    can no longer accept, which is what a proof from the counterparty would show. *)
Definition permitted (careful : bool) (now : Z) (y x : Chain) (op : IbcOp) : Prop :=
  match op with
  | OpHeight h => im_current_height (cn_module x) ≤ h
  | OpOpen _ _ _ _ | OpState _ _ => True
  | OpSend now' t => now' = now ∧ transfer_wf t
  | OpReceive now' p => now' = now ∧ p ∈ (cn_sent y).*1
  | OpAck n => n ∈ map pk_sequence (cn_accepted y).*1
  | OpTimeout now' n => now' = now ∧
      match careful, sent_packet (cn_module x) n with
      | true, Some p => timed_out now (cn_module y) p = true ∧ p ∉ (cn_accepted y).*1
      | _, _ => True
      end
  end.
#[export] Instance permitted_dec careful now y x op : Decision (permitted careful now y x op).
Proof. destruct op, careful; simpl; try apply _. case_match; apply _. Defined.
Record Bridge := { bg_now : Z; bg_here : Chain; bg_there : Chain }.
Definition bridge_new (c d : IbcConfig) : Bridge :=
  {| bg_now := 0; bg_here := chain_new c; bg_there := chain_new d |}.
Inductive bridge_step (careful : bool) (b : Bridge) : Bridge → Prop :=
| step_tick now :
    bg_now b ≤ now →
    bridge_step careful b {| bg_now := now; bg_here := bg_here b; bg_there := bg_there b |}
| step_here op :
    permitted careful (bg_now b) (bg_there b) (bg_here b) op →
    bridge_step careful b {| bg_now := bg_now b; bg_here := chain_op op (bg_here b);
                             bg_there := bg_there b |}
| step_there op :
    permitted careful (bg_now b) (bg_here b) (bg_there b) op →
    bridge_step careful b {| bg_now := bg_now b; bg_here := bg_here b;
                             bg_there := chain_op op (bg_there b) |}.

(** A run, move by move. *)
Inductive Move := Tick (now : Z) | Here (op : IbcOp) | There (op : IbcOp).
Definition move (m : Move) (b : Bridge) : Bridge :=
  match m with
  | Tick now => {| bg_now := now; bg_here := bg_here b; bg_there := bg_there b |}
  | Here op => {| bg_now := bg_now b; bg_here := chain_op op (bg_here b); bg_there := bg_there b |}
  | There op => {| bg_now := bg_now b; bg_here := bg_here b; bg_there := chain_op op (bg_there b) |}
  end.
Definition may_move (careful : bool) (m : Move) (b : Bridge) : bool :=
  match m with
  | Tick now => bg_now b <=? now
  | Here op => bool_decide (permitted careful (bg_now b) (bg_there b) (bg_here b) op)
  | There op => bool_decide (permitted careful (bg_now b) (bg_here b) (bg_there b) op)
  end.
Fixpoint moves (careful : bool) (ms : list Move) (b : Bridge) : option Bridge :=
  match ms with
  | [] => Some b
  | m :: ms => if may_move careful m b then moves careful ms (move m b) else None
  end.
Lemma moves_reachable careful ms b b' : moves careful ms b = Some b' → rtc (bridge_step careful) b b'.
Proof.
  revert b. induction ms as [|m ms IH]; intros b; simpl; [by intros [= ->]|].
  destruct (may_move careful m b) eqn:Hm; [|done]. intros Hrest.
  apply (rtc_l _ _ (move m b)); [|by apply IH]. destruct m; simpl in *.
  - apply step_tick. by apply Z.leb_le.
  - apply step_here. by apply bool_decide_eq_true in Hm.
  - apply step_there. by apply bool_decide_eq_true in Hm.
Qed.

(** The amount of [token] a packet carries. *)
Definition packet_value (token : string) (p : IbcPacket) : Z :=
  match from_json (bytes_str (pk_data p)) with
  | Ok t => if bool_decide (tf_token t = token) then tf_amount t else 0
  | Err _ => 0
  end.

(** ** One chain *)

(** What the records of a chain say of its module. *)
Record log_inv (x : Chain) : Prop := {
  li_seqs : map (pk_sequence ∘ fst) (cn_sent x) = sent_seqs (cn_events x);
  li_sent p t : (p, t) ∈ cn_sent x →
    pk_data p = str_bytes (to_json t) ∧ pk_source_channel p = tf_source_channel t ∧
    pk_timeout_timestamp p ≠ 0 ∧ transfer_wf t ∧ transfer_validate t = Ok () ∧
    Z.of_nat (length (pk_data p)) ≤ MAX_PACKET_BYTES ∧ 1 ≤ pk_sequence p < u64_max;
  li_held n p : sent_packet (cn_module x) n = Some p → p ∈ (cn_sent x).*1 ∧ pk_sequence p = n;
  li_accepted : (cn_accepted x).*1 = accepted (cn_events x);
  li_decoded p t : (p, t) ∈ cn_accepted x → from_json (bytes_str (pk_data p)) = Ok t;
  li_refunded : map pk_sequence (cn_refunded x) = timed_out_seqs (cn_events x);
  li_refunds p : p ∈ cn_refunded x → p ∈ (cn_sent x).*1
}.
Record chain_inv (x : Chain) : Prop := {
  ci_recv : recv_inv (cn_module x) (cn_events x);
  ci_send : send_inv (cn_module x) (cn_events x);
  ci_log : log_inv x
}.
Lemma chain_inv_new c : chain_inv (chain_new c).
Proof.
  split; [apply recv_inv_new|apply send_inv_new|]. split; simpl; try done.
  - by intros p t ?%elem_of_nil.
  - by intros p t ?%elem_of_nil.
Qed.
(** A call that sends, accepts and times out nothing. *)
Lemma log_inv_frame x x' evs :
  log_inv x → cn_events x' = cn_events x ++ evs → sent_seqs evs = [] → accepted evs = [] →
  timed_out_seqs evs = [] → im_sent_packets (cn_module x') = im_sent_packets (cn_module x) →
  cn_sent x' = cn_sent x ++ [] → cn_accepted x' = cn_accepted x ++ [] →
  cn_refunded x' = cn_refunded x ++ [] → log_inv x'.
Proof.
  unfold sent_seqs, accepted, timed_out_seqs.
  intros I He H1 H2 H3 Hm Hs Ha Hr. rewrite app_nil_r in Hs, Ha, Hr.
  split; unfold sent_seqs, accepted, timed_out_seqs, sent_packet;
    rewrite ?He, ?omap_app, ?H1, ?H2, ?H3, ?app_nil_r, ?Hs, ?Ha, ?Hr, ?Hm; apply I.
Qed.
Lemma log_inv_send now t x :
  send_inv (cn_module x) (cn_events x) → transfer_wf t → log_inv x → log_inv (chain_op (OpSend now t) x).
Proof.
  intros S Hwf I. unfold chain_op. simpl.
  destruct (send_transfer now t (cn_module x)) as [s r] eqn:Hrun. apply send_run in Hrun.
  destruct r as [n|e]; simpl; [|subst s; by apply (log_inv_frame x _ [])].
  destruct Hrun as (c & Hc & _ & -> & Hn & Hv & Hlen & ->). set (n := im_next_sequence_send _) in *.
  set (p := outbound_packet now (cn_module x) c t (str_bytes (to_json t))).
  unfold sent_packet. simpl. rewrite lookup_insert_eq. pose proof (se_next _ _ S) as Hn1. fold n in Hn1.
  split; cbn [cn_sent cn_events cn_accepted cn_refunded cn_module]; rewrite ?app_nil_r.
  - unfold sent_seqs. rewrite map_app, omap_app, (li_seqs _ I). done.
  - intros q u [Hq|[= -> ->]%list_elem_of_singleton]%elem_of_app; [by apply (li_sent _ I)|].
    split_and!; try done; simpl; [|fold n; lia..].
    unfold saturating_add, DEFAULT_TIMEOUT_SECONDS, unix_timestamp. case_match; width.
  - intros m q. unfold sent_packet. simpl.
    rewrite fmap_app, elem_of_app. intros [[<- <-]|[_ Hq]]%lookup_insert_Some.
    + split; [right; by left|done].
    + apply (li_held _ I) in Hq. tauto.
  - unfold accepted. rewrite omap_app, (li_accepted _ I). simpl. by rewrite app_nil_r.
  - apply I.
  - unfold timed_out_seqs. rewrite omap_app, (li_refunded _ I). simpl. by rewrite app_nil_r.
  - intros q Hq. rewrite fmap_app, elem_of_app. left. by apply (li_refunds _ I).
Qed.
Lemma log_inv_receive now p x : log_inv x → log_inv (chain_op (OpReceive now p) x).
Proof.
  intros I. unfold chain_op. simpl.
  destruct (receive_packet now p (cn_module x)) as [s r] eqn:Hrun. apply receive_run in Hrun.
  destruct r as [t|e]; simpl.
  - destruct Hrun as (c & Ha & ->).
    split; cbn [cn_sent cn_events cn_accepted cn_refunded cn_module]; rewrite ?app_nil_r; try apply I.
    + unfold sent_seqs. rewrite omap_app, (li_seqs _ I). simpl. by rewrite app_nil_r.
    + by rewrite fmap_app, accepted_received, (li_accepted _ I).
    + intros q u [Hq|[= -> ->]%list_elem_of_singleton]%elem_of_app; [by apply (li_decoded _ I)|].
      apply Ha.
    + unfold timed_out_seqs. rewrite omap_app, (li_refunded _ I). simpl. by rewrite app_nil_r.
  - destruct Hrun as [->|(c & t & Ha & ->)]; by apply (log_inv_frame x _ []).
Qed.
Lemma log_inv_timeout now n x : log_inv x → log_inv (chain_op (OpTimeout now n) x).
Proof.
  intros I. unfold chain_op. simpl.
  destruct (timeout_packet now n (cn_module x)) as [s r] eqn:Hrun. apply timeout_run in Hrun.
  destruct r as [p|e]; simpl; [|subst s; by apply (log_inv_frame x _ [])].
  destruct Hrun as (Hp & _ & _ & ->). destruct (li_held _ I n p Hp) as [Hin Hseq].
  split; cbn [cn_sent cn_events cn_accepted cn_refunded cn_module]; rewrite ?app_nil_r; try apply I.
  - unfold sent_seqs. rewrite omap_app, (li_seqs _ I). simpl. by rewrite app_nil_r.
  - intros m q. unfold sent_packet. simpl. intros [_ Hq]%lookup_delete_Some. by apply (li_held _ I).
  - unfold accepted. rewrite omap_app, (li_accepted _ I). simpl. by rewrite app_nil_r.
  - unfold timed_out_seqs. rewrite map_app, omap_app, (li_refunded _ I). simpl. by rewrite Hseq.
  - intros q [Hq|Hq%list_elem_of_singleton]%elem_of_app; [by apply (li_refunds _ I)|by subst q].
Qed.
Lemma chain_op_inv careful now y x op :
  permitted careful now y x op → chain_inv x → chain_inv (chain_op op x).
Proof.
  intros Hp [R S I]. destruct (ibc_op op (cn_module x)) as [s' evs] eqn:Hop.
  destruct (ibc_op_inv _ _ _ _ _ R S Hop) as [R' S'].
  split; [unfold chain_op; by rewrite Hop..|].
  destruct op as [h|port cport cch ord|id st|now' t|now' p|n|now' n];
    [| | |by apply log_inv_send; [|apply Hp|]|by apply log_inv_receive| |by apply log_inv_timeout].
  - by apply (log_inv_frame x _ []).
  - unfold chain_op. simpl. destruct (open_channel port cport cch ord _) as [s r] eqn:Hrun.
    apply open_run in Hrun. apply (log_inv_frame x _ []); try done. simpl.
    destruct r; [|by subst s]. by destruct Hrun as (_ & c & _ & _ & ->).
  - unfold chain_op. simpl. destruct (set_channel_state id st _) as [s r] eqn:Hrun.
    apply state_run in Hrun. apply (log_inv_frame x _ []); try done. simpl.
    destruct r; [|by subst s]. by destruct Hrun as (c & _ & _ & ->).
  - unfold chain_op. simpl. destruct (acknowledge_packet n _) as [s r] eqn:Hrun.
    apply ack_run in Hrun. destruct r; simpl.
    + destruct Hrun as (_ & _ & ->). by apply (log_inv_frame x _ [Acked n]).
    + subst s. by apply (log_inv_frame x _ []).
Qed.

(** What one call can add to each record. *)
Lemma chain_op_accepted op x p :
  p ∈ (cn_accepted (chain_op op x)).*1 →
  p ∈ (cn_accepted x).*1 ∨ ∃ now, op = OpReceive now p ∧ timed_out now (cn_module x) p = false.
Proof.
  unfold chain_op. destruct (ibc_op op (cn_module x)). simpl. rewrite fmap_app, elem_of_app.
  intros [?|Hp]; [by left|right]. destruct op as [| | | |now q| |]; simpl in Hp; try by apply elem_of_nil in Hp.
  destruct (receive_packet now q (cn_module x)) as [s' r] eqn:Hrun. simpl in Hp.
  apply receive_run in Hrun. destruct r as [t|]; [|by apply elem_of_nil in Hp].
  apply list_elem_of_singleton in Hp as ->. destruct Hrun as (c & Ha & _). exists now. split; [done|apply Ha].
Qed.
Lemma chain_op_refunded op x p :
  p ∈ cn_refunded (chain_op op x) →
  p ∈ cn_refunded x ∨ ∃ now n, op = OpTimeout now n ∧ sent_packet (cn_module x) n = Some p.
Proof.
  unfold chain_op. destruct (ibc_op op (cn_module x)). simpl. rewrite elem_of_app.
  intros [?|Hp]; [by left|right]. destruct op as [| | | | | |now n]; simpl in Hp; try by apply elem_of_nil in Hp.
  destruct (timeout_packet now n (cn_module x)) as [s' r] eqn:Hrun. simpl in Hp.
  apply timeout_run in Hrun. destruct r as [q|]; [|by apply elem_of_nil in Hp].
  apply list_elem_of_singleton in Hp as ->. exists now, n. split; [done|apply Hrun].
Qed.
(** Only [OpHeight] moves the height and only [OpAck] acknowledges. *)
Lemma ibc_op_frame op s :
  let s' := (ibc_op op s).1 in
  match op with OpHeight h => im_current_height s' = h | _ => im_current_height s' = im_current_height s end ∧
  (∀ n, n ∈ im_acknowledged_packets s' → n ∈ im_acknowledged_packets s ∨ op = OpAck n).
Proof.
  destruct op as [h|port cport cch ord|id st|now t|now p|m|now m]; simpl.
  - tauto.
  - destruct (open_channel _ _ _ _ _) as [s' r] eqn:Hrun. apply open_run in Hrun.
    destruct r; [destruct Hrun as (_ & ? & _ & _ & ->)|subst s']; simpl; tauto.
  - destruct (set_channel_state _ _ _) as [s' r] eqn:Hrun. apply state_run in Hrun.
    destruct r; [destruct Hrun as (? & _ & _ & ->)|subst s']; simpl; tauto.
  - destruct (send_transfer _ _ _) as [s' r] eqn:Hrun. apply send_run in Hrun.
    destruct r; [destruct Hrun as (? & _ & _ & _ & _ & _ & _ & ->)|subst s']; simpl; tauto.
  - destruct (receive_packet _ _ _) as [s' r] eqn:Hrun. apply receive_run in Hrun.
    destruct r; [destruct Hrun as (? & _ & ->)|destruct Hrun as [->|(? & ? & _ & ->)]]; simpl; tauto.
  - destruct (acknowledge_packet _ _) as [s' r] eqn:Hrun. apply ack_run in Hrun.
    destruct r; [destruct Hrun as (_ & _ & ->)|subst s']; simpl; [|tauto]. split; [done|].
    intros n [->%elem_of_singleton|?]%elem_of_union; tauto.
  - destruct (timeout_packet _ _ _) as [s' r] eqn:Hrun. apply timeout_run in Hrun.
    destruct r; [destruct Hrun as (_ & _ & _ & ->)|subst s']; simpl; tauto.
Qed.
Lemma chain_op_module op x : cn_module (chain_op op x) = (ibc_op op (cn_module x)).1.
Proof. unfold chain_op. by destruct (ibc_op op (cn_module x)). Qed.
Lemma chain_op_sent op x : ∃ l, cn_sent (chain_op op x) = cn_sent x ++ l.
Proof. unfold chain_op. destruct (ibc_op op (cn_module x)). by eexists. Qed.
Lemma timed_out_later now now' s s' p :
  now ≤ now' → im_current_height s ≤ im_current_height s' →
  timed_out now s p = true → timed_out now' s' p = true.
Proof.
  unfold timed_out, unix_timestamp. intros Hn Hh.
  rewrite !orb_true_iff, !andb_true_iff, !negb_true_iff, !Z.eqb_neq, !Z.leb_le.
  destruct (Z.leb_spec 0 now), (Z.leb_spec 0 now'); naive_solver lia.
Qed.

(** ** The two together *)

(** [y] accepts only what [x] sent, [x] sees acknowledged only what [y] accepted, and a
    careful relayer refunds on [x] only what [y] has not accepted and never will. *)
Record faces (careful : bool) (now : Z) (x y : Chain) : Prop := {
  fa_sent p : p ∈ (cn_accepted y).*1 → p ∈ (cn_sent x).*1;
  fa_acked n : n ∈ im_acknowledged_packets (cn_module x) →
    ∃ p, p ∈ (cn_accepted y).*1 ∧ pk_sequence p = n;
  fa_refunded p : careful = true → p ∈ cn_refunded x →
    p ∉ (cn_accepted y).*1 ∧ timed_out now (cn_module y) p = true
}.
Lemma faces_tick careful now now' x y :
  now ≤ now' → faces careful now x y → faces careful now' x y.
Proof.
  intros Hn [Hs Ha Hr]. split; [done..|]. intros p Hc Hp. destruct (Hr p Hc Hp) as [? Ht].
  split; [done|]. by apply (timed_out_later now now' _ _ _ Hn (Z.le_refl _)).
Qed.
Lemma faces_sender careful now x y op :
  permitted careful now y x op → faces careful now x y → faces careful now (chain_op op x) y.
Proof.
  intros Hp [Hs Ha Hr]. split.
  - intros p Hin. destruct (chain_op_sent op x) as [l ->]. rewrite fmap_app, elem_of_app. left. by apply Hs.
  - intros n. rewrite chain_op_module. intros [Hn| ->]%(proj2 (ibc_op_frame op _)); [by apply Ha|].
    apply list_elem_of_fmap in Hp as (p & -> & Hin). by exists p.
  - intros p Hc [Hin|(now' & n & -> & Hn)]%chain_op_refunded; [by apply Hr|].
    destruct Hp as [-> Hp]. rewrite Hc, Hn in Hp. by apply and_comm.
Qed.
Lemma faces_receiver careful now x y op :
  permitted careful now x y op → faces careful now x y → faces careful now x (chain_op op y).
Proof.
  intros Hp [Hs Ha Hr].
  assert (∀ p, p ∈ (cn_accepted y).*1 → p ∈ (cn_accepted (chain_op op y)).*1) as Hmono.
  { intros p Hin. unfold chain_op. destruct (ibc_op op (cn_module y)). simpl.
    rewrite fmap_app, elem_of_app. by left. }
  assert (im_current_height (cn_module y) ≤ im_current_height (cn_module (chain_op op y))) as Hh.
  { rewrite chain_op_module. pose proof (proj1 (ibc_op_frame op (cn_module y))) as Heq. revert Heq.
    destruct op; intros ->; try done; exact Hp. }
  split.
  - intros p [Hin|(now' & -> & _)]%chain_op_accepted; [by apply Hs|]. apply Hp.
  - intros n Hn. destruct (Ha n Hn) as (p & Hin & Hseq). exists p. split; [by apply Hmono|done].
  - intros p Hc Hin. destruct (Hr p Hc Hin) as [Hna Ht]. split.
    + intros [Hacc|(now' & -> & Hto)]%chain_op_accepted; [done|]. destruct Hp as [-> _]. congruence.
    + by apply (timed_out_later now now (cn_module y)).
Qed.

Record bridge_inv (careful : bool) (b : Bridge) : Prop := {
  bi_here : chain_inv (bg_here b);
  bi_there : chain_inv (bg_there b);
  bi_out : faces careful (bg_now b) (bg_here b) (bg_there b);
  bi_back : faces careful (bg_now b) (bg_there b) (bg_here b)
}.
Lemma bridge_inv_reachable careful c d b :
  rtc (bridge_step careful) (bridge_new c d) b → bridge_inv careful b.
Proof.
  apply (rtc_ind_r (bridge_inv careful)).
  - split; [apply chain_inv_new..| |]; split; simpl; try by intros ? ?%elem_of_nil.
    all: try set_solver.
  - intros b1 b2 _ Hstep [Hx Hy Ho Hb]. destruct Hstep as [now Hn|op Hp|op Hp]; split; simpl; try done.
    + by apply (faces_tick _ (bg_now b1)).
    + by apply (faces_tick _ (bg_now b1)).
    + by eapply chain_op_inv.
    + by apply faces_sender.
    + by apply faces_receiver.
    + by eapply chain_op_inv.
    + by apply faces_receiver.
    + by apply faces_sender.
Qed.

(** The two directions. *)
Definition directions (b : Bridge) : list (Chain * Chain) :=
  [(bg_here b, bg_there b); (bg_there b, bg_here b)].
Lemma direction_inv careful c d b x y :
  rtc (bridge_step careful) (bridge_new c d) b → (x, y) ∈ directions b →
  chain_inv x ∧ chain_inv y ∧ faces careful (bg_now b) x y.
Proof.
  intros [Hx Hy Ho Hb]%bridge_inv_reachable [[= -> ->]|[[= -> ->]|[]%elem_of_nil]%elem_of_cons]%elem_of_cons;
    done.
Qed.
Lemma sent_NoDup x : chain_inv x → NoDup (map pk_sequence (cn_sent x).*1) ∧ NoDup (cn_sent x).*1.
Proof.
  intros [_ S I]. assert (NoDup (map pk_sequence (cn_sent x).*1)) as Hnd.
  { change (NoDup (pk_sequence <$> (fst <$> cn_sent x))). rewrite <-list_fmap_compose.
    change (NoDup (map (pk_sequence ∘ fst) (cn_sent x))). rewrite (li_seqs _ I), (se_sent _ _ S).
    apply NoDup_seqZ. }
  split; [done|]. by apply (NoDup_fmap_1 pk_sequence).
Qed.
Lemma accepted_NoDup x : chain_inv x → NoDup (cn_accepted x).*1.
Proof.
  intros [R _ I]. rewrite (li_accepted _ I). apply (NoDup_fmap_1 receipt_key), R.
Qed.
Lemma refunded_NoDup x : chain_inv x → NoDup (cn_refunded x).
Proof.
  intros [_ S I]. apply (NoDup_fmap_1 pk_sequence).
  change (NoDup (map pk_sequence (cn_refunded x))). rewrite (li_refunded _ I).
  pose proof (se_once _ _ S) as Hnd. clear S. revert Hnd. unfold settled_seqs, timed_out_seqs.
  induction (cn_events x) as [|[n|p|n|n] l IH]; simpl; [done|exact IH|exact IH|..].
  - intros [_ Hnd]%NoDup_cons. by apply IH.
  - intros [Hn Hnd]%NoDup_cons. apply NoDup_cons. split; [|by apply IH].
    intros (e & He & Hm)%list_elem_of_omap. apply Hn, list_elem_of_omap. exists e. split; [done|].
    by destruct e.
Qed.
End bridge.

Section laws.
Context `{!SerdeJson IbcTransfer, !SerdeJsonLaws IbcTransfer transfer_wf}.

Lemma sent_decodes x p t :
  log_inv x → (p, t) ∈ cn_sent x → from_json (bytes_str (pk_data p)) = Ok t.
Proof.
  intros I (Hd & _ & _ & Hwf & _)%(li_sent _ I). rewrite Hd, bytes_str_bytes. by apply from_to_json.
Qed.
Lemma accepted_pair careful now x y p t :
  log_inv x → log_inv y → faces careful now x y → (p, t) ∈ cn_accepted y → (p, t) ∈ cn_sent x.
Proof.
  intros Ix Iy F Hp. assert (p ∈ (cn_sent x).*1) as ([p' t'] & -> & Hs)%list_elem_of_fmap.
  { apply (fa_sent _ _ _ _ F), list_elem_of_fmap. by exists (p, t). }
  simpl in *. pose proof (sent_decodes _ _ _ Ix Hs). pose proof (li_decoded _ Iy _ _ Hp). congruence.
Qed.
Lemma sent_values x token : log_inv x → Forall (λ p, 0 ≤ packet_value token p) (cn_sent x).*1.
Proof.
  intros I. apply Forall_forall. intros p ([q t] & -> & Hs)%list_elem_of_fmap. simpl.
  unfold packet_value. rewrite (sent_decodes _ _ _ I Hs). apply (li_sent _ I) in Hs as (_ & _ & _ & [Ha _] & _).
  case_bool_decide; [apply Ha|done].
Qed.
End laws.

Section delivery.
Context `{!SerdeJson IbcTransfer, !SerdeJsonLaws IbcTransfer transfer_wf}.
(** [serde_json] reads nothing from an empty input. *)
Hypothesis empty_input : ∀ t : IbcTransfer, from_json EmptyString ≠ Ok t.

(** A packet of an honest sender passes every check of [receive_packet]. *)
Lemma check_packet_passes now x p t s c :
  log_inv x → (p, t) ∈ cn_sent x →
  channel s (pk_destination_channel p) = Some c → ch_state c = Open ∨ ch_state c = TryOpen →
  bound p c → timed_out now s p = false →
  has_received s (pk_source_channel p) (pk_sequence p) = false →
  (ch_ordering c = Ordered → pk_sequence p = expected_recv_sequence s (pk_destination_channel p)) →
  check_packet now p s = Ok t.
Proof.
  unfold channel, has_received. intros I Hs Hc Hst [Hb1 Hb2 Hb3] Ht Hr Ho.
  pose proof (sent_decodes _ _ _ I Hs) as Hj. apply (li_sent _ I) in Hs as (Hd & Hsrc & Hts & _ & Hv & Hlen & Hseq).
  assert (pk_data p ≠ []) as Hne.
  { intros Hn. rewrite Hn in Hj. by apply empty_input in Hj. }
  assert (bool_decide (ch_ordering c = Ordered)
    && negb (pk_sequence p =? expected_recv_sequence s (pk_destination_channel p)) = false) as Hord.
  { destruct (bool_decide_reflect (ch_ordering c = Ordered)) as [Hor|];
      [rewrite (Ho Hor), Z.eqb_refl|]; done. }
  unfold check_packet, fail_if. rewrite (proj2 (Z.eqb_neq (pk_sequence p) 0)) by lia.
  rewrite (bool_decide_eq_false_2 _ Hne).
  rewrite (proj2 (Z.ltb_ge MAX_PACKET_BYTES (Z.of_nat (length (pk_data p))))) by done.
  cbn [ok_or mbind result_bind].
  rewrite Hc. cbn [ok_or mbind result_bind].
  rewrite (bool_decide_eq_true_2 _ Hb1), (bool_decide_eq_true_2 _ Hb2), (bool_decide_eq_true_2 _ Hb3).
  rewrite (proj2 (Z.eqb_neq _ _) Hts), andb_false_r, Ht, Hr.
  destruct Hst as [->| ->]; cbn [ok_or mbind result_bind negb orb]; rewrite Hord, Hj;
    cbn [map_err mbind result_bind]; rewrite Hv; cbn [mbind result_bind];
    by rewrite bool_decide_eq_true_2.
Qed.
End delivery.

(** ** Properties *)

(** C17. Nothing is created in transit. Two chains run any calls on their modules,
    in any order, and a relayer that makes up no packet loses, delays, reorders and
    repeats what it carries. In each direction the transfers accepted are among the
    transfers sent, each at most as often and with the content it was sent with, so
    that of no token more arrives than was sent; an acknowledged packet was accepted
    and is not refunded. If in addition timeouts are only reported of packets the other
    side can no longer accept, the packets accepted and the packets refunded are
    disjoint: no escrow is released twice. *)
Theorem relay_conserves `{!SerdeJson IbcTransfer, !SerdeJsonLaws IbcTransfer transfer_wf}
    (careful : bool) (c d : IbcConfig) (b : Bridge) (x y : Chain) :
  rtc (bridge_step careful) (bridge_new c d) b → (x, y) ∈ directions b →
  cn_accepted y ⊆+ cn_sent x ∧
  (∀ token, zsum (packet_value token) (cn_accepted y).*1 ≤ zsum (packet_value token) (cn_sent x).*1) ∧
  (∀ n, is_acknowledged (cn_module x) n = true →
     n ∈ map pk_sequence (cn_accepted y).*1 ∧ n ∉ map pk_sequence (cn_refunded x)) ∧
  (careful = true →
     (cn_accepted y).*1 ++ cn_refunded x ⊆+ (cn_sent x).*1 ∧
     ∀ token, zsum (packet_value token) (cn_accepted y).*1 + zsum (packet_value token) (cn_refunded x)
              ≤ zsum (packet_value token) (cn_sent x).*1).
Proof.
  intros Hb Hd. destruct (direction_inv _ _ _ _ _ _ Hb Hd) as (Cx & Cy & F).
  pose proof (sent_NoDup _ Cx) as [_ Hnd]. pose proof (accepted_NoDup _ Cy) as Hacc.
  pose proof (sent_values x) as Hv. pose proof (ci_log _ Cx) as Ix. pose proof (ci_log _ Cy) as Iy.
  assert (cn_accepted y ⊆+ cn_sent x) as Hsub.
  { apply NoDup_submseteq; [by apply (NoDup_fmap_1 fst)|]. intros [p t]. by apply (accepted_pair careful (bg_now b)). }
  split_and!; [done| | |].
  - intros token. apply zsum_submseteq; [by apply fmap_submseteq|by apply Hv].
  - intros n Hn%bool_decide_eq_true. split.
    + destruct (fa_acked _ _ _ _ F n Hn) as (p & Hp & <-). by apply list_elem_of_fmap_2.
    + rewrite (li_refunded _ Ix). intros Ht.
      by apply (se_acked _ _ (ci_send _ Cx)), (se_held _ _ (ci_send _ Cx)) in Hn as [_ Hn].
  - intros Hc. assert ((cn_accepted y).*1 ++ cn_refunded x ⊆+ (cn_sent x).*1) as Hall.
    { apply NoDup_submseteq.
      - apply NoDup_app. split_and!; [done| |by apply refunded_NoDup].
        intros p Hp Hr. by destruct (fa_refunded _ _ _ _ F p Hc Hr).
      - intros p [Hp|Hp]%elem_of_app; [by apply (fa_sent _ _ _ _ F)|by apply (li_refunds _ Ix)]. }
    split; [done|]. intros token. rewrite <-zsum_app. apply zsum_submseteq; [done|by apply Hv].
Qed.

(** C23. A packet that may still arrive does arrive. Whatever happened before, a packet
    one chain sent is accepted by the other as soon as it is delivered, and returns the
    transfer that was sent, provided the channel it names is open (or half open), is
    bound to the sender's and expects it, it has neither expired nor been received, and
    the channel's counter has room. *)
Theorem relay_delivers `{!SerdeJson IbcTransfer, !SerdeJsonLaws IbcTransfer transfer_wf}
    (careful : bool) (c d : IbcConfig) (b : Bridge) (x y : Chain) (p : IbcPacket) (t : IbcTransfer)
    (ch : IbcChannel) :
  (∀ u : IbcTransfer, from_json EmptyString ≠ Ok u) →
  rtc (bridge_step careful) (bridge_new c d) b → (x, y) ∈ directions b → (p, t) ∈ cn_sent x →
  ic_enabled (im_config (cn_module y)) = true →
  channel (cn_module y) (pk_destination_channel p) = Some ch →
  ch_state ch = Open ∨ ch_state ch = TryOpen → bound p ch →
  timed_out (bg_now b) (cn_module y) p = false →
  has_received (cn_module y) (pk_source_channel p) (pk_sequence p) = false →
  let expected := expected_recv_sequence (cn_module y) (pk_destination_channel p) in
  (ch_ordering ch = Ordered → pk_sequence p = expected) → expected < u64_max →
  permitted careful (bg_now b) x y (OpReceive (bg_now b) p) ∧
  let y' := chain_op (OpReceive (bg_now b) p) y in
  cn_accepted y' = cn_accepted y ++ [(p, t)] ∧
  has_received (cn_module y') (pk_source_channel p) (pk_sequence p) = true ∧
  expected_recv_sequence (cn_module y') (pk_destination_channel p)
  = Z.max expected (pk_sequence p) + 1.
Proof.
  intros He Hb Hd Hs Hen Hc Hst Hbd Ht Hr expected Ho Hroom.
  destruct (direction_inv _ _ _ _ _ _ Hb Hd) as (Cx & _ & _). pose proof (ci_log _ Cx) as Ix.
  split. { split; [done|]. apply list_elem_of_fmap. by exists (p, t). }
  pose proof (check_packet_passes He (bg_now b) x p t _ ch Ix Hs Hc Hst Hbd Ht Hr Ho) as Hok.
  pose proof (li_sent _ Ix p t Hs) as (_ & _ & _ & _ & _ & _ & Hseq).
  assert (receive_packet (bg_now b) p (cn_module y)
    = (receipted p (Z.max expected (pk_sequence p) + 1) (cn_module y), Ok t)) as Hrun.
  { unfold receive_packet, ensure_enabled. run_unfold. rewrite Hen. simpl. rewrite Hok. fold expected.
    unfold checked_add. rewrite (proj2 (Z.leb_le _ _)) by lia.
    unfold receipted, with_next_recv, with_received. simpl. by rewrite insert_insert_eq. }
  unfold chain_op. simpl. rewrite Hrun. simpl. split_and!; [done| |].
  - apply bool_decide_eq_true. simpl. set_solver.
  - rewrite expected_receipted. by case_decide.
Qed.

(** *** Concrete runs *)
Import RefIbc.
Lemma c_transfer_ok : codec_ok c_transfer transfer_wf.
Proof.
  eapply codec_ok_weaken; [apply c_iso_ok; [by intros []|repeat codec_step]|].
  intros [] (Ha & Hr & Ht & Hs); simpl in *; split_and!; done.
Qed.
#[local] Instance json_transfer_laws : SerdeJsonLaws IbcTransfer transfer_wf :=
  codec_json_laws c_transfer transfer_wf c_transfer_ok.

(** Both chains open [n] channels to each other. *)
Definition connect (n : nat) (ordering : ChannelOrdering) : list Move :=
  Tick 7 :: mjoin (map (λ i, let id := channel_name (Z.of_nat i) in
    [Here (OpOpen "transfer" "transfer" id ordering); There (OpOpen "transfer" "transfer" id ordering);
     Here (OpState id Open); There (OpState id Open)]) (seq 0 n)).
Definition transfer_on (id : string) : IbcTransfer :=
  {| tf_sender := addr 1; tf_receiver := "cosmos1"; tf_token := "usub"; tf_amount := 5;
     tf_source_channel := id |}.
(** The packet a chain connected at time 7 sends with this number. *)
Definition numbered (id : string) (n : Z) : IbcPacket :=
  {| pk_sequence := n; pk_source_port := "transfer"; pk_source_channel := id;
     pk_destination_port := "transfer"; pk_destination_channel := id;
     pk_data := str_bytes (to_json (transfer_on id)); pk_timeout_height := 1000;
     pk_timeout_timestamp := 607 |}.
Definition relayed (careful : bool) (ms : list Move) : Bridge :=
  default (bridge_new ibc_config_default ibc_config_default)
    (moves careful ms (bridge_new ibc_config_default ibc_config_default)).
Definition lossy_run : list Move :=
  connect 1 Unordered ++
  [Here (OpSend 7 (transfer_on "channel-0")); Here (OpSend 7 (transfer_on "channel-0"));
   There (OpReceive 7 (numbered "channel-0" 1)); There (OpReceive 7 (numbered "channel-0" 1));
   Here (OpAck 1); Tick 700; Here (OpTimeout 700 2); There (OpReceive 700 (numbered "channel-0" 2))].
Lemma lossy_moves :
  moves true lossy_run (bridge_new ibc_config_default ibc_config_default) = Some (relayed true lossy_run).
Proof. by vm_compute. Qed.
Lemma relay_conserves_witness :
  let '(x, y) := (bg_here (relayed true lossy_run), bg_there (relayed true lossy_run)) in
  zsum (packet_value "usub") (cn_sent x).*1 = 10 ∧
  zsum (packet_value "usub") (cn_accepted y).*1 = 5 ∧ zsum (packet_value "usub") (cn_refunded x) = 5 ∧
  zsum (packet_value "usub") (cn_accepted y).*1 + zsum (packet_value "usub") (cn_refunded x)
  ≤ zsum (packet_value "usub") (cn_sent x).*1.
Proof.
  split; [by vm_compute|]. split; [by vm_compute|]. split; [by vm_compute|].
  exact (proj2 (proj2 (proj2 (proj2 (relay_conserves true ibc_config_default ibc_config_default
    (relayed true lossy_run) (bg_here (relayed true lossy_run)) (bg_there (relayed true lossy_run))
    (moves_reachable _ _ _ _ lossy_moves) (list_elem_of_here _ _)))) eq_refl) "usub").
Defined.

Definition sending_run : list Move :=
  connect 1 Unordered ++ [Here (OpSend 7 (transfer_on "channel-0"))].
Lemma sending_moves :
  moves false sending_run (bridge_new ibc_config_default ibc_config_default)
  = Some (relayed false sending_run).
Proof. by vm_compute. Qed.
Lemma sending_sent :
  cn_sent (bg_here (relayed false sending_run)) = [(numbered "channel-0" 1, transfer_on "channel-0")].
Proof. by vm_compute. Qed.
Definition waiting_channel : IbcChannel :=
  {| ch_channel_id := "channel-0"; ch_port_id := "transfer"; ch_state := Open; ch_ordering := Unordered;
     ch_counterparty_channel_id := "channel-0"; ch_counterparty_port_id := "transfer" |}.
Lemma sending_channel :
  channel (cn_module (bg_there (relayed false sending_run))) "channel-0" = Some waiting_channel.
Proof. by vm_compute. Qed.
Lemma relay_delivers_witness :
  cn_accepted (chain_op (OpReceive 7 (numbered "channel-0" 1)) (bg_there (relayed false sending_run)))
  = [(numbered "channel-0" 1, transfer_on "channel-0")].
Proof.
  refine (proj1 (proj2 (relay_delivers false ibc_config_default ibc_config_default
    (relayed false sending_run) (bg_here (relayed false sending_run))
    (bg_there (relayed false sending_run)) (numbered "channel-0" 1) (transfer_on "channel-0")
    waiting_channel _ (moves_reachable _ _ _ _ sending_moves) (list_elem_of_here _ _) _ _
    sending_channel (or_introl eq_refl) _ _ _ _ _))).
  - intros u Hu. vm_compute in Hu. discriminate Hu.
  - rewrite sending_sent. left.
  - vm_compute. reflexivity.
  - split; reflexivity.
  - vm_compute. reflexivity.
  - vm_compute. reflexivity.
  - intros Hu. discriminate Hu.
  - vm_compute. reflexivity.
Defined.

(** *** Where the module falls short of the relayed protocol *)

(** [timeout_packet] asks only the local height and clock: a packet that was delivered
    but whose acknowledgement is late is refunded as well. *)
Lemma delivered_and_refunded :
  let b := relayed false (sending_run ++ [There (OpReceive 7 (numbered "channel-0" 1)); Tick 700;
                                          Here (OpTimeout 700 1)]) in
  zsum (packet_value "usub") (cn_sent (bg_here b)).*1 = 5 ∧
  zsum (packet_value "usub") (cn_accepted (bg_there b)).*1 = 5 ∧
  zsum (packet_value "usub") (cn_refunded (bg_here b)) = 5.
Proof. by vm_compute. Qed.

(** A module numbers its packets across all its channels, while an ordered channel
    expects its own to begin with 1: a channel that does not carry packet 1 never
    delivers anything. *)
Lemma ordered_channel_starves `{!SerdeJson IbcTransfer} careful c d b x y id ch :
  rtc (bridge_step careful) (bridge_new c d) b → (x, y) ∈ directions b →
  channel (cn_module y) id = Some ch → ch_ordering ch = Ordered →
  (∀ p, p ∈ (cn_sent x).*1 → pk_destination_channel p = id → pk_sequence p ≠ 1) →
  ∀ p, p ∈ (cn_accepted y).*1 → pk_destination_channel p ≠ id.
Proof.
  intros Hb Hd Hc Ho Hfirst p Hp Hid. destruct (direction_inv _ _ _ _ _ _ Hb Hd) as (_ & Cy & F).
  pose proof (ri_ordered _ _ (ci_recv _ Cy) id ch Hc Ho) as Hon.
  assert (pk_sequence p ∈ accepted_on id (cn_events y)) as Hin.
  { apply list_elem_of_fmap_2, list_elem_of_filter. split; [done|]. by rewrite <-(li_accepted _ (ci_log _ Cy)). }
  assert (1 ∈ accepted_on id (cn_events y)) as (q & Hq & Hqs)%list_elem_of_fmap.
  { rewrite Hon in *. apply elem_of_seqZ in Hin. apply elem_of_seqZ. lia. }
  apply list_elem_of_filter in Hqs as [Hqid Hqa]. rewrite <-(li_accepted _ (ci_log _ Cy)) in Hqa.
  by apply (Hfirst q); [apply (fa_sent _ _ _ _ F)| |].
Qed.
(** So it is with the second of two ordered channels that are used in turn. *)
Lemma second_ordered_channel :
  let b := relayed true (connect 2 Ordered ++
             [Here (OpSend 7 (transfer_on "channel-0")); Here (OpSend 7 (transfer_on "channel-1"));
              There (OpReceive 7 (numbered "channel-0" 1))]) in
  map (pk_sequence ∘ fst) (cn_accepted (bg_there b)) = [1] ∧
  (receive_packet 7 (numbered "channel-1" 2) (cn_module (bg_there b))).2 = Err (InvalidSequence 1 2).
Proof. by vm_compute. Qed.
