(* ===== verification/Wallet.v ===== *)
(** * [subhost-wallet]: encrypted key storage

    [crates/subhost-wallet/src/lib.rs]. AES-256-GCM, scrypt, ed25519 and the JSON
    codec of the wallet file are interfaces; random bytes are arguments; the file
    is written with the operations of [Storage], so that a failing or
    interrupted save can be examined. *)

From Stdlib Require Import String.
From S2P Require Import Prelude Text Deps Bincode Core Storage.

Definition WALLET_VERSION : Z := 1.
Definition MAX_WALLET_FILE_BYTES : Z := 1024 * 1024.
Definition MIN_PASSWORD_CHARS : Z := 8.
Definition SALT_BYTES : nat := 32.
Definition NONCE_BYTES : nat := 12.
Definition SECRET_KEY_BYTES : nat := 32.
Definition SCRYPT_LOG_N : Z := 15.
Definition SCRYPT_R : Z := 8.
Definition SCRYPT_P : Z := 1.

(** [aes_gcm::Aes256Gcm] with a 32-byte key; [None] is the library's error. *)
Class AesGcm := {
  aes_encrypt : array 32 → bytes → bytes → option bytes;
  aes_decrypt : array 32 → bytes → bytes → option bytes
}.
Class AesGcmLaws `{!AesGcm} : Prop :=
  aes_roundtrip key nonce m c : aes_encrypt key nonce m = Some c → aes_decrypt key nonce c = Some m.
(** [scrypt]: whether [Params::new] accepts the cost parameters for a 32-byte
    key, and the derived key. *)
Class Scrypt := {
  scrypt_params : Z → Z → Z → bool;
  scrypt : string → bytes → Z → Z → Z → option (array 32)
}.

Record KdfParams := { kdf_log_n : Z; kdf_r : Z; kdf_p : Z }.
Definition kdf_default : KdfParams :=
  {| kdf_log_n := SCRYPT_LOG_N; kdf_r := SCRYPT_R; kdf_p := SCRYPT_P |}.
Record EncryptedKey := {
  ek_ciphertext : bytes;
  ek_salt : bytes;
  ek_nonce : bytes;
  ek_kdf : KdfParams
}.
Record Wallet := {
  w_address : string;
  w_encrypted_key : bytes;
  w_salt : bytes;
  w_nonce : bytes;
  w_version : Z;
  w_kdf : KdfParams
}.
Inductive WalletError :=
| KeyDerivationFailed
| WeakKdfParameters
| WalletEncryptionFailed
| WalletDecryptionFailed
| WalletIo (message : string)
| WalletSerialization (message : string)
| InvalidPrivateKey
| AddressMismatch
| WeakPassword
| WalletUnsupportedVersion (version : Z)
| FileTooLarge.
(** [impl Display for WalletError] *)
Definition wallet_error_to_string (e : WalletError) : string :=
  match e with
  | KeyDerivationFailed => "key derivation failed"
  | WeakKdfParameters => "scrypt parameters are below the minimum accepted cost"
  | WalletEncryptionFailed => "encryption failed"
  | WalletDecryptionFailed => "decryption failed (wrong password or corrupt wallet)"
  | WalletIo message => "I/O error: " +:+ message
  | WalletSerialization message => "serialization error: " +:+ message
  | InvalidPrivateKey => "private key must be 32 bytes of hex"
  | AddressMismatch => "wallet address does not match the decrypted private key"
  | WeakPassword => "password must contain at least " +:+ fmt_dec MIN_PASSWORD_CHARS +:+ " characters"
  | WalletUnsupportedVersion v => "unsupported wallet version: " +:+ fmt_dec v
  | FileTooLarge => "wallet file exceeds the maximum size"
  end.

Definition validate_password (password : string) : result WalletError unit :=
  fail_if (chars_count password <? MIN_PASSWORD_CHARS) WeakPassword.

Section wallet.
Context `{!Blake3, !Hex, !Ed25519, !AesGcm, !Scrypt, !SerdeJson Wallet}.

(** [PrivateKey::public_key] and [PrivateKey::address]. *)
Definition private_public_key (secret : array 32) : array 32 := ed_public_key secret.
Definition private_address (secret : array 32) : Address :=
  from_public_key (array_bytes (private_public_key secret)).
Definition derive_address (secret : array 32) : Address :=
  from_public_key (array_bytes (ed_public_key secret)).

Definition kdf_validate (k : KdfParams) : result WalletError unit :=
  _ ← fail_if (kdf_log_n k <? 14) WeakKdfParameters;
  fail_if (negb (scrypt_params (kdf_log_n k) (kdf_r k) (kdf_p k))) KeyDerivationFailed.
Definition derive_encryption_key (password : string) (salt : bytes) (k : KdfParams)
  : result WalletError (array 32) :=
  _ ← kdf_validate k;
  ok_or (scrypt password salt (kdf_log_n k) (kdf_r k) (kdf_p k)) KeyDerivationFailed.
Definition encrypt_private_key (secret : array 32) (password : string) (k : KdfParams)
  (salt : array SALT_BYTES) (nonce : array NONCE_BYTES) : result WalletError EncryptedKey :=
  key ← derive_encryption_key password (array_bytes salt) k;
  ciphertext ← ok_or (aes_encrypt key (array_bytes nonce) (array_bytes secret)) WalletEncryptionFailed;
  Ok {| ek_ciphertext := ciphertext; ek_salt := array_bytes salt; ek_nonce := array_bytes nonce;
        ek_kdf := k |}.
Definition decrypt_private_key (e : EncryptedKey) (password : string) : result WalletError (array 32) :=
  _ ← fail_if (negb (bool_decide (length (ek_salt e) = SALT_BYTES))
               || negb (bool_decide (length (ek_nonce e) = NONCE_BYTES))) WalletDecryptionFailed;
  key ← derive_encryption_key password (ek_salt e) (ek_kdf e);
  plaintext ← ok_or (aes_decrypt key (ek_nonce e) (ek_ciphertext e)) WalletDecryptionFailed;
  ok_or (to_array SECRET_KEY_BYTES plaintext) WalletDecryptionFailed.

Definition from_secret (secret : array 32) (password : string) (salt : array SALT_BYTES)
  (nonce : array NONCE_BYTES) : result WalletError Wallet :=
  _ ← validate_password password;
  let a := derive_address secret in
  encrypted ← encrypt_private_key secret password kdf_default salt nonce;
  Ok {| w_address := address_to_string a; w_encrypted_key := ek_ciphertext encrypted;
        w_salt := ek_salt encrypted; w_nonce := ek_nonce encrypted; w_version := WALLET_VERSION;
        w_kdf := ek_kdf encrypted |}.
(** [Wallet::new] on the secret it draws. *)
Definition wallet_new (secret : array 32) (password : string) (salt : array SALT_BYTES)
  (nonce : array NONCE_BYTES) : result WalletError Wallet := from_secret secret password salt nonce.
Definition from_private_key (private_key_hex password : string) (salt : array SALT_BYTES)
  (nonce : array NONCE_BYTES) : result WalletError Wallet :=
  let trimmed := trim_start_matches "0x" (trim private_key_hex) in
  bs ← map_err (λ _, InvalidPrivateKey) (hex_decode trimmed);
  secret ← ok_or (to_array SECRET_KEY_BYTES bs) InvalidPrivateKey;
  from_secret secret password salt nonce.

(** The file operations of [save] once the JSON text exists. *)
Definition save_ops (json : string) : list FsOp :=
  [NewTemp; SetPermissions; WriteAll (str_bytes json); SyncFile; RenameOver; SyncDir].
Definition wallet_io (e : StorageError) : WalletError :=
  match e with Io _ source => WalletIo source | _ => WalletIo EmptyString end.
Definition save (io : FsOp → option string) (w : Wallet) (d : Disk) : Disk * result WalletError unit :=
  if negb (w_version w =? WALLET_VERSION) then (d, Err (WalletUnsupportedVersion (w_version w)))
  else match io CreateDirAll with
       | Some e => (d, Err (WalletIo e))
       | None => let '(d, r) := run_ops io (λ _, EmptyString) (save_ops (to_json w)) d in
                 (d, map_err wallet_io r)
       end.
(** [io_meta] and [io_read] are the errors of [fs::metadata] and
    [fs::read_to_string]; both fail on a file that does not exist. *)
Definition read (io_meta io_read : option string) (d : Disk) : result WalletError Wallet :=
  match d_target d with
  | None => Err (WalletIo "No such file or directory (os error 2)")
  | Some f =>
      _ ← match io_meta with Some e => Err (WalletIo e) | None => Ok () end;
      _ ← fail_if (MAX_WALLET_FILE_BYTES <? Z.of_nat (length (f_bytes f))) FileTooLarge;
      _ ← match io_read with Some e => Err (WalletIo e) | None => Ok () end;
      wallet ← map_err WalletSerialization (from_json (bytes_str (f_bytes f)));
      _ ← fail_if (negb (w_version wallet =? WALLET_VERSION))
            (WalletUnsupportedVersion (w_version wallet));
      Ok wallet
  end.
Definition wallet_load (io_meta io_read : option string) (password : string) (d : Disk)
  : result WalletError (Wallet * array 32) :=
  _ ← validate_password password;
  wallet ← read io_meta io_read d;
  private_key ← decrypt_private_key {| ek_ciphertext := w_encrypted_key wallet; ek_salt := w_salt wallet;
                                       ek_nonce := w_nonce wallet; ek_kdf := w_kdf wallet |} password;
  _ ← fail_if (negb (bool_decide (w_address wallet = address_to_string (derive_address private_key))))
        AddressMismatch;
  Ok (wallet, private_key).
Definition parsed_address (w : Wallet) : result WalletError Address :=
  map_err (λ _, AddressMismatch) (address_from_hex (w_address w)).
Definition matches (w : Wallet) (a : Address) : bool :=
  eq_ignore_ascii_case (w_address w) (address_to_string a).
End wallet.

(** ** Saving and loading *)

Definition kdf_wf (k : KdfParams) : Prop := is_u8 (kdf_log_n k) ∧ is_u32 (kdf_r k) ∧ is_u32 (kdf_p k).
(** A wallet the Rust struct can represent. *)
Definition wallet_wf (w : Wallet) : Prop :=
  is_u64 (str_len (w_address w)) ∧ is_u64 (Z.of_nat (length (w_encrypted_key w))) ∧
  is_u64 (Z.of_nat (length (w_salt w))) ∧ is_u64 (Z.of_nat (length (w_nonce w))) ∧
  is_u32 (w_version w) ∧ kdf_wf (w_kdf w).
#[export] Instance wallet_wf_dec w : Decision (wallet_wf w).
Proof. unfold wallet_wf, kdf_wf. apply _. Defined.

Lemma save_ops_crash io path json k d c :
  stable d → recovered (run_ops io path (take k (save_ops json)) d).1 c →
  c = f_bytes <$> d_target d ∨ c = Some (str_bytes json).
Proof.
  intros [Ht Hsh Hf]. destruct d as [t tmp sh]. simpl in *. subst.
  assert (∀ tmp', recovered {| d_target := t; d_temp := tmp'; d_shadow := None |} c →
    c = f_bytes <$> t) as Hold.
  { intros tmp' [Hc|(s & [=] & _)]. simpl in Hc. unfold after_crash in Hc.
    destruct t as [f|]; [|done]. by rewrite (Hf f eq_refl) in Hc. }
  assert (∀ tmp' sh', (∀ s, sh' = Some s → s = t) →
    recovered {| d_target := Some {| f_bytes := str_bytes json; f_synced := true |};
                 d_temp := tmp'; d_shadow := sh' |} c →
    c = f_bytes <$> t ∨ c = Some (str_bytes json)) as Hnew.
  { intros tmp' sh' Hs' [Hc|(s & Hs & Hc)]; [by right|]. left. apply (Hold None). left.
    simpl. by rewrite <-(Hs' s Hs). }
  do 7 (destruct k as [|k]; [simpl; io_cases; cbn; try (by intros ?%Hold; left);
    apply Hnew; naive_solver|]).
  simpl. io_cases; cbn; try (by intros ?%Hold; left); apply Hnew; naive_solver.
Qed.

Section wallet_facts.
Context `{!Blake3, !Hex, !Ed25519, !AesGcm, !AesGcmLaws, !Scrypt, !SerdeJson Wallet}.

Lemma decrypt_encrypt secret password k salt nonce e :
  encrypt_private_key secret password k salt nonce = Ok e → decrypt_private_key e password = Ok secret.
Proof.
  unfold encrypt_private_key, decrypt_private_key. intros (key & Hkey & Hrun)%bind_Ok.
  apply ok_or_bind_Ok in Hrun as (c & Hc & [= <-]). simpl.
  rewrite (array_length (n:=SALT_BYTES)), (array_length (n:=NONCE_BYTES)), !bool_decide_true by done.
  simpl. rewrite Hkey. simpl. rewrite (aes_roundtrip _ _ _ _ Hc). simpl.
  by rewrite (to_array_bytes (n:=32)).
Qed.
Lemma from_secret_Ok secret password salt nonce w :
  from_secret secret password salt nonce = Ok w →
  validate_password password = Ok () ∧ w_version w = WALLET_VERSION ∧
  w_address w = address_to_string (derive_address secret) ∧
  decrypt_private_key {| ek_ciphertext := w_encrypted_key w; ek_salt := w_salt w;
                         ek_nonce := w_nonce w; ek_kdf := w_kdf w |} password = Ok secret.
Proof.
  unfold from_secret. intros ([] & Hpw & (e & He & [= <-])%bind_Ok)%bind_Ok. simpl.
  split_and!; try done. apply decrypt_encrypt in He. by destruct e.
Qed.
Lemma read_saved `{!SerdeJsonLaws Wallet wallet_wf} w d :
  wallet_wf w → w_version w = WALLET_VERSION →
  str_len (to_json w) ≤ MAX_WALLET_FILE_BYTES →
  f_bytes <$> d_target d = Some (str_bytes (to_json w)) → read None None d = Ok w.
Proof.
  intros Hwf Hv Hlen Hd. unfold read. destruct (d_target d) as [f|]; [|done].
  injection Hd as ->. rewrite str_bytes_length. fold (str_len (to_json w)). simpl.
  rewrite (proj2 (Z.ltb_ge _ _)) by done. simpl. rewrite bytes_str_bytes, from_to_json by done. simpl.
  by rewrite Hv.
Qed.
Lemma save_succeeds w d :
  stable d → w_version w = WALLET_VERSION → ∃ d', save (λ _, None) w d = (d', Ok ()) ∧
    d_target d' = Some {| f_bytes := str_bytes (to_json w); f_synced := true |} ∧ stable d'.
Proof.
  intros [Ht Hs Hf] Hv. unfold save. rewrite Hv. simpl. eexists. split; [done|]. simpl.
  split; [done|]. split; simpl; try done. by intros f [= <-].
Qed.
Lemma load_saved `{!SerdeJsonLaws Wallet wallet_wf} secret password salt nonce w d :
  from_secret secret password salt nonce = Ok w → wallet_wf w →
  str_len (to_json w) ≤ MAX_WALLET_FILE_BYTES → stable d →
  ∃ d', save (λ _, None) w d = (d', Ok ()) ∧ stable d' ∧ read None None d' = Ok w ∧
    wallet_load None None password d' = Ok (w, secret).
Proof.
  intros Hw Hwf Hlen Hst. destruct (from_secret_Ok _ _ _ _ _ Hw) as (Hpw & Hv & Ha & Hdec).
  destruct (save_succeeds w d Hst Hv) as (d' & Hsave & Ht & Hst').
  assert (read None None d' = Ok w) as Hread by (apply read_saved; by rewrite ?Ht).
  exists d'. split_and!; try done. unfold wallet_load. rewrite Hpw. cbn [mbind result_bind]. rewrite Hread.
  cbn [mbind result_bind]. rewrite Hdec. cbn [mbind result_bind]. by rewrite Ha, bool_decide_true.
Qed.
End wallet_facts.

(** C36. A wallet made from a secret, saved and loaded with its password gives
    that secret back; whatever the file, a load that succeeds returns a key that
    controls the advertised address and needs a password of the minimum length;
    and interrupting a save after any of its file operations, or failing at any
    of them, leaves the old file or the complete new one. *)
Theorem wallet_save_load `{!Blake3, !Hex, !Ed25519, !AesGcm, !AesGcmLaws, !Scrypt, !SerdeJson Wallet,
    !SerdeJsonLaws Wallet wallet_wf} (secret : array 32) (password : string)
    (salt : array SALT_BYTES) (nonce : array NONCE_BYTES) (w : Wallet) (d : Disk) :
  from_secret secret password salt nonce = Ok w → wallet_wf w →
  str_len (to_json w) ≤ MAX_WALLET_FILE_BYTES → stable d →
  (∃ d', save (λ _, None) w d = (d', Ok ()) ∧ stable d' ∧
     wallet_load None None password d' = Ok (w, secret)) ∧
  (∀ pw d0 w0 key, wallet_load None None pw d0 = Ok (w0, key) →
     w_address w0 = address_to_string (derive_address key) ∧ MIN_PASSWORD_CHARS ≤ chars_count pw) ∧
  (∀ io path k c, recovered (run_ops io path (take k (save_ops (to_json w))) d).1 c →
     c = f_bytes <$> d_target d ∨ c = Some (str_bytes (to_json w))).
Proof.
  intros Hw Hwf Hlen Hst. split_and!.
  - destruct (load_saved _ _ _ _ w d Hw Hwf Hlen Hst) as (d' & Hsave & Hst' & _ & Hload). by exists d'.
  - intros pw d0 w0 key ([] & Hp & Hrun)%bind_Ok. apply fail_if_Ok, Z.ltb_ge in Hp.
    apply bind_Ok in Hrun as (w1 & _ & Hrun). apply bind_Ok in Hrun as (k1 & _ & Hrun).
    apply guard_Ok in Hrun as [Hm [= <- <-]]. by bool_hyps.
  - intros io path k c. by apply save_ops_crash.
Qed.

(** *** A concrete wallet *)
Module RefWallet.
#[export] Instance ref_aes : AesGcm := {|
  aes_encrypt key nonce m := Some (m ++ array_bytes (ref_blake3 (array_bytes key ++ nonce ++ m)));
  aes_decrypt key nonce c :=
    let m := take (length c - 32) c in
    if bool_decide (drop (length c - 32) c = array_bytes (ref_blake3 (array_bytes key ++ nonce ++ m)))
    then Some m else None
|}.
#[export] Instance ref_aes_laws : AesGcmLaws.
Proof.
  intros key nonce m c Hc. cbn [aes_encrypt aes_decrypt ref_aes] in *. apply (inj Some) in Hc. subst c.
  rewrite length_app, (array_length (n:=32)), Nat.add_sub, take_app_length, drop_app_length.
  by rewrite bool_decide_true.
Qed.
#[export] Instance ref_scrypt : Scrypt := {|
  scrypt_params _ _ _ := true;
  scrypt password salt _ _ _ := Some (ref_blake3 (str_bytes password ++ salt))
|}.
Definition c_kdf : codec KdfParams :=
  c_iso (λ k, ((kdf_log_n k, kdf_r k), kdf_p k))
    (λ '((n, r), p), {| kdf_log_n := n; kdf_r := r; kdf_p := p |}) (c_pair (c_pair c_u8 c_u32) c_u32).
Definition c_wallet : codec Wallet :=
  c_iso (λ w, (((((w_address w, w_encrypted_key w), w_salt w), w_nonce w), w_version w), w_kdf w))
    (λ '(((((a, e), s), n), v), k), {| w_address := a; w_encrypted_key := e; w_salt := s; w_nonce := n;
                                       w_version := v; w_kdf := k |})
    (c_pair (c_pair (c_pair (c_pair (c_pair c_string (c_list c_byte)) (c_list c_byte)) (c_list c_byte))
       c_u32) c_kdf).
Lemma c_kdf_ok : codec_ok c_kdf kdf_wf.
Proof. eapply codec_ok_weaken; [codec_record|]. by intros k (?&?&?). Qed.
Lemma c_wallet_ok : codec_ok c_wallet wallet_wf.
Proof.
  eapply codec_ok_weaken.
  - apply c_iso_ok; [by intros []|]. repeat first [apply c_kdf_ok|codec_step].
  - intros w (?&?&?&?&?&?). simpl. done.
Qed.
#[export] Instance json_wallet : SerdeJson Wallet := codec_json c_wallet.
#[export] Instance json_wallet_laws : SerdeJsonLaws Wallet wallet_wf :=
  codec_json_laws c_wallet wallet_wf c_wallet_ok.
End RefWallet.
Import RefWallet.

Definition secret1 : array 32 := array_repeat (byte_of 3) 32.
Definition wallet1 : result WalletError Wallet :=
  from_secret secret1 "faucet password" (array_repeat (byte_of 1) SALT_BYTES)
    (array_repeat (byte_of 2) NONCE_BYTES).
Definition no_disk : Disk := {| d_target := None; d_temp := None; d_shadow := None |}.
Lemma wallet_save_load_witness :
  ∃ w d, wallet1 = Ok w ∧ wallet_load None None "faucet password" d = Ok (w, secret1).
Proof.
  assert (match wallet1 with
          | Ok w => bool_decide (wallet_wf w) && (str_len (to_json w) <=? MAX_WALLET_FILE_BYTES)
          | Err _ => false end = true) as Hok by (by vm_compute).
  destruct wallet1 as [w|e] eqn:Hw; [|discriminate Hok].
  apply andb_true_iff in Hok as [Hwf%bool_decide_eq_true Hlen%Z.leb_le].
  destruct (proj1 (wallet_save_load _ _ _ _ w no_disk Hw Hwf Hlen ltac:(by split)))
    as (d & _ & _ & Hload).
  exists w, d. exact (conj eq_refl Hload).
Defined.
