(* ===== verification/Client.v ===== *)
(** * JSON-RPC over HTTP, from the client's side

    The faucet, the explorer and the command line each post a JSON-RPC call to a
    node, bound the response body, decode it and unwrap [result] or [error]. The
    three copies of that code differ only in the size limit and in how failures
    are worded, so the model has one exchange, [rpc_exchange], over a
    [ClientErrors] record. [node_transport] is the node of [RpcApi] behind a
    JSON-RPC server, and the lemmas say what an exchange with it returns and that
    the node authorizes the signed transfer every client builds. *)

From Stdlib Require Import String.
From S2P Require Import Prelude Order Text Deps Bincode Core WorldState Mempool Storage Rpc RpcApi Wallet.

Record HttpResponse := {
  hr_code : Z;
  hr_status : string;
  hr_content_length : option Z;
  hr_chunks : list (result string bytes)
}.
(** One POST of a method call to the node: [Err] when no response arrives. *)
Definition Transport (W : Type) : Type := string → list Value → W → W * result string HttpResponse.

(** What may become of a POST: it is answered, it does not reach the node, or the node
    serves it and the answer does not arrive (both clients give up after a timeout). *)
Inductive Delivery := Answered | Unsent (e : string) | Unanswered (e : string).
Definition lossy {W : Type} (net : string → Delivery) (post : Transport W) : Transport W :=
  λ method params w,
  match net method with
  | Answered => post method params w
  | Unsent e => (w, Err e)
  | Unanswered e => ((post method params w).1, Err e)
  end.

(** [StatusCode::is_success], and the codes [error_for_status] lets through. *)
Definition is_success (code : Z) : bool := (200 <=? code) && (code <? 300).
Definition error_for_status (code : Z) : bool := negb ((400 <=? code) && (code <? 600)).

(** The status codes a client accepts, and how it words each failure; the first
    argument is the method. *)
Record ClientErrors (E : Type) := {
  ce_accepts : Z → bool;
  ce_send : string → string → E;
  ce_status : string → string → E;
  ce_too_large : string → E;
  ce_read : string → string → E;
  ce_json : string → string → E;
  ce_failed : string → string → E;
  ce_no_result : string → E
}.
Arguments ce_accepts {E} _ _.
Arguments ce_send {E} _ _ _.
Arguments ce_status {E} _ _ _.
Arguments ce_too_large {E} _ _.
Arguments ce_read {E} _ _ _.
Arguments ce_json {E} _ _ _.
Arguments ce_failed {E} _ _ _.
Arguments ce_no_result {E} _ _.

(** The [while let Some(chunk)] loop, with the bytes read so far. *)
Fixpoint read_chunks {E : Type} (too_large : E) (read_failed : string → E) (limit : Z) (body : bytes)
  (chunks : list (result string bytes)) : result E bytes :=
  match chunks with
  | [] => Ok body
  | Err e :: _ => Err (read_failed e)
  | Ok chunk :: chunks =>
      if limit <? saturating_add u64_max (Z.of_nat (length body)) (Z.of_nat (length chunk))
      then Err too_large
      else read_chunks too_large read_failed limit (body ++ chunk) chunks
  end.
Definition read_bounded {E : Type} (too_large : E) (read_failed : string → E) (r : HttpResponse)
  (limit : Z) : result E bytes :=
  _ ← fail_if (match hr_content_length r with Some n => limit <? n | None => false end) too_large;
  read_chunks too_large read_failed limit [] (hr_chunks r).

Definition rpc_exchange `{!SerdeJson Value} {E W : Type} (errs : ClientErrors E) (limit : Z)
  (post : Transport W) (method : string) (params : list Value) : ST W E Value := λ w,
  match post method params w with
  | (w, Err e) => (w, Err (ce_send errs method e))
  | (w, Ok response) =>
      (w, _ ← fail_if (negb (ce_accepts errs (hr_code response))) (ce_status errs method (hr_status response));
          raw ← read_bounded (ce_too_large errs method) (ce_read errs method) response limit;
          body ← map_err (ce_json errs method) (from_json (bytes_str raw));
          match value_get "error" body with
          | Some error =>
              let message := default "unknown error" (value_get "message" error ≫= value_as_str) in
              Err (ce_failed errs method message)
          | None => ok_or (value_get "result" body) (ce_no_result errs method)
          end)
  end.

Lemma exchange_lossy `{!SerdeJson Value} {E W : Type} (errs : ClientErrors E) limit net
    (post : Transport W) method params w :
  rpc_exchange errs limit (lossy net post) method params w =
  match net method with
  | Answered => rpc_exchange errs limit post method params w
  | Unsent e => (w, Err (ce_send errs method e))
  | Unanswered e => ((post method params w).1, Err (ce_send errs method e))
  end.
Proof. unfold rpc_exchange, lossy. by destruct (net method). Qed.

(** [quantity] and [amount]: a hexadecimal string or a number. *)
Definition parse_quantity (v : Value) : option Z :=
  match v with
  | VString text => digits ← strip_prefix "0x" text; from_str_radix u64_max 16 digits
  | VNumber _ => value_as_uint u64_max v
  | _ => None
  end.
Definition parse_amount (v : Value) : option Z :=
  match v with
  | VString text => digits ← strip_prefix "0x" text; from_str_radix u128_max 16 digits
  | VNumber _ => value_as_uint u128_max v
  | _ => None
  end.
(** [parse_address] of the clients, which word its two errors differently. *)
Definition parse_recipient `{!Hex} {E : Type} (bad_shape bad_hex : E) (value : string)
  : result E Address :=
  let trimmed := trim value in
  _ ← fail_if (negb (str_len trimmed =? 42) || negb (starts_with "0x" trimmed)) bad_shape;
  map_err (λ _, bad_hex) (address_from_hex trimmed).
(** [is_tx_hash] *)
Definition is_tx_hash (value : string) : bool :=
  (str_len value =? 66) &&
  match strip_prefix "0x" value with Some digits => str_all is_ascii_hexdigit digits | None => false end.

(** The [eth_sendTransaction] request for a signed transfer. *)
Definition transfer_request `{!Hex} (public_key : array 32) (signature : array 64) (recipient : Address)
  (unsigned : Transaction) : Value :=
  VObject [("from", VString (address_to_string (tx_from unsigned)));
           ("to", VString (address_to_string recipient));
           ("value", VString (fmt_0x (tx_value unsigned)));
           ("nonce", VString (fmt_0x (tx_nonce unsigned)));
           ("gasPrice", VString (fmt_0x (tx_gas_price unsigned)));
           ("gas", VString (fmt_0x (tx_gas_limit unsigned)));
           ("chainId", VString (fmt_0x (tx_chain_id unsigned)));
           ("data", VString "0x");
           ("publicKey", VString ("0x" +:+ hex_encode (array_bytes public_key)));
           ("signature", VString ("0x" +:+ hex_encode (array_bytes signature)))].
(** The transfer all three clients build, before it is signed. *)
Definition plain_transfer (from to : Address) (value gas_price gas_limit chain_id nonce : Z)
  : Transaction :=
  {| tx_type := Transfer; tx_nonce := nonce; tx_from := from; tx_to := Some to; tx_value := value;
     tx_gas_price := gas_price; tx_gas_limit := gas_limit; tx_data := []; tx_chain_id := chain_id;
     tx_signature := EMPTY |}.

(** ** Bounded bodies *)

Definition chunk_bytes (chunks : list bytes) : bytes := concat chunks.
Lemma read_chunks_Ok {E} (big : E) rd limit body chunks out :
  Z.of_nat (length body) ≤ limit → limit < u64_max →
  read_chunks big rd limit body chunks = Ok out ↔
  ∃ cs, chunks = map Ok cs ∧ out = body ++ chunk_bytes cs ∧ Z.of_nat (length out) ≤ limit.
Proof.
  intros Hb Hl. revert body Hb. induction chunks as [|[c|e] chunks IH]; intros body Hb; simpl.
  - split.
    + intros [= <-]. exists []. by rewrite app_nil_r.
    + intros (cs & Hcs & -> & _). destruct cs; [|done]. by rewrite app_nil_r.
  - destruct (Z.ltb_spec limit (saturating_add u64_max (Z.of_nat (length body)) (Z.of_nat (length c))))
      as [Hlt|Hge].
    + split; [done|]. intros (cs & Hcs & -> & Hlen). destruct cs as [|c' cs]; [done|].
      simplify_eq/=. rewrite !length_app in Hlen. unfold saturating_add in Hlt. lia.
    + rewrite IH by (rewrite length_app; unfold saturating_add in Hge; lia). split.
      * intros (cs & -> & -> & Hlen). exists (c :: cs). simpl. by rewrite (assoc_L (++)).
      * intros (cs & Hcs & -> & Hlen). destruct cs as [|c' cs]; [done|]. simplify_eq/=.
        exists cs. by rewrite <-(assoc_L (++)).
  - split; [done|]. intros (cs & Hcs & _). by destruct cs.
Qed.
Lemma read_bounded_Ok {E} (big : E) rd r limit out :
  0 ≤ limit < u64_max →
  read_bounded big rd r limit = Ok out ↔
  (∀ n, hr_content_length r = Some n → n ≤ limit) ∧
  ∃ cs, hr_chunks r = map Ok cs ∧ out = chunk_bytes cs ∧ Z.of_nat (length out) ≤ limit.
Proof.
  intros Hl. unfold read_bounded. rewrite guard_Ok, read_chunks_Ok by (simpl; lia). simpl.
  apply and_iff_compat_r. destruct (hr_content_length r) as [n|]; simpl.
  - rewrite Z.ltb_ge. split; [by intros ? ? [= <-]|auto].
  - by split.
Qed.

(** ** Addresses in text *)
Section addresses.
Context `{!Hex, !HexLaws}.

Lemma trim_address a : trim (address_to_string a) = address_to_string a.
Proof.
  apply trim_graphic. unfold address_to_string. rewrite str_all_app. apply andb_true_iff.
  split; [by vm_compute|]. eapply str_all_impl; [apply hexdigit_graphic|apply hex_encode_digits].
Qed.
(** The texts a client accepts for an address: surrounding white space and the
    letter case are free, nothing else. *)
Lemma parse_recipient_Ok {E} (e1 e2 : E) s a :
  parse_recipient e1 e2 s = Ok a ↔ to_ascii_lowercase (trim s) = address_to_string a ∧
    starts_with "0x" (trim s) = true.
Proof.
  unfold parse_recipient. rewrite guard_Ok, map_err_Ok, address_from_hex_Ok, orb_false_iff, !negb_false_iff.
  unfold starts_with. destruct (strip_prefix "0x" (trim s)) as [d|] eqn:Hs; simpl.
  - apply strip_prefix_Some in Hs as ->. rewrite str_len_app. unfold address_to_string.
    change (to_ascii_lowercase ("0x" +:+ d)) with ("0x" +:+ to_ascii_lowercase d). split.
    + intros [_ Hd]. by rewrite Hd.
    + intros [Hd _]. apply (inj (String.append "0x")) in Hd. split; [|done]. split; [|done].
      rewrite <-(to_ascii_lowercase_len d), Hd, hex_encode_length, (array_length (n:=ADDRESS_SIZE)). done.
  - by split; [intros [[_ ?] _]|intros [_ ?]].
Qed.
Lemma parse_recipient_print {E} (e1 e2 : E) a : parse_recipient e1 e2 (address_to_string a) = Ok a.
Proof.
  apply parse_recipient_Ok. rewrite trim_address. split; [apply address_lower|apply address_to_string_prefix].
Qed.
End addresses.

(** ** A client in front of a node *)

(** The JSON-RPC server in front of the handlers (jsonrpsee): the HTTP response
    that carries the outcome of a call. *)
Class JsonRpc := { jr_respond : result RpcError Value → HttpResponse }.
Definition reply_bytes `{!JsonRpc} (r : result RpcError Value) : bytes :=
  chunk_bytes (omap res_ok (hr_chunks (jr_respond r))).
(** The server replaces a response above [MAX_RESPONSE_BODY_BYTES] by an error; a
    result leaves room for the envelope around it. *)
Definition MAX_RESULT_BYTES : Z := MAX_RESPONSE_BODY_BYTES - 256.
(** What JSON-RPC 2.0 over HTTP says of it: status 200, a complete body of the
    announced length, and in it the object with either the result or the error. *)
Class JsonRpcLaws `{!SerdeJson Value, !JsonRpc} : Prop := {
  jr_status r : hr_code (jr_respond r) = 200;
  jr_complete r : ∃ chunks, hr_chunks (jr_respond r) = map Ok chunks;
  jr_length r len : hr_content_length (jr_respond r) = Some len → len = Z.of_nat (length (reply_bytes r));
  jr_result v : json_ok v = true → str_len (to_json v) ≤ MAX_RESULT_BYTES → ∃ body, from_json (bytes_str (reply_bytes (Ok v))) = Ok body ∧
    value_get "error" body = None ∧ value_get "result" body = Some v;
  jr_error e : ∃ body error, from_json (bytes_str (reply_bytes (Err e))) = Ok body ∧
    value_get "error" body = Some error ∧ value_get "message" error = Some (VString (error_object e).2)
}.
(** Neither side cuts the reply to [r] off. *)
Definition reply_fits `{!SerdeJson Value, !JsonRpc} (limit : Z) (r : result RpcError Value) : Prop :=
  Z.of_nat (length (reply_bytes r)) ≤ limit ∧
  match r with Ok v => str_len (to_json v) ≤ MAX_RESULT_BYTES | Err _ => True end.
#[export] Instance reply_fits_dec `{!SerdeJson Value, !JsonRpc} limit r : Decision (reply_fits limit r).
Proof. unfold reply_fits. destruct r; apply _. Defined.
(** The reply to [r] is within the client's limit and is a value JSON carries. *)
Record reply_ok `{!SerdeJson Value, !JsonRpc} (limit : Z) (r : result RpcError Value) : Prop := {
  ro_fits : reply_fits limit r;
  ro_json v : r = Ok v → json_ok v = true
}.

Section node.
Context `{!Blake3, !Hex, !HexLaws, !Ed25519, !Ed25519Laws, !Serialize Transaction, !Serialize BlockHeader,
  !Serialize (list Hash), !Serialize (Hash * Z * Z * Z), !Serialize StateSnapshot,
  !Serialize LedgerSnapshot, !Deserialize LedgerSnapshot,
  !Serialize LedgerEnvelope, !Deserialize LedgerEnvelope,
  !SerdeJson Value, !JsonRpc, !JsonRpcLaws}.
Context (io : FsOp → option string) (clock : Z).

(** The node behind a server that answers every request; [lossy] is the network. *)
Definition node_transport : Transport RpcState := λ method params n,
  match assoc method (build_module io clock) with
  | Some handler => match handler (Some params) n with (n, r) => (n, Ok (jr_respond r)) end
  | None => (n, Err "method not found")
  end.

Context {E : Type} (errs : ClientErrors E) (limit : Z).
Hypothesis limit_range : 0 ≤ limit < u64_max.
Hypothesis accepts_ok : ce_accepts errs 200 = true.

Lemma omap_res_ok {A} (l : list A) : omap res_ok (map (@Ok string A) l) = l.
Proof. induction l as [|x l IH]; [done|]. simpl. f_equal. exact IH. Qed.
Lemma read_reply (big : E) rd r : Z.of_nat (length (reply_bytes r)) ≤ limit →
  read_bounded big rd (jr_respond r) limit = Ok (reply_bytes r).
Proof.
  intros Hl. apply read_bounded_Ok; [done|]. split.
  { intros len ->%jr_length. done. }
  destruct (jr_complete r) as [chunks Hc]. exists chunks. split; [done|]. split; [|done].
  unfold reply_bytes. by rewrite Hc, omap_res_ok.
Qed.
(** A call the node answers with something the client can read. *)
Lemma exchange_node method handler params n n' r :
  assoc method (build_module io clock) = Some handler → handler (Some params) n = (n', r) →
  reply_ok limit r →
  rpc_exchange errs limit node_transport method params n
  = (n', map_err (λ e, ce_failed errs method (error_object e).2) r).
Proof.
  intros Hm Hrun [[Hfit Hsize] Hok]. unfold rpc_exchange, node_transport. rewrite Hm, Hrun. f_equal.
  rewrite read_reply by done. rewrite jr_status, accepts_ok. cbn [negb fail_if mbind result_bind].
  destruct r as [v|e].
  - destruct (jr_result v (Hok v eq_refl) Hsize) as (body & -> & He & Hv).
    cbn [map_err mbind result_bind]. by rewrite He, Hv.
  - destruct (jr_error e) as (body & error & -> & He & Hmsg).
    cbn [map_err mbind result_bind]. by rewrite He, Hmsg.
Qed.
(** A call the node refuses fails, whether or not its reply can be read. *)
Lemma exchange_refused method handler params n n' e :
  assoc method (build_module io clock) = Some handler → handler (Some params) n = (n', Err e) →
  ∃ e', rpc_exchange errs limit node_transport method params n = (n', Err e').
Proof.
  intros Hm Hrun. destruct (decide (Z.of_nat (length (reply_bytes (Err e))) ≤ limit)) as [Hfit|Hbig].
  { eexists. by apply (exchange_node method handler params n n' _ Hm Hrun). }
  unfold rpc_exchange, node_transport. rewrite Hm, Hrun. rewrite jr_status, accepts_ok.
  cbn [negb fail_if mbind result_bind].
  destruct (read_bounded _ _ _ _) as [raw|e'] eqn:Hr; [|by eexists].
  apply read_bounded_Ok in Hr as (_ & chunks & Hc & -> & Hlen); [|done]. destruct Hbig.
  unfold reply_bytes. by rewrite Hc, omap_res_ok.
Qed.
(** A query leaves the node alone, whatever it answers. *)
Lemma exchange_query method f params n :
  assoc method (build_module io clock) = Some (λ params, query (f params)) →
  reply_ok limit (f (Some params) n) →
  rpc_exchange errs limit node_transport method params n
  = (n, map_err (λ e, ce_failed errs method (error_object e).2) (f (Some params) n)).
Proof. intros Hm Hok. by apply (exchange_node method _ params n n _ Hm). Qed.

Lemma parse_quantity_print n : is_u64 n → parse_quantity (json_quantity n) = Some n.
Proof.
  intros Hn. unfold parse_quantity, json_quantity, fmt_0x. rewrite strip_prefix_app. simpl.
  unfold fmt_hex. by rewrite from_str_radix_fmt by width.
Qed.
Lemma parse_amount_print n : is_u128 n → parse_amount (json_quantity n) = Some n.
Proof.
  intros Hn. unfold parse_amount, json_quantity, fmt_0x. rewrite strip_prefix_app. simpl.
  unfold fmt_hex. by rewrite from_str_radix_fmt by width.
Qed.
Lemma hex_empty : hex_decode EmptyString = Ok [].
Proof.
  apply hex_decode_Ok. pose proof (hex_encode_length []) as Hl. unfold str_len in Hl. simpl in Hl.
  destruct (hex_encode []); [done|]. simpl in Hl. lia.
Qed.
Lemma fixed_hex_print n (a : array n) :
  fixed_hex n (Some (VString ("0x" +:+ hex_encode (array_bytes a)))) = Ok a.
Proof.
  unfold fixed_hex. cbn [mbind option_bind value_as_str ok_or result_bind].
  rewrite strip_prefix_app. cbn [ok_or mbind result_bind]. rewrite hex_decode_encode.
  cbn [map_err mbind result_bind]. by rewrite to_array_bytes.
Qed.
Lemma hex_quantity_print n d : is_u64 n → hex_quantity (Some (VString (fmt_0x n))) d = Ok n.
Proof. intros Hn. by apply (json_quantity_parses u64_max). Qed.
Lemma hex_amount_print n d : is_u128 n → hex_amount (Some (VString (fmt_0x n))) d = Ok n.
Proof. intros Hn. by apply (json_quantity_parses u128_max). Qed.

(** The node parses the request a client prints back into the transfer it signed. *)
Lemma transfer_request_parses pk sig from to value gas_price gas_limit chain_id nonce :
  is_u64 chain_id → is_u64 nonce → is_u64 gas_limit → is_u128 value → is_u128 gas_price →
  let u := plain_transfer from to value gas_price gas_limit chain_id nonce in
  transaction_from_params (transfer_request pk sig to u) chain_id = Ok u.
Proof.
  intros Hc Hn Hg Hv Hp u. unfold transaction_from_params. set (q := transfer_request pk sig to u).
  change (value_get "from" q) with (Some (VString (address_to_string from))).
  change (value_get "to" q) with (Some (VString (address_to_string to))).
  change (value_get "chainId" q) with (Some (VString (fmt_0x chain_id))).
  change (value_get "gas" q) with (Some (VString (fmt_0x gas_limit))).
  change (value_get "nonce" q) with (Some (VString (fmt_0x nonce))).
  change (value_get "value" q) with (Some (VString (fmt_0x value))).
  change (value_get "gasPrice" q) with (Some (VString (fmt_0x gas_price))).
  change (value_get "data" q) with (Some (VString "0x")).
  cbn [mbind option_bind result_bind value_as_str ok_or or_else].
  rewrite !parse_address_print. cbn [mbind result_bind].
  rewrite (hex_quantity_print chain_id) by done. cbn [mbind result_bind]. rewrite Z.eqb_refl.
  cbn [negb fail_if mbind result_bind].
  rewrite (hex_quantity_print gas_limit) by done. cbn [mbind result_bind].
  rewrite bool_decide_false by done. cbn [fail_if mbind result_bind].
  rewrite (hex_quantity_print nonce) by done. cbn [mbind result_bind].
  rewrite (hex_amount_print value) by done. cbn [mbind result_bind].
  rewrite (hex_amount_print gas_price) by done. cbn [mbind result_bind].
  unfold hex_data. cbn [value_as_str ok_or mbind result_bind].
  change (strip_prefix "0x" "0x") with (Some EmptyString). cbn [ok_or mbind result_bind].
  by rewrite hex_empty.
Qed.
Lemma transfer_wrong_chain pk sig from to value gas_price gas_limit chain_id nonce configured :
  is_u64 chain_id → chain_id ≠ configured →
  is_ok (transaction_from_params (transfer_request pk sig to
    (plain_transfer from to value gas_price gas_limit chain_id nonce)) configured) = false.
Proof.
  intros Hc Hne. unfold transaction_from_params.
  set (q := transfer_request _ _ _ _).
  change (value_get "from" q) with (Some (VString (address_to_string from))).
  change (value_get "to" q) with (Some (VString (address_to_string to))).
  change (value_get "chainId" q) with (Some (VString (fmt_0x chain_id))).
  cbn [mbind option_bind result_bind value_as_str ok_or or_else].
  rewrite !parse_address_print. cbn [mbind result_bind].
  rewrite (hex_quantity_print chain_id) by done. cbn [mbind result_bind].
  by rewrite (proj2 (Z.eqb_neq _ _)).
Qed.
(** ... and authorizes it when it was signed with the sender's key. *)
Lemma transfer_authorized sk to value gas_price gas_limit chain_id nonce :
  is_u64 chain_id → is_u64 nonce → is_u64 gas_limit → is_u128 value → is_u128 gas_price →
  let u := plain_transfer (from_public_key (array_bytes (ed_public_key sk))) to value gas_price
             gas_limit chain_id nonce in
  let sig := ed_sign sk (signing_payload u) in
  authorize (Some [transfer_request (ed_public_key sk) sig to u]) chain_id
  = Ok (with_signature u (from_ed25519 sig)).
Proof.
  intros Hc Hn Hg Hv Hp u sig. unfold authorize, one_value. cbn [mbind result_bind].
  unfold u at 1 3. rewrite transfer_request_parses by done. fold u. cbn [mbind result_bind].
  set (q := transfer_request (ed_public_key sk) sig to u).
  change (value_get "publicKey" q) with (Some (VString ("0x" +:+ hex_encode
    (array_bytes (ed_public_key sk))))).
  change (value_get "signature" q) with (Some (VString ("0x" +:+ hex_encode (array_bytes sig)))).
  rewrite !fixed_hex_print. cbn [mbind result_bind]. unfold verify_transaction_signature.
  rewrite ed_public_key_valid. cbn [negb fail_if mbind result_bind].
  rewrite bool_decide_true by done. cbn [negb fail_if mbind result_bind].
  unfold sig. by rewrite ed_verify_sign.
Qed.

Definition signed_transfer (sk : array 32) (to : Address) (value gas_price gas_limit chain_id nonce : Z)
  : Transaction :=
  let u := plain_transfer (from_public_key (array_bytes (ed_public_key sk))) to value gas_price
             gas_limit chain_id nonce in
  with_signature u (from_ed25519 (ed_sign sk (signing_payload u))).
(** What [eth_sendTransaction] answers for the outcome of a submission. *)
Definition send_answer (r : result RpcError Hash) : result RpcError Value :=
  h ← r; Ok (VString (hash_to_string h)).
Lemma send_transfer_node sk to value gas_price gas_limit nonce n :
  is_u64 (rs_chain_id n) → is_u64 nonce → is_u64 gas_limit → is_u128 value → is_u128 gas_price →
  let u := plain_transfer (from_public_key (array_bytes (ed_public_key sk))) to value gas_price
             gas_limit (rs_chain_id n) nonce in
  let tx := signed_transfer sk to value gas_price gas_limit (rs_chain_id n) nonce in
  reply_fits limit (send_answer (submit_transaction io clock tx n).2) →
  rpc_exchange errs limit node_transport "eth_sendTransaction"
    [transfer_request (ed_public_key sk) (ed_sign sk (signing_payload u)) to u] n
  = ((submit_transaction io clock tx n).1,
     map_err (λ e, ce_failed errs "eth_sendTransaction" (error_object e).2)
       (send_answer (submit_transaction io clock tx n).2)).
Proof.
  intros Hc Hn Hg Hv Hp u tx Hok.
  apply (exchange_node "eth_sendTransaction" (eth_sendTransaction io clock)); [done| |].
  2: { split; [done|]. intros v. unfold send_answer.
       destruct (submit_transaction io clock tx n).2; [by intros [= <-]|done]. }
  unfold eth_sendTransaction. run_unfold. unfold u.
  rewrite transfer_authorized by done. unfold tx, signed_transfer. cbv zeta.
  generalize (with_signature (plain_transfer (from_public_key (array_bytes (ed_public_key sk)))
    to value gas_price gas_limit (rs_chain_id n) nonce) (from_ed25519 (ed_sign sk (signing_payload
    (plain_transfer (from_public_key (array_bytes (ed_public_key sk))) to value gas_price gas_limit
       (rs_chain_id n) nonce))))). intros t.
  by destruct (submit_transaction io clock t n) as [n' [h|e]].
Qed.

(** A transfer for another chain is refused and changes nothing. *)
Lemma send_wrong_chain pk sig from to value gas_price gas_limit chain_id nonce n :
  is_u64 chain_id → chain_id ≠ rs_chain_id n →
  ∃ e, rpc_exchange errs limit node_transport "eth_sendTransaction"
    [transfer_request pk sig to (plain_transfer from to value gas_price gas_limit chain_id nonce)] n
  = (n, Err e).
Proof.
  intros Hc Hne. pose proof (transfer_wrong_chain pk sig from to value gas_price gas_limit chain_id nonce
    (rs_chain_id n) Hc Hne) as Hbad.
  destruct (transaction_from_params _ _) as [|e] eqn:Hp; [done|].
  apply (exchange_refused "eth_sendTransaction" (eth_sendTransaction io clock) _ n n e); [done|].
  unfold eth_sendTransaction, authorize, one_value. run_unfold. cbn [mbind result_bind]. by rewrite Hp.
Qed.

(** The ledger gained exactly one block, which holds [tx], and the balances and
    nonces are those after a transfer to [to]. *)
Record transferred (n n' : RpcState) (tx : Transaction) (to : Address) : Prop := {
  tf_executed : executed (rs_state n) tx to (rs_state n');
  tf_block : ∃ b, rs_blocks n' = rs_blocks n ++ [b] ∧ blk_transactions b = [tx];
  tf_receipt : is_Some (rpc_receipt n' (tx_hash tx))
}.
Lemma submit_outcome tx to n n' r :
  node_inv n → tx_wf tx → tx_to tx = Some to → pool_no_collision n tx →
  submit_transaction io clock tx n = (n', r) →
  match r with
  | Ok h => h = tx_hash tx ∧ transferred n n' tx to
  | Err _ => ∃ d', n' = set_disk d' n ∧ (io SyncDir = None → n' = n)
  end.
Proof.
  intros I Htx Hto Hcol Hrun. apply submit_run in Hrun; [|apply I|apply I|done]. destruct r as [h|e].
  - destruct Hrun as (-> & p & adm & post & b & d' & Had & _ & Hsl & ->). split; [done|].
    destruct Hsl as [_ _ [f Hexec] (ht & Hht & ->) _]. simpl in Hexec.
    destruct (apply_transaction_executed _ _ _ _ (li_wf _ _ _ _ (ni_ledger _ _ I)) Htx Hexec)
      as (_ & to' & Hex & Hexd).
    pose proof (ex_to _ _ _ Hex) as Hto'. rewrite Hto in Hto'. injection Hto' as <-.
    split; [done|by eexists|]. unfold rpc_receipt. simpl. by rewrite lookup_insert_eq.
  - destruct Hrun as (d' & -> & Hd & _). exists d'. split; [done|]. intros Hio.
    rewrite Hd by done. by destruct n.
Qed.
Lemma signed_transfer_wf sk to value gas_price gas_limit chain_id nonce :
  is_u64 chain_id → is_u64 nonce → is_u64 gas_limit → is_u128 value → is_u128 gas_price →
  tx_wf (signed_transfer sk to value gas_price gas_limit chain_id nonce).
Proof. intros. unfold tx_wf. simpl. split_and!; try done; width. Qed.
Lemma nonce_width n a : node_inv n → is_u64 (rpc_nonce n a).
Proof.
  intros I. unfold rpc_nonce, nonce. pose proof (li_wf _ _ _ _ (ni_ledger _ _ I)) as Hwf.
  destruct (accounts (rs_state n) !! a) as [acc|] eqn:Ha; simpl; [apply (Hwf a acc Ha)|width].
Qed.
Lemma balance_width n a : node_inv n → is_u128 (rpc_balance n a).
Proof.
  intros I. unfold rpc_balance, balance. pose proof (li_wf _ _ _ _ (ni_ledger _ _ I)) as Hwf.
  destruct (accounts (rs_state n) !! a) as [acc|] eqn:Ha; simpl; [apply (Hwf a acc Ha)|width].
Qed.

(** The account and chain queries that precede a transfer. *)
Lemma chain_id_node n : reply_fits limit (eth_chainId n) →
  rpc_exchange errs limit node_transport "eth_chainId" [] n = (n, Ok (json_quantity (rs_chain_id n))).
Proof.
  intros Hf. rewrite (exchange_query "eth_chainId" (λ _, eth_chainId)); [done|done|].
  split; [done|]. by intros v [= <-].
Qed.
Lemma nonce_node n a : reply_fits limit (Ok (json_quantity (rpc_nonce n a))) →
  rpc_exchange errs limit node_transport "eth_getTransactionCount"
    [VString (address_to_string a); VString "latest"] n
  = (n, Ok (json_quantity (rpc_nonce n a))).
Proof.
  intros Hf. assert (eth_getTransactionCount (Some [VString (address_to_string a); VString "latest"]) n
    = Ok (json_quantity (rpc_nonce n a))) as Hq.
  { unfold eth_getTransactionCount. cbn [next_string mbind result_bind]. by rewrite parse_address_print. }
  rewrite (exchange_query "eth_getTransactionCount" eth_getTransactionCount), Hq; [done|done|].
  rewrite Hq. split; [done|]. by intros v [= <-].
Qed.
Lemma balance_node n a : reply_fits limit (Ok (json_quantity (rpc_balance n a))) →
  rpc_exchange errs limit node_transport "eth_getBalance"
    [VString (address_to_string a); VString "latest"] n
  = (n, Ok (json_quantity (rpc_balance n a))).
Proof.
  intros Hf. assert (eth_getBalance (Some [VString (address_to_string a); VString "latest"]) n
    = Ok (json_quantity (rpc_balance n a))) as Hq.
  { unfold eth_getBalance. cbn [next_string mbind result_bind]. by rewrite parse_address_print. }
  rewrite (exchange_query "eth_getBalance" eth_getBalance), Hq; [done|done|].
  rewrite Hq. split; [done|]. by intros v [= <-].
Qed.
(** The three replies a transfer of [tx] reads are within the client's limit. *)
Record replies_fit (n : RpcState) (tx : Transaction) : Prop := {
  rf_chain : reply_fits limit (eth_chainId n);
  rf_nonce : reply_fits limit (Ok (json_quantity (rpc_nonce n (tx_from tx))));
  rf_send : reply_fits limit (send_answer (submit_transaction io clock tx n).2)
}.
End node.

(** *** A server that answers in one piece *)
Module RefServer.
Definition rpc_reply (r : result RpcError Value) : Value :=
  VObject (("jsonrpc", VString "2.0") :: ("id", VNumber 1) ::
    match r with
    | Ok v => [("result", v)]
    | Err e => [("error", VObject [("code", VNumber (error_object e).1);
                                   ("message", VString (error_object e).2)])]
    end).
#[export] Instance one_piece `{!SerdeJson Value} : JsonRpc := {|
  jr_respond r :=
    let raw := str_bytes (to_json (rpc_reply r)) in
    {| hr_code := 200; hr_status := "200 OK"; hr_content_length := Some (Z.of_nat (length raw));
       hr_chunks := [Ok raw] |} |}.
#[export] Instance one_piece_laws `{!SerdeJson Value, !SerdeJsonLaws Value (λ v, json_ok v = true)} :
  JsonRpcLaws.
Proof.
  assert (∀ r, reply_bytes r = str_bytes (to_json (rpc_reply r))) as Hb.
  { intros r. unfold reply_bytes, chunk_bytes. simpl. apply app_nil_r. }
  split.
  - done.
  - intros r. by exists [str_bytes (to_json (rpc_reply r))].
  - intros r len Hlen. rewrite Hb. by injection Hlen as <-.
  - intros v Hv _. rewrite Hb, bytes_str_bytes, (from_to_json (rpc_reply (Ok v))) by (simpl; by rewrite Hv).
    by eexists.
  - intros e. rewrite Hb, bytes_str_bytes, (from_to_json (rpc_reply (Err e))) by (by destruct e).
    by eexists _, _.
Qed.
End RefServer.

(** *** A funded node *)
Import Ref.

Definition account1 : Address := from_public_key (array_bytes (ed_public_key secret1)).
Definition funded : RpcState := (seed_accounts no_error [(account1, 100000)] node0).1.
Lemma funded_step : node_step node0 funded.
Proof.
  apply (step_seed serving no_error [(account1, 100000)] node0 funded
    (seed_accounts no_error [(account1, 100000)] node0).2).
  - done.
  - constructor; [by apply (bool_decide_unpack _)|constructor].
  - done.
  - apply representable_compute. by vm_compute.
  - apply surjective_pairing.
Qed.
Lemma funded_inv : node_inv funded.
Proof. apply (node_step_inv serving node0); [apply funded_step|apply node0_inv]. Qed.
Lemma funded_no_collision tx : pool_no_collision funded tx.
Proof.
  intros t. assert (mp_txs (rs_mempool funded) = ∅) as -> by (by vm_compute). by rewrite lookup_empty.
Qed.
(** A signed request for the funded node. *)
Definition plain_transfer1 : Transaction := plain_transfer account1 (addr 1) 5 1 21000 1 0.
Definition send_request1 : Value :=
  transfer_request (ed_public_key secret1) (ed_sign secret1 (signing_payload plain_transfer1)) (addr 1) plain_transfer1.
Lemma funded_on_chain_1 : rs_chain_id funded = 1.
Proof. vm_compute. reflexivity. Qed.
Lemma send_request1_fine tx :
  authorize (Some [send_request1]) (rs_chain_id funded) = Ok tx → tx_wf tx ∧ pool_no_collision funded tx.
Proof.
  intros Ha. split; [|apply funded_no_collision]. rewrite funded_on_chain_1 in Ha.
  pose proof (transfer_authorized secret1 (addr 1) 5 1 21000 1 0) as Hauth. cbv zeta in Hauth.
  change (authorize _ 1) with (authorize (Some [send_request1]) 1) in Hauth.
  rewrite Hauth in Ha by (by apply (bool_decide_unpack _)). injection Ha as <-.
  change (tx_wf (signed_transfer secret1 (addr 1) 5 1 21000 1 0)).
  by apply signed_transfer_wf; apply (bool_decide_unpack _).
Qed.
Lemma send_requires_signature_witness :
  ∃ v n' b tx pk, eth_sendTransaction no_error 7 (Some [send_request1]) funded = (n', Ok v) ∧
    rs_blocks n' = rs_blocks funded ++ [b] ∧ blk_transactions b = [tx] ∧ signed_by pk tx.
Proof.
  destruct (eth_sendTransaction no_error 7 (Some [send_request1]) funded) as [n' r] eqn:Hrun.
  pose proof (send_requires_signature no_error 7 (Some [send_request1]) funded n' r funded_inv
    send_request1_fine Hrun) as Hres.
  destruct r as [v|e]; [|apply (f_equal (is_ok ∘ snd)) in Hrun; vm_compute in Hrun; discriminate Hrun].
  destruct Hres as (tx & pk & to & b & _ & _ & Hsig & _ & _ & Hb & Ht).
  exists v, n', b, tx, pk. split; [reflexivity|]. split; [exact Hb|]. split; [exact Ht|exact Hsig].
Defined.
