(* ===== verification/Faucet.v ===== *)
(** * [subhost-faucet]: the rate-limited faucet

    [crates/subhost-faucet/src/lib.rs] and [main.rs]. The faucet talks to a node
    through [Transport], one HTTP exchange; the node of [RpcApi] behind a JSON-RPC
    server is one such transport ([node_transport]). Cooldowns are measured on a
    monotonic clock in nanoseconds, an argument of each call. *)

From Stdlib Require Import String.
From S2P Require Import Prelude Order Text Deps Bincode Core WorldState Mempool Storage Rpc RpcApi Wallet Client.

Definition MAX_REQUEST_BYTES : Z := 1024.
Definition MAX_RPC_RESPONSE_BYTES : Z := 64 * 1024.
Definition CLEANUP_INTERVAL_SECS : Z := 3600.
Definition TRANSFER_GAS_LIMIT : Z := 21000.
Definition PASSWORD_ENV : string := "SUBHOST_FAUCET_PASSWORD".
(** [Duration::from_secs] in nanoseconds. *)
Definition secs (n : Z) : Z := n * 1000000000.

Record FaucetConfig := {
  fc_listen_addr : SocketAddr;
  fc_rpc_url : string;
  fc_wallet_path : string;
  fc_drip_amount : Z;
  fc_cooldown_secs : Z
}.
Definition faucet_config_default : FaucetConfig :=
  {| fc_listen_addr := {| sa_ip := V4 127 0 0 1; sa_port := 8080 |};
     fc_rpc_url := "http://127.0.0.1:8545"; fc_wallet_path := "faucet-wallet.json";
     fc_drip_amount := 1000000000000000000; fc_cooldown_secs := 86400 |}.
Inductive FaucetError :=
| FaucetInvalidAddress (message : string)
| SelfFunding
| Cooldown (remaining_secs : Z)
| FaucetRpc (message : string)
| FaucetConfigError (message : string)
| MissingPassword (name : string)
| FaucetWallet (e : WalletError)
| FaucetBind (addr : SocketAddr) (source : string)
| FaucetServe (source : string).
Definition faucet_config_validate (c : FaucetConfig) : result FaucetError unit :=
  _ ← fail_if (fc_drip_amount c =? 0) (FaucetConfigError "drip_amount must be > 0");
  _ ← fail_if (fc_cooldown_secs c =? 0) (FaucetConfigError "cooldown_secs must be > 0");
  fail_if (negb (starts_with "http://" (fc_rpc_url c)) && negb (starts_with "https://" (fc_rpc_url c)))
    (FaucetConfigError "rpc_url must be an http(s) URL").

(** ** The cooldown ledger *)

Record CooldownLedger := { cl_entries : gmap string Z; cl_cooldown : Z }.
Definition cooldown_new (cooldown : Z) : CooldownLedger := {| cl_entries := ∅; cl_cooldown := cooldown |}.
Definition set_entries (f : gmap string Z → gmap string Z) (l : CooldownLedger) : CooldownLedger :=
  {| cl_entries := f (cl_entries l); cl_cooldown := cl_cooldown l |}.
(** [Instant::elapsed] never goes below zero. *)
Definition elapsed (now claimed : Z) : Z := saturating_sub now claimed.
Definition try_claim (now : Z) (address : string) : ST CooldownLedger Z unit :=
  l ← st_get;
  let key := to_ascii_lowercase address in
  match cl_entries l !! key with
  | Some claimed =>
      (_ ← st_fail_if (elapsed now claimed <? cl_cooldown l) (cl_cooldown l - elapsed now claimed);
       st_modify (set_entries (<[key := now]>)))
  | None => st_modify (set_entries (<[key := now]>))
  end.
Definition release (address : string) (l : CooldownLedger) : CooldownLedger :=
  set_entries (delete (to_ascii_lowercase address)) l.
Definition sweep (now : Z) (l : CooldownLedger) : CooldownLedger * Z :=
  let l' := set_entries (filter (λ e, elapsed now e.2 < cl_cooldown l * 2)) l in
  (l', Z.of_nat (size (cl_entries l)) - Z.of_nat (size (cl_entries l'))).
Definition cooldown_len (l : CooldownLedger) : Z := Z.of_nat (size (cl_entries l)).
Definition cooldown_is_empty (l : CooldownLedger) : bool := bool_decide (cl_entries l = ∅).

(** ** Signing *)
Section signer.
Context `{!Blake3, !Hex, !Ed25519, !AesGcm, !Scrypt, !SerdeJson Wallet, !Serialize Transaction}.

Record FaucetSigner := { sg_signing_key : array 32; sg_address : Address }.
Definition signer_load (io_meta io_read : option string) (password : string) (d : Disk)
  : result FaucetError FaucetSigner :=
  '(_, private_key) ← map_err FaucetWallet (wallet_load io_meta io_read password d);
  Ok {| sg_signing_key := private_key;
        sg_address := from_public_key (array_bytes (ed_public_key private_key)) |}.
Definition signer_from_env (env : string → option string) (io_meta io_read : option string) (d : Disk)
  : result FaucetError FaucetSigner :=
  password ← ok_or (env PASSWORD_ENV) (MissingPassword PASSWORD_ENV);
  signer_load io_meta io_read password d.
Definition signer_public_key (s : FaucetSigner) : array 32 := ed_public_key (sg_signing_key s).
Definition signer_sign (s : FaucetSigner) (tx : Transaction) : TransactionSignature :=
  from_ed25519 (ed_sign (sg_signing_key s) (signing_payload tx)).
End signer.

Record FaucetResponse := { fr_tx_hash : string; fr_address : string; fr_amount : string }.
Record FaucetStatus := {
  fs_faucet_address : string;
  fs_balance : string;
  fs_drip_amount : string;
  fs_cooldown_secs : Z;
  fs_chain_id : string
}.
Record FaucetState := {
  ft_config : FaucetConfig;
  ft_signer : FaucetSigner;
  ft_cooldown : CooldownLedger
}.
(** [builder] is the error of the HTTP client builder, if any. *)
Definition faucet_new (c : FaucetConfig) (s : FaucetSigner) (builder : option string)
  : result FaucetError FaucetState :=
  _ ← faucet_config_validate c;
  _ ← match builder with Some e => Err (FaucetConfigError e) | None => Ok () end;
  Ok {| ft_config := c; ft_signer := s; ft_cooldown := cooldown_new (secs (fc_cooldown_secs c)) |}.
Definition set_cooldown (l : CooldownLedger) (f : FaucetState) : FaucetState :=
  {| ft_config := ft_config f; ft_signer := ft_signer f; ft_cooldown := l |}.

(** ** The node as seen over HTTP *)

Definition faucet_errors : ClientErrors FaucetError :=
  {| ce_accepts := is_success;
     ce_send method e := FaucetRpc (method +:+ " request failed: " +:+ e);
     ce_status method status := FaucetRpc (method +:+ " returned HTTP " +:+ status);
     ce_too_large _ := FaucetRpc "response is too large";
     ce_read _ e := FaucetRpc ("response read failed: " +:+ e);
     ce_json method e := FaucetRpc (method +:+ " returned invalid JSON: " +:+ e);
     ce_failed method message := FaucetRpc (method +:+ " failed: " +:+ message);
     ce_no_result method := FaucetRpc (method +:+ " response has no result") |}.

Definition faucet_parse_address `{!Hex} (value : string) : result FaucetError Address :=
  parse_recipient (FaucetInvalidAddress "address must be 0x followed by 40 hex characters")
    (FaucetInvalidAddress "address is not valid hex") value.

(** ** Drips *)
Section drip.
Context `{!Blake3, !Hex, !Ed25519, !Serialize Transaction, !SerdeJson Value}.
Context {W : Type} (post : Transport W).

Definition rpc_call (method : string) (params : list Value) : ST W FaucetError Value :=
  rpc_exchange faucet_errors MAX_RPC_RESPONSE_BYTES post method params.
Definition faucet_chain_id : ST W FaucetError Z :=
  value ← rpc_call "eth_chainId" [];
  st_lift (ok_or (parse_quantity value) (FaucetRpc "invalid chain ID")).
Definition faucet_nonce (f : FaucetState) : ST W FaucetError Z :=
  value ← rpc_call "eth_getTransactionCount"
            [VString (address_to_string (sg_address (ft_signer f))); VString "latest"];
  st_lift (ok_or (parse_quantity value) (FaucetRpc "invalid nonce")).

(** The transfer a drip signs, and the request that carries it. *)
Definition drip_transaction (f : FaucetState) (recipient : Address) (chain_id nonce : Z) : Transaction :=
  {| tx_type := Transfer; tx_nonce := nonce; tx_from := sg_address (ft_signer f);
     tx_to := Some recipient; tx_value := fc_drip_amount (ft_config f); tx_gas_price := 1;
     tx_gas_limit := TRANSFER_GAS_LIMIT; tx_data := []; tx_chain_id := chain_id;
     tx_signature := EMPTY |}.
Definition drip_request (f : FaucetState) (recipient : Address) (unsigned : Transaction) : Value :=
  transfer_request (signer_public_key (ft_signer f)) (to_ed25519 (signer_sign (ft_signer f) unsigned))
    recipient unsigned.
Definition submit_transfer (f : FaucetState) (recipient : Address) : ST W FaucetError string :=
  chain_id ← faucet_chain_id;
  nonce ← faucet_nonce f;
  let unsigned := drip_transaction f recipient chain_id nonce in
  result ← rpc_call "eth_sendTransaction" [drip_request f recipient unsigned];
  st_lift (ok_or (value_as_str result) (FaucetRpc "node did not return a transaction hash")).

(** [Duration::as_secs] *)
Definition as_secs (d : Z) : Z := d / 1000000000.
(** [submit_transfer] holds the submit lock throughout, so the exchanges of one
    drip are not interleaved with another's. *)
Definition drip (now : Z) (address : string) : ST (FaucetState * W) FaucetError FaucetResponse :=
  λ '(f, w),
  match faucet_parse_address address with
  | Err e => ((f, w), Err e)
  | Ok recipient =>
      if bool_decide (recipient = sg_address (ft_signer f)) then ((f, w), Err SelfFunding)
      else
        match try_claim now address (ft_cooldown f) with
        | (l, Err remaining) => ((set_cooldown l f, w), Err (Cooldown (Z.max (as_secs remaining) 1)))
        | (l, Ok _) =>
            match submit_transfer f recipient w with
            | (w, Ok tx_hash) =>
                ((set_cooldown l f, w),
                 Ok {| fr_tx_hash := tx_hash; fr_address := address_to_string recipient;
                       fr_amount := fmt_dec (fc_drip_amount (ft_config f)) |})
            | (w, Err e) => ((set_cooldown (release address l) f, w), Err e)
            end
        end
  end.
Definition faucet_status (f : FaucetState) : ST W FaucetError FaucetStatus :=
  chain_id ← faucet_chain_id;
  balance ← rpc_call "eth_getBalance"
              [VString (address_to_string (sg_address (ft_signer f))); VString "latest"];
  mret {| fs_faucet_address := address_to_string (sg_address (ft_signer f));
          fs_balance := default "0x0" (value_as_str balance);
          fs_drip_amount := fmt_dec (fc_drip_amount (ft_config f));
          fs_cooldown_secs := fc_cooldown_secs (ft_config f);
          fs_chain_id := fmt_0x chain_id |}.
End drip.

(** ** The HTTP surface *)

(** [impl Display for FaucetError]; [show_addr] prints a socket address. *)
Definition faucet_error_to_string (show_addr : SocketAddr → string) (e : FaucetError) : string :=
  match e with
  | FaucetInvalidAddress m => "invalid address: " +:+ m
  | SelfFunding => "the faucet cannot fund itself"
  | Cooldown s => "rate limited: try again in " +:+ fmt_dec s +:+ " seconds"
  | FaucetRpc m => "node RPC error: " +:+ m
  | FaucetConfigError m => "invalid faucet configuration: " +:+ m
  | MissingPassword n => n +:+ " is not set"
  | FaucetWallet e => "cannot load the faucet wallet: " +:+ wallet_error_to_string e
  | FaucetBind addr source => "cannot bind the faucet to " +:+ show_addr addr +:+ ": " +:+ source
  | FaucetServe source => "faucet stopped: " +:+ source
  end.
Definition api_error (show_addr : SocketAddr → string) (e : FaucetError) : Z * string :=
  let status := match e with
                | FaucetInvalidAddress _ | SelfFunding => 400
                | Cooldown _ => 429
                | FaucetRpc _ => 502
                | _ => 500
                end in
  let message := match e with
                 | FaucetWallet _ | MissingPassword _ | FaucetConfigError _ => "faucet is misconfigured"
                 | other => faucet_error_to_string show_addr other
                 end in
  (status, message).
Section handlers.
Context `{!Blake3, !Hex, !Ed25519, !Serialize Transaction, !SerdeJson Value}.
Context {W : Type} (post : Transport W) (show_addr : SocketAddr → string).

Definition handle_drip (now : Z) (request_address : string)
  : ST (FaucetState * W) (Z * string) FaucetResponse :=
  st_map_err (api_error show_addr) (drip post now (trim request_address)).
Definition handle_status (f : FaucetState) : ST W (Z * string) FaucetStatus :=
  st_map_err (api_error show_addr) (faucet_status post f).

(** [router]: the handler behind each route, and what it answers. *)
Inductive FaucetRequest :=
| PostDrip (address : string)
| GetStatus
| GetHealth.
Inductive FaucetReply :=
| DripReply (r : result (Z * string) FaucetResponse)
| StatusReply (r : result (Z * string) FaucetStatus)
| HealthReply (text : string).
Definition router (now : Z) (q : FaucetRequest) : FaucetState * W → (FaucetState * W) * FaucetReply :=
  λ '(f, w),
  match q with
  | PostDrip address => let '(s, r) := handle_drip now address (f, w) in (s, DripReply r)
  | GetStatus => let '(w, r) := handle_status f w in ((f, w), StatusReply r)
  | GetHealth => ((f, w), HealthReply "ok")
  end.
(** [serve]: the listener, then requests and ticks of the sweeper in the order they
    happen, each at its time, until the server stops. *)
Inductive ServeEvent :=
| Requested (q : FaucetRequest)
| SweepTick.
Definition serve_event (s : (FaucetState * W) * list FaucetReply) (e : Z * ServeEvent)
  : (FaucetState * W) * list FaucetReply :=
  let '((f, w), replies) := s in
  match e with
  | (now, Requested q) => let '(s, r) := router now q (f, w) in (s, replies ++ [r])
  | (now, SweepTick) => ((set_cooldown (sweep now (ft_cooldown f)).1 f, w), replies)
  end.
Definition serve (bind local_addr : result string SocketAddr) (events : list (Z * ServeEvent))
  (served : result string unit) (s : FaucetState * W)
  : ((FaucetState * W) * list FaucetReply) * result FaucetError unit :=
  let listen_addr := fc_listen_addr (ft_config s.1) in
  match bind, local_addr with
  | Err e, _ | Ok _, Err e => ((s, []), Err (FaucetBind listen_addr e))
  | Ok _, Ok _ => (foldl serve_event (s, []) events, map_err FaucetServe served)
  end.
End handlers.

(** [config_from_env] of the binary; [parse_addr] is [SocketAddr]'s parser and
    [int_error] the text of the standard library's integer parse error. *)
Definition parse_env {A} (parse : string → result string A) (env : string → option string)
  (key : string) (dflt : A) : result string A :=
  match env key with
  | Some value => map_err (λ e, key +:+ " is invalid: " +:+ e) (parse value)
  | None => Ok dflt
  end.
Definition parse_uint (int_error : string → string) (m : Z) (s : string) : result string Z :=
  ok_or (from_str_radix m 10 s) (int_error s).
Definition config_from_env (int_error : string → string) (parse_addr : string → result string SocketAddr)
  (env : string → option string) : result string FaucetConfig :=
  let defaults := faucet_config_default in
  listen_addr ← parse_env parse_addr env "FAUCET_LISTEN_ADDR" (fc_listen_addr defaults);
  drip_amount ← parse_env (parse_uint int_error u128_max) env "FAUCET_DRIP_AMOUNT" (fc_drip_amount defaults);
  cooldown_secs ← parse_env (parse_uint int_error u64_max) env "FAUCET_COOLDOWN_SECS" (fc_cooldown_secs defaults);
  Ok {| fc_listen_addr := listen_addr;
        fc_rpc_url := default (fc_rpc_url defaults) (env "SUBHOST_RPC_URL");
        fc_wallet_path := default (fc_wallet_path defaults) (env "FAUCET_WALLET_PATH");
        fc_drip_amount := drip_amount; fc_cooldown_secs := cooldown_secs |}.

(** [main] of the binary, after the log subscriber is installed, which cannot fail: an
    error is a text or the faucet's own; [runtime] is the outcome of building the async
    runtime. *)
Definition faucet_main `{!Blake3, !Hex, !Ed25519, !AesGcm, !Scrypt, !SerdeJson Wallet,
    !Serialize Transaction, !SerdeJson Value} {W : Type}
  (post : Transport W) (show_addr : SocketAddr → string) (int_error : string → string)
  (parse_addr : string → result string SocketAddr) (env : string → option string)
  (wallet_file : string → Disk) (builder : option string) (runtime : result string unit)
  (bind local_addr : result string SocketAddr) (events : list (Z * ServeEvent))
  (served : result string unit) (w : W) : W * result (string + FaucetError) unit :=
  match (config ← map_err inl (config_from_env int_error parse_addr env);
         signer ← map_err inr (signer_from_env env None None (wallet_file (fc_wallet_path config)));
         state ← map_err inr (faucet_new config signer builder);
         _ ← map_err inl runtime;
         Ok state) with
  | Err e => (w, Err e)
  | Ok state =>
      let '((s, _), r) := serve post show_addr bind local_addr events served (state, w) in
      (s.2, map_err inr r)
  end.

(** Every request is answered once and in order, and serving changes neither the
    configuration nor the signer. *)
Definition requests (events : list (Z * ServeEvent)) : list FaucetRequest :=
  omap (λ e, match e.2 with Requested q => Some q | SweepTick => None end) events.
Lemma requests_cons now q events : requests ((now, Requested q) :: events) = q :: requests events.
Proof. done. Qed.
Lemma drip_keeps `{!Blake3, !Hex, !Ed25519, !Serialize Transaction, !SerdeJson Value} {W}
    (post : Transport W) now address f w :
  ft_config (drip post now address (f, w)).1.1 = ft_config f ∧
  ft_signer (drip post now address (f, w)).1.1 = ft_signer f.
Proof.
  unfold drip. destruct (faucet_parse_address address) as [recipient|]; [|done].
  case_bool_decide; [done|]. destruct (try_claim _ _ _) as [l [[]|]]; [|done].
  by destruct (submit_transfer _ _ _ _) as [w' [h|]].
Qed.
Lemma serve_answers `{!Blake3, !Hex, !Ed25519, !Serialize Transaction, !SerdeJson Value} {W}
    (post : Transport W) show_addr bind local_addr events served f w f' w' replies r :
  serve post show_addr bind local_addr events served (f, w) = (((f', w'), replies), r) →
  ft_config f' = ft_config f ∧ ft_signer f' = ft_signer f ∧
  match r with
  | Err (FaucetBind _ _) => f' = f ∧ w' = w ∧ replies = []
  | _ => length replies = length (requests events)
  end.
Proof.
  unfold serve. destruct bind as [?|e]; [destruct local_addr as [?|e]|]; [|naive_solver..].
  intros [= Hfold <-]. assert (∀ s : (FaucetState * W) * list FaucetReply,
    let s' := foldl (serve_event post show_addr) s events in
    ft_config s'.1.1 = ft_config s.1.1 ∧ ft_signer s'.1.1 = ft_signer s.1.1 ∧
    length s'.2 = (length s.2 + length (requests events))%nat) as Hgen.
  { clear. induction events as [|[now e] events IH]; intros [[f w] l]; cbn [foldl];
      [by simpl; rewrite Nat.add_0_r|].
    cbv zeta in *. destruct (IH (serve_event post show_addr (f, w, l) (now, e))) as (-> & -> & ->). clear IH.
    destruct e as [[address| |]|]; cbn [serve_event router fst snd];
      rewrite ?requests_cons; [| | |done]; unfold handle_drip, handle_status, st_map_err.
    - destruct (drip_keeps post now (trim address) f w) as [Hc Hs].
      destruct (drip post now (trim address) (f, w)) as [[f1 w1] r1]. simpl in *.
      rewrite length_app. simpl. split; [done|]. split; [done|lia].
    - destruct (faucet_status post f w) as [w1 r1]. simpl. rewrite length_app. simpl.
      split; [done|]. split; [done|lia].
    - rewrite length_app. simpl. split; [done|]. split; [done|lia]. }
  specialize (Hgen ((f, w), [])). rewrite Hfold in Hgen. simpl in Hgen.
  destruct Hgen as (-> & -> & ->). by destruct served.
Qed.

(** ** A faucet in front of a node *)

Definition signer_ok `{!Blake3, !Ed25519} (s : FaucetSigner) : Prop :=
  sg_address s = from_public_key (array_bytes (signer_public_key s)).
Section node.
Context `{!Blake3, !Hex, !HexLaws, !Ed25519, !Ed25519Laws, !Serialize Transaction, !Serialize BlockHeader,
  !Serialize (list Hash), !Serialize (Hash * Z * Z * Z), !Serialize StateSnapshot,
  !Serialize LedgerSnapshot, !Deserialize LedgerSnapshot,
  !Serialize LedgerEnvelope, !Deserialize LedgerEnvelope,
  !SerdeJson Value, !JsonRpc, !JsonRpcLaws}.
Context (io : FsOp → option string) (clock : Z).

(** The transaction a drip to [recipient] submits to node [n]. *)
Definition drip_tx (f : FaucetState) (recipient : Address) (n : RpcState) : Transaction :=
  signed_transfer (sg_signing_key (ft_signer f)) recipient (fc_drip_amount (ft_config f)) 1
    TRANSFER_GAS_LIMIT (rs_chain_id n) (rpc_nonce n (sg_address (ft_signer f))).
Lemma submit_transfer_node f recipient n :
  node_inv n → signer_ok (ft_signer f) → is_u64 (rs_chain_id n) →
  is_u128 (fc_drip_amount (ft_config f)) →
  replies_fit io clock MAX_RPC_RESPONSE_BYTES n (drip_tx f recipient n) →
  submit_transfer (node_transport io clock) f recipient n
  = ((submit_transaction io clock (drip_tx f recipient n) n).1,
     match (submit_transaction io clock (drip_tx f recipient n) n).2 with
     | Ok h => Ok (hash_to_string h)
     | Err e => Err (FaucetRpc ("eth_sendTransaction" +:+ " failed: " +:+ (error_object e).2))
     end).
Proof.
  intros I Hs Hc Hv [Hf1 Hf2 Hf3]. unfold submit_transfer, faucet_chain_id, faucet_nonce, rpc_call.
  run_unfold. rewrite chain_id_node by done. rewrite parse_quantity_print by done. cbn [ok_or].
  assert (tx_from (drip_tx f recipient n) = sg_address (ft_signer f)) as Hfrom by (by rewrite Hs).
  rewrite Hfrom in Hf2. rewrite nonce_node by done.
  pose proof (nonce_width n (sg_address (ft_signer f)) I) as Hn. unfold drip_tx in *.
  revert Hn Hf3. generalize (rpc_nonce n (sg_address (ft_signer f))) as nc. intros nc Hn Hf3.
  rewrite parse_quantity_print by done. cbn [ok_or].
  unfold drip_request, signer_sign. rewrite to_from_ed25519.
  change (drip_transaction f recipient (rs_chain_id n) nc) with
    (plain_transfer (sg_address (ft_signer f)) recipient (fc_drip_amount (ft_config f)) 1
       TRANSFER_GAS_LIMIT (rs_chain_id n) nc).
  unfold signer_ok, signer_public_key in *. rewrite Hs.
  rewrite (send_transfer_node io clock faucet_errors MAX_RPC_RESPONSE_BYTES); try done;
    try (unfold TRANSFER_GAS_LIMIT; width).
  by destruct (submit_transaction _ _ _ n) as [n' [h|e]].
Qed.
(** Over a network that may fail: the node's answer, or an error, in which case the
    node has served the submission only if its answer was lost. *)
Definition lost (net : string → Delivery) : Prop := ∃ e, net "eth_sendTransaction" = Unanswered e.
Lemma exchange_fst {E} (errs : ClientErrors E) limit (post : Transport RpcState) method params n :
  (rpc_exchange errs limit post method params n).1 = (post method params n).1.
Proof. unfold rpc_exchange. by destruct (post method params n) as [? []]. Qed.
Lemma submit_transfer_lossy net f recipient n n' r :
  node_inv n → signer_ok (ft_signer f) → is_u64 (rs_chain_id n) →
  is_u128 (fc_drip_amount (ft_config f)) →
  replies_fit io clock MAX_RPC_RESPONSE_BYTES n (drip_tx f recipient n) →
  submit_transfer (lossy net (node_transport io clock)) f recipient n = (n', r) →
  submit_transfer (node_transport io clock) f recipient n = (n', r) ∨
  ¬ (∀ m, net m = Answered) ∧ is_ok r = false ∧
    (n' = n ∨ lost net ∧ n' = (submit_transaction io clock (drip_tx f recipient n) n).1).
Proof.
  intros I Hs Hc Hv Hfit. pose proof (submit_transfer_node f recipient n I Hs Hc Hv Hfit) as Hnode.
  destruct Hfit as [Hf1 Hf2 Hf3].
  assert (tx_from (drip_tx f recipient n) = sg_address (ft_signer f)) as Hfrom by (by rewrite Hs).
  rewrite Hfrom in Hf2. apply (f_equal fst) in Hnode. revert Hnode.
  unfold submit_transfer, faucet_chain_id, faucet_nonce, rpc_call. run_unfold.
  rewrite !exchange_lossy. pose proof (exchange_fst faucet_errors MAX_RPC_RESPONSE_BYTES
    (node_transport io clock) "eth_chainId" [] n) as Hx1.
  rewrite chain_id_node in * by done. simpl in Hx1.
  destruct (net "eth_chainId") as [|e|e] eqn:Hn1; cbv beta iota.
  2, 3: intros _ [= <- <-]; right; split_and!; [intros Ha; by rewrite Ha in Hn1|done|left; congruence].
  rewrite parse_quantity_print by done. cbn [ok_or]. rewrite !exchange_lossy.
  pose proof (exchange_fst faucet_errors MAX_RPC_RESPONSE_BYTES (node_transport io clock)
    "eth_getTransactionCount" [VString (address_to_string (sg_address (ft_signer f))); VString "latest"] n) as Hx2.
  rewrite nonce_node in * by done. simpl in Hx2.
  destruct (net "eth_getTransactionCount") as [|e|e] eqn:Hn2; cbv beta iota.
  2, 3: intros _ [= <- <-]; right; split_and!; [intros Ha; by rewrite Ha in Hn2|done|left; congruence].
  rewrite parse_quantity_print by (by apply nonce_width). cbn [ok_or]. rewrite !exchange_lossy.
  destruct (net "eth_sendTransaction") as [|e|e] eqn:Hn3; [by left| |].
  - intros _ [= <- <-]. right. split_and!; [intros Ha; by rewrite Ha in Hn3|done|by left].
  - rewrite <-(exchange_fst faucet_errors MAX_RPC_RESPONSE_BYTES).
    intros Hnode [= <- <-]. right. split_and!; [intros Ha; by rewrite Ha in Hn3|done|right].
    split; [by eexists|]. cbn [fst] in Hnode. rewrite <-Hnode.
    by destruct (rpc_exchange _ _ _ "eth_sendTransaction" _ n) as [? [v|]]; [destruct (value_as_str v)|].
Qed.
End node.

(** ** Drips in flight *)

(** The claim, the transfer and a possible release of one drip are separate
    critical sections, so drips interleave. A state pairs the ledger with the
    drips that hold a claim, in flight or completed: key and time of the claim. *)
Notation Claims := (gmap nat (string * Z)).
Inductive drip_event (now : Z) : CooldownLedger * Claims → CooldownLedger * Claims → Prop :=
| ev_claim id address l l' m :
    m !! id = None → try_claim now address l = (l', Ok ()) →
    drip_event now (l, m) (l', <[id := (to_ascii_lowercase address, now)]> m)
| ev_refused address l l' m remaining :
    try_claim now address l = (l', Err remaining) → drip_event now (l, m) (l', m)
| ev_failed id address l m t :
    m !! id = Some (to_ascii_lowercase address, t) →
    drip_event now (l, m) (release address l, delete id m)
| ev_sweep l m : drip_event now (l, m) ((sweep now l).1, m).
(** A failed drip reports back within the cooldown that it claimed. *)
Definition prompt (now : Z) (s s' : CooldownLedger * Claims) : Prop :=
  ∀ id k t, s.2 !! id = Some (k, t) → s'.2 !! id = None → now < t + cl_cooldown s.1.
Inductive drip_trace (cooldown : Z) : Z → CooldownLedger * Claims → Prop :=
| trace_start now : drip_trace cooldown now (cooldown_new cooldown, ∅)
| trace_event now now' s s' :
    drip_trace cooldown now s → now ≤ now' → drip_event now' s s' → prompt now' s s' →
    drip_trace cooldown now' s'.

Lemma try_claim_spec now address l l' r :
  try_claim now address l = (l', r) →
  let key := to_ascii_lowercase address in
  match r with
  | Ok _ => l' = set_entries (<[key := now]>) l ∧
            ∀ t, cl_entries l !! key = Some t → cl_cooldown l ≤ elapsed now t
  | Err remaining => l' = l ∧ ∃ t, cl_entries l !! key = Some t ∧ elapsed now t < cl_cooldown l ∧
                     remaining = cl_cooldown l - elapsed now t
  end.
Proof.
  unfold try_claim. run_unfold. destruct (cl_entries l !! _) as [t|] eqn:Ht; simpl.
  - destruct (Z.ltb_spec (elapsed now t) (cl_cooldown l)); intros [= <- <-]; [eauto|].
    split; [done|]. by intros ? [= <-].
  - by intros [= <- <-].
Qed.
Record spaced (cooldown now : Z) (s : CooldownLedger * Claims) : Prop := {
  sp_cooldown : cl_cooldown s.1 = cooldown;
  sp_past id k t : s.2 !! id = Some (k, t) → t ≤ now;
  (** A claim still cooling down owns the entry of its key. *)
  sp_entry id k t : s.2 !! id = Some (k, t) → now < t + cooldown → cl_entries s.1 !! k = Some t;
  sp_apart i j k t u : i ≠ j → s.2 !! i = Some (k, t) → s.2 !! j = Some (k, u) →
    cooldown ≤ Z.abs (t - u)
}.
Lemma spaced_later cooldown now now' s : spaced cooldown now s → now ≤ now' → spaced cooldown now' s.
Proof.
  intros [Hc Hp He Ha] Hle. split; [done| | |done].
  - intros id k t Hs. pose proof (Hp id k t Hs). lia.
  - intros id k t Hs Hlt. apply (He id k t Hs). lia.
Qed.
Lemma drip_event_spaced cooldown now s s' :
  0 ≤ cooldown → drip_event now s s' → prompt now s s' → spaced cooldown now s →
  spaced cooldown now s'.
Proof.
  intros Hpos Hev Hprompt [Hc Hp He Ha].
  destruct Hev as [id a l l' m Hid Hrun|a l l' m rem Hrun|id a l m t Hid|l m]; simpl in *.
  - apply try_claim_spec in Hrun as [-> Hold].
    (* nobody holding this key is still cooling down *)
    assert (∀ j u, m !! j = Some (to_ascii_lowercase a, u) → u + cooldown ≤ now) as Hfree.
    { intros j u Hj. destruct (decide (now < u + cooldown)) as [Hlt|]; [|lia].
      pose proof (Hold u (He j _ u Hj Hlt)) as Hel. pose proof (Hp j _ u Hj) as Hu.
      unfold elapsed, saturating_sub in Hel. lia. }
    split; simpl; [done| | |].
    + intros j k t [[_ [= <- <-]]|[_ Hj]]%lookup_insert_Some; [lia|by apply (Hp j k)].
    + intros j k t [[_ [= <- <-]]|[_ Hj]]%lookup_insert_Some Hlt; [by rewrite lookup_insert_eq|].
      rewrite lookup_insert_ne; [by apply (He j)|]. intros <-. pose proof (Hfree j t Hj). lia.
    + intros i j k t u Hij [[<- Hi]|[_ Hi]]%lookup_insert_Some
        [[<- Hj]|[_ Hj]]%lookup_insert_Some; [done|..]; simplify_eq.
      * pose proof (Hfree j u Hj). lia.
      * pose proof (Hfree i t Hi). lia.
      * by apply (Ha i j k).
  - apply try_claim_spec in Hrun as [-> _]. by split.
  - assert (now < t + cooldown) as Hlt.
    { rewrite <-Hc. apply (Hprompt id (to_ascii_lowercase a) t Hid). simpl. apply lookup_delete_eq. }
    split; simpl; [done| | |].
    + intros j k u [_ Hj]%lookup_delete_Some. by apply (Hp j k).
    + intros j k u [Hne Hj]%lookup_delete_Some Hu. rewrite lookup_delete_ne; [by apply (He j)|].
      intros <-. pose proof (Ha _ _ _ _ _ Hne Hid Hj). pose proof (Hp _ _ _ Hid).
      pose proof (Hp _ _ _ Hj). lia.
    + intros i j k u v Hij [_ Hi]%lookup_delete_Some [_ Hj]%lookup_delete_Some. by apply (Ha i j k).
  - split; simpl; [done|done| |done]. intros id k t Hid Hlt. pose proof (Hp id k t Hid).
    apply map_lookup_filter_Some.
    split; [by apply (He id)|]. simpl. unfold elapsed, saturating_sub. rewrite Hc. lia.
Qed.
Lemma drip_trace_spaced cooldown now s : 0 ≤ cooldown → drip_trace cooldown now s → spaced cooldown now s.
Proof.
  intros Hpos. induction 1 as [now|now now' s s' _ IH Hle Hev Hpr].
  - split; simpl; [done|..]; intros *; rewrite ?lookup_empty; try done.
  - by apply (drip_event_spaced cooldown now' s); [| | |by apply (spaced_later _ now)].
Qed.

(** ** Claims *)

(** C20. A drip against a node does what it says, whatever the address and whatever
    the network does. An address that does not parse, the faucet's own, and one that
    is still cooling down are refused and leave the faucet, its slots included, and
    the node as they were. Otherwise the slot was free: a drip that succeeds returns
    the hash of the transfer the faucet signed, the ledger gained one block holding
    it, the recipient was credited, and the slot is taken at the current time; a drip
    that fails leaves the slot free again and the node's ledger as before, unless the
    network lost the node's answer to the submission after it was committed. When
    every request is answered the drip succeeds exactly when the node commits the
    transfer. Replies are assumed to fit the client's limit. *)
Theorem drip_end_to_end `{!Blake3, !Hex, !HexLaws, !Ed25519, !Ed25519Laws, !Serialize Transaction,
    !Serialize BlockHeader, !Serialize (list Hash), !Serialize (Hash * Z * Z * Z),
    !Serialize StateSnapshot, !Serialize LedgerSnapshot, !Deserialize LedgerSnapshot,
    !Serialize LedgerEnvelope, !Deserialize LedgerEnvelope, !SerdeJson Value,
    !JsonRpc, !JsonRpcLaws}
    (net : string → Delivery) (io : FsOp → option string) (clock now : Z) (f f' : FaucetState)
    (n n' : RpcState) (address : string) (r : result FaucetError FaucetResponse) :
  node_inv n → signer_ok (ft_signer f) → is_u64 (rs_chain_id n) →
  is_u128 (fc_drip_amount (ft_config f)) →
  (∀ recipient, faucet_parse_address address = Ok recipient →
     pool_no_collision n (drip_tx f recipient n) ∧
     replies_fit io clock MAX_RPC_RESPONSE_BYTES n (drip_tx f recipient n)) →
  drip (lossy net (node_transport io clock)) now address (f, n) = ((f', n'), r) →
  match faucet_parse_address address with
  | Err e => r = Err e ∧ f' = f ∧ n' = n
  | Ok recipient =>
      let tx := drip_tx f recipient n in
      let key := to_ascii_lowercase address in
      if bool_decide (recipient = sg_address (ft_signer f)) then r = Err SelfFunding ∧ f' = f ∧ n' = n
      else
        match (try_claim now address (ft_cooldown f)).2 with
        | Err remaining => r = Err (Cooldown (Z.max (as_secs remaining) 1)) ∧ f' = f ∧ n' = n
        | Ok _ =>
            ((∀ m, net m = Answered) → is_ok r = is_ok (submit_transaction io clock tx n).2) ∧
            match r with
            | Ok resp =>
                fr_tx_hash resp = hash_to_string (tx_hash tx) ∧
                fr_address resp = address_to_string recipient ∧
                transferred n n' tx recipient ∧ cl_entries (ft_cooldown f') !! key = Some now
            | Err _ =>
                cl_entries (ft_cooldown f') !! key = None ∧
                ((∃ d', n' = set_disk d' n ∧ (io SyncDir = None → n' = n)) ∨
                 lost net ∧ transferred n n' tx recipient)
            end
        end
  end.
Proof.
  intros I Hs Hc Hv Hok Hrun. unfold drip in Hrun.
  destruct (faucet_parse_address address) as [recipient|e] eqn:Haddr; [|by simplify_eq].
  destruct (Hok recipient eq_refl) as [Hcol Hfit]. cbv zeta.
  case_bool_decide as Hself; [by simplify_eq|].
  destruct (try_claim now address (ft_cooldown f)) as [l r0] eqn:Hl. simpl.
  apply try_claim_spec in Hl. destruct r0 as [[]|remaining]; destruct Hl as [-> _].
  2: { simplify_eq. split_and!; try done. by destruct f. }
  assert (tx_wf (drip_tx f recipient n)) as Htx.
  { apply signed_transfer_wf; try done. by apply nonce_width. }
  pose proof (submit_outcome io clock (drip_tx f recipient n) recipient n _ _ I Htx eq_refl Hcol
    (surjective_pairing _)) as Hsub.
  destruct (submit_transfer _ f recipient n) as [n1 r1] eqn:Hst.
  apply submit_transfer_lossy in Hst as [Hst|(Hnet & Hr1 & Hn1)]; [| |done..].
  - rewrite (submit_transfer_node io clock f recipient n) in Hst by done.
    destruct (submit_transaction io clock (drip_tx f recipient n) n) as [n2 [h|e]]; simpl in *; simplify_eq.
    + destruct Hsub as [-> Ht]. split_and!; try done. apply lookup_insert_eq.
    + split; [done|]. split; [apply lookup_delete_eq|by left].
  - destruct r1 as [h|e]; [done|]. simplify_eq. split; [by intros Hall|]. split; [apply lookup_delete_eq|].
    destruct Hn1 as [->|[Hlost ->]]; [left; exists (rs_disk n); by destruct n|].
    destruct (submit_transaction io clock (drip_tx f recipient n) n) as [n2 [h|e2]]; simpl in *.
    + right. by destruct Hsub.
    + by left.
Qed.

(** C32. The rate limit holds under concurrency as long as every drip that fails
    reports back within the cooldown it claimed ([prompt], a condition of the trace):
    under this condition, whatever the interleaving of claims, refusals, failing
    drips and sweeps, two drips that keep their claim on the same address, in any
    letter case, are at least the cooldown apart. Without the condition it does not
    hold: see [stale_release_frees_newer_claim]. *)
Theorem drips_spaced (cooldown now : Z) (l : CooldownLedger) (m : Claims) (i j : nat) (k : string)
    (t u : Z) :
  0 ≤ cooldown → drip_trace cooldown now (l, m) → i ≠ j →
  m !! i = Some (k, t) → m !! j = Some (k, u) → cooldown ≤ Z.abs (t - u).
Proof.
  intros Hpos Htr Hij Hi Hj. pose proof (drip_trace_spaced _ _ _ Hpos Htr) as Hsp.
  by apply (sp_apart _ _ _ Hsp i j k).
Qed.

(** *** Concrete runs *)
Import Ref RefServer RefWallet.

Definition faucet1 : FaucetState :=
  {| ft_config := {| fc_listen_addr := fc_listen_addr faucet_config_default;
                     fc_rpc_url := "http://127.0.0.1:8545"; fc_wallet_path := "faucet-wallet.json";
                     fc_drip_amount := 5; fc_cooldown_secs := 60 |};
     ft_signer := {| sg_signing_key := secret1; sg_address := account1 |};
     ft_cooldown := cooldown_new (secs 60) |}.
Definition recipient1 : string := address_to_string (addr 1).
Lemma faucet1_ready :
  signer_ok (ft_signer faucet1) ∧ is_u64 (rs_chain_id funded) ∧
  is_u128 (fc_drip_amount (ft_config faucet1)) ∧
  bool_decide (addr 1 = sg_address (ft_signer faucet1)) = false ∧
  (try_claim 3 recipient1 (ft_cooldown faucet1)).2 = Ok ().
Proof.
  split_and!; [reflexivity|apply (bool_decide_unpack _)|apply (bool_decide_unpack _)| |]; by vm_compute.
Qed.
Lemma recipient1_parses : faucet_parse_address recipient1 = Ok (addr 1).
Proof. apply parse_recipient_print. Qed.
Lemma faucet1_replies :
  replies_fit no_error 7 MAX_RPC_RESPONSE_BYTES funded (drip_tx faucet1 (addr 1) funded).
Proof. split; eapply bool_decide_eq_true_1; vm_compute; reflexivity. Qed.
Lemma faucet1_commits :
  is_ok (submit_transaction no_error 7 (drip_tx faucet1 (addr 1) funded) funded).2 = true.
Proof. by vm_compute. Qed.
Lemma faucet1_fine recipient :
  faucet_parse_address recipient1 = Ok recipient →
  pool_no_collision funded (drip_tx faucet1 recipient funded) ∧
  replies_fit no_error 7 MAX_RPC_RESPONSE_BYTES funded (drip_tx faucet1 recipient funded).
Proof.
  rewrite recipient1_parses. intros [= <-]. split; [apply funded_no_collision|apply faucet1_replies].
Qed.
Lemma drip_end_to_end_witness :
  ∃ f' n' resp, drip (lossy (λ _, Answered) (node_transport no_error 7)) 3 recipient1 (faucet1, funded)
      = ((f', n'), Ok resp) ∧
    transferred funded n' (drip_tx faucet1 (addr 1) funded) (addr 1).
Proof.
  destruct faucet1_ready as (H1 & H2 & H3 & H4 & H5).
  destruct (drip (lossy (λ _, Answered) (node_transport no_error 7)) 3 recipient1 (faucet1, funded))
    as [[f' n'] r] eqn:Hrun.
  pose proof (drip_end_to_end (λ _, Answered) no_error 7 3 faucet1 f' funded n' recipient1 r funded_inv
    H1 H2 H3 faucet1_fine Hrun) as Hres.
  rewrite recipient1_parses in Hres. cbv zeta in Hres. rewrite H4, H5 in Hres. destruct Hres as [Hok Hres].
  specialize (Hok (λ _, eq_refl)). rewrite faucet1_commits in Hok. destruct r as [resp|e]; [|discriminate Hok].
  destruct Hres as (_ & _ & Ht & _). exists f', n', resp. exact (conj eq_refl Ht).
Defined.
(** A lost answer frees the slot of a drip that was paid: the retry is paid too. *)
Lemma lost_answer_pays_twice :
  let net method := if bool_decide (method = "eth_sendTransaction") then Unanswered "timed out" else Answered in
  let '((f1, n1), r1) := drip (lossy net (node_transport no_error 7)) 3 recipient1 (faucet1, funded) in
  let '((f2, n2), r2) := drip (node_transport no_error 8) 4 recipient1 (f1, n1) in
  is_ok r1 = false ∧ is_ok r2 = true ∧ rpc_balance n1 (addr 1) = 5 ∧ rpc_balance n2 (addr 1) = 10.
Proof. by vm_compute. Qed.

(** Two drips a cooldown apart, the first still holding its claim. *)
Definition ledger_at (t : Z) : CooldownLedger := set_entries (<["0xaa" := t]>) (cooldown_new 60).
Lemma drips_spaced_witness :
  drip_trace 60 65 (ledger_at 65, {[ 0%nat := ("0xaa", 5); 1%nat := ("0xaa", 65) ]}) ∧ 60 ≤ Z.abs (5 - 65).
Proof.
  assert (drip_trace 60 65 (ledger_at 65, {[ 0%nat := ("0xaa", 5); 1%nat := ("0xaa", 65) ]})) as Htr.
  { replace ({[ 0%nat := ("0xaa", 5); 1%nat := ("0xaa", 65) ]} : Claims) with
      (<[1%nat := ("0xaa", 65)]> (<[0%nat := ("0xaa", 5)]> (∅ : Claims))) by (by apply map_eq; intros [|[|]]).
    apply (trace_event 60 5 65 (ledger_at 5, <[0%nat := ("0xaa", 5)]> ∅)); [|lia| |].
    - apply (trace_event 60 5 5 (cooldown_new 60, ∅)); [constructor|lia| |].
      + by apply (ev_claim 5 0%nat "0xAA").
      + by intros id k t Hid.
    - by apply (ev_claim 65 1%nat "0xaA" (ledger_at 5)).
    - intros id k t Hid Hn. cbn [snd] in Hid, Hn. apply lookup_insert_None in Hn as [Hn _]. congruence. }
  split; [exact Htr|]. apply (drips_spaced 60 65 (ledger_at 65)
    {[ 0%nat := ("0xaa", 5); 1%nat := ("0xaa", 65) ]} 0%nat 1%nat "0xaa" 5 65); [lia|exact Htr|done|done|done].
Defined.

(** A drip that outlasts its cooldown and then fails releases the claim a newer
    drip holds: a third drip is accepted one nanosecond after the second. *)
Lemma stale_release_frees_newer_claim :
  let l1 := (try_claim 0 "0xaa" (cooldown_new 60)).1 in
  let l2 := (try_claim 60 "0xaa" l1).1 in
  let l3 := release "0xaa" l2 in
  is_ok (try_claim 60 "0xaa" l1).2 = true ∧ is_ok (try_claim 61 "0xaa" l2).2 = false ∧
  is_ok (try_claim 61 "0xaa" l3).2 = true.
Proof. by vm_compute. Qed.
(** [drip] validates the trimmed address but keys the cooldown on the text it was
    given, so padding evades the limit unless the caller trims, as the HTTP
    handler does. *)
Lemma cooldown_key_untrimmed :
  let padded := " " +:+ recipient1 in
  let '((f1, n1), r1) := drip (node_transport no_error 7) 3 recipient1 (faucet1, funded) in
  let '((f2, n2), r2) := drip (node_transport no_error 8) 4 padded (f1, n1) in
  is_ok r1 = true ∧ is_ok r2 = true.
Proof. by vm_compute. Qed.
