(* ===== verification/Network.v ===== *)
(** * [subhost-network]: the gossip transport

    [crates/subhost-network/src/lib.rs]. libp2p is a parameter: an address parser,
    the calls the manager makes on the swarm ([SwarmOps]) and the events it
    yields. The two bounded [mpsc] channels are lists with a capacity. *)

From Stdlib Require Import String.
From S2P Require Import Prelude Order Text Deps Bincode.

Definition TOPIC : string := "subhost-txs".
Definition MAX_TRANSMIT_BYTES : Z := 256 * 1024.
Definition CHANNEL_CAPACITY : Z := 1000.

Record NetworkConfig := {
  nc_listen_addr : string;
  nc_bootstrap_peers : list string;
  nc_max_peers : Z;
  nc_enable_mdns : bool
}.
Definition network_config_default : NetworkConfig :=
  {| nc_listen_addr := "/ip4/0.0.0.0/tcp/0"; nc_bootstrap_peers := []; nc_max_peers := 50;
     nc_enable_mdns := true |}.

Inductive NetworkError :=
| NetConfig (message : string)
| Libp2p (message : string)
| InvalidMessage (message : string).
Definition network_error_to_string (e : NetworkError) : string :=
  match e with
  | NetConfig m => "configuration error: " +:+ m
  | Libp2p m => "libp2p error: " +:+ m
  | InvalidMessage m => "invalid message: " +:+ m
  end.

Inductive NetworkMessage :=
| TransactionStem (data : bytes) (ttl : Z)
| TransactionFluff (tx_hash : array 32) (data : bytes)
| DagVertex (data : bytes)
| BlockProposal (data : bytes)
| Vote (block_hash : array 32) (signature : bytes).
Definition payload (m : NetworkMessage) : bytes :=
  match m with
  | TransactionStem data _ | TransactionFluff _ data | DagVertex data | BlockProposal data => data
  | Vote _ signature => signature
  end.
Definition message_validate (m : NetworkMessage) : result NetworkError unit :=
  _ ← match m with
      | TransactionStem _ ttl => fail_if (ttl =? 0) (InvalidMessage "stem TTL is exhausted")
      | _ => Ok ()
      end;
  let payload_len := Z.of_nat (length (payload m)) in
  _ ← fail_if (payload_len =? 0) (InvalidMessage "empty payload");
  fail_if (MAX_TRANSMIT_BYTES <? payload_len)
    (InvalidMessage ("payload of " +:+ fmt_dec payload_len +:+ " bytes exceeds the "
       +:+ fmt_dec MAX_TRANSMIT_BYTES +:+ " byte limit")).

(** The wire types libp2p brings, and the calls the manager makes on a swarm. *)
Record SwarmOps (Multiaddr PeerId Swarm : Type) := {
  sw_listen_on : Multiaddr → Swarm → Swarm * result string unit;
  sw_dial : Multiaddr → Swarm → Swarm * result string unit;
  sw_publish : string → bytes → Swarm → Swarm * result string unit;
  sw_add_address : PeerId → Multiaddr → Swarm → Swarm
}.
Arguments sw_listen_on {_ _ _} _ _ _.
Arguments sw_dial {_ _ _} _ _ _.
Arguments sw_publish {_ _ _} _ _ _ _.
Arguments sw_add_address {_ _ _} _ _ _ _.

(** The fallible constructors of libp2p [NetworkManager::new] goes through: the
    gossipsub configuration for the largest message, the gossipsub behaviour, its
    subscription to a topic, the mDNS behaviour of a peer, the TCP transport with its
    noise keys, and the swarm from the behaviours and the connection limit. *)
Record Libp2pNew (PeerId GossipConfig Gossip Mdns Swarm : Type) := {
  lp_gossip_config : Z → result string GossipConfig;
  lp_gossip : GossipConfig → result string Gossip;
  lp_subscribe : string → Gossip → result string Gossip;
  lp_mdns : PeerId → result string Mdns;
  lp_tcp : result string unit;
  lp_swarm : Gossip → option Mdns → Z → result string Swarm
}.
Arguments lp_gossip_config {_ _ _ _ _} _ _.
Arguments lp_gossip {_ _ _ _ _} _ _.
Arguments lp_subscribe {_ _ _ _ _} _ _ _.
Arguments lp_mdns {_ _ _ _ _} _ _.
Arguments lp_tcp {_ _ _ _ _} _.
Arguments lp_swarm {_ _ _ _ _} _ _ _ _.

Section network.
Context {Multiaddr PeerId Swarm : Type} `{Countable PeerId}.
Context (parse_multiaddr : string → result string Multiaddr) (ops : SwarmOps Multiaddr PeerId Swarm).
Context `{!SerdeJson NetworkMessage}.

Definition parsed_addresses (c : NetworkConfig) : result NetworkError (Multiaddr * list Multiaddr) :=
  _ ← fail_if (nc_max_peers c =? 0) (NetConfig "max_peers must be > 0");
  listen ← map_err (λ e, NetConfig ("invalid listen address: " +:+ e))
             (parse_multiaddr (nc_listen_addr c));
  bootstrap ← try_map (λ peer, map_err (λ e, NetConfig ("invalid bootstrap peer " +:+ peer +:+ ": " +:+ e))
                                 (parse_multiaddr peer)) (nc_bootstrap_peers c);
  Ok (listen, bootstrap).

(** [max_peers] as the connection limits take it. *)
Definition connection_limit (c : NetworkConfig) : Z :=
  if nc_max_peers c <=? u32_max then nc_max_peers c else u32_max.

Record NetworkManager := {
  nm_swarm : Swarm;
  nm_config : NetworkConfig;
  nm_connected_peers : gset PeerId;
  nm_topic : string;
  (** Messages the application has not received yet. *)
  nm_inbound : list NetworkMessage;
  nm_local_peer_id : PeerId
}.
Definition set_swarm (s : Swarm) (m : NetworkManager) : NetworkManager :=
  {| nm_swarm := s; nm_config := nm_config m; nm_connected_peers := nm_connected_peers m;
     nm_topic := nm_topic m; nm_inbound := nm_inbound m; nm_local_peer_id := nm_local_peer_id m |}.
Definition set_connected (f : gset PeerId → gset PeerId) (m : NetworkManager) : NetworkManager :=
  {| nm_swarm := nm_swarm m; nm_config := nm_config m; nm_connected_peers := f (nm_connected_peers m);
     nm_topic := nm_topic m; nm_inbound := nm_inbound m; nm_local_peer_id := nm_local_peer_id m |}.
Definition set_inbound (q : list NetworkMessage) (m : NetworkManager) : NetworkManager :=
  {| nm_swarm := nm_swarm m; nm_config := nm_config m; nm_connected_peers := nm_connected_peers m;
     nm_topic := nm_topic m; nm_inbound := q; nm_local_peer_id := nm_local_peer_id m |}.
(** [peer] is the identity just generated. *)
Definition manager_new {GossipConfig Gossip Mdns : Type} (c : NetworkConfig) (peer : PeerId)
  (lp : Libp2pNew PeerId GossipConfig Gossip Mdns Swarm) : result NetworkError NetworkManager :=
  _ ← parsed_addresses c;
  gossipsub_config ← map_err NetConfig (lp_gossip_config lp MAX_TRANSMIT_BYTES);
  gossipsub ← map_err Libp2p (lp_gossip lp gossipsub_config);
  gossipsub ← map_err Libp2p (lp_subscribe lp TOPIC gossipsub);
  mdns ← (if nc_enable_mdns c then mdns ← map_err Libp2p (lp_mdns lp peer); Ok (Some mdns)
          else Ok None);
  let max_peers := connection_limit c in
  _ ← map_err Libp2p (lp_tcp lp);
  swarm ← map_err Libp2p (lp_swarm lp gossipsub mdns max_peers);
  Ok {| nm_swarm := swarm; nm_config := c; nm_connected_peers := ∅; nm_topic := TOPIC;
        nm_inbound := []; nm_local_peer_id := peer |}.
(** A manager that was built has a valid configuration, an empty queue and no peer. *)
Lemma manager_new_Ok {GossipConfig Gossip Mdns : Type} c peer
    (lp : Libp2pNew PeerId GossipConfig Gossip Mdns Swarm) m :
  manager_new c peer lp = Ok m →
  is_ok (parsed_addresses c) = true ∧ nm_config m = c ∧ nm_inbound m = [] ∧ nm_connected_peers m = ∅.
Proof.
  unfold manager_new. intros (ps & Hps & Hrun)%bind_Ok. rewrite Hps. split; [done|].
  do 5 apply bind_Ok in Hrun as (? & _ & Hrun). by apply bind_Ok in Hrun as (sw & _ & [= <-]).
Qed.
Definition connected_peer_count (m : NetworkManager) : Z := Z.of_nat (size (nm_connected_peers m)).

(** A failed publish is only logged. *)
Definition publish (message : NetworkMessage) (m : NetworkManager) : NetworkManager :=
  match message_validate message with
  | Err _ => m
  | Ok _ =>
      set_swarm (sw_publish ops (nm_topic m) (str_bytes (to_json message)) (nm_swarm m)).1 m
  end.
(** [try_send] on the inbound channel. *)
Definition try_send (message : NetworkMessage) (q : list NetworkMessage) : list NetworkMessage :=
  if Z.of_nat (length q) <? CHANNEL_CAPACITY then q ++ [message] else q.
Definition handle_gossip (data : bytes) (m : NetworkManager) : NetworkManager :=
  match from_json (bytes_str data) with
  | Err _ => m
  | Ok message =>
      match message_validate message with
      | Err _ => m
      | Ok _ => set_inbound (try_send message (nm_inbound m)) m
      end
  end.
Inductive SwarmEvent :=
| NewListenAddr (address : Multiaddr)
| ConnectionEstablished (peer : PeerId)
| ConnectionClosed (peer : PeerId)
| GossipMessage (data : bytes)
| MdnsDiscovered (peers : list (PeerId * Multiaddr))
| OtherEvent.
Definition handle_event (event : SwarmEvent) (m : NetworkManager) : NetworkManager :=
  match event with
  | NewListenAddr _ => m
  | ConnectionEstablished peer => set_connected (λ s, {[peer]} ∪ s) m
  | ConnectionClosed peer => set_connected (λ s, s ∖ {[peer]}) m
  | GossipMessage data => handle_gossip data m
  | MdnsDiscovered peers =>
      foldl (λ m '(peer, address), set_swarm (sw_add_address ops peer address (nm_swarm m)) m) m peers
  | OtherEvent => m
  end.

(** What one turn of [select!] yields: an event, a message to publish, or the
    end of the outbound channel. The application receives in between. *)
Inductive Turn :=
| TurnEvent (event : SwarmEvent)
| TurnOutbound (message : NetworkMessage)
| TurnClosed
| TurnReceive.
Fixpoint pump (turns : list Turn) (m : NetworkManager) : NetworkManager :=
  match turns with
  | [] => m
  | TurnEvent event :: turns => pump turns (handle_event event m)
  | TurnOutbound message :: turns => pump turns (publish message m)
  | TurnClosed :: _ => m
  | TurnReceive :: turns => pump turns (set_inbound (drop 1 (nm_inbound m)) m)
  end.
Definition run (turns : list Turn) (m : NetworkManager) : NetworkManager * result NetworkError unit :=
  match parsed_addresses (nm_config m) with
  | Err e => (m, Err e)
  | Ok (listen_addr, bootstrap) =>
      match sw_listen_on ops listen_addr (nm_swarm m) with
      | (s, Err e) => (set_swarm s m, Err (Libp2p e))
      | (s, Ok _) =>
          let dialled := foldl (λ s peer, (sw_dial ops peer s).1) s bootstrap in
          (pump turns (set_swarm dialled m), Ok ())
      end
  end.

(** ** What reaches the application *)

Definition message_ok (m : NetworkMessage) : bool := is_ok (message_validate m).
Lemma message_ok_spec m :
  message_ok m = true ↔
  (∀ data, m ≠ TransactionStem data 0) ∧ 0 < Z.of_nat (length (payload m)) ≤ MAX_TRANSMIT_BYTES.
Proof.
  unfold message_ok, message_validate.
  assert (∀ b : bool, is_ok (_ ← fail_if (E:=NetworkError) b (InvalidMessage "stem TTL is exhausted");
    _ ← fail_if (Z.of_nat (length (payload m)) =? 0) (InvalidMessage "empty payload");
    fail_if (MAX_TRANSMIT_BYTES <? Z.of_nat (length (payload m)))
      (InvalidMessage ("payload of " +:+ fmt_dec (Z.of_nat (length (payload m))) +:+ " bytes exceeds the "
         +:+ fmt_dec MAX_TRANSMIT_BYTES +:+ " byte limit"))) = true ↔
    b = false ∧ 0 < Z.of_nat (length (payload m)) ≤ MAX_TRANSMIT_BYTES) as Hlen.
  { intros b. destruct b; simpl; [by split; [|intros [? _]]|].
    destruct (Z.eqb_spec (Z.of_nat (length (payload m))) 0); simpl; [split; [done|lia]|].
    destruct (Z.ltb_spec MAX_TRANSMIT_BYTES (Z.of_nat (length (payload m)))); simpl;
      (split; [done|lia]) || (split; [intros _; split; [done|lia]|done]). }
  destruct m as [data ttl|h data|data|data|h data].
  1: { rewrite Hlen, Z.eqb_neq. apply and_iff_compat_r. split; [by intros ? ? [= ? ?]|].
       intros Hne ->. by apply (Hne data). }
  all: specialize (Hlen false); cbn [fail_if] in Hlen; rewrite Hlen; by split; intros [_ ?].
Qed.
Record inbound_inv (m : NetworkManager) : Prop := {
  ii_room : Z.of_nat (length (nm_inbound m)) ≤ CHANNEL_CAPACITY;
  ii_valid : Forall (λ msg, message_ok msg = true) (nm_inbound m)
}.
Lemma try_send_inv msg q :
  message_ok msg = true → Z.of_nat (length q) ≤ CHANNEL_CAPACITY →
  Forall (λ msg, message_ok msg = true) q →
  Z.of_nat (length (try_send msg q)) ≤ CHANNEL_CAPACITY ∧
  Forall (λ msg, message_ok msg = true) (try_send msg q).
Proof.
  intros Hm Hl Hq. unfold try_send. destruct (Z.ltb_spec (Z.of_nat (length q)) CHANNEL_CAPACITY); [|done].
  rewrite length_app, Forall_app, Forall_singleton. simpl. split; [lia|done].
Qed.
Lemma handle_gossip_inv data m : inbound_inv m → inbound_inv (handle_gossip data m).
Proof.
  intros [Hl Hv]. unfold handle_gossip. destruct (from_json (bytes_str data)) as [msg|]; [|by split].
  destruct (message_validate msg) as [[]|] eqn:Hm; [|by split].
  destruct (try_send_inv msg (nm_inbound m)); [unfold message_ok; by rewrite Hm|done|done|by split].
Qed.
Lemma handle_event_inbound event m :
  nm_inbound (handle_event event m) = nm_inbound m ∨
  ∃ data, handle_event event m = handle_gossip data m.
Proof.
  destruct event as [| | |data|peers|]; simpl; eauto. left. revert m.
  induction peers as [|[p a] peers IH]; intros m; [done|]. simpl. by rewrite IH.
Qed.
Lemma pump_inv turns m : inbound_inv m → inbound_inv (pump turns m).
Proof.
  revert m. induction turns as [|[event|msg| |] turns IH]; intros m I; simpl; [done| | |done|]; apply IH.
  - destruct (handle_event_inbound event m) as [Heq|[data ->]]; [|by apply handle_gossip_inv].
    destruct I. split; by rewrite Heq.
  - unfold publish. destruct (message_validate msg); [|done]. by destruct I.
  - destruct I as [Hl Hv]. split; simpl; [rewrite length_drop; lia|by apply Forall_drop].
Qed.

(** ** Publishing and receiving *)

(** The payloads a node puts on the topic for these messages. *)
Definition wire (ms : list NetworkMessage) : list bytes :=
  map (λ msg, str_bytes (to_json msg)) (filter (λ msg, message_ok msg = true) ms).
Lemma publish_wire ms m :
  foldl (λ m msg, publish msg m) m ms
  = set_swarm (foldl (λ s data, (sw_publish ops (nm_topic m) data s).1) (nm_swarm m) (wire ms)) m.
Proof.
  revert m. induction ms as [|msg ms IH]; intros m; [by destruct m|]. simpl. rewrite IH.
  unfold wire. rewrite filter_cons. unfold publish.
  destruct (decide (message_ok msg = true)) as [Hok|Hno]; unfold message_ok in *;
    by destruct (message_validate msg).
Qed.
Context {P : NetworkMessage → Prop} `{!SerdeJsonLaws NetworkMessage P}.
Lemma handle_wire ms m :
  Forall P ms → Z.of_nat (length (nm_inbound m)) ≤ CHANNEL_CAPACITY →
  foldl (λ m data, handle_gossip data m) m (wire ms)
  = set_inbound (take (Z.to_nat CHANNEL_CAPACITY)
      (nm_inbound m ++ filter (λ msg, message_ok msg = true) ms)) m.
Proof.
  intros HP. revert m. induction HP as [|msg ms Hmsg _ IH]; intros m Hl.
  { rewrite app_nil_r, take_ge by lia. by destruct m. }
  unfold wire. rewrite filter_cons. destruct (decide (message_ok msg = true)) as [Hok|Hno].
  2: { apply IH. done. }
  simpl. change (map _ _) with (wire ms).
  assert (handle_gossip (str_bytes (to_json msg)) m = set_inbound (try_send msg (nm_inbound m)) m) as ->.
  { unfold handle_gossip. rewrite bytes_str_bytes, (from_to_json msg) by done.
    unfold message_ok in Hok. by destruct (message_validate msg). }
  unfold try_send. destruct (Z.ltb_spec (Z.of_nat (length (nm_inbound m))) CHANNEL_CAPACITY).
  - rewrite IH by (simpl; rewrite length_app; simpl; lia). simpl. by rewrite <-(assoc_L (++)).
  - rewrite IH by done. unfold set_inbound. simpl. f_equal. rewrite !take_app_le by lia. done.
Qed.
End network.

(** ** Claims *)

(** Gossip arrives unchanged: publishing puts exactly the valid messages on
    the topic, in order, and a node that receives those payloads queues exactly
    those messages, in order, dropping only what exceeds the queue's capacity. *)
Theorem gossip_delivery {Multiaddr PeerId Swarm : Type} `{Countable PeerId}
    (ops : SwarmOps Multiaddr PeerId Swarm) `{!SerdeJson NetworkMessage}
    (P : NetworkMessage → Prop) `{!SerdeJsonLaws NetworkMessage P}
    (sender receiver : NetworkManager (PeerId:=PeerId) (Swarm:=Swarm)) (ms : list NetworkMessage) :
  Forall P ms → Z.of_nat (length (nm_inbound receiver)) ≤ CHANNEL_CAPACITY →
  foldl (λ m msg, publish ops msg m) sender ms
  = set_swarm (foldl (λ s data, (sw_publish ops (nm_topic sender) data s).1) (nm_swarm sender) (wire ms))
      sender ∧
  foldl (λ m data, handle_gossip data m) receiver (wire ms)
  = set_inbound (take (Z.to_nat CHANNEL_CAPACITY)
      (nm_inbound receiver ++ filter (λ msg, message_ok msg = true) ms)) receiver.
Proof. intros HP Hl. split; [apply publish_wire|by apply handle_wire]. Qed.

(** Whatever the peers send and however the turns of the event loop are
    ordered, the application's queue never exceeds its capacity and only ever
    holds messages with a live hop count and a payload within the limits. *)
Theorem network_inbound_inv {Multiaddr PeerId Swarm : Type} `{Countable PeerId}
    (parse_multiaddr : string → result string Multiaddr) (ops : SwarmOps Multiaddr PeerId Swarm)
    `{!SerdeJson NetworkMessage} {GossipConfig Gossip Mdns : Type} (c : NetworkConfig) (peer : PeerId)
    (lp : Libp2pNew PeerId GossipConfig Gossip Mdns Swarm) (m : NetworkManager (PeerId:=PeerId) (Swarm:=Swarm)) (turns : list Turn) :
  manager_new parse_multiaddr c peer lp = Ok m →
  let m' := (run parse_multiaddr ops turns m).1 in
  Z.of_nat (length (nm_inbound m')) ≤ CHANNEL_CAPACITY ∧
  Forall (λ msg, (∀ data, msg ≠ TransactionStem data 0) ∧
                 0 < Z.of_nat (length (payload msg)) ≤ MAX_TRANSMIT_BYTES) (nm_inbound m').
Proof.
  intros (_ & _ & Hq & _)%manager_new_Ok. cbv zeta.
  assert (inbound_inv m) as Im by (split; rewrite Hq; [done|constructor]).
  assert (inbound_inv (run parse_multiaddr ops turns m).1) as [Hl Hv].
  { unfold run. destruct (parsed_addresses _ _) as [[listen boot]|]; [|done].
    destruct (sw_listen_on _ _ _) as [s' [[]|]]; simpl; [apply pump_inv|]; by destruct Im; split. }
  split; [done|]. eapply Forall_impl; [exact Hv|]. intros msg. apply message_ok_spec.
Qed.

(** *** Concrete runs *)

Definition msg_parts (m : NetworkMessage) : Z * (array 32 * (bytes * Z)) :=
  let z := array_repeat (byte_of 0) 32 in
  match m with
  | TransactionStem d t => (0, (z, (d, t)))
  | TransactionFluff h d => (1, (h, (d, 0)))
  | DagVertex d => (2, (z, (d, 0)))
  | BlockProposal d => (3, (z, (d, 0)))
  | Vote h s => (4, (h, (s, 0)))
  end.
Definition msg_of_parts (p : Z * (array 32 * (bytes * Z))) : NetworkMessage :=
  match p with
  | (0, (_, (d, t))) => TransactionStem d t
  | (1, (h, (d, _))) => TransactionFluff h d
  | (2, (_, (d, _))) => DagVertex d
  | (3, (_, (d, _))) => BlockProposal d
  | (_, (h, (s, _))) => Vote h s
  end.
Definition msg_wf (m : NetworkMessage) : Prop :=
  is_u64 (Z.of_nat (length (payload m))) ∧
  match m with TransactionStem _ t => is_u8 t | _ => True end.
Definition c_message : codec NetworkMessage :=
  c_iso msg_parts msg_of_parts (c_pair c_u8 (c_pair (c_bytes 32) (c_pair (c_list c_byte) c_u8))).
Lemma c_message_ok : codec_ok c_message msg_wf.
Proof.
  eapply codec_ok_weaken; [apply c_iso_ok; [by intros []|repeat codec_step]|].
  intros [] [Hl Ht]; simpl in *; split_and!; try done; try width.
Qed.
Module RefNetwork.
#[export] Instance json_message : SerdeJson NetworkMessage := codec_json c_message.
#[export] Instance json_message_laws : SerdeJsonLaws NetworkMessage msg_wf :=
  codec_json_laws c_message msg_wf c_message_ok.
(** A swarm that records what is published on it. *)
Definition log_ops : SwarmOps string nat (list bytes) :=
  {| sw_listen_on _ s := (s, Ok ()); sw_dial _ s := (s, Ok ());
     sw_publish _ data s := (s ++ [data], Ok ()); sw_add_address _ _ s := s |}.
(** The constructors all succeed. *)
Definition log_libp2p : Libp2pNew nat unit unit unit (list bytes) :=
  {| lp_gossip_config _ := Ok (); lp_gossip _ := Ok (); lp_subscribe _ _ := Ok (); lp_mdns _ := Ok ();
     lp_tcp := Ok (); lp_swarm _ _ _ := Ok [] |}.
Definition log_new : result NetworkError (NetworkManager (PeerId:=nat) (Swarm:=list bytes)) :=
  manager_new (λ s, Ok s) network_config_default 0%nat log_libp2p.
End RefNetwork.
Import RefNetwork.

Definition idle : NetworkManager (PeerId:=nat) (Swarm:=list bytes) :=
  {| nm_swarm := []; nm_config := network_config_default; nm_connected_peers := ∅; nm_topic := TOPIC;
     nm_inbound := []; nm_local_peer_id := 0%nat |}.
Definition vertex : NetworkMessage := DagVertex [byte_of 4].
Lemma gossip_delivery_witness :
  foldl (λ m data, handle_gossip data m) idle (wire [vertex; DagVertex []]) = set_inbound [vertex] idle.
Proof.
  refine (proj2 (gossip_delivery log_ops msg_wf idle idle [vertex; DagVertex []] _ _)).
  - repeat constructor; by vm_compute.
  - by vm_compute.
Defined.
Lemma network_inbound_inv_witness :
  let m' := (run (λ s, Ok s) log_ops [TurnEvent (GossipMessage (str_bytes (to_json vertex)))] idle).1 in
  nm_inbound m' = [vertex] ∧ Z.of_nat (length (nm_inbound m')) ≤ CHANNEL_CAPACITY.
Proof.
  split; [reflexivity|].
  exact (proj1 (network_inbound_inv (λ s, Ok s) log_ops network_config_default 0%nat log_libp2p
    idle [TurnEvent (GossipMessage (str_bytes (to_json vertex)))] eq_refl)).
Defined.

(** Two connections to one peer, one of them closed: the peer is still connected
    but no longer counted. *)
Lemma open_connection_not_counted :
  connected_peer_count (foldl (λ m e, handle_event log_ops e m) idle
    [ConnectionEstablished 7%nat; ConnectionEstablished 7%nat; ConnectionClosed 7%nat]) = 0.
Proof. reflexivity. Qed.
(** The size limit is checked on the payload but enforced by gossipsub on its
    JSON encoding, which spends at least two characters on each byte: a payload
    of more than half the limit validates and is never published. *)
Lemma large_payload_never_published {Multiaddr PeerId Swarm : Type} `{Countable PeerId}
    (ops : SwarmOps Multiaddr PeerId Swarm) `{!SerdeJson NetworkMessage}
    (m : NetworkManager (PeerId:=PeerId) (Swarm:=Swarm)) (data : bytes) :
  (∀ msg, 2 * Z.of_nat (length (payload msg)) ≤ str_len (to_json msg)) →
  (∀ topic d s, MAX_TRANSMIT_BYTES < Z.of_nat (length d) → (sw_publish ops topic d s).1 = s) →
  MAX_TRANSMIT_BYTES < 2 * Z.of_nat (length data) → Z.of_nat (length data) ≤ MAX_TRANSMIT_BYTES →
  message_ok (BlockProposal data) = true ∧ publish ops (BlockProposal data) m = m.
Proof.
  intros Hjson Hpub Hlo Hhi. assert (message_ok (BlockProposal data) = true) as Hok.
  { apply message_ok_spec. split; [done|]. simpl. unfold MAX_TRANSMIT_BYTES in *. lia. }
  split; [done|]. unfold publish. destruct (message_validate _); [|done].
  rewrite Hpub; [by destruct m|]. rewrite str_bytes_length.
  pose proof (Hjson (BlockProposal data)) as Hl. simpl in Hl. unfold str_len in Hl. lia.
Qed.
