(* ===== verification/Observe.v ===== *)
(** * [subhost-metrics] and [subhost-telemetry]

    [crates/subhost-metrics/src/lib.rs]: the metric set a node records into, with
    the Prometheus registry, its counters, gauges and histograms as the values
    they expose. [crates/subhost-telemetry/src/lib.rs]: the choice of a log filter
    and the once-only installation of the subscriber. Floating point is a
    parameter; the code only converts to it and tests a duration. *)

From Stdlib Require Import String.
From S2P Require Import Prelude Text Deps.

(** What the code uses of [f64]. *)
Class F64 := {
  f64 : Type;
  f64_of : Z → f64;
  f64_is_finite : f64 → bool;
  f64_ge_zero : f64 → bool
}.

(** [Registry::register]: the error of adding a metric to a registry that holds
    the names listed, if any; a fresh name is accepted. *)
Class Prometheus := { prom_register : list string → string → option string }.
Class PrometheusLaws `{!Prometheus} : Prop :=
  prom_fresh names name : name ∉ names → prom_register names name = None.

Module Metrics.
Record MetricsConfig := { mc_listen_addr : SocketAddr }.
Definition metrics_config_default : MetricsConfig :=
  {| mc_listen_addr := {| sa_ip := V4 127 0 0 1; sa_port := 9090 |} |}.
Inductive MetricsError :=
| Registration (message : string)
| MetricsBind (addr : SocketAddr) (source : string)
| MetricsServe (source : string).

Definition metrics_register `{!Prometheus} (names : list string) (name : string)
  : result MetricsError (list string) :=
  match prom_register names name with
  | Some e => Err (Registration e)
  | None => Ok (names ++ [name])
  end.
Definition metric_names : list string :=
  ["subhost_rpc_requests_total"; "subhost_rpc_errors_total"; "subhost_rpc_request_duration_seconds";
   "subhost_connected_peers"; "subhost_block_height"; "subhost_pending_transactions"].

Section metrics.
Context `{!F64}.

Record Metrics := {
  mt_registry : list string;
  mt_rpc_requests : Z;
  mt_rpc_errors : Z;
  (** The durations observed, oldest first. *)
  mt_rpc_latency : list f64;
  mt_connected_peers : f64;
  mt_block_height : f64;
  mt_pending_transactions : f64
}.
Definition metrics_new `{!Prometheus} : result MetricsError Metrics :=
  registry ← try_fold metrics_register [] metric_names;
  Ok {| mt_registry := registry; mt_rpc_requests := 0; mt_rpc_errors := 0; mt_rpc_latency := [];
        mt_connected_peers := f64_of 0; mt_block_height := f64_of 0;
        mt_pending_transactions := f64_of 0 |}.
Definition record_request (duration_secs : f64) (m : Metrics) : Metrics :=
  {| mt_registry := mt_registry m; mt_rpc_requests := mt_rpc_requests m + 1;
     mt_rpc_errors := mt_rpc_errors m;
     mt_rpc_latency := if f64_is_finite duration_secs && f64_ge_zero duration_secs
                       then mt_rpc_latency m ++ [duration_secs] else mt_rpc_latency m;
     mt_connected_peers := mt_connected_peers m; mt_block_height := mt_block_height m;
     mt_pending_transactions := mt_pending_transactions m |}.
Definition record_error (m : Metrics) : Metrics :=
  {| mt_registry := mt_registry m; mt_rpc_requests := mt_rpc_requests m;
     mt_rpc_errors := mt_rpc_errors m + 1; mt_rpc_latency := mt_rpc_latency m;
     mt_connected_peers := mt_connected_peers m; mt_block_height := mt_block_height m;
     mt_pending_transactions := mt_pending_transactions m |}.
Definition set_connected_peers (count : Z) (m : Metrics) : Metrics :=
  {| mt_registry := mt_registry m; mt_rpc_requests := mt_rpc_requests m;
     mt_rpc_errors := mt_rpc_errors m; mt_rpc_latency := mt_rpc_latency m;
     mt_connected_peers := f64_of count; mt_block_height := mt_block_height m;
     mt_pending_transactions := mt_pending_transactions m |}.
Definition set_block_height (height : Z) (m : Metrics) : Metrics :=
  {| mt_registry := mt_registry m; mt_rpc_requests := mt_rpc_requests m;
     mt_rpc_errors := mt_rpc_errors m; mt_rpc_latency := mt_rpc_latency m;
     mt_connected_peers := mt_connected_peers m; mt_block_height := f64_of height;
     mt_pending_transactions := mt_pending_transactions m |}.
Definition set_pending_transactions (count : Z) (m : Metrics) : Metrics :=
  {| mt_registry := mt_registry m; mt_rpc_requests := mt_rpc_requests m;
     mt_rpc_errors := mt_rpc_errors m; mt_rpc_latency := mt_rpc_latency m;
     mt_connected_peers := mt_connected_peers m; mt_block_height := mt_block_height m;
     mt_pending_transactions := f64_of count |}.

(** [encode]: [text] is the encoder of the exposition format. *)
Definition metrics_encode (text : Metrics → result string bytes) (m : Metrics) : result MetricsError bytes :=
  map_err Registration (text m).
(** [GET /metrics]: [build] is the response builder. *)
Definition metrics_response (text : Metrics → result string bytes) (build : bytes → option bytes)
  (m : Metrics) : Z * bytes :=
  match metrics_encode text m with
  | Ok buffer => match build buffer with Some body => (200, body) | None => (500, []) end
  | Err _ => (500, [])
  end.
Inductive MetricsRequest := GetMetrics | GetMetricsHealth.
Definition metrics_router (text : Metrics → result string bytes) (build : bytes → option bytes)
  (q : MetricsRequest) (m : Metrics) : Z * bytes :=
  match q with
  | GetMetrics => metrics_response text build m
  | GetMetricsHealth => (200, str_bytes "ok")
  end.
(** [bind] is the outcome of binding the listener and reading its address; the flag
    tells that the exporter warns it is reachable without authentication. *)
Definition metrics_serve (c : MetricsConfig) (bind : result string SocketAddr) (served : result string unit)
  : bool * result MetricsError unit :=
  match bind with
  | Err e => (false, Err (MetricsBind (mc_listen_addr c) e))
  | Ok addr => (negb (is_loopback (sa_ip addr)), map_err MetricsServe served)
  end.

(** ** What the exposition shows *)

Inductive Record_ :=
| Request (duration_secs : f64)
| Error_
| Peers (count : Z)
| Height (height : Z)
| Pending (count : Z).
Definition record (r : Record_) (m : Metrics) : Metrics :=
  match r with
  | Request d => record_request d m
  | Error_ => record_error m
  | Peers n => set_connected_peers n m
  | Height h => set_block_height h m
  | Pending n => set_pending_transactions n m
  end.
Definition requests_of (rs : list Record_) : list f64 :=
  omap (λ r, match r with Request d => Some d | _ => None end) rs.
Definition errors_of (rs : list Record_) : list unit :=
  omap (λ r, match r with Error_ => Some () | _ => None end) rs.
Lemma register_all `{!Prometheus, !PrometheusLaws} names held :
  NoDup (held ++ names) → try_fold metrics_register held names = Ok (held ++ names).
Proof.
  revert held. induction names as [|name names IH]; intros held Hnd; simpl.
  { by rewrite app_nil_r. }
  assert (metrics_register held name = Ok (held ++ [name])) as ->.
  { unfold metrics_register. rewrite prom_fresh; [done|].
    apply NoDup_app in Hnd as (_ & Hnd & _). intros Hin. apply (Hnd name Hin). left. }
  cbn [mbind result_bind]. rewrite IH; by rewrite <-(assoc_L (++)).
Qed.
Lemma metrics_new_Ok `{!Prometheus, !PrometheusLaws} :
  ∃ m, metrics_new = Ok m ∧ mt_registry m = metric_names.
Proof.
  unfold metrics_new. rewrite register_all by (apply (bool_decide_unpack _); by vm_compute). by eexists.
Qed.
(** Requests and errors are counted exactly, and the histogram holds exactly the
    finite non-negative durations, whatever was recorded in between. *)
Lemma recorded rs m :
  let m' := foldl (λ m r, record r m) m rs in
  mt_rpc_requests m' = mt_rpc_requests m + Z.of_nat (length (requests_of rs)) ∧
  mt_rpc_errors m' = mt_rpc_errors m + Z.of_nat (length (errors_of rs)) ∧
  mt_rpc_latency m'
  = mt_rpc_latency m ++ filter (λ d, f64_is_finite d && f64_ge_zero d = true) (requests_of rs).
Proof.
  revert m. induction rs as [|r rs IH]; intros m; simpl; [by rewrite app_nil_r, !Z.add_0_r|].
  destruct (IH (record r m)) as (Hr & He & Hl). rewrite Hr, He, Hl.
  destruct r; simpl; (split; [lia|split; [lia|]]); try done.
  rewrite filter_cons. unfold record_request. simpl.
  destruct (f64_is_finite duration_secs && f64_ge_zero duration_secs) eqn:Hd.
  - rewrite decide_True by done. by rewrite <-(assoc_L (++)).
  - by rewrite decide_False by done.
Qed.
(** [Metrics] is a handle: its registry and metrics are shared by every clone. The
    registries of a process, a handle into them, and a recording through a handle. *)
Definition handle_new `{!Prometheus} : ST (list Metrics) MetricsError nat := λ registries,
  match metrics_new with
  | Ok m => (registries ++ [m], Ok (length registries))
  | Err e => (registries, Err e)
  end.
Definition handle_clone (h : nat) : nat := h.
Definition handle_record (r : Record_) (h : nat) (registries : list Metrics) : list Metrics :=
  alter (record r) h registries.
(** What is recorded through one clone shows through every other, and in no other
    registry. *)
Lemma clones_share r h m registries :
  registries !! h = Some m →
  handle_record r (handle_clone h) registries !! h = Some (record r m) ∧
  ∀ k, k ≠ h → handle_record r h registries !! k = registries !! k.
Proof.
  intros Hh. unfold handle_record, handle_clone. rewrite list_lookup_alter_eq, Hh. split; [done|].
  intros k Hk. by rewrite list_lookup_alter_ne.
Qed.
(** A recorded error is not a request. *)
Lemma error_not_counted_as_request m : mt_rpc_requests (record_error m) = mt_rpc_requests m.
Proof. done. Qed.
End metrics.
End Metrics.

Module Telemetry.
Definition LOG_ENV : string := "RUST_LOG".
Inductive Verbosity := Quiet | Normal | Verbose.
Definition from_flags (verbose quiet : bool) : Verbosity :=
  match verbose, quiet with
  | true, _ => Verbose
  | false, true => Quiet
  | false, false => Normal
  end.
Definition directive (v : Verbosity) : string :=
  match v with
  | Quiet => "warn"
  | Normal => "info"
  | Verbose =>
      "info,subhost=debug,subhost_cli=debug,subhost_node=debug,subhost_rpc=debug,subhost_state=debug,subhost_storage=debug,subhost_mempool=debug,subhost_network=debug,subhost_ibc=debug,subhost_faucet=debug,subhost_explorer=debug,subhost_metrics=debug"
  end.
Record TelemetryConfig := { tc_verbosity : Verbosity; tc_json : bool; tc_with_target : bool }.
Definition telemetry_default : TelemetryConfig :=
  {| tc_verbosity := Normal; tc_json := false; tc_with_target := true |}.
Definition telemetry_new (v : Verbosity) : TelemetryConfig :=
  {| tc_verbosity := v; tc_json := tc_json telemetry_default;
     tc_with_target := tc_with_target telemetry_default |}.
Definition telemetry_from_env (env : string → option string) (v : Verbosity) : TelemetryConfig :=
  {| tc_verbosity := v;
     tc_json := match env "SUBHOST_LOG_FORMAT" with
                | Some value => eq_ignore_ascii_case value "json"
                | None => false
                end;
     tc_with_target := true |}.
(** The filter of [RUST_LOG] when it is set and parses, else the directive's;
    [parse] and [lenient] are [EnvFilter]'s two constructors. *)
Definition env_filter {EnvFilter : Type} (parse : string → option EnvFilter) (lenient : string → EnvFilter)
  (env : string → option string) (c : TelemetryConfig) : EnvFilter :=
  match env LOG_ENV ≫= parse with
  | Some filter => filter
  | None => lenient (directive (tc_verbosity c))
  end.
(** The process-wide subscriber: [None] until one is installed. *)
Inductive TelemetryError := AlreadyInitialized (message : string).
Definition init {EnvFilter : Type} (filter : EnvFilter) (c : TelemetryConfig)
  : ST (option (EnvFilter * TelemetryConfig)) TelemetryError unit := λ g,
  match g with
  | Some _ => (g, Err (AlreadyInitialized
      "a global default trace dispatcher has already been set"))
  | None => (Some (filter, c), Ok ())
  end.
Definition init_or_warn {EnvFilter : Type} (filter : EnvFilter) (c : TelemetryConfig)
  (g : option (EnvFilter * TelemetryConfig)) : option (EnvFilter * TelemetryConfig) := (init filter c g).1.

(** The first installation wins, however many follow. *)
Lemma first_subscriber_wins {EnvFilter : Type} (filter : EnvFilter) (c : TelemetryConfig)
    (later : list (EnvFilter * TelemetryConfig)) :
  foldl (λ g '(f, c), init_or_warn f c g) (init_or_warn filter c None) later = Some (filter, c).
Proof. by induction later as [|[f c'] later IH]; simpl in *. Qed.
End Telemetry.
