(* ===== verification/Node.v ===== *)
(** * [subhost-node]: assembling a node

    [crates/subhost-node/src/lib.rs]. Booting reads the genesis file, opens the
    ledger store, restores the node of [Rpc] from it and applies the genesis
    allocations when there was no ledger yet. The ledger file is the state of the
    computation; what the operating system returns for the other file operations
    is the argument [Boot]. *)

From Stdlib Require Import Ascii String.
From S2P Require Import Prelude Order Text Deps Bincode Core WorldState Mempool Storage Rpc RpcApi Observe.
Import Metrics.

Definition GENESIS_FILE_NAME : string := "genesis.json".
(** [Path::join] of a relative component. *)
Definition path_join (dir name : string) : string :=
  match rsplit_once "/"%char dir with
  | Some (_, EmptyString) => dir +:+ name
  | _ => if is_empty dir then name else dir +:+ "/" +:+ name
  end.

Record NodeConfig := {
  nd_data_dir : string;
  nd_rpc_addr : SocketAddr;
  nd_max_rpc_connections : Z;
  nd_metrics_addr : option SocketAddr;
  nd_validator : bool;
  nd_fallback_chain_id : Z
}.
Definition node_config_new (data_dir : string) : NodeConfig :=
  {| nd_data_dir := data_dir; nd_rpc_addr := {| sa_ip := V4 127 0 0 1; sa_port := 8545 |};
     nd_max_rpc_connections := 1000; nd_metrics_addr := None; nd_validator := false;
     nd_fallback_chain_id := 1 |}.
Definition genesis_path (c : NodeConfig) : string := path_join (nd_data_dir c) GENESIS_FILE_NAME.

Inductive NodeError :=
| NodeDataDir (path source : string)
| MissingGenesis (path : string)
| NodeInvalidChainId
| NodeGenesis (e : CoreError)
| NodeStorage (e : StorageError)
| NodeRpc (e : RpcError)
| NodeRpcServe (e : RpcServeError)
| NodeMetrics (e : MetricsError)
| ShutdownSignal (source : string).

(** What the operating system answers while a node boots: creating the data
    directory, reading the genesis file ([None] when there is none), opening and
    reading the ledger, and the operations that write it. *)
Record Boot := {
  bt_mkdir : option string;
  bt_genesis : option (result string string);
  bt_open : option string;
  bt_meta : option string;
  bt_read : option string;
  bt_io : FsOp → option string
}.

Section node.
Context `{!Blake3, !Hex, !Serialize Transaction, !Serialize BlockHeader, !Serialize (list Hash),
  !Serialize (Hash * Z * Z * Z), !Serialize StateSnapshot,
  !Serialize LedgerSnapshot, !Deserialize LedgerSnapshot,
  !Serialize LedgerEnvelope, !Deserialize LedgerEnvelope, !SerdeJson GenesisDoc, !F64, !Prometheus}.

Record Node := {
  nd_state : RpcState;
  nd_metrics : Metrics;
  nd_config : NodeConfig;
  nd_genesis : option GenesisConfig
}.

Definition load_genesis (path : string) (file : option (result string string))
  : result NodeError (option GenesisConfig) :=
  match file with
  | None => Ok None
  | Some content => g ← map_err NodeGenesis (genesis_load path content); Ok (Some g)
  end.
(** The configuration checks of [bootstrap], up to the chain the node will run. *)
Definition boot_chain (c : NodeConfig) (b : Boot) : result NodeError (option GenesisConfig * Z) :=
  _ ← match bt_mkdir b with Some e => Err (NodeDataDir (nd_data_dir c) e) | None => Ok () end;
  genesis ← load_genesis (genesis_path c) (bt_genesis b);
  _ ← (if nd_validator c then
         match genesis with
         | Some g => map_err NodeGenesis (requires_validators g)
         | None => Err (MissingGenesis (genesis_path c))
         end
       else Ok ());
  let chain_id := from_option gen_chain_id (nd_fallback_chain_id c) genesis in
  _ ← fail_if (chain_id =? 0) NodeInvalidChainId;
  Ok (genesis, chain_id).
(** [state.seed_accounts(..)?], with the allocations in the order the map yields
    them. The disk is the one the node writes. *)
Definition apply_allocations (io : FsOp → option string) (entries : list (Address * Z)) (n : RpcState)
  : ST Disk NodeError RpcState := λ _,
  match seed_accounts io entries n with
  | (n, Ok _) => (rs_disk n, Ok n)
  | (n, Err e) => (rs_disk n, Err (NodeRpc e))
  end.
Definition bootstrap_iter (iter : gmap Address Z → list (Address * Z)) (c : NodeConfig) (b : Boot)
  : ST Disk NodeError Node :=
  '(genesis, chain_id) ← st_lift (boot_chain c b);
  store ← st_lift (map_err NodeStorage (open chain_id (nd_data_dir c) (bt_open b)));
  d ← st_get;
  let fresh := negb (exists_ store d) in
  state ← st_lift (map_err NodeStorage (with_store store (bt_meta b) (bt_read b) d));
  state ← match fresh, genesis with
          | true, Some g =>
              if bool_decide (gen_allocations g = ∅) then mret state
              else apply_allocations (bt_io b) (iter (gen_allocations g)) state
          | _, _ => mret state
          end;
  metrics ← st_lift (map_err NodeMetrics metrics_new);
  mret {| nd_state := state;
          nd_metrics := set_pending_transactions (pending_count state)
                          (set_block_height (rs_block_height state) metrics);
          nd_config := c; nd_genesis := genesis |}.
Definition bootstrap : NodeConfig → Boot → ST Disk NodeError Node := bootstrap_iter map_to_list.
Definition node_chain_id (n : Node) : Z := rs_chain_id (nd_state n).

(** [run]: the RPC listener's configuration, and the result of the [select!] between
    the server and the shutdown signal. *)
Definition rpc_config (n : Node) : RpcServerConfig :=
  {| rsc_listen_addr := nd_rpc_addr (nd_config n);
     rsc_max_connections := nd_max_rpc_connections (nd_config n) |}.
(** How [shutdown_signal] resolves: the handler of [SIGTERM] cannot be installed, an
    interrupt (or the failure to listen for one) arrives, or [SIGTERM] does. *)
Inductive Signal :=
| InstallFailed (source : string)
| CtrlC (r : result string unit)
| Terminate.
Definition shutdown_signal (s : Signal) : result NodeError unit :=
  match s with
  | InstallFailed e => Err (ShutdownSignal e)
  | CtrlC r => map_err ShutdownSignal r
  | Terminate => Ok ()
  end.
Inductive Stopped :=
| ServerStopped (r : result RpcServeError unit)
| SignalReceived (s : Signal).
Definition run_result (s : Stopped) : result NodeError unit :=
  match s with
  | ServerStopped r => map_err NodeRpcServe r
  | SignalReceived s => shutdown_signal s
  end.

(** ** Applying the allocations *)

Lemma set_balance_comm a1 b1 a2 b2 s :
  a1 ≠ a2 → set_balance a1 b1 (set_balance a2 b2 s) = set_balance a2 b2 (set_balance a1 b1 s).
Proof.
  intros Hne. unfold set_balance, entry_modify. simpl.
  rewrite !lookup_insert_ne by done. by rewrite insert_insert_ne.
Qed.
Lemma seeded_perm entries entries' st :
  entries ≡ₚ entries' → NoDup entries.*1 → seeded st entries = seeded st entries'.
Proof.
  intros Hp. revert st. induction Hp as [|[a b] l l' _ IH|[a b] [a' b'] l|l l' l'' Hp1 IH1 _ IH2];
    intros st Hnd; [done| | |].
  - apply NoDup_cons in Hnd as [_ Hnd]. by apply IH.
  - apply NoDup_cons in Hnd as [Hni _]. unfold seeded. simpl. rewrite set_balance_comm; [done|].
    intros ->. apply Hni. left.
  - rewrite IH1 by done. apply IH2. by rewrite <-Hp1.
Qed.
Lemma seeded_balance entries st a :
  NoDup entries.*1 →
  balance (seeded st entries) a = default (balance st a) ((list_to_map entries : gmap Address Z) !! a).
Proof.
  revert st. induction entries as [|[a' b] entries IH]; intros st Hnd; [done|].
  apply NoDup_cons in Hnd as [Hni Hnd]. simpl. rewrite IH by done.
  unfold set_balance. rewrite balance_entry_modify. destruct (decide (a = a')) as [->|Hne].
  - by rewrite lookup_insert_eq, not_elem_of_list_to_map_1 by done.
  - by rewrite lookup_insert_ne by done.
Qed.
Lemma genesis_allocations_width path content g :
  genesis_load path content = Ok g → map_Forall (λ _ b, is_u128 b) (gen_allocations g).
Proof.
  unfold genesis_load. intros (text & _ & Hg)%bind_Ok. apply bind_Ok in Hg as (doc & _ & Hg).
  apply map_err_bind_Ok in Hg as (g' & Hdoc & Hg). apply bind_Ok in Hg as ([] & _ & [= <-]).
  unfold genesis_of_doc in Hdoc. apply bind_Ok in Hdoc as (m & Hm & [= <-]). simpl.
  unfold allocations_deserialize in Hm. revert Hm.
  assert (map_Forall (λ (_ : Address) b, is_u128 b) (∅ : gmap Address Z)) as Hemp by apply map_Forall_empty.
  revert Hemp. generalize (∅ : gmap Address Z) as acc.
  induction (doc_allocations doc) as [|v vs IH]; intros acc Hacc; simpl; [by intros [= <-]|].
  intros (acc' & Hins & Hm)%bind_Ok. apply (IH acc'); [|done].
  unfold allocation_insert in Hins. apply guard_Ok in Hins as [_ Hins].
  apply bind_Ok in Hins as (a & _ & Hins). apply ok_or_bind_Ok in Hins as (bal & Hb & Hins).
  apply guard_Ok in Hins as [_ [= <-]]. apply map_Forall_insert_2; [|done].
  by apply from_str_radix_width in Hb; [|done|done].
Qed.

(** ** What booting does *)
Context `{!PrometheusLaws}.

Lemma with_store_fields store io_meta io_read d n :
  with_store store io_meta io_read d = Ok n →
  rs_store n = store ∧ rs_chain_id n = ls_chain_id store ∧ rs_disk n = d.
Proof. unfold with_store. by intros (l & _ & [= <-])%bind_Ok. Qed.
Lemma boot_chain_Ok c b genesis chain_id :
  boot_chain c b = Ok (genesis, chain_id) →
  chain_id ≠ 0 ∧ bt_mkdir b = None ∧ load_genesis (genesis_path c) (bt_genesis b) = Ok genesis ∧
  chain_id = from_option gen_chain_id (nd_fallback_chain_id c) genesis.
Proof.
  unfold boot_chain. intros ([] & Hmk & Hrun)%bind_Ok. apply bind_Ok in Hrun as (g & Hg & Hrun).
  apply bind_Ok in Hrun as ([] & _ & Hrun). apply guard_Ok in Hrun as [Hz [= <- <-]].
  apply Z.eqb_neq in Hz. by destruct (bt_mkdir b).
Qed.
(** The store a node on chain [chain_id] opens. *)
Definition boot_store (c : NodeConfig) (chain_id : Z) : LedgerStore :=
  {| ls_dir := Some (nd_data_dir c); ls_chain_id := chain_id |}.
Definition genesis_entries (genesis : option GenesisConfig) : gmap Address Z :=
  from_option gen_allocations ∅ genesis.
(** Booting a restored node [n0]: the allocations are applied exactly when there
    are any and no ledger file was found. *)
Definition boot_state iter (b : Boot) genesis (d : Disk) (n0 : RpcState) (d' : Disk) (n : RpcState) : Prop :=
  if decide (d_target d = None ∧ genesis_entries genesis ≠ ∅)
  then seed_accounts (bt_io b) (iter (genesis_entries genesis)) n0 = (n, Ok ()) ∧ d' = rs_disk n
  else n = n0 ∧ d' = d.
Lemma bootstrap_Ok iter c b d d' nd :
  bootstrap_iter iter c b d = (d', Ok nd) → ∃ genesis chain_id n0,
    boot_chain c b = Ok (genesis, chain_id) ∧
    with_store (boot_store c chain_id) (bt_meta b) (bt_read b) d = Ok n0 ∧
    boot_state iter b genesis d n0 d' (nd_state nd) ∧ nd_genesis nd = genesis.
Proof.
  destruct metrics_new_Ok as (mt & Hmt & _). unfold bootstrap_iter. run_unfold. rewrite Hmt.
  destruct (boot_chain c b) as [[genesis chain_id]|] eqn:Hb; [|done].
  destruct (boot_chain_Ok _ _ _ _ Hb) as [Hz _]. unfold open. rewrite (proj2 (Z.eqb_neq _ _)) by done.
  simpl. destruct (bt_open b); [done|]. simpl. fold (boot_store c chain_id).
  destruct (with_store (boot_store c chain_id) (bt_meta b) (bt_read b) d) as [n0|] eqn:Hw; [|done]. simpl.
  intros Hrun. exists genesis, chain_id, n0. split; [done|]. split; [done|].
  unfold boot_state, genesis_entries. unfold exists_ in Hrun. simpl in Hrun.
  destruct (decide (d_target d = None ∧ from_option gen_allocations ∅ genesis ≠ ∅)) as [[Ht Hal]|Hno].
  - rewrite Ht in Hrun. destruct genesis as [g|]; [|done]. simpl in *.
    rewrite bool_decide_false in Hrun by done. unfold apply_allocations in Hrun.
    destruct (seed_accounts _ _ _) as [n [[]|]]; [|done]. by simplify_eq/=.
  - destruct (d_target d) as [f|]; simpl in Hrun; [by simplify_eq/=|].
    destruct genesis as [g|]; simpl in *; [|by simplify_eq/=].
    rewrite bool_decide_true in Hrun; [by simplify_eq/=|]. destruct (decide (gen_allocations g = ∅)); naive_solver.
Qed.

(** ** Across restarts *)

Lemma persist_target store io snap d d' :
  d_temp d = None → ls_dir store ≠ None → persist store io snap d = (d', Ok ()) → d_target d' ≠ None.
Proof.
  intros Hst Hdir Hp. destruct (persist_outcome _ _ _ _ _ _ Hst Hp) as [_ Hout].
  destruct (ls_dir store); [|done]. by destruct Hout as [-> _].
Qed.
Lemma left_target io n d' P :
  left_behind io n d' P → d_target (rs_disk n) ≠ None → d_target d' ≠ None.
Proof. by intros [_ [->|(snap & _ & _ & -> & _)]]. Qed.
(** A node keeps its store, and a ledger file once written stays. *)
Lemma node_step_store fl n n' :
  node_step_at fl n n' → node_inv_at fl n →
  rs_store n' = rs_store n ∧
  (ls_dir (rs_store n) ≠ None → d_target (rs_disk n) ≠ None → d_target (rs_disk n') ≠ None).
Proof.
  intros [io now tx m m' r Htx Hio Hcol Hg Hrun|io now tx m m' r Hio Hcol Hg Hrun
    |io al m m' r Hb Hal Hio Hrep Hrun|m m' Hrun] I.
  - apply submit_run in Hrun; [|apply I|apply I|done]. destruct r.
    + destruct Hrun as (_ & p & adm & post & blk & d' & _ & _ & Hsl & ->). split; [done|].
      intros Hdir _. eapply persist_target; [|done|apply (sl_persist _ _ _ _ _ _ _ _ Hsl)]. apply I.
    + destruct Hrun as (d' & -> & Hd). split; [done|]. intros _. by eapply left_target.
  - apply seal_run in Hrun; [|apply I]. destruct r.
    + destruct Hrun as (t & post & blk & d' & Hsl & _ & ->). split; [done|].
      intros Hdir _. eapply persist_target; [|done|apply (sl_persist _ _ _ _ _ _ _ _ Hsl)]. apply I.
    + destruct Hrun as (d' & -> & Hd). split; [done|]. intros _. by eapply left_target.
  - apply seed_run in Hrun; [|apply I]. destruct r as [[]|].
    + destruct Hrun as (d' & -> & Hp). split; [done|]. intros Hdir _. by eapply persist_target; [apply I| |].
    + destruct Hrun as (d' & -> & Hd). split; [done|]. intros _. by eapply left_target.
  - apply with_store_fields in Hrun as (-> & _ & ->). done.
Qed.

(** ** Chains and failures *)

Lemma with_store_chain store io_meta io_read d n :
  with_store store io_meta io_read d = Ok n →
  rs_chain_id n = ls_chain_id store ∧ state_chain_id (rs_state n) = ls_chain_id store.
Proof.
  unfold with_store. intros (l & Hl & [= <-])%bind_Ok. simpl. split; [done|]. revert Hl.
  destruct (ls_dir store) as [dir|] eqn:Hdir, (d_target d) as [f|] eqn:Ht;
    [|unfold load; rewrite Hdir, ?Ht; by intros [= <-]..].
  intros (env & snap & _ & _ & _ & _ & _ & Hr)%(load_Ok store dir io_meta io_read d f l Hdir Ht).
  apply restore_Ok in Hr as (_ & Hc & Hs & _). apply from_snapshot_Ok in Hs as (_ & _ & ->). done.
Qed.
Lemma seeded_chain st entries : state_chain_id (seeded st entries) = state_chain_id st.
Proof. revert st. induction entries as [|[a x] entries IH]; intros st; [done|]. simpl. by rewrite IH. Qed.
Lemma boot_state_chain iter b genesis store d n0 d' n :
  stable d → with_store store (bt_meta b) (bt_read b) d = Ok n0 → boot_state iter b genesis d n0 d' n →
  rs_chain_id n = rs_chain_id n0 ∧ state_chain_id (rs_state n) = state_chain_id (rs_state n0) ∧
  (d_target d ≠ None → d' = d).
Proof.
  intros Hst Hw. destruct (with_store_fields _ _ _ _ _ Hw) as (_ & _ & Hd). unfold boot_state.
  case_decide as Hdec; [|by intros [-> ->]]. destruct Hdec as [Ht _].
  intros [Hs ->]. apply seed_run in Hs as (d1 & -> & _); [|rewrite Hd; apply Hst]. simpl.
  by rewrite seeded_chain.
Qed.
Lemma boot_chain_validator c b genesis ch :
  boot_chain c b = Ok (genesis, ch) → nd_validator c = true →
  ∃ g, genesis = Some g ∧ gen_initial_validators g ≠ [].
Proof.
  unfold boot_chain. intros (? & _ & Hrun)%bind_Ok Hv. rewrite Hv in Hrun.
  apply bind_Ok in Hrun as (g & _ & Hrun). apply bind_Ok in Hrun as ([] & Hreq & Hrun).
  apply guard_Ok in Hrun as [_ [= <- <-]]. destruct g as [g|]; [|done]. exists g. split; [done|].
  apply map_err_Ok in Hreq. unfold requires_validators in Hreq. apply fail_if_Ok in Hreq. by bool_hyps.
Qed.
Lemma bootstrap_Err iter c b d d' e :
  stable d → bootstrap_iter iter c b d = (d', Err e) →
  (d_target d ≠ None → d' = d) ∧ (bt_io b SyncDir = None → d' = d).
Proof.
  intros Hst. destruct metrics_new_Ok as (mt & Hmt & _). unfold bootstrap_iter. run_unfold. rewrite Hmt.
  destruct (boot_chain c b) as [[genesis ch]|]; [|by intros [= <- <-]].
  destruct (open ch _ _) as [store|] eqn:Ho; simpl; [|by intros [= <- <-]].
  destruct (with_store store (bt_meta b) (bt_read b) d) as [n0|] eqn:Hw; simpl; [|by intros [= <- <-]].
  destruct (with_store_fields _ _ _ _ _ Hw) as (_ & _ & Hd).
  destruct (negb (exists_ store d)) eqn:Hex; [|done]. destruct genesis as [g|]; [|done].
  case_bool_decide; [done|]. unfold apply_allocations.
  destruct (seed_accounts _ _ n0) as [n1 [[]|e1]] eqn:Hs; [done|]. intros [= <- _].
  apply seed_run in Hs as (d1 & -> & Hd1 & _); [|rewrite Hd; apply Hst]. simpl. rewrite Hd in Hd1.
  split; [|done]. intros Ht. unfold open in Ho. apply guard_Ok in Ho as [_ Ho].
  destruct (bt_open b); [done|]. injection Ho as <-. unfold exists_ in Hex. simpl in Hex.
  by rewrite bool_decide_true in Hex.
Qed.

Context `{!BincodeLaws LedgerSnapshot ledger_wf, !BincodeLaws LedgerEnvelope envelope_wf}.
Lemma node_steps_store fl n n' :
  rtc (node_step_at fl) n n' → node_inv_at fl n →
  node_inv_at fl n' ∧ rs_store n' = rs_store n ∧
  (ls_dir (rs_store n) ≠ None → d_target (rs_disk n) ≠ None → d_target (rs_disk n') ≠ None).
Proof.
  induction 1 as [|x y z Hxy _ IH]; [done|]. intros I.
  destruct (node_step_store _ _ _ Hxy I) as [Hs Ht].
  destruct (IH (node_step_inv _ _ _ Hxy I)) as (Iz & Hs' & Ht').
  split; [done|]. split; [congruence|]. intros Hd Hn. apply Ht'; [by rewrite Hs|]. by apply Ht.
Qed.
(** A durable node can be restored from its disk, with a ledger that is recoverable
    from the one in memory: this very one unless a directory sync failed. *)
Record restored (fl : Faults) (n n' : RpcState) : Prop := {
  re_ledger : recoverable fl n (memory n');
  re_receipts : rs_receipts n' = receipt_map (rs_blocks n');
  re_height : rs_block_height n' = Z.of_nat (length (rs_blocks n'));
  re_same : fl_unsynced fl = false →
    rs_state n' = rs_state n ∧ rs_blocks n' = rs_blocks n ∧ rs_receipts n' = rs_receipts n ∧
    rs_block_height n' = rs_block_height n
}.
Lemma restore_restored fl n :
  node_inv_at fl n → fl_late fl = false → ls_dir (rs_store n) ≠ None → ∃ n',
    with_store (rs_store n) None None (rs_disk n) = Ok n' ∧ restored fl n n'.
Proof.
  intros I Hl Hdir. destruct (ls_dir (rs_store n)) as [dir|] eqn:Hd; [|done].
  destruct (node_reload _ _ dir I Hl Hd) as (l & _ & Hload).
  destruct (with_store (rs_store n) None None (rs_disk n)) as [n'|e] eqn:Hw.
  2: { unfold with_store in Hw. by rewrite Hload in Hw. }
  destruct (restart_inv _ _ _ I Hw) as (I' & _ & Hrec). rewrite Hd in Hrec. specialize (Hrec ltac:(done)).
  exists n'. split; [done|].
  pose proof (li_receipts _ _ _ _ (ni_ledger _ _ I')) as Hr. pose proof (ni_height _ _ I') as Hh.
  split; [done..|]. intros Hu. inversion Hrec as [Hm|? ? ? ? ? Hu'|? Hu']; [|congruence..].
  rewrite Hr, Hh, (li_receipts _ _ _ _ (ni_ledger _ _ I)), (ni_height _ _ I).
  assert (rs_state n = rs_state n' ∧ rs_blocks n = rs_blocks n') as [-> ->]; [|done].
  by split; unfold memory, ledger_with in Hm; simplify_eq.
Qed.
(** The state of a node booted on an empty data directory. *)
Definition genesis_state (chain_id : Z) (genesis : option GenesisConfig) : State :=
  seeded (with_chain_id chain_id) (map_to_list (genesis_entries genesis)).
Lemma first_boot fl iter c b d d1 nd :
  (∀ m, iter m ≡ₚ map_to_list m) → stable d → d_target d = None →
  bootstrap_iter iter c b d = (d1, Ok nd) →
  let chain_id := rs_chain_id (nd_state nd) in
  representable (ledger_of chain_id (genesis_state chain_id (nd_genesis nd)) [] ∅) →
  boot_chain c b = Ok (nd_genesis nd, chain_id) ∧ node_inv_at fl (nd_state nd) ∧
  rs_store (nd_state nd) = boot_store c chain_id ∧
  rs_state (nd_state nd) = genesis_state chain_id (nd_genesis nd) ∧ rs_blocks (nd_state nd) = [] ∧
  (genesis_entries (nd_genesis nd) ≠ ∅ → d_target (rs_disk (nd_state nd)) ≠ None).
Proof.
  intros Hiter Hst Ht Hrun chain_id Hrep.
  apply bootstrap_Ok in Hrun as (genesis & ch & n0 & Hb & Hw & Hs & Hg). subst genesis.
  destruct (boot_chain_Ok _ _ _ _ Hb) as (Hz & _ & Hgen & _).
  assert (with_store (boot_store c ch) None None d = Ok n0) as Hw0.
  { unfold with_store, load in *. simpl in *. by rewrite Ht in *. }
  assert (node_inv_at fl n0) as I0 by (apply (with_store_inv fl (boot_store c ch) d); [done|apply Hst|by left|done]).
  assert (rs_state n0 = with_chain_id ch ∧ rs_blocks n0 = [] ∧ rs_receipts n0 = ∅) as (Hst0 & Hbl0 & Hrc0).
  { unfold with_store, load in Hw0. simpl in Hw0. rewrite Ht in Hw0. by injection Hw0 as <-. }
  destruct (with_store_fields _ _ _ _ _ Hw) as (Hs0 & Hc0 & Hd0). simpl in Hc0.
  unfold boot_state in Hs. destruct (decide _) as [[_ Hne]|Hno].
  2: { destruct Hs as [Hn _]. subst chain_id. rewrite Hn, Hc0 in *.
       assert (genesis_entries (nd_genesis nd) = ∅) as He.
       { destruct (decide (genesis_entries (nd_genesis nd) = ∅)); naive_solver. }
       unfold genesis_state. rewrite He. split_and!; try done. }
  destruct Hs as [Hseed _].
  assert (map_Forall (λ _ x, is_u128 x) (genesis_entries (nd_genesis nd))) as Hw128.
  { unfold load_genesis in Hgen. destruct (bt_genesis b) as [content|]; [|by injection Hgen as <-].
    apply map_err_bind_Ok in Hgen as (g & Hg & [= <-]). by apply genesis_allocations_width in Hg. }
  assert (seeded (rs_state n0) (iter (genesis_entries (nd_genesis nd)))
    = genesis_state ch (nd_genesis nd)) as Hsd.
  { rewrite Hst0. apply seeded_perm; [done|]. rewrite Hiter. apply NoDup_fst_map_to_list. }
  pose proof (seed_run _ _ _ _ _ (ni_disk _ _ I0) Hseed) as (d' & Hn & Hp).
  assert (chain_id = ch) as Hch by (subst chain_id; rewrite Hn; simpl; by rewrite Hc0).
  rewrite Hch in *. clear chain_id Hch.
  assert (node_inv_at fl (nd_state nd)) as I.
  { rewrite Hn. eapply seed_done; [exact I0|done| |  |exact Hp].
    - apply Forall_forall. intros [a x] Hin. rewrite Hiter in Hin.
      apply elem_of_map_to_list in Hin. apply (Hw128 a x Hin).
    - by rewrite Hsd, Hbl0, Hrc0, Hc0. }
  rewrite Hn in *. simpl. rewrite Hs0, Hsd, Hbl0. split_and!; try done; [by rewrite <-Hsd|].
  intros _. eapply persist_target; [apply I0| |exact Hp]. by rewrite Hs0.
Qed.
(** With nothing in the way, booting on an empty data directory succeeds. *)
Lemma first_boot_runs iter c b d genesis ch :
  (∀ m, iter m ≡ₚ map_to_list m) → d_target d = None → boot_chain c b = Ok (genesis, ch) →
  bt_open b = None → bt_io b = (λ _, None) →
  Z.of_nat (length (encode_ledger (ledger_of ch (genesis_state ch genesis) [] ∅))) ≤ MAX_LEDGER_BYTES →
  ∃ d' nd, bootstrap_iter iter c b d = (d', Ok nd) ∧ nd_genesis nd = genesis ∧
    node_chain_id nd = ch ∧ rs_state (nd_state nd) = genesis_state ch genesis ∧
    rs_blocks (nd_state nd) = [] ∧ rs_block_height (nd_state nd) = 0.
Proof.
  intros Hiter Ht Hb Ho Hio Hlen. destruct (boot_chain_Ok _ _ _ _ Hb) as [Hz _].
  destruct metrics_new_Ok as (mt & Hmt & _). unfold bootstrap_iter. run_unfold.
  rewrite Hb, Hmt, Ho, Hio. unfold open. rewrite (proj2 (Z.eqb_neq _ _)) by done.
  unfold with_store, load, exists_. simpl. rewrite Ht. simpl.
  assert (genesis_entries genesis = ∅ → genesis_state ch genesis = with_chain_id ch) as Hnone.
  { intros He. unfold genesis_state. by rewrite He. }
  destruct genesis as [g|]; simpl; [|do 2 eexists; split_and!; try done; simpl; by rewrite Hnone].
  case_bool_decide as Hal; simpl; [do 2 eexists; split_and!; try done; simpl; by rewrite Hnone|].
  unfold apply_allocations, seed_accounts, rpc_persist. run_unfold. simpl.
  fold (seeded (with_chain_id ch) (iter (gen_allocations g))).
  rewrite (seeded_perm _ (map_to_list (gen_allocations g))); [|apply Hiter|rewrite Hiter; apply NoDup_fst_map_to_list].
  change (seeded (with_chain_id ch) (map_to_list (gen_allocations g))) with (genesis_state ch (Some g)).
  destruct (persist_no_error (boot_store c ch) (ledger_of ch (genesis_state ch (Some g)) [] ∅) d) as [d' Hp];
    [|done|].
  { unfold chain_check, genesis_state. simpl. rewrite seeded_chain. simpl. by rewrite Z.eqb_refl. }
  unfold boot_store in Hp. rewrite Hp. simpl. do 2 eexists. by split_and!.
Qed.
Lemma genesis_balance ch genesis a :
  balance (genesis_state ch genesis) a = default 0 (genesis_entries genesis !! a).
Proof.
  unfold genesis_state. rewrite seeded_balance by apply NoDup_fst_map_to_list.
  by rewrite list_to_map_to_list.
Qed.
End node.

(** ** Claims *)

(** C13. Booting and restarting a node. On an empty data directory a node starts at
    height zero with exactly the genesis allocations, in whatever order the map
    yields them. Take any run of that node in which accounts are seeded only before
    the first block, calls fail at any file operation and the node is restarted.
    Booting again from the disk it left behind succeeds, writes nothing (a restart
    never mints the allocations a second time), and gives a ledger recoverable from
    the node: the one it had in memory, or that ledger with the one block or seeding
    of a call that failed only at the final directory sync; its receipts and height
    are those of its blocks. If no directory sync failed, state, blocks, receipts and
    height are those the node had. *)
Theorem bootstrap_restart `{!Blake3, !Hex, !Serialize Transaction, !Serialize BlockHeader,
    !Serialize (list Hash), !Serialize (Hash * Z * Z * Z), !Serialize StateSnapshot,
    !Serialize LedgerSnapshot, !Deserialize LedgerSnapshot, !Serialize LedgerEnvelope,
    !Deserialize LedgerEnvelope, !SerdeJson GenesisDoc, !F64, !Prometheus, !PrometheusLaws,
    !BincodeLaws LedgerSnapshot ledger_wf, !BincodeLaws LedgerEnvelope envelope_wf}
    (fl : Faults) iter iter' (c : NodeConfig) (b b' : Boot) (d d1 : Disk) (nd : Node) (n : RpcState) :
  (∀ m, iter m ≡ₚ map_to_list m) → stable d → d_target d = None →
  bootstrap_iter iter c b d = (d1, Ok nd) →
  representable (ledger_of (rs_chain_id (nd_state nd))
    (genesis_state (rs_chain_id (nd_state nd)) (nd_genesis nd)) [] ∅) →
  fl_late fl = false → rtc (node_step_at fl) (nd_state nd) n →
  boot_chain c b' = boot_chain c b → bt_open b' = None → bt_meta b' = None → bt_read b' = None →
  rs_block_height (nd_state nd) = 0 ∧
  (∀ a, rpc_balance (nd_state nd) a = default 0 (genesis_entries (nd_genesis nd) !! a)) ∧
  ∃ nd', bootstrap_iter iter' c b' (rs_disk n) = (rs_disk n, Ok nd') ∧
    recoverable fl n (memory (nd_state nd')) ∧
    rs_receipts (nd_state nd') = receipt_map (rs_blocks (nd_state nd')) ∧
    rs_block_height (nd_state nd') = Z.of_nat (length (rs_blocks (nd_state nd'))) ∧
    (fl_unsynced fl = false →
       rs_state (nd_state nd') = rs_state n ∧ rs_blocks (nd_state nd') = rs_blocks n ∧
       rs_receipts (nd_state nd') = rs_receipts n ∧ rs_block_height (nd_state nd') = rs_block_height n).
Proof.
  intros Hiter Hst Ht Hrun Hrep Hl Hsteps Hbc Ho Hm Hr.
  destruct (first_boot fl iter c b d d1 nd Hiter Hst Ht Hrun Hrep) as (Hb & I & Hs & Hstate & Hbl & Htgt).
  split; [by rewrite (ni_height _ _ I), Hbl|]. split.
  { intros a. unfold rpc_balance. rewrite Hstate. apply genesis_balance. }
  destruct (node_steps_store _ _ _ Hsteps I) as (In & Hsn & Htn). rewrite Hs in Hsn, Htn.
  destruct (restore_restored fl n In Hl ltac:(by rewrite Hsn)) as (n' & Hw & [Hrec Hrc Hht Hsame]).
  rewrite Hsn in Hw.
  destruct metrics_new_Ok as (mt & Hmt & _). unfold bootstrap_iter. run_unfold. rewrite Hbc, Hb, Hmt.
  destruct (boot_chain_Ok _ _ _ _ Hb) as [Hz _]. unfold open. rewrite (proj2 (Z.eqb_neq _ _)) by done.
  rewrite Ho, Hm, Hr. simpl. fold (boot_store c (rs_chain_id (nd_state nd))). rewrite Hw. simpl.
  unfold exists_. simpl. destruct (d_target (rs_disk n)) as [f|] eqn:Hf; simpl; [by eexists|].
  destruct (nd_genesis nd) as [g|] eqn:Hg; simpl; [|by eexists].
  rewrite bool_decide_true; [by eexists|]. destruct (decide (gen_allocations g = ∅)) as [|Hne]; [done|].
  exfalso. apply Htn; [done| |done]. by apply Htgt.
Qed.

(** C38. Booting fails safely. An existing ledger file is never written, whatever
    the outcome, and a boot that fails leaves an empty directory without one. A
    boot that succeeds runs the chain the genesis file names, over a ledger of
    that same chain, and in validator mode only with an initial validator set. *)
Theorem bootstrap_safe `{!Blake3, !Hex, !Serialize Transaction, !Serialize BlockHeader,
    !Serialize (list Hash), !Serialize (Hash * Z * Z * Z), !Serialize StateSnapshot,
    !Serialize LedgerSnapshot, !Deserialize LedgerSnapshot, !Serialize LedgerEnvelope,
    !Deserialize LedgerEnvelope, !SerdeJson GenesisDoc, !F64, !Prometheus, !PrometheusLaws}
    iter (c : NodeConfig) (b : Boot) (d d' : Disk) (r : result NodeError Node) :
  stable d → bootstrap_iter iter c b d = (d', r) →
  (d_target d ≠ None → d' = d) ∧
  match r with
  | Err _ => bt_io b SyncDir = None → d' = d
  | Ok nd =>
      node_chain_id nd = from_option gen_chain_id (nd_fallback_chain_id c) (nd_genesis nd) ∧
      node_chain_id nd ≠ 0 ∧ state_chain_id (rs_state (nd_state nd)) = node_chain_id nd ∧
      (nd_validator c = true → ∃ g, nd_genesis nd = Some g ∧ gen_initial_validators g ≠ [])
  end.
Proof.
  intros Hst Hrun. destruct r as [nd|e].
  - apply bootstrap_Ok in Hrun as (genesis & ch & n0 & Hb & Hw & Hs & Hg). subst genesis.
    destruct (boot_chain_Ok _ _ _ _ Hb) as (Hz & _ & _ & Hch).
    destruct (with_store_chain _ _ _ _ _ Hw) as [Hc0 Hsc0].
    destruct (boot_state_chain _ _ _ _ _ _ _ _ Hst Hw Hs) as (Hc & Hsc & Hd).
    unfold node_chain_id. rewrite Hsc, Hc, Hsc0, Hc0. split; [done|]. split; [done|].
    split; [done|]. split; [done|]. intros Hv. by apply (boot_chain_validator _ _ _ _ Hb).
  - apply bootstrap_Err in Hrun; [|done]. done.
Qed.

(** *** Concrete runs *)
Import Ref.
Module RefNode.
#[export] Instance json_genesis : SerdeJson GenesisDoc := codec_json c_genesis_doc.
#[export] Instance json_genesis_laws : SerdeJsonLaws GenesisDoc doc_wf :=
  codec_json_laws c_genesis_doc doc_wf c_genesis_doc_ok.
#[export] Instance int_f64 : F64 :=
  {| f64 := Z; f64_of z := z; f64_is_finite _ := true; f64_ge_zero z := 0 <=? z |}.
#[export] Instance name_registry : Prometheus :=
  {| prom_register names name :=
       if bool_decide (name ∈ names) then Some "Duplicate metrics collector registration attempted" else None |}.
#[export] Instance name_registry_laws : PrometheusLaws.
Proof. intros names name Hn. simpl. by rewrite bool_decide_false. Qed.
End RefNode.
Import RefNode.

Definition config1 : NodeConfig := node_config_new "data".
Definition boot1 : Boot :=
  {| bt_mkdir := None; bt_genesis := Some (Ok (to_json (genesis_to_doc sample_genesis)));
     bt_open := None; bt_meta := None; bt_read := None; bt_io := no_error |}.
Definition booted : option Node := res_ok (bootstrap config1 boot1 empty_disk).2.
Lemma booted_run : ∃ d1 nd, bootstrap config1 boot1 empty_disk = (d1, Ok nd) ∧
  bool_decide (ledger_wf (ledger_of (rs_chain_id (nd_state nd))
      (genesis_state (rs_chain_id (nd_state nd)) (nd_genesis nd)) [] ∅) ∧
    envelope_wf (envelope_of (ledger_of (rs_chain_id (nd_state nd))
      (genesis_state (rs_chain_id (nd_state nd)) (nd_genesis nd)) [] ∅))) = true.
Proof.
  assert (match booted with
    | Some nd => bool_decide (ledger_wf (ledger_of (rs_chain_id (nd_state nd))
                   (genesis_state (rs_chain_id (nd_state nd)) (nd_genesis nd)) [] ∅) ∧
                 envelope_wf (envelope_of (ledger_of (rs_chain_id (nd_state nd))
                   (genesis_state (rs_chain_id (nd_state nd)) (nd_genesis nd)) [] ∅)))
    | None => false end = true) as Hok by (by vm_compute).
  revert Hok. unfold booted. generalize (bootstrap config1 boot1 empty_disk). intros [d1 [nd|e]] Hok;
    [|discriminate Hok]. exists d1, nd. exact (conj eq_refl Hok).
Qed.
Lemma bootstrap_restart_witness :
  ∃ nd nd', (bootstrap config1 boot1 empty_disk).2 = Ok nd ∧
    rpc_balance (nd_state nd) (addr 2) = default 0 (genesis_entries (nd_genesis nd) !! addr 2) ∧
    (bootstrap config1 boot1 (rs_disk (nd_state nd))).2 = Ok nd' ∧
    rs_state (nd_state nd') = rs_state (nd_state nd).
Proof.
  destruct booted_run as (d1 & nd & Hrun & Hrep%representable_compute).
  destruct (bootstrap_restart {| fl_late := false; fl_unsynced := false |} map_to_list map_to_list
    config1 boot1 boot1 empty_disk d1 nd (nd_state nd) (λ m, reflexivity _) empty_disk_stable eq_refl
    Hrun Hrep eq_refl (rtc_refl _ _) eq_refl eq_refl eq_refl eq_refl)
    as (_ & Hbal & nd' & Hrun' & _ & _ & _ & Hsame).
  exists nd, nd'. split; [exact (f_equal snd Hrun)|]. split; [apply Hbal|].
  split; [exact (f_equal snd Hrun')|exact (proj1 (Hsame eq_refl))].
Defined.
Lemma bootstrap_safe_witness :
  ∃ nd, (bootstrap config1 boot1 empty_disk).2 = Ok nd ∧ node_chain_id nd ≠ 0.
Proof.
  destruct booted_run as (d1 & nd & Hrun & _).
  pose proof (bootstrap_safe map_to_list config1 boot1 empty_disk d1 (Ok nd) empty_disk_stable Hrun)
    as (_ & _ & Hz & _).
  exists nd. split; [exact (f_equal snd Hrun)|exact Hz].
Defined.
