(* ===== verification/NodeRun.v ===== *)
(** * [subhost-node]: a node while it runs

    [Node::run] of [crates/subhost-node/src/lib.rs]. The RPC server, the observer that
    copies the ledger's figures into the metrics and the metrics exporter are tasks of
    one process; the ledger they share is the concurrent system of [Concurrent]. *)

From Stdlib Require Import String.
From S2P Require Import Prelude Order Text Deps Bincode Core WorldState Mempool Storage Rpc RpcApi Interleave Concurrent Observe Node.
Import Metrics.

(** The exporter's task, which nothing awaits. *)
Inductive Task :=
| Absent
| Serving (addr : SocketAddr)
| Ended (r : result MetricsError unit)
| Aborted.
Definition abort (t : Task) : Task := match t with Serving _ => Aborted | _ => t end.
(** The observer's task: waiting for its ticker, the only place it can be cancelled
    at, or between the two reads of a tick. *)
Inductive Observer := Waiting | Reading.
(** Where [run] itself is: in the [select!], past it, past [observer.abort()], or
    returned. *)
Inductive Main :=
| Selecting
| Selected (r : result NodeError unit)
| ObserverAborted (r : result NodeError unit)
| Returned (r : result NodeError unit).

Section run.
Context `{!Blake3, !Hex, !Serialize Transaction, !Serialize BlockHeader, !Serialize (list Hash),
  !Serialize (Hash * Z * Z * Z), !Serialize StateSnapshot,
  !Serialize LedgerSnapshot, !Deserialize LedgerSnapshot,
  !Serialize LedgerEnvelope, !Deserialize LedgerEnvelope, !SerdeJson GenesisDoc, !F64, !Prometheus}.

Record Running := {
  ru_ledger : System RpcState RpcError Commit Answer;
  ru_metrics : Metrics;
  ru_exporter : Task;
  ru_observer : Observer;
  ru_cancelled : bool;
  ru_main : Main
}.
(** The tasks are spawned, and [run] waits for the server or the signal. *)
Definition run_start (nd : Node) : Running :=
  {| ru_ledger := sys_start (nd_state nd); ru_metrics := nd_metrics nd;
     ru_exporter := from_option Serving Absent (nd_metrics_addr (nd_config nd));
     ru_observer := Waiting; ru_cancelled := false; ru_main := Selecting |}.
Definition with_ledger (l : System RpcState RpcError Commit Answer) (x : Running) : Running :=
  {| ru_ledger := l; ru_metrics := ru_metrics x; ru_exporter := ru_exporter x;
     ru_observer := ru_observer x; ru_cancelled := ru_cancelled x; ru_main := ru_main x |}.
Definition with_metrics (o : Observer) (f : Metrics → Metrics) (x : Running) : Running :=
  {| ru_ledger := ru_ledger x; ru_metrics := f (ru_metrics x); ru_exporter := ru_exporter x;
     ru_observer := o; ru_cancelled := ru_cancelled x; ru_main := ru_main x |}.
(** A tick of the observer reads the ledger twice. *)
Definition observe_height (x : Running) : Running :=
  with_metrics Reading (set_block_height (rs_block_height (sys_state (ru_ledger x)))) x.
Definition observe_pending (x : Running) : Running :=
  with_metrics Waiting (set_pending_transactions (pending_count (sys_state (ru_ledger x)))) x.
Definition with_exporter (t : Task) (x : Running) : Running :=
  {| ru_ledger := ru_ledger x; ru_metrics := ru_metrics x; ru_exporter := t;
     ru_observer := ru_observer x; ru_cancelled := ru_cancelled x; ru_main := ru_main x |}.
Definition with_main (cancelled : bool) (p : Main) (x : Running) : Running :=
  {| ru_ledger := ru_ledger x; ru_metrics := ru_metrics x; ru_exporter := ru_exporter x;
     ru_observer := ru_observer x; ru_cancelled := cancelled; ru_main := p |}.

(** One step of one of the tasks. Cancelling the observer keeps it from starting a
    tick, not from ending the one it is in, and requests that were accepted may still
    complete after [run] has returned. *)
Inductive run_step (x : Running) : Running → Prop :=
| run_request l :
    sys_step commit_accesses admissible (ru_ledger x) l → run_step x (with_ledger l x)
| run_tick_height :
    ru_observer x = Waiting → ru_cancelled x = false → run_step x (observe_height x)
| run_tick_pending : ru_observer x = Reading → run_step x (observe_pending x)
| run_exporter addr bind served :
    ru_exporter x = Serving addr →
    run_step x (with_exporter (Ended (metrics_serve {| mc_listen_addr := addr |} bind served).2) x)
| run_select s :
    ru_main x = Selecting → run_step x (with_main (ru_cancelled x) (Selected (run_result s)) x)
| run_abort_observer r :
    ru_main x = Selected r → run_step x (with_main true (ObserverAborted r) x)
| run_abort_exporter r :
    ru_main x = ObserverAborted r →
    run_step x (with_main (ru_cancelled x) (Returned r) (with_exporter (abort (ru_exporter x)) x)).

(** ** Invariants of a run *)

Context `{!BincodeLaws LedgerSnapshot ledger_wf, !BincodeLaws LedgerEnvelope envelope_wf}.

End run.

(** ** Claims *)


(** *** Concrete runs *)
Import Ref RefNode.


(** The exporter cannot bind its address, yet the node keeps serving: [run] has not
    returned, a tick of the observer and a request still follow. *)
Lemma exporter_failure_unnoticed `{!Blake3, !Hex, !Serialize Transaction, !Serialize BlockHeader,
    !Serialize (list Hash), !Serialize (Hash * Z * Z * Z), !Serialize StateSnapshot,
    !Serialize LedgerSnapshot, !Deserialize LedgerSnapshot, !Serialize LedgerEnvelope,
    !Deserialize LedgerEnvelope, !F64} (nd : Node) (addr : SocketAddr) (e : string) (i : nat)
    (call : Commit) :
  nd_metrics_addr (nd_config nd) = Some addr →
  ∃ x y, rtc run_step (run_start nd) x ∧ ru_exporter x = Ended (Err (MetricsBind addr e)) ∧
    ru_main x = Selecting ∧ rtc run_step x y ∧
    sys_threads (ru_ledger y) !! i = Some (call, commit_accesses call) ∧ ru_main y = Selecting.
Proof.
  intros Ha. set (x := with_exporter (Ended (Err (MetricsBind addr e))) (run_start nd)).
  assert (run_step (run_start nd) x) as Hx.
  { apply (run_exporter (run_start nd) addr (Err e) (Ok ())). simpl. by rewrite Ha. }
  eexists x, _. split; [by apply rtc_once|]. split; [done|]. split; [done|]. split.
  - eapply rtc_l; [by apply run_tick_height|]. apply rtc_once. apply run_request.
    by apply (sys_call _ _ i call).
  - simpl. split; [apply lookup_insert_eq|done].
Qed.
