(* ===== verification/WalletDir.v ===== *)
(** * Wallet directories

    [list_wallets] and [find_wallet], which the command line and the explorer
    each have a copy of ([crates/subhost-cli/src/main.rs],
    [explorer/src/main.rs]); the copies differ in the wording of errors. A
    directory maps file names to the file slots of [Storage]; the operating system
    yields its entries in any order. *)

From Stdlib Require Import Ascii String.
From S2P Require Import Prelude Order Text Deps Bincode Core Storage Wallet.

(** [Path::extension] and [Path::file_stem] of a file name. *)
Definition extension (name : string) : option string :=
  match rsplit_once "."%char name with
  | Some (EmptyString, _) | None => None
  | Some (_, ext) => Some ext
  end.
Definition file_stem (name : string) : string :=
  match rsplit_once "."%char name with
  | Some (EmptyString, _) | None => name
  | Some (stem, _) => stem
  end.
(** The order of two paths in one directory. *)
Definition name_compare (a b : string) : comparison := lex_compare (str_bytes a) (str_bytes b).

Notation Dir := (gmap string Disk).
Definition dir_slot (dir : Dir) (name : string) : Disk := default no_disk (dir !! name).
Definition file_len (d : Disk) : Z := from_option (λ f, Z.of_nat (length (f_bytes f))) 0 (d_target d).
Definition file_exists (dir : Dir) (name : string) : bool := bool_decide (d_target (dir_slot dir name) ≠ None).

(** What the operating system answers during a scan: the entries, and the error
    of [fs::metadata], of the metadata call in [Wallet::read] and of its read. *)
Record DirIo := {
  di_entries : result string (list (result string string));
  di_meta : string → option string;
  di_wallet_meta : string → option string;
  di_wallet_read : string → option string
}.
(** A scan nothing goes wrong in, over these names. *)
Definition dir_io (names : list string) : DirIo :=
  {| di_entries := Ok (map Ok names); di_meta _ := None; di_wallet_meta _ := None;
     di_wallet_read _ := None |}.

Section scan.
Context `{!SerdeJson Wallet} {E : Type}.
Context (dir_error entry_error : string → E) (meta_error : string → string → E).

Fixpoint scan_wallets (limit : Z) (io : DirIo) (dir : Dir) (entries : list (result string string))
  : result E (list (string * Wallet)) :=
  match entries with
  | [] => Ok []
  | Err e :: _ => Err (entry_error e)
  | Ok name :: entries =>
      if negb (bool_decide (extension name = Some "json")) then scan_wallets limit io dir entries
      else match di_meta io name with
           | Some e => Err (meta_error name e)
           | None =>
               if limit <? file_len (dir_slot dir name) then scan_wallets limit io dir entries
               else
                 match read (di_wallet_meta io name) (di_wallet_read io name) (dir_slot dir name) with
                 | Ok wallet => ws ← scan_wallets limit io dir entries; Ok ((name, wallet) :: ws)
                 | Err _ => scan_wallets limit io dir entries
                 end
           end
  end.
Definition list_wallets (limit : Z) (io : DirIo) (dir : Dir) : result E (list (string * Wallet)) :=
  entries ← map_err dir_error (di_entries io);
  wallets ← scan_wallets limit io dir entries;
  Ok (sort_by (λ left right, name_compare left.1 right.1) wallets).
Definition find_wallet `{!Hex} (not_found : E) (limit : Z) (io : DirIo) (dir : Dir) (address : Address)
  : result E (string * Wallet) :=
  wallets ← list_wallets limit io dir;
  ok_or (snd <$> list_find (λ e, matches e.2 address = true) wallets) not_found.
End scan.

(** ** Lookup is by address, whatever the listing order *)

#[export] Instance name_compare_order : CmpOrder name_compare.
Proof. apply (cmp_key_order str_bytes lex_compare). Qed.
Lemma name_compare_Eq a b : name_compare a b = Eq ↔ a = b.
Proof.
  unfold name_compare. rewrite lex_compare_Eq. split; [|by intros ->].
  intros Hab. by rewrite <-(bytes_str_bytes a), Hab, bytes_str_bytes.
Qed.
Section lookup.
Context `{!SerdeJson Wallet, !Hex} {E : Type}.
Context (dir_error entry_error : string → E) (meta_error : string → string → E) (not_found : E) (limit : Z).

(** The wallet a directory holds under a name, if a scan would consider it. *)
Definition wallet_entry (dir : Dir) (name : string) : option Wallet :=
  if bool_decide (extension name = Some "json") && (file_len (dir_slot dir name) <=? limit)
  then res_ok (read None None (dir_slot dir name)) else None.
Definition wallet_entries (dir : Dir) (names : list string) : list (string * Wallet) :=
  omap (λ name, pair name <$> wallet_entry dir name) names.

Lemma wallet_entry_present dir name w : wallet_entry dir name = Some w → is_Some (dir !! name).
Proof.
  unfold wallet_entry, dir_slot, read. destruct (dir !! name); [eauto|]. simpl.
  by destruct (_ && _).
Qed.
Lemma scan_healthy all dir names :
  scan_wallets entry_error meta_error limit (dir_io all) dir (map Ok names)
  = Ok (wallet_entries dir names).
Proof.
  induction names as [|name names IH]; [done|]. simpl. unfold wallet_entry.
  case_bool_decide; simpl; [|done]. rewrite IH.
  destruct (Z.ltb_spec limit (file_len (dir_slot dir name))).
  - by rewrite (proj2 (Z.leb_gt _ _)) by lia.
  - rewrite (proj2 (Z.leb_le _ _)) by lia. by destruct (read None None (dir_slot dir name)).
Qed.
Lemma wallet_entries_elem dir names name w :
  (name, w) ∈ wallet_entries dir names ↔ name ∈ names ∧ wallet_entry dir name = Some w.
Proof.
  unfold wallet_entries. rewrite list_elem_of_omap. split.
  - intros (n & Hn & Hw). destruct (wallet_entry dir n) as [w'|] eqn:He; [|done]. by simplify_eq/=.
  - intros [Hn Hw]. exists name. by rewrite Hw.
Qed.
Lemma wallet_entries_inj dir names x y :
  x ∈ wallet_entries dir names → y ∈ wallet_entries dir names → name_compare x.1 y.1 = Eq → x = y.
Proof.
  destruct x as [n w], y as [n' w']. simpl. intros [_ Hw]%wallet_entries_elem [_ Hw']%wallet_entries_elem.
  intros ->%name_compare_Eq. congruence.
Qed.
Lemma entry_compare_order : CmpOrder (λ left right : string * Wallet, name_compare left.1 right.1).
Proof. apply (cmp_key_order fst name_compare). Qed.
Lemma list_wallets_sorted names dir :
  list_wallets dir_error entry_error meta_error limit (dir_io names) dir
  = Ok (sort_by (λ left right, name_compare left.1 right.1) (wallet_entries dir names)).
Proof. unfold list_wallets. cbn [dir_io di_entries map_err mbind result_bind]. by rewrite scan_healthy. Qed.
Lemma list_wallets_order names names' dir :
  names ≡ₚ names' →
  list_wallets dir_error entry_error meta_error limit (dir_io names) dir
  = list_wallets dir_error entry_error meta_error limit (dir_io names') dir.
Proof.
  intros Hp. rewrite !list_wallets_sorted. f_equal.
  apply (sort_by_unique _ (CmpOrder0:=entry_compare_order)); [|by apply wallet_entries_inj].
  unfold wallet_entries. by rewrite Hp.
Qed.
Lemma strongly_sorted_lookup {A} (R : A → A → Prop) l i j x y :
  StronglySorted R l → l !! i = Some x → l !! j = Some y → (i < j)%nat → R x y.
Proof.
  intros Hs. revert i j. induction Hs as [|z l Hs IH Hz]; [done|].
  intros [|i] [|j] Hi Hj Hlt; simpl in *; try lia; [|apply (IH i j); [done|done|lia]].
  simplify_eq. by apply (Forall_lookup_1 _ _ _ _ Hz Hj).
Qed.
(** The first match of a sorted list is the least match. *)
Lemma list_find_sorted (P : string * Wallet → Prop) `{∀ x, Decision (P x)} l i x :
  Sorted (cmp_le (λ left right, name_compare left.1 right.1)) l →
  list_find P l = Some (i, x) → ∀ y, y ∈ l → P y → name_compare x.1 y.1 ≠ Gt.
Proof.
  intros Hs Hf y Hy HPy. apply list_find_Some in Hf as (Hx & _ & Hbefore).
  pose proof entry_compare_order as Hord.
  apply list_elem_of_lookup in Hy as [j Hj]. destruct (decide (j < i)%nat) as [Hlt|Hge].
  { by destruct (Hbefore j y Hj Hlt). }
  assert (StronglySorted (cmp_le (λ left right : string * Wallet, name_compare left.1 right.1)) l) as Hss.
  { apply Sorted_StronglySorted; [|done].
    apply (cmp_le_trans _ (CmpOrder0:=Hord)). }
  destruct (decide (i = j)) as [->|Hne].
  { rewrite Hx in Hj. injection Hj as <-. by rewrite (proj2 (name_compare_Eq _ _)). }
  apply (strongly_sorted_lookup _ l i j x y Hss Hx Hj). lia.
Qed.
(** Over a listing of the whole directory, a lookup returns the first wallet file
    by name that carries the address, and fails only when there is none. *)
Lemma find_wallet_spec names dir a :
  (∀ name, is_Some (dir !! name) → name ∈ names) →
  match find_wallet dir_error entry_error meta_error not_found limit (dir_io names) dir a with
  | Ok (name, w) =>
      wallet_entry dir name = Some w ∧ matches w a = true ∧
      ∀ name' w', wallet_entry dir name' = Some w' → matches w' a = true → name_compare name name' ≠ Gt
  | Err e => e = not_found ∧ ∀ name w, wallet_entry dir name = Some w → matches w a = false
  end.
Proof.
  intros Hall. unfold find_wallet. rewrite list_wallets_sorted. cbn [mbind result_bind].
  set (l := sort_by _ _).
  assert (∀ n w, wallet_entry dir n = Some w ↔ (n, w) ∈ l) as Hl.
  { intros n w. unfold l. rewrite sort_by_perm, wallet_entries_elem. split; [|by intros [_ ?]].
    intros Hw. split; [|done]. by eapply Hall, wallet_entry_present. }
  destruct (list_find _ l) as [[i [n w]]|] eqn:Hf; simpl.
  - pose proof Hf as (Hx & Hm & _)%list_find_Some. split_and!; [|done|].
    + apply Hl. by eapply list_elem_of_lookup_2.
    + intros n' w' Hw' Hm'. apply (list_find_sorted _ _ _ _ (sort_by_sorted _ _ (CmpOrder0:=entry_compare_order)) Hf (n', w')); [|done].
      by apply Hl.
  - split; [done|]. intros n w Hw%Hl. apply list_find_None in Hf.
    apply (proj1 (Forall_forall _ _) Hf) in Hw. simpl in Hw. by apply not_true_is_false.
Qed.
End lookup.

(** ** The key behind an address *)
Section keys.
Context `{!Blake3, !Hex, !HexLaws, !Ed25519, !AesGcm, !Scrypt, !SerdeJson Wallet} {E : Type}.
Context (dir_error entry_error : string → E) (meta_error : string → string → E) (not_found : E) (limit : Z).

Lemma read_content meta rd d w : read meta rd d = Ok w → read None None d = Ok w.
Proof. unfold read. by destruct (d_target d), meta, rd; simpl; try done; destruct (fail_if _ _). Qed.
Lemma scan_wallets_elem io (dir : Dir) entries ws name w :
  scan_wallets entry_error meta_error limit io dir entries = Ok ws → (name, w) ∈ ws →
  read None None (dir_slot dir name) = Ok w.
Proof.
  revert ws. induction entries as [|[n|] entries IH]; intros ws; simpl; [|case_bool_decide; simpl|done].
  - intros [= <-]. by intros ?%elem_of_nil.
  - destruct (di_meta io n); [done|]. destruct (limit <? _); [by apply IH|].
    destruct (read (di_wallet_meta io n) _ _) as [w1|] eqn:Hr; [|by apply IH].
    intros (ws' & Hws & [= <-])%bind_Ok. intros [[= -> ->]|Hin]%elem_of_cons.
    + by eapply read_content.
    + by eapply IH.
  - by apply IH.
Qed.
Lemma find_wallet_Ok io (dir : Dir) a name w :
  find_wallet dir_error entry_error meta_error not_found limit io dir a = Ok (name, w) →
  read None None (dir_slot dir name) = Ok w ∧ matches w a = true.
Proof.
  intros (ws & (es & _ & (ws' & Hscan & [= <-])%bind_Ok)%bind_Ok & Hf)%bind_Ok.
  apply ok_or_Ok, fmap_Some in Hf as ([i [n w']] & (Hx & Hm & _)%list_find_Some & [= <- <-]).
  split; [|done]. apply list_elem_of_lookup_2 in Hx. rewrite sort_by_perm in Hx.
  by eapply scan_wallets_elem.
Qed.
(** The password that opens the file of a wallet found for an address yields the
    key that controls the address, whatever the file system answered. *)
Lemma found_wallet_key io (dir : Dir) a name w meta rd password w' key :
  find_wallet dir_error entry_error meta_error not_found limit io dir a = Ok (name, w) →
  wallet_load meta rd password (dir_slot dir name) = Ok (w', key) →
  w' = w ∧ derive_address key = a.
Proof.
  intros [Hread Hm]%find_wallet_Ok. unfold wallet_load. intros ([] & _ & (w1 & Hw1 & Hrun)%bind_Ok)%bind_Ok.
  apply read_content in Hw1. rewrite Hread in Hw1. injection Hw1 as <-.
  apply bind_Ok in Hrun as (k & _ & (Haddr & [= <- <-])%guard_Ok). split; [done|].
  bool_hyps. unfold matches, eq_ignore_ascii_case in Hm. apply bool_decide_eq_true in Hm.
  rewrite Haddr, !address_lower in Hm. by apply (inj address_to_string) in Hm.
Qed.
(** The only wallet file of an address is the one a lookup returns. *)
Lemma find_wallet_unique names (dir : Dir) a name w :
  (∀ name, is_Some (dir !! name) → name ∈ names) →
  wallet_entry limit dir name = Some w → matches w a = true →
  (∀ name' w', wallet_entry limit dir name' = Some w' → matches w' a = true → name' = name) →
  find_wallet dir_error entry_error meta_error not_found limit (dir_io names) dir a = Ok (name, w).
Proof.
  intros Hall Hw Hm Huniq.
  pose proof (find_wallet_spec dir_error entry_error meta_error not_found limit names dir a Hall) as Hspec.
  destruct (find_wallet _ _ _ _ _ _ _ _) as [[n w']|e].
  - destruct Hspec as (Hn & Hm' & _). assert (n = name) as -> by (by eapply Huniq). rewrite Hw in Hn. congruence.
  - destruct Hspec as [_ Hnone]. rewrite (Hnone name w Hw) in Hm. done.
Qed.
End keys.

(** *** A concrete directory *)
Import RefWallet.

Definition alice_file : Disk := match wallet1 with Ok w => (save (λ _, None) w no_disk).1 | Err _ => no_disk end.
Definition dir1 : Dir := {[ "alice.json" := alice_file; "notes.txt" := no_disk ]}.
Lemma alice_opens :
  ∃ w, read None None alice_file = Ok w ∧ w_address w = address_to_string (derive_address secret1) ∧
    wallet_load None None "faucet password" alice_file = Ok (w, secret1).
Proof.
  assert (match wallet1 with
          | Ok w => bool_decide (wallet_wf w) && (str_len (to_json w) <=? MAX_WALLET_FILE_BYTES)
          | Err _ => false end = true) as Hok by (by vm_compute).
  unfold alice_file. destruct wallet1 as [w|e] eqn:Hw; [|discriminate Hok].
  apply andb_true_iff in Hok as [Hwf%bool_decide_eq_true Hlen%Z.leb_le].
  destruct (load_saved _ _ _ _ w no_disk Hw Hwf Hlen ltac:(by split)) as (d & -> & _ & Hread & Hload).
  exists w. split_and!; [done| |done]. by destruct (from_secret_Ok _ _ _ _ _ Hw) as (_ & _ & ? & _).
Qed.
Lemma alice_len : (file_len alice_file <=? 1024 * 1024) = true.
Proof. vm_compute. reflexivity. Qed.
Lemma dir1_names name : is_Some (dir1 !! name) → name = "alice.json" ∨ name = "notes.txt".
Proof.
  unfold dir1. intros [d Hd]. apply lookup_insert_Some in Hd as [[<- _]|[_ Hd]]; [by left|].
  apply lookup_singleton_Some in Hd as [<- _]. by right.
Qed.
Lemma dir1_found {E} (e1 e2 : string → E) e3 e4 :
  ∃ w, find_wallet e1 e2 e3 e4 (1024 * 1024) (dir_io ["notes.txt"; "alice.json"]) dir1 (derive_address secret1)
         = Ok ("alice.json", w) ∧
    wallet_load None None "faucet password" (dir_slot dir1 "alice.json") = Ok (w, secret1).
Proof.
  destruct alice_opens as (w & Hread & Haddr & Hload). exists w.
  assert (dir_slot dir1 "alice.json" = alice_file) as Hslot
    by (unfold dir_slot, dir1; by rewrite lookup_insert_eq).
  rewrite Hslot. split; [|done]. apply find_wallet_unique.
  - intros name [->| ->]%dir1_names; rewrite !elem_of_cons; auto.
  - unfold wallet_entry. rewrite Hslot, Hread, alice_len. reflexivity.
  - unfold matches, eq_ignore_ascii_case. rewrite Haddr. by apply bool_decide_eq_true.
  - intros name w' Hw' _. pose proof (wallet_entry_present _ _ _ _ Hw') as [->| ->]%dir1_names; [done|].
    by vm_compute in Hw'.
Qed.
