(* ===== verification/Explorer.v ===== *)
(** * The explorer

    [explorer/src/main.rs]: the dashboard's snapshot of the chain tip, the demo
    accounts, receipts, and transfers signed with a wallet of a local directory.
    The explorer talks to the node through the exchange of [Client] and to the
    wallet directory through [WalletDir]. A request is the route it takes; parsing
    HTTP is the server library's. *)

From Stdlib Require Import Ascii String.
From S2P Require Import Prelude Order Text Deps Bincode Core WorldState Mempool Storage Rpc RpcApi Wallet Client Node WalletDir.

Definition MAX_BLOCKS : Z := 12.
Definition EXPLORER_RPC_RESPONSE_BYTES : Z := 2 * 1024 * 1024.
Definition MAX_REQUEST_BYTES : Z := 64 * 1024.
Definition EXPLORER_WALLET_FILE_BYTES : Z := 1024 * 1024.
Definition EXPLORER_GAS_LIMIT : Z := 21000.

Record ExplorerConfig := {
  ec_listen_addr : SocketAddr;
  ec_rpc_url : string;
  ec_chain_name : string;
  ec_wallet_dir : option string
}.
Definition explorer_config_default : ExplorerConfig :=
  {| ec_listen_addr := {| sa_ip := V4 127 0 0 1; sa_port := 3000 |};
     ec_rpc_url := "http://127.0.0.1:8545"; ec_chain_name := "SubHost"; ec_wallet_dir := None |}.

Inductive ExplorerError :=
| InvalidRequest (message : string)
| WalletNotFound (address : Address)
| WalletLocked
| WalletsUnavailable
| ExplorerRpc (message : string)
| ExplorerBadConfig (message : string)
| ExplorerIo (path source : string)
| ExplorerBind (addr : SocketAddr) (source : string)
| ExplorerServe (source : string).
(** [impl Display for ExplorerError]; [show_addr] prints a socket address. *)
Definition explorer_error_to_string `{!Hex} (show_addr : SocketAddr → string) (e : ExplorerError)
  : string :=
  match e with
  | InvalidRequest message => "invalid request: " +:+ message
  | WalletNotFound a => "no wallet found for " +:+ address_to_string a
  | WalletLocked => "wrong wallet password"
  | WalletsUnavailable => "no demo wallet directory is configured; set SUBHOST_TEST_HOME"
  | ExplorerRpc message => "node RPC error: " +:+ message
  | ExplorerBadConfig message => "invalid explorer configuration: " +:+ message
  | ExplorerIo path source => "I/O error for " +:+ path +:+ ": " +:+ source
  | ExplorerBind addr source => "cannot bind the explorer to " +:+ show_addr addr +:+ ": " +:+ source
  | ExplorerServe source => "explorer stopped: " +:+ source
  end.
(** [api_error]: the HTTP status and the body of a failed request. *)
Definition explorer_api_error `{!Hex} (show_addr : SocketAddr → string) (e : ExplorerError)
  : Z * string :=
  (match e with
   | InvalidRequest _ => 400
   | WalletNotFound _ => 404
   | WalletLocked => 401
   | WalletsUnavailable => 503
   | ExplorerRpc _ => 502
   | _ => 500
   end, explorer_error_to_string show_addr e).

(** [ExplorerState::new]; [build] is the outcome of building the HTTP client. *)
Definition explorer_new (build : result string unit) (c : ExplorerConfig)
  : result ExplorerError ExplorerConfig :=
  _ ← fail_if (negb (starts_with "http://" (ec_rpc_url c))
               && negb (starts_with "https://" (ec_rpc_url c)))
        (ExplorerBadConfig "rpc_url must be an http(s) URL");
  _ ← map_err ExplorerBadConfig build;
  Ok c.
Definition explorer_wallet_dir (c : ExplorerConfig) : result ExplorerError string :=
  ok_or (ec_wallet_dir c) WalletsUnavailable.
(** [ExplorerServer::run] with the outcomes of binding and serving. *)
Definition explorer_run (bind served : result string unit) (c : ExplorerConfig)
  : result ExplorerError unit :=
  _ ← fail_if (negb (is_loopback (sa_ip (ec_listen_addr c))))
        (ExplorerBadConfig "the demo signing explorer may only listen on a loopback address");
  _ ← map_err (ExplorerBind (ec_listen_addr c)) bind;
  map_err ExplorerServe served.

(** ** Views *)

Record BlockView := {
  bv_number : Z;
  bv_hash : string;
  bv_parent_hash : string;
  bv_timestamp : Z;
  bv_gas_used : string;
  bv_transaction_count : Z
}.
Record TransactionView := {
  tv_hash : string;
  tv_block_number : Z;
  tv_block_hash : string;
  tv_from : string;
  tv_to : option string;
  tv_value : string;
  tv_nonce : Z;
  tv_kind : string
}.
Record Snapshot := {
  sn_chain_name : string;
  sn_rpc_url : string;
  sn_chain_id : string;
  sn_height : Z;
  sn_latest_hash : string;
  sn_blocks : list BlockView;
  sn_transactions : list TransactionView;
  sn_updated_at : string
}.
Record AccountView := { av_label : string; av_address : string; av_balance : string }.
Record TransferRequest := {
  tr_from : string;
  tr_to : string;
  tr_amount : string;
  tr_password : string
}.
Record TransferResponse := {
  ts_hash : string;
  ts_from : string;
  ts_to : string;
  ts_amount : string;
  ts_nonce : Z
}.

(** [string_field], [Value::as_object] and [Value::as_array]. *)
Definition string_field (object : list (string * Value)) (key : string) : option string :=
  assoc key object ≫= value_as_str.
Definition value_as_object (v : Value) : option (list (string * Value)) :=
  match v with VObject fields => Some fields | _ => None end.
Definition value_as_array (v : Value) : option (list Value) :=
  match v with VArray l => Some l | _ => None end.

Definition block_view (number : Z) (object : list (string * Value)) : BlockView :=
  {| bv_number := default number (assoc "number" object ≫= parse_quantity);
     bv_hash := default EmptyString (string_field object "hash");
     bv_parent_hash := default EmptyString (string_field object "parentHash");
     bv_timestamp := default 0 (assoc "timestamp" object ≫= parse_quantity);
     bv_gas_used := default EmptyString (string_field object "gasUsed");
     bv_transaction_count := Z.of_nat (length (default [] (assoc "transactions" object ≫= value_as_array))) |}.
Definition transaction_view (b : BlockView) (v : Value) : option TransactionView :=
  tx ← value_as_object v;
  hash ← string_field tx "hash";
  Some {| tv_hash := hash; tv_block_number := bv_number b; tv_block_hash := bv_hash b;
          tv_from := default "-" (string_field tx "from"); tv_to := string_field tx "to";
          tv_value := fmt_dec (default 0 (assoc "value" tx ≫= parse_amount));
          tv_nonce := default 0 (assoc "nonce" tx ≫= parse_quantity);
          tv_kind := default "transfer" (string_field tx "type") |}.
(** The transactions of one block object, in block order. *)
Definition block_transactions (b : BlockView) (object : list (string * Value)) : list TransactionView :=
  omap (transaction_view b) (default [] (assoc "transactions" object ≫= value_as_array)).

(** ** The node over HTTP *)

Definition explorer_errors : ClientErrors ExplorerError :=
  {| ce_accepts := is_success;
     ce_send method e := ExplorerRpc (method +:+ " request failed: " +:+ e);
     ce_status method status := ExplorerRpc (method +:+ " returned HTTP " +:+ status);
     ce_too_large _ := ExplorerRpc "response is too large";
     ce_read _ e := ExplorerRpc ("response read failed: " +:+ e);
     ce_json method e := ExplorerRpc (method +:+ " returned invalid JSON: " +:+ e);
     ce_failed method message := ExplorerRpc (method +:+ " failed: " +:+ message);
     ce_no_result method := ExplorerRpc (method +:+ " response has no result") |}.
Definition explorer_parse_address `{!Hex} (value : string) : result ExplorerError Address :=
  parse_recipient (InvalidRequest "address must be 0x followed by 40 hex characters")
    (InvalidRequest "address is not valid hex") value.

Section explorer.
Context `{!SerdeJson Value} {W : Type} (post : Transport W).

Definition explorer_rpc_call (method : string) (params : list Value) : ST W ExplorerError Value :=
  rpc_exchange explorer_errors EXPLORER_RPC_RESPONSE_BYTES post method params.
Definition explorer_quantity (method : string) (params : list Value) : ST W ExplorerError Z :=
  value ← explorer_rpc_call method params;
  st_lift (ok_or (parse_quantity value) (ExplorerRpc (method +:+ " returned invalid data"))).
Definition explorer_chain_id : ST W ExplorerError Z := explorer_quantity "eth_chainId" [].

(** The loop of [snapshot] over the numbers still to visit; [blocks] and
    [transactions] are the vectors filled so far. *)
Fixpoint snapshot_walk (height : Z) (numbers : list Z) (blocks : list BlockView)
  (transactions : list TransactionView)
  : ST W ExplorerError (list BlockView * list TransactionView) :=
  match numbers with
  | [] => mret (blocks, transactions)
  | number :: numbers =>
      if height =? 0 then mret (blocks, transactions)
      else
        block ← explorer_rpc_call "eth_getBlockByNumber" [VString (fmt_0x number); VBool true];
        match value_as_object block with
        | None => snapshot_walk height numbers blocks transactions
        | Some object =>
            let b := block_view number object in
            snapshot_walk height numbers (blocks ++ [b]) (transactions ++ block_transactions b object)
        end
  end.
Definition first_block (height : Z) : Z :=
  Z.max (saturating_sub height (saturating_sub MAX_BLOCKS 1)) 1.
(** [(first..=height).rev()] *)
Definition newest_first (first height : Z) : list Z := reverse (seqZ first (height - first + 1)).
Definition explorer_snapshot (c : ExplorerConfig) (now : string) : ST W ExplorerError Snapshot :=
  height ← explorer_quantity "eth_blockNumber" [];
  '(blocks, transactions) ← snapshot_walk height (newest_first (first_block height) height) [] [];
  chain_id ← explorer_chain_id;
  mret {| sn_chain_name := ec_chain_name c; sn_rpc_url := ec_rpc_url c; sn_chain_id := fmt_0x chain_id;
          sn_height := height; sn_latest_hash := default EmptyString (bv_hash <$> head blocks);
          sn_blocks := blocks; sn_transactions := transactions; sn_updated_at := now |}.
Definition explorer_receipt (tx_hash : string) : ST W ExplorerError Value :=
  _ ← st_fail_if (negb (is_tx_hash tx_hash))
        (InvalidRequest "transaction hash must be 0x followed by 64 hex characters");
  explorer_rpc_call "eth_getTransactionReceipt" [VString tx_hash].

(** *** Accounts and transfers *)
Context `{!Blake3, !Hex, !Ed25519, !AesGcm, !Scrypt, !SerdeJson Wallet, !Serialize Transaction}.
(** The wallet directory, and what the file system answers about it. *)
(** [dir] is the wallet directory when it is listed, and [dir'] when a wallet found in
    it is opened: others may change it in between. *)
Context (dio : DirIo) (load_meta load_read : option string) (dir dir' : Dir).

Definition explorer_list_wallets (path : string) : result ExplorerError (list (string * Wallet)) :=
  list_wallets (ExplorerIo path) (ExplorerIo path) (λ name, ExplorerIo (path_join path name))
    EXPLORER_WALLET_FILE_BYTES dio dir.
Fixpoint account_views (wallets : list (string * Wallet)) : ST W ExplorerError (list AccountView) :=
  match wallets with
  | [] => mret []
  | (name, wallet) :: wallets =>
      balance ← explorer_rpc_call "eth_getBalance" [VString (w_address wallet); VString "latest"];
      rest ← account_views wallets;
      mret ({| av_label := file_stem name; av_address := w_address wallet;
               av_balance := fmt_dec (default 0 (parse_amount balance)) |} :: rest)
  end.
Definition explorer_accounts (c : ExplorerConfig) : ST W ExplorerError (list AccountView) :=
  path ← st_lift (explorer_wallet_dir c);
  wallets ← st_lift (explorer_list_wallets path);
  accounts ← account_views wallets;
  mret (sort_by (λ left right, name_compare (av_label left) (av_label right)) accounts).

Definition explorer_transfer (c : ExplorerConfig) (request : TransferRequest)
  : ST W ExplorerError TransferResponse :=
  path ← st_lift (explorer_wallet_dir c);
  from ← st_lift (explorer_parse_address (tr_from request));
  to ← st_lift (explorer_parse_address (tr_to request));
  _ ← st_fail_if (bool_decide (from = to)) (InvalidRequest "sender and recipient must differ");
  amount ← st_lift (ok_or (from_str_radix u128_max 10 (trim (tr_amount request)))
                      (InvalidRequest "amount must be a positive integer"));
  _ ← st_fail_if (amount =? 0) (InvalidRequest "amount must be greater than zero");
  '(name, _) ← st_lift (find_wallet (ExplorerIo path) (ExplorerIo path)
                          (λ name, ExplorerIo (path_join path name)) (WalletNotFound from)
                          EXPLORER_WALLET_FILE_BYTES dio dir from);
  '(_, private_key) ← st_lift (map_err (λ _, WalletLocked)
                                 (wallet_load load_meta load_read (tr_password request) (dir_slot dir' name)));
  chain_id ← explorer_chain_id;
  nonce ← explorer_quantity "eth_getTransactionCount" [VString (address_to_string from); VString "latest"];
  let unsigned := plain_transfer from to amount 1 EXPLORER_GAS_LIMIT chain_id nonce in
  let signature := ed_sign private_key (signing_payload unsigned) in
  result ← explorer_rpc_call "eth_sendTransaction"
             [transfer_request (ed_public_key private_key) signature to unsigned];
  hash ← st_lift (ok_or (value_as_str result) (ExplorerRpc "node returned an invalid hash"));
  mret {| ts_hash := hash; ts_from := address_to_string from; ts_to := address_to_string to;
          ts_amount := fmt_dec amount; ts_nonce := nonce |}.

(** *** Handlers *)
Context (show_addr : SocketAddr → string) (c : ExplorerConfig).
Definition api_snapshot (now : string) : ST W (Z * string) Snapshot :=
  st_map_err (explorer_api_error show_addr) (explorer_snapshot c now).
Definition api_accounts : ST W (Z * string) (list AccountView) :=
  st_map_err (explorer_api_error show_addr) (explorer_accounts c).
Definition api_transfer (request : TransferRequest) : ST W (Z * string) TransferResponse :=
  st_map_err (explorer_api_error show_addr) (explorer_transfer c request).
Definition api_transaction (hash : string) : ST W (Z * string) Value :=
  st_map_err (explorer_api_error show_addr) (explorer_receipt hash).

(** [ExplorerServer::router]: the handler behind each route; [index] is the page
    compiled into the binary. *)
Inductive ExplorerRequest :=
| GetIndex
| GetExplorerHealth
| GetSnapshot
| GetAccounts
| PostTransfer (request : TransferRequest)
| GetTransaction (hash : string).
Inductive ExplorerReply :=
| IndexReply (page : string)
| ExplorerHealthReply (text : string)
| SnapshotReply (r : result (Z * string) Snapshot)
| AccountsReply (r : result (Z * string) (list AccountView))
| TransferReply (r : result (Z * string) TransferResponse)
| TransactionReply (r : result (Z * string) Value).
Definition explorer_router (index now : string) (q : ExplorerRequest) (w : W) : W * ExplorerReply :=
  match q with
  | GetIndex => (w, IndexReply index)
  | GetExplorerHealth => (w, ExplorerHealthReply "ok")
  | GetSnapshot => let '(w, r) := api_snapshot now w in (w, SnapshotReply r)
  | GetAccounts => let '(w, r) := api_accounts w in (w, AccountsReply r)
  | PostTransfer request => let '(w, r) := api_transfer request w in (w, TransferReply r)
  | GetTransaction hash => let '(w, r) := api_transaction hash w in (w, TransactionReply r)
  end.
End explorer.

(** *** Configuration from the environment *)

(** [str::lines]: the pieces ended by a line feed, without a carriage return
    before it. *)
Definition strip_cr (line : bytes) : bytes :=
  match reverse line with "013"%char :: rest => reverse rest | _ => line end.
Fixpoint lines_from (line text : bytes) : list bytes :=
  match text with
  | [] => match line with [] => [] | _ => [line] end
  | "010"%char :: text => strip_cr line :: lines_from [] text
  | c :: text => lines_from (line ++ [c]) text
  end.
Definition lines (text : string) : list string := map bytes_str (lines_from [] (str_bytes text)).
(** [str::trim_matches] of the two quotation marks. *)
Definition is_quote (c : byte) : bool := (byte_val c =? 39) || (byte_val c =? 34).
Fixpoint drop_quotes (l : bytes) : bytes :=
  match l with c :: l' => if is_quote c then drop_quotes l' else l | [] => [] end.
Definition trim_quotes (s : string) : string :=
  bytes_str (reverse (drop_quotes (reverse (drop_quotes (str_bytes s))))).
Fixpoint find_map {A B} (f : A → option B) (l : list A) : option B :=
  match l with
  | [] => None
  | x :: l => match f x with Some y => Some y | None => find_map f l end
  end.

Definition wallets_under (home : string) : string := path_join (path_join home ".subhost") "wallets".
(** [env] reads the environment and [read_file] a file. *)
Definition wallet_dir_from_env (env read_file : string → option string) : option string :=
  match env "SUBHOST_TEST_HOME" with
  | Some home => Some (wallets_under home)
  | None =>
      let env_path := default "/tmp/subhost-two-users-current.env" (env "SUBHOST_TWO_USERS_ENV") in
      content ← read_file env_path;
      home ← find_map (λ line, value ← strip_prefix "export SUBHOST_TEST_HOME=" line;
                               Some (trim_quotes (trim value))) (lines content);
      Some (wallets_under home)
  end.
(** The configuration [main] builds before it starts the server. *)
Definition explorer_config_from_env (parse_addr : string → result string SocketAddr)
  (env read_file : string → option string) : result string ExplorerConfig :=
  let defaults := explorer_config_default in
  listen_addr ← match env "EXPLORER_LISTEN_ADDR" with
                | Some value => map_err (String.append "EXPLORER_LISTEN_ADDR is invalid: ") (parse_addr value)
                | None => Ok (ec_listen_addr defaults)
                end;
  Ok {| ec_listen_addr := listen_addr;
        ec_rpc_url := default (ec_rpc_url defaults) (env "SUBHOST_RPC_URL");
        ec_chain_name := default (ec_chain_name defaults) (env "SUBHOST_CHAIN_NAME");
        ec_wallet_dir := wallet_dir_from_env env read_file |}.

(** [main], after the log subscriber is installed, which cannot fail: an error is a
    text or the explorer's own; [runtime] is the outcome of building the async runtime. *)
Definition explorer_main (parse_addr : string → result string SocketAddr)
  (env read_file : string → option string) (build runtime bind served : result string unit)
  : result (string + ExplorerError) unit :=
  config ← map_err inl (explorer_config_from_env parse_addr env read_file);
  state ← map_err inr (explorer_new build config);
  _ ← map_err inl runtime;
  map_err inr (explorer_run bind served state).
(** Whatever the environment says, an explorer that serves does so on a loopback
    address, for a node over HTTP. *)
Lemma explorer_main_loopback parse_addr env read_file build runtime bind served :
  explorer_main parse_addr env read_file build runtime bind served = Ok () →
  ∃ c, explorer_config_from_env parse_addr env read_file = Ok c ∧
    is_loopback (sa_ip (ec_listen_addr c)) = true ∧
    (starts_with "http://" (ec_rpc_url c) || starts_with "https://" (ec_rpc_url c)) = true.
Proof.
  unfold explorer_main. intros (c & Hc & Hrun)%map_err_bind_Ok. exists c.
  apply map_err_bind_Ok in Hrun as (c' & Hn & Hrun). unfold explorer_new in Hn.
  apply guard_Ok in Hn as [Hurl Hn]. apply map_err_bind_Ok in Hn as (? & _ & [= <-]).
  apply map_err_bind_Ok in Hrun as (? & _ & Hrun%map_err_Ok). unfold explorer_run in Hrun.
  apply guard_Ok in Hrun as [Hloop _]. split; [done|]. split; [by destruct (is_loopback _)|].
  by destruct (starts_with "http://" _), (starts_with "https://" _).
Qed.

(** ** The work of one snapshot *)

(** A transport that counts its calls. *)
Definition counted {W} (post : Transport W) : Transport (W * nat) := λ method params '(w, k),
  match post method params w with (w, r) => ((w, S k), r) end.

Section bounded.
Context `{!SerdeJson Value} {W : Type} (post : Transport W).

Lemma exchange_counted {E} (errs : ClientErrors E) limit method params w k :
  (rpc_exchange errs limit (counted post) method params (w, k)).1.2 = S k.
Proof. unfold rpc_exchange, counted. by destruct (post method params w) as [w' []]. Qed.
Lemma walk_counted height numbers blocks txs w k :
  let '((_, k'), r) := snapshot_walk (counted post) height numbers blocks txs (w, k) in
  (k' ≤ k + length numbers)%nat ∧
  match r with Ok (bs, _) => (length bs ≤ length blocks + length numbers)%nat | Err _ => True end.
Proof.
  revert blocks txs w k. induction numbers as [|number numbers IH]; intros blocks txs w k; simpl.
  { lia. }
  destruct (height =? 0); simpl; [lia|]. run_unfold. unfold explorer_rpc_call.
  pose proof (exchange_counted explorer_errors EXPLORER_RPC_RESPONSE_BYTES "eth_getBlockByNumber"
    [VString (fmt_0x number); VBool true] w k) as Hk.
  destruct (rpc_exchange _ _ _ _ _ _) as [[w' k'] [block|e]]; simpl in Hk; subst k'; [|lia].
  destruct (value_as_object block) as [object|].
  - specialize (IH (blocks ++ [block_view number object])
      (txs ++ block_transactions (block_view number object) object) w' (S k)).
    destruct (snapshot_walk _ _ _ _ _ _) as [[w2 k2] r]. destruct IH as [Hk Hr]. split; [lia|].
    destruct r as [[bs ?]|]; [|done]. rewrite length_app in Hr. simpl in Hr. lia.
  - specialize (IH blocks txs w' (S k)).
    destruct (snapshot_walk _ _ _ _ _ _) as [[w2 k2] r]. destruct IH as [Hk Hr]. split; [lia|].
    destruct r as [[bs ?]|]; [|done]. lia.
Qed.
Lemma newest_first_length height : (length (newest_first (first_block height) height) ≤ 12)%nat.
Proof.
  unfold newest_first, first_block, saturating_sub, MAX_BLOCKS. rewrite length_reverse, length_seqZ. lia.
Qed.
End bounded.

(** C37. A snapshot does a bounded amount of work whatever the node answers: at
    most fourteen calls and twelve blocks, even when the node reports a height of
    [u64::MAX] or changes its answers from call to call. *)
Theorem snapshot_bounded `{!SerdeJson Value} {W : Type} (post : Transport W) (c : ExplorerConfig)
    (now : string) (w : W) :
  let '((_, calls), r) := explorer_snapshot (counted post) c now (w, 0%nat) in
  (calls ≤ 14)%nat ∧
  match r with Ok s => (length (sn_blocks s) ≤ 12)%nat | Err _ => True end.
Proof.
  unfold explorer_snapshot, explorer_chain_id, explorer_quantity, explorer_rpc_call. run_unfold.
  pose proof (exchange_counted post explorer_errors EXPLORER_RPC_RESPONSE_BYTES
    "eth_blockNumber" [] w 0) as Hk.
  destruct (rpc_exchange _ _ _ "eth_blockNumber" _ _) as [[w1 k1] [v|e]]; simpl in Hk; subst k1; [|lia].
  destruct (parse_quantity v) as [height|]; simpl; [|lia].
  pose proof (newest_first_length height) as Hlen.
  pose proof (walk_counted post height (newest_first (first_block height) height) [] [] w1 1) as Hw.
  destruct (snapshot_walk _ _ _ _ _ _) as [[w2 k2] [[bs txs]|e]]; simpl in Hw; [|lia].
  pose proof (exchange_counted post explorer_errors EXPLORER_RPC_RESPONSE_BYTES
    "eth_chainId" [] w2 k2) as Hk2.
  destruct (rpc_exchange _ _ _ "eth_chainId" _ _) as [[w3 k3] [v2|e]]; simpl in Hk2; subst k3; [|lia].
  destruct (parse_quantity v2); simpl; lia.
Qed.

(** ** Snapshots of a node *)

(** What the dashboard shows of a block and of its transactions. *)
Definition shown_block `{!Blake3, !Hex, !Serialize BlockHeader} (b : Block) : BlockView :=
  let h := blk_header b in
  {| bv_number := hdr_height h; bv_hash := hash_to_string (block_hash b);
     bv_parent_hash := hash_to_string (hdr_parent_hash h); bv_timestamp := hdr_timestamp h;
     bv_gas_used := fmt_0x (hdr_gas_used h);
     bv_transaction_count := Z.of_nat (length (blk_transactions b)) |}.
Definition shown_transaction `{!Blake3, !Hex, !Serialize Transaction, !Serialize BlockHeader}
  (b : Block) (tx : Transaction) : TransactionView :=
  {| tv_hash := hash_to_string (tx_hash tx); tv_block_number := hdr_height (blk_header b);
     tv_block_hash := hash_to_string (block_hash b); tv_from := address_to_string (tx_from tx);
     tv_to := address_to_string <$> tx_to tx; tv_value := fmt_dec (tx_value tx);
     tv_nonce := tx_nonce tx; tv_kind := transaction_type_to_string (tx_type tx) |}.

Section faithful.
Context `{!Blake3, !Hex, !HexLaws, !Ed25519, !Ed25519Laws, !Serialize Transaction, !Serialize BlockHeader,
  !Serialize (list Hash), !Serialize (Hash * Z * Z * Z), !Serialize StateSnapshot,
  !Serialize LedgerSnapshot, !Deserialize LedgerSnapshot,
  !Serialize LedgerEnvelope, !Deserialize LedgerEnvelope,
  !SerdeJson Value, !JsonRpc, !JsonRpcLaws}.
Context (io : FsOp → option string) (clock : Z).

Lemma block_view_json b number full :
  block_wf b → ∃ fields, value_as_object (block_json b full) = Some fields ∧
    block_view number fields = shown_block b.
Proof.
  intros ((_ & _ & Hh & Ht & _) & _). eexists. split; [reflexivity|].
  match goal with |- block_view _ ?f = _ => set (fields := f) end. unfold block_view, string_field.
  change (assoc "number" fields) with (Some (json_quantity (hdr_height (blk_header b)))).
  change (assoc "timestamp" fields) with (Some (json_quantity (hdr_timestamp (blk_header b)))).
  cbn [mbind option_bind]. rewrite !parse_quantity_print by done.
  unfold shown_block. f_equal. unfold fields. destruct full; simpl; by rewrite ?length_imap, ?length_map.
Qed.
Lemma transaction_view_json b v tx i :
  tx_wf tx → bv_number v = hdr_height (blk_header b) → bv_hash v = hash_to_string (block_hash b) →
  transaction_view v (transaction_json tx b i) = Some (shown_transaction b tx).
Proof.
  intros (Hn & Hv & _) Hnum Hhash. unfold transaction_view, transaction_json. cbn [value_as_object mbind option_bind].
  match goal with |- context [string_field ?f] => set (fields := f) end. unfold string_field.
  change (assoc "value" fields) with (Some (json_quantity (tx_value tx))).
  change (assoc "nonce" fields) with (Some (json_quantity (tx_nonce tx))).
  cbn [mbind option_bind]. rewrite parse_quantity_print, parse_amount_print by done.
  change (assoc "hash" fields) with (Some (VString (hash_to_string (tx_hash tx)))).
  cbn [value_as_str]. unfold shown_transaction. rewrite <-Hnum, <-Hhash. do 2 f_equal.
  unfold fields. simpl. by destruct (tx_to tx).
Qed.
Lemma block_transactions_json b number :
  block_wf b → ∃ fields, value_as_object (block_json b true) = Some fields ∧
    block_view number fields = shown_block b ∧
    block_transactions (shown_block b) fields = map (shown_transaction b) (blk_transactions b).
Proof.
  intros Hwf. destruct (block_view_json b number true Hwf) as (fields & Hf & Hv).
  exists fields. split_and!; [done|done|]. injection Hf as <-. unfold block_transactions.
  match goal with |- context [assoc "transactions" ?f] =>
    change (assoc "transactions" f) with (Some (VArray (imap (λ index tx, transaction_json tx b
      (Z.of_nat index)) (blk_transactions b)))) end.
  cbn [mbind option_bind value_as_array default from_option id].
  destruct Hwf as (_ & (_ & Htxs) & _).
  assert (∀ g : nat → Z, omap (transaction_view (shown_block b))
      (imap (λ index tx, transaction_json tx b (g index)) (blk_transactions b))
    = map (shown_transaction b) (blk_transactions b)) as Hgen; [|exact (Hgen Z.of_nat)].
  clear Hv. induction Htxs as [|tx txs Htx _ IH]; intros g; [done|].
  rewrite imap_cons. cbn [omap list_omap map]. rewrite transaction_view_json by done.
  f_equal. apply (IH (λ i, g (S i))).
Qed.
Lemma block_query n i b full :
  rs_blocks n !! i = Some b → block_count n ≤ u64_max →
  eth_getBlockByNumber (Some [VString (fmt_0x (Z.of_nat i + 1)); VBool full]) n = Ok (block_json b full).
Proof.
  intros Hi Hc. pose proof (lookup_lt_Some _ _ _ Hi) as Hlt. unfold eth_getBlockByNumber, next_string.
  cbn [mbind result_bind]. rewrite resolve_quantity, decide_True by (unfold block_count in *; lia).
  cbn [mbind result_bind]. by rewrite block_at_index, Hi.
Qed.
(** The blocks the dashboard shows, newest first. *)
Definition recent_blocks (n : RpcState) : list Block := take 12 (reverse (rs_blocks n)).
Lemma newest_first_recent n :
  Forall2 (λ number b, ∃ i, number = Z.of_nat i + 1 ∧ rs_blocks n !! i = Some b)
    (newest_first (first_block (block_count n)) (block_count n)) (recent_blocks n).
Proof.
  set (len := length (rs_blocks n)).
  assert (length (newest_first (first_block (block_count n)) (block_count n)) = Nat.min 12 len) as Hlen.
  { unfold newest_first, first_block, saturating_sub, MAX_BLOCKS, block_count. rewrite length_reverse, length_seqZ.
    fold len. lia. }
  apply Forall2_same_length_lookup_2.
  { unfold recent_blocks. rewrite Hlen, length_take, length_reverse. done. }
  intros j number b Hj Hb. pose proof (lookup_lt_Some _ _ _ Hj) as Hlt. rewrite Hlen in Hlt.
  unfold recent_blocks in Hb. rewrite lookup_take_lt, reverse_lookup in Hb by (fold len; lia). fold len in Hb.
  exists (len - S j)%nat. split; [|done]. unfold newest_first in *. rewrite length_reverse in Hlen.
  rewrite reverse_lookup, Hlen in Hj by lia. apply lookup_seqZ in Hj as [-> _].
  unfold first_block, saturating_sub, MAX_BLOCKS, block_count. fold len. lia.
Qed.

(** Every block shown fits in one response. *)
Record snapshot_fits (n : RpcState) : Prop := {
  sf_height : reply_fits EXPLORER_RPC_RESPONSE_BYTES (eth_blockNumber n);
  sf_block b : b ∈ recent_blocks n → reply_fits EXPLORER_RPC_RESPONSE_BYTES (Ok (block_json b true));
  sf_chain : reply_fits EXPLORER_RPC_RESPONSE_BYTES (eth_chainId n)
}.
Lemma walk_node n height numbers bs blocks txs :
  height ≠ 0 → block_count n ≤ u64_max → Forall block_wf (rs_blocks n) →
  Forall2 (λ number b, ∃ i, number = Z.of_nat i + 1 ∧ rs_blocks n !! i = Some b) numbers bs →
  (∀ b, b ∈ bs → reply_fits EXPLORER_RPC_RESPONSE_BYTES (Ok (block_json b true))) →
  snapshot_walk (node_transport io clock) height numbers blocks txs n
  = (n, Ok (blocks ++ map shown_block bs,
            txs ++ concat (map (λ b, map (shown_transaction b) (blk_transactions b)) bs))).
Proof.
  intros Hh Hc Hwf HF. revert blocks txs.
  induction HF as [|number b numbers bs (i & -> & Hi) _ IH]; intros blocks txs Hfit.
  { simpl. by rewrite !app_nil_r. }
  cbn [snapshot_walk]. rewrite (proj2 (Z.eqb_neq _ _)) by done. run_unfold. unfold explorer_rpc_call.
  pose proof (block_query n i b true Hi Hc) as Hq.
  rewrite (exchange_query io clock explorer_errors EXPLORER_RPC_RESPONSE_BYTES ltac:(done) eq_refl "eth_getBlockByNumber" eth_getBlockByNumber), Hq;
    [|done|rewrite Hq; split; [by apply Hfit; left|intros v [= <-]; apply block_json_ok]].
  cbn [map_err]. destruct (block_transactions_json b (Z.of_nat i + 1)) as (fields & -> & -> & Htx).
  { by eapply (Forall_lookup_1 _ _ _ _ Hwf). }
  rewrite IH by (by intros; apply Hfit; right). rewrite Htx. simpl. by rewrite <-!(assoc_L (++)).
Qed.
End faithful.

(** C35. The dashboard tells the truth about the node it asks. Against a node whose
    responses fit, a snapshot succeeds without changing the node and shows the
    node's height and chain ID, the newest blocks (at most twelve, newest first)
    with the hash, parent, time, gas and transaction count the ledger has for
    them, and every transaction of those blocks with its hash, sender, recipient,
    value and nonce. *)
Theorem snapshot_faithful `{!Blake3, !Hex, !HexLaws, !Ed25519, !Ed25519Laws, !Serialize Transaction,
    !Serialize BlockHeader, !Serialize (list Hash), !Serialize (Hash * Z * Z * Z),
    !Serialize StateSnapshot, !Serialize LedgerSnapshot, !Deserialize LedgerSnapshot,
    !Serialize LedgerEnvelope, !Deserialize LedgerEnvelope, !SerdeJson Value,
    !JsonRpc, !JsonRpcLaws}
    (io : FsOp → option string) (clock : Z) (c : ExplorerConfig) (now : string) (n : RpcState) :
  node_inv n → is_u64 (rs_chain_id n) → block_count n ≤ u64_max → Forall block_wf (rs_blocks n) →
  snapshot_fits n →
  explorer_snapshot (node_transport io clock) c now n
  = (n, Ok {| sn_chain_name := ec_chain_name c; sn_rpc_url := ec_rpc_url c;
              sn_chain_id := fmt_0x (rs_chain_id n); sn_height := block_count n;
              sn_latest_hash := default EmptyString (hash_to_string ∘ block_hash <$> last (rs_blocks n));
              sn_blocks := map shown_block (recent_blocks n);
              sn_transactions := concat (map (λ b, map (shown_transaction b) (blk_transactions b))
                                             (recent_blocks n));
              sn_updated_at := now |}).
Proof.
  intros I Hchain Hc Hwf [Hf1 Hf2 Hf3]. unfold explorer_snapshot, explorer_chain_id, explorer_quantity.
  run_unfold. unfold explorer_rpc_call at 1.
  rewrite (exchange_query io clock explorer_errors EXPLORER_RPC_RESPONSE_BYTES ltac:(done) eq_refl "eth_blockNumber" (λ _, eth_blockNumber));
    [|done|split; [done|by intros v [= <-]]].
  cbn [map_err eth_blockNumber]. rewrite (ni_height _ _ I). fold (block_count n).
  rewrite parse_quantity_print by (unfold block_count in *; width). cbn [ok_or].
  pose proof (newest_first_recent n) as HF.
  assert (snapshot_walk (node_transport io clock) (block_count n)
    (newest_first (first_block (block_count n)) (block_count n)) [] [] n
    = (n, Ok (map shown_block (recent_blocks n), concat (map (λ b, map (shown_transaction b)
        (blk_transactions b)) (recent_blocks n))))) as ->.
  { destruct (decide (block_count n = 0)) as [Hz|Hz]; [|by rewrite (walk_node io clock n _ _ (recent_blocks n))].
    assert (rs_blocks n = []) as Hnil by (unfold block_count in Hz; destruct (rs_blocks n); [done|simpl in Hz; lia]).
    unfold recent_blocks. by rewrite Hz, Hnil. }
  unfold explorer_rpc_call. rewrite chain_id_node by done. rewrite parse_quantity_print by done.
  cbn [ok_or]. do 3 f_equal. unfold recent_blocks.
  destruct (rs_blocks n) as [|b l _] using rev_ind; [done|]. by rewrite last_snoc, reverse_snoc.
Qed.

(** ** Transfers *)

Section transfers.
Context `{!Blake3, !Hex, !HexLaws, !Ed25519, !Ed25519Laws, !AesGcm, !Scrypt, !SerdeJson Wallet,
  !Serialize Transaction, !Serialize BlockHeader,
  !Serialize (list Hash), !Serialize (Hash * Z * Z * Z), !Serialize StateSnapshot,
  !Serialize LedgerSnapshot, !Deserialize LedgerSnapshot,
  !Serialize LedgerEnvelope, !Deserialize LedgerEnvelope,
  !SerdeJson Value, !JsonRpc, !JsonRpcLaws}.

(** A request that passes every check before the node is asked: the password opens the
    file the lookup returned for the sender, which unless it was replaced meanwhile is
    a wallet whose key controls the sender's address. *)
Record unlocked (c : ExplorerConfig) (dio : DirIo) (load_meta load_read : option string) (dir dir' : Dir)
  (request : TransferRequest) (from to : Address) (amount : Z) (key : array 32) : Prop := {
  ul_from : explorer_parse_address (tr_from request) = Ok from;
  ul_to : explorer_parse_address (tr_to request) = Ok to;
  ul_differ : from ≠ to;
  ul_amount : from_str_radix u128_max 10 (trim (tr_amount request)) = Some amount;
  ul_positive : amount ≠ 0;
  ul_wallet : ∃ path name w w', ec_wallet_dir c = Some path ∧
    find_wallet (ExplorerIo path) (ExplorerIo path) (λ name, ExplorerIo (path_join path name))
      (WalletNotFound from) EXPLORER_WALLET_FILE_BYTES dio dir from = Ok (name, w) ∧
    wallet_load load_meta load_read (tr_password request) (dir_slot dir' name) = Ok (w', key) ∧
    (dir_slot dir' name = dir_slot dir name → w' = w ∧ derive_address key = from)
}.
Lemma unlocked_key c dio load_meta load_read dir request from to amount key :
  unlocked c dio load_meta load_read dir dir request from to amount key → derive_address key = from.
Proof. intros [_ _ _ _ _ (path & name & w & w' & _ & _ & _ & Hk)]. by apply Hk. Qed.
(** Either the request is refused before any call, or it passes every check and
    the rest of the run is the three calls. *)
Lemma transfer_cases {W} (post : Transport W) dio load_meta load_read dir dir' c request w :
  (∃ e, explorer_transfer post dio load_meta load_read dir dir' c request w = (w, Err e)) ∨
  (∃ from to amount key, unlocked c dio load_meta load_read dir dir' request from to amount key ∧
     explorer_transfer post dio load_meta load_read dir dir' c request w
     = (chain_id ← explorer_chain_id post;
        nonce ← explorer_quantity post "eth_getTransactionCount"
                  [VString (address_to_string from); VString "latest"];
        let unsigned := plain_transfer from to amount 1 EXPLORER_GAS_LIMIT chain_id nonce in
        result ← explorer_rpc_call post "eth_sendTransaction"
          [transfer_request (ed_public_key key) (ed_sign key (signing_payload unsigned)) to unsigned];
        hash ← st_lift (ok_or (value_as_str result) (ExplorerRpc "node returned an invalid hash"));
        mret {| ts_hash := hash; ts_from := address_to_string from;
                ts_to := address_to_string to; ts_amount := fmt_dec amount; ts_nonce := nonce |}) w).
Proof.
  unfold explorer_transfer. run_unfold. unfold explorer_wallet_dir.
  destruct (ec_wallet_dir c) as [path|] eqn:Hpath; simpl; [|by left; eexists].
  destruct (explorer_parse_address (tr_from request)) as [from|] eqn:Hfrom; [|by left; eexists].
  destruct (explorer_parse_address (tr_to request)) as [to|] eqn:Hto; [|by left; eexists].
  destruct (bool_decide (from = to)) eqn:Hne; simpl; [by left; eexists|].
  destruct (from_str_radix u128_max 10 (trim (tr_amount request))) as [amount|] eqn:Ham; simpl;
    [|by left; eexists].
  destruct (Z.eqb_spec amount 0) as [|Hpos]; simpl; [by left; eexists|].
  destruct (find_wallet _ _ _ _ _ _ _ _) as [[name wlt]|] eqn:Hfind; [|by left; eexists].
  destruct (wallet_load _ _ _ _) as [[wlt' key]|] eqn:Hload; simpl; [|by left; eexists].
  right. exists from, to, amount, key. split; [|done].
  split; try done; [by eapply bool_decide_eq_false_1|]. exists path, name, wlt, wlt'.
  split_and!; try done. intros Hsame. rewrite Hsame in Hload.
  by apply (found_wallet_key _ _ _ _ _ _ _ _ _ _ _ _ _ _ _ Hfind Hload).
Qed.
Context (io : FsOp → option string) (clock : Z).
(** The transaction a transfer signs. *)
Definition transfer_tx (key : array 32) (to : Address) (amount : Z) (n : RpcState) : Transaction :=
  signed_transfer key to amount 1 EXPLORER_GAS_LIMIT (rs_chain_id n) (rpc_nonce n (derive_address key)).
Lemma transfer_node dio load_meta load_read dir c request from to amount key n :
  node_inv n → is_u64 (rs_chain_id n) →
  unlocked c dio load_meta load_read dir dir request from to amount key →
  let tx := transfer_tx key to amount n in
  replies_fit io clock EXPLORER_RPC_RESPONSE_BYTES n tx →
  explorer_transfer (node_transport io clock) dio load_meta load_read dir dir c request n
  = ((submit_transaction io clock tx n).1,
     match (submit_transaction io clock tx n).2 with
     | Ok h => Ok {| ts_hash := hash_to_string h; ts_from := address_to_string (derive_address key);
                     ts_to := address_to_string to; ts_amount := fmt_dec amount;
                     ts_nonce := rpc_nonce n (derive_address key) |}
     | Err e => Err (ce_failed explorer_errors "eth_sendTransaction" (error_object e).2)
     end).
Proof.
  intros I Hc Hu tx [Hf1 Hf2 Hf3]. pose proof (unlocked_key _ _ _ _ _ _ _ _ _ _ Hu) as <-.
  destruct Hu as [Hfrom Hto Hne Ham Hpos (path & name & w & w' & Hpath & Hfind & Hload & _)].
  assert (is_u128 amount) as Hw by (eapply (from_str_radix_width u128_max 10); [lia|by width|done]).
  unfold explorer_transfer, explorer_wallet_dir. run_unfold. rewrite Hpath. cbn [ok_or]. rewrite Hfrom, Hto.
  rewrite bool_decide_false, Ham by done. cbn [fail_if ok_or].
  rewrite (proj2 (Z.eqb_neq _ _)) by done. cbn [fail_if]. rewrite Hfind, Hload. cbn [map_err].
  unfold explorer_chain_id, explorer_quantity, explorer_rpc_call. run_unfold.
  rewrite chain_id_node by done. rewrite parse_quantity_print by done. cbn [ok_or].
  rewrite nonce_node by done. pose proof (nonce_width n (derive_address key) I) as Hn.
  rewrite parse_quantity_print by done. cbn [ok_or]. unfold tx, transfer_tx in *.
  revert Hn Hf3. generalize (rpc_nonce n (derive_address key)). intros nc Hn Hf3.
  unfold derive_address in *.
  rewrite (send_transfer_node io clock explorer_errors EXPLORER_RPC_RESPONSE_BYTES); try done;
    try (unfold EXPLORER_GAS_LIMIT; width).
  by destruct (submit_transaction io clock _ n) as [n' [h|e]].
Qed.
End transfers.

(** C29. No password, no signature: whatever the node and the file system do, a
    transfer request that reaches the node or succeeds names two different
    well-formed addresses and a positive amount, and its password opened the file
    the directory lookup returned for the sender. That file is a wallet whose key
    controls the sender's address, provided it was not replaced between the listing
    and the opening, two separate reads of the directory. Every other request is
    refused before the first call. *)
Theorem transfer_requires_wallet `{!Blake3, !Hex, !HexLaws, !Ed25519, !AesGcm, !Scrypt,
    !SerdeJson Wallet, !Serialize Transaction, !SerdeJson Value} {W : Type} (post : Transport W)
    (dio : DirIo) (load_meta load_read : option string) (dir dir' : Dir) (c : ExplorerConfig)
    (request : TransferRequest) (w w' : W) (calls : nat) (r : result ExplorerError TransferResponse) :
  explorer_transfer (counted post) dio load_meta load_read dir dir' c request (w, 0%nat)
    = ((w', calls), r) →
  (0 < calls)%nat ∨ is_ok r = true →
  ∃ from to amount key, unlocked c dio load_meta load_read dir dir' request from to amount key.
Proof.
  intros Hrun Hdone.
  destruct (transfer_cases (counted post) dio load_meta load_read dir dir' c request (w, 0%nat))
    as [[e He]|(from & to & amount & key & Hu & _)]; [|by exists from, to, amount, key].
  rewrite He in Hrun. simplify_eq. destruct Hdone; [lia|done].
Qed.

(** A transfer through the explorer does what it says: once the wallet is
    unlocked it succeeds exactly when the node commits the transfer signed with
    the wallet's key; then the response names that transaction, the ledger gained
    one block holding it and the recipient was credited. Otherwise the node's
    ledger is as before. *)
Theorem explorer_transfer_commits `{!Blake3, !Hex, !HexLaws, !Ed25519, !Ed25519Laws, !AesGcm, !Scrypt,
    !SerdeJson Wallet, !Serialize Transaction, !Serialize BlockHeader, !Serialize (list Hash),
    !Serialize (Hash * Z * Z * Z), !Serialize StateSnapshot, !Serialize LedgerSnapshot,
    !Deserialize LedgerSnapshot, !Serialize LedgerEnvelope, !Deserialize LedgerEnvelope,
    !SerdeJson Value, !JsonRpc, !JsonRpcLaws}
    (io : FsOp → option string) (clock : Z) (dio : DirIo) (load_meta load_read : option string)
    (dir : Dir) (c : ExplorerConfig) (request : TransferRequest) (from to : Address) (amount : Z)
    (key : array 32) (n n' : RpcState) (r : result ExplorerError TransferResponse) :
  node_inv n → is_u64 (rs_chain_id n) →
  unlocked c dio load_meta load_read dir dir request from to amount key →
  let tx := transfer_tx key to amount n in
  pool_no_collision n tx → replies_fit io clock EXPLORER_RPC_RESPONSE_BYTES n tx →
  explorer_transfer (node_transport io clock) dio load_meta load_read dir dir c request n = (n', r) →
  is_ok r = is_ok (submit_transaction io clock tx n).2 ∧
  match r with
  | Ok resp => ts_hash resp = hash_to_string (tx_hash tx) ∧ ts_nonce resp = tx_nonce tx ∧
      tx_from tx = from ∧ tx_value tx = amount ∧ transferred n n' tx to
  | Err _ => (∃ d', n' = set_disk d' n) ∧ (io SyncDir = None → n' = n)
  end.
Proof.
  intros I Hc Hu tx Hcol Hfit Hrun.
  rewrite (transfer_node io clock dio load_meta load_read dir c request from to amount key n) in Hrun by done.
  fold tx in Hrun. assert (tx_wf tx) as Htx.
  { apply signed_transfer_wf; try done; [by apply nonce_width|].
    eapply (from_str_radix_width u128_max 10); [lia|by width|apply (ul_amount _ _ _ _ _ _ _ _ _ _ _ Hu)]. }
  destruct (submit_transaction io clock tx n) as [n1 [h|e]] eqn:Hsub; cbn [fst snd] in Hrun;
    simplify_eq; (split; [done|]); apply (submit_outcome io clock tx to) in Hsub; try done.
  - destruct Hsub as [-> Ht]. split_and!; try done. apply (unlocked_key _ _ _ _ _ _ _ _ _ _ Hu).
  - destruct Hsub as (d' & -> & Hd). by split; [eexists|].
Qed.

(** *** Concrete runs *)
Import Ref RefServer RefWallet.

Definition explorer1 : ExplorerConfig :=
  {| ec_listen_addr := ec_listen_addr explorer_config_default; ec_rpc_url := "http://127.0.0.1:8545";
     ec_chain_name := "SubHost"; ec_wallet_dir := Some "/home/alice/wallets" |}.
Lemma node2_shown :
  rs_chain_id node2 <=? u64_max = true ∧ 0 <=? rs_chain_id node2 = true ∧
  block_count node2 <=? u64_max = true ∧ bool_decide (Forall block_wf (rs_blocks node2)) = true ∧
  forallb (λ b, bool_decide (reply_fits EXPLORER_RPC_RESPONSE_BYTES (Ok (block_json b true))))
    (recent_blocks node2) = true ∧
  bool_decide (reply_fits EXPLORER_RPC_RESPONSE_BYTES (eth_blockNumber node2)) = true ∧
  bool_decide (reply_fits EXPLORER_RPC_RESPONSE_BYTES (eth_chainId node2)) = true ∧
  length (recent_blocks node2) = 1%nat.
Proof. by vm_compute. Qed.
Lemma node2_snapshot_fits : snapshot_fits node2.
Proof.
  destruct node2_shown as (_ & _ & _ & _ & Hb & Hh & Hc & _). split.
  - by apply bool_decide_eq_true in Hh.
  - intros b Hin%list_elem_of_In. eapply bool_decide_eq_true_1. by apply (proj1 (forallb_forall _ _) Hb b).
  - by apply bool_decide_eq_true in Hc.
Qed.
Lemma snapshot_faithful_witness :
  ∃ s b, explorer_snapshot (node_transport no_error 9) explorer1 "now" node2 = (node2, Ok s) ∧
    sn_blocks s = [shown_block b].
Proof.
  destruct node2_shown as (H1 & H2 & H3 & H4 & _ & _ & _ & H5).
  pose proof (snapshot_faithful no_error 9 explorer1 "now" node2 node2_inv
    (conj (proj1 (Z.leb_le _ _) H2) (proj1 (Z.leb_le _ _) H1)) (proj1 (Z.leb_le _ _) H3)
    (proj1 (bool_decide_eq_true _) H4) node2_snapshot_fits) as Hrun.
  destruct (recent_blocks node2) as [|b [|? ?]]; [discriminate H5| |discriminate H5].
  eexists _, b. split; [exact Hrun|]. reflexivity.
Defined.

Definition request1 : TransferRequest :=
  {| tr_from := address_to_string account1; tr_to := address_to_string (addr 1); tr_amount := " 5";
     tr_password := "faucet password" |}.
Lemma request1_unlocked :
  unlocked explorer1 (dir_io ["notes.txt"; "alice.json"]) None None dir1 dir1 request1 account1 (addr 1) 5
    secret1.
Proof.
  split.
  - apply parse_recipient_print.
  - apply parse_recipient_print.
  - apply (bool_decide_unpack _). vm_compute. exact I.
  - reflexivity.
  - lia.
  - destruct (dir1_found (ExplorerIo "/home/alice/wallets") (ExplorerIo "/home/alice/wallets")
      (λ name, ExplorerIo (path_join "/home/alice/wallets" name)) (WalletNotFound account1))
      as (w & Hfind & Hload).
    exists "/home/alice/wallets", "alice.json", w, w. split_and!; [reflexivity|exact Hfind|exact Hload|].
    intros _. split; reflexivity.
Qed.
Lemma request1_replies :
  replies_fit no_error 7 EXPLORER_RPC_RESPONSE_BYTES funded (transfer_tx secret1 (addr 1) 5 funded).
Proof. split; eapply bool_decide_eq_true_1; vm_compute; reflexivity. Qed.
Lemma request1_commits :
  is_ok (submit_transaction no_error 7 (transfer_tx secret1 (addr 1) 5 funded) funded).2 = true.
Proof. by vm_compute. Qed.
Lemma funded_chain : is_u64 (rs_chain_id funded).
Proof. apply (bool_decide_unpack _). vm_compute. exact I. Qed.
Lemma explorer_transfer_commits_witness :
  ∃ n' resp, explorer_transfer (node_transport no_error 7) (dir_io ["notes.txt"; "alice.json"]) None None
      dir1 dir1 explorer1 request1 funded = (n', Ok resp) ∧
    transferred funded n' (transfer_tx secret1 (addr 1) 5 funded) (addr 1).
Proof.
  destruct (explorer_transfer (node_transport no_error 7) (dir_io ["notes.txt"; "alice.json"]) None None
      dir1 dir1 explorer1 request1 funded) as [n' r] eqn:Hrun.
  pose proof (explorer_transfer_commits no_error 7 (dir_io ["notes.txt"; "alice.json"]) None None dir1
    explorer1 request1 account1 (addr 1) 5 secret1 funded n' r funded_inv funded_chain request1_unlocked
    (funded_no_collision _) request1_replies Hrun) as [Hok Hres].
  rewrite request1_commits in Hok. destruct r as [resp|e]; [|discriminate Hok].
  destruct Hres as (_ & _ & _ & _ & Ht). exists n', resp. exact (conj eq_refl Ht).
Defined.

(** A node that is down: the request is only sent once the wallet is open. *)
Definition down : Transport unit := λ _ _ w, (w, Err "connection refused").
Lemma down_run :
  explorer_transfer (counted down) (dir_io ["notes.txt"; "alice.json"]) None None dir1 dir1 explorer1 request1
    (tt, 0%nat) = ((tt, 1%nat), Err (ExplorerRpc "eth_chainId request failed: connection refused")).
Proof. vm_compute. reflexivity. Qed.
Lemma transfer_requires_wallet_witness :
  ∃ from to amount key, unlocked explorer1 (dir_io ["notes.txt"; "alice.json"]) None None dir1 dir1
    request1 from to amount key.
Proof.
  apply (transfer_requires_wallet down (dir_io ["notes.txt"; "alice.json"]) None None dir1 dir1 explorer1
    request1 tt tt 1 _ down_run). left. lia.
Defined.
