(* ===== verification/Signer.v ===== *)
(** * Services that sign with a local key

    The faucet ([submit_lock]) and the explorer ([transfer_lock]) hold a lock from
    the nonce read to the submission, so that two of their requests do not sign for
    the same account state, while other clients use the same node. A transfer is the
    sequence of its instructions: taking the service's lock, then three exchanges with
    the node; between any two, the other clients may commit whatever they can sign. *)

From Stdlib Require Import String.
From S2P Require Import Prelude Order Interleave Text Deps Bincode Core WorldState Mempool Storage Rpc RpcApi Wallet Client Faucet WalletDir Explorer.

(** Both services ask for the same gas. *)
Definition SIGNER_GAS_LIMIT : Z := 21000.

Section transfer.
Context `{!Blake3, !Hex, !Ed25519, !Serialize Transaction, !SerdeJson Value}.
Context {E W : Type} (errs : ClientErrors E) (limit : Z) (bad_chain_id bad_nonce bad_hash : E).
Context (post : Transport W).

(** What both do: the lock, the chain ID, the nonce, the signed transfer. *)
Definition transfer_accesses (key : array 32) (from to : Address) (amount : Z) : Proc W E (Z * string) :=
  _ ← lock;
  value ← access (rpc_exchange errs limit post "eth_chainId" []);
  chain_id ← Done (ok_or (parse_quantity value) bad_chain_id);
  value ← access (rpc_exchange errs limit post "eth_getTransactionCount"
                    [VString (address_to_string from); VString "latest"]);
  nonce ← Done (ok_or (parse_quantity value) bad_nonce);
  let unsigned := plain_transfer from to amount 1 SIGNER_GAS_LIMIT chain_id nonce in
  result ← access (rpc_exchange errs limit post "eth_sendTransaction"
                     [transfer_request (ed_public_key key) (ed_sign key (signing_payload unsigned))
                        to unsigned]);
  hash ← Done (ok_or (value_as_str result) bad_hash);
  mret (nonce, hash).
End transfer.

Definition faucet_accesses `{!Blake3, !Hex, !Ed25519, !Serialize Transaction, !SerdeJson Value}
    {W : Type} (post : Transport W) (f : FaucetState) (recipient : Address)
  : Proc W FaucetError (Z * string) :=
  transfer_accesses faucet_errors MAX_RPC_RESPONSE_BYTES (FaucetRpc "invalid chain ID")
    (FaucetRpc "invalid nonce") (FaucetRpc "node did not return a transaction hash") post
    (sg_signing_key (ft_signer f)) (sg_address (ft_signer f)) recipient (fc_drip_amount (ft_config f)).
Definition explorer_accesses `{!Blake3, !Hex, !Ed25519, !Serialize Transaction, !SerdeJson Value}
    {W : Type} (post : Transport W)
  : array 32 → Address → Address → Z → Proc W ExplorerError (Z * string) :=
  transfer_accesses explorer_errors EXPLORER_RPC_RESPONSE_BYTES
    (ExplorerRpc "eth_chainId returned invalid data")
    (ExplorerRpc "eth_getTransactionCount returned invalid data")
    (ExplorerRpc "node returned an invalid hash") post.

(** ** The exchanges add up to the sequential calls *)

Section sequential.
Context `{!Blake3, !Hex, !Ed25519, !Serialize Transaction, !SerdeJson Value}.
Context {W : Type} (post : Transport W).

Lemma faucet_accesses_run f recipient w :
  submit_transfer post f recipient w
  = ('(_, hash) ← run (faucet_accesses post f recipient); mret hash : ST W FaucetError string) w.
Proof.
  unfold submit_transfer, faucet_chain_id, faucet_nonce, rpc_call.
  unfold faucet_accesses, transfer_accesses. cbv [mbind proc_bind st_bind mret st_ret st_lift]. simpl.
  destruct (rpc_exchange _ _ _ "eth_chainId" _ w) as [w1 [v1|e]]; [|done]. simpl.
  destruct (ok_or (parse_quantity v1) _) as [c|e]; [|done]. simpl.
  destruct (rpc_exchange _ _ _ "eth_getTransactionCount" _ w1) as [w2 [v2|e]]; [|done]. simpl.
  destruct (ok_or (parse_quantity v2) _) as [k|e]; [|done]. simpl.
  unfold drip_request, signer_sign, signer_public_key. rewrite to_from_ed25519.
  change (drip_transaction f recipient c k) with (plain_transfer (sg_address (ft_signer f)) recipient
    (fc_drip_amount (ft_config f)) 1 SIGNER_GAS_LIMIT c k).
  destruct (rpc_exchange _ _ _ "eth_sendTransaction" _ w2) as [w3 [v3|e]]; [|done]. simpl.
  by destruct (ok_or (value_as_str v3) _).
Qed.
(** A request of the explorer is refused before the lock, or unlocks a wallet and is
    these exchanges. *)
Lemma explorer_accesses_run `{!HexLaws, !AesGcm, !Scrypt, !SerdeJson Wallet} dio load_meta load_read
    dir dir' c request w :
  (∃ e, explorer_transfer post dio load_meta load_read dir dir' c request w = (w, Err e)) ∨
  (∃ from to amount key, unlocked c dio load_meta load_read dir dir' request from to amount key ∧
     explorer_transfer post dio load_meta load_read dir dir' c request w
     = ('(nonce, hash) ← run (explorer_accesses post key from to amount);
        mret {| ts_hash := hash; ts_from := address_to_string from;
                ts_to := address_to_string to; ts_amount := fmt_dec amount; ts_nonce := nonce |}
        : ST W ExplorerError TransferResponse) w).
Proof.
  destruct (transfer_cases post dio load_meta load_read dir dir' c request w)
    as [He|(from & to & amount & key & Hu & ->)]; [by left|]. right. exists from, to, amount, key.
  split; [done|]. unfold explorer_chain_id, explorer_quantity, explorer_rpc_call.
  unfold explorer_accesses, transfer_accesses. cbv [mbind proc_bind st_bind mret st_ret st_lift]. simpl.
  destruct (rpc_exchange _ _ _ "eth_chainId" _ w) as [w1 [v1|e]]; [|done]. simpl.
  destruct (ok_or (parse_quantity v1) _) as [id|e]; [|done]. simpl.
  destruct (rpc_exchange _ _ _ "eth_getTransactionCount" _ w1) as [w2 [v2|e]]; [|done]. simpl.
  destruct (ok_or (parse_quantity v2) _) as [k|e]; [|done]. simpl.
  destruct (rpc_exchange _ _ _ "eth_sendTransaction" _ w2) as [w3 [v3|e]]; [|done]. simpl.
  by destruct (ok_or (value_as_str v3) _).
Qed.
End sequential.

(** ** Transfers among other clients *)

Section service.
Context `{!Blake3, !Hex, !HexLaws, !Ed25519, !Ed25519Laws, !Serialize Transaction,
  !Serialize BlockHeader, !Serialize (list Hash), !Serialize (Hash * Z * Z * Z),
  !Serialize StateSnapshot, !Serialize LedgerSnapshot, !Deserialize LedgerSnapshot,
  !Serialize LedgerEnvelope, !Deserialize LedgerEnvelope,
  !BincodeLaws LedgerSnapshot ledger_wf, !BincodeLaws LedgerEnvelope envelope_wf,
  !SerdeJson Value, !JsonRpc, !JsonRpcLaws}.
Context {E : Type} (errs : ClientErrors E) (limit : Z) (bad_chain_id bad_nonce bad_hash : E).
(** The accounts whose keys the service alone holds. *)
Context (local : gset Address).

Record SignedCall := {
  sc_io : FsOp → option string;
  sc_clock : Z;
  sc_key : array 32;
  sc_to : Address;
  sc_amount : Z
}.
Definition sc_from (c : SignedCall) : Address := from_public_key (array_bytes (ed_public_key (sc_key c))).
Definition sc_tx (c : SignedCall) (chain_id nonce : Z) : Transaction :=
  signed_transfer (sc_key c) (sc_to c) (sc_amount c) 1 SIGNER_GAS_LIMIT chain_id nonce.
Definition sc_body (c : SignedCall) : Proc RpcState E (Z * string) :=
  transfer_accesses errs limit bad_chain_id bad_nonce bad_hash (node_transport (sc_io c) (sc_clock c))
    (sc_key c) (sc_from c) (sc_to c) (sc_amount c).
(** What the node [n] answers a request that signs for its account's current nonce. *)
Definition sc_answer (c : SignedCall) (n : RpcState) : result E (Z * string) :=
  let nonce := rpc_nonce n (sc_from c) in
  match (submit_transaction (sc_io c) (sc_clock c) (sc_tx c (rs_chain_id n) nonce) n).2 with
  | Ok h => Ok (nonce, hash_to_string h)
  | Err e => Err (ce_failed errs "eth_sendTransaction" (error_object e).2)
  end.
Lemma sc_locks c : locks_first (sc_body c).
Proof.
  apply (locks_first_bind lock); [done|]. intros _. repeat (apply lock_free_bind; [done|intros ?]). done.
Qed.
(** Nobody else can sign for a local account: the others take any step of the node
    that leaves the local nonces alone. *)
Definition others (n n' : RpcState) : Prop :=
  node_step n n' ∧ rs_chain_id n' = rs_chain_id n ∧
  ∀ a, a ∈ local → rpc_nonce n' a = rpc_nonce n a.
(** What an exchange of call [c] with node [n] relies on. *)
Record exchange_fine (c : SignedCall) (n : RpcState) : Prop := {
  ef_local : sc_from c ∈ local;
  ef_amount : is_u128 (sc_amount c);
  ef_pool : pool_no_collision n (sc_tx c (rs_chain_id n) (rpc_nonce n (sc_from c)));
  ef_commit : good_commit n (sc_tx c (rs_chain_id n) (rpc_nonce n (sc_from c))) (sc_clock c);
  ef_replies : replies_fit (sc_io c) (sc_clock c) limit n
                 (sc_tx c (rs_chain_id n) (rpc_nonce n (sc_from c)))
}.

#[local] Notation Returned := (list (nat * SignedCall * result E (Z * string))).
(** The transfers from [a] that have succeeded. *)
Definition sent (a : Address) (l : Returned) : Returned :=
  filter (λ e, is_ok e.2 = true ∧ sc_from e.1.2 = a) l.
(** The nonce of [a] after the transfers of [l]. *)
Definition nonce_after (n0 : RpcState) (a : Address) (l : Returned) : Z :=
  rpc_nonce n0 a + Z.of_nat (length (sent a l)).
Lemma sent_snoc a l i c r :
  sent a (l ++ [(i, c, r)])
  = sent a l ++ (if decide (is_ok r = true ∧ sc_from c = a) then [(i, c, r)] else []).
Proof. unfold sent. rewrite filter_app, filter_cons, filter_nil. simpl. repeat case_decide; naive_solver. Qed.
Record accounted (n0 : RpcState) (l : Returned) (n : RpcState) : Prop := {
  ac_inv : node_inv n;
  ac_chain : rs_chain_id n = rs_chain_id n0;
  ac_nonce a : a ∈ local → rpc_nonce n a = nonce_after n0 a l;
  ac_served j i c r : l !! j = Some (i, c, r) → ∃ m,
    node_inv m ∧ rs_chain_id m = rs_chain_id n0 ∧
    rpc_nonce m (sc_from c) = nonce_after n0 (sc_from c) (take j l) ∧ r = sc_answer c m ∧
    ∀ nonce hash, r = Ok (nonce, hash) → hash = hash_to_string (tx_hash (sc_tx c (rs_chain_id n0) nonce))
}.
Lemma accounted_others n0 l n n' : accounted n0 l n → others n n' → accounted n0 l n'.
Proof.
  intros [I Hc Hn Hl] (Hstep & Hc' & Hn'). split; [by eapply node_step_inv|congruence| |done].
  intros a Ha. rewrite Hn' by done. by apply Hn.
Qed.
Lemma accounted_rtc n0 l n n' : rtc others n n' → accounted n0 l n → accounted n0 l n'.
Proof. induction 1; [done|]. eauto using accounted_others. Qed.
Lemma accounted_snoc n0 l n n' i c r :
  accounted n0 l n → node_inv n' → rs_chain_id n' = rs_chain_id n → sc_from c ∈ local →
  r = sc_answer c n →
  (∀ a, rpc_nonce n' a = rpc_nonce n a + (if decide (is_ok r = true ∧ sc_from c = a) then 1 else 0)) →
  (∀ nonce hash, r = Ok (nonce, hash) → hash = hash_to_string (tx_hash (sc_tx c (rs_chain_id n0) nonce))) →
  accounted n0 (l ++ [(i, c, r)]) n'.
Proof.
  intros [I Hc Hn Hl] I' Hc' Hloc Hr Hbump Hhash. split; [done|congruence| |].
  - intros a Ha. rewrite Hbump, Hn by done. unfold nonce_after. rewrite sent_snoc, length_app.
    repeat case_decide; simpl; try lia; naive_solver.
  - intros j i' c' r' Hj. apply lookup_app_Some in Hj as [Hj|[Hle Hj]].
    + rewrite take_app_le by (apply lookup_lt_Some in Hj; lia). by eapply Hl.
    + apply list_lookup_singleton_Some in Hj as [Hj Heq]. simplify_eq.
      replace j with (length l) by lia. rewrite take_app_length. exists n. split_and!; try done. by apply Hn.
Qed.

(** The submission of the transfer signed for the current nonce. *)
Lemma send_accounted n0 l n i c :
  is_u64 (rs_chain_id n0) → accounted n0 l n → exchange_fine c n →
  accounted n0 (l ++ [(i, c, sc_answer c n)])
    (submit_transaction (sc_io c) (sc_clock c) (sc_tx c (rs_chain_id n) (rpc_nonce n (sc_from c))) n).1.
Proof.
  intros H64 A [Hloc Ham Hpool Hgood _]. pose proof (ac_inv _ _ _ A) as I.
  pose proof (nonce_width n (sc_from c) I) as Hnw.
  set (tx := sc_tx c (rs_chain_id n) (rpc_nonce n (sc_from c))) in *.
  assert (tx_wf tx) as Htx.
  { apply signed_transfer_wf; try done; [rewrite (ac_chain _ _ _ A)|..]; try done;
      unfold SIGNER_GAS_LIMIT; width. }
  destruct (submit_transaction (sc_io c) (sc_clock c) tx n) as [n' r] eqn:Hsub. simpl.
  pose proof (submit_inv serving _ _ _ _ _ _ I Htx ltac:(done) Hpool Hgood Hsub) as I'.
  assert (sc_answer c n = match r with
    | Ok h => Ok (rpc_nonce n (sc_from c), hash_to_string h)
    | Err e => Err (ce_failed errs "eth_sendTransaction" (error_object e).2)
    end) as Hans by (unfold sc_answer; fold tx; by rewrite Hsub).
  assert (rs_chain_id n' = rs_chain_id n) as Hc'.
  { apply submit_run in Hsub; [|apply I|apply I|done].
    destruct r; [by destruct Hsub as (_ & ? & ? & ? & ? & ? & _ & _ & _ & ->)|by destruct Hsub as (? & -> & _)]. }
  apply (submit_outcome _ _ tx (sc_to c)) in Hsub; [|done..].
  eapply accounted_snoc; try done; rewrite Hans; destruct r as [h|e]; try done.
  - destruct Hsub as [_ [Hex _ _]]. intros a. unfold rpc_nonce. rewrite (exd_nonce _ _ _ _ Hex).
    change (tx_from tx) with (sc_from c). repeat case_decide; naive_solver lia.
  - destruct Hsub as (d' & -> & _). intros a. rewrite decide_False by naive_solver.
    change (rpc_nonce (set_disk d' n) a) with (rpc_nonce n a). lia.
  - destruct Hsub as [-> _]. intros nonce hash [= <- <-]. by rewrite <-(ac_chain _ _ _ A).
Qed.
Ltac next_access := cbn [proc_then access tolerates fst snd ok_or].
Hypothesis limit_ok : 0 ≤ limit < u64_max.
Hypothesis accepts_ok : ce_accepts errs 200 = true.
Lemma sc_tolerates n0 l n i c :
  is_u64 (rs_chain_id n0) → accounted n0 l n →
  tolerates others (exchange_fine c) (λ r, accounted n0 (l ++ [(i, c, r)])) (sc_body c) n.
Proof.
  intros H64 A0. unfold sc_body, transfer_accesses. cbv [mbind proc_bind lock]. next_access.
  intros n0' Hn0. pose proof (accounted_rtc _ _ _ _ Hn0 A0) as A. next_access.
  intros n1 Hn1 F1. pose proof (accounted_rtc _ _ _ _ Hn1 A) as A1.
  rewrite (chain_id_node _ _ errs limit limit_ok accepts_ok n1) by apply F1. next_access.
  rewrite parse_quantity_print by (by rewrite (ac_chain _ _ _ A1)). next_access.
  intros n2 Hn2 F2. pose proof (accounted_rtc _ _ _ _ Hn2 A1) as A2.
  pose proof (nonce_width n2 (sc_from c) (ac_inv _ _ _ A2)) as Hw2.
  fold (sc_from c). rewrite (nonce_node _ _ errs limit limit_ok accepts_ok n2) by apply F2. next_access.
  rewrite parse_quantity_print by done. next_access.
  intros n3 Hn3 F3. pose proof (accounted_rtc _ _ _ _ Hn3 A2) as A3.
  assert (rs_chain_id n1 = rs_chain_id n3) as Hc
    by (by rewrite (ac_chain _ _ _ A1), (ac_chain _ _ _ A3)).
  assert (rpc_nonce n2 (sc_from c) = rpc_nonce n3 (sc_from c)) as Hk
    by (rewrite (ac_nonce _ _ _ A2), (ac_nonce _ _ _ A3); [done|apply F3..]).
  rewrite Hc, Hk in *. pose proof (send_accounted n0 l n3 i c H64 A3 F3) as Hsend.
  unfold sc_answer in Hsend.
  unfold sc_from. rewrite (send_transfer_node _ _ errs limit limit_ok accepts_ok);
    first [apply F3|by rewrite (ac_chain _ _ _ A3)|done|unfold SIGNER_GAS_LIMIT; width|idtac].
  fold (sc_from c). change (signed_transfer (sc_key c) (sc_to c) (sc_amount c) 1 SIGNER_GAS_LIMIT
    (rs_chain_id n3) (rpc_nonce n3 (sc_from c))) with (sc_tx c (rs_chain_id n3) (rpc_nonce n3 (sc_from c))).
  destruct (submit_transaction _ _ _ n3) as [n4 [h|e]]; simpl in *;
    intros n5 Hn5; by eapply accounted_rtc.
Qed.
(** A request nobody disturbs finds the same node at each of its exchanges. *)
Lemma sc_chain c n :
  node_inv n → is_u64 (rs_chain_id n) → exchange_fine c n →
  chain (λ m _, exchange_fine c m) (sc_body c) n.
Proof.
  intros I H64 F. unfold sc_body, transfer_accesses. cbv [mbind proc_bind lock].
  cbn [proc_then access chain]. split; [done|].
  rewrite (chain_id_node _ _ errs limit limit_ok accepts_ok n) by apply F. cbn [fst snd ok_or].
  rewrite parse_quantity_print by done. cbn [proc_then access chain ok_or]. split; [done|].
  fold (sc_from c). rewrite (nonce_node _ _ errs limit limit_ok accepts_ok n) by apply F. cbn [fst snd].
  rewrite parse_quantity_print by (by apply nonce_width). cbn [proc_then access chain ok_or].
  split; [done|]. destruct (rpc_exchange _ _ _ "eth_sendTransaction" _ n) as [n' [v|e]]; simpl; [|done].
  by destruct (value_as_str v).
Qed.
End service.

(** ** Properties *)

(** C15. The requests of a signing service do not spoil each other's nonce. Let the
    faucet, or the explorer, run any number of requests, each taking the service's
    lock as its first instruction, while other clients commit anything that leaves the
    nonces of the service's own accounts alone (the service alone holds their keys),
    over a network that delivers every reply. Then every request, failed ones included,
    got exactly the answer a node gives to the transfer signed for that node's current
    nonce of the account, which is the initial nonce plus the number of earlier
    successes for the account: no request was signed for a nonce another one used, so
    the nonces of the successful ones are distinct and consecutive; the hash returned
    is that of the transfer signed for this nonce; and whenever the lock is free the
    account's nonce counts the successes. *)
Theorem signed_nonces_fresh `{!Blake3, !Hex, !HexLaws, !Ed25519, !Ed25519Laws,
    !Serialize Transaction, !Serialize BlockHeader, !Serialize (list Hash),
    !Serialize (Hash * Z * Z * Z), !Serialize StateSnapshot, !Serialize LedgerSnapshot,
    !Deserialize LedgerSnapshot, !Serialize LedgerEnvelope, !Deserialize LedgerEnvelope,
    !BincodeLaws LedgerSnapshot ledger_wf, !BincodeLaws LedgerEnvelope envelope_wf,
    !SerdeJson Value, !JsonRpc, !JsonRpcLaws}
    {E : Type} (errs : ClientErrors E) (limit : Z) (bad_chain_id bad_nonce bad_hash : E)
    (local : gset Address) (n0 : RpcState) (y : System RpcState E SignedCall (Z * string)) :
  0 ≤ limit < u64_max → ce_accepts errs 200 = true → node_inv n0 → is_u64 (rs_chain_id n0) →
  rtc (open_step (sc_body errs limit bad_chain_id bad_nonce bad_hash) (others local)
         (exchange_fine limit local)) (sys_start n0) y →
  (∀ j i c r, sys_returned y !! j = Some (i, c, r) → ∃ n,
     node_inv n ∧ rs_chain_id n = rs_chain_id n0 ∧
     rpc_nonce n (sc_from c) = nonce_after n0 (sc_from c) (take j (sys_returned y)) ∧
     r = sc_answer errs c n ∧
     ∀ nonce hash, r = Ok (nonce, hash) →
       hash = hash_to_string (tx_hash (sc_tx c (rs_chain_id n0) nonce))) ∧
  (sys_holder y = None → ∀ a, a ∈ local → rpc_nonce (sys_state y) a = nonce_after n0 a (sys_returned y)).
Proof.
  intros Hlim Hacc I H64 Hy.
  apply (open_invariant _ _ _ (sc_locks _ _ _ _ _) (accounted errs local n0)) in Hy as (_ & Hinv & s & Hs).
  - split; [by eapply ac_served|]. intros Hfree a Ha. unfold lock_inv in Hinv. rewrite Hfree in Hinv.
    by apply (ac_nonce _ _ _ _ _ Hinv).
  - split; [done|done| |done]. intros a _. unfold nonce_after. simpl. lia.
  - apply accounted_others.
  - intros l n i c A. by apply sc_tolerates.
Qed.

(** *** A concrete request, with the faucet's key on the funded node *)
Import Ref RefServer RefWallet.

Definition call1 : SignedCall :=
  {| sc_io := no_error; sc_clock := 7; sc_key := secret1; sc_to := addr 1; sc_amount := 5 |}.
Definition call1_tx : Transaction := sc_tx call1 (rs_chain_id funded) (rpc_nonce funded (sc_from call1)).
Lemma call1_exec post f ht :
  apply_transaction call1_tx (rs_state funded) = (post, Ok f) → next_height funded = Some ht →
  post = (apply_transaction call1_tx (rs_state funded)).1 ∧ ht = 1.
Proof.
  intros Hexec Hht. rewrite Hexec. split; [reflexivity|].
  assert (next_height funded = Some 1) as H1 by (vm_compute; reflexivity). congruence.
Qed.
Lemma call1_good_commit : good_commit funded call1_tx 7.
Proof.
  intros post f ht Hexec Hht. destruct (call1_exec post f ht Hexec Hht) as [-> ->]. clear Hexec Hht.
  split; [|apply representable_compute; vm_compute; reflexivity].
  assert (rs_blocks funded = []) as -> by (vm_compute; reflexivity). apply no_collision_nil.
Qed.
Lemma call1_replies : replies_fit no_error 7 MAX_RPC_RESPONSE_BYTES funded call1_tx.
Proof. split; eapply bool_decide_eq_true_1; vm_compute; reflexivity. Qed.
Lemma call1_fine : exchange_fine MAX_RPC_RESPONSE_BYTES {[sc_from call1]} call1 funded.
Proof.
  split; [by apply elem_of_singleton|apply (bool_decide_unpack _); vm_compute; reflexivity
    |apply funded_no_collision|apply call1_good_commit|apply call1_replies].
Qed.
Lemma call1_chain_id : is_u64 (rs_chain_id funded).
Proof. apply (bool_decide_unpack _). vm_compute. reflexivity. Qed.
Definition call1_body : SignedCall → Proc RpcState FaucetError (Z * string) :=
  sc_body faucet_errors MAX_RPC_RESPONSE_BYTES (FaucetRpc "invalid chain ID")
    (FaucetRpc "invalid nonce") (FaucetRpc "node did not return a transaction hash").
Lemma limit1 : 0 ≤ MAX_RPC_RESPONSE_BYTES < u64_max.
Proof. vm_compute. split; [intros [=]|reflexivity]. Qed.
Lemma call1_chain :
  chain (λ m _, exchange_fine MAX_RPC_RESPONSE_BYTES {[sc_from call1]} call1 m) (call1_body call1) funded.
Proof. exact (sc_chain faucet_errors _ _ _ _ _ limit1 eq_refl call1 funded funded_inv call1_chain_id call1_fine). Qed.
Lemma call1_served :
  ∃ hash, (run (call1_body call1) funded).2 = Ok (0, hash).
Proof. eexists. vm_compute. reflexivity. Qed.
Lemma signed_nonces_fresh_witness :
  ∃ hash, (run (call1_body call1) funded).2 = Ok (0, hash) ∧
    hash = hash_to_string (tx_hash (sc_tx call1 (rs_chain_id funded) 0)).
Proof.
  destruct call1_served as [hash Hserved]. exists hash. split; [exact Hserved|].
  pose proof (open_alone call1_body (others {[sc_from call1]})
    (exchange_fine MAX_RPC_RESPONSE_BYTES {[sc_from call1]}) (sc_locks _ _ _ _ _) 0%nat call1 funded
    call1_chain) as Hreach.
  rewrite Hserved in Hreach.
  pose proof (signed_nonces_fresh faucet_errors MAX_RPC_RESPONSE_BYTES (FaucetRpc "invalid chain ID")
    (FaucetRpc "invalid nonce") (FaucetRpc "node did not return a transaction hash")
    {[sc_from call1]} funded _ limit1 eq_refl funded_inv call1_chain_id Hreach) as [Hnum _].
  destruct (Hnum 0%nat 0%nat call1 (Ok (0, hash)) eq_refl) as (_ & _ & _ & _ & _ & Hhash).
  exact (Hhash 0 hash eq_refl).
Defined.
