(* ===== verification/Cli.v ===== *)
(** * The command line

    [crates/subhost-cli/src/main.rs]: writing a genesis file, running a node,
    managing the wallet directory, sending transfers and querying a node. A
    command returns the lines it prints. The argument parser (clap) is not modelled:
    a command is a value of the types below. *)

From Stdlib Require Import Ascii String.
From S2P Require Import Prelude Order Text Deps Bincode Core WorldState Mempool Storage Rpc RpcApi Wallet Client Observe Node WalletDir.

Definition MAX_WALLET_SCAN_BYTES : Z := 1024 * 1024.
Definition CLI_RPC_RESPONSE_BYTES : Z := 2 * 1024 * 1024.
Definition CLI_GAS_LIMIT : Z := 21000.
Definition DEFAULT_RPC_URL : string := "http://127.0.0.1:8545".

(** ** Commands *)

Inductive WalletCommands :=
| WalletNew (password : string) (name : option string)
| WalletList
| WalletShow (address : string)
| WalletExport (address password : string)
| WalletImport (private_key password : string) (name : option string).
Inductive TxCommands :=
| TxSend (from to : string) (amount : Z) (password : string) (gas_price : Z) (nonce chain_id : option Z)
    (rpc_url : string)
| TxStatus (tx_hash rpc_url : string).
Inductive QueryCommands :=
| QueryBalance (address rpc_url : string)
| QueryNonce (address rpc_url : string)
| QueryBlock (height : option Z) (full : bool) (rpc_url : string)
| QueryChain (rpc_url : string).
Inductive Commands :=
| Init (chain_id : Z) (data_dir : option string) (allocations validators : list string) (force : bool)
| RunNode (validator : bool) (listen : string) (data_dir : option string)
    (metrics_addr : option SocketAddr) (max_connections : Z)
| WalletCmd (cmd : WalletCommands)
| TxCmd (cmd : TxCommands)
| QueryCmd (cmd : QueryCommands).

(** ** Errors

    An [anyhow::Error] is the chain of contexts around a cause, outermost first.
    [Quoted] is a message around a [{:?}]-quoted text. *)
Inductive Cause :=
| Msg (text : string)
| Quoted (before value after : string)
| FromCore (e : CoreError)
| FromWallet (e : WalletError)
| FromNode (e : NodeError)
| FromSystem (message : string)
| FromHttp (message : string)
| FromJson (message : string)
| FromHex (message : string)
| FromAddr (message : string)
| BadInteger (text : string)
| BadShape (v : Value).
Notation CliError := (list Cause).
Definition bail {A} (text : string) : result CliError A := Err [Msg text].
Definition context {E A} (m : Cause) (cause : E → Cause) (r : result E A) : result CliError A :=
  map_err (λ e, [m; cause e]) r.

(** ** Paths *)

Definition subhost_home (env : string → option string) : result CliError string :=
  match env "SUBHOST_HOME" with
  | Some home => Ok home
  | None =>
      home ← ok_or (env "HOME") [Msg "neither SUBHOST_HOME nor HOME is set";
                                 FromSystem "environment variable not found"];
      Ok (path_join home ".subhost")
  end.
Definition default_data_dir (env : string → option string) : result CliError string :=
  home ← subhost_home env; Ok (path_join home "data").
(** [mkdir] is the error of [create_dir_all], if any. *)
Definition wallet_dir (env : string → option string) (mkdir : option string) : result CliError string :=
  home ← subhost_home env;
  let dir := path_join home "wallets" in
  match mkdir with
  | Some e => Err [Msg ("cannot create the wallet directory " +:+ dir); FromSystem e]
  | None => Ok dir
  end.

(** ** Genesis *)

Section genesis.
Context `{!Hex}.

Definition parse_allocation (value : string) : result CliError (Address * Z) :=
  '(address, balance) ← ok_or (split_once "="%char value)
                          [Quoted "allocation " value " must use ADDRESS=BALANCE"];
  address ← context (Quoted "invalid allocation address in " value EmptyString) FromCore
              (address_from_hex (trim address));
  balance ← context (Quoted "invalid allocation balance in " value EmptyString) BadInteger
              (ok_or (from_str_radix u128_max 10 (trim balance)) (trim balance));
  Ok (address, balance).
Definition parse_validator (value : string) : result CliError ValidatorInfo :=
  let shape := [Quoted "validator " value " must use ADDRESS=PUBKEY_HEX:POWER"] in
  '(address, rest) ← ok_or (split_once "="%char value) shape;
  '(public_key, power) ← ok_or (rsplit_once ":"%char rest) shape;
  address ← context (Quoted "invalid validator address in " value EmptyString) FromCore
              (address_from_hex (trim address));
  public_key ← context (Quoted "invalid validator public key in " value EmptyString) FromHex
                 (hex_decode (trim_start_matches "0x" (trim public_key)));
  _ ← fail_if (bool_decide (public_key = [])) [Quoted "validator " value " has an empty public key"];
  power ← context (Quoted "invalid validator power in " value EmptyString) BadInteger
            (ok_or (from_str_radix u64_max 10 (trim power)) (trim power));
  Ok {| vi_address := address; vi_public_key := public_key; vi_power := power |}.

Definition set_allocations (m : gmap Address Z) (g : GenesisConfig) : GenesisConfig :=
  {| gen_chain_id := gen_chain_id g; gen_initial_validators := gen_initial_validators g;
     gen_allocations := m; gen_block_time_ms := gen_block_time_ms g; gen_gas_limit := gen_gas_limit g;
     gen_genesis_time := gen_genesis_time g |}.
Definition push_validator (v : ValidatorInfo) (g : GenesisConfig) : GenesisConfig :=
  {| gen_chain_id := gen_chain_id g; gen_initial_validators := gen_initial_validators g ++ [v];
     gen_allocations := gen_allocations g; gen_block_time_ms := gen_block_time_ms g;
     gen_gas_limit := gen_gas_limit g; gen_genesis_time := gen_genesis_time g |}.
(** The two loops of [init_genesis]. *)
Definition add_allocation_arg (g : GenesisConfig) (allocation : string) : result CliError GenesisConfig :=
  '(address, balance) ← parse_allocation allocation;
  match gen_allocations g !! address with
  | Some _ => bail ("duplicate genesis allocation for " +:+ address_to_string address)
  | None => Ok (set_allocations (<[address := balance]> (gen_allocations g)) g)
  end.
Definition add_validator_arg (g : GenesisConfig) (validator : string) : result CliError GenesisConfig :=
  v ← parse_validator validator; Ok (push_validator v g).
Definition build_genesis (now chain_id : Z) (allocations validators : list string)
  : result CliError GenesisConfig :=
  let d := genesis_default now in
  let genesis := {| gen_chain_id := chain_id; gen_initial_validators := gen_initial_validators d;
                    gen_allocations := gen_allocations d; gen_block_time_ms := gen_block_time_ms d;
                    gen_gas_limit := gen_gas_limit d; gen_genesis_time := gen_genesis_time d |} in
  genesis ← try_fold add_allocation_arg genesis allocations;
  try_fold add_validator_arg genesis validators.

(** What the operating system answers to [init_genesis]: creating the directory,
    and writing the file, which may fail and leave [left_over] behind. *)
Record InitIo := {
  ii_mkdir : option string;
  ii_write : result string unit;
  ii_left_over : option string
}.
Definition init_lines (path : string) (g : GenesisConfig) : list string :=
  ["Genesis written to " +:+ path;
   "  chain ID:    " +:+ fmt_dec (gen_chain_id g);
   "  allocations: " +:+ fmt_dec (Z.of_nat (size (gen_allocations g)));
   "  validators:  " +:+ fmt_dec (Z.of_nat (length (gen_initial_validators g)))]
  ++ match gen_initial_validators g with
     | [] => [EmptyString; "Note: no validators are configured. This genesis works for a single-node";
              "chain (`subhost node`), but `subhost node --validator` will refuse to start."]
     | _ => []
     end.
(** The state is the text of the genesis file in the data directory. *)
Definition init_genesis `{!SerdeJson GenesisDoc} (env : string → option string) (io : InitIo) (now : Z)
  (chain_id : Z) (data_dir : option string) (allocations validators : list string) (force : bool)
  : ST (option string) CliError (GenesisConfig * list string) := λ file,
  match match data_dir with Some dir => Ok dir | None => default_data_dir env end with
  | Err e => (file, Err e)
  | Ok data_dir =>
      match ii_mkdir io with
      | Some e => (file, Err [Msg ("cannot create " +:+ data_dir); FromSystem e])
      | None =>
          let path := path_join data_dir GENESIS_FILE_NAME in
          if bool_decide (file ≠ None) && negb force
          then (file, bail (path +:+ " already exists; pass --force to overwrite it"))
          else
            match build_genesis now chain_id allocations validators with
            | Err e => (file, Err e)
            | Ok genesis =>
                match context (Msg ("cannot write " +:+ path)) FromCore
                        (genesis_save path (ii_write io) genesis) with
                | Ok text => (Some text, Ok (genesis, init_lines path genesis))
                | Err e => (if is_ok (validate genesis) then ii_left_over io else file, Err e)
                end
            end
      end
  end.
End genesis.

(** ** Running a node *)

(** [run_node] up to the running node; [parse_addr] is [SocketAddr]'s parser and
    [default_dir] the default data directory. *)
Definition node_config (default_dir : result CliError string)
  (parse_addr : string → result string SocketAddr) (validator : bool) (listen : string)
  (data_dir : option string) (metrics_addr : option SocketAddr) (max_connections : Z)
  : result CliError NodeConfig :=
  data_dir ← match data_dir with Some dir => Ok dir | None => default_dir end;
  rpc_addr ← context (Quoted "invalid listen address " listen EmptyString) FromAddr (parse_addr listen);
  Ok {| nd_data_dir := data_dir; nd_rpc_addr := rpc_addr; nd_max_rpc_connections := max_connections;
        nd_metrics_addr := metrics_addr; nd_validator := validator; nd_fallback_chain_id := 1 |}.

(** ** Wallets *)

Section wallets.
Context `{!Blake3, !Hex, !Ed25519, !AesGcm, !Scrypt, !SerdeJson Wallet}.

Definition cli_parse_address (value : string) : result CliError Address :=
  let trimmed := trim value in
  _ ← fail_if (negb (str_len trimmed =? 42) || negb (starts_with "0x" trimmed))
        [Msg "address must be 0x followed by 40 hex characters"];
  context (Msg "address is not valid hex") FromCore (address_from_hex trimmed).

(** [MAIN_SEPARATOR] is [/] on the supported platforms. *)
Definition bad_wallet_name (name : string) : bool :=
  is_empty name || str_contains "/"%char name || str_contains "/"%char name
  || str_contains "\"%char name || bool_decide (name = ".") || bool_decide (name = "..").
Definition wallet_stem (name : option string) (address : string) : result CliError string :=
  match name with
  | Some name => _ ← fail_if (bad_wallet_name name) [Quoted "wallet name " name " is not a valid file name"];
                 Ok name
  | None => Ok (take_chars 8 (trim_start_matches "0x" address))
  end.
(** The name of the file in the wallet directory [path]. *)
Definition wallet_path (path : string) (dir : Dir) (name : option string) (address : string)
  : result CliError string :=
  stem ← wallet_stem name address;
  let file := stem +:+ ".json" in
  _ ← fail_if (file_exists dir file) [Msg (path_join path file +:+ " already exists")];
  Ok file.
Definition cli_find_wallet (dio : DirIo) (path : string) (dir : Dir) (address : Address)
  : result CliError (string * Wallet) :=
  find_wallet (λ e, [Msg ("cannot read the wallet directory " +:+ path); FromSystem e])
    (λ e, [FromSystem e]) (λ _ e, [FromSystem e])
    [Msg ("no wallet for " +:+ address_to_string address +:+ " in " +:+ path)]
    MAX_WALLET_SCAN_BYTES dio dir address.
Definition cli_list_wallets (dio : DirIo) (path : string) (dir : Dir)
  : result CliError (list (string * Wallet)) :=
  list_wallets (λ e, [Msg ("cannot read the wallet directory " +:+ path); FromSystem e])
    (λ e, [FromSystem e]) (λ _ e, [FromSystem e]) MAX_WALLET_SCAN_BYTES dio dir.

(** What the operating system and the random number generator answer. *)
Record WalletEnv := {
  we_io : FsOp → option string;
  we_dir : DirIo;
  we_meta : option string;
  we_read : option string;
  we_secret : array 32;
  we_salt : array SALT_BYTES;
  we_nonce : array NONCE_BYTES
}.
(** Save a new wallet under the name [wallet_path] chooses. *)
Definition store_wallet (e : WalletEnv) (path verb : string) (name : option string)
  (wallet : result WalletError Wallet) : ST Dir CliError (list string) := λ dir,
  match map_err (λ e, [FromWallet e]) wallet with
  | Err err => (dir, Err err)
  | Ok wallet =>
      match wallet_path path dir name (w_address wallet) with
      | Err err => (dir, Err err)
      | Ok file =>
          let '(d, r) := save (we_io e) wallet (dir_slot dir file) in
          (<[file := d]> dir,
           match r with
           | Ok _ => Ok [verb +:+ " wallet " +:+ w_address wallet; "  file: " +:+ path_join path file]
           | Err err => Err [FromWallet err]
           end)
      end
  end.
Definition show_lines (path file : string) (w : Wallet) : list string :=
  ["address: " +:+ w_address w; "file:    " +:+ path_join path file;
   "version: " +:+ fmt_dec (w_version w);
   "kdf:     scrypt(log_n=" +:+ fmt_dec (kdf_log_n (w_kdf w)) +:+ ", r=" +:+ fmt_dec (kdf_r (w_kdf w))
     +:+ ", p=" +:+ fmt_dec (kdf_p (w_kdf w)) +:+ ")"].
(** [handle_wallet] in the directory [path]; the lines are those of stdout. *)
Definition handle_wallet (e : WalletEnv) (path : string) (cmd : WalletCommands)
  : ST Dir CliError (list string) := λ dir,
  match cmd with
  | WalletNew password name =>
      store_wallet e path "Created" name (wallet_new (we_secret e) password (we_salt e) (we_nonce e)) dir
  | WalletImport private_key password name =>
      store_wallet e path "Imported" name
        (from_private_key private_key password (we_salt e) (we_nonce e)) dir
  | WalletList =>
      (dir, wallets ← cli_list_wallets (we_dir e) path dir;
            Ok match wallets with
               | [] => ["No wallets in " +:+ path]
               | _ => map (λ '(name, w), file_stem name +:+ String "009"%char (w_address w)) wallets
               end)
  | WalletShow address =>
      (dir, address ← cli_parse_address address;
            '(file, wallet) ← cli_find_wallet (we_dir e) path dir address;
            Ok (show_lines path file wallet))
  | WalletExport address password =>
      (dir, address ← cli_parse_address address;
            '(file, _) ← cli_find_wallet (we_dir e) path dir address;
            '(_, private_key) ← map_err (λ err, [FromWallet err])
                                  (wallet_load (we_meta e) (we_read e) password (dir_slot dir file));
            Ok ["0x" +:+ hex_encode (array_bytes private_key)])
  end.
End wallets.

(** ** Transactions and queries *)

Definition cli_errors (rpc_url : string) : ClientErrors CliError :=
  {| ce_accepts := error_for_status;
     ce_send _ e := [Msg ("cannot reach the node at " +:+ rpc_url); FromHttp e];
     ce_status _ status := [FromHttp status];
     ce_too_large method := [Msg ("RPC " +:+ method +:+ " response exceeds 2097152 bytes")];
     ce_read _ e := [FromHttp e];
     ce_json method e := [Msg ("RPC " +:+ method +:+ " returned invalid JSON"); FromJson e];
     ce_failed method message := [Msg ("RPC " +:+ method +:+ " failed: " +:+ message)];
     ce_no_result method := [Msg ("RPC " +:+ method +:+ " response has no result")] |}.

Section remote.
Context `{!Blake3, !Hex, !Ed25519, !AesGcm, !Scrypt, !SerdeJson Wallet, !SerdeJson Value,
  !Serialize Transaction}.
(** The nodes reached at each URL, and [serde_json::to_string_pretty]. *)
Context {W : Type} (post : string → Transport W) (pretty : Value → string).

Definition rpc_call_value (rpc_url method : string) (params : list Value) : ST W CliError Value :=
  rpc_exchange (cli_errors rpc_url) CLI_RPC_RESPONSE_BYTES (post rpc_url) method params.
(** [rpc_call::<String>] *)
Definition rpc_call_string (rpc_url method : string) (params : list Value) : ST W CliError string :=
  value ← rpc_call_value rpc_url method params;
  st_lift match value with
          | VString s => Ok s
          | v => Err [Msg ("RPC " +:+ method +:+ " returned an unexpected result shape"); BadShape v]
          end.
Definition rpc_quantity (rpc_url method : string) (params : list Value) (invalid : string)
  : ST W CliError Z :=
  value ← rpc_call_value rpc_url method params;
  st_lift (ok_or (parse_quantity value) [Msg invalid]).

(** [chain_id] and [nonce]: the caller's, or asked from the node. *)
Definition or_ask (given : option Z) (ask : ST W CliError Z) : ST W CliError Z :=
  match given with Some v => mret v | None => ask end.
(** [handle_transaction] with the wallet directory resolved by [home]. *)
Definition handle_transaction (home : result CliError string) (dio : DirIo)
  (load_meta load_read : option string) (dir : Dir) (cmd : TxCommands) : ST W CliError (list string) :=
  match cmd with
  | TxSend from to amount password gas_price nonce chain_id rpc_url =>
      _ ← st_fail_if (amount =? 0) [Msg "amount must be greater than zero"];
      from ← st_lift (cli_parse_address from);
      to ← st_lift (cli_parse_address to);
      _ ← st_fail_if (bool_decide (from = to)) [Msg "sender and recipient must differ"];
      path ← st_lift home;
      '(file, _) ← st_lift (cli_find_wallet dio path dir from);
      '(_, private_key) ← st_lift (map_err (λ err, [FromWallet err])
                                     (wallet_load load_meta load_read password (dir_slot dir file)));
      chain_id ← or_ask chain_id
        (rpc_quantity rpc_url "eth_chainId" [] "node returned an invalid chain ID");
      nonce ← or_ask nonce
        (rpc_quantity rpc_url "eth_getTransactionCount"
           [VString (address_to_string from); VString "latest"] "node returned an invalid nonce");
      let unsigned := plain_transfer from to amount gas_price CLI_GAS_LIMIT chain_id nonce in
      let signature := ed_sign private_key (signing_payload unsigned) in
      hash ← rpc_call_string rpc_url "eth_sendTransaction"
               [transfer_request (ed_public_key private_key) signature to unsigned];
      mret [hash]
  | TxStatus tx_hash rpc_url =>
      _ ← st_fail_if (negb (is_tx_hash tx_hash))
            [Msg "transaction hash must be 0x followed by 64 hex characters"];
      receipt ← rpc_call_value rpc_url "eth_getTransactionReceipt" [VString tx_hash];
      mret (match receipt with VNull => ["pending or unknown"] | v => [pretty v] end)
  end.
Definition tabbed (a b : string) : string := a +:+ String "009"%char b.
Definition handle_query (cmd : QueryCommands) : ST W CliError (list string) :=
  match cmd with
  | QueryBalance address rpc_url =>
      address ← st_lift (cli_parse_address address);
      raw ← rpc_call_value rpc_url "eth_getBalance" [VString (address_to_string address); VString "latest"];
      balance ← st_lift (ok_or (parse_amount raw) [Msg "node returned an invalid balance"]);
      mret [tabbed (address_to_string address) (fmt_dec balance)]
  | QueryNonce address rpc_url =>
      address ← st_lift (cli_parse_address address);
      nonce ← rpc_quantity rpc_url "eth_getTransactionCount"
                [VString (address_to_string address); VString "latest"] "node returned an invalid nonce";
      mret [tabbed (address_to_string address) (fmt_dec nonce)]
  | QueryBlock height full rpc_url =>
      let tag := match height with Some height => fmt_0x height | None => "latest" end in
      block ← rpc_call_value rpc_url "eth_getBlockByNumber" [VString tag; VBool full];
      st_lift (match block with VNull => bail "no such block" | v => Ok [pretty v] end)
  | QueryChain rpc_url =>
      chain_id ← rpc_quantity rpc_url "eth_chainId" [] "node returned an invalid chain ID";
      height ← rpc_quantity rpc_url "eth_blockNumber" [] "node returned an invalid height";
      mret [tabbed "chain_id" (fmt_dec chain_id); tabbed "height" (fmt_dec height)]
  end.
End remote.

(** [run_node]: [b] is what the operating system answers during the boot and
    [stopped] how the running node ends. *)
Definition run_node `{!Blake3, !Hex, !Serialize Transaction, !Serialize BlockHeader, !Serialize (list Hash),
    !Serialize (Hash * Z * Z * Z), !Serialize StateSnapshot, !Serialize LedgerSnapshot,
    !Deserialize LedgerSnapshot, !Serialize LedgerEnvelope, !Deserialize LedgerEnvelope,
    !SerdeJson GenesisDoc, !F64, !Prometheus}
  (config : result CliError NodeConfig) (b : Boot) (stopped : Node → Stopped) : ST Disk CliError unit :=
  config ← st_lift config;
  node ← st_map_err (λ e, [FromNode e]) (bootstrap config b);
  st_lift (map_err (λ e, [FromNode e]) (run_result (stopped node))).

(** ** The program *)

Import Telemetry.

Record CliArgs := { ca_command : Commands; ca_verbose : bool; ca_quiet : bool }.

Section program.
Context `{!Blake3, !Hex, !Ed25519, !AesGcm, !Scrypt, !SerdeJson Wallet, !SerdeJson Value,
  !SerdeJson GenesisDoc, !Serialize Transaction, !Serialize BlockHeader, !Serialize (list Hash),
  !Serialize (Hash * Z * Z * Z), !Serialize StateSnapshot, !Serialize LedgerSnapshot,
  !Deserialize LedgerSnapshot, !Serialize LedgerEnvelope, !Deserialize LedgerEnvelope,
  !F64, !Prometheus}.
Context {W EnvFilter : Type} (post : string → Transport W) (pretty : Value → string)
  (parse_addr : string → result string SocketAddr)
  (parse_filter : string → option EnvFilter) (lenient : string → EnvFilter).

(** What a command may change: the log subscriber of the process, the genesis file and
    the ledger file of the data directory it names, the wallet directory, and the
    nodes it calls. *)
Record CliWorld := {
  cw_log : option (EnvFilter * TelemetryConfig);
  cw_genesis : option string;
  cw_ledger : Disk;
  cw_wallets : Dir;
  cw_nodes : W
}.
(** What the process is given; [cx_mkdir] is the error of creating the wallet
    directory and [cx_runtime] that of building the async runtime, if any. *)
Record CliContext := {
  cx_env : string → option string;
  cx_runtime : option string;
  cx_now : Z;
  cx_init : InitIo;
  cx_boot : Boot;
  cx_stopped : Node → Stopped;
  cx_mkdir : option string;
  cx_wallet : WalletEnv
}.
Definition on_genesis (g : option string) (w : CliWorld) : CliWorld :=
  {| cw_log := cw_log w; cw_genesis := g; cw_ledger := cw_ledger w; cw_wallets := cw_wallets w;
     cw_nodes := cw_nodes w |}.
Definition on_ledger (d : Disk) (w : CliWorld) : CliWorld :=
  {| cw_log := cw_log w; cw_genesis := cw_genesis w; cw_ledger := d; cw_wallets := cw_wallets w;
     cw_nodes := cw_nodes w |}.
Definition on_wallets (d : Dir) (w : CliWorld) : CliWorld :=
  {| cw_log := cw_log w; cw_genesis := cw_genesis w; cw_ledger := cw_ledger w; cw_wallets := d;
     cw_nodes := cw_nodes w |}.
Definition on_nodes (n : W) (w : CliWorld) : CliWorld :=
  {| cw_log := cw_log w; cw_genesis := cw_genesis w; cw_ledger := cw_ledger w;
     cw_wallets := cw_wallets w; cw_nodes := n |}.
(** The boot reads the genesis file that is there, unless reading it fails. *)
Definition boot_reading (genesis : option string) (b : Boot) : Boot :=
  {| bt_mkdir := bt_mkdir b;
     bt_genesis := match bt_genesis b with Some (Err e) => Some (Err e) | _ => Ok <$> genesis end;
     bt_open := bt_open b; bt_meta := bt_meta b; bt_read := bt_read b; bt_io := bt_io b |}.

(** The [match] of [main]. *)
Definition cli_dispatch (x : CliContext) (c : Commands) : ST CliWorld CliError (list string) := λ w,
  let home := wallet_dir (cx_env x) (cx_mkdir x) in
  let e := cx_wallet x in
  match c with
  | Init chain_id data_dir allocations validators force =>
      let '(g, r) := init_genesis (cx_env x) (cx_init x) (cx_now x) chain_id data_dir allocations
                       validators force (cw_genesis w) in
      (on_genesis g w, '(_, lines) ← r; Ok lines)
  | RunNode validator listen data_dir metrics_addr max_connections =>
      let config := node_config (default_data_dir (cx_env x)) parse_addr validator listen data_dir
                      metrics_addr max_connections in
      let '(d, r) := run_node config (boot_reading (cw_genesis w) (cx_boot x)) (cx_stopped x)
                       (cw_ledger w) in
      (on_ledger d w, _ ← r; Ok [])
  | WalletCmd cmd =>
      match home with
      | Err err => (w, Err err)
      | Ok path => let '(d, r) := handle_wallet e path cmd (cw_wallets w) in (on_wallets d w, r)
      end
  | TxCmd cmd =>
      let '(n, r) := handle_transaction post pretty home (we_dir e) (we_meta e) (we_read e)
                       (cw_wallets w) cmd (cw_nodes w) in
      (on_nodes n w, r)
  | QueryCmd cmd => let '(n, r) := handle_query post pretty cmd (cw_nodes w) in (on_nodes n w, r)
  end.
(** [main], from the parsed arguments to what is printed. *)
Definition cli_main (x : CliContext) (args : CliArgs) : ST CliWorld CliError (list string) := λ w,
  let config := telemetry_from_env (cx_env x) (from_flags (ca_verbose args) (ca_quiet args)) in
  let log := init_or_warn (env_filter parse_filter lenient (cx_env x) config) config (cw_log w) in
  let w := {| cw_log := log; cw_genesis := cw_genesis w; cw_ledger := cw_ledger w;
              cw_wallets := cw_wallets w; cw_nodes := cw_nodes w |} in
  match cx_runtime x with
  | Some e => (w, Err [Msg "cannot start the async runtime"; FromSystem e])
  | None => cli_dispatch x (ca_command args) w
  end.

(** No command reaches beyond its own part: only [init] writes the genesis file, only
    a node its ledger, only [wallet new] and [wallet import] the wallet directory, and
    only [tx] and [query] call a node. *)
Lemma cli_main_frame x args w :
  let w' := (cli_main x args w).1 in
  ((∀ a b c d e, ca_command args ≠ Init a b c d e) → cw_genesis w' = cw_genesis w) ∧
  ((∀ a b c d e, ca_command args ≠ RunNode a b c d e) → cw_ledger w' = cw_ledger w) ∧
  ((∀ p n, ca_command args ≠ WalletCmd (WalletNew p n)) →
   (∀ k p n, ca_command args ≠ WalletCmd (WalletImport k p n)) → cw_wallets w' = cw_wallets w) ∧
  ((∀ c, ca_command args ≠ TxCmd c) → (∀ c, ca_command args ≠ QueryCmd c) →
   cw_nodes w' = cw_nodes w).
Proof.
  destruct args as [c v q]. unfold cli_main, cli_dispatch. simpl.
  destruct (cx_runtime x); [done|]. destruct c as [| |c|c|c]; simpl.
  - destruct (init_genesis _ _ _ _ _ _ _ _ _) as [g r]. simpl. split_and!; try done.
    intros Hc. by destruct (Hc _ _ _ _ _ eq_refl).
  - destruct (run_node _ _ _ _) as [d r]. simpl. split_and!; try done.
    intros Hc. by destruct (Hc _ _ _ _ _ eq_refl).
  - destruct (wallet_dir _ _) as [path|]; [|done].
    destruct (handle_wallet _ _ _ _) as [d r] eqn:Hh. simpl. split_and!; try done.
    intros Hn Hi. destruct c; simpl in Hh; try by simplify_eq.
    + by destruct (Hn _ _ eq_refl).
    + by destruct (Hi _ _ _ eq_refl).
  - destruct (handle_transaction _ _ _ _ _ _ _ _ _) as [n r]. simpl. split_and!; try done.
    intros Hc. by destruct (Hc _ eq_refl).
  - destruct (handle_query _ _ _ _) as [n r]. simpl. split_and!; try done.
    intros _ Hc. by destruct (Hc _ eq_refl).
Qed.
End program.

(** ** From [init] to a booted node *)

Section init.
Context `{!Hex}.

Lemma add_allocations_Ok allocations g g' :
  try_fold add_allocation_arg g allocations = Ok g' →
  ∃ entries, Forall2 (λ s e, parse_allocation s = Ok e) allocations entries ∧ NoDup entries.*1 ∧
    (∀ a, a ∈ entries.*1 → gen_allocations g !! a = None) ∧
    g' = set_allocations (list_to_map entries ∪ gen_allocations g) g.
Proof.
  revert g. induction allocations as [|s allocations IH]; intros g; simpl.
  { intros [= <-]. exists []. split_and!; [constructor|constructor|by intros a ?%elem_of_nil|].
    rewrite list_to_map_nil, (left_id_L ∅ (∪)). by destruct g. }
  intros (g1 & Hadd & (entries & HF & Hnd & Hfree & ->)%IH)%bind_Ok.
  unfold add_allocation_arg in Hadd. apply bind_Ok in Hadd as ([a x] & Hp & Hadd).
  destruct (gen_allocations g !! a) eqn:Hg; [done|]. injection Hadd as <-. simpl in *.
  assert (a ∉ entries.*1) as Ha.
  { intros Hin%Hfree. by rewrite lookup_insert_eq in Hin. }
  exists ((a, x) :: entries). split_and!.
  - by constructor.
  - simpl. by constructor.
  - simpl. intros a' [->|Hin]%elem_of_cons; [done|]. apply Hfree in Hin.
    by apply lookup_insert_None in Hin as [? _].
  - unfold set_allocations. simpl. f_equal. rewrite <-insert_union_l. symmetry. apply insert_union_r.
    by apply not_elem_of_list_to_map_1.
Qed.
Lemma add_validators_Ok validators g g' :
  try_fold add_validator_arg g validators = Ok g' →
  ∃ vs, Forall2 (λ s v, parse_validator s = Ok v) validators vs ∧
    gen_initial_validators g' = gen_initial_validators g ++ vs ∧
    gen_chain_id g' = gen_chain_id g ∧ gen_allocations g' = gen_allocations g.
Proof.
  revert g. induction validators as [|s validators IH]; intros g; simpl.
  { intros [= <-]. exists []. rewrite app_nil_r. split; [constructor|done]. }
  intros (g1 & (v & Hv & [= <-])%bind_Ok & (vs & HF & Hvs & Hc & Ha)%IH)%bind_Ok.
  exists (v :: vs). split; [by constructor|]. rewrite Hvs. simpl. by rewrite <-(assoc_L (++)).
Qed.
Lemma build_genesis_Ok now chain_id allocations validators g :
  build_genesis now chain_id allocations validators = Ok g →
  gen_chain_id g = chain_id ∧
  Forall2 (λ s v, parse_validator s = Ok v) validators (gen_initial_validators g) ∧
  ∃ entries, Forall2 (λ s e, parse_allocation s = Ok e) allocations entries ∧ NoDup entries.*1 ∧
    gen_allocations g = list_to_map entries.
Proof.
  unfold build_genesis. cbv zeta. intros (g1 & (entries & HF & Hnd & _ & ->)%add_allocations_Ok & Hv)%bind_Ok.
  apply add_validators_Ok in Hv as (vs & HFv & Hvs & Hc & Ha). simpl in *. subst vs.
  rewrite (right_id_L ∅ (∪)) in Ha. split_and!; [done|done|]. by exists entries.
Qed.
End init.

(** C39. [subhost init] writes a genesis [subhost node] boots from. Without
    [--force] an existing file is never touched. When the command succeeds, the
    file in the data directory loads back as the chain that was asked for, with
    exactly the listed allocations (no address twice) and validators. Booting a
    validator there fails when no validator was listed; any other boot on a data
    directory without a ledger, whose file operations succeed and whose genesis
    ledger is within the size limit, succeeds: the node runs that chain at height
    zero, and its balances are exactly the allocations. *)
Theorem init_boots `{!Blake3, !Hex, !HexLaws, !Serialize Transaction, !Serialize BlockHeader,
    !Serialize (list Hash), !Serialize (Hash * Z * Z * Z), !Serialize StateSnapshot,
    !Serialize LedgerSnapshot, !Deserialize LedgerSnapshot, !Serialize LedgerEnvelope,
    !Deserialize LedgerEnvelope, !F64, !Prometheus, !PrometheusLaws,
    !SerdeJson GenesisDoc, !SerdeJsonLaws GenesisDoc doc_wf}
    (env : string → option string) (io : InitIo) (now chain_id : Z) (dir : string)
    (allocations validators : list string) (force : bool) (file file' : option string)
    (r : result CliError (GenesisConfig * list string)) :
  init_genesis env io now chain_id (Some dir) allocations validators force file = (file', r) →
  (file ≠ None → force = false → file' = file ∧ is_ok r = false) ∧
  (∀ g lines, r = Ok (g, lines) → genesis_wf g →
     Forall2 (λ s v, parse_validator s = Ok v) validators (gen_initial_validators g) ∧
     (∃ entries, Forall2 (λ s e, parse_allocation s = Ok e) allocations entries ∧ NoDup entries.*1 ∧
        gen_allocations g = list_to_map entries) ∧
     (∀ c b iter d, nd_data_dir c = dir → bt_mkdir b = None → bt_genesis b = Ok <$> file' →
        if nd_validator c && bool_decide (validators = [])
        then is_ok (bootstrap_iter iter c b d).2 = false
        else
          (∀ m, iter m ≡ₚ map_to_list m) → d_target d = None → bt_open b = None →
          bt_io b = (λ _, None) →
          Z.of_nat (length (encode_ledger (ledger_of chain_id (genesis_state chain_id (Some g)) [] ∅)))
            ≤ MAX_LEDGER_BYTES →
          ∃ d' nd, bootstrap_iter iter c b d = (d', Ok nd) ∧ nd_genesis nd = Some g ∧
            node_chain_id nd = chain_id ∧ rs_block_height (nd_state nd) = 0 ∧
            ∀ a, rpc_balance (nd_state nd) a = default 0 (gen_allocations g !! a))).
Proof.
  unfold init_genesis. destruct (ii_mkdir io) as [e|]; [intros [= <- <-]; by split|]. split.
  { intros Hf ->. rewrite bool_decide_true in * by done. simpl in *. by simplify_eq. }
  intros g lines -> Hwf. destruct (bool_decide _ && _); [done|].
  destruct (build_genesis now chain_id allocations validators) as [g1|] eqn:Hb; [|done].
  destruct (genesis_save (path_join dir GENESIS_FILE_NAME) (ii_write io) g1) as [text|] eqn:Hs; simpl in *; [|done].
  simplify_eq. destruct (build_genesis_Ok _ _ _ _ _ Hb) as (Hc & Hv & Ha).
  split_and!; [done|done|]. intros c b iter d Hdir Hmk Hgen.
  assert (if nd_validator c && bool_decide (validators = []) then is_ok (boot_chain c b) = false
          else boot_chain c b = Ok (Some g, gen_chain_id g)) as Hbc.
  2: { destruct (nd_validator c && bool_decide (validators = [])).
       - unfold bootstrap_iter. run_unfold. by destruct (boot_chain c b) as [[]|].
       - intros Hiter Ht Ho Hio Hlen. rewrite Hc in Hbc.
         destruct (first_boot_runs iter c b d _ _ Hiter Ht Hbc Ho Hio Hlen)
           as (d' & nd & Hrun & Hg & Hch & Hst & _ & Hh).
         exists d', nd. split_and!; try done. intros a. unfold rpc_balance. rewrite Hst. apply genesis_balance. }
  unfold boot_chain, load_genesis. rewrite Hmk, Hgen. cbn [fmap option_fmap option_map mbind result_bind].
  rewrite (genesis_reload (path_join dir GENESIS_FILE_NAME) (genesis_path c) (ii_write io) g text) by done.
  cbn [map_err mbind result_bind]. unfold requires_validators.
  assert (gen_chain_id g ≠ 0) as Hz.
  { unfold genesis_save in Hs. apply bind_Ok in Hs as ([] & Hval & _). apply validate_Ok in Hval. apply Hval. }
  assert (gen_initial_validators g = [] ↔ validators = []) as Hnil.
  { split; intros Hn; rewrite Hn in Hv; by inversion Hv. }
  rewrite (bool_decide_ext _ _ Hnil). destruct (nd_validator c); simpl; [|by rewrite (proj2 (Z.eqb_neq _ _))].
  case_bool_decide; simpl; [done|]. by rewrite (proj2 (Z.eqb_neq _ _)).
Qed.

(** ** Sending *)

Section sending.
Context `{!Blake3, !Hex, !HexLaws, !Ed25519, !Ed25519Laws, !AesGcm, !Scrypt, !SerdeJson Wallet,
  !Serialize Transaction, !Serialize BlockHeader,
  !Serialize (list Hash), !Serialize (Hash * Z * Z * Z), !Serialize StateSnapshot,
  !Serialize LedgerSnapshot, !Deserialize LedgerSnapshot,
  !Serialize LedgerEnvelope, !Deserialize LedgerEnvelope,
  !SerdeJson Value, !JsonRpc, !JsonRpcLaws}.
Context (io : FsOp → option string) (clock : Z) (pretty : Value → string).

Lemma cli_parse_address_Ok s a : cli_parse_address s = Ok a ↔ parse_recipient () () s = Ok a.
Proof. unfold cli_parse_address, parse_recipient, context. by rewrite !guard_Ok, !map_err_Ok. Qed.
(** A [send] command that passes the checks made before the node is asked. *)
Record sendable (path : string) (dio : DirIo) (load_meta load_read : option string) (dir : Dir)
  (from to : string) (recipient : Address) (amount : Z) (password : string) (key : array 32) : Prop := {
  sd_amount : amount ≠ 0;
  sd_from : cli_parse_address from = Ok (derive_address key);
  sd_to : cli_parse_address to = Ok recipient;
  sd_differ : derive_address key ≠ recipient;
  sd_wallet : ∃ file w, cli_find_wallet dio path dir (derive_address key) = Ok (file, w) ∧
    wallet_load load_meta load_read password (dir_slot dir file) = Ok (w, key)
}.
(** The transaction [send] signs. *)
Definition send_tx (key : array 32) (recipient : Address) (amount gas_price : Z) (nonce chain_id : option Z)
  (n : RpcState) : Transaction :=
  signed_transfer key recipient amount gas_price CLI_GAS_LIMIT (default (rs_chain_id n) chain_id)
    (default (rpc_nonce n (derive_address key)) nonce).
Lemma ask_chain url chain_id n :
  is_u64 (rs_chain_id n) → reply_fits CLI_RPC_RESPONSE_BYTES (eth_chainId n) →
  or_ask chain_id (rpc_quantity (λ _, node_transport io clock) url "eth_chainId" []
    "node returned an invalid chain ID") n = (n, Ok (default (rs_chain_id n) chain_id)).
Proof.
  intros Hc Hf. destruct chain_id; [done|]. unfold or_ask, rpc_quantity, rpc_call_value. run_unfold.
  rewrite chain_id_node by done. by rewrite parse_quantity_print.
Qed.
Lemma ask_nonce url nonce a n :
  node_inv n → reply_fits CLI_RPC_RESPONSE_BYTES (Ok (json_quantity (rpc_nonce n a))) →
  or_ask nonce (rpc_quantity (λ _, node_transport io clock) url "eth_getTransactionCount"
    [VString (address_to_string a); VString "latest"] "node returned an invalid nonce") n
  = (n, Ok (default (rpc_nonce n a) nonce)).
Proof.
  intros I Hf. destruct nonce; [done|]. unfold or_ask, rpc_quantity, rpc_call_value. run_unfold.
  rewrite nonce_node by done. rewrite parse_quantity_print by (by apply nonce_width). done.
Qed.
Lemma send_node path dio load_meta load_read dir from to recipient amount password gas_price nonce chain_id
    url key n :
  node_inv n → is_u64 (rs_chain_id n) → is_u128 amount → is_u128 gas_price →
  (∀ x, nonce = Some x → is_u64 x) → (∀ x, chain_id = Some x → is_u64 x) →
  sendable path dio load_meta load_read dir from to recipient amount password key →
  let tx := send_tx key recipient amount gas_price nonce chain_id n in
  replies_fit io clock CLI_RPC_RESPONSE_BYTES n tx →
  ∃ e, handle_transaction (λ _, node_transport io clock) pretty (Ok path) dio load_meta load_read dir
         (TxSend from to amount password gas_price nonce chain_id url) n
  = if decide (tx_chain_id tx = rs_chain_id n)
    then ((submit_transaction io clock tx n).1,
          match (submit_transaction io clock tx n).2 with
          | Ok h => Ok [hash_to_string h]
          | Err e => Err [Msg ("RPC eth_sendTransaction failed: " +:+ (error_object e).2)]
          end)
    else (n, Err e).
Proof.
  intros I Hc Ha Hg Hn Hch [Hpos Hfrom Hto Hne (file & w & Hfind & Hload)] tx [Hf1 Hf2 Hf3].
  unfold handle_transaction. run_unfold.
  rewrite (proj2 (Z.eqb_neq _ _)) by done. cbn [fail_if]. rewrite Hfrom, Hto.
  rewrite bool_decide_false by done. cbn [fail_if]. rewrite Hfind, Hload. cbn [map_err].
  rewrite ask_chain, ask_nonce by done. unfold tx, send_tx in *.
  assert (is_u64 (default (rpc_nonce n (derive_address key)) nonce)) as Hnc.
  { destruct nonce; [by apply Hn|]. by apply nonce_width. }
  assert (is_u64 (default (rs_chain_id n) chain_id)) as Hchain by (destruct chain_id; [by apply Hch|done]).
  revert Hnc Hchain Hf3. generalize (default (rpc_nonce n (derive_address key)) nonce),
    (default (rs_chain_id n) chain_id). intros nc chain Hnc Hchain Hf3.
  unfold rpc_call_string, rpc_call_value. run_unfold. unfold derive_address in *.
  cbn [signed_transfer tx_chain_id with_signature plain_transfer]. case_decide as Heq.
  - subst chain. exists []. rewrite (send_transfer_node io clock (cli_errors url) CLI_RPC_RESPONSE_BYTES);
      try done; try (unfold CLI_GAS_LIMIT; width).
    by destruct (submit_transaction io clock _ n) as [n' [h|e]].
  - edestruct (send_wrong_chain io clock (cli_errors url) CLI_RPC_RESPONSE_BYTES) as [e He];
      [done|done|exact Hchain|exact Heq|]. exists e. by rewrite He.
Qed.
End sending.

(** C21. [subhost tx send] does what it says. Once the sender's wallet is unlocked
    the command succeeds exactly when the transfer is for the node's chain and
    the node commits it; it then prints the hash of the transaction it signed,
    the ledger gained one block holding it and the recipient was credited. The
    nonce and chain ID left out are the node's. Otherwise the ledger the node serves
    is as before, and so is its file unless the failing operation was the last
    directory sync. The node is one that answers every request. *)
Theorem send_end_to_end `{!Blake3, !Hex, !HexLaws, !Ed25519, !Ed25519Laws, !AesGcm, !Scrypt,
    !SerdeJson Wallet, !Serialize Transaction, !Serialize BlockHeader, !Serialize (list Hash),
    !Serialize (Hash * Z * Z * Z), !Serialize StateSnapshot, !Serialize LedgerSnapshot,
    !Deserialize LedgerSnapshot, !Serialize LedgerEnvelope, !Deserialize LedgerEnvelope,
    !SerdeJson Value, !JsonRpc, !JsonRpcLaws}
    (io : FsOp → option string) (clock : Z) (pretty : Value → string) (path : string) (dio : DirIo)
    (load_meta load_read : option string) (dir : Dir) (from to : string) (recipient : Address)
    (amount : Z) (password : string) (gas_price : Z) (nonce chain_id : option Z) (url : string)
    (key : array 32) (n n' : RpcState) (r : result CliError (list string)) :
  node_inv n → is_u64 (rs_chain_id n) → is_u128 amount → is_u128 gas_price →
  (∀ x, nonce = Some x → is_u64 x) → (∀ x, chain_id = Some x → is_u64 x) →
  sendable path dio load_meta load_read dir from to recipient amount password key →
  let tx := send_tx key recipient amount gas_price nonce chain_id n in
  pool_no_collision n tx → replies_fit io clock CLI_RPC_RESPONSE_BYTES n tx →
  handle_transaction (λ _, node_transport io clock) pretty (Ok path) dio load_meta load_read dir
    (TxSend from to amount password gas_price nonce chain_id url) n = (n', r) →
  is_ok r = bool_decide (tx_chain_id tx = rs_chain_id n) && is_ok (submit_transaction io clock tx n).2 ∧
  match r with
  | Ok lines => lines = [hash_to_string (tx_hash tx)] ∧ tx_from tx = derive_address key ∧
      transferred n n' tx recipient
  | Err _ => (∃ d', n' = set_disk d' n) ∧ (io SyncDir = None → n' = n)
  end.
Proof.
  intros I Hc Ha Hg Hn Hch Hs tx Hcol Hfit Hrun.
  destruct (send_node io clock pretty path dio load_meta load_read dir from to recipient amount password
    gas_price nonce chain_id url key n I Hc Ha Hg Hn Hch Hs Hfit) as [e He].
  rewrite He in Hrun. clear He. fold tx in Hrun. assert (tx_wf tx) as Htx.
  { apply signed_transfer_wf; try done.
    - destruct chain_id; [by apply Hch|done].
    - destruct nonce; [by apply Hn|]. by apply nonce_width. }
  case_decide as Heq.
  2: { injection Hrun as <- <-. rewrite bool_decide_false by done. split; [done|].
       split; [|done]. exists (rs_disk n). by destruct n. }
  rewrite bool_decide_true by done.
  destruct (submit_transaction io clock tx n) as [n1 [h|e1]] eqn:Hsub; cbn [fst snd] in Hrun;
    simplify_eq; (split; [done|]); apply (submit_outcome io clock tx recipient) in Hsub; try done.
  - by destruct Hsub as [-> Ht].
  - destruct Hsub as (d' & -> & Hd). by split; [eexists|].
Qed.

(** ** The wallet directory *)

Section directory.
Context `{!Blake3, !Hex, !HexLaws, !Ed25519, !AesGcm, !AesGcmLaws, !Scrypt, !SerdeJson Wallet,
  !SerdeJsonLaws Wallet wallet_wf}.

Lemma rsplit_json s : rsplit_once "."%char (s +:+ ".json") = Some (s, "json").
Proof. induction s as [|c s IH]; [done|]. simpl. by rewrite IH. Qed.
Lemma json_extension stem : is_empty stem = false → extension (stem +:+ ".json") = Some "json".
Proof. intros Hs. unfold extension. rewrite rsplit_json. by destruct stem. Qed.
Lemma hex_stem (a : Address) : is_empty (take_chars 8 (trim_start_matches "0x" (address_to_string a))) = false.
Proof.
  unfold trim_start_matches, address_to_string.
  change (String.length ("0x" +:+ hex_encode (array_bytes a))) with (S (S (String.length (hex_encode (array_bytes a))))).
  cbn [trim_start_fuel]. rewrite strip_prefix_app, hex_encode_no_prefix.
  pose proof (hex_encode_length (array_bytes a)) as Hl. rewrite (array_length (n:=ADDRESS_SIZE)) in Hl.
  pose proof (hex_encode_digits (array_bytes a)) as Hd.
  destruct (hex_encode (array_bytes a)) as [|c s]; [done|]. simpl. by destruct (starts_char c).
Qed.
Lemma wallet_path_Ok path dir name a file :
  wallet_path path dir name (address_to_string a) = Ok file →
  extension file = Some "json" ∧ file_exists dir file = false.
Proof.
  unfold wallet_path. intros (stem & Hstem & Hrun)%bind_Ok. apply guard_Ok in Hrun as [Hfree [= <-]].
  split; [|done]. apply json_extension. destruct name as [name|]; simpl in Hstem.
  - apply guard_Ok in Hstem as [Hbad [= <-]]. unfold bad_wallet_name in Hbad. by destruct (is_empty name).
  - injection Hstem as <-. apply hex_stem.
Qed.
Definition healthy (e : WalletEnv) (names : list string) : Prop :=
  (∀ op, we_io e op = None) ∧ we_dir e = dir_io names ∧ we_meta e = None ∧ we_read e = None.
Lemma save_healthy io w d : (∀ op, io op = None) → save io w d = save (λ _, None) w d.
Proof.
  intros Hio. unfold save, save_ops. rewrite Hio. destruct (negb _); [done|]. simpl. by rewrite !Hio.
Qed.
Lemma store_wallet_Ok e names path verb name secret password dir dir' lines :
  healthy e names → map_Forall (λ _ d, stable d) dir →
  let wallet := from_secret secret password (we_salt e) (we_nonce e) in
  store_wallet e path verb name wallet dir = (dir', Ok lines) →
  ∃ file w d, wallet = Ok w ∧ w_address w = address_to_string (derive_address secret) ∧
    dir' = <[file := d]> dir ∧ extension file = Some "json" ∧ d_target (dir_slot dir file) = None ∧
    (wallet_wf w → str_len (to_json w) ≤ MAX_WALLET_FILE_BYTES →
     read None None d = Ok w ∧ wallet_load None None password d = Ok (w, secret) ∧
     file_len d = str_len (to_json w)).
Proof.
  intros (Hio & _) Hst wallet Hrun. unfold store_wallet in Hrun. subst wallet.
  destruct (from_secret secret password (we_salt e) (we_nonce e)) as [w|] eqn:Hw; [|done]. simpl in Hrun.
  destruct (from_secret_Ok _ _ _ _ _ Hw) as (_ & _ & Ha & _). rewrite Ha in Hrun.
  destruct (wallet_path _ _ _ _) as [file|] eqn:Hp; [|done]. apply wallet_path_Ok in Hp as [Hext Hfree].
  rewrite save_healthy in Hrun by done. destruct (save _ w _) as [d r] eqn:Hs. simplify_eq.
  exists file, w, d. apply bool_decide_eq_false, dec_stable in Hfree. split_and!; try done.
  intros Hwf Hlen.
  assert (stable (dir_slot dir file)) as Hsl.
  { unfold dir_slot. destruct (dir !! file) as [d0|] eqn:Hd; simpl; [by apply (Hst file)|by split]. }
  destruct (load_saved _ _ _ _ w (dir_slot dir file) Hw Hwf Hlen Hsl) as (d2 & Hs2 & _ & Hread & Hload).
  rewrite Hs in Hs2. injection Hs2 as <- _. split_and!; try done.
  destruct (save_succeeds w (dir_slot dir file) Hsl) as (d3 & Hs3 & Ht & _).
  { by destruct (from_secret_Ok _ _ _ _ _ Hw) as (_ & ? & _). }
  rewrite Hs in Hs3. injection Hs3 as <- _. unfold file_len. rewrite Ht. simpl. by rewrite str_bytes_length.
Qed.
End directory.

(** The command creates a wallet for [secret] under [password]. *)
Definition creates `{!Hex} (e : WalletEnv) (cmd : WalletCommands) (secret : array 32) (password : string)
  : Prop :=
  match cmd with
  | WalletNew pw _ => pw = password ∧ we_secret e = secret
  | WalletImport text pw _ =>
      pw = password ∧ hex_decode (trim_start_matches "0x" (trim text)) = Ok (array_bytes secret)
  | _ => False
  end.

(** A wallet created or imported on the command line can be exported again:
    the command never replaces an existing file, and afterwards [wallet export]
    with its address and password prints the private key, whatever order the
    directory is listed in. *)
Theorem wallet_create_export `{!Blake3, !Hex, !HexLaws, !Ed25519, !AesGcm, !AesGcmLaws, !Scrypt,
    !SerdeJson Wallet, !SerdeJsonLaws Wallet wallet_wf} (e e' : WalletEnv) (names names' : list string)
    (path : string) (cmd : WalletCommands) (secret : array 32) (password : string) (dir dir' : Dir)
    (lines : list string) :
  healthy e names → map_Forall (λ _ d, stable d) dir → creates e cmd secret password →
  (∀ w, from_secret secret password (we_salt e) (we_nonce e) = Ok w →
     wallet_wf w ∧ str_len (to_json w) ≤ MAX_WALLET_FILE_BYTES) →
  (∀ name w, wallet_entry MAX_WALLET_SCAN_BYTES dir name = Some w →
     matches w (derive_address secret) = false) →
  handle_wallet e path cmd dir = (dir', Ok lines) →
  healthy e' names' → (∀ name, is_Some (dir' !! name) → name ∈ names') →
  (∀ name, d_target (dir_slot dir name) ≠ None → dir' !! name = dir !! name) ∧
  handle_wallet e' path (WalletExport (address_to_string (derive_address secret)) password) dir'
  = (dir', Ok ["0x" +:+ hex_encode (array_bytes secret)]).
Proof.
  intros He Hst Hcr Hfit Hnone Hrun (_ & Hdir' & Hmeta' & Hread') Hall.
  assert (∃ verb name, store_wallet e path verb name (from_secret secret password (we_salt e) (we_nonce e)) dir
    = (dir', Ok lines)) as (verb & name & Hstore).
  { destruct cmd; simpl in Hcr; try done; destruct Hcr as [-> Hsec].
    - rewrite <-Hsec. by eexists _, _.
    - eexists _, _. simpl in Hrun. unfold from_private_key in Hrun. rewrite Hsec in Hrun. simpl in Hrun.
      rewrite (to_array_bytes (n:=32)) in Hrun. exact Hrun. }
  apply (store_wallet_Ok e names) in Hstore as (file & w & d & Hw & Ha & -> & Hext & Hfree & Hok); [|done|done].
  destruct (Hfit w Hw) as [Hwf Hlen]. destruct (Hok Hwf Hlen) as (Hrd & Hload & Hfl). split.
  { intros other Hother. rewrite lookup_insert_ne; [done|]. by intros <-. }
  assert (dir_slot (<[file := d]> dir) file = d) as Hslot by (unfold dir_slot; by rewrite lookup_insert_eq).
  unfold handle_wallet. rewrite Hdir', Hmeta', Hread'.
  rewrite (proj2 (cli_parse_address_Ok _ (derive_address secret))) by apply parse_recipient_print.
  cbn [mbind result_bind]. unfold cli_find_wallet.
  rewrite (find_wallet_unique _ _ _ _ _ names' (<[file := d]> dir) (derive_address secret) file w Hall).
  - cbn [mbind result_bind]. by rewrite Hslot, Hload.
  - unfold wallet_entry. rewrite Hslot, Hrd, Hfl, bool_decide_true by done.
    by rewrite (proj2 (Z.leb_le _ _)).
  - unfold matches, eq_ignore_ascii_case. rewrite Ha. by apply bool_decide_eq_true.
  - intros name' w' Hw' Hm'. destruct (decide (name' = file)) as [->|Hne]; [done|].
    assert (wallet_entry MAX_WALLET_SCAN_BYTES dir name' = Some w') as Hold.
    { rewrite <-Hw'. unfold wallet_entry, dir_slot. by rewrite lookup_insert_ne. }
    by rewrite (Hnone name' w' Hold) in Hm'.
Qed.

(** *** Concrete runs *)
Import Ref RefServer RefWallet RefNode.

Definition init_io1 : InitIo := {| ii_mkdir := None; ii_write := Ok (); ii_left_over := None |}.
Definition alloc1 : string := address_to_string account1 +:+ "=100000".
Definition validator1 : string := address_to_string account1 +:+ "=0a0b:5".
Definition init1 : option string * result CliError (GenesisConfig * list string) :=
  init_genesis (λ _, None) init_io1 7 1 (Some "/data") [alloc1] [validator1] false None.
#[export] Instance genesis_wf_dec g : Decision (genesis_wf g).
Proof. unfold genesis_wf, vi_wf. apply _. Defined.
Lemma init1_ok :
  match init1.2 with
  | Ok (g, _) => bool_decide (genesis_wf g) &&
      (Z.of_nat (length (encode_ledger (ledger_of 1 (genesis_state 1 (Some g)) [] ∅))) <=? MAX_LEDGER_BYTES)
  | Err _ => false
  end = true.
Proof. vm_compute. reflexivity. Qed.
Lemma init_boots_witness :
  ∃ file g lines, init1 = (file, Ok (g, lines)) ∧
    ∀ c b, nd_data_dir c = "/data" → bt_mkdir b = None → bt_genesis b = Ok <$> file →
      bt_open b = None → bt_io b = no_error →
      ∃ d' nd, bootstrap c b empty_disk = (d', Ok nd) ∧ node_chain_id nd = 1.
Proof.
  pose proof init1_ok as Hok. unfold init1 in *.
  destruct (init_genesis _ _ _ _ _ _ _ _ _) as [file r] eqn:Hrun. cbn [snd] in Hok.
  destruct r as [[g lines]|e]; [|discriminate Hok]. exists file, g, lines. split; [reflexivity|].
  intros c b Hd Hm Hg Ho Hio. apply andb_true_iff in Hok as [Hwf%bool_decide_eq_true Hlen%Z.leb_le].
  pose proof (proj2 (proj2 (proj2 (init_boots (λ _, None) init_io1 7 1 "/data" [alloc1] [validator1] false None
    file (Ok (g, lines)) Hrun) g lines eq_refl Hwf)) c b map_to_list empty_disk Hd Hm Hg) as Hb.
  rewrite andb_false_r in Hb.
  destruct (Hb (λ m, reflexivity _) eq_refl Ho Hio Hlen) as (d' & nd & Hboot & _ & Hch & _).
  exists d', nd. exact (conj Hboot Hch).
Defined.

Lemma send1_ready :
  sendable "/home/alice/wallets" (dir_io ["notes.txt"; "alice.json"]) None None dir1
    (address_to_string account1) (address_to_string (addr 1)) (addr 1) 5 "faucet password" secret1.
Proof.
  split.
  - lia.
  - apply cli_parse_address_Ok, parse_recipient_print.
  - apply cli_parse_address_Ok, parse_recipient_print.
  - apply (bool_decide_unpack _). vm_compute. exact I.
  - unfold cli_find_wallet.
    destruct (dir1_found (λ e, [Msg ("cannot read the wallet directory " +:+ "/home/alice/wallets"); FromSystem e])
      (λ e, [FromSystem e]) (λ _ e, [FromSystem e])
      [Msg ("no wallet for " +:+ address_to_string account1 +:+ " in " +:+ "/home/alice/wallets")])
      as (w & Hfind & Hload).
    exists "alice.json", w. exact (conj Hfind Hload).
Qed.
Definition sent1 : Transaction := send_tx secret1 (addr 1) 5 1 None None funded.
Lemma sent1_replies : replies_fit no_error 7 CLI_RPC_RESPONSE_BYTES funded sent1.
Proof. split; eapply bool_decide_eq_true_1; vm_compute; reflexivity. Qed.
Lemma sent1_commits :
  bool_decide (tx_chain_id sent1 = rs_chain_id funded)
  && is_ok (submit_transaction no_error 7 sent1 funded).2 = true.
Proof. by vm_compute. Qed.
Lemma funded_chain_id : is_u64 (rs_chain_id funded).
Proof. apply (bool_decide_unpack _). vm_compute. exact I. Qed.
Lemma small_u128 : is_u128 5 ∧ is_u128 1.
Proof. split; width. Qed.
Lemma send_end_to_end_witness :
  ∃ n' lines, handle_transaction (λ _, node_transport no_error 7) (λ _, EmptyString)
      (Ok "/home/alice/wallets") (dir_io ["notes.txt"; "alice.json"]) None None dir1
      (TxSend (address_to_string account1) (address_to_string (addr 1)) 5 "faucet password" 1 None None
         DEFAULT_RPC_URL) funded = (n', Ok lines) ∧ transferred funded n' sent1 (addr 1).
Proof.
  destruct (handle_transaction (λ _, node_transport no_error 7) (λ _, EmptyString)
      (Ok "/home/alice/wallets") (dir_io ["notes.txt"; "alice.json"]) None None dir1
      (TxSend (address_to_string account1) (address_to_string (addr 1)) 5 "faucet password" 1 None None
         DEFAULT_RPC_URL) funded) as [n' r] eqn:Hrun.
  pose proof (send_end_to_end no_error 7 (λ _, EmptyString) "/home/alice/wallets"
    (dir_io ["notes.txt"; "alice.json"]) None None dir1 (address_to_string account1)
    (address_to_string (addr 1)) (addr 1) 5 "faucet password" 1 None None DEFAULT_RPC_URL secret1 funded n' r
    funded_inv funded_chain_id (proj1 small_u128) (proj2 small_u128) ltac:(discriminate) ltac:(discriminate)
    send1_ready (funded_no_collision _) sent1_replies Hrun) as [Hok Hres].
  fold sent1 in Hok. rewrite sent1_commits in Hok. destruct r as [lines|e]; [|discriminate Hok].
  destruct Hres as (_ & _ & Ht). exists n', lines. exact (conj eq_refl Ht).
Defined.

Definition env1 : WalletEnv :=
  {| we_io _ := None; we_dir := dir_io ["bob.json"]; we_meta := None; we_read := None;
     we_secret := secret1; we_salt := array_repeat (byte_of 1) SALT_BYTES;
     we_nonce := array_repeat (byte_of 2) NONCE_BYTES |}.
Lemma env1_wallet w :
  from_secret secret1 "faucet password" (we_salt env1) (we_nonce env1) = Ok w →
  wallet_wf w ∧ str_len (to_json w) ≤ MAX_WALLET_FILE_BYTES.
Proof.
  assert (match from_secret secret1 "faucet password" (we_salt env1) (we_nonce env1) with
          | Ok w => bool_decide (wallet_wf w) && (str_len (to_json w) <=? MAX_WALLET_FILE_BYTES)
          | Err _ => false end = true) as Hok by (vm_compute; reflexivity).
  intros Hw. rewrite Hw in Hok. apply andb_true_iff in Hok as [Hwf%bool_decide_eq_true Hlen%Z.leb_le].
  by split.
Qed.
Lemma env1_creates :
  (handle_wallet env1 "/w" (WalletNew "faucet password" (Some "bob")) ∅).2
  = Ok ["Created wallet " +:+ address_to_string account1; "  file: " +:+ "/w/bob.json"] ∧
  bool_decide (dom (handle_wallet env1 "/w" (WalletNew "faucet password" (Some "bob")) ∅).1
               = {["bob.json"]}) = true.
Proof. vm_compute. by split. Qed.
Lemma wallet_create_export_witness :
  ∃ dir' lines, handle_wallet env1 "/w" (WalletNew "faucet password" (Some "bob")) ∅ = (dir', Ok lines) ∧
    handle_wallet env1 "/w" (WalletExport (address_to_string (derive_address secret1)) "faucet password") dir'
    = (dir', Ok ["0x" +:+ hex_encode (array_bytes secret1)]).
Proof.
  destruct env1_creates as [Hok Hdom].
  destruct (handle_wallet env1 "/w" (WalletNew "faucet password" (Some "bob")) ∅) as [dir' r] eqn:Hrun.
  cbn [fst snd] in Hok, Hdom. subst r. apply bool_decide_eq_true in Hdom. eexists dir', _. split; [reflexivity|].
  refine (proj2 (wallet_create_export env1 env1 ["bob.json"] ["bob.json"] "/w"
    (WalletNew "faucet password" (Some "bob")) secret1 "faucet password" ∅ dir' _ _ _ _ env1_wallet _ Hrun _ _)).
  - split_and!; [intros op; reflexivity|reflexivity..].
  - apply map_Forall_empty.
  - split; reflexivity.
  - intros name w Hw. unfold wallet_entry, dir_slot in Hw. rewrite lookup_empty in Hw.
    destruct (_ && _) in Hw; discriminate Hw.
  - split_and!; [intros op; reflexivity|reflexivity..].
  - intros name Hin. apply elem_of_dom in Hin. rewrite Hdom in Hin. apply elem_of_singleton in Hin as ->. left.
Defined.
