(* ===== verification/Bench.v ===== *)
(** * The benchmark client

    [crates/subhost-bench/src/main.rs]: its parameter checks, the request it
    issues, the probe, the worker loops of the three modes as steps of a system
    whose clock is an input and whose requests go to a server that others use as
    well, and the report. The latency histogram (hdrhistogram) and floating point are
    interfaces. *)

From Stdlib Require Import String.
From S2P Require Import Prelude Order Text Deps Bincode Core WorldState Mempool Storage Rpc RpcApi Client Observe Node.

Definition DEFAULT_ENDPOINT : string := "http://127.0.0.1:8545".
Inductive BenchCommand := Tps | Latency | Load (pace_ms : Z).
Record BenchCli := {
  bc_command : BenchCommand;
  bc_endpoint : string;
  bc_duration_secs : Z;
  bc_concurrency : nat;
  bc_timeout_secs : Z
}.
Record Outcome := { oc_successes : Z; oc_failures : Z }.

Definition bench_validate (c : BenchCli) : result string unit :=
  _ ← fail_if (bool_decide (bc_concurrency c = 0%nat)) "concurrency must be greater than zero";
  _ ← fail_if (bc_duration_secs c =? 0) "duration must be greater than zero";
  _ ← fail_if (bc_timeout_secs c =? 0) "timeout must be greater than zero";
  fail_if (negb (starts_with "http://" (bc_endpoint c)) && negb (starts_with "https://" (bc_endpoint c)))
    "endpoint must be an http(s) URL".

Section requests.
Context `{!SerdeJson Value} {W : Type} (post : Transport W) (show : Value → string).

(** [request]: the body is not bounded, so it is read to its end. *)
Definition bench_request (method : string) (params : list Value) : ST W string Value := λ w,
  match post method params w with
  | (w, Err e) => (w, Err e)
  | (w, Ok response) =>
      (w, _ ← fail_if (negb (error_for_status (hr_code response))) (hr_status response);
          raw ← read_chunks EmptyString id u64_max [] (hr_chunks response);
          body ← from_json (bytes_str raw);
          match value_get "error" body with
          | Some error => Err (method +:+ " failed: " +:+ show error)
          | None => Ok body
          end)
  end.
Definition probe (endpoint : string) : ST W string unit :=
  response ← st_map_err (λ e, "cannot reach the endpoint at " +:+ endpoint +:+ ": " +:+ e)
               (bench_request "eth_chainId" []);
  st_fail_if (bool_decide (value_get "result" response = None))
    ("endpoint " +:+ endpoint +:+ " did not answer eth_chainId with a result").
End requests.

(** ** The latency histogram *)

(** What the code uses of [hdrhistogram::Histogram<u64>]; [hist_record] also tells
    whether the value was refused. *)
Class HdrHistogram `{!F64} := {
  Histogram : Type;
  hist_new_with_bounds : Z → Z → Z → result string Histogram;
  hist_record : Z → Histogram → Histogram * bool;
  hist_high : Histogram → Z;
  hist_len : Histogram → Z;
  hist_min : Histogram → Z;
  hist_max : Histogram → Z;
  hist_mean : Histogram → f64;
  hist_value_at_percentile : Z → Histogram → Z
}.
(** A histogram with bounds is created empty and tracks every value up to its upper
    bound; recording a value adds it or refuses it. *)
Class HdrHistogramLaws `{!F64, !HdrHistogram} : Prop := {
  hist_new_empty low high figures h :
    hist_new_with_bounds low high figures = Ok h → hist_len h = 0 ∧ hist_high h = high;
  hist_record_tracked v h : v ≤ hist_high h → (hist_record v h).2 = true;
  hist_record_len v h :
    hist_len (hist_record v h).1 = hist_len h + (if (hist_record v h).2 then 1 else 0) ∧
    hist_high (hist_record v h).1 = hist_high h
}.
(** What the report does with floating point: seconds of a duration in microseconds,
    [max(f64::MIN_POSITIVE)], quotients and [{:.2}]. *)
Class FloatReport `{!F64} := {
  secs_f64 : Z → f64;
  at_least_min_positive : f64 → f64;
  f64_div : f64 → f64 → f64;
  f64_mul : f64 → f64 → f64;
  fmt_2 : f64 → string
}.

(** ** Workers *)

(** [AtomicU64::fetch_add(1)] *)
Definition fetch_add_one (x : Z) : Z := (x + 1) mod (u64_max + 1).
(** The pause of one worker between requests, in microseconds: none unless the load
    is paced. *)
Definition worker_pace (command : BenchCommand) (index : nat) : Z :=
  match command with Load pace_ms => (pace_ms + Z.of_nat index `mod` 50) * 1000 | _ => 0 end.
(** [format!("0x{counter:040x}")]: the address a paced worker asks for. *)
Definition load_address (n : Z) : string :=
  let digits := fmt_hex n in
  "0x" +:+ bytes_str (repeat (byte_of 48) (40 - String.length digits)) +:+ digits.
(** The request a worker makes after [n] others; its counter wraps around. *)
Definition worker_request (command : BenchCommand) (n : nat) : string * list Value :=
  match command with
  | Load _ => ("eth_getBalance",
               [VString (load_address (Z.of_nat n `mod` (u64_max + 1))); VString "latest"])
  | _ => ("eth_chainId", [])
  end.

Section run.
Context `{!F64, !HdrHistogram}.

(** What the workers share and, per worker, the time it last looked at the clock and
    the requests it has made. *)
Record BenchRun := {
  br_successes : Z;
  br_failures : Z;
  (** In the latency mode only. *)
  br_histogram : option Histogram;
  br_clock : gmap nat Z;
  br_requests : gmap nat nat
}.
(** 1 microsecond to 60 s at three significant figures. *)
Definition latency_histogram (command : BenchCommand) : result string (option Histogram) :=
  match command with
  | Latency => Some <$> map_err (λ e, "cannot build the histogram: " +:+ e) (hist_new_with_bounds 1 60000000 3)
  | _ => Ok None
  end.
Definition run_start (histogram : option Histogram) (started : Z) (concurrency : nat) : BenchRun :=
  {| br_successes := 0; br_failures := 0; br_histogram := histogram;
     br_clock := gset_to_gmap started (list_to_set (seq 0 concurrency));
     br_requests := gset_to_gmap 0%nat (list_to_set (seq 0 concurrency)) |}.
(** The outcome of a request that took [elapsed] microseconds: the latency mode
    records a success in the histogram and ignores a refusal. *)
Definition count (command : BenchCommand) (ok : bool) (elapsed : Z) (r : BenchRun) : BenchRun :=
  let r' successes failures histogram :=
    {| br_successes := successes; br_failures := failures; br_histogram := histogram;
       br_clock := br_clock r; br_requests := br_requests r |} in
  if ok then
    match command with
    | Latency => r' (br_successes r) (br_failures r)
                   ((λ h, (hist_record (Z.max (Z.min elapsed u64_max) 1) h).1) <$> br_histogram r)
    | _ => r' (fetch_add_one (br_successes r)) (br_failures r) (br_histogram r)
    end
  else r' (br_successes r) (fetch_add_one (br_failures r)) (br_histogram r).
Definition turn (i : nat) (finished : Z) (n : nat) (r : BenchRun) : BenchRun :=
  {| br_successes := br_successes r; br_failures := br_failures r; br_histogram := br_histogram r;
     br_clock := <[i := finished]> (br_clock r); br_requests := <[i := n]> (br_requests r) |}.
(** One iteration of worker [i]: it sees [now] before the deadline, sleeps for its
    pace, sends its request at [sent] to a server that others have moved on in the
    meantime, and has the outcome at [finished]; the client gives up on a request
    after [timeout]. *)
Inductive bench_step `{!SerdeJson Value} {W : Type} (post : Transport W) (show : Value → string)
    (others : W → W → Prop) (command : BenchCommand) (timeout deadline : Z)
  : W * BenchRun → W * BenchRun → Prop :=
| worker_turn i w w1 w2 r last n now sent finished outcome :
    br_clock r !! i = Some last → br_requests r !! i = Some n →
    last ≤ now → now < deadline → now + worker_pace command i ≤ sent → sent ≤ finished →
    rtc others w w1 →
    bench_request post show (worker_request command n).1 (worker_request command n).2 w1 = (w2, outcome) →
    (is_ok outcome = true → finished - sent ≤ timeout) →
    bench_step post show others command timeout deadline (w, r)
      (w2, turn i finished (S n) (count command (is_ok outcome) (finished - sent) r)).
(** What a finished run reports. *)
Definition bench_outcome (command : BenchCommand) (r : BenchRun) : Outcome :=
  {| oc_successes := match command with
                     | Latency => from_option hist_len 0 (br_histogram r)
                     | _ => br_successes r
                     end;
     oc_failures := br_failures r |}.

(** ** The report *)

Context `{!FloatReport}.
Definition report (label : string) (elapsed : Z) (o : Outcome) : list string :=
  let seconds := at_least_min_positive (secs_f64 elapsed) in
  let total := oc_successes o + oc_failures o in
  [EmptyString;
   label +:+ " results:";
   "  elapsed:     " +:+ fmt_2 (secs_f64 elapsed) +:+ "s";
   "  successes:   " +:+ fmt_dec (oc_successes o);
   "  failures:    " +:+ fmt_dec (oc_failures o);
   "  throughput:  " +:+ fmt_2 (f64_div (f64_of (oc_successes o)) seconds) +:+ " successful req/s"]
  ++ (if 0 <? total then
        ["  error rate:  "
         +:+ fmt_2 (f64_mul (f64_div (f64_of (oc_failures o)) (f64_of total)) (f64_of 100)) +:+ "%"]
      else []).
Definition latency_summary (h : Histogram) : list string :=
  if hist_len h =? 0 then ["  no successful requests to summarize"]
  else ["  min:  " +:+ fmt_dec (hist_min h) +:+ " µs";
        "  mean: " +:+ fmt_2 (hist_mean h) +:+ " µs";
        "  p50:  " +:+ fmt_dec (hist_value_at_percentile 50 h) +:+ " µs";
        "  p95:  " +:+ fmt_dec (hist_value_at_percentile 95 h) +:+ " µs";
        "  p99:  " +:+ fmt_dec (hist_value_at_percentile 99 h) +:+ " µs";
        "  max:  " +:+ fmt_dec (hist_max h) +:+ " µs"].
(** [throughput], [latency] and [load] once the workers have been joined: [joined] is
    the panic of a worker, if any. *)
Definition bench_report (command : BenchCommand) (joined : option string) (elapsed : Z) (r : BenchRun)
  : result string (list string) :=
  match joined with
  | Some e => Err ("a benchmark worker panicked: " +:+ e)
  | None =>
      Ok match command with
         | Tps => report "Throughput" elapsed (bench_outcome command r)
         | Latency => report "Latency" elapsed (bench_outcome command r)
                      ++ from_option latency_summary [] (br_histogram r)
         | Load _ => report "Load" elapsed (bench_outcome command r)
         end
  end.
(** [main] and [run]: [build] is the error of the HTTP client builder, if any, and
    [measure] the workers' run, which begins only after the probe. *)
Definition bench_main `{!SerdeJson Value} {W : Type} (post : Transport W) (show : Value → string)
    (build joined : option string) (measure : option Histogram → W → W * (Z * BenchRun)) (c : BenchCli)
  : ST W string (list string) :=
  _ ← st_lift (bench_validate c);
  _ ← match build with
      | Some e => st_lift (Err ("cannot build the HTTP client: " +:+ e))
      | None => mret ()
      end;
  _ ← probe post show (bc_endpoint c);
  histogram ← st_lift (latency_histogram (bc_command c));
  '(elapsed, r) ← (λ w, let '(w', m) := measure histogram w in (w', Ok m));
  lines ← st_lift (bench_report (bc_command c) joined elapsed r);
  mret (["endpoint:    " +:+ bc_endpoint c;
         "duration:    " +:+ fmt_dec (bc_duration_secs c) +:+ "s";
         "concurrency: " +:+ fmt_dec (Z.of_nat (bc_concurrency c))] ++ lines).
End run.

(** ** What a run counts *)

Section counting.
Context `{!F64, !HdrHistogram, !HdrHistogramLaws}.
Lemma fresh_histogram command histogram :
  latency_histogram command = Ok histogram →
  from_option hist_len 0 histogram = 0 ∧ (∀ h, histogram = Some h → hist_high h = 60000000) ∧
  (command = Latency → is_Some histogram).
Proof.
  unfold latency_histogram. destruct command; try by intros [= <-].
  cbv [fmap result_fmap]. destruct (hist_new_with_bounds 1 60000000 3) as [h|] eqn:Hh; [|done].
  intros [= <-]. destruct (hist_new_empty _ _ _ _ Hh) as [Hl Hhigh].
  split_and!; [done|by intros ? [= <-]|by eexists].
Qed.
(** After [k] turns: every failure and every success within the histogram's range
    has been counted. *)
Record tallied (command : BenchCommand) (timeout : Z) (k : nat) (r : BenchRun) : Prop := {
  ta_range : 0 ≤ oc_successes (bench_outcome command r) ∧ 0 ≤ br_failures r ∧ 0 ≤ br_successes r;
  ta_sum : oc_successes (bench_outcome command r) + br_failures r ≤ Z.of_nat k;
  ta_exact : (command = Latency → timeout ≤ 60000000) →
    oc_successes (bench_outcome command r) + br_failures r = Z.of_nat k;
  ta_high h : br_histogram r = Some h → hist_high h = 60000000;
  ta_some : command = Latency → is_Some (br_histogram r)
}.
Lemma tallied_start command timeout started concurrency histogram :
  latency_histogram command = Ok histogram →
  tallied command timeout 0 (run_start histogram started concurrency).
Proof.
  intros (Hl & Hh & Hs)%fresh_histogram. unfold run_start.
  split; simpl; try done; destruct command; simpl; rewrite ?Hl; lia.
Qed.
Context `{!SerdeJson Value} {W : Type} (post : Transport W) (show : Value → string)
  (others : W → W → Prop).
Notation bstep := (bench_step post show others).
Lemma tallied_count command timeout k i finished n ok elapsed r :
  Z.of_nat (S k) ≤ u64_max → (ok = true → elapsed ≤ timeout) → tallied command timeout k r →
  tallied command timeout (S k) (turn i finished n (count command ok elapsed r)).
Proof.
  intros Hk Hto [Hr Hs He Hh Hsome].
  assert (∀ x, 0 ≤ x ≤ Z.of_nat k → fetch_add_one x = x + 1) as Hadd.
  { intros x Hx. unfold fetch_add_one. apply Z.mod_small. lia. }
  destruct ok; simpl in *.
  2: { destruct command; simpl in *; split; simpl; rewrite ?Hadd by lia; try done; try lia;
         intros Ht; specialize (He Ht); lia. }
  destruct command; simpl in *.
  1,3: split; simpl; rewrite ?Hadd by lia; try done; try lia; intros _; specialize (He ltac:(done)); lia.
  destruct (Hsome eq_refl) as [h Hbr]. rewrite Hbr in *. simpl in *.
  set (v := Z.max (Z.min elapsed u64_max) 1).
  destruct (hist_record_len v h) as [Hlen Hhi]. specialize (Hh h eq_refl).
  split; simpl; rewrite ?Hlen; try done.
  - destruct (hist_record v h).2; lia.
  - destruct (hist_record v h).2; lia.
  - intros Ht. rewrite (hist_record_tracked v h); [specialize (He Ht); lia|].
    specialize (Ht eq_refl). specialize (Hto eq_refl). rewrite Hh. unfold v. lia.
  - intros h' [= <-]. congruence.
Qed.
(** Induction on the turns of a run. *)
Lemma bench_ind (P : nat → W → BenchRun → Prop) command timeout deadline w0 r0 k w r :
  P 0%nat w0 r0 →
  (∀ j w r w' r', P j w r → bstep command timeout deadline (w, r) (w', r') → (S j ≤ k)%nat → P (S j) w' r') →
  nsteps (bstep command timeout deadline) k (w0, r0) (w, r) → P k w r.
Proof.
  intros Hbase Hs. revert w r. induction k as [|k IH]; intros w r Hk.
  - by inversion Hk; subst.
  - apply nsteps_inv_r in Hk as ([w1 r1] & Hk & Hstep). eapply Hs; [|done|done]. apply IH; [|done].
    intros j ????? Hst Hj. eapply Hs; [done..|lia].
Qed.
Lemma tallied_run command timeout started deadline concurrency histogram k w w' r :
  latency_histogram command = Ok histogram →
  nsteps (bstep command timeout deadline) k (w, run_start histogram started concurrency) (w', r) →
  Z.of_nat k ≤ u64_max → tallied command timeout k r.
Proof.
  intros Hfresh Hk Hmax. eapply (bench_ind (λ j _ r, tallied command timeout j r)); [| |exact Hk].
  - by apply tallied_start.
  - intros j v x v' x' Ht Hstep Hj. inversion Hstep; subst. apply tallied_count; [lia|done|done].
Qed.

(** A worker that has made [n] requests has slept [n] times since the start, and
    began the last of them before the deadline. *)
Definition paced (command : BenchCommand) (started deadline : Z) (r : BenchRun) : Prop :=
  ∀ i last n, br_clock r !! i = Some last → br_requests r !! i = Some n →
    Z.of_nat n * worker_pace command i ≤ last - started ∧
    (n ≠ 0%nat → (Z.of_nat n - 1) * worker_pace command i < deadline - started).
Lemma count_clock command ok elapsed (r : BenchRun) :
  br_clock (count command ok elapsed r) = br_clock r ∧
  br_requests (count command ok elapsed r) = br_requests r.
Proof. by destruct ok, command. Qed.
Lemma paced_turn command started deadline i r last n now finished ok elapsed :
  br_clock r !! i = Some last → br_requests r !! i = Some n →
  last ≤ now → now < deadline → now + worker_pace command i ≤ finished →
  paced command started deadline r →
  paced command started deadline (turn i finished (S n) (count command ok elapsed r)).
Proof.
  intros Hc Hn Hl Hd Hf Hp j last' n'. simpl.
  destruct (count_clock command ok elapsed r) as [-> ->]. destruct (decide (i = j)) as [<-|Hne].
  - rewrite !lookup_insert_eq. intros [= <-] [= <-]. destruct (Hp i last n Hc Hn) as [Hlo _]. lia.
  - rewrite !lookup_insert_ne by done. apply Hp.
Qed.
Lemma paced_run command timeout started deadline concurrency histogram k w w' r :
  nsteps (bstep command timeout deadline) k (w, run_start histogram started concurrency) (w', r) →
  paced command started deadline r.
Proof.
  intros Hk. eapply (bench_ind (λ _ _ r, paced command started deadline r)); [| |exact Hk].
  - intros i last n [_ <-]%lookup_gset_to_gmap_Some [_ <-]%lookup_gset_to_gmap_Some. lia.
  - intros j v x v' x' Hp Hstep _. inversion Hstep; subst. eapply paced_turn; [done..|lia|done].
Qed.
End counting.

(** Whatever the server answers, a run of [k] requests reports at most [k] outcomes, and exactly [k] unless the
    latency mode allows requests longer than its histogram's range; under paced load
    no worker makes more requests than its pace leaves room for before the deadline. *)
Theorem bench_counts `{!F64, !HdrHistogram, !HdrHistogramLaws, !SerdeJson Value} {W : Type}
    (post : Transport W) (show : Value → string) (others : W → W → Prop) (command : BenchCommand)
    (timeout started deadline : Z) (concurrency k : nat) (histogram : option Histogram)
    (w w' : W) (r : BenchRun) :
  latency_histogram command = Ok histogram →
  nsteps (bench_step post show others command timeout deadline) k
    (w, run_start histogram started concurrency) (w', r) →
  Z.of_nat k ≤ u64_max →
  let o := bench_outcome command r in
  oc_successes o + oc_failures o ≤ Z.of_nat k ∧
  ((command = Latency → timeout ≤ 60000000) → oc_successes o + oc_failures o = Z.of_nat k) ∧
  (∀ i n last, br_clock r !! i = Some last → br_requests r !! i = Some n → 0 < worker_pace command i →
     Z.of_nat n ≤ Z.max 0 (deadline - started) / worker_pace command i + 1).
Proof.
  intros Hf Hk Hmax o. pose proof (tallied_run _ _ _ _ _ _ _ _ _ _ _ _ _ Hf Hk Hmax) as T.
  split_and!; [apply T|apply T|]. intros i n last Hc Hn Hp.
  destruct (paced_run _ _ _ _ _ _ _ _ _ _ _ _ _ Hk i last n Hc Hn) as [_ Hlast]. destruct n as [|n].
  { pose proof (Z.div_pos (Z.max 0 (deadline - started)) (worker_pace command i) ltac:(lia) Hp). lia. }
  specialize (Hlast ltac:(lia)).
  assert (Z.of_nat n ≤ Z.max 0 (deadline - started) / worker_pace command i); [|lia].
  apply Z.div_le_lower_bound; [done|]. replace (Z.of_nat (S n) - 1) with (Z.of_nat n) in Hlast by lia. lia.
Qed.

(** A JSON-RPC error object is a failure, whatever the HTTP status says. *)
Lemma error_object_fails `{!SerdeJson Value} {W} (post : Transport W) show method params w w' r response raw body e :
  post method params w = (w', Ok response) → hr_chunks response = [Ok raw] →
  Z.of_nat (length raw) ≤ u64_max → from_json (bytes_str raw) = Ok body → value_get "error" body = Some e →
  bench_request post show method params w = (w', r) → is_ok r = false.
Proof.
  intros Hp Hc Hl Hj He. unfold bench_request. rewrite Hp. intros [= <-].
  destruct (fail_if _ _); [|done]. rewrite Hc. simpl. unfold saturating_add.
  rewrite (proj2 (Z.ltb_ge _ _)) by lia. simpl. by rewrite Hj; simpl; rewrite He.
Qed.

(** ** Measuring a node *)

Section node.
Context `{!Blake3, !Hex, !HexLaws, !Ed25519, !Ed25519Laws, !Serialize Transaction, !Serialize BlockHeader,
  !Serialize (list Hash), !Serialize (Hash * Z * Z * Z), !Serialize StateSnapshot,
  !Serialize LedgerSnapshot, !Deserialize LedgerSnapshot, !Serialize LedgerEnvelope,
  !Deserialize LedgerEnvelope, !SerdeJson Value, !JsonRpc, !JsonRpcLaws}.
Context (io : FsOp → option string) (clock : Z) (show : Value → string).

(** What a paced worker asks for is an address. *)
Lemma load_address_parses n : is_u64 n → ∃ a, parse_address (load_address n) = Ok a.
Proof.
  intros Hn. assert (String.length (fmt_hex n) ≤ 16)%nat as Hl
    by (apply fmt_hex_length; [simpl; width|lia]).
  destruct (fmt_hex_strict n ltac:(width)) as (_ & _ & Hhex).
  unfold load_address. set (digits := fmt_hex n) in *.
  set (s := bytes_str (repeat (byte_of 48) (40 - String.length digits)) +:+ digits).
  assert (str_len s = 40) as Hs.
  { unfold s. rewrite str_len_app. unfold str_len. rewrite bytes_str_length, repeat_length. lia. }
  assert (str_all is_ascii_hexdigit s = true) as Hall.
  { unfold s. rewrite str_all_app, Hhex, andb_true_r. unfold str_all. rewrite str_bytes_str.
    generalize (40 - String.length digits)%nat. intros k. induction k; [done|done]. }
  destruct (hex_decode_total s 20 Hs Hall) as [b Hb].
  assert (length b = ADDRESS_SIZE) as Hlen by (apply hex_decode_length in Hb; rewrite Hs in Hb; unfold ADDRESS_SIZE; lia).
  unfold parse_address. rewrite str_len_app, Hs. simpl. unfold address_from_hex.
  rewrite strip_prefix_app. simpl. rewrite Hb. simpl.
  unfold to_array. destruct (decide _) as [|Hne]; [by eexists|done].
Qed.
(** A body without a bound is read to its end. *)
Lemma read_all {E} (big : E) rd body chunks :
  read_chunks big rd u64_max body (map Ok chunks) = Ok (body ++ chunk_bytes chunks).
Proof.
  revert body. induction chunks as [|c chunks IH]; intros body; simpl; [by rewrite app_nil_r|].
  rewrite (proj2 (Z.ltb_ge _ _)) by (unfold saturating_add; lia). by rewrite IH, <-(assoc_L (++)).
Qed.
(** A query the node answers is a success, and leaves the node alone. *)
Lemma request_node method f params n v :
  assoc method (build_module io clock) = Some (λ params, query (f params)) →
  f (Some params) n = Ok v → json_ok v = true → str_len (to_json v) ≤ MAX_RESULT_BYTES →
  ∃ body, bench_request (node_transport io clock) show method params n = (n, Ok body).
Proof.
  intros Hm Hq Hv Hsize. unfold bench_request, node_transport. rewrite Hm. unfold query. rewrite Hq.
  destruct (jr_result v Hv Hsize) as (body & Hj & He & _). exists body. f_equal.
  rewrite jr_status. cbn [error_for_status negb fail_if mbind result_bind].
  destruct (jr_complete (Ok v)) as [chunks Hc]. unfold reply_bytes in Hj.
  rewrite Hc, omap_res_ok in Hj. rewrite Hc, read_all. simpl. by rewrite Hj; simpl; rewrite He.
Qed.
Hypothesis quantities_fit : ∀ x, is_u128 x → str_len (to_json (json_quantity x)) ≤ MAX_RESULT_BYTES.
Lemma worker_request_node command k n :
  node_inv n → is_u64 (rs_chain_id n) →
  ∃ body, bench_request (node_transport io clock) show (worker_request command k).1
            (worker_request command k).2 n = (n, Ok body).
Proof.
  intros I Hc. assert (∃ body, bench_request (node_transport io clock) show "eth_chainId" [] n = (n, Ok body))
    as Hchain.
  { by apply (request_node "eth_chainId" (λ _, eth_chainId) [] n (json_quantity (rs_chain_id n)));
      [..|apply quantities_fit; width]. }
  destruct command as [| |pace_ms]; [done|done|]. unfold worker_request. cbn [fst snd].
  set (x := Z.of_nat k `mod` (u64_max + 1)).
  assert (is_u64 x) as Hx by (pose proof (Z.mod_pos_bound (Z.of_nat k) (u64_max + 1) ltac:(done)); unfold x; width).
  destruct (load_address_parses x Hx) as [a Ha].
  apply (request_node "eth_getBalance" eth_getBalance _ n (json_quantity (rpc_balance n a)));
    [done| |done|by apply quantities_fit, balance_width].
  unfold eth_getBalance. cbn [next_string mbind result_bind]. by rewrite Ha.
Qed.
End node.

(** A benchmark of a node in operation reports no failure. While its workers ask,
    other clients may take the node through any steps; every request of every mode
    succeeds and changes nothing, so the successes are all the requests made, within
    the range of the histogram. *)
Theorem bench_against_node `{!Blake3, !Hex, !HexLaws, !Ed25519, !Ed25519Laws, !Serialize Transaction,
    !Serialize BlockHeader, !Serialize (list Hash), !Serialize (Hash * Z * Z * Z),
    !Serialize StateSnapshot, !Serialize LedgerSnapshot, !Deserialize LedgerSnapshot,
    !Serialize LedgerEnvelope, !Deserialize LedgerEnvelope, !BincodeLaws LedgerSnapshot ledger_wf,
    !BincodeLaws LedgerEnvelope envelope_wf, !SerdeJson Value, !JsonRpc, !JsonRpcLaws,
    !F64, !HdrHistogram, !HdrHistogramLaws}
    (io : FsOp → option string) (clock : Z) (show : Value → string) (command : BenchCommand)
    (timeout started deadline : Z) (concurrency k : nat) (histogram : option Histogram)
    (n n' : RpcState) (r : BenchRun) :
  (∀ x, is_u128 x → str_len (to_json (json_quantity x)) ≤ MAX_RESULT_BYTES) →
  node_inv n → is_u64 (rs_chain_id n) → latency_histogram command = Ok histogram →
  nsteps (bench_step (node_transport io clock) show node_step command timeout deadline) k
    (n, run_start histogram started concurrency) (n', r) →
  Z.of_nat k ≤ u64_max →
  let o := bench_outcome command r in
  rtc node_step n n' ∧ oc_failures o = 0 ∧
  ((command = Latency → timeout ≤ 60000000) → oc_successes o = Z.of_nat k).
Proof.
  intros Hfit I Hc Hf Hk Hmax o. pose proof (tallied_run _ _ _ _ _ _ _ _ _ _ _ _ _ Hf Hk Hmax) as T.
  assert (rtc node_step n n' ∧ br_failures r = 0) as [Hn Hz].
  { eapply (bench_ind _ _ _ (λ _ w r, rtc node_step n w ∧ br_failures r = 0)); [| |exact Hk]; [done|].
    intros j w x w' x' [Hw Hz] Hstep _. inversion Hstep as [i ? w1 w2 ? ? m ???? _ _ _ _ _ _ Ho Hreq]; subst.
    assert (rtc node_step n w1) as Hw1 by (by etrans).
    destruct (node_steps_store _ _ _ Hw1 I) as (I1 & Hs1 & _).
    assert (is_u64 (rs_chain_id w1)) as Hc1 by (by rewrite <-(ni_store _ _ I1), Hs1, (ni_store _ _ I)).
    destruct (worker_request_node io clock show Hfit command m w1 I1 Hc1) as [body Hb].
    rewrite Hb in Hreq. injection Hreq as <- <-. split; [exact Hw1|]. by destruct command. }
  split; [done|]. split; [done|]. intros Ht. pose proof (ta_exact _ _ _ _ T Ht) as He.
  rewrite Hz in He. unfold o. lia.
Qed.

(** *** A histogram that keeps its values *)
Module RefBench.
#[export] Instance whole_f64 : F64 :=
  {| f64 := Z; f64_of x := x; f64_is_finite _ := true; f64_ge_zero x := 0 <=? x |}.
#[export] Instance list_histogram : HdrHistogram := {|
  Histogram := Z * list Z;
  hist_new_with_bounds low high figures := Ok (high, []);
  hist_record v h := if v <=? h.1 then ((h.1, v :: h.2), true) else (h, false);
  hist_high h := h.1;
  hist_len h := Z.of_nat (length h.2);
  hist_min h := foldr Z.min h.1 h.2;
  hist_max h := foldr Z.max 0 h.2;
  hist_mean h := foldr Z.add 0 h.2 `div` Z.max 1 (Z.of_nat (length h.2));
  hist_value_at_percentile p h := default 0 (head h.2) |}.
#[export] Instance list_histogram_laws : HdrHistogramLaws.
Proof.
  split.
  - intros low high figures h [= <-]. done.
  - intros v h Hv. simpl in *. by rewrite (proj2 (Z.leb_le _ _)).
  - intros v [high l]. simpl. destruct (v <=? high); simpl; lia.
Qed.
End RefBench.
Import RefBench.

Definition latency_start : BenchRun := run_start (Some (60000000, [])) 0 1.
(** A server that answers every call with this body. *)
Definition answering `{!SerdeJson Value} (body : Value) : Transport unit := λ _ _ w,
  (w, Ok {| hr_code := 200; hr_status := "200 OK"; hr_content_length := None;
            hr_chunks := [Ok (str_bytes (to_json body))] |}).
(** The first turn of the only worker of a latency run. *)
Lemma latency_turn timeout finished :
  0 ≤ finished ≤ timeout →
  bench_step (answering (VObject [("result", VNull)])) (λ _, EmptyString) (λ _ _, False) Latency timeout 5
    ((), latency_start) ((), turn 0 finished 1 (count Latency true finished latency_start)).
Proof.
  intros Hf. pose proof (worker_turn (answering (VObject [("result", VNull)])) (λ _, EmptyString)
    (λ _ _, False) Latency timeout 5 0 () () () latency_start 0 0 0 0 finished
    (Ok (VObject [("result", VNull)]))) as Hturn.
  rewrite Z.sub_0_r in Hturn. apply Hturn; try done; lia.
Qed.
Lemma latency_counts_witness :
  ∃ r, bench_step (answering (VObject [("result", VNull)])) (λ _, EmptyString) (λ _ _, False) Latency
         10000000 5 ((), latency_start) ((), r) ∧
    bench_outcome Latency r = {| oc_successes := 1; oc_failures := 0 |}.
Proof. eexists. split; [by apply (latency_turn 10000000 2000)|]. by vm_compute. Qed.
(** With a timeout beyond the histogram's range, a slow request that succeeds is
    counted neither as a success nor as a failure. *)
Lemma slow_success_uncounted :
  ∃ r, bench_step (answering (VObject [("result", VNull)])) (λ _, EmptyString) (λ _ _, False) Latency
         90000000 5 ((), latency_start) ((), r) ∧
    bench_outcome Latency r = {| oc_successes := 0; oc_failures := 0 |}.
Proof. eexists. split; [by apply (latency_turn 90000000 70000000)|]. by vm_compute. Qed.
