(* ===== verification/Spec.v ===== *)
(** * What the node promises: an append-only ledger

    The abstract contract of a node, and the proof that the node of [Rpc] keeps
    it. The specification is a log: genesis balances and the list of committed
    transfers. Balances, nonces and receipts are functions of the log. The node
    refines it: every operation of the running node, restarts included, is an
    append, a change of the genesis balances, or leaves the log alone; where
    accounts are seeded only before the first block, as [Node::bootstrap] does, the
    genesis balances change only while the log is empty. The threads of the server refine it too: what a query
    reads in the middle of a commit is the log before the append or after it. *)

From S2P Require Import Prelude Order Text Deps Bincode Core WorldState Mempool Storage Rpc RpcApi Interleave Concurrent Observe Node.

Record Ledger := {
  lg_genesis : Address → Z;
  lg_history : list Transaction
}.
(** Who a transfer pays; a transaction without a recipient is never in a log. *)
Definition payee (tx : Transaction) : Address := default (tx_from tx) (tx_to tx).
Definition ledger_balance (l : Ledger) (a : Address) : Z :=
  foldl (λ acc tx, acc + moved tx (payee tx) a) (lg_genesis l a) (lg_history l).
Definition ledger_nonce (l : Ledger) (a : Address) : Z :=
  Z.of_nat (length (filter (λ tx, tx_from tx = a) (lg_history l))).
Definition append (tx : Transaction) (l : Ledger) : Ledger :=
  {| lg_genesis := lg_genesis l; lg_history := lg_history l ++ [tx] |}.
(** A transfer the log may be extended with. *)
Record appendable (chain_id : Z) (l : Ledger) (tx : Transaction) : Prop := {
  ad_type : tx_type tx = Transfer;
  ad_chain : tx_chain_id tx = chain_id;
  ad_payee : is_Some (tx_to tx);
  ad_nonce : tx_nonce tx = ledger_nonce l (tx_from tx);
  ad_funds : tx_value tx + tx_gas_price tx * tx_gas_limit tx ≤ ledger_balance l (tx_from tx);
  ad_credit : tx_from tx = payee tx ∨ ledger_balance l (payee tx) + tx_value tx ≤ u128_max
}.
(** [late] allows the genesis balances to change after the first transfer. *)
Definition minted (genesis : Address → Z) (l : Ledger) : Ledger :=
  {| lg_genesis := genesis; lg_history := lg_history l |}.
Inductive ledger_step_at (late : bool) (chain_id : Z) (durable : bool) : Ledger → Ledger → Prop :=
| ledger_append l tx :
    appendable chain_id l tx → ledger_step_at late chain_id durable l (append tx l)
| ledger_mint l genesis :
    (late = false → lg_history l = []) → (∀ a, is_u128 (ledger_balance (minted genesis l) a)) →
    ledger_step_at late chain_id durable l (minted genesis l)
| ledger_stay l : ledger_step_at late chain_id durable l l
| ledger_forget l :
    durable = false →
    ledger_step_at late chain_id durable l {| lg_genesis := λ _, 0; lg_history := [] |}.
Notation ledger_step := (ledger_step_at false).

Lemma ledger_balance_append l tx a :
  ledger_balance (append tx l) a = ledger_balance l a + moved tx (payee tx) a.
Proof. unfold ledger_balance. simpl. by rewrite foldl_app. Qed.
Lemma ledger_nonce_append l tx a :
  ledger_nonce (append tx l) a = ledger_nonce l a + (if decide (a = tx_from tx) then 1 else 0).
Proof.
  unfold ledger_nonce. simpl. rewrite filter_app, length_app, filter_cons, filter_nil.
  destruct (decide (tx_from tx = a)), (decide (a = tx_from tx)); simpl; try congruence; lia.
Qed.
Lemma ledger_step_grows late chain_id l l' :
  ledger_step_at late chain_id true l l' → lg_history l `prefix_of` lg_history l'.
Proof. intros [l0 tx _|l0 g Hh _|l0|l0 [=]]; simpl; [by eexists|done|done]. Qed.
(** What the transfers move does not depend on the genesis balances. *)
Lemma ledger_balance_minted g l a :
  ledger_balance (minted g l) a = g a + (ledger_balance l a - lg_genesis l a).
Proof.
  unfold ledger_balance. simpl. generalize (g a) as x, (lg_genesis l a) as y.
  induction (lg_history l) as [|tx h IH]; intros x y; simpl; [lia|].
  rewrite (IH (x + moved tx (payee tx) a) (y + moved tx (payee tx) a)). lia.
Qed.

Section refinement.
Context `{!Blake3, !Hex, !Serialize Transaction, !Serialize BlockHeader, !Serialize (list Hash),
  !Serialize (Hash * Z * Z * Z), !Serialize StateSnapshot,
  !Serialize LedgerSnapshot, !Deserialize LedgerSnapshot,
  !Serialize LedgerEnvelope, !Deserialize LedgerEnvelope,
  !BincodeLaws LedgerSnapshot ledger_wf, !BincodeLaws LedgerEnvelope envelope_wf}.

Definition durable (n : RpcState) : bool := bool_decide (ls_dir (rs_store n) ≠ None).
(** Everything a client can ask node [n] is the answer of the log [l]. *)
Record implements (n : RpcState) (l : Ledger) : Prop := {
  im_history : concat (map blk_transactions (rs_blocks n)) = lg_history l;
  im_balance a : rpc_balance n a = ledger_balance l a;
  im_nonce a : rpc_nonce n a = ledger_nonce l a
}.

Lemma implements_same n n' l :
  rs_blocks n' = rs_blocks n → rs_state n' = rs_state n → implements n l → implements n' l.
Proof. intros Hb Hs [Hh Hbal Hn]. split; unfold rpc_balance, rpc_nonce in *; rewrite ?Hb, ?Hs; auto. Qed.
Lemma executed_refines fl n n' l tx post f :
  node_inv_at fl n → implements n l → tx_wf tx → apply_transaction tx (rs_state n) = (post, Ok f) →
  rs_state n' = post →
  concat (map blk_transactions (rs_blocks n')) = concat (map blk_transactions (rs_blocks n)) ++ [tx] →
  ledger_step_at (fl_late fl) (rs_chain_id n) (durable n) l (append tx l) ∧ implements n' (append tx l).
Proof.
  intros I [Hh Hbal Hn] Htx Hex Hpost Hbl. pose proof (ni_ledger _ _ I) as L.
  destruct (apply_transaction_executed _ _ _ _ (li_wf _ _ _ _ L) Htx Hex) as (_ & to & [] & [_ Hb' Hn']).
  assert (payee tx = to) as Hto by (unfold payee; by rewrite ex_to).
  unfold rpc_balance, rpc_nonce in Hbal, Hn. split.
  - constructor. split; try done; rewrite ?Hto, <-?Hbal, <-?Hn; try done.
    rewrite ex_chain. apply L.
  - split; simpl; unfold rpc_balance, rpc_nonce; rewrite ?Hpost.
    + by rewrite Hbl, Hh.
    + intros a. rewrite ledger_balance_append, Hto, <-Hbal. apply Hb'.
    + intros a. rewrite ledger_nonce_append, <-Hn. apply Hn'.
Qed.
Lemma seeded_refines fl n n' l al :
  node_inv_at fl n → implements n l → (fl_late fl = false → rs_blocks n = []) →
  Forall (λ e, is_u128 e.2) al → rs_state n' = seeded (rs_state n) al → rs_blocks n' = rs_blocks n →
  ∃ l', ledger_step_at (fl_late fl) (rs_chain_id n) (durable n) l l' ∧ implements n' l'.
Proof.
  intros I [Hh Hbal Hn] Hb Hal Hst Hbl.
  destruct (seeded_inv (rs_state n) al (li_wf _ _ _ _ (ni_ledger _ _ I)) Hal) as [Hwf _].
  set (g a := balance (seeded (rs_state n) al) a - (ledger_balance l a - lg_genesis l a)).
  assert (∀ a, ledger_balance (minted g l) a = balance (seeded (rs_state n) al) a) as Hg.
  { intros a. rewrite ledger_balance_minted. unfold g. lia. }
  exists (minted g l). split.
  - apply ledger_mint.
    + intros Hl. rewrite <-Hh, (Hb Hl). done.
    + intros a. rewrite Hg. unfold balance.
      destruct (accounts (seeded (rs_state n) al) !! a) as [acc|] eqn:Ha; simpl; [apply (Hwf a acc Ha)|width].
  - split; [by rewrite Hbl| |]; intros a; unfold rpc_balance, rpc_nonce in *; rewrite Hst; [by rewrite Hg|].
    rewrite nonce_seeded, Hn. done.
Qed.
Lemma sealed_refines fl io now m n l h tx post b d' :
  node_inv_at fl n → implements n l → tx_wf tx →
  sealed io now (set_mempool (λ _, m) n) h tx post b d' →
  ledger_step_at (fl_late fl) (rs_chain_id n) (durable n) l (append tx l) ∧
  implements (sealed_node (set_mempool (λ _, m) n) h post b d') (append tx l).
Proof.
  intros I Him Htx [_ _ [f Hex] (ht & _ & ->) _]. simpl in Hex.
  eapply executed_refines; [done..|]. simpl. by rewrite map_app, concat_app.
Qed.
(** A restart finds the log, or the log with what a call wrote that was reported to
    have failed: the transfer of its block, or its seeding. *)
Lemma recoverable_refines fl n n' l :
  node_inv_at fl n → implements n l → recoverable fl n (memory n') →
  ∃ l', ledger_step_at (fl_late fl) (rs_chain_id n) (durable n) l l' ∧ implements n' l'.
Proof.
  intros I Him Hrec. remember (memory n') as mem eqn:Hmem. unfold memory, ledger_with in Hmem.
  destruct Hrec as [|tx post f ht now _ Htx _ Hex _ _|al _ Hlate Hal];
    injection Hmem as Hst Hbl; symmetry in Hst; symmetry in Hbl.
  - exists l. split; [constructor|]. by apply (implements_same n).
  - exists (append tx l). eapply executed_refines; [done..|]. rewrite Hbl. by rewrite map_app, concat_app.
  - by eapply seeded_refines.
Qed.
Lemma step_refines fl n n' l :
  node_inv_at fl n → implements n l → node_step_at fl n n' →
  ∃ l', ledger_step_at (fl_late fl) (rs_chain_id n) (durable n) l l' ∧ implements n' l' ∧
    rs_chain_id n' = rs_chain_id n ∧ durable n' = durable n.
Proof.
  intros I Him Hstep. revert I Him. destruct Hstep as [io now tx m m' r Htx Hio Hcol Hg Hrun
    |io now tx m m' r Hio Hcol Hg Hrun|io al m m' r Hb Hal Hio Hrep Hrun|m m' Hrun]; intros I Him.
  - apply submit_run in Hrun; [|apply I|apply I|done]. destruct r.
    + destruct Hrun as (_ & p & adm & post & blk & d' & _ & _ & Hsl & ->).
      destruct (sealed_refines _ _ _ _ _ _ _ _ _ _ _ I Him Htx Hsl) as [Hs Hi]. by eexists.
    + destruct Hrun as (d' & -> & _). exists l. split; [constructor|]. by split; [apply (implements_same m)|].
  - apply seal_run in Hrun; [|apply I]. destruct r.
    + destruct Hrun as (t & post & blk & d' & Hsl & _ & ->).
      assert (set_mempool (λ _, rs_mempool m) m = m) as Hid by (by destruct m).
      pose proof (ni_pool_wf _ _ I _ _ (sl_pool _ _ _ _ _ _ _ _ Hsl)) as Ht. rewrite <-Hid in Hsl at 1.
      destruct (sealed_refines _ _ _ _ _ _ _ _ _ _ _ I Him Ht Hsl) as [Hs Hi]. rewrite Hid in Hi. by eexists.
    + destruct Hrun as (d' & -> & _). exists l. split; [constructor|]. by split; [apply (implements_same m)|].
  - apply seed_run in Hrun; [|apply I]. destruct r.
    2: { destruct Hrun as (d' & -> & _). exists l. split; [constructor|]. by split; [apply (implements_same m)|]. }
    destruct Hrun as (d' & -> & _).
    destruct (seeded_refines fl m (set_state (seeded (rs_state m) al) (set_disk d' m)) l al) as (l' & ? & ?);
      [done..|]. by exists l'.
  - destruct (with_store_fields _ _ _ _ _ Hrun) as (Hs & Hc & _).
    rewrite Hc, (ni_store _ _ I). assert (durable m' = durable m) as -> by (unfold durable; by rewrite Hs).
    destruct (ls_dir (rs_store m)) as [dir|] eqn:Hdir.
    + destruct (restart_inv _ _ _ I Hrun) as (_ & _ & Hrec).
      destruct (recoverable_refines fl m m' l I Him (Hrec ltac:(by rewrite Hdir))) as (l' & ? & ?). by exists l'.
    + exists {| lg_genesis := λ _, 0; lg_history := [] |}. split.
      { constructor. unfold durable. by rewrite Hdir. }
      split; [|done]. unfold with_store, load in Hrun. rewrite Hdir in Hrun. by injection Hrun as <-.
Qed.
Lemma steps_refine fl n n' l :
  node_inv_at fl n → implements n l → rtc (node_step_at fl) n n' →
  ∃ l', rtc (ledger_step_at (fl_late fl) (rs_chain_id n) (durable n)) l l' ∧ implements n' l' ∧
    rs_chain_id n' = rs_chain_id n ∧ durable n' = durable n ∧
    (durable n = true → lg_history l `prefix_of` lg_history l').
Proof.
  intros I Him Hsteps. revert l Him. induction Hsteps as [n|n n1 n' Hstep _ IH]; intros l Him.
  { by exists l. }
  destruct (step_refines _ _ _ _ I Him Hstep) as (l1 & Hl & Him1 & Hc & Hd).
  destruct (IH (node_step_inv _ _ _ Hstep I) l1 Him1) as (l' & Hl' & Him' & Hc' & Hd' & Hp).
  rewrite Hc, Hd in *. exists l'. split_and!; try done; [by eapply rtc_l|].
  intros Hdur. rewrite Hdur in Hl. etrans; [by eapply ledger_step_grows|]. by apply Hp.
Qed.

(** The accounts, and the blocks, that [v] shows are those of [l]. *)
Definition shows_accounts (v : RpcState) (l : Ledger) : Prop :=
  ∀ a, rpc_balance v a = ledger_balance l a ∧ rpc_nonce v a = ledger_nonce l a.
Definition shows_blocks (v : RpcState) (l : Ledger) : Prop :=
  concat (map blk_transactions (rs_blocks v)) = lg_history l.
Lemma implements_shows_accounts n v l :
  implements n l → rs_state v = rs_state n → shows_accounts v l.
Proof.
  intros [_ Hb Hn] Hs a. unfold rpc_balance, rpc_nonce in *. by rewrite Hs, Hb, Hn.
Qed.
Lemma implements_shows_blocks n v l : implements n l → rs_blocks v = rs_blocks n → shows_blocks v l.
Proof. intros [Hh _ _] Hb. unfold shows_blocks. by rewrite Hb. Qed.
Lemma between_shows n n' l l' v :
  implements n l → implements n' l' → between n n' v →
  (shows_accounts v l ∧ shows_blocks v l) ∨ (shows_accounts v l' ∧ (shows_blocks v l ∨ shows_blocks v l')).
Proof.
  intros Hl Hl' [_ _ Hs Hb _ _].
  destruct Hb as [Hb|[Hb Hs']]; [|right; eauto using implements_shows_accounts, implements_shows_blocks].
  destruct Hs; [left|right]; eauto using implements_shows_accounts, implements_shows_blocks.
Qed.
End refinement.

(** C5. The node implements the append-only ledger. Start from a node whose
    balances and nonces are those of a log, and let it take any sequence of
    operations, submissions, inclusions, seedings and restarts, each of which may
    fail at any file operation, the final directory sync included if [fl] allows it
    ([fl_unsynced]). The balances, nonces and committed transactions it then answers
    are those of a log reached by appending appendable transfers and by mints, a mint
    changing balances but no transfer; unless [fl] allows seedings after the first
    block ([fl_late]) mints come only before the first transfer. A restart can
    append the transfer of one submission that was reported to have failed at its
    directory sync. A node with a data directory never forgets: its log only grows.
    What is committed is representable and collides with no hash. *)
Theorem node_refines_ledger `{!Blake3, !Hex, !Serialize Transaction, !Serialize BlockHeader,
    !Serialize (list Hash), !Serialize (Hash * Z * Z * Z), !Serialize StateSnapshot,
    !Serialize LedgerSnapshot, !Deserialize LedgerSnapshot, !Serialize LedgerEnvelope,
    !Deserialize LedgerEnvelope, !BincodeLaws LedgerSnapshot ledger_wf,
    !BincodeLaws LedgerEnvelope envelope_wf} (fl : Faults) (n n' : RpcState) (l : Ledger) :
  node_inv_at fl n → implements n l → rtc (node_step_at fl) n n' →
  ∃ l', rtc (ledger_step_at (fl_late fl) (rs_chain_id n) (durable n)) l l' ∧ implements n' l' ∧
    (durable n = true → lg_history l `prefix_of` lg_history l').
Proof.
  intros I Him Hsteps. destruct (steps_refine _ _ _ _ I Him Hsteps) as (l' & ? & ? & _ & _ & ?).
  by exists l'.
Qed.

(** C14. The server implements the append-only ledger on every thread. Let any number
    of threads submit, include and seed on a node whose balances and nonces are those
    of a log, and stop them at any instant of any interleaving. The calls that have
    returned have taken the log to [l], and the call in progress takes it to [l'] by at
    most one step. A query at this instant finds the accounts of [l] with the blocks
    of [l], or the accounts of [l'] with the blocks of [l] or [l']: never blocks ahead
    of the accounts, never part of a transfer. When no call is in progress it finds [l].
    The calls may fail at any file operation; accounts are seeded only before the
    first block, and what is committed is representable and collides with no hash. *)
Theorem threads_refine_ledger `{!Blake3, !Hex, !Serialize Transaction, !Serialize BlockHeader,
    !Serialize (list Hash), !Serialize (Hash * Z * Z * Z), !Serialize StateSnapshot,
    !Serialize LedgerSnapshot, !Deserialize LedgerSnapshot, !Serialize LedgerEnvelope,
    !Deserialize LedgerEnvelope, !BincodeLaws LedgerSnapshot ledger_wf,
    !BincodeLaws LedgerEnvelope envelope_wf}
    (n0 : RpcState) (l0 : Ledger) (y : System RpcState RpcError Commit Answer) :
  node_inv n0 → implements n0 l0 → rtc (sys_step commit_accesses admissible) (sys_start n0) y →
  ∃ l l', rtc (ledger_step (rs_chain_id n0) (durable n0)) l0 l ∧
    implements (replay n0 (map fst (sys_returned y))).1 l ∧
    (l' = l ∨ ledger_step (rs_chain_id n0) (durable n0) l l') ∧
    ((shows_accounts (sys_state y) l ∧ shows_blocks (sys_state y) l) ∨
     (shows_accounts (sys_state y) l' ∧
      (shows_blocks (sys_state y) l ∨ shows_blocks (sys_state y) l'))) ∧
    (sys_holder y = None → implements (sys_state y) l).
Proof.
  intros I0 Him Hy.
  destruct (reachable_between n0 y I0 Hy) as (n & n' & Hs & I & _ & _ & _ & _ & Hb & Hstep & Hfree).
  rewrite (serial_replay _ _ _ _ Hs). simpl.
  destruct (steps_refine _ _ _ _ I0 Him (serial_steps _ _ _ I0 Hs)) as (l & Hl & Himl & Hc & Hd & _).
  assert (∃ l', (l' = l ∨ ledger_step (rs_chain_id n0) (durable n0) l l') ∧ implements n' l')
    as (l' & Hll & Him').
  { destruct Hstep as [->|Hstep]; [exists l; auto|].
    destruct (step_refines _ _ _ _ I Himl Hstep) as (l' & Hll & Him' & _). rewrite Hc, Hd in Hll. eauto. }
  exists l, l'. split_and!; [done..|by eapply between_shows|].
  intros Hfr. by rewrite (Hfree Hfr).
Qed.

(** *** A concrete run: an empty node is seeded and commits a transfer *)
Import Ref.

Definition ledger0 : Ledger := {| lg_genesis := λ _, 0; lg_history := [] |}.
Lemma node0_implements : implements node0 ledger0.
Proof.
  assert (rs_state node0 = with_chain_id 1) as Hs by reflexivity.
  split; [reflexivity|..]; intros a; unfold rpc_balance, rpc_nonce, balance, nonce; rewrite Hs; reflexivity.
Qed.
(** The funded node commits a transfer and is seeded again. *)
Lemma node2_step fl : node_step_at fl node1 node2.
Proof.
  apply (step_submit fl no_error 7 sample_transfer node1 node2
    (submit_transaction no_error 7 sample_transfer node1).2).
  - apply sample_transfer_wf.
  - reflexivity.
  - apply node1_no_collision.
  - apply node1_good_commit.
  - apply surjective_pairing.
Qed.
Definition node3 : RpcState := (seed_accounts no_error [(addr 3, 50)] node2).1.
Lemma node3_step : node_step_at any_fault node2 node3.
Proof.
  apply (step_seed any_fault no_error [(addr 3, 50)] node2 node3
    (seed_accounts no_error [(addr 3, 50)] node2).2).
  - discriminate.
  - constructor; [by apply (bool_decide_unpack _)|constructor].
  - reflexivity.
  - apply representable_compute. vm_compute. reflexivity.
  - apply surjective_pairing.
Qed.
Lemma node0_any : node_inv_at any_fault node0.
Proof.
  apply (with_store_inv any_fault store1 empty_disk);
    [done|apply empty_disk_stable|by left|apply node0_start].
Qed.
Lemma node3_facts :
  length (concat (map blk_transactions (rs_blocks node3))) = 1%nat ∧ rpc_balance node3 (addr 3) = 50.
Proof. vm_compute. split; reflexivity. Qed.
Lemma node_refines_ledger_witness :
  ∃ l', rtc (ledger_step_at true (rs_chain_id node0) (durable node0)) ledger0 l' ∧ implements node3 l' ∧
    length (lg_history l') = 1%nat ∧ ledger_balance l' (addr 3) = 50.
Proof.
  destruct (node_refines_ledger any_fault node0 node3 ledger0 node0_any node0_implements
    (rtc_l _ _ _ _ (node1_step_at any_fault) (rtc_l _ _ _ _ (node2_step any_fault)
       (rtc_once _ _ node3_step)))) as (l' & Hl & Him & _).
  exists l'. split; [exact Hl|]. split; [exact Him|].
  rewrite <-(im_history _ _ Him), <-(im_balance _ _ Him). exact node3_facts.
Defined.
Lemma node1_implements : ∃ l, implements node1 l ∧ lg_history l = [].
Proof.
  destruct (step_refines serving node0 node1 ledger0 node0_inv node0_implements node1_step)
    as (l & _ & Him & _). exists l. split; [exact Him|].
  rewrite <-(im_history _ _ Him). vm_compute. reflexivity.
Qed.
(** The submission stopped after its tenth access, whose state is already published:
    a reader finds the accounts of the extended log and still no block. *)
Lemma threads_refine_ledger_witness :
  ∃ l l', lg_history l = [] ∧ ledger_step (rs_chain_id node1) (durable node1) l l' ∧
    shows_accounts (sys_state (submitting 10)) l' ∧ shows_blocks (sys_state (submitting 10)) l.
Proof.
  destruct node1_implements as (l0 & Him0 & Hh0).
  destruct (threads_refine_ledger node1 l0 (submitting 10) node1_inv Him0
    (submitting_reachable admissible 10 transfer_admissible)) as (l & l' & _ & Himl & Hll & Hsh & _).
  pose proof (im_history _ _ Himl) as Hh. assert (lg_history l = []) as Hnil.
  { rewrite <-Hh. vm_compute. reflexivity. }
  assert (concat (map blk_transactions (rs_blocks (sys_state (submitting 10)))) = []) as Hbl.
  { vm_compute. reflexivity. }
  assert (¬ shows_accounts (sys_state (submitting 10)) l) as Hno.
  { intros Ha. destruct (Ha Address_ZERO) as [_ Hn]. rewrite (proj1 submitting_10) in Hn.
    unfold ledger_nonce in Hn. rewrite Hnil in Hn. discriminate Hn. }
  assert (shows_accounts (sys_state (submitting 10)) l') as Hacc by (destruct Hsh as [[Ha _]|[Ha _]]; [destruct (Hno Ha)|exact Ha]).
  exists l, l'. split; [exact Hnil|]. split.
  - destruct Hll as [->|Hstep]; [destruct (Hno Hacc)|exact Hstep].
  - split; [exact Hacc|]. unfold shows_blocks. rewrite Hbl, Hnil. reflexivity.
Defined.
