(* ===== verification/Harness.v ===== *)
(** * Running the source's tests on the model

    The unit tests of the crates, translated statement by statement, are programs
    over the definitions of this library. A test is a computation that stops at the
    first assertion that does not hold; the third-party code under it is the
    reference instance of each interface. *)

From Stdlib Require Import String.
From S2P Require Import Prelude Deps Core.

Notation Test S := (ST S string unit).
(** [assert!], [assert_eq!] and [assert_ne!] on the state at hand. *)
Definition assert {S : Type} (p : S → bool) : Test S := λ s, (s, fail_if (negb (p s)) "assertion failed").
Definition assert_eq {S A : Type} `{!EqDecision A} (f : S → A) (a : A) : Test S :=
  assert (λ s, bool_decide (f s = a)).
Definition assert_ne {S A : Type} `{!EqDecision A} (f : S → A) (a : A) : Test S :=
  assert (λ s, bool_decide (f s ≠ a)).
(** [unwrap()] *)
Definition unwrap {S E A : Type} (m : ST S E A) : ST S string A :=
  st_map_err (λ _, "called `Result::unwrap()` on an `Err` value") m.
(** A call that changes the state and cannot fail. *)
Definition st_total {S E A : Type} (f : S → S * A) : ST S E A := λ s, let '(s', a) := f s in (s', Ok a).
(** [assert!(matches!(m, Err(pattern)))]; [is_err()] is [any] error. *)
Definition matches_err {S E A : Type} (m : ST S E A) (pattern : E → bool) : Test S := λ s,
  match m s with
  | (s', Ok _) => (s', Err "expected an error")
  | (s', Err e) => (s', fail_if (negb (pattern e)) "another error")
  end.
Definition any {E : Type} (e : E) : bool := true.
(** The same for code without state. *)
Definition errs {E A : Type} (r : result E A) (pattern : E → bool) : bool :=
  match r with Ok _ => false | Err e => pattern e end.
(** [assert_eq!(r.unwrap(), a)] *)
Definition ok_eq {E A : Type} `{!EqDecision A} (r : result E A) (a : A) : bool :=
  match r with Ok a' => bool_decide (a' = a) | Err _ => false end.
Definition passes {S : Type} (t : Test S) (s : S) : bool := is_ok (t s).2.
Definition all_pass (tests : list (string * bool)) : bool := forallb snd tests.

#[export] Instance ip_addr_eq_dec : EqDecision IpAddr.
Proof. solve_decision. Defined.
#[export] Instance socket_addr_eq_dec : EqDecision SocketAddr.
Proof. solve_decision. Defined.

(** [m.contains(needle)] on texts. *)
Fixpoint contains (needle m : string) : bool :=
  String.prefix needle m || match m with String _ m' => contains needle m' | EmptyString => false end.

(** [s.to_uppercase()] on ASCII text. *)
Definition upper_char (c : Ascii.ascii) : Ascii.ascii :=
  let n := byte_val c in if (97 <=? n) && (n <=? 122) then byte_of (n - 32) else c.
Fixpoint to_uppercase (s : string) : string :=
  match s with EmptyString => EmptyString | String c s => String (upper_char c) (to_uppercase s) end.

(** [Address::new([n; 20])] and the transactions of the tests. *)
Definition test_addr (n : Z) : Address := array_repeat (byte_of n) ADDRESS_SIZE.
Definition test_tx (ty : TransactionType) (nonce : Z) (from : Z) (to : option Z)
  (value gas_price gas_limit : Z) (data : bytes) (chain_id : Z) : Transaction :=
  {| tx_type := ty; tx_nonce := nonce; tx_from := test_addr from; tx_to := test_addr <$> to;
     tx_value := value; tx_gas_price := gas_price; tx_gas_limit := gas_limit; tx_data := data;
     tx_chain_id := chain_id; tx_signature := EMPTY |}.
