(* ===== verification/TestLedger.v ===== *)
(** * The tests of the ledger crates

    The test modules of [subhost-core], [subhost-state], [subhost-mempool] and
    [subhost-storage]. *)

From Stdlib Require Import String.
From S2P Require Import Prelude Order Text Deps Bincode Core WorldState Mempool Storage Rpc RpcApi Harness.
Import Ref.

Module CoreTests.
Notation addr := test_addr.
#[local] Instance json_genesis : SerdeJson GenesisDoc := codec_json c_genesis_doc.
Definition transaction (nonce value gas_price : Z) : Transaction :=
  test_tx Transfer nonce 1 (Some 2) value gas_price 21000 [] 1.

Definition core_tests_types : list (string * bool) :=
  [("hex_parsers_reject_malformed_input_without_panicking",
     errs (address_from_hex "aéb") any && errs (address_from_hex "0x01") any
     && errs (hash_from_hex "0x0f") any
     && ok_eq (address_from_hex (address_to_string (addr 3))) (addr 3)
     && let hash := from_data (str_bytes "subhost") in
        ok_eq (hash_from_hex (hash_to_string hash)) hash);
   ("address_derivation_uses_low_20_bytes_of_the_digest",
     let public_key := replicate 32 (byte_of 9) in
     let digest := blake3 public_key in
     let expected := drop (HASH_SIZE - ADDRESS_SIZE) (array_bytes digest) in
     bool_decide (array_bytes (from_public_key public_key) = expected));
   ("signing_payload_excludes_only_the_signature",
     let tx := transaction 7 10 3 in
     let payload := signing_payload tx in
     let signed := with_signature tx {| sig_r := array_repeat (byte_of 7) 32;
                                        sig_s := array_repeat (byte_of 8) 32; sig_v := 1 |} in
     bool_decide (signing_payload signed = payload)
     && bool_decide (signing_payload (transaction 7 11 3) ≠ payload));
   ("signature_round_trips_through_r_and_s",
     let raw : array 64 := default (zeros 64) (to_array 64 (byte_of <$> seqZ 0 64)) in
     bool_decide (to_ed25519 (from_ed25519 raw) = raw));
   ("transaction_cost_saturates_instead_of_overflowing",
     bool_decide (fee (transaction 7 10 3) = Some 63000)
     && bool_decide (total_cost (transaction 7 10 3) = Some 63010)
     && bool_decide (fee (transaction 7 10 u128_max) = None)
     && bool_decide (total_cost (transaction 7 10 u128_max) = None));
   ("tx_root_matches_the_free_function_and_is_order_sensitive",
     let first := transaction 7 10 3 in
     let second := transaction 8 10 3 in
     let block :=
       {| blk_header :=
            {| hdr_version := 1; hdr_chain_id := 1; hdr_height := 1; hdr_timestamp := 0;
               hdr_parent_hash := Hash_ZERO; hdr_state_root := Hash_ZERO;
               hdr_tx_root := Hash_ZERO; hdr_receipt_root := Hash_ZERO;
               hdr_validator := Address_ZERO; hdr_gas_used := 0;
               hdr_gas_limit := BLOCK_GAS_LIMIT; hdr_extra_data := [] |};
          blk_transactions := [first; second]; blk_signatures := [] |} in
     bool_decide (tx_root block = tx_root_of [tx_hash first; tx_hash second])
     && bool_decide (tx_root block ≠ tx_root_of [tx_hash second; tx_hash first]))].

(** [GenesisConfig { .., ..Default::default() }] *)
Definition genesis (chain_id block_time_ms gas_limit : Z) (validators : list ValidatorInfo)
  (allocations : gmap Address Z) : GenesisConfig :=
  {| gen_chain_id := chain_id; gen_initial_validators := validators;
     gen_allocations := allocations; gen_block_time_ms := block_time_ms;
     gen_gas_limit := gas_limit; gen_genesis_time := gen_genesis_time (genesis_default 7) |}.
Definition genesis_from_json (text : string) : option GenesisConfig :=
  match from_json text with
  | Ok doc => match genesis_of_doc doc with Ok g => Some g | Err _ => None end
  | Err _ => None
  end.
Definition core_tests_genesis : list (string * bool) :=
  let default_genesis := genesis 1 DEFAULT_BLOCK_TIME_MS BLOCK_GAS_LIMIT in
  let validator := {| vi_address := addr 4; vi_public_key := byte_of <$> [1; 2; 3];
                      vi_power := 10 |} in
  let powerless := {| vi_address := addr 4; vi_public_key := byte_of <$> [1; 2; 3];
                      vi_power := 0 |} in
  let keyless := {| vi_address := addr 4; vi_public_key := []; vi_power := 10 |} in
  [("genesis_allocations_round_trip_full_u128_range",
     let encoded := to_json (genesis_to_doc (default_genesis [] {[addr 1 := u128_max]})) in
     bool_decide ((λ g, gen_allocations g !! addr 1) <$> genesis_from_json encoded
                  = Some (Some u128_max)));
   ("genesis_allocation_serialization_is_deterministic",
     bool_decide
       (to_json (genesis_to_doc (default_genesis [] (<[addr 1 := 1]> {[addr 2 := 2]})))
        = to_json (genesis_to_doc (default_genesis [] (<[addr 2 := 2]> {[addr 1 := 1]})))));
   ("genesis_validation_rejects_structural_errors",
     errs (validate (genesis 0 DEFAULT_BLOCK_TIME_MS BLOCK_GAS_LIMIT [] ∅)) any
     && errs (validate (genesis 1 0 BLOCK_GAS_LIMIT [] ∅)) any
     && errs (validate (genesis 1 DEFAULT_BLOCK_TIME_MS 0 [] ∅)) any
     && is_ok (validate (genesis_default 7)) && errs (requires_validators (genesis_default 7)) any);
   ("genesis_validation_rejects_bad_validator_entries",
     errs (validate (default_genesis [validator; validator] ∅)) any
     && errs (validate (default_genesis [powerless] ∅)) any
     && errs (validate (default_genesis [keyless] ∅)) any
     && let genesis := default_genesis [validator] ∅ in
        is_ok (validate genesis) && is_ok (requires_validators genesis)
        && (total_voting_power genesis =? 10));
   ("genesis_save_load_round_trip_rejects_invalid_documents",
     let path := "genesis.json" in
     let config := default_genesis [] {[addr 5 := 42]} in
     ok_eq (content ← genesis_save path (Ok ()) config; genesis_load path (Ok content)) config
     && errs (genesis_save path (Ok ())
                (genesis 0 DEFAULT_BLOCK_TIME_MS BLOCK_GAS_LIMIT [] {[addr 5 := 42]})) any
     && errs (genesis_load path (Ok "{ not json")) any
     && errs (genesis_load "missing.json" (Err "No such file or directory")) any)].

Lemma core_tests_pass : all_pass (core_tests_types ++ core_tests_genesis) = true.
Proof. vm_compute. reflexivity. Qed.
End CoreTests.

Module StateTests.
Definition transfer (nonce value : Z) : Transaction :=
  test_tx Transfer nonce 1 (Some 2) value 1 21000 [] 1.
Notation addr := test_addr.

Definition state_tests_accounts : list (string * bool) :=
  [("credit_and_lookup", passes (
     _ ← unwrap (credit (addr 1) 1000);
     _ ← unwrap (credit (addr 1) 500);
     _ ← assert_eq (λ s, balance s (addr 1)) 1500;
     _ ← assert_eq (λ s, balance s (addr 2)) 0;
     _ ← assert_eq (λ s, nonce s (addr 2)) 0;
     _ ← assert_eq account_count 1;
     assert_eq (λ s, account s (addr 2)) None) state_new);
   ("transfer_moves_funds_and_rejects_overdraft", passes (
     _ ← unwrap (credit (addr 1) 1000);
     _ ← unwrap (apply_transfer (addr 1) (addr 2) 300);
     _ ← assert_eq (λ s, balance s (addr 1)) 700;
     _ ← assert_eq (λ s, balance s (addr 2)) 300;
     _ ← matches_err (apply_transfer (addr 1) (addr 2) 701) any;
     assert_eq (λ s, balance s (addr 1)) 700) state_new);
   ("self_transfer_does_not_duplicate_funds", passes (
     _ ← unwrap (credit (addr 1) 100);
     _ ← unwrap (apply_transfer (addr 1) (addr 1) 100);
     assert_eq (λ s, balance s (addr 1)) 100) state_new);
   ("transaction_charges_fee_enforces_nonce_and_blocks_replay", passes (
     _ ← unwrap (credit (addr 1) 1000000);
     let tx := transfer 0 100 in
     fee ← unwrap (apply_transaction tx);
     _ ← assert_eq (λ _, fee) 21000;
     _ ← assert_eq (λ s, balance s (addr 2)) 100;
     _ ← assert_eq (λ s, balance s (addr 1)) (1000000 - 100 - 21000);
     _ ← assert_eq (λ s, nonce s (addr 1)) 1;
     matches_err (apply_transaction tx)
       (λ e, match e with InvalidNonce _ 1 0 => true | _ => false end)) state_new);
   ("transaction_rejects_value_it_cannot_afford_with_the_fee", passes (
     _ ← unwrap (credit (addr 1) 21050);
     _ ← matches_err (apply_transaction (transfer 0 100))
           (λ e, match e with InsufficientBalance _ _ _ => true | _ => false end);
     _ ← assert_eq (λ s, balance s (addr 1)) 21050;
     _ ← assert_eq (λ s, balance s (addr 2)) 0;
     assert_eq (λ s, nonce s (addr 1)) 0) state_new);
   ("transaction_rejects_foreign_chain_and_zero_gas",
     passes (
       _ ← unwrap (credit (addr 1) 1000000);
       matches_err (apply_transaction (transfer 0 1))
         (λ e, match e with StateChainMismatch 7 1 => true | _ => false end)) (with_chain_id 7)
     && passes (
       _ ← unwrap (credit (addr 1) 1000000);
       matches_err (apply_transaction (test_tx Transfer 0 1 (Some 2) 1 1 0 [] 1))
         (λ e, match e with InvalidTransaction _ => true | _ => false end)) state_new)].

Definition set_account_nonce (a : Address) (n : Z) : Test State :=
  _ ← assert (λ s, bool_decide (account s a ≠ None));
  st_modify (entry_modify a (put_nonce n)).
Definition state_tests_limits : list (string * bool) :=
  [("transaction_rejects_unsupported_types_and_missing_destination", passes (
     _ ← unwrap (credit (addr 1) 1000000);
     _ ← foldl (λ t tx_type,
           _ ← t;
           matches_err (apply_transaction (test_tx tx_type 0 1 (Some 2) 1 1 21000 [] 1))
             (λ e, match e with UnsupportedTransactionType _ => true | _ => false end))
         (mret ()) [ContractCall; ContractCreation; Stake; Unstake; GovernanceVote; CrossChain];
     _ ← matches_err (apply_transaction (test_tx Transfer 0 1 None 1 1 21000 [] 1))
           (λ e, match e with InvalidTransaction _ => true | _ => false end);
     assert_eq (λ s, nonce s (addr 1)) 0) state_new);
   ("transaction_rejects_terminal_nonce_and_fee_overflow",
     passes (
       _ ← unwrap (credit (addr 1) 1000);
       _ ← set_account_nonce (addr 1) u64_max;
       _ ← matches_err (apply_transaction (test_tx Transfer u64_max 1 (Some 2) 0 1 1 [] 1))
             (λ e, match e with InvalidTransaction m => contains "nonce overflow" m | _ => false end);
       _ ← assert_eq (λ s, nonce s (addr 1)) u64_max;
       assert_eq (λ s, balance s (addr 1)) 1000) state_new
     && passes (
       _ ← unwrap (credit (addr 1) 1000);
       matches_err (apply_transaction (test_tx Transfer 0 1 (Some 2) 0 u128_max 21000 [] 1))
         (λ e, match e with InvalidTransaction m => contains "fee overflows" m | _ => false end))
       state_new);
   ("overflow_is_rejected_on_credit_and_on_transfer",
     passes (
       _ ← st_modify (set_balance (addr 1) u128_max);
       matches_err (credit (addr 1) 1)
         (λ e, match e with BalanceOverflow a => bool_decide (a = addr 1) | _ => false end)) state_new
     && passes (
       _ ← unwrap (credit (addr 1) 10);
       _ ← st_modify (set_balance (addr 2) u128_max);
       _ ← matches_err (apply_transfer (addr 1) (addr 2) 1)
             (λ e, match e with BalanceOverflow a => bool_decide (a = addr 2) | _ => false end);
       assert_eq (λ s, balance s (addr 1)) 10) state_new);
   ("snapshot_is_deterministic_and_round_trips",
     let first := set_balance (addr 1) 10 (set_balance (addr 2) 20 state_new) in
     let second := set_balance (addr 2) 20 (set_balance (addr 1) 10 state_new) in
     bool_decide (snapshot first = snapshot second) && bool_decide (root first = root second)
     && bool_decide (bincode (snapshot first) = bincode (snapshot second))
     && match from_snapshot (snapshot first) with
        | Ok restored => (balance restored (addr 1) =? 10)
            && (state_chain_id restored =? state_chain_id first)
            && bool_decide (root restored = root first)
        | Err _ => false
        end);
   ("snapshot_restore_rejects_corrupt_input",
     errs (from_snapshot {| snap_chain_id := 1;
             snap_accounts := [(addr 1, account_new 10); (addr 1, account_new 20)] |}) any
     && errs (from_snapshot {| snap_chain_id := 0; snap_accounts := [] |}) any);
   ("state_root_changes_with_every_balance_and_nonce_change", passes (
     empty ← st_gets root;
     _ ← unwrap (credit (addr 1) 1);
     credited ← st_gets root;
     _ ← assert (λ _, bool_decide (empty ≠ credited));
     _ ← set_account_nonce (addr 1) 1;
     assert_ne root credited) state_new)].

Lemma state_tests_pass : all_pass (state_tests_accounts ++ state_tests_limits) = true.
Proof. vm_compute. reflexivity. Qed.
End StateTests.

Module MempoolTests.
Definition tx (sender nonce gas_price : Z) : Transaction :=
  test_tx Transfer nonce sender (Some 0) 1 gas_price 21000 [] 1.
Notation addr := test_addr.
Notation default_pool := (mempool_new mempool_config_default).
Definition config (max_pending max_per_sender max_tx_data_bytes : Z) : MempoolConfig :=
  {| max_pending := max_pending; max_per_sender := max_per_sender;
     min_gas_price := min_gas_price mempool_config_default;
     max_tx_data_bytes := max_tx_data_bytes |}.
Notation max_pending_default := (max_pending mempool_config_default).
Notation max_per_sender_default := (max_per_sender mempool_config_default).
Notation max_data_default := (max_tx_data_bytes mempool_config_default).

Definition mempool_tests_admission : list (string * bool) :=
  [("add_and_retrieve", passes (
     hash ← unwrap (mempool_add (tx 1 0 100));
     _ ← assert_eq mempool_len 1;
     _ ← assert_eq sender_count 1;
     _ ← assert (λ p, mempool_contains p hash);
     _ ← assert_eq (λ p, tx_nonce <$> mempool_get p hash) (Some 0);
     assert_eq (λ p, fst <$> get_by_sender_nonce p (addr 1) 0) (Some hash)) default_pool);
   ("identical_resubmission_is_idempotent", passes (
     first ← unwrap (admit_tx (tx 1 0 10));
     second ← unwrap (admit_tx (tx 1 0 10));
     _ ← assert_eq (λ _, adm_hash first) (adm_hash second);
     _ ← assert (λ _, adm_accepted second);
     _ ← assert_eq (λ _, adm_displaced second) None;
     assert_eq mempool_len 1) default_pool);
   ("duplicate_nonce_keeps_higher_gas_price", passes (
     let low := tx 1 0 10 in
     let high := tx 1 0 50 in
     _ ← unwrap (mempool_add low);
     replacement ← unwrap (admit_tx high);
     _ ← assert (λ _, adm_accepted replacement);
     _ ← assert_eq (λ _, tx_gas_price <$> adm_displaced replacement) (Some 10);
     _ ← assert_eq mempool_len 1;
     rejected ← unwrap (admit_tx low);
     _ ← assert (λ _, negb (adm_accepted rejected));
     _ ← assert_eq (λ _, adm_hash rejected) (tx_hash high);
     _ ← assert_eq mempool_len 1;
     assert_eq (λ p, tx_gas_price <$> mempool_get p (tx_hash high)) (Some 50)) default_pool);
   ("replacement_does_not_consume_the_sender_budget", passes (
     _ ← unwrap (mempool_add (tx 1 0 1));
     replacement ← unwrap (admit_tx (tx 1 0 2));
     _ ← assert (λ _, adm_accepted replacement);
     _ ← matches_err (admit_tx (tx 1 1 5))
           (λ e, match e with SenderQueueFull _ => true | _ => false end);
     assert_eq mempool_len 1)
     (mempool_new (config max_pending_default 1 max_data_default)));
   ("capacity_evicts_lowest_priority_and_reports_it", passes (
     _ ← unwrap (mempool_add (tx 1 0 1));
     _ ← unwrap (mempool_add (tx 1 1 1));
     _ ← unwrap (mempool_add (tx 2 0 1));
     admission ← unwrap (admit_tx (tx 3 0 100));
     _ ← assert_eq mempool_len 3;
     _ ← assert_eq (λ _, tx_gas_price <$> adm_displaced admission) (Some 1);
     assert (λ p, existsb (λ tx, tx_gas_price tx =? 100) (pending p)))
     (mempool_new (config 3 max_per_sender_default max_data_default)));
   ("eviction_is_deterministic_for_equal_gas_prices",
     let build : ST Mempool MempoolError (option Transaction) :=
       _ ← mempool_add (tx 1 0 1);
       _ ← mempool_add (tx 1 1 1);
       admission ← admit_tx (tx 2 0 9);
       mret (adm_displaced admission) in
     let pool := mempool_new (config 2 max_per_sender_default max_data_default) in
     match (build pool).2, (build pool).2 with
     | Ok (Some first), Ok (Some second) =>
         (tx_nonce first =? 1) && bool_decide (tx_hash first = tx_hash second)
     | _, _ => false
     end);
   ("rejects_zero_gas_limit_low_gas_price_and_fee_overflow", passes (
     _ ← matches_err (mempool_add (test_tx Transfer 0 1 (Some 0) 1 5 0 [] 1))
           (λ e, match e with MempoolInvalidTransaction _ => true | _ => false end);
     _ ← matches_err (mempool_add (tx 1 0 0))
           (λ e, match e with GasPriceTooLow 0 1 => true | _ => false end);
     _ ← matches_err (mempool_add (test_tx Transfer 0 1 (Some 0) 1 u128_max u64_max [] 1))
           (λ e, match e with MempoolInvalidTransaction _ => true | _ => false end);
     assert mempool_is_empty) default_pool);
   ("rejects_oversized_transaction_data", passes (
     _ ← matches_err
           (mempool_add (test_tx Transfer 0 1 (Some 0) 1 10 21000 (replicate 5 (byte_of 0)) 1))
           (λ e, match e with DataTooLarge 5 4 => true | _ => false end);
     assert mempool_is_empty)
     (mempool_new (config max_pending_default max_per_sender_default 4)))].

Definition mempool_tests_queries : list (string * bool) :=
  [("remove_frees_slots_and_cleans_the_sender_index", passes (
     hash ← unwrap (mempool_add (tx 1 0 10));
     removed ← st_total (mempool_remove hash);
     _ ← assert (λ _, removed);
     again ← st_total (mempool_remove hash);
     _ ← assert (λ _, negb again);
     _ ← assert mempool_is_empty;
     assert_eq sender_count 0) default_pool);
   ("ready_for_stops_at_the_first_nonce_gap", passes (
     let sender := addr 1 in
     _ ← unwrap (mempool_add (tx 1 0 1));
     _ ← unwrap (mempool_add (tx 1 1 1));
     _ ← unwrap (mempool_add (tx 1 3 1));
     _ ← assert_eq (λ p, tx_nonce <$> ready_for p sender 0) [0; 1];
     _ ← assert_eq (λ p, length (ready_for p sender 3)) 1%nat;
     _ ← assert_eq (λ p, ready_for p (addr 9) 0) [];
     _ ← assert_eq (λ p, next_nonce_for p sender) (Some 4);
     assert_eq (λ p, next_nonce_for p (addr 9)) None) default_pool);
   ("prune_below_nonce_drops_executed_transactions", passes (
     let sender := addr 1 in
     _ ← unwrap (mempool_add (tx 1 0 1));
     _ ← unwrap (mempool_add (tx 1 1 1));
     _ ← unwrap (mempool_add (tx 1 2 1));
     two ← st_total (prune_below_nonce sender 2);
     _ ← assert_eq (λ _, two) 2;
     _ ← assert_eq mempool_len 1;
     _ ← assert_eq (λ p, length (ready_for p sender 2)) 1%nat;
     one ← st_total (prune_below_nonce sender 3);
     _ ← assert_eq (λ _, one) 1;
     _ ← assert mempool_is_empty;
     _ ← assert_eq sender_count 0;
     none ← st_total (prune_below_nonce sender 9);
     assert_eq (λ _, none) 0) default_pool);
   ("pending_order_is_deterministic", passes (
     _ ← unwrap (mempool_add (tx 2 0 5));
     _ ← unwrap (mempool_add (tx 1 1 5));
     _ ← unwrap (mempool_add (tx 1 0 5));
     _ ← unwrap (mempool_add (tx 3 0 50));
     assert_eq (λ p, (λ tx, (head (array_bytes (tx_from tx)), tx_nonce tx, tx_gas_price tx))
                       <$> pending p)
       [(Some (byte_of 3), 0, 50); (Some (byte_of 1), 0, 5); (Some (byte_of 1), 1, 5);
        (Some (byte_of 2), 0, 5)]) default_pool);
   ("invalid_configuration_is_rejected_and_clamped",
     errs (try_new (config 0 max_per_sender_default max_data_default))
       (λ e, match e with InvalidConfig _ => true | _ => false end)
     && errs (try_new (config max_pending_default 0 max_data_default))
       (λ e, match e with InvalidConfig _ => true | _ => false end)
     && is_ok (try_new (config 4 64 max_data_default))
     && (max_pending (mp_config (mempool_new (config 0 max_per_sender_default max_data_default)))
         =? max_pending_default))].

Lemma mempool_tests_pass : all_pass (mempool_tests_admission ++ mempool_tests_queries) = true.
Proof. vm_compute. reflexivity. Qed.
End MempoolTests.

Module StorageTests.
Notation addr := test_addr.
Definition transfer (nonce : Z) : Transaction := test_tx Transfer nonce 1 (Some 2) 10 1 21000 [] 1.

(** A one-transaction-per-block ledger: the loop's [parent], [blocks] and
    [receipts] beside the state. *)
Record Chain := { ch_parent : Hash; ch_blocks : list Block; ch_receipts : list Receipt }.
Definition ledger_block (height : Z) (c : Chain) : ST State StateError Chain :=
  let tx := transfer (height - 1) in
  _ ← apply_transaction tx;
  state ← st_gets id;
  let h := tx_hash tx in
  let gas_used := tx_gas_limit tx in
  let header :=
    {| hdr_version := 1; hdr_chain_id := 1; hdr_height := height;
       hdr_timestamp := 1700000000 + height; hdr_parent_hash := ch_parent c;
       hdr_state_root := root state; hdr_tx_root := tx_root_of [h];
       hdr_receipt_root := receipt_root h height gas_used; hdr_validator := Address_ZERO;
       hdr_gas_used := gas_used; hdr_gas_limit := BLOCK_GAS_LIMIT; hdr_extra_data := [] |} in
  let block := {| blk_header := header; blk_transactions := [tx]; blk_signatures := [] |} in
  let receipt :=
    {| rcpt_tx_hash := h; rcpt_block_hash := block_hash block; rcpt_block_height := height;
       rcpt_gas_used := gas_used; rcpt_status := Success; rcpt_logs := [];
       rcpt_contract_address := None |} in
  mret {| ch_parent := block_hash block; ch_blocks := ch_blocks c ++ [block];
          ch_receipts := ch_receipts c ++ [receipt] |}.
Definition ledger (block_count : Z) : LedgerSnapshot * State :=
  let build : ST State StateError Chain :=
    _ ← credit (addr 1) 10000000;
    foldl (λ m height, c ← m; ledger_block height c)
      (mret {| ch_parent := Hash_ZERO; ch_blocks := []; ch_receipts := [] |})
      (seqZ 1 block_count) in
  let '(state, c) := build (with_chain_id 1) in
  ({| ldg_chain_id := 1; ldg_state := snapshot state;
      ldg_blocks := match c with Ok c => ch_blocks c | Err _ => [] end;
      ldg_receipts := match c with Ok c => ch_receipts c | Err _ => [] end |}, state).

Definition on_store (opened : result StorageError LedgerStore) (t : LedgerStore → Test Disk)
  : bool := match opened with Ok store => passes (t store) empty_disk | Err _ => false end.
Definition loads {A : Type} `{!EqDecision A} (store : LedgerStore) (f : RestoredLedger → A) (a : A)
  : Test Disk := assert (λ d, ok_eq (f <$> load store None None d) a).
(** [fs::write(&path, &bytes)] *)
Definition fs_write (data : bytes) : Test Disk :=
  st_modify (λ d, {| d_target := Some {| f_bytes := data; f_synced := false |};
                     d_temp := d_temp d; d_shadow := d_shadow d |}).
(** [bytes[i] ^= mask] *)
Definition flip (i : nat) (mask : Z) (l : bytes) : bytes :=
  alter (λ b, byte_of (Z.lxor (byte_val b) mask)) i l.

Definition storage_tests_store : list (string * bool) :=
  let '(snapshot3, state3) := ledger 3 in
  let '(snapshot1, _) := ledger 1 in
  [("round_trip_restores_state_blocks_and_receipts", on_store (open 1 "dir" None) (λ store,
     _ ← assert (λ d, negb (exists_ store d));
     _ ← loads store height 0;
     _ ← unwrap (persist store no_error snapshot3);
     _ ← assert (exists_ store);
     _ ← loads store height 3;
     _ ← loads store (λ restored, length (rst_blocks restored)) 3%nat;
     _ ← loads store (λ restored, length (rst_receipts restored)) 3%nat;
     _ ← loads store (λ restored, root (rst_state restored)) (root state3);
     loads store (λ restored, balance (rst_state restored) (addr 2)) 30));
   ("ephemeral_store_validates_but_never_writes", on_store (ephemeral 1) (λ store,
     _ ← unwrap (persist store no_error snapshot1);
     _ ← assert (λ d, negb (exists_ store d));
     _ ← assert_eq (λ _, ls_dir store) None;
     _ ← loads store height 0;
     let foreign := {| ldg_chain_id := 9; ldg_state := ldg_state snapshot1;
                       ldg_blocks := ldg_blocks snapshot1;
                       ldg_receipts := ldg_receipts snapshot1 |} in
     matches_err (persist store no_error foreign)
       (λ e, match e with ChainMismatch 1 9 => true | _ => false end)));
   ("zero_chain_id_is_rejected",
     errs (open 0 "dir" None) (λ e, match e with InvalidChainId => true | _ => false end)
     && errs (ephemeral 0) (λ e, match e with InvalidChainId => true | _ => false end));
   ("bit_flip_anywhere_in_the_file_is_rejected", on_store (open 1 "dir" None) (λ store,
     _ ← unwrap (persist store no_error (ledger 2).1);
     original ← st_gets (λ d, from_option f_bytes [] (d_target d));
     _ ← fs_write (flip (length original - 1) 1 original);
     _ ← assert (λ d, errs (load store None None d) any);
     _ ← fs_write (flip 0 255 original);
     _ ← assert (λ d, errs (load store None None d)
                        (λ e, match e with UnsupportedFormat => true | _ => false end));
     _ ← fs_write (take (length original / 2) original);
     _ ← assert (λ d, errs (load store None None d) any);
     _ ← fs_write original;
     assert (λ d, is_ok (load store None None d))));
   ("ledger_from_another_chain_is_rejected", on_store (open 1 "dir" None) (λ store,
     _ ← unwrap (persist store no_error snapshot1);
     assert (λ d, match open 2 "dir" None with
                  | Ok other_chain => errs (load other_chain None None d)
                      (λ e, match e with ChainMismatch 2 1 => true | _ => false end)
                  | Err _ => false
                  end)))].

(** Edits of the second block and of its receipt. *)
Definition edit_header (f : BlockHeader → BlockHeader) (b : Block) : Block :=
  {| blk_header := f (blk_header b); blk_transactions := blk_transactions b;
     blk_signatures := blk_signatures b |}.
Definition header_with (height : Z) (parent : Hash) (gas_used : Z) (h : BlockHeader) : BlockHeader :=
  {| hdr_version := hdr_version h; hdr_chain_id := hdr_chain_id h; hdr_height := height;
     hdr_timestamp := hdr_timestamp h; hdr_parent_hash := parent;
     hdr_state_root := hdr_state_root h; hdr_tx_root := hdr_tx_root h;
     hdr_receipt_root := hdr_receipt_root h; hdr_validator := hdr_validator h;
     hdr_gas_used := gas_used; hdr_gas_limit := hdr_gas_limit h;
     hdr_extra_data := hdr_extra_data h |}.
Definition receipt_with (gas_used : Z) (status : ReceiptStatus) (r : Receipt) : Receipt :=
  {| rcpt_tx_hash := rcpt_tx_hash r; rcpt_block_hash := rcpt_block_hash r;
     rcpt_block_height := rcpt_block_height r; rcpt_gas_used := gas_used; rcpt_status := status;
     rcpt_logs := rcpt_logs r; rcpt_contract_address := rcpt_contract_address r |}.
Definition storage_tests_chain : list (string * bool) :=
  let '(snapshot, state) := ledger 2 in
  let blocks := ldg_blocks snapshot in
  let receipts := ldg_receipts snapshot in
  let rejected blocks receipts state := errs (validate_chain blocks receipts 1 state) any in
  let edited f := alter (edit_header f) 1%nat blocks in
  [("validator_rejects_tampered_history",
     rejected (edited (λ h, header_with 5 (hdr_parent_hash h) (hdr_gas_used h) h)) receipts state
     && rejected (edited (λ h, header_with (hdr_height h) Hash_ZERO (hdr_gas_used h) h)) receipts
          state
     && rejected (alter (λ b, {| blk_header := blk_header b; blk_transactions := [transfer 99];
                                 blk_signatures := blk_signatures b |}) 1%nat blocks) receipts state
     && rejected (edited (λ h, header_with (hdr_height h) (hdr_parent_hash h)
                                 (BLOCK_GAS_LIMIT + 1) h)) receipts state
     && rejected blocks (take 1 receipts) state
     && rejected blocks (take 1 receipts ++ take 1 receipts) state
     && rejected blocks
          (alter (λ r, receipt_with (rcpt_gas_used r + 1) (rcpt_status r) r) 1%nat receipts) state
     && rejected blocks (alter (λ r, receipt_with (rcpt_gas_used r) Failure r) 1%nat receipts) state
     && rejected blocks receipts (credit (addr 7) 1 (with_chain_id 1)).1
     && is_ok (validate_chain blocks receipts 1 state));
   ("empty_history_is_valid", is_ok (validate_chain [] [] 1 (with_chain_id 1)));
   ("persist_overwrites_atomically_and_keeps_the_latest_ledger",
     on_store (open 1 "dir" None) (λ store,
     _ ← unwrap (persist store no_error (ledger 1).1);
     _ ← unwrap (persist store no_error (ledger 3).1);
     _ ← loads store height 3;
     assert (λ d, bool_decide (¬ is_Some (d_temp d)))))].

Lemma storage_tests_pass : all_pass (storage_tests_store ++ storage_tests_chain) = true.
Proof. vm_compute. reflexivity. Qed.

(** [oversized_ledger_is_refused_on_read]: the file is one byte over the limit, and the
    load stops at its length. *)
Lemma oversized_ledger_is_refused_on_read data :
  Z.of_nat (length data) = MAX_LEDGER_BYTES + 1 →
  load store1 None None
    {| d_target := Some {| f_bytes := data; f_synced := false |}; d_temp := None;
       d_shadow := None |} = Err (TooLarge (MAX_LEDGER_BYTES + 1) MAX_LEDGER_BYTES).
Proof. intros Hlen. unfold load. cbn [ls_dir store1 d_target f_bytes]. by rewrite Hlen. Qed.
End StorageTests.
