(* ===== verification/TestRpc.v ===== *)
(** * The tests of the RPC crate

    The test module of [subhost-rpc]. A request over HTTP is a call of the registered
    method; the reply's ["result"] is the value of the handler and its ["error"] the
    error object of the failure. *)

From Stdlib Require Import String.
From S2P Require Import Prelude Order Text Deps Bincode Core WorldState Mempool Storage Rpc RpcApi Harness.
Import Ref.

Module RpcTests.
Notation addr := test_addr.
Definition signing_key (seed : Z) : array 32 := array_repeat (byte_of seed) 32.
Definition key_address (key : array 32) : Address :=
  from_public_key (array_bytes (ed_public_key key)).
Definition sign_transaction (key : array 32) (tx : Transaction) : Transaction :=
  with_signature tx (from_ed25519 (ed_sign key (signing_payload tx))).
Definition unsigned_transfer (key : array 32) (nonce value gas_price gas_limit : Z) : Transaction :=
  {| tx_type := Transfer; tx_nonce := nonce; tx_from := key_address key;
     tx_to := Some (addr 2); tx_value := value; tx_gas_price := gas_price;
     tx_gas_limit := gas_limit; tx_data := []; tx_chain_id := 1; tx_signature := EMPTY |}.
Definition signed_transfer (key : array 32) (nonce value : Z) : Transaction :=
  sign_transaction key (unsigned_transfer key nonce value 1 DEFAULT_TX_GAS_LIMIT).
(** The clock of the tests. *)
Definition now : Z := 1700000000.
Notation submit := (submit_transaction no_error now).
Definition with_state {E : Type} (opened : result E RpcState) (t : Test RpcState) : bool :=
  match opened with Ok n => passes t n | Err _ => false end.
Definition funded_state (key : array 32) (balance : Z) (t : Test RpcState) : bool :=
  with_state (in_memory 1 empty_disk)
    (_ ← unwrap (seed_accounts no_error [(key_address key, balance)]); t).
Definition repeat_text (n : nat) (s : string) : string := String.concat EmptyString (replicate n s).

Definition rpc_tests_parsing : list (string * bool) :=
  [("quantity_parsing_is_strict",
     ok_eq (hex_quantity (Some (VString "0x1f")) 0) 31
     && ok_eq (hex_quantity (Some (VString "0x0")) 0) 0
     && ok_eq (hex_quantity None 7) 7
     && errs (hex_quantity (Some (VString "1f")) 0) any
     && errs (hex_quantity (Some (VString "0x01")) 0) any
     && errs (hex_quantity (Some (VString "0x")) 0) any
     && errs (hex_quantity (Some (VString "0xzz")) 0) any
     && errs (hex_quantity (Some (VNumber 31)) 0) any
     && is_ok (hex_amount (Some (VString "0x100000000000000000000")) 0));
   ("fixed_and_variable_hex_parsing_is_strict",
     errs (fixed_hex 32 (Some (VString (repeat_text 32 "00")))) any
     && errs (fixed_hex 32 (Some (VString ("0x" +:+ repeat_text 31 "00")))) any
     && is_ok (fixed_hex 32 (Some (VString ("0x" +:+ repeat_text 32 "00"))))
     && errs (fixed_hex 32 None) any
     && ok_eq (hex_data None) [] && ok_eq (hex_data (Some (VString "0x"))) []
     && ok_eq (hex_data (Some (VString "0xdead"))) [byte_of 222; byte_of 173]
     && errs (hex_data (Some (VString "dead"))) any
     && errs (hex_data (Some (VString "0xodd"))) any);
   ("address_and_hash_parsing_reject_wrong_widths",
     errs (parse_address "0x1234") any
     && is_ok (parse_address ("0x" +:+ repeat_text 20 "11"))
     && errs (parse_tx_hash ("0x" +:+ repeat_text 20 "11")) any
     && is_ok (parse_tx_hash ("0x" +:+ repeat_text 32 "11")));
   ("block_tag_resolution_covers_tags_heights_and_gaps",
     ok_eq (resolve_block_height "latest" 0) None
     && ok_eq (resolve_block_height "latest" 3) (Some 3)
     && ok_eq (resolve_block_height "pending" 3) (Some 3)
     && ok_eq (resolve_block_height "finalized" 3) (Some 3)
     && ok_eq (resolve_block_height "earliest" 3) (Some 1)
     && ok_eq (resolve_block_height "0x2" 3) (Some 2)
     && ok_eq (resolve_block_height "0x0" 3) None
     && ok_eq (resolve_block_height "0x9" 3) None
     && errs (resolve_block_height "2" 3) any);
   ("signature_verification_binds_payload_and_sender",
     let key := signing_key 7 in
     let public_key := ed_public_key key in
     let tx := signed_transfer key 0 10 in
     let signature := to_ed25519 (tx_signature tx) in
     let tampered := with_signature (unsigned_transfer key 0 11 1 DEFAULT_TX_GAS_LIMIT)
                       (tx_signature tx) in
     let attacker := signing_key 9 in
     let is_signature e := match e with RpcInvalidSignature => true | _ => false end in
     is_ok (verify_transaction_signature tx public_key signature)
     && errs (verify_transaction_signature tampered public_key signature) is_signature
     && errs (verify_transaction_signature tx (ed_public_key attacker)
                (ed_sign attacker (signing_payload tx))) is_signature)].

Definition rpc_tests_producer : list (string * bool) :=
  let key := signing_key 7 in
  let sender := key_address key in
  let is_rejected e := match e with TransactionRejected _ => true | _ => false end in
  [("producer_executes_transfer_and_records_receipt", funded_state key 100000 (
     hash ← unwrap (submit (signed_transfer key 0 10));
     _ ← assert_eq rs_block_height 1;
     _ ← assert_eq (λ n, rpc_balance n (addr 2)) 10;
     _ ← assert_eq (λ n, rpc_nonce n sender) 1;
     _ ← assert_eq pending_count 0;
     _ ← assert_eq (λ n, rcpt_block_height <$> rpc_receipt n hash) (Some 1);
     _ ← assert_eq (λ n, rcpt_status <$> rpc_receipt n hash) (Some Success);
     _ ← assert_eq (λ n, hdr_parent_hash ∘ blk_header <$> block_at_height n 1) (Some Hash_ZERO);
     assert_eq (λ n, hdr_tx_root ∘ blk_header <$> block_at_height n 1)
       (Some (tx_root_of [hash]))));
   ("consecutive_transfers_chain_blocks", funded_state key 1000000 (
     _ ← unwrap (submit (signed_transfer key 0 10));
     _ ← unwrap (submit (signed_transfer key 1 20));
     _ ← assert_eq rs_block_height 2;
     first ← st_gets (λ n, block_at_height n 1);
     second ← st_gets (λ n, block_at_height n 2);
     _ ← assert_eq (λ _, hdr_parent_hash ∘ blk_header <$> second) (block_hash <$> first);
     assert_eq (λ n, rpc_balance n (addr 2)) 30));
   ("rejects_insufficient_balance_without_mutating_state", with_state (in_memory 1 empty_disk) (
     _ ← matches_err (submit (signed_transfer key 0 10)) is_rejected;
     _ ← assert_eq rs_block_height 0;
     _ ← assert_eq block_count 0;
     assert_eq pending_count 0));
   ("rejects_gas_above_the_block_limit_without_commit", funded_state key (u128_max / 2) (
     let tx := with_signature (unsigned_transfer key 0 10 1 (BLOCK_GAS_LIMIT + 1))
                 (tx_signature (signed_transfer key 0 10)) in
     _ ← matches_err (submit tx) is_rejected;
     _ ← assert_eq rs_block_height 0;
     assert_eq pending_count 0));
   ("failed_replacement_restores_the_previous_pending_transaction",
     with_state (in_memory 1 empty_disk) (
     let original := signed_transfer key 0 10 in
     _ ← unwrap (with_mempool (mempool_add original));
     let replacement := with_signature (unsigned_transfer key 0 10 2 DEFAULT_TX_GAS_LIMIT)
                          (tx_signature original) in
     _ ← matches_err (submit replacement) any;
     assert_eq (λ n, tx_gas_price ∘ snd <$> get_by_sender_nonce (rs_mempool n) sender 0)
       (Some (tx_gas_price original))))].

(** [RpcState::with_data_dir(1, dir.path())] on the disk the previous node left. *)
Definition on_disk (t : Test RpcState) (restarted : Test RpcState) : bool :=
  match with_data_dir 1 "dir" None None None empty_disk with
  | Ok n => match t n with
            | (n', Ok _) => with_state (with_data_dir 1 "dir" None None None (rs_disk n')) restarted
            | (_, Err _) => false
            end
  | Err _ => false
  end.
(** The last byte of the ledger file flipped. *)
Definition corrupt (d : Disk) : Disk :=
  {| d_target := (λ f, {| f_bytes := alter (λ b, byte_of (Z.lxor (byte_val b) 1))
                                       (length (f_bytes f) - 1)%nat (f_bytes f);
                          f_synced := false |}) <$> d_target d;
     d_temp := d_temp d; d_shadow := d_shadow d |}.
Definition rpc_tests_restart : list (string * bool) :=
  let key := signing_key 7 in
  let sender := key_address key in
  [("seeding_is_idempotent_and_survives_a_restart",
     let address := addr 1 in
     on_disk (
       _ ← assert (λ n, negb (has_persisted_state n));
       _ ← unwrap (seed_accounts no_error [(address, 42)]);
       _ ← unwrap (seed_accounts no_error [(address, 42)]);
       _ ← assert has_persisted_state;
       assert_eq (λ n, rpc_balance n address) 42)
      (_ ← assert_eq rs_block_height 0;
       _ ← assert has_persisted_state;
       assert_eq (λ n, rpc_balance n address) 42));
   ("persisted_ledger_restores_blocks_receipts_and_state",
     let hash := tx_hash (signed_transfer key 0 10) in
     on_disk (
       _ ← unwrap (seed_accounts no_error [(sender, 100000)]);
       submitted ← unwrap (submit (signed_transfer key 0 10));
       assert_eq (λ _, submitted) hash)
      (_ ← assert_eq rs_block_height 1;
       _ ← assert_eq block_count 1;
       _ ← assert (λ n, bool_decide (is_Some (rpc_receipt n hash)));
       _ ← assert_eq (λ n, rpc_balance n (addr 2)) 10;
       assert_eq (λ n, rpc_nonce n sender) 1));
   ("corrupted_ledger_is_rejected_on_startup",
     with_state (with_data_dir 1 "dir" None None None empty_disk) (
     _ ← unwrap (seed_accounts no_error [(sender, 100000)]);
     _ ← unwrap (submit (signed_transfer key 0 10));
     assert (λ n, errs (with_data_dir 1 "dir" None None None (corrupt (rs_disk n))) any)))].

Definition text (s : string) : Value := VString s.
Definition transfer_params (from to value : string) (more : list (string * Value)) : Value :=
  VObject ([("from", text from); ("to", text to); ("value", text value)] ++ more).
Definition rpc_tests_params : list (string * bool) :=
  let from := address_to_string (addr 1) in
  let to := address_to_string (addr 2) in
  let base more := VObject ([("from", text from); ("to", text to)] ++ more) in
  [("contract_creation_is_refused_before_it_reaches_the_pool",
     errs (transaction_from_params (VObject [("from", text from); ("value", text "0x1")]) 1)
       (λ e, match e with RpcUnsupportedTransactionType ContractCreation => true | _ => false end));
   ("transaction_params_reject_a_foreign_chain_id",
     errs (transaction_from_params (base [("chainId", text "0x9")]) 1)
       (λ e, match e with RpcInvalidChainId => true | _ => false end));
   ("transaction_params_accept_gas_and_gas_limit_aliases",
     ok_eq (tx_gas_limit <$> transaction_from_params (base []) 1) DEFAULT_TX_GAS_LIMIT
     && ok_eq (tx_gas_limit <$> transaction_from_params (base [("gas", text "0x7530")]) 1) 30000
     && ok_eq (tx_gas_limit <$> transaction_from_params (base [("gasLimit", text "0x7530")]) 1)
          30000)].

(** [rpc_request(addr, json!({"method": method, "params": params}))] *)
Definition reply_json (r : result RpcError Value) : Value :=
  match r with
  | Ok v => VObject [("result", v)]
  | Err e => VObject [("error", VObject [("code", VNumber (error_object e).1)])]
  end.
Definition rpc_request (method : string) (params : list Value) : ST RpcState string Value := λ n,
  match assoc method (build_module no_error now) with
  | Some handler => let '(n', r) := handler (Some params) n in (n', Ok (reply_json r))
  | None => (n, Err "method not found")
  end.
(** [reply[k1][k2]..], where an index that is absent is [Null]. *)
Definition at_path (path : list string) (v : Value) : Value :=
  foldl (λ v k, default VNull (value_get k v)) v path.
Definition at_index (i : nat) (v : Value) : Value :=
  match v with VArray l => default VNull (l !! i) | _ => VNull end.
Definition request_eq (method : string) (params : list Value) (path : list string) (v : Value)
  : Test RpcState := reply ← rpc_request method params; assert_eq (λ _, at_path path reply) v.

Definition rpc_tests_http_round_trip : list (string * bool) :=
  let key := signing_key 7 in
  let public_key := ed_public_key key in
  let sender := key_address key in
  let tx := signed_transfer key 0 10 in
  let hash := hash_to_string (tx_hash tx) in
  [("http_round_trip_covers_send_receipt_block_and_transaction", funded_state key 100000 (
     _ ← request_eq "eth_sendTransaction"
           [VObject [("from", text (address_to_string sender));
                     ("to", text (address_to_string (addr 2)));
                     ("value", text "0xa"); ("nonce", text "0x0"); ("gasPrice", text "0x1");
                     ("gas", text "0x5208"); ("chainId", text "0x1"); ("data", text "0x");
                     ("publicKey", json_hex (array_bytes public_key));
                     ("signature", json_hex (array_bytes (to_ed25519 (tx_signature tx))))]]
           ["result"] (text hash);
     _ ← request_eq "eth_getTransactionReceipt" [text hash] ["result"; "blockNumber"] (text "0x1");
     _ ← request_eq "eth_getTransactionReceipt" [text hash] ["result"; "status"] (text "0x1");
     block ← rpc_request "eth_getBlockByNumber" [text "latest"; VBool true];
     _ ← assert_eq (λ _, at_path ["result"; "number"] block) (text "0x1");
     let listed := at_index 0 (at_path ["result"; "transactions"] block) in
     _ ← assert_eq (λ _, at_path ["hash"] listed) (text hash);
     _ ← assert_eq (λ _, at_path ["from"] listed) (text (address_to_string sender));
     _ ← request_eq "eth_getTransactionByHash" [text hash] ["result"; "value"] (text "0xa");
     _ ← request_eq "eth_getTransactionByHash" [text hash] ["result"; "type"] (text "transfer");
     _ ← request_eq "eth_getBalance" [text (address_to_string (addr 2)); text "latest"] ["result"]
           (text "0xa");
     request_eq "eth_getTransactionCount" [text (address_to_string sender); text "latest"]
       ["result"] (text "0x1")))].

Definition rpc_tests_http_surface : list (string * bool) :=
  let key := signing_key 7 in
  let sender := address_to_string (key_address key) in
  let attacker := signing_key 9 in
  let victim_tx := signed_transfer key 0 10 in
  let to := address_to_string (addr 2) in
  let code := ["error"; "code"] in
  [("http_surface_reports_chain_metadata_and_missing_data_as_null",
     with_state (in_memory 1337 empty_disk) (
     _ ← request_eq "eth_chainId" [] ["result"] (text "0x539");
     _ ← request_eq "net_version" [] ["result"] (text "1337");
     _ ← request_eq "eth_gasPrice" [] ["result"] (text "0x1");
     _ ← request_eq "eth_getBlockByNumber" [text "latest"; VBool false] ["result"] VNull;
     request_eq "eth_getTransactionReceipt" [text ("0x" +:+ repeat_text 32 "11")] ["result"] VNull));
   ("http_surface_rejects_unsigned_and_malformed_requests", funded_state key 100000 (
     _ ← request_eq "eth_sendTransaction" [transfer_params sender to "0xa" []] code
           (VNumber (-32602));
     _ ← request_eq "eth_sendTransaction"
           [transfer_params sender to "0xa"
              [("nonce", text "0x0"); ("gasPrice", text "0x1"); ("gas", text "0x5208");
               ("chainId", text "0x1"); ("publicKey", json_hex (array_bytes (ed_public_key attacker)));
               ("signature",
                 json_hex (array_bytes (ed_sign attacker (signing_payload victim_tx))))]] code
           (VNumber (-32602));
     _ ← request_eq "eth_getBalance" [text "0x1234"; text "latest"] code (VNumber (-32602));
     _ ← request_eq "eth_getTransactionReceipt" [text "0xzz"] code (VNumber (-32602));
     request_eq "eth_getBalance" [text to; text "latest"] ["result"] (text "0x0")))].

Lemma rpc_tests_pass :
  all_pass (rpc_tests_parsing ++ rpc_tests_producer ++ rpc_tests_restart ++ rpc_tests_params
            ++ rpc_tests_http_round_trip ++ rpc_tests_http_surface) = true.
Proof. vm_compute. reflexivity. Qed.
End RpcTests.
