(* ===== verification/TestCrypto.v ===== *)
(** * The tests of the crypto crate

    The test module of [subhost-crypto], on the reference curve and ciphers; the [n]th
    draw of a key or nonce is a string of bytes [n]. The test of low-order X25519 points is
    about the curve itself and has no counterpart. *)

From Stdlib Require Import String.
From S2P Require Import Prelude Text Deps Bincode Core Crypto Harness.
Import RefCurve.

Module CryptoTests.
Definition draw (n : Z) (len : nat) : array len := array_repeat (byte_of n) len.
Definition keypair (n : Z) : Z * PublicKey := default (0, g1_zero) (keygen [draw n 32]).
Notation b := str_bytes.

Definition crypto_tests_bls : list (string * bool) :=
  let '(secret, public) := keypair 1 in
  let '(secret_two, public_two) := keypair 2 in
  [("bls_sign_and_verify_round_trip",
     let signature := bls_sign secret (b "test message") in
     bls_verify public (b "test message") signature
     && negb (bls_verify public (b "other message") signature)
     && negb (bls_verify public_two (b "test message") signature));
   ("bls_keygen_never_yields_an_identity_key",
     forallb (λ n, let '(secret, public) := keypair n in
                   negb (g1_is_zero public) && negb (secret mod scalar_order =? 0)) (seqZ 1 8));
   ("bls_rejects_identity_keys_and_signatures",
     negb (bls_verify g1_zero (b "m") g2_zero) && negb (bls_verify public (b "m") g2_zero)
     && negb (verify_aggregate [g1_zero] [b "m"] g2_zero)
     && negb (verify_possession g1_zero g2_zero));
   ("bls_aggregation_verifies_distinct_messages",
     let first := b "message 1" in
     let second := b "message 2" in
     let aggregate := aggregate_signatures [bls_sign secret first; bls_sign secret_two second] in
     verify_aggregate [public; public_two] [first; second] aggregate
     && negb (verify_aggregate [public_two; public] [first; second] aggregate)
     && negb (verify_aggregate [public] [first; second] aggregate)
     && negb (verify_aggregate [] [] g2_zero));
   ("bls_aggregation_verifies_a_shared_message",
     let message := b "shared proposal" in
     let aggregate := aggregate_signatures [bls_sign secret message; bls_sign secret_two message] in
     verify_aggregate_shared_message [public; public_two] message aggregate
     && negb (verify_aggregate_shared_message [public] message aggregate)
     && negb (verify_aggregate_shared_message [] message aggregate));
   ("proof_of_possession_binds_exactly_one_key",
     let proof := proof_of_possession secret in
     verify_possession public proof && negb (verify_possession public_two proof)
     && negb (verify_possession public (bls_sign secret (b "not the public key"))));
   ("hash_to_g2_is_domain_separated_and_length_prefixed",
     let first := bls_sign secret (b "abc") in
     let empty := bls_sign secret [] in
     bls_verify public (b "abc") first && negb (bls_verify public (b "ab") first)
     && negb (bls_verify public (b "abcd") first)
     && bls_verify public [] empty && negb (bls_verify public [byte_of 0] empty))].

Definition crypto_tests_sealing : list (string * bool) :=
  let key := draw 3 32 in
  let encrypt n plaintext := crypto_encrypt key (draw n AEAD_NONCE_BYTES) plaintext in
  let is_decryption e := match e with DecryptionFailed => true | _ => false end in
  [("aead_round_trip_and_tamper_detection",
     match encrypt 4 (b "secret data") with
     | Ok ciphertext =>
         let tampered := alter (λ c, byte_of (Z.lxor (byte_val c) 1)) (length ciphertext - 1)%nat
                           ciphertext in
         ok_eq (crypto_decrypt key ciphertext) (b "secret data")
         && errs (crypto_decrypt key tampered) is_decryption
         && errs (crypto_decrypt (draw 5 32) ciphertext) any
     | Err _ => false
     end);
   ("aead_nonce_is_random_per_message",
     match encrypt 6 (b "same plaintext"), encrypt 7 (b "same plaintext") with
     | Ok first, Ok second =>
         bool_decide (take AEAD_NONCE_BYTES first ≠ take AEAD_NONCE_BYTES second)
         && bool_decide (first ≠ second)
     | _, _ => false
     end);
   ("aead_rejects_truncated_input_without_panicking",
     forallb (λ len, errs (crypto_decrypt key (replicate len (byte_of 0)))
                       (λ e, match e with InvalidCiphertext => true | _ => false end))
       (seq 0 (S AEAD_NONCE_BYTES))
     && errs (crypto_decrypt key (replicate (AEAD_NONCE_BYTES + 1) (byte_of 0))) is_decryption);
   ("aead_handles_empty_plaintext",
     match encrypt 8 [] with
     | Ok ciphertext => ok_eq (crypto_decrypt key ciphertext) []
     | Err _ => false
     end);
   ("x25519_exchange_agrees_and_is_non_trivial",
     let '(secret_a, public_a) := exchange_generate_keypair (draw 9 32) in
     let '(secret_b, public_b) := exchange_generate_keypair (draw 11 32) in
     let '(secret_c, _) := exchange_generate_keypair (draw 13 32) in
     negb (all_zero (array_bytes secret_a)) && negb (all_zero (array_bytes public_b))
     && bool_decide (exchange_public_key secret_a = public_a)
     && match shared_secret secret_a public_b, shared_secret secret_b public_a,
              shared_secret secret_c public_b with
        | Ok shared_a, Ok shared_b, Ok shared_c =>
            bool_decide (shared_a = shared_b) && negb (all_zero (array_bytes shared_a))
            && bool_decide (shared_c ≠ shared_a)
        | _, _, _ => false
        end)].

Definition crypto_tests_ed25519 : list (string * bool) :=
  [("ed25519_round_trip_and_rejection",
     let '(signing_key, verifying_key) := ed25519_generate_keypair (draw 14 32) in
     let signature := ed25519_sign signing_key (b "payload") in
     ed25519_verify verifying_key (b "payload") signature
     && negb (ed25519_verify verifying_key (b "tampered") signature)
     && let '(_, other) := ed25519_generate_keypair (draw 15 32) in
        negb (ed25519_verify other (b "payload") signature))].

Lemma crypto_tests_pass : all_pass (crypto_tests_bls ++ crypto_tests_sealing ++ crypto_tests_ed25519) = true.
Proof. vm_compute. reflexivity. Qed.
End CryptoTests.
