(* ===== verification/TestConsensus.v ===== *)
(** * The tests of the consensus crate

    The test module of [subhost-consensus], on the reference curve; the [i]th call of
    [BLSScheme::keygen] draws a string of bytes [i]. *)

From Stdlib Require Import String.
From S2P Require Import Prelude Order Text Deps Bincode Core Storage Crypto Consensus Harness.
Import RefCurve.

Module ConsensusTests.
Notation address := test_addr.
#[local] Instance ser_header : Serialize BlockHeader := codec_serialize c_header.
#[local] Instance ser_vertex : Serialize (Address * Z * Hash * list Hash) :=
  codec_serialize (c_pair (c_pair (c_pair c_address c_u64) c_hash) (c_list c_hash)).

Definition block (height : Z) : Block :=
  {| blk_header :=
       {| hdr_version := 1; hdr_chain_id := 1; hdr_height := height;
          hdr_timestamp := 1700000000 + height; hdr_parent_hash := Hash_ZERO;
          hdr_state_root := Hash_ZERO; hdr_tx_root := Hash_ZERO; hdr_receipt_root := Hash_ZERO;
          hdr_validator := Address_ZERO; hdr_gas_used := 0; hdr_gas_limit := BLOCK_GAS_LIMIT;
          hdr_extra_data := [] |};
     blk_transactions := []; blk_signatures := [] |}.
Definition vertex (author round : Z) (parents : list Hash) : DAGVertex :=
  {| vx_author := address author; vx_round := round; vx_block := block round;
     vx_parents := parents; vx_signature := [] |}.
Definition with_config {S : Type} (validators : Z) (make : ConsensusConfig → S) (t : Test S) : bool :=
  match consensus_config_new validators with Ok c => passes t (make c) | Err _ => false end.
Definition dag_test (validators : Z) (t : Test DAG) : bool := with_config validators dag_new t.
Definition is_invalid_vertex (e : ConsensusError) : bool :=
  match e with InvalidVertex _ => true | _ => false end.

Definition consensus_tests_vertices : list (string * bool) :=
  let first := from_data (str_bytes "a") in
  let second := from_data (str_bytes "b") in
  [("quorum_sizing_follows_the_bft_bound",
     forallb (λ '(validators, faulty, quorum),
         ok_eq ((λ c, (cc_max_faulty c, cc_quorum_threshold c)) <$> consensus_config_new validators)
           (faulty, quorum))
       [(1, 0, 1); (3, 0, 1); (4, 1, 3); (7, 2, 5); (10, 3, 7)]
     && errs (consensus_config_new 0) (λ e, match e with InvalidConfig _ => true | _ => false end));
   ("vertex_hash_commits_to_content_not_debug_formatting",
     let base := vertex 1 1 [] in
     bool_decide (vertex_hash base = vertex_hash (vertex 1 1 []))
     && bool_decide (vertex_hash base ≠ vertex_hash (vertex 2 1 []))
     && bool_decide (vertex_hash base ≠ vertex_hash (vertex 1 2 []))
     && bool_decide (vertex_hash (vertex 1 2 [first; second])
                     = vertex_hash (vertex 1 2 [second; first]))
     && bool_decide (vertex_hash (vertex 1 2 [first])
                     ≠ vertex_hash (vertex 1 2 [first; second])));
   ("dag_admission_requires_known_parents", dag_test 4 (
     genesis ← unwrap (add_vertex (vertex 1 1 []));
     _ ← assert_eq vertex_count 1;
     _ ← assert (λ d, dag_contains d genesis);
     _ ← assert_eq (λ d, vertex_round d genesis) (Some 1);
     again ← unwrap (add_vertex (vertex 1 1 []));
     _ ← assert_eq (λ _, again) genesis;
     _ ← assert_eq vertex_count 1;
     _ ← matches_err (add_vertex (vertex 2 2 [from_data (str_bytes "orphan")]))
           (λ e, match e with MissingParent _ => true | _ => false end);
     _ ← matches_err (add_vertex (vertex 1 0 [])) is_invalid_vertex;
     _ ← matches_err (add_vertex (vertex 2 2 [])) is_invalid_vertex;
     child ← unwrap (add_vertex (vertex 2 2 [genesis]));
     _ ← assert_eq (λ d, parents_of d child) (Some [genesis]);
     _ ← assert_eq latest_round 2;
     assert_eq (λ d, length (get_round d 2)) 1%nat));
   ("quorum_support_counts_distinct_next_round_authors", dag_test 4 (
     target ← unwrap (add_vertex (vertex 1 1 []));
     _ ← assert_eq (λ d, support_for d target) 0;
     _ ← unwrap (add_vertex (vertex 2 2 [target]));
     let duplicate := {| vx_author := address 2; vx_round := 2; vx_block := block 99;
                         vx_parents := [target]; vx_signature := [] |} in
     _ ← unwrap (add_vertex duplicate);
     _ ← assert_eq (λ d, support_for d target) 1;
     _ ← assert (λ d, negb (has_quorum_support d target));
     _ ← unwrap (add_vertex (vertex 3 2 [target]));
     _ ← assert_eq (λ d, support_for d target) 2;
     _ ← assert (λ d, negb (has_quorum_support d target));
     _ ← unwrap (add_vertex (vertex 4 2 [target]));
     _ ← assert_eq (λ d, support_for d target) 3;
     _ ← assert (λ d, has_quorum_support d target);
     assert_eq (λ d, support_for d (from_data (str_bytes "missing"))) 0))].

(** [(first..=last).map(f).collect()] where [f] may change the state. *)
Fixpoint collect {S A B : Type} (f : A → ST S string B) (l : list A) : ST S string (list B) :=
  match l with
  | [] => mret []
  | a :: l => b ← f a; bs ← collect f l; mret (b :: bs)
  end.
Definition consensus_tests_dag : list (string * bool) :=
  [("ancestry_alone_does_not_create_support", dag_test 4 (
     parents ← collect (λ author, unwrap (add_vertex (vertex author 1 []))) (seqZ 1 3);
     child ← unwrap (add_vertex (vertex 4 2 parents));
     _ ← assert_eq (λ d, support_for d child) 0;
     assert (λ d, negb (has_quorum_support d child))));
   ("commit_requires_quorum_support_and_a_known_vertex", dag_test 4 (
     target ← unwrap (add_vertex (vertex 1 1 []));
     _ ← matches_err (mark_committed (from_data (str_bytes "nope")))
           (λ e, match e with UnknownVertex _ => true | _ => false end);
     _ ← matches_err (mark_committed target)
           (λ e, match e with InsufficientSupport 0 3 => true | _ => false end);
     _ ← collect (λ author, unwrap (add_vertex (vertex author 2 [target]))) (seqZ 2 3);
     _ ← unwrap (mark_committed target);
     _ ← assert (λ d, is_committed d target);
     assert_eq committed_count 1));
   ("gc_drops_old_committed_rounds_and_keeps_uncommitted_history", dag_test 1 (
     first ← unwrap (add_vertex (vertex 1 1 []));
     _ ← unwrap (add_vertex (vertex 1 2 [first]));
     _ ← unwrap (mark_committed first);
     _ ← collect (λ round,
           previous ← st_gets (λ d, head (get_round d (round - 1)));
           parent ← st_lift (ok_or (vertex_hash <$> previous) "index out of bounds");
           unwrap (add_vertex (vertex 1 round [parent]))) (seqZ 3 6);
     before ← st_gets vertex_count;
     removed ← st_total (gc 3);
     _ ← assert (λ _, 0 <? removed);
     _ ← assert_eq vertex_count (before - removed);
     _ ← assert (λ d, negb (dag_contains d first));
     _ ← assert_eq latest_round 8;
     _ ← assert_eq (λ d, length (get_round d 2)) 1%nat;
     assert (λ d, forallb (λ round,
       forallb (λ v, dag_contains d (vertex_hash v)
                     && bool_decide (is_Some (parents_of d (vertex_hash v)))) (get_round d round))
       (seqZ 2 7))))].

(** The [i]th key pair, and a registry of [count] validators with their keys. *)
Definition keygen_pair (i : Z) : Z * PublicKey :=
  default (0, g1_zero) (keygen [array_repeat (byte_of i) 32]).
Definition registry (count : Z) : ValidatorRegistry * list (Address * Z) :=
  let build : ST ValidatorRegistry string (list (Address * Z)) :=
    collect (λ index,
      let '(secret, public) := keygen_pair index in
      let pop := proof_of_possession secret in
      let addr := address index in
      _ ← unwrap (register addr public pop);
      mret (addr, secret)) (seqZ 1 count) in
  let '(r, validators) := build registry_new in
  (r, match validators with Ok l => l | Err _ => [] end).
Definition compress (signature : Signature) : bytes := le_bytes BLS_SIGNATURE_BYTES signature.
Definition certificate (view : Z) (block_hash : Hash) (signers : list (Address * Z))
  : QuorumCertificate :=
  let payload := payload_for view block_hash in
  {| qc_view := view; qc_block_hash := block_hash;
     qc_signatures := (λ '(addr, secret), (addr, compress (bls_sign secret payload))) <$> signers |}.
Definition hotstuff_test (count : Z) (t : list (Address * Z) → Test HotStuff) : bool :=
  let '(r, validators) := registry count in
  with_config 4 (λ c, hotstuff_new c r) (t validators).
Definition qc_errs (qc : QuorumCertificate) (pattern : ConsensusError → bool) : Test HotStuff :=
  assert (λ s, errs (validate_qc s qc) pattern).
Definition is_malformed (e : ConsensusError) : bool :=
  match e with MalformedSignature _ => true | _ => false end.
Definition is_bad_signature (e : ConsensusError) : bool :=
  match e with InvalidSignature _ => true | _ => false end.

Definition consensus_tests_certificates : list (string * bool) :=
  let block_hash := from_data (str_bytes "block") in
  let qc view signatures :=
    {| qc_view := view; qc_block_hash := block_hash; qc_signatures := signatures |} in
  [("registry_requires_a_valid_proof_of_possession", passes (
     let '(secret, public) := keygen_pair 1 in
     let '(other_secret, _) := keygen_pair 2 in
     _ ← matches_err (register (address 1) public (proof_of_possession other_secret))
           (λ e, match e with InvalidProofOfPossession _ => true | _ => false end);
     _ ← assert registry_is_empty;
     let pop := proof_of_possession secret in
     _ ← unwrap (register (address 1) public pop);
     _ ← assert_eq registry_len 1;
     _ ← assert (λ r, registry_contains r (address 1));
     _ ← assert (λ r, bool_decide (¬ is_Some (registry_public_key r (address 2))));
     matches_err (register (address 1) public pop)
       (λ e, match e with DuplicateValidator _ => true | _ => false end)) registry_new);
   ("qc_validation_accepts_a_real_quorum", hotstuff_test 4 (λ validators,
     assert (λ s, is_ok (validate_qc s (certificate 1 block_hash (take 3 validators))))));
   ("qc_validation_rejects_forgeries_and_shortfalls", hotstuff_test 4 (λ validators,
     _ ← qc_errs (certificate 1 block_hash (take 2 validators))
           (λ e, match e with InsufficientSupport 2 3 => true | _ => false end);
     _ ← qc_errs (qc 1 []) any;
     _ ← qc_errs (qc 1 ((λ '(addr, _), (addr, [])) <$> take 3 validators)) is_malformed;
     _ ← qc_errs (qc 1 ((λ '(addr, _), (addr, replicate BLS_SIGNATURE_BYTES (byte_of 0)))
                          <$> take 3 validators))
           (λ e, is_malformed e || is_bad_signature e);
     let single := take 1 (qc_signatures (certificate 1 block_hash (take 1 validators))) in
     _ ← qc_errs (qc 1 (single ++ single ++ single))
           (λ e, match e with DuplicateSigner _ => true | _ => false end);
     let '(unknown_secret, _) := keygen_pair 5 in
     let foreign := qc_signatures (certificate 1 block_hash (take 2 validators)) in
     _ ← qc_errs (qc 1 (foreign ++ [(address 99,
                          compress (bls_sign unknown_secret (payload_for 1 block_hash)))]))
           (λ e, match e with UnknownValidator _ => true | _ => false end);
     let wrong_block := certificate 1 (from_data (str_bytes "other")) (take 3 validators) in
     _ ← qc_errs (qc 1 (qc_signatures wrong_block)) is_bad_signature;
     let other_view := certificate 9 block_hash (take 3 validators) in
     qc_errs (qc 1 (qc_signatures other_view)) is_bad_signature));
   ("qc_validation_fails_closed_without_a_registry", hotstuff_test 0 (λ _,
     qc_errs {| qc_view := 1; qc_block_hash := Hash_ZERO; qc_signatures := [] |}
       (λ e, match e with EmptyValidatorRegistry => true | _ => false end)));
   ("high_qc_only_advances_and_enforces_the_safety_rule", hotstuff_test 4 (λ validators,
     let signed view name signers :=
       certificate view (from_data (str_bytes name)) (take signers validators) in
     _ ← assert_eq hs_locked_view 0;
     _ ← assert (λ s, is_safe_proposal s 0);
     advanced ← unwrap (update_high_qc (signed 5 "five" 3%nat));
     _ ← assert (λ _, advanced);
     _ ← assert_eq (λ s, qc_view <$> hs_high_qc s) (Some 5);
     _ ← assert_eq hs_locked_view 5;
     _ ← assert_eq hs_view 5;
     older ← unwrap (update_high_qc (signed 3 "three" 3%nat));
     _ ← assert (λ _, negb older);
     _ ← assert_eq (λ s, qc_view <$> hs_high_qc s) (Some 5);
     same ← unwrap (update_high_qc (signed 5 "other-five" 3%nat));
     _ ← assert (λ _, negb same);
     _ ← assert (λ s, negb (is_safe_proposal s 5));
     _ ← assert (λ s, negb (is_safe_proposal s 4));
     _ ← assert (λ s, is_safe_proposal s 6);
     _ ← matches_err (update_high_qc (signed 9 "nine" 1%nat)) any;
     _ ← assert_eq hs_locked_view 5;
     next ← unwrap enter_next_view;
     assert_eq (λ _, next) 6))].

Lemma consensus_tests_pass :
  all_pass (consensus_tests_vertices ++ consensus_tests_dag ++ consensus_tests_certificates) = true.
Proof. vm_compute. reflexivity. Qed.
End ConsensusTests.
