(* ===== verification/TestStaking.v ===== *)
(** * The tests of the staking module

    The test module of [crates/subhost-consensus/src/staking.rs]. *)

From Stdlib Require Import String Floats.SpecFloat.
From S2P Require Import Prelude Order Text Deps Core Staking Harness.

Module StakingTests.
Notation address := test_addr.
(** The doubles nearest to the literals [0.999], [-0.1] and [1.1]. *)
Definition f64_0_999 : spec_float := S754_finite false 8998192055486251 (-53).
Definition f64_minus_0_1 : spec_float := S754_finite true 7205759403792794 (-56).
Definition f64_1_1 : spec_float := S754_finite false 4953959590107546 (-52).
Definition validator_with (n stake : Z) (public_key : bytes) (commission_bps : Z)
  (uptime : spec_float) : Validator :=
  {| v_address := address n; v_public_key := public_key; v_stake := stake;
     v_commission_bps := commission_bps; v_uptime := uptime |}.
Definition validator (n stake : Z) : Validator :=
  validator_with n stake (byte_of <$> [n; n; n]) 1000 f64_0_999.
Definition test_evidence (n : Z) (evidence_type : SlashingType) : SlashingEvidence :=
  {| se_validator := address n; se_type := evidence_type; se_height := 1; se_proof := [byte_of 1] |}.
Definition stake_of (n : Z) (s : StakingModule) : option Z := v_stake <$> staking_validator s (address n).

Definition staking_tests_delegation : list (string * bool) :=
  let key n := byte_of <$> [n; n; n] in
  let is_uptime e := match e with InvalidUptime _ => true | _ => false end in
  [("registration_validates_every_parameter", passes (
     _ ← unwrap (add_validator (validator 1 20000000));
     _ ← assert_eq validator_count 1;
     _ ← assert_eq total_stake 20000000;
     _ ← matches_err (add_validator (validator 1 20000000))
           (λ e, match e with StakingDuplicateValidator _ => true | _ => false end);
     _ ← matches_err (add_validator (validator 2 (MIN_VALIDATOR_STAKE - 1)))
           (λ e, match e with StakeTooLow _ _ => true | _ => false end);
     _ ← matches_err (add_validator (validator_with 3 20000000 [] 1000 f64_0_999))
           (λ e, match e with MissingPublicKey _ => true | _ => false end);
     _ ← matches_err (add_validator (validator_with 4 20000000 (key 4) (MAX_COMMISSION_BPS + 1)
                                       f64_0_999))
           (λ e, match e with InvalidCommission _ => true | _ => false end);
     _ ← matches_err (add_validator (validator_with 5 20000000 (key 5) 1000 f64_minus_0_1)) is_uptime;
     _ ← matches_err (add_validator (validator_with 5 20000000 (key 5) 1000 f64_1_1)) is_uptime;
     _ ← matches_err (add_validator (validator_with 5 20000000 (key 5) 1000 S754_nan)) is_uptime;
     assert_eq validator_count 1) staking_new);
   ("delegation_credits_the_validator_and_accumulates", passes (
     _ ← unwrap (add_validator (validator 1 20000000));
     first ← unwrap (delegate (address 9) (address 1) 500);
     _ ← assert_eq (λ _, first) 500;
     second ← unwrap (delegate (address 9) (address 1) 250);
     _ ← assert_eq (λ _, second) 750;
     _ ← assert_eq (λ s, delegated_to s (address 1)) 750;
     _ ← assert_eq (stake_of 1) (Some 20000750);
     assert_eq (λ s, dg_amount <$> delegation s (address 9) (address 1)) (Some 750)) staking_new);
   ("delegation_rejects_unknown_validators_zero_and_overflow", passes (
     _ ← matches_err (delegate (address 9) (address 1) 100)
           (λ e, match e with StakingUnknownValidator _ => true | _ => false end);
     _ ← unwrap (add_validator (validator 1 20000000));
     _ ← matches_err (delegate (address 9) (address 1) 0)
           (λ e, match e with ZeroAmount => true | _ => false end);
     _ ← matches_err (delegate (address 9) (address 1) u128_max)
           (λ e, match e with StakeOverflow _ => true | _ => false end);
     _ ← assert_eq (stake_of 1) (Some 20000000);
     assert_eq (λ s, delegated_to s (address 1)) 0) staking_new);
   ("undelegation_reduces_stake_and_clears_empty_records", passes (
     _ ← unwrap (add_validator (validator 1 20000000));
     _ ← unwrap (delegate (address 9) (address 1) 1000);
     left ← unwrap (undelegate (address 9) (address 1) 400);
     _ ← assert_eq (λ _, left) 600;
     _ ← assert_eq (stake_of 1) (Some 20000600);
     _ ← matches_err (undelegate (address 9) (address 1) 601)
           (λ e, match e with InsufficientDelegation 600 601 => true | _ => false end);
     _ ← matches_err (undelegate (address 9) (address 1) 0)
           (λ e, match e with ZeroAmount => true | _ => false end);
     _ ← matches_err (undelegate (address 8) (address 1) 1)
           (λ e, match e with UnknownDelegation _ _ => true | _ => false end);
     none ← unwrap (undelegate (address 9) (address 1) 600);
     _ ← assert_eq (λ _, none) 0;
     _ ← assert (λ s, bool_decide (¬ is_Some (delegation s (address 9) (address 1))));
     assert_eq (stake_of 1) (Some 20000000)) staking_new)].

Definition staking_tests_slashing : list (string * bool) :=
  [("slashing_deducts_stake_for_each_offence_class",
     forallb (λ '(offence, stake, expected_remaining), passes (
         _ ← unwrap (add_validator (validator 1 stake));
         slashed ← unwrap (slash (test_evidence 1 offence));
         _ ← assert_eq (λ _, slashed) (stake - expected_remaining);
         _ ← assert_eq (stake_of 1) (Some expected_remaining);
         assert_eq (λ s, slashings_for s (address 1)) 1) staking_new)
       [(Downtime, 20000000, 19800000); (MaliciousBehavior, 20000000, 10000000)]);
   ("double_signing_ejects_the_validator_and_burns_delegations", passes (
     _ ← unwrap (add_validator (validator 2 20000000));
     _ ← unwrap (delegate (address 9) (address 2) 5000);
     slashed ← unwrap (slash (test_evidence 2 DoubleSign));
     _ ← assert_eq (λ _, slashed) 20005000;
     _ ← assert_eq (stake_of 2) None;
     _ ← assert (λ s, bool_decide (¬ is_Some (delegation s (address 9) (address 2))));
     _ ← assert_eq total_stake 0;
     _ ← assert_eq (λ s, length (sm_slashings s)) 1%nat;
     assert_eq (λ s, slashings_for s (address 2)) 1) staking_new);
   ("slashing_requires_a_known_validator_and_a_proof", passes (
     _ ← matches_err (slash (test_evidence 1 Downtime))
           (λ e, match e with StakingUnknownValidator _ => true | _ => false end);
     _ ← unwrap (add_validator (validator 1 20000000));
     _ ← matches_err (slash {| se_validator := address 1; se_type := Downtime; se_height := 1;
                               se_proof := [] |})
           (λ e, match e with MissingProof _ => true | _ => false end);
     _ ← assert_eq (λ s, length (sm_slashings s)) 0%nat;
     assert_eq (stake_of 1) (Some 20000000)) staking_new);
   ("a_penalty_that_rounds_to_zero_records_evidence_without_a_deduction", passes (
     _ ← unwrap (add_validator (validator 1 MIN_VALIDATOR_STAKE));
     _ ← unwrap (slash (test_evidence 1 MaliciousBehavior));
     _ ← assert_eq (stake_of 1) (Some (MIN_VALIDATOR_STAKE / 2));
     _ ← assert_eq (λ _, penalty Downtime 99) 0;
     assert_eq (λ _, penalty Downtime 100) 1) staking_new);
   ("validator_set_is_deterministic_and_sizes_the_quorum", passes (
     _ ← assert_eq (vs_quorum_threshold ∘ validator_set) 0;
     _ ← unwrap (add_validator (validator 1 30000000));
     _ ← unwrap (add_validator (validator 2 10000000));
     _ ← unwrap (add_validator (validator 3 30000000));
     _ ← unwrap (add_validator (validator 4 20000000));
     _ ← assert_eq (vs_total_stake ∘ validator_set) 90000000;
     _ ← assert_eq (vs_quorum_threshold ∘ validator_set) 3;
     assert_eq (λ s, v_address <$> vs_validators (validator_set s)) (address <$> [1; 3; 4; 2]))
     staking_new)].

Lemma staking_tests_pass : all_pass (staking_tests_delegation ++ staking_tests_slashing) = true.
Proof. vm_compute. reflexivity. Qed.
End StakingTests.
