(* ===== verification/TestIbc.v ===== *)
(** * The tests of the IBC crate

    The test module of [subhost-ibc]. The clock of the tests is fixed, and the JSON
    of a transfer is the reference codec. *)

From Stdlib Require Import String.
From S2P Require Import Prelude Order Text Deps Bincode Core Ibc Harness.

Module IbcTests.
Import RefIbc.
Definition clock : Z := 1700000000.
Definition transfer_of (receiver token : string) (amount : Z) (source_channel : string)
  : IbcTransfer :=
  {| tf_sender := test_addr 1; tf_receiver := receiver; tf_token := token; tf_amount := amount;
     tf_source_channel := source_channel |}.
Definition transfer (source_channel : string) : IbcTransfer :=
  transfer_of "cosmos1receiver" "SUB" 100 source_channel.
Definition ibc_test (t : Test IbcModule) : bool := passes t (ibc_new ibc_config_default).
(** A module with one open channel [channel-0] bound to [counterparty-0]. *)
Definition with_open_channel (ordering : ChannelOrdering) (t : Test IbcModule) : bool :=
  ibc_test (channel_id ← unwrap (open_channel "transfer" "transfer" "counterparty-0" ordering);
            _ ← unwrap (set_channel_state channel_id Open);
            t).
Definition payload (t : IbcTransfer) : bytes := str_bytes (to_json t).
Definition packet (sequence : Z) (source_port source_channel destination_port
  destination_channel : string) (data : bytes) (timeout_height timeout_timestamp : Z) : IbcPacket :=
  {| pk_sequence := sequence; pk_source_port := source_port; pk_source_channel := source_channel;
     pk_destination_port := destination_port; pk_destination_channel := destination_channel;
     pk_data := data; pk_timeout_height := timeout_height;
     pk_timeout_timestamp := timeout_timestamp |}.
Definition inbound_data (sequence : Z) (data : bytes) : IbcPacket :=
  packet sequence "transfer" "counterparty-0" "transfer" "channel-0" data 1000 u64_max.
Definition inbound (sequence : Z) : IbcPacket :=
  inbound_data sequence (payload (transfer "counterparty-0")).
Notation send := (send_transfer clock).
Notation receive := (receive_packet clock).
Notation timeout := (timeout_packet clock).
Definition is_packet (e : IbcError) : bool := match e with InvalidPacket _ => true | _ => false end.
Definition is_transition (e : IbcError) : bool :=
  match e with InvalidChannelTransition _ _ => true | _ => false end.
Definition is_missing (e : IbcError) : bool := match e with ChannelNotFound _ => true | _ => false end.
Definition is_transfer (e : IbcError) : bool := match e with InvalidTransfer _ => true | _ => false end.
Definition is_replay (e : IbcError) : bool := match e with Replay => true | _ => false end.

Definition ibc_tests_channels : list (string * bool) :=
  [("channel_opens_in_init_and_requires_confirmation", ibc_test (
     channel_id ← unwrap (open_channel "transfer" "transfer" "counterparty-0" Unordered);
     _ ← assert_eq (λ _, channel_id) "channel-0";
     _ ← assert_eq (λ s, ch_state <$> channel s channel_id) (Some Init);
     _ ← assert_eq (λ s, is_open <$> channel s channel_id) (Some false);
     _ ← assert_eq channel_count 1;
     _ ← matches_err (send (transfer channel_id))
           (λ e, match e with ChannelNotOpen _ _ => true | _ => false end);
     _ ← unwrap (set_channel_state channel_id Open);
     _ ← unwrap (send (transfer channel_id));
     mret ()));
   ("channel_transitions_only_move_forward", with_open_channel Unordered (
     _ ← matches_err (set_channel_state "channel-0" Init) is_transition;
     _ ← matches_err (set_channel_state "channel-0" TryOpen) is_transition;
     _ ← unwrap (set_channel_state "channel-0" Closed);
     _ ← matches_err (set_channel_state "channel-0" Open) is_transition;
     matches_err (set_channel_state "channel-9" Open) is_missing));
   ("open_channel_rejects_empty_identifiers", ibc_test (
     let refused port counterparty_port counterparty_channel :=
       matches_err (open_channel port counterparty_port counterparty_channel Unordered)
         (λ e, match e with InvalidChannel _ => true | _ => false end) in
     _ ← refused EmptyString "transfer" "counterparty-0";
     _ ← refused "transfer" EmptyString "counterparty-0";
     _ ← refused "transfer" "transfer" "  ";
     assert_eq channel_count 0));
   ("send_transfer_assigns_sequences_and_sets_timeouts", with_open_channel Unordered (
     _ ← st_modify (set_current_height 50);
     first ← unwrap (send (transfer "channel-0"));
     _ ← assert_eq (λ _, first) 1;
     second ← unwrap (send (transfer "channel-0"));
     _ ← assert_eq (λ _, second) 2;
     _ ← assert_eq im_next_sequence_send 3;
     _ ← assert_eq (λ s, pk_destination_channel <$> sent_packet s 1) (Some "counterparty-0");
     _ ← assert_eq (λ s, pk_timeout_height <$> sent_packet s 1)
           (Some (50 + DEFAULT_TIMEOUT_BLOCKS));
     assert (λ s, from_option (λ p, unix_timestamp clock <? pk_timeout_timestamp p) false
                    (sent_packet s 1))));
   ("send_transfer_validates_the_payload_and_channel", with_open_channel Unordered (
     _ ← matches_err (send (transfer "channel-9")) is_missing;
     _ ← matches_err (send (transfer_of "cosmos1receiver" "SUB" 0 "channel-0")) is_transfer;
     _ ← matches_err (send (transfer_of "  " "SUB" 100 "channel-0")) is_transfer;
     _ ← matches_err (send (transfer_of "cosmos1receiver" EmptyString 100 "channel-0")) is_transfer;
     assert_eq im_next_sequence_send 1))].

Definition ibc_tests_receive : list (string * bool) :=
  let data := payload (transfer "counterparty-0") in
  let bound source_port source_channel destination_port destination_channel :=
    packet 1 source_port source_channel destination_port destination_channel data 1000 u64_max in
  let timed timeout_height timeout_timestamp :=
    packet 1 "transfer" "counterparty-0" "transfer" "channel-0" data timeout_height
      timeout_timestamp in
  let is_expired e := match e with PacketTimedOut => true | _ => false end in
  [("receive_accepts_a_valid_packet_and_rejects_the_replay", with_open_channel Ordered (
     received ← unwrap (receive (inbound 1));
     _ ← assert_eq (λ _, tf_amount received) 100;
     _ ← assert (λ s, has_received s "counterparty-0" 1);
     _ ← assert_eq (λ s, expected_recv_sequence s "channel-0") 2;
     matches_err (receive (inbound 1)) is_replay));
   ("ordered_channels_reject_out_of_order_sequences", with_open_channel Ordered (
     _ ← matches_err (receive (inbound 2))
           (λ e, match e with InvalidSequence 1 2 => true | _ => false end);
     _ ← assert (λ s, negb (has_received s "counterparty-0" 2));
     _ ← unwrap (receive (inbound 1));
     _ ← unwrap (receive (inbound 2));
     assert_eq (λ s, expected_recv_sequence s "channel-0") 3));
   ("unordered_channels_accept_gaps", with_open_channel Unordered (
     _ ← unwrap (receive (inbound 5));
     _ ← unwrap (receive (inbound 2));
     _ ← assert (λ s, has_received s "counterparty-0" 5);
     _ ← assert (λ s, has_received s "counterparty-0" 2);
     matches_err (receive (inbound 5)) is_replay));
   ("receive_rejects_wrong_counterparty_bindings", with_open_channel Unordered (
     _ ← matches_err (receive (bound "transfer" "attacker" "transfer" "channel-0")) is_packet;
     _ ← matches_err (receive (bound "attacker" "counterparty-0" "transfer" "channel-0")) is_packet;
     _ ← matches_err (receive (bound "transfer" "counterparty-0" "attacker" "channel-0")) is_packet;
     matches_err (receive (bound "transfer" "counterparty-0" "transfer" "channel-9")) is_missing));
   ("receive_rejects_expired_and_timeout_less_packets", with_open_channel Unordered (
     _ ← st_modify (set_current_height 1000);
     _ ← matches_err (receive (inbound 1)) is_expired;
     _ ← st_modify (set_current_height 0);
     _ ← matches_err (receive (timed 1000 1)) is_expired;
     matches_err (receive (timed 0 0)) is_packet));
   ("receive_rejects_malformed_payloads", with_open_channel Unordered (
     _ ← matches_err (receive (inbound 0)) is_packet;
     _ ← matches_err (receive (inbound_data 1 [])) is_packet;
     _ ← matches_err
           (receive (inbound_data 1 (replicate (Z.to_nat (MAX_PACKET_BYTES + 1)) (byte_of 0))))
           (λ e, match e with PacketTooLarge _ _ => true | _ => false end);
     _ ← matches_err (receive (inbound_data 1 (str_bytes "not json")))
           (λ e, match e with IbcSerialization _ => true | _ => false end);
     _ ← matches_err (receive (inbound_data 1 (payload (transfer "somewhere-else")))) is_packet;
     matches_err
       (receive (inbound_data 1 (payload (transfer_of "cosmos1receiver" "SUB" 0 "counterparty-0"))))
       is_transfer))].

Definition ibc_tests_settlement : list (string * bool) :=
  let disabled := {| ic_enabled := false; ic_chain_id := ic_chain_id ibc_config_default;
                     ic_connection_id := ic_connection_id ibc_config_default;
                     ic_client_id := ic_client_id ibc_config_default;
                     ic_counterparty_chain_id := ic_counterparty_chain_id ibc_config_default |} in
  let is_disabled e := match e with Disabled => true | _ => false end in
  [("acknowledgement_checks_existence_before_the_replay_marker", with_open_channel Unordered (
     _ ← matches_err (acknowledge_packet 1)
           (λ e, match e with UnknownPacket 1 => true | _ => false end);
     sequence ← unwrap (send (transfer "channel-0"));
     _ ← unwrap (acknowledge_packet sequence);
     _ ← assert (λ s, is_acknowledged s sequence);
     matches_err (acknowledge_packet sequence) is_replay));
   ("timeout_releases_only_expired_unacknowledged_packets", with_open_channel Unordered (
     sequence ← unwrap (send (transfer "channel-0"));
     _ ← matches_err (timeout sequence)
           (λ e, match e with PacketNotExpired => true | _ => false end);
     _ ← matches_err (timeout 99) (λ e, match e with UnknownPacket 99 => true | _ => false end);
     _ ← unwrap (acknowledge_packet sequence);
     _ ← st_modify (set_current_height (DEFAULT_TIMEOUT_BLOCKS + 1));
     _ ← matches_err (timeout sequence) is_packet;
     second ← unwrap (send (transfer "channel-0"));
     _ ← st_modify (λ s, set_current_height (im_current_height s + DEFAULT_TIMEOUT_BLOCKS + 1) s);
     timed_out ← unwrap (timeout second);
     _ ← assert_eq (λ _, pk_sequence timed_out) second;
     assert (λ s, bool_decide (¬ is_Some (sent_packet s second)))));
   ("every_operation_is_refused_when_disabled", passes (
     _ ← matches_err (open_channel "transfer" "transfer" "counterparty-0" Unordered) is_disabled;
     _ ← matches_err (send (transfer "channel-0")) is_disabled;
     _ ← matches_err (receive (inbound 1)) is_disabled;
     _ ← matches_err (acknowledge_packet 1) is_disabled;
     _ ← matches_err (timeout 1) is_disabled;
     matches_err (set_channel_state "channel-0" Open) is_disabled) (ibc_new disabled));
   ("receive_sequences_are_tracked_per_channel", ibc_test (
     let open_ordered counterparty :=
       channel ← unwrap (open_channel "transfer" "transfer" counterparty Ordered);
       unwrap (set_channel_state channel Open) in
     _ ← open_ordered "counterparty-0";
     _ ← open_ordered "counterparty-1";
     _ ← unwrap (receive (inbound 1));
     _ ← assert_eq (λ s, expected_recv_sequence s "channel-0") 2;
     _ ← assert_eq (λ s, expected_recv_sequence s "channel-1") 1;
     _ ← unwrap (receive (packet 1 "transfer" "counterparty-1" "transfer" "channel-1"
                            (payload (transfer "counterparty-1")) 1000 u64_max));
     assert_eq (λ s, expected_recv_sequence s "channel-1") 2))].

Lemma ibc_tests_pass : all_pass (ibc_tests_channels ++ ibc_tests_receive ++ ibc_tests_settlement) = true.
Proof. vm_compute. reflexivity. Qed.
End IbcTests.
