(* ===== verification/TestWallet.v ===== *)
(** * The tests of the wallet crate

    The test module of [subhost-wallet], with the [n]th wallet's secret, salt and nonce
    drawn as strings of bytes [n]. File modes and the defaults of a JSON field that is
    absent belong to the operating system and to [serde], so the two tests about them
    have no counterpart here. *)

From Stdlib Require Import String.
From S2P Require Import Prelude Order Text Deps Bincode Core Storage Wallet Harness.
Import RefWallet.

Module WalletTests.
Definition PASSWORD : string := "correct horse battery".
Definition drawn (n : Z) (len : nat) : array len := array_repeat (byte_of n) len.
Definition new_wallet (n : Z) (password : string) : result WalletError Wallet :=
  wallet_new (drawn n 32) password (drawn n SALT_BYTES) (drawn n NONCE_BYTES).
Definition import_key (text : string) (password : string) : result WalletError Wallet :=
  from_private_key text password (drawn 1 SALT_BYTES) (drawn 2 NONCE_BYTES).
Definition edit_wallet (address : string) (encrypted_key : bytes) (version : Z) (w : Wallet) : Wallet :=
  {| w_address := address; w_encrypted_key := encrypted_key; w_salt := w_salt w;
     w_nonce := w_nonce w; w_version := version; w_kdf := w_kdf w |}.
Definition with_wallet (t : Wallet → Test Disk) : bool :=
  match new_wallet 5 PASSWORD with Ok w => passes (t w) no_disk | Err _ => false end.
Definition wallet_save (w : Wallet) : ST Disk WalletError unit := save (λ _, None) w.
Definition load_errs (password : string) (pattern : WalletError → bool) : Test Disk :=
  assert (λ d, errs (wallet_load None None password d) pattern).
Definition is_key (e : WalletError) : bool := match e with InvalidPrivateKey => true | _ => false end.
Definition is_weak (e : WalletError) : bool := match e with WeakPassword => true | _ => false end.
Definition is_decryption (e : WalletError) : bool :=
  match e with WalletDecryptionFailed => true | _ => false end.
Definition is_mismatch (e : WalletError) : bool := match e with AddressMismatch => true | _ => false end.

Definition wallet_tests_file : list (string * bool) :=
  [("round_trip_through_an_atomic_file", with_wallet (λ wallet,
     _ ← unwrap (wallet_save wallet);
     loaded ← st_gets (wallet_load None None PASSWORD);
     '(w, key) ← unwrap (st_lift loaded);
     _ ← assert (λ _, bool_decide (to_json w = to_json wallet));
     _ ← assert_eq (λ _, w_address w) (address_to_string (derive_address key));
     _ ← assert_eq (λ _, address_to_string (private_address key)) (w_address wallet);
     _ ← assert_eq (λ _, w_version w) WALLET_VERSION;
     _ ← assert_eq (λ _, (kdf_log_n (w_kdf w), kdf_r (w_kdf w), kdf_p (w_kdf w)))
           (SCRYPT_LOG_N, SCRYPT_R, SCRYPT_P);
     assert (λ d, bool_decide (¬ is_Some (d_temp d)))))].

Definition wallet_tests_keys : list (string * bool) :=
  let secret := drawn 7 32 in
  let hex := hex_encode (array_bytes secret) in
  let bytes_text n := hex_encode (replicate n (byte_of 17)) in
  [("address_is_derived_from_the_public_key",
     let key := drawn 42 32 in
     bool_decide (derive_address key = from_public_key (array_bytes (private_public_key key)))
     && bool_decide (private_address key = derive_address key));
   ("import_round_trips_a_known_key",
     ok_eq (w_address <$> import_key hex PASSWORD) (address_to_string (derive_address secret))
     && ok_eq (w_address <$> import_key ("  0x" +:+ hex +:+ "  ") PASSWORD)
          (address_to_string (derive_address secret)));
   ("import_rejects_malformed_keys",
     forallb (λ candidate, errs (import_key candidate PASSWORD) is_key)
       [EmptyString; "0x"; "zz"; bytes_text 31%nat; bytes_text 33%nat]);
   ("weak_passwords_are_rejected_everywhere",
     errs (new_wallet 5 "short") is_weak
     && errs (import_key (bytes_text 32%nat) "short") is_weak
     && with_wallet (λ wallet, _ ← unwrap (wallet_save wallet); load_errs "short" is_weak));
   ("a_wrong_password_fails_to_decrypt", with_wallet (λ wallet,
     _ ← unwrap (wallet_save wallet); load_errs "another password" is_decryption));
   ("address_tampering_is_detected", with_wallet (λ wallet,
     _ ← unwrap (wallet_save (edit_wallet (address_to_string (test_addr 9)) (w_encrypted_key wallet)
                                (w_version wallet) wallet));
     load_errs PASSWORD is_mismatch));
   ("ciphertext_tampering_is_detected", with_wallet (λ wallet,
     let key := w_encrypted_key wallet in
     _ ← unwrap (wallet_save (edit_wallet (w_address wallet)
           (alter (λ b, byte_of (Z.lxor (byte_val b) 1)) (length key - 1)%nat key)
           (w_version wallet) wallet));
     load_errs PASSWORD is_decryption))].

Definition wallet_tests_format : list (string * bool) :=
  let encrypted k := encrypt_private_key (drawn 1 32) PASSWORD k (drawn 3 SALT_BYTES)
                       (drawn 4 NONCE_BYTES) in
  [("malformed_salt_or_nonce_is_rejected_without_panicking",
     match encrypted kdf_default with
     | Ok base =>
         let broken salt nonce := {| ek_ciphertext := ek_ciphertext base; ek_salt := salt;
                                     ek_nonce := nonce; ek_kdf := ek_kdf base |} in
         errs (decrypt_private_key (broken (replicate 31 (byte_of 0)) (ek_nonce base)) PASSWORD)
           is_decryption
         && errs (decrypt_private_key (broken (ek_salt base) (replicate 11 (byte_of 0))) PASSWORD)
              is_decryption
         && errs (decrypt_private_key (broken (ek_salt base) []) PASSWORD) is_decryption
         && is_ok (decrypt_private_key base PASSWORD)
     | Err _ => false
     end);
   ("unsupported_versions_are_rejected_on_read_and_save", with_wallet (λ wallet,
     _ ← unwrap (wallet_save wallet);
     let version v := edit_wallet (w_address wallet) (w_encrypted_key wallet) v wallet in
     _ ← matches_err (wallet_save (version 99))
           (λ e, match e with WalletUnsupportedVersion 99 => true | _ => false end);
     _ ← st_modify (λ d, {| d_target := Some {| f_bytes := str_bytes (to_json (version 2));
                                                f_synced := false |};
                            d_temp := d_temp d; d_shadow := d_shadow d |});
     assert (λ d, errs (read None None d)
                    (λ e, match e with WalletUnsupportedVersion 2 => true | _ => false end))));
   ("oversized_and_missing_files_are_refused",
     let big := {| d_target := Some {| f_bytes := replicate (Z.to_nat (MAX_WALLET_FILE_BYTES + 1))
                                                    (byte_of 0);
                                       f_synced := false |};
                   d_temp := None; d_shadow := None |} in
     errs (read None None big) (λ e, match e with FileTooLarge => true | _ => false end)
     && errs (read None None no_disk) (λ e, match e with WalletIo _ => true | _ => false end));
   ("weak_kdf_parameters_are_refused",
     errs (encrypted {| kdf_log_n := 10; kdf_r := 8; kdf_p := 1 |})
       (λ e, match e with WeakKdfParameters => true | _ => false end)
     && is_ok (kdf_validate kdf_default))].

Definition wallet_tests_addresses : list (string * bool) :=
  [("address_helpers_match_case_insensitively", with_wallet (λ wallet,
     assert (λ _, match parsed_address wallet with
                  | Ok address =>
                      let upper := edit_wallet (to_uppercase (w_address wallet))
                                     (w_encrypted_key wallet) (w_version wallet) wallet in
                      let broken := edit_wallet "not-an-address" (w_encrypted_key wallet)
                                      (w_version wallet) wallet in
                      matches wallet address && matches upper address
                      && errs (parsed_address broken) is_mismatch
                  | Err _ => false
                  end)));
   ("two_wallets_never_share_a_salt_or_nonce",
     match new_wallet 5 PASSWORD, new_wallet 6 PASSWORD with
     | Ok first, Ok second =>
         bool_decide (w_salt first ≠ w_salt second) && bool_decide (w_nonce first ≠ w_nonce second)
         && bool_decide (w_address first ≠ w_address second)
     | _, _ => false
     end)].

Lemma wallet_tests_pass :
  all_pass (wallet_tests_file ++ wallet_tests_keys ++ wallet_tests_format
            ++ wallet_tests_addresses) = true.
Proof. vm_compute. reflexivity. Qed.
End WalletTests.
