(* ===== verification/TestFaucet.v ===== *)
(** * The tests of the faucet crate

    The test modules of [crates/subhost-faucet/src/lib.rs] and [main.rs]. Time is in
    nanoseconds, and the node nobody listens for is a transport that always fails. *)

From Stdlib Require Import String.
From S2P Require Import Prelude Order Text Deps Bincode Core Storage Rpc RpcApi Wallet Client Faucet Harness.
Import Ref RefWallet.

Module FaucetTests.
Definition FAUCET_PASSWORD : string := "faucet password".
(** A fresh wallet, saved. *)
Definition wallet_file : Disk :=
  match wallet_new (array_repeat (byte_of 5) 32) FAUCET_PASSWORD (array_repeat (byte_of 6) SALT_BYTES)
          (array_repeat (byte_of 7) NONCE_BYTES) with
  | Ok w => (save (λ _, None) w no_disk).1
  | Err _ => no_disk
  end.
Definition load_signer (password : string) : result FaucetError FaucetSigner :=
  signer_load None None password wallet_file.
Definition unreachable_node : Transport unit := λ _ _ w, (w, Err "connection refused").
Definition config_with (rpc_url : string) (drip_amount cooldown_secs : Z) : FaucetConfig :=
  {| fc_listen_addr := fc_listen_addr faucet_config_default; fc_rpc_url := rpc_url;
     fc_wallet_path := fc_wallet_path faucet_config_default; fc_drip_amount := drip_amount;
     fc_cooldown_secs := cooldown_secs |}.
Definition default_url : string := fc_rpc_url faucet_config_default.
Definition default_drip : Z := fc_drip_amount faucet_config_default.
Definition default_cooldown : Z := fc_cooldown_secs faucet_config_default.
Definition state_with (c : FaucetConfig) (t : Test (FaucetState * unit)) : bool :=
  match (signer ← load_signer FAUCET_PASSWORD; faucet_new c signer None) with
  | Ok f => passes t (f, ())
  | Err _ => false
  end.
Definition recipient_text (s : string) (n : nat) : string :=
  "0x" +:+ String.concat EmptyString (replicate n s).
Definition try_drip (address : string) : ST (FaucetState * unit) FaucetError FaucetResponse :=
  drip unreachable_node 0 address.
Definition on_ledger {E A : Type} (m : ST CooldownLedger E A) : ST (FaucetState * unit) E A :=
  λ '(f, w), let '(l, r) := m (ft_cooldown f) in ((set_cooldown l f, w), r).

Definition faucet_tests_cooldown : list (string * bool) :=
  let address := recipient_text "ab" 20 in
  let ledger s := cooldown_new (secs s) in
  [("cooldown_claim_is_single_use_and_case_insensitive", passes (
     _ ← unwrap (try_claim 0 address);
     _ ← matches_err (try_claim 1 (to_uppercase address)) any;
     _ ← assert_eq cooldown_len 1;
     _ ← unwrap (try_claim 2 (recipient_text "cd" 20));
     assert_eq cooldown_len 2) (ledger 60));
   ("cooldown_reports_the_remaining_wait", passes (
     _ ← unwrap (try_claim 0 "0xabc");
     matches_err (try_claim 1000 "0xabc")
       (λ remaining, (500 <? as_secs remaining) && (as_secs remaining <=? 600))) (ledger 600));
   ("cooldown_release_allows_an_immediate_retry", passes (
     _ ← unwrap (try_claim 0 "0xABC");
     _ ← st_modify (release "0xabc");
     _ ← assert cooldown_is_empty;
     unwrap (try_claim 1 "0xabc")) (ledger 600));
   ("cooldown_sweep_keeps_live_entries", passes (
     _ ← unwrap (try_claim 0 "0xabc");
     swept ← st_total (sweep 1);
     _ ← assert_eq (λ _, swept) 0;
     assert_eq cooldown_len 1) (ledger 600));
   ("address_parsing_is_strict",
     let valid := recipient_text "11" 20 in
     is_ok (faucet_parse_address valid) && is_ok (faucet_parse_address ("  " +:+ valid +:+ "  "))
     && forallb (λ bad, errs (faucet_parse_address bad) any)
          [EmptyString; "0x"; String.concat EmptyString (replicate 20 "11"); "0xzz";
           recipient_text "11" 19]);
   ("quantity_parsing_handles_both_json_shapes",
     bool_decide (parse_quantity (VString "0x1f") = Some 31)
     && bool_decide (parse_quantity (VNumber 31) = Some 31)
     && bool_decide (parse_quantity (VString "1f") = None)
     && bool_decide (parse_quantity (VBool true) = None))].

Definition faucet_tests_drips : list (string * bool) :=
  let is_config e := match e with FaucetConfigError _ => true | _ => false end in
  [("signer_derives_the_wallet_address_and_signs_verifiably",
     match load_signer FAUCET_PASSWORD, read None None wallet_file with
     | Ok signer, Ok wallet =>
         let tx := {| tx_type := Transfer; tx_nonce := 0; tx_from := sg_address signer;
                      tx_to := Some (test_addr 2); tx_value := 1; tx_gas_price := 1;
                      tx_gas_limit := TRANSFER_GAS_LIMIT; tx_data := []; tx_chain_id := 1;
                      tx_signature := EMPTY |} in
         bool_decide (address_to_string (sg_address signer) = w_address wallet)
         && ed_verify (signer_public_key signer) (signing_payload tx)
              (to_ed25519 (signer_sign signer tx))
     | _, _ => false
     end);
   ("signer_rejects_a_wrong_password_and_a_missing_env_password",
     errs (load_signer "not the password") (λ e, match e with FaucetWallet _ => true | _ => false end)
     && errs (signer_from_env (λ _, None) None None wallet_file)
          (λ e, match e with MissingPassword _ => true | _ => false end));
   ("invalid_configuration_is_refused",
     match load_signer FAUCET_PASSWORD with
     | Ok signer =>
         forallb (λ broken, errs (faucet_new broken signer None) is_config)
           [config_with default_url 0 default_cooldown; config_with default_url default_drip 0;
            config_with "ftp://node" default_drip default_cooldown]
         && is_ok (faucet_new faucet_config_default signer None)
     | Err _ => false
     end);
   ("drip_rejects_bad_addresses_before_touching_the_network", state_with faucet_config_default (
     _ ← matches_err (try_drip "not-an-address")
           (λ e, match e with FaucetInvalidAddress _ => true | _ => false end);
     own ← st_gets (λ s, address_to_string (sg_address (ft_signer s.1)));
     _ ← matches_err (try_drip own) (λ e, match e with SelfFunding => true | _ => false end);
     assert (λ s, cooldown_is_empty (ft_cooldown s.1))));
   ("a_failed_drip_releases_the_cooldown_slot",
     state_with (config_with "http://127.0.0.1:1" default_drip default_cooldown) (
     _ ← matches_err (try_drip (recipient_text "22" 20))
           (λ e, match e with FaucetRpc _ => true | _ => false end);
     assert (λ s, cooldown_is_empty (ft_cooldown s.1))));
   ("cooldown_is_enforced_across_requests", state_with faucet_config_default (
     let recipient := recipient_text "33" 20 in
     _ ← unwrap (on_ledger (try_claim 0 recipient));
     matches_err (try_drip recipient) (λ e, match e with Cooldown _ => true | _ => false end)))].

Definition faucet_tests_surface (show_addr : SocketAddr → string) : list (string * bool) :=
  let api := api_error show_addr in
  [("error_responses_map_to_sensible_statuses_and_hide_internals",
     let bad := api (FaucetInvalidAddress "bad") in
     let cooldown := api (Cooldown 42) in
     let missing := api (MissingPassword PASSWORD_ENV) in
     (bad.1 =? 400) && contains "bad" bad.2
     && ((api SelfFunding).1 =? 400)
     && (cooldown.1 =? 429) && contains "42" cooldown.2
     && ((api (FaucetRpc "node down")).1 =? 502)
     && (missing.1 =? 500) && bool_decide (missing.2 = "faucet is misconfigured")
     && negb (contains "secret detail" (api (FaucetConfigError "secret detail")).2));
   ("health_endpoint_answers_without_a_node", state_with faucet_config_default (
     reply ← st_total (router unreachable_node show_addr 0 GetHealth);
     assert (λ _, match reply with HealthReply text => contains "ok" text | _ => false end)))].

(** The environment of the binary, and a parser of socket addresses that knows the one
    the test sets. *)
Definition env_of (vars : list (string * string)) (key : string) : option string := assoc key vars.
Definition parse_one (text : string) : result string SocketAddr :=
  if bool_decide (text = "127.0.0.1:9999")
  then Ok {| sa_ip := V4 127 0 0 1; sa_port := 9999 |} else Err "invalid socket address syntax".
Definition faucet_main_tests : list (string * bool) :=
  let int_error s := "invalid digit found in string" in
  let key := "SUBHOST_FAUCET_TEST_PORT" in
  let port vars := parse_env (parse_uint int_error u64_max) (env_of vars) key 7 in
  let config vars := config_from_env int_error parse_one (env_of vars) in
  [("parse_env_falls_back_and_rejects_malformed_values",
     ok_eq (port []) 7 && ok_eq (port [(key, "42")]) 42 && errs (port [(key, "not-a-number")]) any);
   ("config_from_env_uses_defaults_when_unset",
     match config [] with
     | Ok c => bool_decide (fc_rpc_url c = default_url) && (fc_drip_amount c =? default_drip)
               && (fc_cooldown_secs c =? default_cooldown)
               && bool_decide (fc_wallet_path c = fc_wallet_path faucet_config_default)
               && bool_decide (fc_listen_addr c = fc_listen_addr faucet_config_default)
     | Err _ => false
     end
     && ok_eq (sa_port ∘ fc_listen_addr <$> config [("FAUCET_LISTEN_ADDR", "127.0.0.1:9999")]) 9999
     && errs (config [("FAUCET_LISTEN_ADDR", "nonsense")]) any)].

Lemma faucet_tests_pass :
  all_pass (faucet_tests_cooldown ++ faucet_tests_drips ++ faucet_tests_surface (λ _, "0.0.0.0:0")
            ++ faucet_main_tests) = true.
Proof. vm_compute. reflexivity. Qed.
End FaucetTests.
