(* ===== verification/TestNode.v ===== *)
(** * The tests of the node, metrics and telemetry crates

    The test modules of [subhost-node], [subhost-metrics] and [subhost-telemetry]. The
    Prometheus text encoder is stood in for by the lines the tests look for. *)

From Stdlib Require Import Ascii String.
From S2P Require Import Prelude Order Text Deps Bincode Core WorldState Mempool Storage Rpc RpcApi Observe Node Harness.
Import Ref RefNode Metrics Telemetry.

Module NodeTests.
Definition genesis_with (chain_id : Z) (validators : list ValidatorInfo)
  (allocation : option (Address * Z)) : GenesisConfig :=
  {| gen_chain_id := chain_id; gen_initial_validators := validators;
     gen_allocations := from_option (λ '(a, b), {[a := b]}) ∅ allocation;
     gen_block_time_ms := gen_block_time_ms (genesis_default 7);
     gen_gas_limit := gen_gas_limit (genesis_default 7); gen_genesis_time := 7 |}.
(** The data directory with the genesis file as given and nothing failing. *)
Definition boot_with (genesis : option string) : Boot :=
  {| bt_mkdir := None; bt_genesis := Ok <$> genesis; bt_open := None; bt_meta := None;
     bt_read := None; bt_io := no_error |}.
(** The text [GenesisConfig::save] writes. *)
Definition saved (g : GenesisConfig) : option string :=
  match genesis_save GENESIS_FILE_NAME (Ok ()) g with Ok text => Some text | Err _ => None end.
Definition config_new : NodeConfig := node_config_new "dir".
Definition config_of (validator : bool) (fallback_chain_id : Z) : NodeConfig :=
  {| nd_data_dir := "dir"; nd_rpc_addr := nd_rpc_addr config_new;
     nd_max_rpc_connections := nd_max_rpc_connections config_new; nd_metrics_addr := None;
     nd_validator := validator; nd_fallback_chain_id := fallback_chain_id |}.
Definition boots (c : NodeConfig) (genesis : option string) (d : Disk) (p : Node → bool) : bool :=
  match bootstrap c (boot_with genesis) d with (_, Ok nd) => p nd | (_, Err _) => false end.
Definition boot_errs (c : NodeConfig) (genesis : option string) (d : Disk)
  (pattern : NodeError → bool) : bool := errs (bootstrap c (boot_with genesis) d).2 pattern.
Definition is_genesis (e : NodeError) : bool := match e with NodeGenesis _ => true | _ => false end.

Definition node_tests : list (string * bool) :=
  let address := test_addr 1 in
  let validator := {| vi_address := test_addr 9; vi_public_key := byte_of <$> [1; 2; 3];
                      vi_power := 100 |} in
  [("bootstrap_creates_the_data_directory_and_defaults_the_chain",
     boots config_new None empty_disk (λ nd,
       (node_chain_id nd =? 1) && (rs_block_height (nd_state nd) =? 0)
       && bool_decide (nd_genesis nd = None)));
   ("bootstrap_applies_genesis_allocations_exactly_once",
     let genesis := saved (genesis_with 7 [] (Some (address, 500))) in
     boots config_new genesis empty_disk (λ nd,
       (node_chain_id nd =? 7) && (rpc_balance (nd_state nd) address =? 500)
       && boots config_new genesis (rs_disk (nd_state nd)) (λ restarted,
            (rpc_balance (nd_state restarted) address =? 500)
            && has_persisted_state (nd_state restarted))));
   ("bootstrap_rejects_an_invalid_genesis_file",
     boot_errs config_new (Some "{ not json") empty_disk is_genesis);
   ("validator_mode_requires_a_genesis_validator_set",
     let config := config_of true 1 in
     boot_errs config None empty_disk (λ e, match e with MissingGenesis _ => true | _ => false end)
     && boot_errs config (saved (genesis_with 1 [] None)) empty_disk is_genesis
     && boots config (saved (genesis_with 1 [validator] None)) empty_disk (λ nd,
          bool_decide (total_voting_power <$> nd_genesis nd = Some 100)));
   ("a_zero_fallback_chain_id_is_rejected",
     boot_errs (config_of false 0) None empty_disk
       (λ e, match e with NodeInvalidChainId => true | _ => false end));
   ("a_ledger_from_another_chain_is_refused",
     boots config_new (saved (genesis_with 7 [] None)) empty_disk (λ nd,
       let '(n, r) := seed_accounts no_error [(address, 1)] (nd_state nd) in
       is_ok r && boot_errs config_new (saved (genesis_with 8 [] None)) (rs_disk n)
                    (λ e, match e with NodeStorage _ => true | _ => false end)));
   ("metrics_start_in_step_with_the_restored_ledger",
     boots config_new None empty_disk (λ nd,
       bool_decide (mt_block_height (nd_metrics nd) = f64_of 0)
       && bool_decide (mt_pending_transactions (nd_metrics nd) = f64_of 0)));
   ("config_exposes_the_genesis_path_under_the_data_dir",
     let config := node_config_new "/tmp/subhost-node-test" in
     bool_decide (genesis_path config = "/tmp/subhost-node-test/genesis.json")
     && bool_decide (nd_metrics_addr config = None) && negb (nd_validator config))].

Lemma node_tests_pass : all_pass node_tests = true.
Proof. vm_compute. reflexivity. Qed.

(** Numbers in hundredths, with the two that are not finite. *)
Inductive Double := Hundredths (n : Z) | NaN | Infinity.
#[local] Instance test_f64 : F64 :=
  {| f64 := Double; f64_of z := Hundredths (100 * z);
     f64_is_finite d := match d with Hundredths _ => true | _ => false end;
     f64_ge_zero d := match d with Hundredths n => 0 <=? n | NaN => false | Infinity => true end |}.
Definition show_double (d : Double) : string :=
  match d with
  | Hundredths n => fmt_dec (n / 100)
  | NaN => "NaN"
  | Infinity => "inf"
  end.
Definition sum_doubles (l : list Double) : Double :=
  foldr (λ d total, match d, total with
                    | Hundredths n, Hundredths m => Hundredths (n + m)
                    | Infinity, Hundredths _ | Hundredths _, Infinity | Infinity, Infinity => Infinity
                    | _, _ => NaN
                    end) (Hundredths 0) l.
(** The lines of the text format the tests look for. *)
Definition exposition (m : Metrics) : result string bytes :=
  let line name value := name +:+ " " +:+ value +:+ String "010"%char EmptyString in
  Ok (str_bytes (String.concat EmptyString
    [line "subhost_rpc_requests_total" (fmt_dec (mt_rpc_requests m));
     line "subhost_rpc_errors_total" (fmt_dec (mt_rpc_errors m));
     line "subhost_rpc_request_duration_seconds_sum" (show_double (sum_doubles (mt_rpc_latency m)));
     line "subhost_rpc_request_duration_seconds_count"
       (fmt_dec (Z.of_nat (length (mt_rpc_latency m))));
     line "subhost_connected_peers" (show_double (mt_connected_peers m));
     line "subhost_block_height" (show_double (mt_block_height m));
     line "subhost_pending_transactions" (show_double (mt_pending_transactions m))])).
Definition renders (h : nat) (text : string) : Test (list Metrics) :=
  assert (λ registries, match registries !! h with
                        | Some m => match metrics_encode exposition m with
                                    | Ok rendered => contains text (bytes_str rendered)
                                    | Err _ => false
                                    end
                        | None => false
                        end).
Definition recorded (h : nat) (r : Record_) : Test (list Metrics) := st_modify (handle_record r h).
Definition metrics_tests : list (string * bool) :=
  [("registry_construction_registers_every_metric_once", passes (
     metrics ← unwrap handle_new;
     _ ← unwrap handle_new;
     foldl (λ t name, _ ← t; renders metrics name) (mret ())
       ["subhost_rpc_requests_total"; "subhost_rpc_errors_total";
        "subhost_rpc_request_duration_seconds"; "subhost_connected_peers"; "subhost_block_height";
        "subhost_pending_transactions"]) []);
   ("recorded_values_appear_in_the_exposition", passes (
     metrics ← unwrap handle_new;
     _ ← recorded metrics (Request (Hundredths 25));
     _ ← recorded metrics (Request (Hundredths 50));
     _ ← recorded metrics Error_;
     _ ← recorded metrics (Height 42);
     _ ← recorded metrics (Peers 3);
     _ ← recorded metrics (Pending 7);
     _ ← renders metrics "subhost_rpc_requests_total 2";
     _ ← renders metrics "subhost_rpc_errors_total 1";
     _ ← renders metrics "subhost_block_height 42";
     _ ← renders metrics "subhost_connected_peers 3";
     _ ← renders metrics "subhost_pending_transactions 7";
     renders metrics "subhost_rpc_request_duration_seconds_count 2") []);
   ("invalid_durations_are_ignored_rather_than_recorded", passes (
     metrics ← unwrap handle_new;
     _ ← recorded metrics (Request NaN);
     _ ← recorded metrics (Request (Hundredths (-100)));
     _ ← recorded metrics (Request Infinity);
     _ ← renders metrics "subhost_rpc_requests_total 3";
     _ ← renders metrics "subhost_rpc_request_duration_seconds_count 0";
     renders metrics "subhost_rpc_request_duration_seconds_sum 0") []);
   ("cloned_handles_share_one_registry", passes (
     metrics ← unwrap handle_new;
     let clone := handle_clone metrics in
     _ ← recorded clone (Height 9);
     renders metrics "subhost_block_height 9") []);
   ("exporter_serves_metrics_and_health", passes (
     metrics ← unwrap handle_new;
     _ ← recorded metrics (Height 5);
     let http_get q text := assert (λ registries,
       match registries !! metrics with
       | Some m => contains text (bytes_str (metrics_router exposition Some q m).2)
       | None => false
       end) in
     _ ← http_get GetMetrics "subhost_block_height 5";
     http_get GetMetricsHealth "ok") [])].

Lemma metrics_tests_pass : all_pass metrics_tests = true.
Proof. vm_compute. reflexivity. Qed.

Definition same_verbosity (v w : Verbosity) : bool :=
  match v, w with Quiet, Quiet | Normal, Normal | Verbose, Verbose => true | _, _ => false end.
Definition telemetry_tests_flags : list (string * bool) :=
  [("verbose_beats_quiet",
     same_verbosity (from_flags true true) Verbose && same_verbosity (from_flags true false) Verbose
     && same_verbosity (from_flags false true) Quiet
     && same_verbosity (from_flags false false) Normal
     && same_verbosity (tc_verbosity telemetry_default) Normal)].
Definition telemetry_tests_init : list (string * bool) :=
  [("config_defaults_to_human_readable_output",
     negb (tc_json telemetry_default) && tc_with_target telemetry_default
     && same_verbosity (tc_verbosity telemetry_default) Normal
     && same_verbosity (tc_verbosity (telemetry_new Quiet)) Quiet);
   ("a_malformed_rust_log_falls_back_to_the_verbosity_directive",
     let filter := env_filter (λ _, None) id (λ _, Some "=not a filter=") (telemetry_new Quiet) in
     bool_decide (filter = directive Quiet));
   ("double_initialization_is_reported_not_fatal",
     let first := init "info" telemetry_default None in
     let second := init "info" telemetry_default first.1 in
     errs second.2 any
     && bool_decide (is_Some (init_or_warn "info" telemetry_default second.1)))].
Lemma telemetry_tests_pass : all_pass (telemetry_tests_flags ++ telemetry_tests_init) = true.
Proof. vm_compute. reflexivity. Qed.
End NodeTests.
