(* ===== verification/TestNetwork.v ===== *)
(** * The tests of the network crate

    The test module of [subhost-network]. A multiaddress is its text, and it parses when
    it starts with a protocol the tests use. *)

From Stdlib Require Import String.
From S2P Require Import Prelude Order Text Deps Bincode Network Harness.
Import RefNetwork.

Module NetworkTests.
#[local] Instance message_eq_dec : EqDecision NetworkMessage.
Proof. solve_decision. Defined.
Definition parse_text (s : string) : result string string :=
  if starts_with "/ip4/" s || starts_with "/dns4/" s then Ok s else Err "invalid multiaddr".
Definition net_config (listen : string) (peers : list string) (max_peers : Z) (mdns : bool)
  : NetworkConfig :=
  {| nc_listen_addr := listen; nc_bootstrap_peers := peers; nc_max_peers := max_peers;
     nc_enable_mdns := mdns |}.
Definition default_listen : string := nc_listen_addr network_config_default.
Definition default_peers : Z := nc_max_peers network_config_default.
Definition new_manager (c : NetworkConfig) : result NetworkError (@NetworkManager nat (list bytes) _ _) :=
  manager_new parse_text c 1%nat log_libp2p.
Definition is_net_config (e : NetworkError) : bool := match e with NetConfig _ => true | _ => false end.
Definition wire_json (m : NetworkMessage) : bytes := str_bytes (to_json m).

Definition network_tests : list (string * bool) :=
  let zero := array_repeat (byte_of 0) 32 in
  let b l := byte_of <$> l in
  let quiet := net_config default_listen [] default_peers false in
  [("default_config_parses",
     ok_eq (parsed_addresses parse_text network_config_default) ("/ip4/0.0.0.0/tcp/0", []));
   ("invalid_addresses_and_peer_limits_are_rejected_up_front",
     errs (parsed_addresses parse_text (net_config "not-a-multiaddr" [] default_peers true))
       is_net_config
     && errs (parsed_addresses parse_text
                (net_config default_listen ["/ip4/127.0.0.1/tcp/1"; "garbage"] default_peers true))
          is_net_config
     && errs (parsed_addresses parse_text (net_config default_listen [] 0 true)) is_net_config);
   ("bootstrap_peers_are_parsed_in_order",
     let peers := ["/ip4/10.0.0.1/tcp/30333"; "/dns4/validator-1/tcp/30333"] in
     ok_eq (snd <$> parsed_addresses parse_text (net_config default_listen peers default_peers true))
       peers);
   ("message_validation_rejects_empty_oversized_and_exhausted_payloads",
     is_ok (message_validate (DagVertex (b [1])))
     && errs (message_validate (DagVertex [])) any
     && errs (message_validate
                (BlockProposal (replicate (Z.to_nat (MAX_TRANSMIT_BYTES + 1)) (byte_of 0)))) any
     && is_ok (message_validate (TransactionStem (b [1]) 3))
     && errs (message_validate (TransactionStem (b [1]) 0)) any
     && is_ok (message_validate (TransactionFluff zero (b [1])))
     && errs (message_validate (Vote zero [])) any);
   ("messages_round_trip_through_the_wire_encoding",
     forallb (λ message,
         (Z.of_nat (length (wire_json message)) <=? MAX_TRANSMIT_BYTES)
         && ok_eq (from_json (bytes_str (wire_json message))) message)
       [TransactionStem (b [1; 2]) 4; TransactionFluff (array_repeat (byte_of 7) 32) (b [3]);
        DagVertex (b [4]); BlockProposal (b [5]); Vote (array_repeat (byte_of 9) 32) (b [6])]);
   ("manager_construction_yields_working_channels",
     match new_manager quiet with
     | Ok manager => (connected_peer_count manager =? 0)
                     && bool_decide (try_send (DagVertex (b [1])) [] = [DagVertex (b [1])])
     | Err _ => false
     end);
   ("manager_construction_rejects_an_invalid_config",
     errs (new_manager (net_config "nope" [] default_peers false)) is_net_config);
   ("inbound_gossip_reaches_the_application",
     match new_manager quiet with
     | Ok manager =>
         let message := BlockProposal (b [1; 2; 3]) in
         let received := handle_gossip (wire_json message) manager in
         let drained := set_inbound (drop 1 (nm_inbound received)) received in
         let dropped := handle_gossip (wire_json (DagVertex []))
                          (handle_gossip (str_bytes "not json") drained) in
         bool_decide (head (nm_inbound received) = Some message)
         && bool_decide (nm_inbound dropped = [])
     | Err _ => false
     end)].

Lemma network_tests_pass : all_pass network_tests = true.
Proof. vm_compute. reflexivity. Qed.
End NetworkTests.
