(* ===== verification/TestTools.v ===== *)
(** * The tests of the command line, the explorer and the benchmark

    The test modules of [crates/subhost-cli/src/main.rs], [explorer/src/main.rs] and
    [crates/subhost-bench/src/main.rs], except the tests of the argument parser (clap). *)

From Stdlib Require Import String.
From S2P Require Import Prelude Order Text Deps Bincode Core WorldState Storage Rpc RpcApi Wallet Client Observe Node WalletDir Explorer Cli Bench Harness.
Import Ref RefNode RefWallet.

Definition repeat_text (n : nat) (s : string) : string := String.concat EmptyString (replicate n s).
Definition hex_text (n : nat) (s : string) : string := "0x" +:+ repeat_text n s.
Definition ones : string := hex_text 20 "11".
Definition twos : string := hex_text 20 "22".
(** A wallet of password [password123], and a directory with it and two files that are
    not wallets. *)
Definition alice : result WalletError Wallet :=
  wallet_new (array_repeat (byte_of 5) 32) "password123" (array_repeat (byte_of 6) SALT_BYTES)
    (array_repeat (byte_of 7) NONCE_BYTES).
Definition text_file (text : string) : Disk :=
  {| d_target := Some {| f_bytes := str_bytes text; f_synced := false |}; d_temp := None;
     d_shadow := None |}.
Definition wallet_listing (w : Wallet) : Dir :=
  <["alice.json" := (save (λ _, None) w no_disk).1]>
    (<["notes.txt" := text_file "ignored"]> {["other.json" := text_file "{}"]}).
Definition listing_io : DirIo := dir_io ["notes.txt"; "other.json"; "alice.json"].
Definition with_alice (p : Wallet → bool) : bool := match alice with Ok w => p w | Err _ => false end.
(** A node nobody listens for. *)
Definition unreachable : Transport unit := λ _ _ w, (w, Err "connection refused").

Module CliTests.
Definition cli_tests_parsing : list (string * bool) :=
  [("allocation_parsing_accepts_valid_pairs_and_rejects_junk",
     ok_eq (parse_allocation (ones +:+ "=1000")) (test_addr 17, 1000)
     && is_ok (parse_allocation (" " +:+ ones +:+ " = 5 "))
     && forallb (λ bad, errs (parse_allocation bad) any)
          [ones; "not-an-address=1"; ones +:+ "=notanumber"; "0x11=1"; "=1"]);
   ("validator_parsing_accepts_valid_triples_and_rejects_junk",
     ok_eq (parse_validator (twos +:+ "=0xaabb:100"))
       {| vi_address := test_addr 34; vi_public_key := [byte_of 170; byte_of 187]; vi_power := 100 |}
     && forallb (λ bad, errs (parse_validator bad) any)
          [twos +:+ "=0xaabb"; twos +:+ "=:100"; twos +:+ "=0xzz:100"; twos +:+ "=0xaabb:notanumber";
           "nope=0xaabb:100"]);
   ("address_parsing_is_strict",
     is_ok (cli_parse_address ones) && is_ok (cli_parse_address ("  " +:+ ones +:+ "  "))
     && forallb (λ bad, errs (cli_parse_address bad) any)
          [EmptyString; "0x"; repeat_text 20 "11"; "0xzz"]);
   ("transaction_hash_validation_is_strict",
     is_tx_hash (hex_text 32 "11") && negb (is_tx_hash (repeat_text 32 "11"))
     && negb (is_tx_hash (hex_text 31 "11")) && negb (is_tx_hash (hex_text 32 "zz")));
   ("quantity_and_amount_parsing_handle_both_json_shapes",
     bool_decide (parse_quantity (VString "0x1f") = Some 31)
     && bool_decide (parse_quantity (VNumber 31) = Some 31)
     && bool_decide (parse_quantity (VString "1f") = None)
     && bool_decide (parse_amount (VString "0xffffffffffffffffffffff") = Some (2 ^ 88 - 1))
     && bool_decide (parse_amount (VNumber 7) = Some 7)
     && bool_decide (parse_amount VNull = None))].

Definition init_io : InitIo := {| ii_mkdir := None; ii_write := Ok (); ii_left_over := None |}.
Definition init_run (chain_id : Z) (allocations validators : list string) (force : bool)
  : ST (option string) CliError (GenesisConfig * list string) :=
  init_genesis (λ _, None) init_io 7 chain_id (Some "data") allocations validators force.
Definition genesis_of (file : option string) : option GenesisConfig :=
  content ← file;
  match genesis_load (path_join "data" GENESIS_FILE_NAME) (Ok content) with
  | Ok g => Some g
  | Err _ => None
  end.
Definition cli_tests_files : list (string * bool) :=
  let address := "0xabcdefabcdefabcdefabcdefabcdefabcdefabcd" in
  [("wallet_path_rejects_traversal_and_collisions",
     ok_eq (wallet_path "dir" ∅ None address) "abcdefab.json"
     && ok_eq (wallet_path "dir" ∅ (Some "alice") address) "alice.json"
     && forallb (λ bad, errs (wallet_path "dir" ∅ (Some bad) address) any)
          [EmptyString; ".."; "."; "../escape"; "nested/name"]
     && errs (wallet_path "dir" {["alice.json" := text_file "{}"]} (Some "alice") address) any);
   ("wallet_listing_skips_unrelated_files_and_finds_by_address", with_alice (λ wallet,
     let dir := wallet_listing wallet in
     ok_eq (map (w_address ∘ snd) <$> cli_list_wallets listing_io "dir" dir)
       [w_address wallet]
     && match parsed_address wallet with
        | Ok address =>
            ok_eq (w_address ∘ snd <$> cli_find_wallet listing_io "dir" dir address) (w_address wallet)
        | Err _ => false
        end
     && errs (cli_find_wallet listing_io "dir" dir (test_addr 9)) any));
   ("init_writes_a_loadable_genesis_and_refuses_to_clobber_it", passes (
     _ ← unwrap (init_run 7 [ones +:+ "=1000"] [twos +:+ "=0xaabb:10"] false);
     _ ← assert_eq (λ file, gen_chain_id <$> genesis_of file) (Some 7);
     _ ← assert_eq (λ file, g ← genesis_of file; gen_allocations g !! test_addr 17) (Some 1000);
     _ ← assert_eq (λ file, length ∘ gen_initial_validators <$> genesis_of file) (Some 1%nat);
     _ ← assert (λ file, from_option (λ g, is_ok (requires_validators g)) false (genesis_of file));
     _ ← matches_err (init_run 7 [] [] false) any;
     _ ← unwrap (init_run 9 [] [] true);
     assert_eq (λ file, gen_chain_id <$> genesis_of file) (Some 9)) None);
   ("init_rejects_duplicate_allocations", passes (
     matches_err (init_run 1 [ones +:+ "=1"; ones +:+ "=2"] [] false) any) None)].

Lemma cli_tests_pass : all_pass (cli_tests_parsing ++ cli_tests_files) = true.
Proof. vm_compute. reflexivity. Qed.
End CliTests.

Module ExplorerTests.
Definition explorer_config (listen_addr : SocketAddr) (rpc_url : string) (dir : option string)
  : ExplorerConfig :=
  {| ec_listen_addr := listen_addr; ec_rpc_url := rpc_url;
     ec_chain_name := ec_chain_name explorer_config_default; ec_wallet_dir := dir |}.
Definition loopback : SocketAddr := ec_listen_addr explorer_config_default.
Definition url : string := ec_rpc_url explorer_config_default.
Definition request (from to amount password : string) : TransferRequest :=
  {| tr_from := from; tr_to := to; tr_amount := amount; tr_password := password |}.
Definition transfer_errs (dir : Dir) (c : ExplorerConfig) (r : TransferRequest)
  (pattern : ExplorerError → bool) : bool :=
  errs (explorer_transfer unreachable listing_io None None dir dir c r ()).2 pattern.
Definition is_request (e : ExplorerError) : bool := match e with InvalidRequest _ => true | _ => false end.
Definition is_unavailable (e : ExplorerError) : bool :=
  match e with WalletsUnavailable => true | _ => false end.

Definition explorer_tests_requests : list (string * bool) :=
  let with_dir := explorer_config loopback url (Some "dir") in
  [("configuration_requires_an_http_rpc_url",
     is_ok (explorer_new (Ok ()) explorer_config_default)
     && errs (explorer_new (Ok ()) (explorer_config loopback "ftp://node" None))
          (λ e, match e with ExplorerBadConfig _ => true | _ => false end));
   ("address_and_hash_validation_are_strict",
     is_ok (explorer_parse_address ones) && is_ok (explorer_parse_address ("  " +:+ ones +:+ " "))
     && forallb (λ bad, errs (explorer_parse_address bad) any)
          [EmptyString; "0x"; "0xzz"; repeat_text 20 "11"]
     && is_tx_hash (hex_text 32 "11") && negb (is_tx_hash (hex_text 31 "11"))
     && negb (is_tx_hash (repeat_text 32 "11")));
   ("json_field_helpers_handle_both_shapes_and_junk",
     let object := [("hash", VString "0xabc"); ("number", VNumber 7)] in
     bool_decide (parse_quantity (VString "0x1f") = Some 31)
     && bool_decide (parse_quantity (VNumber 31) = Some 31)
     && bool_decide (parse_quantity (VString "1f") = None)
     && bool_decide (parse_amount (VString "0xa") = Some 10)
     && bool_decide (parse_amount (VNumber 10) = Some 10)
     && bool_decide (parse_amount VNull = None)
     && bool_decide (string_field object "hash" = Some "0xabc")
     && bool_decide (string_field object "number" = None)
     && bool_decide (string_field object "missing" = None));
   ("wallet_endpoints_report_unavailable_without_a_configured_directory",
     errs (explorer_accounts unreachable listing_io ∅ explorer_config_default ()).2 is_unavailable
     && transfer_errs ∅ explorer_config_default (request ones twos "1" "password123") is_unavailable);
   ("transfer_validates_input_before_touching_wallets_or_the_node",
     forallb (λ '(from, to, amount),
         transfer_errs ∅ with_dir (request from to amount "password123") is_request)
       [("bad", twos, "1"); (ones, "bad", "1"); (ones, ones, "1"); (ones, twos, "0");
        (ones, twos, "abc")]);
   ("transfer_reports_a_missing_wallet_and_a_wrong_password", with_alice (λ wallet,
     let dir := wallet_listing wallet in
     transfer_errs dir with_dir (request (hex_text 20 "99") twos "1" "password123")
       (λ e, match e with WalletNotFound _ => true | _ => false end)
     && transfer_errs dir with_dir (request (w_address wallet) twos "1" "wrong password")
          (λ e, match e with WalletLocked => true | _ => false end)));
   ("receipt_rejects_a_malformed_hash_before_calling_the_node",
     errs (explorer_receipt unreachable "0x1234" ()).2 is_request
     && errs (explorer_receipt unreachable (hex_text 32 "11") ()).2
          (λ e, match e with ExplorerRpc _ => true | _ => false end))].

Definition explorer_tests_surface (show_addr : SocketAddr → string) : list (string * bool) :=
  let status e := (explorer_api_error show_addr e).1 in
  let everywhere := {| sa_ip := V4 0 0 0 0; sa_port := 0 |} in
  let missing := {| di_entries := Err "No such file or directory"; di_meta _ := None;
                    di_wallet_meta _ := None; di_wallet_read _ := None |} in
  [("wallet_listing_skips_unrelated_files", with_alice (λ wallet,
     ok_eq (map (w_address ∘ snd)
              <$> explorer_list_wallets listing_io (wallet_listing wallet) "dir") [w_address wallet]
     && errs (explorer_list_wallets missing ∅ "missing") any));
   ("a_non_loopback_bind_is_refused",
     errs (explorer_run (Ok ()) (Ok ()) (explorer_config everywhere url None))
       (λ e, match e with ExplorerBadConfig _ => true | _ => false end));
   ("error_statuses_distinguish_client_and_upstream_failures",
     (status (InvalidRequest "x") =? 400) && (status (WalletNotFound Address_ZERO) =? 404)
     && (status WalletLocked =? 401) && (status WalletsUnavailable =? 503)
     && (status (ExplorerRpc "down") =? 502) && (status (ExplorerBadConfig "bad") =? 500));
   ("health_endpoint_answers_without_a_node",
     match (explorer_router unreachable listing_io None None ∅ ∅ show_addr explorer_config_default
              EmptyString EmptyString GetExplorerHealth ()).2 with
     | ExplorerHealthReply text => contains "ok" text
     | _ => false
     end);
   ("wallet_dir_from_env_prefers_the_explicit_home",
     bool_decide (wallet_dir_from_env
                    (λ k, assoc k [("SUBHOST_TEST_HOME", "/tmp/subhost-explorer-test")]) (λ _, None)
                  = Some "/tmp/subhost-explorer-test/.subhost/wallets")
     && bool_decide (wallet_dir_from_env
                       (λ k, assoc k [("SUBHOST_TWO_USERS_ENV", "/tmp/subhost-does-not-exist.env")])
                       (λ _, None) = None))].

Lemma explorer_tests_pass :
  all_pass (explorer_tests_requests ++ explorer_tests_surface (λ _, "0.0.0.0:0")) = true.
Proof. vm_compute. reflexivity. Qed.
End ExplorerTests.

Module BenchTests.
Definition bench_cli (endpoint : string) (duration : Z) (concurrency : nat) (timeout : Z) : BenchCli :=
  {| bc_command := Tps; bc_endpoint := endpoint; bc_duration_secs := duration;
     bc_concurrency := concurrency; bc_timeout_secs := timeout |}.
Definition bench_tests : list (string * bool) :=
  [("validation_rejects_degenerate_parameters",
     is_ok (bench_validate (bench_cli DEFAULT_ENDPOINT 10 32 10))
     && errs (bench_validate (bench_cli DEFAULT_ENDPOINT 10 0 10)) any
     && errs (bench_validate (bench_cli DEFAULT_ENDPOINT 0 32 10)) any
     && errs (bench_validate (bench_cli DEFAULT_ENDPOINT 10 32 0)) any
     && errs (bench_validate (bench_cli "127.0.0.1:8545" 10 32 10)) any);
   ("probe_fails_on_an_unreachable_endpoint",
     errs (probe unreachable (λ _, EmptyString) "http://127.0.0.1:1" ()).2 any);
   ("a_json_rpc_error_object_counts_as_a_failure",
     let error := VObject [("code", VNumber (-32601)); ("message", VString "nope")] in
     let body := VObject [("jsonrpc", VString "2.0"); ("id", VNumber 1); ("error", error)] in
     errs (bench_request (answering body) (λ _, "nope") "eth_chainId" [] ()).2 any)].
Lemma bench_tests_pass : all_pass bench_tests = true.
Proof. vm_compute. reflexivity. Qed.
End BenchTests.
